(* ===== verification/_CoqProject ===== *)
-Q . S2P
Prelude.v
CList.v
Buffer.v
Utils.v
Tree.v
TreeSpec.v
TreeNodes.v
TreeSizes.v
TreeText.v
TreePaths.v
GrammarTypes.v
TreeLists.v
TreePicks.v
TreeCounts.v
StrMap.v
World.v
TreeGrafts.v
TreeLife.v
TreeSerial.v
ToyGrammar.v
ChunkStore.v
TreeMutation.v
MutationSpec.v
RecursionSpec.v
SplicingSpec.v
ChunkHash.v
ChunkSpec.v
ChunkLife.v
Language.v
MutatorState.v
GrammarMutator.v
RulesPlan.v
FuzzRound.v
FuzzStages.v
ToySession.v
FuzzOutput.v
FuzzCount.v
TrimRound.v
Cuckoo.v
Planfuzzer.v
AflBitmap.v
AflQueue.v
AflScore.v
AflCull.v
AflTrim.v
TrimCase.v
AflDet.v
AflDetSpec.v
AflDict.v
AflDictSpec.v
AflDictText.v
AflDictAuto.v
AflHavoc.v
AflHavocSpec.v
AflStage.v
AflStageSpec.v
AflExtras.v
AflExtrasSpec.v
AflStageLife.v
AflCache.v
AflCacheSpec.v
AflCacheLife.v
AflTrimCase.v
AflTrimSpec.v
AflSave.v
AflSaveSpec.v
