(* ===== verification/Prelude.v ===== *)
(** * A verification development of planfuzzer

    planfuzzer tests the executor of PostgreSQL: AFL++ produces query plans with
    the Grammar-Mutator, an extension of the server reads a serialised plan and
    runs it in place of the plan of a dummy query.  The development models the
    parts of that pipeline that are written in C and carry its logic, and proves
    what makes each of them correct.

    ** The program and the files

    AFL++ keeps a queue of inputs and their coverage; for an entry it trims the
    input, runs its deterministic stages and asks the custom mutator for more.  The
    Grammar-Mutator holds the input as a derivation tree, mutates the tree and hands
    out its text.  The target loads the text with the extension.  From the bottom up:

    - this file: machine integers ([wrap]), outcomes, the state monad [M] with its
      rules of total ([wp]) and partial ([wlp]) correctness, the host's refusals;
    - [CList] (Grammar-Mutator/src/list.c), [Buffer] (include/helpers.h), [Utils]
      (src/utils.c), [StrMap] (third_party/rxi_map/map.c): the containers, the random
      generator and string search under the mutator;
    - [Tree] (src/tree.c, include/tree.h): nodes and trees on a heap with every function
      of the file.  [TreeSpec] relates a heap to the tree it stores ([shape],
      [stored]); [TreeNodes], [TreeSizes], [TreeText], [TreeLists], [TreePaths],
      [TreePicks], [TreeCounts], [TreeSerial], [TreeGrafts] and [TreeLife] prove the
      functions group by group; [GrammarTypes] says what it is to be a tree of a grammar;
    - [World]: what the mutator shares between calls, with the generated code and the
      hash as the classes [Grammar] and [Digest];
    - [ChunkStore] (src/chunk_store.c) with [ChunkHash], [ChunkSpec] and [ChunkLife]:
      the store that shares equal subtrees;
    - [TreeMutation] (src/tree_mutation.c, src/tree_trimming.c) with [MutationSpec],
      [RecursionSpec], [SplicingSpec] and [Language]: the mutations and trimmings;
    - [MutatorState] and [GrammarMutator] (src/grammar_mutator.c): the handlers that
      AFL++ calls, composed from all of the above.  [RulesPlan], [FuzzRound],
      [FuzzStages], [FuzzOutput] and [FuzzCount] follow them through the stages of
      fuzzing, [TrimRound] through trimming;
    - [AflBitmap] (AFLplusplus/src/afl-fuzz-bitmap.c, include/coverage-64.h): coverage maps;
      [AflQueue] (src/afl-fuzz-queue.c) with [AflScore] and [AflCull]: the best entry of
      every byte of the map and the favoured entries; [AflSave] with [AflSaveSpec],
      [save_if_interesting]: what becomes of an input after its run;
    - [AflTrim] (src/afl-fuzz-mutators.c, src/afl-fuzz-run.c): trimming over an interface
      for the custom mutator; [TrimCase] gives the Grammar-Mutator as its instance;
    - [AflCache] (src/afl-fuzz-queue.c) with [AflCacheSpec] and [AflCacheLife]: the cache that
      hands out the test cases; [AflTrimCase] (src/afl-fuzz-run.c) with [AflTrimSpec]:
      [trim_case] and the built-in trimmer, on an input that the cache holds;
    - [AflDict] (src/afl-fuzz-extras.c) with [AflDictSpec], [AflDictText] and [AflDictAuto]:
      the dictionary;
    - [fuzz_one_original] (src/afl-fuzz-one.c), stage by stage: [AflDet] with [AflDetSpec],
      the deterministic changes of bits and bytes; [AflExtras] with [AflExtrasSpec], the
      tokens of the dictionary at every position; [AflHavoc] with [AflHavocSpec], one random
      change; [AflStage] with [AflStageSpec] and [AflStageLife], the custom, havoc and
      splicing stages around it, over the interface [fuzz_ops] of a custom mutator;
    - [Cuckoo] (pg_cuckoo/PgExtension/src/cuckoo.c) and [Planfuzzer]
      (src/dbextension/planfuzzer.c): the extensions of the server, their planner hook,
      their plan cache and the injection of a plan, over transactions in which errors of
      SPI and of the executor may occur;
    - [ToyGrammar] and [ToySession]: a grammar and a session over it, on which the
      witnesses run.

    A C function is a definition of the same name.  Code with state is a computation of
    [M S A], where [S] is the state it can reach: the heap of [Tree], the [world] of the
    mutator, the [driver] with [my_mutator] around it, the queue, the trimmer, the
    session of the server (there, in [PG], an error keeps the assignments made before it).  Pointers are optional locations; a dereference of NULL or of a
    freed location, an access out of bounds, a shift beyond the width and an abnormal exit are [Fault]s, so a
    theorem that says [Ret] also says that none of them happens.  Integers are kept at
    their width.

    ** What the theorems show

    - Sessions: [afl_custom_fuzz] hands out sentences of the grammar and keeps the
      session intact; the calls that [afl_custom_fuzz_count] announces go through every
      stage; trimming tries every candidate once and ends.
    - Mutations and trimmings: each returns a new tree that differs from its input in the
      one subtree it exchanges and leaves all other memory as it was.  Where the recursive
      mutation is asked for more copies than an [int] can count, the shift is undefined.
    - Chunk store: every subtree it has seen is stored once, what is not kept is freed, and
      clearing frees every stored node once.
    - Trees: cloning, freeing, comparing, counting, printing and picking agree with the
      functions on the abstract tree; serialising round trips.
    - Containers: the list refines sequences, the map refines finite maps, the buffers
      grow without losing bytes, the random generator is unbiased.
    - Queue: the table of best entries and its reference counts are an invariant; the
      favoured entries cover the map and none is superfluous.  Coverage: novelty is
      detected exactly, and the two ways of computing it agree.
    - Saving: an input is kept exactly if its trace has news, and a session keeps no more than
      the virgin maps have bits; without instrumentation a slow input may never be done.
    - Cache: whatever is evicted in between, a read returns what the file holds, and the entry
      in use keeps its block; with the smallest cache that is accepted a read may never end.
      Built-in trimmer: it ends, keeps a cut exactly if the checksum stays, and leaves file,
      cache and table of best entries in agreement.
    - Deterministic stages: no change of a single byte is lost to the tests that skip
      redundant cases; for two bytes one is.
    - Random stages: a round of havoc runs a few stacked changes of the input, each from the
      list [tweak], within the bounds of every buffer, and puts the input back; the stages
      end, with a bound on the runs of the target; a splice goes on with the head of the
      other test case, not with its tail.  Dictionary stages:
      every token is tried at every position that counts and nothing else is, except that
      automatic tokens beyond a limit are only inserted.
    - Dictionary: a keyword survives being written to a file and loaded, a keyword with an
      unprintable byte keeps the loader busy for ever; the operations keep the dictionary
      sorted, free of duplicates and of leaks.
    - Extensions: an injected plan reaches no other query as long as SPI does not fail, and
      is handed to the next query when it does; after an injection the cache is out of the
      session for good, as it is after an error.  The executor-only extension clears its
      hook after every call that does not end in an error of the parser or planner.

    ** Assumptions

    The generated generators, the parser, the hash, the target program, PostgreSQL and the C
    library's sort are classes.  The laws asked of them ([GeneratorLaw], [StoreLaw],
    [DigestLaw], [TrimLaw], [FuzzLaw], [QSortLaw]) state what the code relies on, and each has an
    instance that the witnesses use.  [Target] is what the program under test does with an
    input after those before it.  [Runner] is a run of the target, [Finder] says which
    runs put an input into the queue, and [Rerun] is a run with more time and the calibration.  [Host] decides which allocations and system calls
    fail; theorems that need them to succeed say [never_refuses].

    ** Bounds and fuel

    Recursion over the heap has as fuel one more than the number of nodes ([with_fuel]); a
    tree stored in a heap is no deeper than that, and the theorems conclude [Ret].  Walks of a
    chain use its length in the same way, [find_next_rule] the number of rules left
    ([rule_fuel]), the rounds of trimming one more than the candidates left.  Two loops
    of the source have no bound: rejection sampling, where the fuel is any number above
    the position of the first accepted draw and a generator is assumed to have one
    ([Random], [fair] for the redrawn positions of havoc); and the retry of the random recursive stage ([rrm_loop]), the one
    place where a theorem about a session allows [NoFuel].  The random stages
    have the number of rounds and of cycles as fuel: a find doubles the rounds only while the
    score is small, and every cycle after the first uses one of fifteen splices, so that
    [random_stages_end] computes a bound.  The cache has the number of its slots as fuel for
    evictions and any number of draws within which every slot comes up; the built-in
    trimmer needs 17 rounds, for block sizes from 2^16 down, and as many positions as bytes.  The jumps
    back in [save_if_interesting] need one more turn than the virgin map of timeouts has bits.  The loader of the
    dictionary has the length of the line as fuel, and runs out of any fuel exactly on an
    unprintable byte.  Counters of nodes are asked to stay below their width where the
    source would wrap.

    ** Not modelled

    - the generators made by the grammar compiler and the parser (built, not in the
      repository) and the C++ drivers of the database (input and output around libpq);
    - sqlsmith and the custom mutators of AFL++ other than the Grammar-Mutator (third
      party), the Haskell plan compiler (another language);
    - of AFL++: the main loop, the stages that read comparisons from the target (cmplog)
      and the scheduler of MOpt, custom mutators that take part in stacked changes, the
      bookkeeping of an entry at the end of [fuzz_one], floating-point scores, calibration, the compilers, the instrumentation and the
      emulator modes;
    - messages to the terminal, statistics and timing. *)

From Stdlib Require Export Lia ZArith.
From stdpp Require Export strings numbers tactics gmap base list.
From stdpp Require Export list_basics list_relations list_monad list_misc list_tactics list_numbers.

Global Open Scope Z_scope.

(** ** Fixed-width unsigned integers

    A C [uintN_t] is a [Z] kept in [[0, 2^N)]; every arithmetic result that
    the source stores in such a variable is passed through [wrap]. *)

Definition wrap (w x : Z) : Z := x mod 2 ^ w.

Declare Scope c_scope.
Delimit Scope c_scope with c.
Abbreviation u8 := (wrap 8).
Abbreviation u16 := (wrap 16).
Abbreviation u32 := (wrap 32).
Abbreviation u64 := (wrap 64).

(** A conversion to [int32_t]. *)
Definition i32 (x : Z) : Z := wrap 32 (x + 2 ^ 31) - 2 ^ 31.

(** The length of a list as an integer of the program. *)
Abbreviation zlen l := (Z.of_nat (length l)).

Definition in_width (w x : Z) : Prop := 0 ≤ x < 2 ^ w.

(** ** Outcomes of C code

    [Ret] is a normal return, [Fault] an execution the C standard leaves
    undefined or an abnormal process exit, [NoFuel] a bounded loop of the
    model that was cut short. *)

Inductive fault :=
| NullDeref | Dangling | OutOfBounds | Uninit | ProcessExit | DivByZero | BadShift.

Inductive outcome (A : Type) :=
| Ret (a : A)
| Fault (e : fault)
| NoFuel.
Arguments Ret {A} a.
Arguments Fault {A} e.
Arguments NoFuel {A}.

Definition M (S A : Type) : Type := S → outcome (A * S).

#[export] Instance M_ret S : MRet (M S) := λ A a s, Ret (a, s).
#[export] Instance M_bind S : MBind (M S) := λ A B k m s,
  match m s with
  | Ret (a, s') => k a s'
  | Fault e => Fault e
  | NoFuel => NoFuel
  end.

Section Monad.
Context {S : Type}.

Definition get_state : M S S := λ s, Ret (s, s).
Definition put_state (s : S) : M S unit := λ _, Ret (tt, s).
Definition fail {A} (e : fault) : M S A := λ _, Fault e.
Definition out_of_fuel {A} : M S A := λ _, NoFuel.

(** A [for (i = start; i < start + n; ++i) body(i)] loop. *)
Fixpoint for_loop (n : nat) (i : Z) (body : Z → M S unit) : M S unit :=
  match n with
  | O => mret tt
  | Datatypes.S n' => _ ← body i; for_loop n' (i + 1) body
  end.

(** A loop that stops at the first iteration whose body returns [false]. *)
Fixpoint all_loop (n : nat) (i : Z) (body : Z → M S bool) : M S bool :=
  match n with
  | O => mret true
  | Datatypes.S n' => b ← body i; if (b : bool) then all_loop n' (i + 1) body else mret false
  end.

Lemma bind_Ret {A B} (m : M S A) (k : A → M S B) s a s' :
  m s = Ret (a, s') → (m ≫= k) s = k a s'.
Proof. unfold mbind, M_bind. by intros ->. Qed.

Lemma mret_Ret {A} (a : A) (s : S) : (mret a : M S A) s = Ret (a, s).
Proof. done. Qed.
End Monad.

(** The [n] bytes of an integer in memory, least significant first. *)
Fixpoint le_bytes (n : nat) (x : Z) : list Z :=
  match n with
  | O => []
  | S n => x mod 256 :: le_bytes n (x / 256)
  end.

Fixpoint le_value (bs : list Z) : Z :=
  match bs with
  | [] => 0
  | b :: bs => b + 256 * le_value bs
  end.

(** ** The host

    Requests to the C library and the operating system that may fail (an
    allocation, a system call) are numbered in the order they are made;
    [refuses n] says that request [n] fails. *)

Class Host := { refuses : positive → bool }.

Definition never_refuses `{Host} : Prop := ∀ n, refuses n = false.

Definition obliging : Host := {| refuses := λ _, false |}.

(** ** Lemmas on wrap-around *)

Lemma wrap_small w x : 0 ≤ x < 2 ^ w → wrap w x = x.
Proof. intros. unfold wrap. by apply Z.mod_small. Qed.

Lemma wrap_range w x : 0 ≤ w → 0 ≤ wrap w x < 2 ^ w.
Proof. intros. unfold wrap. apply Z.mod_pos_bound. lia. Qed.

Lemma wrap_add_l w x y : wrap w (wrap w x + y) = wrap w (x + y).
Proof. unfold wrap. by rewrite Zplus_mod_idemp_l. Qed.

Lemma wrap_add_r w x y : wrap w (x + wrap w y) = wrap w (x + y).
Proof. unfold wrap. by rewrite Zplus_mod_idemp_r. Qed.

Lemma wrap_sub_l w x y : wrap w (wrap w x - y) = wrap w (x - y).
Proof. unfold wrap. by rewrite Zminus_mod_idemp_l. Qed.

Lemma wrap_wrap w x : wrap w (wrap w x) = wrap w x.
Proof. unfold wrap. by rewrite Zmod_mod. Qed.

Create Rewrite HintDb wrap.
#[export] Hint Rewrite wrap_add_l wrap_add_r wrap_sub_l wrap_wrap : wrap.

(** Unfolds the monad and computes the next step. *)
Ltac mrun := unfold mbind, M_bind, mret, M_ret, get_state, put_state; simpl.

(** Discharges the premises of [H] that are assumptions. *)
Ltac discharge H :=
  repeat match type of H with ?P → _ => specialize (H ltac:(assumption)) end.

(** ** Total correctness

    [wp m s Q]: run in state [s], [m] returns normally and [Q] holds of its
    result and the final state. *)

Definition wp {S A} (m : M S A) (s : S) (Q : A → S → Prop) : Prop :=
  match m s with Ret (a, s') => Q a s' | _ => False end.

(** [wlp m s Q]: the same, except that a loop that the source does not bound may
    not have ended within the fuel. *)

Definition wlp {S A} (m : M S A) (s : S) (Q : A → S → Prop) : Prop :=
  match m s with Ret (a, s') => Q a s' | Fault _ => False | NoFuel => True end.

Section Wp.
Context {S : Type}.

Lemma wp_wlp {A} (m : M S A) s Q : wp m s Q → wlp m s Q.
Proof. unfold wp, wlp. by destruct (m s) as [[a s']| |]. Qed.

Lemma wlp_bind {A B} (m : M S A) (k : A → M S B) s Q :
  wlp m s (λ a s', wlp (k a) s' Q) → wlp (m ≫= k) s Q.
Proof. unfold wlp, mbind, M_bind. by destruct (m s) as [[a s']| |]. Qed.

Lemma wlp_mono {A} (m : M S A) s (P Q : A → S → Prop) :
  wlp m s P → (∀ a s', P a s' → Q a s') → wlp m s Q.
Proof. unfold wlp. destruct (m s) as [[a s']| |]; naive_solver. Qed.

Lemma wlp_Ret {A} (m : M S A) s Q : wlp m s Q ↔ m s = NoFuel ∨ ∃ a s', m s = Ret (a, s') ∧ Q a s'.
Proof. unfold wlp. destruct (m s) as [[a s']| |]; naive_solver. Qed.

Lemma wp_ret {A} (a : A) (s : S) (Q : A → S → Prop) : Q a s → wp (mret a) s Q.
Proof. done. Qed.

Lemma wp_bind {A B} (m : M S A) (k : A → M S B) s Q :
  wp m s (λ a s', wp (k a) s' Q) → wp (m ≫= k) s Q.
Proof. unfold wp, mbind, M_bind. by destruct (m s) as [[a s']| |]. Qed.

(** Three steps of a longer sequence taken together. *)
Lemma wp_bind3 {A B C D} (a : M S A) (b : A → M S B) (c : A → B → M S C) (k : C → M S D) s Q :
  wp (x ← a; y ← b x; c x y) s (λ z s', wp (k z) s' Q) → wp (x ← a; y ← b x; z ← c x y; k z) s Q.
Proof.
  unfold wp, mbind, M_bind. destruct (a s) as [[x s1]| |]; [|done..].
  destruct (b x s1) as [[y s2]| |]; [|done..]. by destruct (c x y s2) as [[z s3]| |].
Qed.

Lemma wp_mono {A} (m : M S A) s (P Q : A → S → Prop) :
  wp m s P → (∀ a s', P a s' → Q a s') → wp m s Q.
Proof. unfold wp. destruct (m s) as [[a s']| |]; naive_solver. Qed.

Lemma wp_get (s : S) (Q : S → S → Prop) : Q s s → wp get_state s Q.
Proof. done. Qed.

Lemma wp_put (s s' : S) (Q : unit → S → Prop) : Q tt s' → wp (put_state s') s Q.
Proof. done. Qed.

Lemma wp_Ret {A} (m : M S A) s Q : wp m s Q ↔ ∃ a s', m s = Ret (a, s') ∧ Q a s'.
Proof. unfold wp. destruct (m s) as [[a s']| |]; naive_solver. Qed.

(** A computation that gets as far as [P] and then fails. *)
Lemma wp_then_fault {A B} (m : M S A) (k : A → M S B) s (P : A → S → Prop) e :
  wp m s P → (∀ a s', P a s' → k a s' = Fault e) → (m ≫= k) s = Fault e.
Proof. unfold wp, mbind, M_bind. destruct (m s) as [[a s']| |]; naive_solver. Qed.

Lemma wp_for_loop (I : Z → S → Prop) n : ∀ i (body : Z → M S unit) s,
  I i s →
  (∀ j s, i ≤ j < i + Z.of_nat n → I j s → wp (body j) s (λ _ s', I (j + 1) s')) →
  wp (for_loop n i body) s (λ _ s', I (i + Z.of_nat n) s').
Proof.
  induction n as [|n IH]; intros i body s HI Hbody; simpl.
  { by rewrite Z.add_0_r. }
  apply wp_bind. eapply wp_mono; [apply Hbody; [lia|done]|]. intros [] s' HI'. simpl.
  replace (i + Z.of_nat (Datatypes.S n)) with (i + 1 + Z.of_nat n) by lia.
  apply IH; [done|]. intros j s'' Hj. apply Hbody. lia.
Qed.
End Wp.
