(* ===== verification/CList.v ===== *)
(** * CList: the doubly linked list of Grammar-Mutator/src/list.c

    The nodes live in a heap [lheap]; a [list_t] is a record of head, tail and
    size, and a [list_t *] is an [option list_t] ([None] is NULL).  Each C
    function is a definition of the same name.  [list_rep] relates a heap and a
    [list_t] to the sequence of stored pointers, and the theorems show that each
    operation implements the operation of the same name on sequences. *)

From S2P Require Import Prelude.

Abbreviation lloc := positive.

Section CList.
(** [D] is the type of the objects the [void *] data pointers point to. *)
Context {D : Type} `{EqDecision D}.
Abbreviation ptr := (option D).

Record list_node := ListNode {
  ln_next : option lloc; ln_prev : option lloc; ln_data : ptr }.

Record list_t := List_t {
  head : option lloc; tail : option lloc; lsize : Z }.

Record lheap := LHeap { cells : gmap lloc list_node; fresh_cell : lloc }.

Definition load (p : option lloc) : M lheap list_node := λ h,
  match p with
  | None => Fault NullDeref
  | Some p => match cells h !! p with
              | Some n => Ret (n, h)
              | None => Fault Dangling
              end
  end.

Definition store (p : option lloc) (f : list_node → list_node) : M lheap unit := λ h,
  match p with
  | None => Fault NullDeref
  | Some p => match cells h !! p with
              | Some n => Ret (tt, LHeap (<[p := f n]> (cells h)) (fresh_cell h))
              | None => Fault Dangling
              end
  end.

Definition free_cell (p : option lloc) : M lheap unit := λ h,
  match p with
  | None => Ret (tt, h)
  | Some p => match cells h !! p with
              | Some n => Ret (tt, LHeap (delete p (cells h)) (fresh_cell h))
              | None => Fault Dangling
              end
  end.

(** [malloc(sizeof(list_node_t))], then the three initialising stores. *)
Definition malloc_cell `{Host} (n : list_node) : M lheap (option lloc) := λ h,
  let p := fresh_cell h in
  if refuses p then Ret (None, LHeap (cells h) (Pos.succ p))
  else Ret (Some p, LHeap (<[p := n]> (cells h)) (Pos.succ p)).

Definition set_next (v : option lloc) (n : list_node) := ListNode v (ln_prev n) (ln_data n).
Definition set_prev (v : option lloc) (n : list_node) := ListNode (ln_next n) v (ln_data n).
Definition set_data (v : ptr) (n : list_node) := ListNode (ln_next n) (ln_prev n) v.

Definition list_create : list_t := List_t None None 0.

Definition list_insert `{Host} (l : option list_t) (data : ptr) : M lheap (option lloc * option list_t) :=
  match l with
  | None => mret (None, None)
  | Some l =>
      node ← malloc_cell (ListNode (head l) None data);
      match node with
      | None => mret (None, Some l)
      | Some _ =>
          tl ← (match tail l with
                | None => mret node
                | Some t => _ ← store (head l) (set_prev node); mret (tail l)
                end);
          mret (node, Some (List_t node tl (u64 (lsize l + 1))))
      end
  end.

Definition list_append `{Host} (l : option list_t) (data : ptr) : M lheap (option lloc * option list_t) :=
  match l with
  | None => mret (None, None)
  | Some l =>
      node ← malloc_cell (ListNode None (tail l) data);
      match node with
      | None => mret (None, Some l)
      | Some _ =>
          hd ← (match head l with
                | None => mret node
                | Some _ => _ ← store (tail l) (set_next node); mret (head l)
                end);
          mret (node, Some (List_t hd node (u64 (lsize l + 1))))
      end
  end.

(** The body of [list_remove] that takes the found node [cur], whose contents
    are [c], out of the chain and frees it. *)
Definition list_unlink (cur : option lloc) (c : list_node) : M lheap unit :=
  _ ← (match ln_prev c with Some _ => store (ln_prev c) (set_next (ln_next c)) | None => mret tt end);
  _ ← (match ln_next c with Some _ => store (ln_next c) (set_prev (ln_prev c)) | None => mret tt end);
  _ ← store cur (λ n, set_data None (set_prev None (set_next None n)));
  free_cell cur.

(** The [while (cur)] loop of [list_remove]. *)
Fixpoint list_remove_loop (fuel : nat) (l : list_t) (data : ptr) (cur : option lloc)
    : M lheap (bool * list_t) :=
  match cur, fuel with
  | None, _ => mret (false, l)
  | Some _, O => out_of_fuel
  | Some _, S fuel =>
      c ← load cur;
      if decide (ln_data c = data) then
        let hd := if decide (cur = head l) then ln_next c else head l in
        let tl := if decide (cur = tail l) then ln_prev c else tail l in
        _ ← list_unlink cur c;
        mret (true, List_t hd tl (u64 (lsize l - 1)))
      else list_remove_loop fuel l data (ln_next c)
  end.

Definition list_remove (l : option list_t) (data : ptr) : M lheap (bool * option list_t) :=
  match l with
  | None => mret (false, None)
  | Some l =>
      if decide (lsize l = 0 ∨ head l = None) then mret (false, Some l)
      else
        h ← get_state;
        r ← list_remove_loop (S (size (cells h))) l data (head l);
        mret (r.1, Some r.2)
  end.

Definition list_pop_front (l : option list_t) : M lheap (ptr * option list_t) :=
  match l with
  | None => mret (None, None)
  | Some l =>
      if decide (lsize l = 0 ∨ head l = None) then mret (None, Some l)
      else
        let hd := head l in
        c ← load hd;
        let data := ln_data c in
        tl ← (if decide (hd = tail l) then mret None
              else _ ← store (ln_next c) (set_prev None); mret (tail l));
        _ ← store hd (λ n, set_data None (set_prev None (set_next None n)));
        _ ← free_cell hd;
        mret (data, Some (List_t (ln_next c) tl (u64 (lsize l - 1))))
  end.

(** The [for (j = 0; j < i; ++j) cur = cur->next] loop of [list_get]. *)
Fixpoint list_get_loop (j : nat) (cur : option lloc) : M lheap (option lloc) :=
  match j with
  | O => mret cur
  | S j => c ← load cur; list_get_loop j (ln_next c)
  end.

Definition list_get (l : option list_t) (i : Z) : M lheap ptr :=
  match l with
  | None => mret None
  | Some l =>
      if decide (lsize l = 0 ∨ head l = None) then mret None
      else if decide (lsize l ≤ i) then mret None
      (* the counter [j] is a [uint32_t]: it wraps before it reaches such an [i] *)
      else if decide (2 ^ 32 ≤ i) then out_of_fuel
      else
        cur ← list_get_loop (Z.to_nat i) (head l);
        c ← load cur;
        mret (ln_data c)
  end.

Definition list_empty (l : option list_t) : bool :=
  match l with
  | None => true
  | Some l => bool_decide (lsize l = 0 ∨ head l = None)
  end.

(** The loop of [list_free_with_data_free_func]; the result is the sequence of
    data pointers handed to [free_func] (none when [free_func] is NULL). *)
Fixpoint list_free_loop (fuel : nat) (free_func : bool) (cur : option lloc) (freed : list ptr)
    : M lheap (list ptr) :=
  match cur, fuel with
  | None, _ => mret freed
  | Some _, O => out_of_fuel
  | Some _, S fuel =>
      c ← load cur;
      _ ← store cur (λ n, set_prev None (set_next None n));
      let freed := if free_func then freed ++ [ln_data c] else freed in
      _ ← store cur (set_data None);
      _ ← free_cell cur;
      list_free_loop fuel free_func (ln_next c) freed
  end.

Definition list_free_with_data_free_func (l : option list_t) (free_func : bool)
    : M lheap (list ptr) :=
  match l with
  | None => mret []
  | Some l => h ← get_state; list_free_loop (S (size (cells h))) free_func (head l) []
  end.

Definition list_free (l : option list_t) : M lheap (list ptr) :=
  list_free_with_data_free_func l false.

(** ** Representation *)

(** [dseg m pv hd cs nx]: from [hd] the nodes of [cs] are linked in order, the
    first has predecessor [pv], the last has successor [nx]. *)
Fixpoint dseg (m : gmap lloc list_node) (pv hd : option lloc)
    (cs : list (lloc * ptr)) (nx : option lloc) : Prop :=
  match cs with
  | [] => hd = nx
  | (p, x) :: cs => hd = Some p ∧ ∃ q, m !! p = Some (ListNode q pv x) ∧ dseg m (Some p) q cs nx
  end.

Definition last_loc (pv : option lloc) (cs : list (lloc * ptr)) : option lloc :=
  match last cs with Some c => Some c.1 | None => pv end.

Definition lheap_ok (h : lheap) : Prop :=
  ∀ p n, cells h !! p = Some n → (p < fresh_cell h)%positive.

(** [list_rep h l cs]: the list [l] of heap [h] holds the pointers [cs.*2], in
    the nodes at [cs.*1]. *)
Record list_rep (h : lheap) (l : list_t) (cs : list (lloc * ptr)) : Prop := {
  rep_heap : lheap_ok h;
  rep_nodup : NoDup cs.*1;
  rep_seg : dseg (cells h) None (head l) cs None;
  rep_tail : tail l = last_loc None cs;
  rep_size : lsize l = u64 (zlen cs) }.

(** Nodes that do not belong to the list are left alone. *)
Definition frame (cs : list (lloc * ptr)) (h h' : lheap) : Prop :=
  ∀ p, (p < fresh_cell h)%positive → p ∉ cs.*1 → cells h' !! p = cells h !! p.

Lemma dseg_app m pv hd cs1 cs2 nx :
  dseg m pv hd (cs1 ++ cs2) nx ↔
  ∃ md, dseg m pv hd cs1 md ∧ dseg m (last_loc pv cs1) md cs2 nx.
Proof.
  revert pv hd; induction cs1 as [|[p x] cs1 IH]; intros pv hd; simpl.
  { naive_solver. }
  assert (last_loc pv ((p, x) :: cs1) = last_loc (Some p) cs1) as ->.
  { unfold last_loc. rewrite last_cons. by destruct (last cs1). }
  setoid_rewrite IH. naive_solver.
Qed.

Lemma dseg_frame m m' pv hd cs nx :
  (∀ p, p ∈ cs.*1 → m' !! p = m !! p) → dseg m pv hd cs nx → dseg m' pv hd cs nx.
Proof.
  revert pv hd; induction cs as [|[p x] cs IH]; intros pv hd Hm; simpl; [done|].
  intros (-> & q & Hp & Hseg). split; [done|]. exists q. split.
  - rewrite Hm; [done|]. simpl. left.
  - apply IH; [|done]. intros p' ?. apply Hm. simpl. by right.
Qed.

Lemma dseg_lookup m pv hd cs nx p :
  dseg m pv hd cs nx → p ∈ cs.*1 → is_Some (m !! p).
Proof.
  revert pv hd; induction cs as [|[p' x] cs IH]; intros pv hd; simpl.
  { intros _ []%not_elem_of_nil. }
  intros (-> & q & Hp & Hseg) [->|?]%elem_of_cons; eauto.
Qed.

Lemma list_rep_head h l cs : list_rep h l cs → head l = (head_cell ← cs !! 0%nat; Some head_cell.1).
Proof.
  intros [_ _ Hseg _ _]. destruct cs as [|[p x] cs]; simpl in *; [done|]. by destruct Hseg.
Qed.

Lemma list_rep_lt h l cs p : list_rep h l cs → p ∈ cs.*1 → (p < fresh_cell h)%positive.
Proof.
  intros [Hok _ Hseg _ _] Hp. destruct (dseg_lookup _ _ _ _ _ _ Hseg Hp) as [n Hn]. eauto.
Qed.

Lemma list_rep_size_le h l cs : list_rep h l cs → (length cs ≤ size (cells h))%nat.
Proof.
  intros [_ Hnd Hseg _ _].
  assert (list_to_set cs.*1 ⊆ dom (cells h)) as Hsub.
  { intros p Hp%elem_of_list_to_set. apply elem_of_dom. eapply dseg_lookup; eauto. }
  apply subseteq_size in Hsub. rewrite size_dom, size_list_to_set in Hsub by done.
  by rewrite length_fmap in Hsub.
Qed.

(** The emptiness guard shared by [list_remove], [list_pop_front], [list_get]. *)
Lemma list_rep_guard h l cs :
  list_rep h l cs → zlen cs < 2 ^ 64 → (lsize l = 0 ∨ head l = None ↔ cs = []).
Proof.
  intros Hrep Hlen. pose proof (list_rep_head _ _ _ Hrep) as Hh.
  destruct Hrep as [_ _ _ _ Hsz]. rewrite Hsz, Hh. unfold wrap. rewrite Z.mod_small by lia.
  destruct cs; simpl; split; [auto|auto| |done]. intros [?|?]; [lia|done].
Qed.

(** ** The operations on a represented list *)

Lemma last_loc_snoc pv cs p x : last_loc pv (cs ++ [(p, x)]) = Some p.
Proof. unfold last_loc. by rewrite last_snoc. Qed.

Lemma cells_snoc (cs : list (lloc * ptr)) c : (cs ++ [c]).*1 = cs.*1 ++ [c.1].
Proof. by rewrite fmap_app. Qed.

Lemma lheap_ok_insert h p n : lheap_ok h → (p < Pos.succ (fresh_cell h))%positive →
  lheap_ok (LHeap (<[p := n]> (cells h)) (Pos.succ (fresh_cell h))).
Proof.
  intros Hok Hp p' n'. simpl. destruct (decide (p = p')) as [->|?].
  - intros _. done.
  - rewrite lookup_insert_ne by done. intros ?%Hok. lia.
Qed.

Lemma list_rep_fresh h l cs : list_rep h l cs → fresh_cell h ∉ cs.*1.
Proof. intros Hrep Hin. pose proof (list_rep_lt _ _ _ _ Hrep Hin). lia. Qed.

Lemma list_append_rep `{Host} h l cs x :
  list_rep h l cs → refuses (fresh_cell h) = false →
  ∃ h' l', list_append (Some l) x h = Ret ((Some (fresh_cell h), Some l'), h')
    ∧ list_rep h' l' (cs ++ [(fresh_cell h, x)]) ∧ frame cs h h'
    ∧ fresh_cell h' = Pos.succ (fresh_cell h).
Proof.
  intros Hrep Hmem. pose proof (list_rep_head _ _ _ Hrep) as Hh.
  pose proof (list_rep_fresh _ _ _ Hrep) as Hfr.
  destruct Hrep as [Hok Hnd Hseg Htl Hsz].
  unfold list_append, malloc_cell. mrun. rewrite Hmem. simpl.
  destruct cs as [|[q y] cs' _] using rev_ind; simpl in *.
  - rewrite Hh. simpl. eexists _, _. split; [reflexivity|]. split; [split; simpl|].
    + apply lheap_ok_insert; [done|lia].
    + apply NoDup_singleton.
    + split; [done|]. exists None. by rewrite lookup_insert_eq, Htl.
    + done.
    + by rewrite Hsz, wrap_add_l.
    + split; [|done]. intros p Hp _. simpl. rewrite lookup_insert_ne by lia. done.
  - rewrite cells_snoc in *. simpl in *. rewrite last_loc_snoc in Htl.
    apply dseg_app in Hseg as (md & Hs1 & Hs2). simpl in Hs2.
    destruct Hs2 as (-> & r & Hq & ->).
    assert (head l ≠ None) as Hne.
    { rewrite Hh. destruct cs'; done. }
    destruct (head l) as [hd|] eqn:Hhd; [|done]. rewrite Htl. simpl.
    assert (q ≠ fresh_cell h) as Hqf. { intros ->. set_solver. }
    rewrite lookup_insert_ne, Hq by done. simpl.
    apply NoDup_app in Hnd as (Hnd1 & Hd & _).
    eexists _, _. split; [reflexivity|]. split; [split; simpl|].
    + intros p' n'. simpl. destruct (decide (q = p')) as [->|?].
      * intros _. apply Hok in Hq. lia.
      * rewrite lookup_insert_ne by done. intros Hl.
        by eapply (lheap_ok_insert h (fresh_cell h)) in Hl; [|done|lia].
    + rewrite !cells_snoc. simpl. rewrite <- app_assoc. apply NoDup_app.
      split; [done|]. split; [set_solver|]. simpl.
      apply NoDup_cons. split; [set_solver|]. apply NoDup_singleton.
    + rewrite <- app_assoc. apply dseg_app. exists (Some q). split.
      * eapply dseg_frame; [|done]. intros p' Hp'. simpl.
        rewrite !lookup_insert_ne; [done| |]; intros ?; subst; set_solver.
      * simpl. split; [done|]. exists (Some (fresh_cell h)).
        rewrite lookup_insert_eq. split; [done|]. split; [done|].
        exists None. rewrite lookup_insert_ne, lookup_insert_eq by done. done.
    + by rewrite last_loc_snoc.
    + rewrite Hsz, wrap_add_l. f_equal. rewrite !length_app. simpl. lia.
    + split; [|done]. intros p Hp Hni. rewrite cells_snoc in Hni. simpl in *.
      rewrite !lookup_insert_ne; [done| lia|]. intros ->. set_solver.
Qed.

Lemma list_append_refused `{Host} h l x :
  refuses (fresh_cell h) = true →
  list_append (Some l) x h = Ret ((None, Some l), LHeap (cells h) (Pos.succ (fresh_cell h))).
Proof. intros Hm. unfold list_append, malloc_cell. mrun. by rewrite Hm. Qed.

(** Relinking one end of a segment. *)
Lemma dseg_set_last m pv hd cs q y nx nx' n :
  dseg m pv hd (cs ++ [(q, y)]) nx → q ∉ cs.*1 → m !! q = Some n →
  dseg (<[q := set_next nx' n]> m) pv hd (cs ++ [(q, y)]) nx'.
Proof.
  intros (md & H1 & H2)%dseg_app Hq Hn. apply dseg_app. exists md. split.
  - eapply dseg_frame; [|done]. intros p Hp. rewrite lookup_insert_ne; [done|].
    intros ?; subst; done.
  - simpl in *. destruct H2 as (-> & r & Hr & ->). split; [done|].
    simplify_eq. exists nx'. rewrite lookup_insert_eq. done.
Qed.

Lemma dseg_set_first m pv pv' p x cs nx n :
  dseg m pv (Some p) ((p, x) :: cs) nx → p ∉ cs.*1 → m !! p = Some n →
  dseg (<[p := set_prev pv' n]> m) pv' (Some p) ((p, x) :: cs) nx.
Proof.
  simpl. intros (_ & q & Hq & Hseg) Hp Hn. simplify_eq. split; [done|]. exists q.
  rewrite lookup_insert_eq. split; [done|]. eapply dseg_frame; [|done].
  intros p' Hp'. rewrite lookup_insert_ne; [done|]. intros ?; subst; done.
Qed.

(** The stores of [list_remove] that bypass node [p]. *)
Definition unlinked (m : gmap lloc list_node) (p : lloc) (pv nx : option lloc) : gmap lloc list_node :=
  let m1 := match pv with Some q => alter (set_next nx) q m | None => m end in
  let m2 := match nx with Some q => alter (set_prev pv) q m1 | None => m1 end in
  delete p m2.

Lemma lookup_unlinked m p pv nx i : i ≠ p →
  unlinked m p pv nx !! i =
    (if decide (nx = Some i) then fmap (set_prev pv) else id)
      ((if decide (pv = Some i) then fmap (set_next nx) else id) (m !! i)).
Proof.
  intros Hi. unfold unlinked. rewrite lookup_delete_ne by done.
  destruct nx as [r|], pv as [q|]; rewrite ?lookup_alter;
    repeat case_decide; simplify_eq; done.
Qed.

Lemma last_loc_in cs q : last_loc None cs = Some q → q ∈ cs.*1.
Proof.
  destruct cs as [|[p x] cs _] using rev_ind; [done|]. rewrite last_loc_snoc, cells_snoc.
  intros [= ->]. apply elem_of_app. right. apply list_elem_of_singleton. done.
Qed.

Lemma dseg_head_in m pv r cs : dseg m pv (Some r) cs None → r ∈ cs.*1.
Proof. destruct cs as [|[? ?] ?]; simpl; [done|]. intros [[= ->] _]. left. Qed.

Section Unlink.
Variables (m : gmap lloc list_node) (hd : option lloc) (cs1 cs2 : list (lloc * ptr))
  (p : lloc) (nx : option lloc).
Hypotheses (Hp1 : p ∉ cs1.*1) (Hp2 : p ∉ cs2.*1) (Hdj : ∀ q, q ∈ cs1.*1 → q ∉ cs2.*1).
Hypotheses (H1 : dseg m None hd cs1 (Some p)) (H2 : dseg m (Some p) nx cs2 None).
Hypotheses (Hnd1 : NoDup cs1.*1) (Hnd2 : NoDup cs2.*1).

Lemma dseg_unlinked_left :
  dseg (unlinked m p (last_loc None cs1) nx) None (if decide (Some p = hd) then nx else hd) cs1 nx.
Proof.
  destruct cs1 as [|[q y] cs _] using rev_ind; simpl in *.
  { subst hd. by rewrite decide_True. }
  rewrite last_loc_snoc. rewrite cells_snoc in *. simpl in *.
  assert (Some p ≠ hd) as Hhd.
  { intros <-. apply Hp1. destruct cs as [|[? ?] ?]; simpl in *;
      destruct H1 as [[= ->] _]; left. }
  rewrite decide_False by done.
  destruct (dseg_lookup _ _ _ _ _ q H1) as [n Hn].
  { rewrite cells_snoc. apply elem_of_app. right. left. }
  apply NoDup_app in Hnd1 as (_ & Hq & _).
  eapply dseg_frame; [|eapply (dseg_set_last _ _ _ _ _ _ _ nx); [done| |done]].
  2: { intros Hin. apply (Hq _ Hin). left. }
  intros i Hi. rewrite cells_snoc in Hi. simpl in Hi.
  rewrite lookup_unlinked by (intros ->; done).
  rewrite (decide_False (P := nx = Some i)).
  2: { intros ->. apply (Hdj i Hi). eapply dseg_head_in; done. }
  destruct (decide (q = i)) as [->|]; simpl.
  - by rewrite decide_True, lookup_insert_eq, Hn.
  - rewrite decide_False, lookup_insert_ne by congruence. done.
Qed.

Lemma dseg_unlinked_right :
  dseg (unlinked m p (last_loc None cs1) nx) (last_loc None cs1) nx cs2 None.
Proof.
  destruct cs2 as [|[r z] cs]; simpl in *; [done|].
  destruct H2 as (-> & w & Hr & H2'). split; [done|]. exists w.
  assert (∀ i, i = r ∨ i ∈ cs.*1 → last_loc None cs1 ≠ Some i) as Hlast.
  { intros i Hi Hl%last_loc_in. apply (Hdj i Hl). apply elem_of_cons. naive_solver. }
  apply not_elem_of_cons in Hp2 as [Hpr Hp2].
  rewrite lookup_unlinked, decide_True by done.
  rewrite decide_False, Hr by (apply Hlast; by left). split; [done|].
  eapply dseg_frame; [|done]. intros i Hi. apply NoDup_cons in Hnd2 as [Hrc _].
  rewrite lookup_unlinked by (intros ->; done).
  rewrite (decide_False (P := Some r = Some i)) by (intros [= ->]; done).
  rewrite decide_False by (apply Hlast; by right). done.
Qed.
End Unlink.

Lemma dseg_unlinked m hd cs1 p x cs2 nx :
  NoDup (cs1 ++ (p, x) :: cs2).*1 →
  dseg m None hd cs1 (Some p) → dseg m (Some p) nx cs2 None →
  dseg (unlinked m p (last_loc None cs1) nx) None
    (if decide (Some p = hd) then nx else hd) (cs1 ++ cs2) None.
Proof.
  rewrite fmap_app. simpl. intros (Hnd1 & Hdj & [Hp2 Hnd2]%NoDup_cons)%NoDup_app H1 H2.
  assert (p ∉ cs1.*1) as Hp1. { intros Hin. apply (Hdj p Hin). left. }
  assert (∀ q, q ∈ cs1.*1 → q ∉ cs2.*1) as Hdj'. { intros q Hq Hq2. apply (Hdj q Hq). by right. }
  apply dseg_app. exists nx. split.
  - by apply (dseg_unlinked_left m hd cs1 cs2).
  - by apply dseg_unlinked_right.
Qed.

(** Removing the first node that carries [x], on the sequence of nodes. *)
Fixpoint remove_cell (x : ptr) (cs : list (lloc * ptr)) : option (list (lloc * ptr)) :=
  match cs with
  | [] => None
  | (p, y) :: cs => if decide (y = x) then Some cs else cons (p, y) <$> remove_cell x cs
  end.

Lemma store_alter h p f n : cells h !! p = Some n →
  store (Some p) f h = Ret (tt, LHeap (alter f p (cells h)) (fresh_cell h)).
Proof.
  intros Hp. simpl. rewrite Hp. do 3 f_equal. apply map_eq; intros i.
  rewrite lookup_alter, lookup_insert. case_decide; subst; by rewrite ?Hp.
Qed.

Lemma last_loc_app cs1 p x cs2 :
  last_loc None (cs1 ++ (p, x) :: cs2) = last_loc (Some p) cs2.
Proof. unfold last_loc. rewrite last_app_cons, last_cons. by destruct (last cs2). Qed.

Lemma last_loc_tail cs1 cs2 p x : NoDup (cs1 ++ (p, x) :: cs2).*1 →
  (if decide (Some p = last_loc None (cs1 ++ (p, x) :: cs2)) then last_loc None cs1
   else last_loc None (cs1 ++ (p, x) :: cs2)) = last_loc None (cs1 ++ cs2).
Proof.
  intros Hnd. rewrite last_loc_app. destruct cs2 as [|[q y] cs2 _] using rev_ind.
  - by rewrite app_nil_r, decide_True.
  - rewrite app_assoc, !last_loc_snoc, decide_False; [done|]. intros [= ->].
    rewrite fmap_app in Hnd. apply NoDup_app in Hnd as (_ & _ & Hnd). simpl in Hnd.
    apply NoDup_cons in Hnd as [Hq _]. apply Hq. rewrite cells_snoc.
    apply elem_of_app. right. left.
Qed.

(** The stores and the [free] of [list_remove], once the node is found. *)
Lemma unlink_run h l cs1 p x cs2 c :
  list_rep h l (cs1 ++ (p, x) :: cs2) → cells h !! p = Some c →
  ln_prev c = last_loc None cs1 ∧ dseg (cells h) (Some p) (ln_next c) cs2 None ∧
  list_unlink (Some p) c h
  = Ret (tt, LHeap (unlinked (cells h) p (ln_prev c) (ln_next c)) (fresh_cell h)).
Proof.
  intros [Hok Hnd Hseg _ _] Hc. unfold list_unlink. apply dseg_app in Hseg as (md & H1 & H2).
  simpl in H2. destruct H2 as (-> & q & Hq & H2). simplify_eq. simpl.
  split; [done|]. split; [done|].
  rewrite fmap_app in Hnd. apply NoDup_app in Hnd as (_ & Hdj & [Hp2 _]%NoDup_cons).
  remember (LHeap (match last_loc None cs1 with Some r => alter (set_next q) r (cells h)
                    | None => cells h end) (fresh_cell h)) as h1 eqn:E1.
  remember (LHeap (match q with Some r => alter (set_prev (last_loc None cs1)) r (cells h1)
                    | None => cells h1 end) (fresh_cell h)) as h2 eqn:E2.
  assert (cells h2 !! p = Some (ListNode q (last_loc None cs1) x)) as Hp.
  { subst h1 h2. simpl. destruct q as [r|], (last_loc None cs1) as [w|] eqn:Hw; simpl;
      rewrite ?lookup_alter; repeat rewrite decide_False; try done.
    all: intros ->; first [apply Hp2; by eapply dseg_head_in | apply last_loc_in in Hw; apply (Hdj p Hw); left]. }
  erewrite (bind_Ret _ _ h tt h1).
  2: { rewrite E1. destruct (last_loc None cs1) as [w|] eqn:Hw; [|by destruct h].
    destruct (dseg_lookup _ _ _ _ _ w H1) as [n Hn]; [by apply last_loc_in|]. by apply (store_alter _ _ _ n). }
  erewrite (bind_Ret _ _ h1 tt h2).
  2: { rewrite E2. destruct q as [r|]; [|by subst h1].
    destruct (dseg_lookup _ _ _ _ _ r H2) as [n Hn]; [by eapply dseg_head_in|].
    assert (is_Some (cells h1 !! r)) as [n' Hn'].
    { rewrite E1. simpl. destruct (last_loc None cs1); [|eauto].
      rewrite lookup_alter. case_decide; simplify_eq; rewrite Hn; eauto. }
    rewrite (store_alter h1 r _ n' Hn'). by subst h1. }
  erewrite bind_Ret by (by eapply store_alter). unfold free_cell. simpl.
  rewrite lookup_alter, decide_True, Hp by done. simpl.
  subst h2 h1. unfold unlinked. simpl. by rewrite delete_alter_eq.
Qed.

Lemma lheap_ok_unlinked h p pv nx :
  lheap_ok h → lheap_ok (LHeap (unlinked (cells h) p pv nx) (fresh_cell h)).
Proof.
  intros Hok i n. simpl. destruct (decide (i = p)) as [->|Hi].
  { unfold unlinked. by rewrite lookup_delete_eq. }
  rewrite lookup_unlinked by done. destruct (cells h !! i) eqn:E; [eauto|].
  by do 2 case_decide.
Qed.

Lemma list_remove_loop_rep l data h cs2 : ∀ fuel cs1 cur,
  (length cs2 ≤ fuel)%nat →
  list_rep h l (cs1 ++ cs2) → dseg (cells h) (last_loc None cs1) cur cs2 None →
  match remove_cell data cs2 with
  | None => list_remove_loop fuel l data cur h = Ret ((false, l), h)
  | Some cs2' => ∃ h' l',
      list_remove_loop fuel l data cur h = Ret ((true, l'), h') ∧
      list_rep h' l' (cs1 ++ cs2') ∧ frame (cs1 ++ cs2) h h'
  end.
Proof.
  induction cs2 as [|[p x] cs2 IH]; intros fuel cs1 cur Hf Hrep Hseg; simpl in *.
  { subst cur. by destruct fuel. }
  destruct Hseg as (-> & q & Hq & Hseg). destruct fuel as [|fuel]; [lia|]. simpl.
  case_decide as Hx.
  - subst x. destruct (unlink_run _ _ _ _ _ _ _ Hrep Hq) as (_ & _ & Hrun). simpl in Hrun.
    exists (LHeap (unlinked (cells h) p (last_loc None cs1) q) (fresh_cell h)).
    eexists. split; [|split].
    + erewrite bind_Ret by (simpl; by rewrite Hq). simpl. rewrite decide_True by done.
      erewrite bind_Ret by done. reflexivity.
    + destruct Hrep as [Hok Hnd Hs Htl Hsz]. split; simpl.
      * by apply lheap_ok_unlinked.
      * rewrite fmap_app in *. simpl in Hnd. apply NoDup_app in Hnd as (? & Hd & [? ?]%NoDup_cons).
        apply NoDup_app. split; [done|]. split; [|done]. intros r Hr Hr2. apply (Hd r Hr). by right.
      * apply dseg_app in Hs as (md & Hs1 & Hs2). simpl in Hs2. destruct Hs2 as (-> & q' & Hq' & Hs2).
        simplify_eq. by apply (dseg_unlinked _ _ _ _ data).
      * rewrite Htl. by apply last_loc_tail.
      * rewrite Hsz, wrap_sub_l. f_equal. rewrite !length_app. simpl. lia.
    + intros i Hi Hni. simpl. rewrite fmap_app, not_elem_of_app in Hni. simpl in Hni.
      destruct Hni as [Hn1 [Hip Hn2]%not_elem_of_cons].
      rewrite lookup_unlinked, !decide_False; [done| | |done].
      * intros Hl%last_loc_in. done.
      * intros ?; subst. apply Hn2. by eapply dseg_head_in.
  - specialize (IH fuel (cs1 ++ [(p, x)]) q).
    rewrite <- app_assoc, last_loc_snoc in IH. simpl in IH.
    specialize (IH ltac:(lia) Hrep Hseg).
    destruct (remove_cell data cs2) as [cs2'|]; simpl;
      (erewrite bind_Ret by (simpl; by rewrite Hq)); simpl; rewrite decide_False by done; [|done].
    destruct IH as (h' & l' & ? & Hr & ?). exists h', l'. rewrite <- app_assoc in Hr. done.
Qed.

(** *** Refinement, operation by operation *)

(** [list_remove] removes the first node carrying [data] and reports whether
    there was one. *)
Lemma list_remove_rep h l cs data :
  list_rep h l cs → zlen cs < 2 ^ 64 →
  match remove_cell data cs with
  | None => list_remove (Some l) data h = Ret ((false, Some l), h)
  | Some cs' => ∃ h' l',
      list_remove (Some l) data h = Ret ((true, Some l'), h') ∧ list_rep h' l' cs' ∧ frame cs h h'
  end.
Proof.
  intros Hrep Hlen. pose proof (list_rep_guard _ _ _ Hrep Hlen) as Hg. unfold list_remove.
  destruct (decide (cs = [])) as [->|Hne].
  { simpl. rewrite decide_True; [done|]. by apply Hg. }
  rewrite decide_False by naive_solver. mrun.
  pose proof (list_remove_loop_rep l data h cs (S (size (cells h))) [] (head l)) as Hloop.
  simpl in Hloop. pose proof (list_rep_size_le _ _ _ Hrep).
  specialize (Hloop ltac:(lia) Hrep (rep_seg _ _ _ Hrep)).
  destruct (remove_cell data cs) as [cs'|].
  - destruct Hloop as (h' & l' & -> & ? & ?). eauto 10.
  - by rewrite Hloop.
Qed.

Lemma list_insert_rep `{Host} h l cs x :
  list_rep h l cs → refuses (fresh_cell h) = false →
  ∃ h' l', list_insert (Some l) x h = Ret ((Some (fresh_cell h), Some l'), h')
    ∧ list_rep h' l' ((fresh_cell h, x) :: cs) ∧ frame cs h h'
    ∧ fresh_cell h' = Pos.succ (fresh_cell h).
Proof.
  intros Hrep Hmem. pose proof (list_rep_head _ _ _ Hrep) as Hh.
  pose proof (list_rep_fresh _ _ _ Hrep) as Hfr.
  destruct Hrep as [Hok Hnd Hseg Htl Hsz].
  unfold list_insert, malloc_cell. mrun. rewrite Hmem. simpl.
  destruct cs as [|[q y] cs]; simpl in *.
  - rewrite Htl, Hh. simpl. eexists _, _. split; [reflexivity|]. split; [split; simpl|].
    + apply lheap_ok_insert; [done|lia].
    + apply NoDup_singleton.
    + split; [done|]. exists None. by rewrite lookup_insert_eq.
    + done.
    + by rewrite Hsz, wrap_add_l.
    + split; [|done]. intros p Hp _. simpl. by rewrite lookup_insert_ne by lia.
  - assert (∃ t, tail l = Some t) as [t Ht].
    { rewrite Htl. unfold last_loc. rewrite last_cons. destruct (last cs); eauto. }
    destruct Hseg as (-> & r & Hr & Hseg). rewrite Ht. simpl.
    apply not_elem_of_cons in Hfr as [Hqf Hfr]. apply NoDup_cons in Hnd as [Hq Hnd].
    rewrite lookup_insert_ne, Hr by done. simpl.
    eexists _, _. split; [reflexivity|]. split; [split; simpl|].
    + intros p' n'. simpl. destruct (decide (q = p')) as [->|?].
      * intros _. apply Hok in Hr. lia.
      * rewrite lookup_insert_ne by done. intros Hl.
        by eapply (lheap_ok_insert h (fresh_cell h)) in Hl; [|done|lia].
    + apply NoDup_cons. split; [by apply not_elem_of_cons|]. by apply NoDup_cons.
    + split; [done|]. exists (Some q). rewrite lookup_insert_ne, lookup_insert_eq by done.
      split; [done|]. split; [done|]. exists r. rewrite lookup_insert_eq. split; [done|].
      eapply dseg_frame; [|done]. intros p' Hp'.
      rewrite !lookup_insert_ne; [done| |]; intros ?; subst; done.
    + rewrite <- Ht, Htl. unfold last_loc. rewrite !last_cons. by destruct (last cs).
    + rewrite Hsz, wrap_add_l. f_equal. simpl. lia.
    + split; [|done]. intros p Hp Hni. simpl in *. apply not_elem_of_cons in Hni as [? ?].
      rewrite !lookup_insert_ne by (lia || done). done.
Qed.

Lemma list_pop_front_rep h l p x cs :
  list_rep h l ((p, x) :: cs) → zlen cs + 1 < 2 ^ 64 →
  ∃ h' l', list_pop_front (Some l) h = Ret ((x, Some l'), h')
    ∧ list_rep h' l' cs ∧ frame ((p, x) :: cs) h h' ∧ cells h' !! p = None.
Proof.
  intros Hrep Hlen. pose proof (list_rep_guard _ _ _ Hrep) as Hg. simpl in Hg.
  unfold list_pop_front. rewrite decide_False by (intros ?%Hg; [done|lia]).
  pose proof Hrep as [Hok Hnd Hseg Htl Hsz]. simpl in *.
  destruct Hseg as (Hhd & q & Hp & Hseg). apply NoDup_cons in Hnd as [Hpc Hnd].
  rewrite Hhd. erewrite bind_Ret by (simpl; by rewrite Hp). simpl.
  assert (p ∉ cs.*1 ∧ q ≠ Some p) as [_ Hqp].
  { split; [done|]. intros ->. apply Hpc. by eapply dseg_head_in. }
  pose proof (last_loc_tail [] cs p x) as Htail. simpl in Htail.
  specialize (Htail ltac:(by apply NoDup_cons)). rewrite <- Htl in Htail.
  set (h1 := LHeap (unlinked (cells h) p None q) (fresh_cell h)).
  exists h1. eexists (List_t q (if decide (Some p = tail l) then None else tail l) _).
  split; [|split; [split; simpl|split]].
  - case_decide as Ht.
    + destruct cs as [|[r z] cs]; simpl in *.
      2: { exfalso. unfold last_loc in Htail. rewrite last_cons in Htail. by destruct (last cs). }
      subst q. mrun. rewrite Hp. simpl. rewrite lookup_insert_eq. simpl.
      rewrite delete_insert_eq. reflexivity.
    + destruct q as [r|].
      2: { exfalso. apply Ht. destruct cs as [|[r z] cs]; simpl in *; [done|]. by destruct Hseg. }
      destruct (dseg_lookup _ _ _ _ _ r Hseg) as [n Hn]; [by eapply dseg_head_in|].
      mrun. rewrite Hn. simpl. rewrite lookup_insert_ne, Hp by congruence. simpl.
      rewrite lookup_insert_eq. simpl. rewrite delete_insert_eq. subst h1. unfold unlinked.
      do 4 f_equal. apply map_eq; intros i. rewrite lookup_alter, lookup_insert.
      case_decide; subst; by rewrite ?Hn.
  - by apply lheap_ok_unlinked.
  - done.
  - pose proof (dseg_unlinked (cells h) (Some p) [] p x cs q) as Hu. simpl in Hu.
    rewrite decide_True in Hu by done. apply Hu; [by apply NoDup_cons|done|done].
  - done.
  - rewrite Hsz, wrap_sub_l. f_equal. simpl. lia.
  - intros i Hi Hni. simpl in *. apply not_elem_of_cons in Hni as [? Hni].
    rewrite lookup_unlinked, !decide_False; [done| done| |done].
    intros ?; subst. apply Hni. by eapply dseg_head_in.
  - simpl. unfold unlinked. by rewrite lookup_delete_eq.
Qed.

Lemma list_get_loop_rep h cs : ∀ j pv cur,
  dseg (cells h) pv cur cs None → (j < length cs)%nat →
  ∃ p pv' x q, list_get_loop j cur h = Ret (Some p, h) ∧ cs !! j = Some (p, x)
    ∧ cells h !! p = Some (ListNode q pv' x).
Proof.
  induction cs as [|[p x] cs IH]; intros j pv cur Hseg Hj; simpl in *; [lia|].
  destruct Hseg as (-> & q & Hp & Hseg). destruct j as [|j]; simpl.
  - eauto 10.
  - erewrite bind_Ret by (simpl; by rewrite Hp). simpl. apply (IH j _ _ Hseg). lia.
Qed.

Lemma list_get_rep h l cs i :
  list_rep h l cs → zlen cs < 2 ^ 32 → 0 ≤ i →
  list_get (Some l) i h = Ret (default None (cs.*2 !! Z.to_nat i), h).
Proof.
  intros Hrep Hlen Hi. pose proof (list_rep_guard _ _ _ Hrep ltac:(lia)) as Hg.
  unfold list_get. destruct (decide (cs = [])) as [->|Hne].
  { rewrite decide_True by (by apply Hg). done. }
  rewrite decide_False by naive_solver. rewrite (rep_size _ _ _ Hrep), wrap_small by lia.
  case_decide as Hge.
  { rewrite (lookup_ge_None_2 cs.*2); [done|]. rewrite length_fmap. lia. }
  rewrite decide_False by lia.
  destruct (list_get_loop_rep h cs (Z.to_nat i) _ _ (rep_seg _ _ _ Hrep)) as (p & pv & x & q & Hl & Hc & Hp).
  { lia. }
  erewrite bind_Ret by done. mrun. rewrite Hp. simpl.
  rewrite list_lookup_fmap, Hc. done.
Qed.

Lemma list_empty_rep h l cs :
  list_rep h l cs → zlen cs < 2 ^ 64 → list_empty (Some l) = bool_decide (cs = []).
Proof.
  intros Hrep Hlen. simpl. apply bool_decide_ext. by eapply list_rep_guard.
Qed.

Lemma list_free_loop_rep free_func cs : ∀ fuel h pv cur freed,
  (length cs ≤ fuel)%nat → NoDup cs.*1 → dseg (cells h) pv cur cs None →
  list_free_loop fuel free_func cur freed h
    = Ret (if free_func then freed ++ cs.*2 else freed,
           LHeap (foldr delete (cells h) (reverse cs.*1)) (fresh_cell h)).
Proof.
  induction cs as [|[p x] cs IH]; intros fuel h pv cur freed Hf Hnd Hseg; simpl in *.
  { subst cur. destruct fuel, free_func, h; simpl; by rewrite ?app_nil_r. }
  destruct Hseg as (-> & q & Hp & Hseg). destruct fuel as [|fuel]; [lia|]. simpl.
  apply NoDup_cons in Hnd as [Hpc Hnd].
  mrun. do 2 (rewrite Hp; simpl). do 2 (rewrite lookup_insert_eq; simpl).
  rewrite !delete_insert_eq.
  erewrite (IH _ (LHeap (delete p (cells h)) (fresh_cell h)) (Some p)); [|lia|done|].
  - simpl. rewrite reverse_cons, foldr_app. simpl. destruct free_func; [|done].
    by rewrite <- app_assoc.
  - eapply dseg_frame; [|done]. intros i Hi. simpl. rewrite lookup_delete_ne; [done|].
    intros ?; subst; done.
Qed.

Lemma lookup_delete_all (m : gmap lloc list_node) ls i :
  foldr delete m ls !! i = if decide (i ∈ ls) then None else m !! i.
Proof.
  induction ls as [|p ls IH]; cbn [foldr].
  { by case_decide as Hi; [apply not_elem_of_nil in Hi|]. }
  rewrite lookup_delete, IH. repeat case_decide; subst; try done; exfalso; set_solver.
Qed.

(** ** The sequence specification and the refinement theorem *)

Inductive list_op := OpInsert (x : ptr) | OpAppend (x : ptr) | OpRemove (x : ptr)
  | OpPopFront | OpGet (i : Z) | OpEmpty.

Inductive list_out := OutNode (created : bool) | OutBool (b : bool) | OutPtr (x : ptr).

(** One operation of list.c, with the caller's [list_t] written back. *)
Definition c_step `{Host} (o : list_op) (l : option list_t) : M lheap (list_out * option list_t) :=
  match o with
  | OpInsert x => r ← list_insert l x; mret (OutNode (bool_decide (is_Some r.1)), r.2)
  | OpAppend x => r ← list_append l x; mret (OutNode (bool_decide (is_Some r.1)), r.2)
  | OpRemove x => r ← list_remove l x; mret (OutBool r.1, r.2)
  | OpPopFront => r ← list_pop_front l; mret (OutPtr r.1, r.2)
  | OpGet i => x ← list_get l i; mret (OutPtr x, l)
  | OpEmpty => mret (OutBool (list_empty l), l)
  end.

Fixpoint c_run `{Host} (os : list list_op) (l : option list_t)
    : M lheap (list list_out * option list_t) :=
  match os with
  | [] => mret ([], l)
  | o :: os => r ← c_step o l; rs ← c_run os r.2; mret (r.1 :: rs.1, rs.2)
  end.

Fixpoint seq_remove (x : ptr) (xs : list ptr) : option (list ptr) :=
  match xs with
  | [] => None
  | y :: xs => if decide (y = x) then Some xs else cons y <$> seq_remove x xs
  end.

(** The same operations on a sequence of pointers. *)
Definition seq_step (o : list_op) (xs : list ptr) : list_out * list ptr :=
  match o with
  | OpInsert x => (OutNode true, x :: xs)
  | OpAppend x => (OutNode true, xs ++ [x])
  | OpRemove x => match seq_remove x xs with
                  | Some xs' => (OutBool true, xs')
                  | None => (OutBool false, xs)
                  end
  | OpPopFront => match xs with [] => (OutPtr None, []) | x :: xs => (OutPtr x, xs) end
  | OpGet i => (OutPtr (default None (xs !! Z.to_nat i)), xs)
  | OpEmpty => (OutBool (bool_decide (xs = [])), xs)
  end.

Fixpoint seq_run (os : list list_op) (xs : list ptr) : list list_out * list ptr :=
  match os with
  | [] => ([], xs)
  | o :: os => let r := seq_step o xs in
               let rs := seq_run os r.2 in (r.1 :: rs.1, rs.2)
  end.

Definition op_ok (o : list_op) : Prop := match o with OpGet i => 0 ≤ i | _ => True end.

Lemma remove_cell_seq x cs :
  match remove_cell x cs with
  | Some cs' => seq_remove x cs.*2 = Some cs'.*2 ∧ (length cs' ≤ length cs)%nat
  | None => seq_remove x cs.*2 = None
  end.
Proof.
  induction cs as [|[p y] cs IH]; [done|]. rewrite fmap_cons. cbn [remove_cell seq_remove snd].
  case_decide; [simpl; split; [done|lia]|].
  destruct (remove_cell x cs) as [cs'|]; cbn [fmap option_fmap option_map].
  - destruct IH as [-> ?]. simpl. split; [done|lia].
  - by rewrite IH.
Qed.

Lemma c_step_rep `{Host} h l cs o :
  never_refuses → list_rep h l cs → zlen cs < 2 ^ 32 → op_ok o →
  ∃ h' l' cs', c_step o (Some l) h = Ret (((seq_step o cs.*2).1, Some l'), h')
    ∧ list_rep h' l' cs' ∧ cs'.*2 = (seq_step o cs.*2).2 ∧ (length cs' ≤ S (length cs))%nat.
Proof.
  intros Hmem Hrep Hlen Hop. destruct o as [x|x|x| |i|]; unfold c_step; cbn [seq_step fst snd].
  - destruct (list_insert_rep h l cs x Hrep (Hmem _)) as (h' & l' & Hrun & ? & _).
    erewrite bind_Ret by done. eexists _, _, _. split; [done|]. split; [done|]. simpl. split; [done|lia].
  - destruct (list_append_rep h l cs x Hrep (Hmem _)) as (h' & l' & Hrun & ? & _).
    erewrite bind_Ret by done. eexists _, _, _. split; [done|]. split; [done|].
    rewrite fmap_app, length_app. simpl. split; [done|lia].
  - pose proof (list_remove_rep h l cs x Hrep ltac:(lia)) as Hr.
    pose proof (remove_cell_seq x cs) as Hs. destruct (remove_cell x cs) as [cs'|].
    + destruct Hr as (h' & l' & Hrun & ? & _). destruct Hs as [-> ?].
      erewrite bind_Ret by done. eexists _, _, _. split; [done|]. split; [done|]. simpl. split; [done|lia].
    + rewrite Hs. erewrite bind_Ret by done. eexists _, _, _. split; [done|]. split; [done|]. simpl. split; [done|lia].
  - destruct cs as [|[p x] cs].
    + assert (list_pop_front (Some l) h = Ret ((None, Some l), h)) as Hrun.
      { unfold list_pop_front. rewrite decide_True; [done|]. by apply (list_rep_guard _ _ _ Hrep). }
      erewrite bind_Ret by done. eexists _, _, _. split; [done|]. split; [done|]. simpl. split; [done|lia].
    + destruct (list_pop_front_rep h l p x cs Hrep) as (h' & l' & Hrun & ? & _); [simpl in *; lia|].
      erewrite bind_Ret by done. eexists _, _, _. split; [done|]. split; [done|]. simpl. split; [done|lia].
  - erewrite bind_Ret by (by apply list_get_rep). eexists _, _, _. split; [done|]. split; [done|]. split; [done|lia].
  - eexists _, _, _. split; [|split; [done|split; [done|lia]]].
    mrun. do 4 f_equal. etrans; [by eapply (list_empty_rep h l cs); [|lia]|].
    apply bool_decide_ext. split; [by intros ->|]. by intros ?%fmap_nil_inv.
Qed.

(** C38. list.c implements a sequence: every run of insert, append, remove,
    pop_front, get and empty on a represented list returns, and returns exactly
    what the same operations return on the sequence of stored pointers; the
    final list represents the final sequence. *)
Theorem list_refines_sequence `{Host} os : ∀ h l cs,
  never_refuses → list_rep h l cs → zlen cs + zlen os < 2 ^ 32 → Forall op_ok os →
  ∃ h' l' cs', c_run os (Some l) h = Ret (((seq_run os cs.*2).1, Some l'), h')
    ∧ list_rep h' l' cs' ∧ cs'.*2 = (seq_run os cs.*2).2.
Proof.
  induction os as [|o os IH]; intros h l cs Hmem Hrep Hlen Hok; cbn [c_run seq_run fst snd].
  { eexists _, _, _. split; [done|]. done. }
  apply Forall_cons in Hok as [Ho Hok]. simpl in Hlen.
  destruct (c_step_rep h l cs o Hmem Hrep ltac:(lia) Ho) as (h1 & l1 & cs1 & Hs & Hr1 & E1 & Hl1).
  destruct (IH h1 l1 cs1 Hmem Hr1 ltac:(lia) Hok) as (h2 & l2 & cs2 & Hs2 & Hr2 & E2).
  rewrite <- E1. exists h2, l2, cs2. split; [|done].
  erewrite bind_Ret by done. cbn [snd]. erewrite bind_Ret by done. done.
Qed.

(** Destroying a list frees each of its nodes exactly once and nothing
    else, and hands the stored pointers, in order, to the data destructor when
    one is given. *)
Theorem list_free_releases free_func h l cs :
  list_rep h l cs →
  ∃ h', list_free_with_data_free_func (Some l) free_func h
          = Ret (if free_func then cs.*2 else [], h')
    ∧ (∀ p, p ∈ cs.*1 → cells h' !! p = None)
    ∧ (∀ p, p ∉ cs.*1 → cells h' !! p = cells h !! p).
Proof.
  intros Hrep. pose proof (list_rep_size_le _ _ _ Hrep). destruct Hrep as [_ Hnd Hseg _ _].
  eexists. split; [|split]; unfold list_free_with_data_free_func.
  - erewrite bind_Ret by reflexivity. by rewrite (list_free_loop_rep free_func cs _ h None) by (lia || done).
  - intros p Hp. simpl. by rewrite lookup_delete_all, decide_True by (by apply elem_of_reverse).
  - intros p Hp. simpl. by rewrite lookup_delete_all, decide_False by (by rewrite elem_of_reverse).
Qed.
End CList.

(** ** Witnesses *)

Definition empty_lheap : lheap (D := Z) := LHeap ∅ 1.

Lemma empty_list_rep : list_rep empty_lheap list_create [].
Proof. split; [by intros p n|apply NoDup_nil_2|done|done|done]. Qed.

Definition sample_ops : list (list_op (D := Z)) :=
  [OpAppend (Some 7); OpInsert (Some 5); OpAppend (Some 9); OpGet 1;
   OpRemove (Some 7); OpPopFront; OpPopFront; OpEmpty].

Lemma sample_ops_seq : seq_run sample_ops [] =
  ([OutNode true; OutNode true; OutNode true; OutPtr (Some 7); OutBool true;
    OutPtr (Some 5); OutPtr (Some 9); OutBool true], []).
Proof. vm_compute. reflexivity. Qed.

Lemma list_refines_sequence_witness :
  ∃ h' l' cs', c_run (H := obliging) sample_ops (Some list_create) empty_lheap
      = Ret (([OutNode true; OutNode true; OutNode true; OutPtr (Some 7); OutBool true;
               OutPtr (Some 5); OutPtr (Some 9); OutBool true], Some l'), h')
    ∧ list_rep h' l' cs' ∧ cs'.*2 = [].
Proof.
  pose proof (list_refines_sequence (H := obliging) sample_ops empty_lheap list_create []) as Hw.
  change (([] : list (lloc * option Z)).*2) with ([] : list (option Z)) in Hw.
  rewrite sample_ops_seq in Hw. apply Hw.
  - by intros n.
  - exact empty_list_rep.
  - vm_compute; reflexivity.
  - repeat constructor; vm_compute; congruence.
Defined.

Definition one_lheap : lheap (D := Z) :=
  LHeap {[1%positive := ListNode None None (Some 4)]} 2%positive.

Lemma list_free_releases_witness :
  ∃ h', list_free_with_data_free_func (Some (List_t (Some 1%positive) (Some 1%positive) 1)) true one_lheap
          = Ret ([(1%positive, Some 4)].*2, h')
    ∧ (∀ p, p ∈ [(1%positive, Some 4)].*1 → cells h' !! p = None)
    ∧ (∀ p, p ∉ [(1%positive, Some 4)].*1 → cells h' !! p = cells one_lheap !! p).
Proof.
  apply (list_free_releases true one_lheap (List_t (Some 1%positive) (Some 1%positive) 1)).
  split; simpl.
  - intros p n Hp. unfold one_lheap in *. simpl in *.
    apply lookup_singleton_Some in Hp as [<- _]. lia.
  - apply NoDup_singleton.
  - split; [done|]. exists None. done.
  - done.
  - done.
Defined.
