(* ===== verification/Buffer.v ===== *)
(** * Buffer: growable byte buffers of Grammar-Mutator/include/helpers.h

    A buffer is the pair of fields that [BUF_VAR] puts in a struct: the pointer
    ([None] is NULL) with the bytes behind it, and the size.  A byte that was
    never written is [None]. *)

From S2P Require Import Prelude.

Abbreviation membyte := (option Z).
Abbreviation buf := (option (list membyte)).

(** [next_pow2]; the guard [in > (size_t)-1] never holds. *)
Definition next_pow2 (x : Z) : Z :=
  if decide (x = 0) then 0 else
  let out := x - 1 in
  let out := Z.lor out (Z.shiftr out 1) in
  let out := Z.lor out (Z.shiftr out 2) in
  let out := Z.lor out (Z.shiftr out 4) in
  let out := Z.lor out (Z.shiftr out 8) in
  let out := Z.lor out (Z.shiftr out 16) in
  u64 (out + 1).

Definition INITIAL_GROWTH_SIZE : Z := 64.

Definition grow_target (size_needed : Z) : Z :=
  let needed := if decide (size_needed < INITIAL_GROWTH_SIZE) then INITIAL_GROWTH_SIZE else size_needed in
  let next_size := next_pow2 needed in
  if decide (next_size = 0) then needed else next_size.

(** Does [maybe_grow] call [realloc]? *)
Definition must_grow (size size_needed : Z) : bool :=
  negb (bool_decide (size_needed ≠ 0) && bool_decide (size_needed ≤ size)).

(** [realloc] to [n] bytes: the common prefix is kept, new bytes are unset. *)
Definition realloc_bytes (b : buf) (n : Z) : list membyte :=
  let old := default [] b in
  take (Z.to_nat n) old ++ replicate (Z.to_nat n - length old) None.

(** [maybe_grow(&buf, &size, size_needed)], given whether the allocator refuses
    the request; the new buffer is also the returned pointer. *)
Definition maybe_grow (refused : bool) (b : buf) (size size_needed : Z) : buf * Z :=
  if must_grow size size_needed then
    if refused then (None, 0)
    else (Some (realloc_bytes b (grow_target size_needed)), grow_target size_needed)
  else (b, size).

(** [memcpy(buf + off, src, len)]; [None] is an access outside the buffer. *)
Definition write_bytes (b : list membyte) (off : Z) (src : list membyte) : option (list membyte) :=
  if decide (0 ≤ off ∧ off + zlen src ≤ zlen b)
  then Some (take (Z.to_nat off) b ++ src ++ drop (Z.to_nat off + length src) b)
  else None.

(** The source operand of a [memcpy] of [n] bytes. *)
Definition copy_bytes (b : list membyte) (n : Z) : option (list membyte) :=
  if decide (n ≤ zlen b) then Some (take (Z.to_nat n) b) else None.

(** Looking at the first [n] bytes of a buffer; [None] is a read of unset bytes
    or one outside the buffer. *)
Definition read_bytes (b : list membyte) (n : Z) : option (list Z) :=
  if decide (n ≤ zlen b) then mapM id (take (Z.to_nat n) b) else None.

(** ** [next_pow2] *)

Definition top_bits (k : Z) (y : Z) : Prop :=
  ∀ i, Z.log2 y - k < i ≤ Z.log2 y → 0 ≤ i → Z.testbit y i = true.

Lemma log2_smear y k : 0 ≤ y → 0 ≤ k → Z.log2 (Z.lor y (Z.shiftr y k)) = Z.log2 y.
Proof.
  intros Hy Hk. rewrite Z.log2_lor by (try apply Z.shiftr_nonneg; lia).
  apply Z.max_l. destruct (decide (y = 0)) as [->|]; [by rewrite Z.shiftr_0_l|].
  rewrite Z.log2_shiftr by lia. pose proof (Z.log2_nonneg y). lia.
Qed.

Lemma smear_top k y : 0 ≤ y → 0 < k → top_bits k y → top_bits (2 * k) (Z.lor y (Z.shiftr y k)).
Proof.
  intros Hy Hk Ht i. rewrite log2_smear by lia. intros Hi Hi0.
  rewrite Z.lor_spec, Z.shiftr_spec by lia. apply orb_true_iff.
  destruct (decide (Z.log2 y - k < i)); [left|right]; apply Ht; lia.
Qed.

Definition smear5 (y : Z) : Z :=
  let y := Z.lor y (Z.shiftr y 1) in
  let y := Z.lor y (Z.shiftr y 2) in
  let y := Z.lor y (Z.shiftr y 4) in
  let y := Z.lor y (Z.shiftr y 8) in
  Z.lor y (Z.shiftr y 16).

Lemma smear_nonneg y k : 0 ≤ y → 0 ≤ Z.lor y (Z.shiftr y k).
Proof. intros. apply Z.lor_nonneg. split; [done|]. by apply Z.shiftr_nonneg. Qed.

Lemma land_le_r a b : 0 ≤ b → Z.land a b ≤ b.
Proof.
  intros Hb. pose proof (Z.add_lor_land (Z.land a b) (Z.ldiff b a)) as H.
  assert (Z.lor (Z.land a b) (Z.ldiff b a) = b) as E1.
  { apply Z.bits_inj'. intros n Hn. rewrite Z.lor_spec, Z.land_spec, Z.ldiff_spec.
    by destruct (Z.testbit a n), (Z.testbit b n). }
  assert (Z.land (Z.land a b) (Z.ldiff b a) = 0) as E2.
  { apply Z.bits_inj'. intros n Hn. rewrite !Z.land_spec, Z.ldiff_spec, Z.bits_0.
    by destruct (Z.testbit a n), (Z.testbit b n). }
  assert (0 ≤ Z.ldiff b a) by (apply Z.ldiff_nonneg; by left). lia.
Qed.

Lemma smear_ge y k : 0 ≤ y → y ≤ Z.lor y (Z.shiftr y k).
Proof.
  intros Hy. pose proof (Z.add_lor_land y (Z.shiftr y k)).
  pose proof (land_le_r y (Z.shiftr y k)) as Hl.
  assert (0 ≤ Z.shiftr y k) by (by apply Z.shiftr_nonneg). lia.
Qed.

Lemma smear5_ge y : 0 ≤ y → y ≤ smear5 y.
Proof.
  intros Hy. unfold smear5.
  repeat (etrans; [|apply smear_ge; repeat apply smear_nonneg; done]). done.
Qed.

Lemma smear5_log2 y : 0 ≤ y → Z.log2 (smear5 y) = Z.log2 y.
Proof.
  intros Hy. unfold smear5. by rewrite !log2_smear by (repeat apply smear_nonneg; lia).
Qed.

Lemma smear5_top y : 0 < y → top_bits 32 (smear5 y).
Proof.
  intros Hy. unfold smear5.
  apply (smear_top 16); [repeat apply smear_nonneg; lia|lia|].
  apply (smear_top 8); [repeat apply smear_nonneg; lia|lia|].
  apply (smear_top 4); [repeat apply smear_nonneg; lia|lia|].
  apply (smear_top 2); [repeat apply smear_nonneg; lia|lia|].
  apply (smear_top 1); [lia|lia|].
  intros i Hi ?. assert (i = Z.log2 y) as -> by lia. by apply Z.bit_log2.
Qed.

Lemma smear5_ones y : 0 < y < 2 ^ 32 → smear5 y = Z.ones (Z.log2 y + 1).
Proof.
  intros Hy. pose proof (smear5_top y ltac:(lia)) as Ht.
  pose proof (smear5_log2 y ltac:(lia)) as Hl. pose proof (smear5_ge y ltac:(lia)) as Hge.
  assert (Z.log2 y < 32) by (apply Z.log2_lt_pow2; lia). pose proof (Z.log2_nonneg y).
  apply Z.bits_inj'. intros i Hi. destruct (decide (i ≤ Z.log2 y)).
  - rewrite (Ht i) by lia. rewrite Z.ones_spec_low by lia. done.
  - rewrite Z.ones_spec_high by lia. apply Z.bits_above_log2; lia.
Qed.

Lemma next_pow2_smear x : 0 < x → next_pow2 x = u64 (smear5 (x - 1) + 1).
Proof. intros. unfold next_pow2. by rewrite decide_False by lia. Qed.

(** For every request up to 4 GiB, [next_pow2] returns the least power of
    two that is not below it. *)
Theorem next_pow2_correct x :
  1 ≤ x ≤ 2 ^ 32 → next_pow2 x = 2 ^ Z.log2_up x ∧ x ≤ next_pow2 x < 2 * x.
Proof.
  intros Hx.
  assert (next_pow2 x = 2 ^ Z.log2_up x) as E.
  { rewrite next_pow2_smear by lia. destruct (decide (x = 1)) as [->|]; [done|].
    rewrite smear5_ones, Z.log2_up_eqn by lia. rewrite Z.ones_equiv.
    replace (Z.pred x) with (x - 1) by lia.
    assert (Z.log2 (x - 1) < 32) by (apply Z.log2_lt_pow2; lia).
    pose proof (Z.log2_nonneg (x - 1)).
    assert (2 ^ (Z.log2 (x - 1) + 1) ≤ 2 ^ 32) by (apply Z.pow_le_mono_r; lia).
    assert (0 < 2 ^ (Z.log2 (x - 1) + 1)) by (apply Z.pow_pos_nonneg; lia).
    rewrite wrap_small; [|lia]. unfold Z.succ. lia. }
  split; [done|]. rewrite E. destruct (decide (x = 1)) as [->|]; [done|].
  pose proof (Z.log2_up_spec x ltac:(lia)) as [Hlo Hhi].
  pose proof (Z.log2_up_pos x ltac:(lia)).
  replace (Z.log2_up x) with (Z.succ (Z.pred (Z.log2_up x))) at 2 by lia.
  rewrite Z.pow_succ_r by lia. lia.
Qed.

Lemma next_pow2_correct_witness : next_pow2 100 = 2 ^ Z.log2_up 100 ∧ 100 ≤ next_pow2 100 < 2 * 100.
Proof. apply (next_pow2_correct 100). lia. Defined.

(** Above 4 GiB the result is not a power of two: the shift by 32 that a 64-bit
    [size_t] needs is missing. *)
Example next_pow2_gap : next_pow2 (2 ^ 33 + 1) = 2 ^ 34 - 3.
Proof. reflexivity. Qed.

(** ** [maybe_grow] and the byte accesses *)

(** The invariant of a [BUF_VAR] pair. *)
Definition buf_ok (b : buf) (size : Z) : Prop := size = zlen (default [] b).

Lemma grow_target_ge n : 0 ≤ n < 2 ^ 64 → n ≤ grow_target n ∧ 64 ≤ grow_target n.
Proof.
  intros Hn. unfold grow_target, INITIAL_GROWTH_SIZE. destruct (decide (n < 64)).
  { rewrite (decide_False (P := next_pow2 64 = 0)) by done. split; [|done].
    transitivity 64; [lia|done]. }
  case_decide as Hz; [lia|]. rewrite next_pow2_smear in * by lia.
  pose proof (smear5_ge (n - 1) ltac:(lia)).
  destruct (decide (smear5 (n - 1) + 1 < 2 ^ 64)).
  - rewrite wrap_small by lia. lia.
  - exfalso. apply Hz. unfold wrap.
    assert (smear5 (n - 1) < 2 ^ 64).
    { apply Z.log2_lt_cancel. rewrite Z.log2_pow2 by lia. rewrite smear5_log2 by lia.
      apply Z.log2_lt_pow2; lia. }
    replace (smear5 (n - 1) + 1) with (2 ^ 64) by lia. by apply Z.mod_same.
Qed.

Lemma realloc_bytes_length b n : 0 ≤ n → zlen (realloc_bytes b n) = n.
Proof. intros. unfold realloc_bytes. rewrite length_app, length_take, length_replicate. lia. Qed.

Lemma realloc_bytes_prefix b n :
  zlen (default [] b) ≤ n → default [] b `prefix_of` realloc_bytes b n.
Proof.
  intros. unfold realloc_bytes. rewrite take_ge by lia. by eexists.
Qed.

Lemma maybe_grow_ok b size needed :
  buf_ok b size → 0 ≤ needed < 2 ^ 64 →
  (∃ bs size', maybe_grow false b size needed = (Some bs, size')
     ∧ buf_ok (Some bs) size' ∧ needed ≤ size'
     ∧ (needed ≠ 0 → default [] b `prefix_of` bs))
  ∧ (must_grow size needed = true → maybe_grow true b size needed = (None, 0)).
Proof.
  intros Hok Hn. pose proof (grow_target_ge needed Hn) as [Hge Hge'].
  unfold maybe_grow, buf_ok in *. split; [|by intros ->].
  destruct (must_grow size needed) eqn:E.
  - eexists _, _. split; [done|]. split; [|split; [done|]].
    + simpl. by rewrite realloc_bytes_length by lia.
    + intros Hnz. apply realloc_bytes_prefix. unfold must_grow in E.
      apply negb_true_iff, andb_false_iff in E as [E|E]; apply bool_decide_eq_false in E; [done|lia].
  - unfold must_grow in E. apply negb_false_iff, andb_true_iff in E as [E1 E2].
    apply bool_decide_eq_true in E1, E2. destruct b as [bs|]; simpl in *; [|lia].
    eexists _, _. split; [done|]. simpl. split; [done|]. split; [lia|]. intros _. reflexivity.
Qed.

(** [maybe_grow] on a consistent buffer: when the allocator obliges, the
    result is a consistent non-NULL buffer with room for the request, and for a
    non-zero request every byte already stored is kept; when the allocator
    refuses a needed reallocation, the buffer is NULL with size zero. *)
Theorem maybe_grow_correct b size needed :
  buf_ok b size → 0 ≤ needed < 2 ^ 64 →
  (∃ bs size', maybe_grow false b size needed = (Some bs, size')
     ∧ buf_ok (Some bs) size' ∧ needed ≤ size'
     ∧ (needed ≠ 0 → default [] b `prefix_of` bs))
  ∧ (must_grow size needed = true → maybe_grow true b size needed = (None, 0)).
Proof. apply maybe_grow_ok. Qed.

Lemma maybe_grow_correct_witness :
  (∃ bs size', maybe_grow false (Some [Some 1; Some 2]) 2 100 = (Some bs, size')
     ∧ buf_ok (Some bs) size' ∧ 100 ≤ size'
     ∧ (100 ≠ 0 → [Some 1; Some 2] `prefix_of` bs))
  ∧ (must_grow 2 100 = true → maybe_grow true (Some [Some 1; Some 2]) 2 100 = (None, 0)).
Proof. apply (maybe_grow_correct (Some [Some 1; Some 2]) 2 100); [reflexivity|lia]. Defined.

(** A zero-sized request is served with a fresh 64-byte block, not with NULL. *)
Example maybe_grow_zero : maybe_grow false None 0 0 = (Some (replicate 64 None), 64).
Proof. reflexivity. Qed.

Lemma write_bytes_length b off src b' :
  write_bytes b off src = Some b' → length b' = length b.
Proof.
  unfold write_bytes. case_decide as Hd; [|done]. intros [= <-].
  rewrite !length_app, length_take, length_drop. lia.
Qed.

(** Writing right after a known prefix extends the known prefix. *)
Lemma write_bytes_extend b pre off src :
  pre `prefix_of` b → off = zlen pre → off + zlen src ≤ zlen b →
  ∃ b', write_bytes b off src = Some b' ∧ (pre ++ src) `prefix_of` b' ∧ length b' = length b.
Proof.
  intros [rest ->] -> Hlen. unfold write_bytes. rewrite decide_True by lia.
  eexists. split; [done|]. rewrite length_app in Hlen. rewrite Nat2Z.id, take_app_length.
  split; [rewrite app_assoc; by eexists|].
  rewrite !length_app, length_drop, length_app. lia.
Qed.

Lemma copy_bytes_prefix b v : v `prefix_of` b → copy_bytes b (zlen v) = Some v.
Proof.
  intros [rest ->]. unfold copy_bytes. rewrite decide_True by (rewrite length_app; lia).
  by rewrite Nat2Z.id, take_app_length.
Qed.

Lemma read_bytes_prefix b v : (Some <$> v) `prefix_of` b → read_bytes b (zlen v) = Some v.
Proof.
  intros [rest ->]. unfold read_bytes.
  rewrite decide_True by (rewrite length_app, length_fmap; lia).
  rewrite Nat2Z.id, <- (length_fmap Some v), take_app_length. by apply mapM_fmap_Some.
Qed.
