(* ===== verification/Utils.v ===== *)
(** * Utils: Grammar-Mutator/src/utils.c and the hash printer of chunk_store.c

    The Romu generator with its rejection-sampling front end, the backwards
    string search, and the fixed-length hexadecimal printer.  [Random] is the
    interface the tree code relies on; [romu_random] discharges it for every
    generator state that keeps producing acceptable words. *)

From S2P Require Import Prelude.
From Stdlib Require Import ConstructiveEpsilon.

(** ** Random numbers *)

Record rng := Rng { seed0 : Z; seed1 : Z; seed2 : Z }.

Definition ROTL64 (d lrot : Z) : Z := Z.lor (u64 (Z.shiftl d lrot)) (Z.shiftr d (64 - lrot)).

(** [random_set_seed]; [xxh64] is the vendored hash applied to the 8 seed bytes. *)
Definition random_set_seed (xxh64 : Z → Z → Z) (seed : Z) : rng :=
  let HASH_SEED := 0xa5b35705 in
  let s0 := xxh64 seed HASH_SEED in
  let s1 := Z.lxor s0 0x1234567890abcdef in
  let s2 := Z.lxor (Z.land s0 0x1234567890abcdef) (Z.lor s1 0xfedcba9876543210) in
  Rng s0 s1 s2.

(** [random_next] (romuDuoJr, the 64-bit build). *)
Definition random_next (s : rng) : Z * rng :=
  let xp := seed0 s in
  let s0 := u64 (15241094284759029579 * seed1 s) in
  let s1 := u64 (seed1 s - xp) in
  let s1 := ROTL64 s1 27 in
  (xp, Rng s0 s1 (seed2 s)).

Definition UINT64_MAX : Z := 2 ^ 64 - 1.

(** A draw is rejected when it is at or above the largest multiple of [limit]. *)
Definition rejected (limit x : Z) : bool := bool_decide (UINT64_MAX - UINT64_MAX mod limit ≤ x).

Fixpoint random_below_loop (fuel : nat) (limit : Z) (s : rng) : outcome (Z * rng) :=
  match fuel with
  | O => NoFuel
  | S fuel =>
      let '(x, s') := random_next s in
      if rejected limit x then random_below_loop fuel limit s' else Ret (x mod limit, s')
  end.

Definition random_below (fuel : nat) (limit : Z) (s : rng) : outcome (Z * rng) :=
  if decide (limit ≤ 1) then Ret (0, s) else random_below_loop fuel limit s.

(** The generator as a stream of 64-bit words. *)
Definition rng_after (n : nat) (s : rng) : rng := Nat.iter n (λ s, (random_next s).2) s.
Definition draw (n : nat) (s : rng) : Z := seed0 (rng_after n s).

Lemma rng_after_S n s : rng_after (S n) s = rng_after n (random_next s).2.
Proof. unfold rng_after. by rewrite Nat.iter_succ_r. Qed.

Lemma rejected_true limit x : rejected limit x = true ↔ UINT64_MAX - UINT64_MAX mod limit ≤ x.
Proof. apply bool_decide_eq_true. Qed.

Lemma rejected_false limit x : rejected limit x = false ↔ x < UINT64_MAX - UINT64_MAX mod limit.
Proof. unfold rejected. rewrite bool_decide_eq_false. lia. Qed.

Lemma random_below_loop_S fuel limit s :
  random_below_loop (S fuel) limit s =
    if rejected limit (draw 0 s) then random_below_loop fuel limit (random_next s).2
    else Ret (draw 0 s mod limit, rng_after 1 s).
Proof. reflexivity. Qed.

Lemma draw_S n s : draw (S n) s = draw n (random_next s).2.
Proof. unfold draw. by rewrite rng_after_S. Qed.

Lemma random_below_loop_first limit k : ∀ fuel s,
  (k < fuel)%nat →
  (∀ j, (j < k)%nat → rejected limit (draw j s) = true) →
  rejected limit (draw k s) = false →
  random_below_loop fuel limit s = Ret (draw k s mod limit, rng_after (S k) s).
Proof.
  induction k as [|k IH]; intros fuel s Hf Hrej Hacc; (destruct fuel as [|fuel]; [lia|]);
    rewrite random_below_loop_S.
  - by rewrite Hacc.
  - rewrite (Hrej 0%nat) by lia. rewrite IH; [|lia| |].
    + by rewrite draw_S, (rng_after_S _ s).
    + intros j Hj. rewrite <- draw_S. apply Hrej. lia.
    + by rewrite <- draw_S.
Qed.

Lemma random_below_first fuel limit k s :
  1 < limit → (k < fuel)%nat →
  (∀ j, (j < k)%nat → rejected limit (draw j s) = true) →
  rejected limit (draw k s) = false →
  random_below fuel limit s = Ret (draw k s mod limit, rng_after (S k) s)
  ∧ 0 ≤ draw k s mod limit < limit.
Proof.
  intros Hl Hk Hrej Hacc. unfold random_below. rewrite decide_False by lia.
  split; [by apply random_below_loop_first|]. apply Z.mod_pos_bound. lia.
Qed.

(** C39. Rejection sampling is unbiased: [random_below] returns the residue of the
    first draw that is not rejected, and for every result [r < limit] the 64-bit
    words that are accepted and give [r] are exactly [r + limit * q] for the same
    [UINT64_MAX / limit] values of [q], whatever [r] is. *)
Theorem random_below_unbiased limit r :
  1 < limit < 2 ^ 32 → 0 ≤ r < limit →
  (∀ fuel s k, (k < fuel)%nat → (∀ j, (j < k)%nat → rejected limit (draw j s) = true) →
     rejected limit (draw k s) = false →
     random_below fuel limit s = Ret (draw k s mod limit, rng_after (S k) s))
  ∧ (∀ x, 0 ≤ x → rejected limit x = false ∧ x mod limit = r ↔
       ∃ q, 0 ≤ q < UINT64_MAX / limit ∧ x = r + limit * q).
Proof.
  intros Hl Hr. split.
  { intros. by eapply random_below_first; [lia| | |]. }
  intros x Hx. rewrite rejected_false.
  pose proof (Z.div_mod UINT64_MAX limit ltac:(lia)) as Hdm.
  pose proof (Z.mod_pos_bound UINT64_MAX limit ltac:(lia)).
  replace (UINT64_MAX - UINT64_MAX mod limit) with (limit * (UINT64_MAX / limit)) by lia.
  set (Q := UINT64_MAX / limit) in *. split.
  - intros [Hlt Hmod]. exists (x / limit).
    pose proof (Z.div_mod x limit ltac:(lia)). pose proof (Z.div_pos x limit).
    split; [|lia]. split; [lia|]. apply Z.div_lt_upper_bound; lia.
  - intros (q & Hq & ->). split; [nia|].
    rewrite (Z.mul_comm limit q), Z.mod_add by lia. apply Z.mod_small. lia.
Qed.

Lemma random_below_unbiased_witness :
  (∀ fuel s k, (k < fuel)%nat → (∀ j, (j < k)%nat → rejected 10 (draw j s) = true) →
     rejected 10 (draw k s) = false →
     random_below fuel 10 s = Ret (draw k s mod 10, rng_after (S k) s))
  ∧ (∀ x, 0 ≤ x → rejected 10 x = false ∧ x mod 10 = 3 ↔
       ∃ q, 0 ≤ q < UINT64_MAX / 10 ∧ x = 3 + 10 * q).
Proof. apply (random_below_unbiased 10 3); lia. Defined.

(** ** The interface of the random source

    What the tree code relies on: a draw below [limit] exists and lies in
    [[0, limit)], and is [0] for a limit of at most one. *)

Class Random (R : Type) := {
  below : Z → R → Z * R;
  below_range : ∀ limit s, 0 ≤ (below limit s).1 ∧ (1 < limit → (below limit s).1 < limit)
                           ∧ (limit ≤ 1 → (below limit s).1 = 0) }.

(** A generator state is live when acceptable words keep coming: no limit that
    fits in 32 bits can reject every draw. *)
Definition acceptable (x : Z) : Prop := 0 ≤ x < 2 ^ 64 - 2 ^ 32.
#[export] Instance acceptable_dec x : Decision (acceptable x).
Proof. unfold acceptable. apply _. Defined.

Definition live (s : rng) : Prop := ∀ n, ∃ k, (n ≤ k)%nat ∧ acceptable (draw k s).

Lemma acceptable_not_rejected limit x :
  1 < limit ≤ 2 ^ 32 → acceptable x → rejected limit x = false.
Proof.
  intros Hl [Hx1 Hx2]. apply rejected_false. unfold UINT64_MAX in *.
  pose proof (Z.mod_pos_bound (2 ^ 64 - 1) limit ltac:(lia)). lia.
Qed.

Lemma draw_after n k s : draw k (rng_after n s) = draw (k + n) s.
Proof. unfold draw, rng_after. by rewrite Nat.iter_add. Qed.

Lemma live_after n s : live s → live (rng_after n s).
Proof.
  intros Hs m. destruct (Hs (m + n)%nat) as (k & Hk & Ha). exists (k - n)%nat.
  rewrite draw_after. replace (k - n + n)%nat with k by lia. split; [lia|done].
Qed.

Definition live_rng : Type := { s : rng | live s }.

(** The index of the first draw that [random_below] accepts. *)
Definition first_accepted (limit : Z) (s : live_rng) : 1 < limit ≤ 2 ^ 32 →
  { k | rejected limit (draw k (proj1_sig s)) = false
        ∧ ∀ j, (j < k)%nat → rejected limit (draw j (proj1_sig s)) = true }.
Proof.
  intros Hl. destruct s as [s Hs]. simpl.
  destruct (epsilon_smallest (λ k, rejected limit (draw k s) = false)) as [k [Hk Hmin]].
  - intros n. destruct (rejected limit (draw n s)); [by right|by left].
  - destruct (Hs 0%nat) as (k & _ & Ha). exists k. by apply acceptable_not_rejected.
  - exists k. split; [done|]. intros j Hj. destruct (rejected limit (draw j s)) eqn:E; [done|].
    specialize (Hmin j E). lia.
Defined.

Definition live_below (limit : Z) (s : live_rng) : Z * live_rng :=
  match decide (1 < limit ≤ 2 ^ 32) with
  | left Hl =>
      let k := proj1_sig (first_accepted limit s Hl) in
      (draw k (proj1_sig s) mod limit,
       exist live (rng_after (S k) (proj1_sig s)) (live_after (S k) _ (proj2_sig s)))
  | right _ => (0, s)
  end.

#[export] Instance romu_random : Random live_rng.
Proof.
  refine {| below := live_below |}. intros limit s. unfold live_below.
  destruct (decide _) as [Hl|Hl]; simpl; [|lia].
  pose proof (Z.mod_pos_bound (draw (proj1_sig (first_accepted limit s Hl)) (proj1_sig s)) limit). lia.
Defined.

(** [live_below] is [random_below] with enough fuel, so on a live state the
    rejection loop of the source ends. *)
Lemma live_below_correct limit s :
  limit ≤ 2 ^ 32 →
  ∃ fuel0, ∀ fuel, (fuel0 ≤ fuel)%nat →
    random_below fuel limit (proj1_sig s)
      = Ret ((live_below limit s).1, proj1_sig (live_below limit s).2).
Proof.
  intros Hle. unfold live_below. destruct (decide _) as [Hl|Hl].
  - destruct (first_accepted limit s Hl) as [k [Hk Hmin]]. simpl. exists (S k). intros fuel Hf.
    apply random_below_first; [lia|lia|done|done].
  - exists 0%nat. intros fuel _. unfold random_below. by rewrite decide_True by lia.
Qed.

(** The all-zero state is live: it produces zero for ever. *)
Lemma zero_after n : rng_after n (Rng 0 0 0) = Rng 0 0 0.
Proof. induction n as [|n IH]; [done|]. by rewrite rng_after_S. Qed.

Lemma zero_live : live (Rng 0 0 0).
Proof.
  intros n. exists n. split; [lia|]. unfold draw. rewrite zero_after. unfold acceptable. simpl. lia.
Qed.

(** ** [strrstr] *)

Section Strrstr.
Context {A : Type} `{EqDecision A}.
Implicit Types (hay needle : list A).

Definition occurs hay needle (k : nat) : Prop := needle `prefix_of` drop k hay.

#[export] Instance occurs_dec hay needle k : Decision (occurs hay needle k).
Proof. unfold occurs. apply _. Defined.

(** The loop runs [s] from [haystack + (h - n)] down while [s != haystack]. *)
Fixpoint strrstr_loop (k : nat) hay needle : option nat :=
  match k with
  | O => None
  | S k' => if decide (occurs hay needle k) then Some k else strrstr_loop k' hay needle
  end.

(** The offset of the found substring; [None] for NULL strings and for NULL. *)
Definition strrstr (haystack needle : option (list A)) : option nat :=
  match haystack, needle with
  | Some hay, Some needle =>
      if decide (length needle = 0%nat ∨ length hay = 0%nat ∨ (length hay < length needle)%nat)
      then None
      else strrstr_loop (length hay - length needle) hay needle
  | _, _ => None
  end.

Lemma strrstr_loop_spec hay needle k : ∀ n,
  strrstr_loop n hay needle = Some k ↔
  (0 < k ≤ n)%nat ∧ occurs hay needle k ∧ ∀ j, (k < j ≤ n)%nat → ¬ occurs hay needle j.
Proof.
  induction n as [|n IH]; simpl; [split; [done|lia]|]. case_decide as Ho.
  - split.
    + intros [= <-]. split; [lia|]. split; [done|]. lia.
    + intros (Hk & Hok & Hmax). f_equal. destruct (decide (k = S n)); [done|].
      exfalso. apply (Hmax (S n)); [lia|done].
  - rewrite IH. split; intros (Hk & Hok & Hmax).
    + split; [lia|]. split; [done|]. intros j Hj.
      destruct (decide (j = S n)) as [->|]; [done|]. apply Hmax. lia.
    + destruct (decide (k = S n)) as [->|]; [done|]. split; [lia|]. split; [done|].
      intros j Hj. apply Hmax. lia.
Qed.

Lemma occurs_bound hay needle k :
  needle ≠ [] → occurs hay needle k → (k + length needle ≤ length hay)%nat.
Proof.
  intros Hne [r Hr]. apply (f_equal length) in Hr. rewrite length_drop, length_app in Hr.
  destruct needle; [done|]. simpl in *. lia.
Qed.

(** [strrstr] finds the last occurrence that is not at the very start:
    it returns [k] exactly when the needle occurs at [k > 0] and nowhere
    later; an occurrence at offset 0 alone gives NULL. *)
Theorem strrstr_spec hay needle k :
  needle ≠ [] →
  strrstr (Some hay) (Some needle) = Some k ↔
  (0 < k)%nat ∧ occurs hay needle k ∧ ∀ j, (k < j)%nat → ¬ occurs hay needle j.
Proof.
  intros Hne. unfold strrstr. case_decide as Hg.
  - split; [done|]. intros (Hk & Ho & _). apply occurs_bound in Ho; [|done].
    destruct needle; [done|]. simpl in *. lia.
  - rewrite strrstr_loop_spec. split; intros (Hk & Ho & Hmax); (split; [|split; [done|]]).
    + lia.
    + intros j Hj Hoj. pose proof (occurs_bound _ _ _ Hne Hoj). apply (Hmax j); [lia|done].
    + pose proof (occurs_bound _ _ _ Hne Ho). lia.
    + intros j Hj. apply Hmax. lia.
Qed.
End Strrstr.

Lemma strrstr_spec_witness :
  strrstr (Some [1; 2; 3; 1; 2; 4]) (Some [1; 2]) = Some 3%nat ↔
  (0 < 3)%nat ∧ occurs [1; 2; 3; 1; 2; 4] [1; 2] 3 ∧
  ∀ j, (3 < j)%nat → ¬ occurs [1; 2; 3; 1; 2; 4] [1; 2] j.
Proof. apply (strrstr_spec [1; 2; 3; 1; 2; 4] [1; 2] 3). congruence. Defined.

(** A match at the start of the haystack is missed. *)
Example strrstr_misses_start : strrstr (Some [1; 2; 3]) (Some [1; 2]) = None.
Proof. reflexivity. Qed.

(** ** [uint64_to_hex] *)

Definition hex_digit (d : Z) : Ascii.ascii :=
  match String.get (Z.to_nat d) "0123456789ABCDEF" with Some c => c | None => Ascii.zero end.

(** [n] digits, the least significant last. *)
Fixpoint hex_digits (n : nat) (num : Z) : list Ascii.ascii :=
  match n with
  | O => []
  | S n => hex_digits n (Z.shiftr num 4) ++ [hex_digit (Z.land num 0xF)]
  end.

Definition uint64_to_hex (num : Z) : string := String.string_of_list_ascii (hex_digits 16 num).

Lemma hex_digit_inj d e : 0 ≤ d < 16 → 0 ≤ e < 16 → hex_digit d = hex_digit e → d = e.
Proof.
  intros Hd He.
  assert (d ∈ seqZ 0 16) as Hd' by (apply elem_of_seqZ; lia).
  assert (e ∈ seqZ 0 16) as He' by (apply elem_of_seqZ; lia).
  assert (Forall (λ d, Forall (λ e, hex_digit d = hex_digit e → d = e) (seqZ 0 16)) (seqZ 0 16)) as Hall.
  { apply (bool_decide_unpack _). vm_compute. done. }
  rewrite Forall_forall in Hall. specialize (Hall d Hd'). rewrite Forall_forall in Hall. by apply Hall.
Qed.

Lemma hex_digits_inj n : ∀ x y, 0 ≤ x < 16 ^ Z.of_nat n → 0 ≤ y < 16 ^ Z.of_nat n →
  hex_digits n x = hex_digits n y → x = y.
Proof.
  induction n as [|n IH]; intros x y Hx Hy E.
  { rewrite Z.pow_0_r in *. lia. }
  rewrite Nat2Z.inj_succ, Z.pow_succ_r in * by lia. cbn [hex_digits] in E.
  apply app_inj_tail in E as [E1 E2].
  change 0xF with (Z.ones 4) in E2. rewrite !Z.land_ones in E2 by lia.
  rewrite !Z.shiftr_div_pow2 in E1 by lia. change (2 ^ 4) with 16 in *.
  pose proof (Z.mod_pos_bound x 16 ltac:(lia)). pose proof (Z.mod_pos_bound y 16 ltac:(lia)).
  apply hex_digit_inj in E2; [|lia|lia].
  apply IH in E1.
  - rewrite (Z.div_mod x 16), (Z.div_mod y 16) by lia. congruence.
  - split; [apply Z.div_pos; lia|]. apply Z.div_lt_upper_bound; lia.
  - split; [apply Z.div_pos; lia|]. apply Z.div_lt_upper_bound; lia.
Qed.

(** Distinct 64-bit hashes have distinct 16-digit names. *)
Lemma uint64_to_hex_inj x y :
  in_width 64 x → in_width 64 y → uint64_to_hex x = uint64_to_hex y → x = y.
Proof.
  unfold in_width, uint64_to_hex. intros Hx Hy E.
  apply (f_equal String.list_ascii_of_string) in E. rewrite !String.list_ascii_of_string_of_list_ascii in E.
  by apply (hex_digits_inj 16).
Qed.
