(* ===== verification/Tree.v ===== *)
(** * Tree: the parse trees of Grammar-Mutator/src/tree.c

    Nodes and trees are heap objects named by locations; a pointer is an
    [option loc].  Every function of tree.c is a definition of the same name in
    the state monad over [heap]; the recursive ones have a [_rec] form whose
    first argument bounds the recursion depth, and the function itself runs it
    with one more than the number of allocated nodes.  Lists are the sequences
    that [CList] shows list.c to implement. *)

From S2P Require Import Prelude Buffer Utils.

Abbreviation loc := positive.
Abbreviation ptr := (option loc).

(** [struct tree_node].  An entry of the subnode array that was never written
    is [None]; a written one is [Some p] with [p] a pointer. *)
Record node := Node {
  id : Z; rule_id : Z;
  val_buf : buf; val_size : Z; val_len : Z;
  parent : ptr;
  subnodes : option (list (option ptr)); subnode_count : Z;
  recursion_edge_size : Z; non_term_size : Z }.

(** [struct edge]. *)
Record edge := Edge { e_parent : ptr; e_subnode : ptr; subnode_offset : Z }.

(** [struct tree]. *)
Record tree := Tree {
  root : ptr;
  data_buf : buf; data_size : Z; data_len : Z;
  ser_buf : buf; ser_size : Z; ser_len : Z;
  non_terminal_node_list : option (list loc);
  recursion_edge_list : option (list edge) }.

(** The memory, the files, and the number of the next request to the host. *)
Record heap := Heap {
  nodes : gmap loc node; trees : gmap loc tree;
  files : gmap string (list Z); next_loc : positive }.

(** ** Field updates *)

Definition set_nodes (m : gmap loc node) (h : heap) := Heap m (trees h) (files h) (next_loc h).
Definition set_trees (m : gmap loc tree) (h : heap) := Heap (nodes h) m (files h) (next_loc h).
Definition set_files (m : gmap string (list Z)) (h : heap) := Heap (nodes h) (trees h) m (next_loc h).
Definition bump (h : heap) := Heap (nodes h) (trees h) (files h) (Pos.succ (next_loc h)).

Definition set_id v n := Node v (rule_id n) (val_buf n) (val_size n) (val_len n) (parent n)
  (subnodes n) (subnode_count n) (recursion_edge_size n) (non_term_size n).
Definition set_rule_id v n := Node (id n) v (val_buf n) (val_size n) (val_len n) (parent n)
  (subnodes n) (subnode_count n) (recursion_edge_size n) (non_term_size n).
Definition set_val b s n := Node (id n) (rule_id n) b s (val_len n) (parent n)
  (subnodes n) (subnode_count n) (recursion_edge_size n) (non_term_size n).
Definition set_val_len v n := Node (id n) (rule_id n) (val_buf n) (val_size n) v (parent n)
  (subnodes n) (subnode_count n) (recursion_edge_size n) (non_term_size n).
Definition set_parent v n := Node (id n) (rule_id n) (val_buf n) (val_size n) (val_len n) v
  (subnodes n) (subnode_count n) (recursion_edge_size n) (non_term_size n).
Definition set_subnodes v n := Node (id n) (rule_id n) (val_buf n) (val_size n) (val_len n) (parent n)
  v (subnode_count n) (recursion_edge_size n) (non_term_size n).
Definition set_subnode_count v n := Node (id n) (rule_id n) (val_buf n) (val_size n) (val_len n) (parent n)
  (subnodes n) v (recursion_edge_size n) (non_term_size n).
Definition set_recursion_edge_size v n := Node (id n) (rule_id n) (val_buf n) (val_size n) (val_len n)
  (parent n) (subnodes n) (subnode_count n) v (non_term_size n).
Definition set_non_term_size v n := Node (id n) (rule_id n) (val_buf n) (val_size n) (val_len n)
  (parent n) (subnodes n) (subnode_count n) (recursion_edge_size n) v.

Definition set_root v t := Tree v (data_buf t) (data_size t) (data_len t) (ser_buf t) (ser_size t)
  (ser_len t) (non_terminal_node_list t) (recursion_edge_list t).
Definition set_data_buf b s t := Tree (root t) b s (data_len t) (ser_buf t) (ser_size t)
  (ser_len t) (non_terminal_node_list t) (recursion_edge_list t).
Definition set_data_len v t := Tree (root t) (data_buf t) (data_size t) v (ser_buf t) (ser_size t)
  (ser_len t) (non_terminal_node_list t) (recursion_edge_list t).
Definition set_ser_buf b s t := Tree (root t) (data_buf t) (data_size t) (data_len t) b s
  (ser_len t) (non_terminal_node_list t) (recursion_edge_list t).
Definition set_ser_len v t := Tree (root t) (data_buf t) (data_size t) (data_len t) (ser_buf t)
  (ser_size t) v (non_terminal_node_list t) (recursion_edge_list t).
Definition set_non_terminal_node_list v t := Tree (root t) (data_buf t) (data_size t) (data_len t)
  (ser_buf t) (ser_size t) (ser_len t) v (recursion_edge_list t).
Definition set_recursion_edge_list v t := Tree (root t) (data_buf t) (data_size t) (data_len t)
  (ser_buf t) (ser_size t) (ser_len t) (non_terminal_node_list t) v.

(** ** Memory accesses *)

Section Memory.
Context `{Host}.

(** A request to the host: was it granted? *)
Definition request : M heap bool := λ h, Ret (negb (refuses (next_loc h)), bump h).

Definition load (p : ptr) : M heap node := λ h,
  match p with
  | None => Fault NullDeref
  | Some p => match nodes h !! p with Some n => Ret (n, h) | None => Fault Dangling end
  end.

Definition store (p : ptr) (f : node → node) : M heap unit := λ h,
  match p with
  | None => Fault NullDeref
  | Some p => match nodes h !! p with
              | Some n => Ret (tt, set_nodes (<[p := f n]> (nodes h)) h)
              | None => Fault Dangling
              end
  end.

(** [free(node)]: the object disappears; freeing it twice is a fault. *)
Definition free_node (p : ptr) : M heap unit := λ h,
  match p with
  | None => Ret (tt, h)
  | Some p => match nodes h !! p with
              | Some n => Ret (tt, set_nodes (delete p (nodes h)) h)
              | None => Fault Dangling
              end
  end.

Definition load_tree (t : ptr) : M heap tree := λ h,
  match t with
  | None => Fault NullDeref
  | Some t => match trees h !! t with Some x => Ret (x, h) | None => Fault Dangling end
  end.

Definition store_tree (t : ptr) (f : tree → tree) : M heap unit := λ h,
  match t with
  | None => Fault NullDeref
  | Some t => match trees h !! t with
              | Some x => Ret (tt, set_trees (<[t := f x]> (trees h)) h)
              | None => Fault Dangling
              end
  end.

Definition free_tree (t : ptr) : M heap unit := λ h,
  match t with
  | None => Ret (tt, h)
  | Some t => match trees h !! t with
              | Some x => Ret (tt, set_trees (delete t (trees h)) h)
              | None => Fault Dangling
              end
  end.

Definition zero_node : node := Node 0 0 None 0 0 None None 0 0 0.
Definition zero_tree : tree := Tree None None 0 0 None 0 0 None None.

(** [calloc(1, sizeof(node_t))]. *)
Definition calloc_node : M heap ptr := λ h,
  let p := next_loc h in
  if refuses p then Ret (None, bump h)
  else Ret (Some p, bump (set_nodes (<[p := zero_node]> (nodes h)) h)).

(** [node->subnodes[i]]. *)
Definition read_subnode (p : ptr) (i : Z) : M heap ptr :=
  n ← load p;
  match subnodes n with
  | None => fail NullDeref
  | Some arr => match arr !! Z.to_nat i with
                | None => fail OutOfBounds
                | Some None => fail Uninit
                | Some (Some q) => mret q
                end
  end.

(** [node->subnodes[i] = v]. *)
Definition write_subnode (p : ptr) (i : Z) (v : ptr) : M heap unit :=
  n ← load p;
  match subnodes n with
  | None => fail NullDeref
  | Some arr => if decide (0 ≤ i < zlen arr)
                then store p (set_subnodes (Some (<[Z.to_nat i := Some v]> arr)))
                else fail OutOfBounds
  end.

(** [maybe_grow] on a buffer held in the heap. *)
Definition grow (b : buf) (size needed : Z) : M heap (buf * Z) :=
  if must_grow size needed
  then ok ← request; mret (maybe_grow (negb ok) b size needed)
  else mret (maybe_grow false b size needed).

(** Runs a depth-bounded function with a bound no acyclic structure reaches. *)
Definition with_fuel {A} (f : nat → M heap A) : M heap A := λ h, f (S (size (nodes h))) h.

(** ** Nodes *)

Definition node_create (i : Z) : M heap ptr :=
  p ← calloc_node;
  match p with
  | None => mret None
  | Some _ =>
      _ ← store p (λ n, set_recursion_edge_size 0 (set_id i n));
      _ ← (if decide (i ≠ 0) then store p (set_non_term_size 1) else mret tt);
      mret p
  end.

Definition node_create_with_rule_id (i rule : Z) : M heap ptr :=
  p ← node_create i;
  _ ← store p (set_rule_id rule);
  mret p.

Definition node_set_val (p : ptr) (src : buf) (len : Z) : M heap unit :=
  match p with
  | None => mret tt
  | Some _ =>
      if decide (len = 0) then mret tt else
      match src with
      | None => mret tt
      | Some bytes =>
          n ← load p;
          bs ← grow (val_buf n) (val_size n) len;
          _ ← store p (set_val bs.1 bs.2);
          match bs.1 with
          | None => mret tt
          | Some dst =>
              _ ← store p (set_val_len (u32 len));
              match copy_bytes bytes len with
              | None => fail OutOfBounds
              | Some v => match write_bytes dst 0 v with
                          | None => fail OutOfBounds
                          | Some dst' => store p (set_val (Some dst') bs.2)
                          end
              end
          end
      end
  end.

Definition node_create_with_val (i : Z) (src : buf) (len : Z) : M heap ptr :=
  p ← node_create_with_rule_id i 0;
  _ ← (match src with None => mret tt | Some _ => node_set_val p src len end);
  mret p.

Definition node_init_subnodes (p : ptr) (n : Z) : M heap unit :=
  match p with
  | None => mret tt
  | Some _ =>
      x ← load p;
      if decide (id x = 0) then mret tt else
      if decide (n = 0) then
        _ ← store p (set_subnodes None);
        store p (set_subnode_count 0)
      else
        ok ← request;
        let fresh :=
          match subnodes x with
          | Some arr => take (Z.to_nat n) arr ++ replicate (Z.to_nat n - length arr) None
          | None => replicate (Z.to_nat n) (Some None)
          end in
        _ ← store p (set_subnodes (if (ok : bool) then Some fresh else None));
        if (ok : bool) then store p (set_subnode_count (u32 n)) else mret tt
  end.

Fixpoint node_free_rec (fuel : nat) (p : ptr) : M heap unit :=
  match p, fuel with
  | None, _ => mret tt
  | Some _, O => out_of_fuel
  | Some _, S fuel =>
      _ ← store p (λ n, set_non_term_size 0 (set_recursion_edge_size 0 (set_rule_id 0 (set_id 0 n))));
      n ← load p;
      _ ← (match val_buf n with
           | Some _ => store p (λ n, set_val_len 0 (set_val None 0 n))
           | None => mret tt
           end);
      _ ← store p (set_parent None);
      _ ← (if decide (subnode_count n ≠ 0) then
             _ ← for_loop (Z.to_nat (subnode_count n)) 0 (λ i,
                   s ← read_subnode p i;
                   match s with None => mret tt | Some _ => node_free_rec fuel s end);
             store p (set_subnode_count 0)
           else mret tt);
      free_node p
  end.

Definition node_free (p : ptr) : M heap unit := with_fuel (λ f, node_free_rec f p).

Definition node_free_only_self (p : ptr) : M heap unit :=
  _ ← store p (set_subnode_count 0);
  node_free p.

Definition node_set_subnode (p : ptr) (i : Z) (sub : ptr) : M heap unit :=
  match p with
  | None => mret tt
  | Some _ =>
      n ← load p;
      if decide (id n = 0) then mret tt else
      if decide (subnode_count n ≤ i) then mret tt else
      match subnodes n with
      | None => mret tt
      | Some _ =>
          _ ← write_subnode p i sub;
          match sub with None => mret tt | Some _ => store sub (set_parent p) end
      end
  end.

Fixpoint node_clone_rec (fuel : nat) (p : ptr) : M heap ptr :=
  match p, fuel with
  | None, _ => mret None
  | Some _, O => out_of_fuel
  | Some _, S fuel =>
      n ← load p;
      q ← node_create (id n);
      _ ← store q (set_rule_id (rule_id n));
      _ ← store q (λ x, set_non_term_size (non_term_size n)
                          (set_recursion_edge_size (recursion_edge_size n) x));
      _ ← node_set_val q (val_buf n) (val_len n);
      _ ← store q (set_val_len (val_len n));
      _ ← (if decide (subnode_count n ≠ 0) then
             _ ← node_init_subnodes q (subnode_count n);
             for_loop (Z.to_nat (subnode_count n)) 0 (λ i,
               s ← read_subnode p i;
               c ← node_clone_rec fuel s;
               node_set_subnode q i c)
           else mret tt);
      mret q
  end.

Definition node_clone (p : ptr) : M heap ptr := with_fuel (λ f, node_clone_rec f p).

(** [memcmp(a, b, len) == 0]. *)
Definition memcmp_eq (a b : buf) (len : Z) : M heap bool :=
  if decide (len = 0) then mret true else
  match a, b with
  | Some a, Some b => match read_bytes a len, read_bytes b len with
                      | Some x, Some y => mret (bool_decide (x = y))
                      | _, _ => fail OutOfBounds
                      end
  | _, _ => fail NullDeref
  end.

Fixpoint node_equal_rec (fuel : nat) (a b : ptr) : M heap bool :=
  if decide (a = b) then mret true else
  match a, b, fuel with
  | None, _, _ | _, None, _ => mret false
  | _, _, O => out_of_fuel
  | Some _, Some _, S fuel =>
      x ← load a;
      y ← load b;
      if decide (id x ≠ id y) then mret false else
      if decide (rule_id x ≠ rule_id y) then mret false else
      if decide (val_len x ≠ val_len y) then mret false else
      same ← memcmp_eq (val_buf x) (val_buf y) (val_len x);
      if negb same then mret false else
      if decide (subnode_count x ≠ subnode_count y) then mret false else
      all_loop (Z.to_nat (subnode_count x)) 0 (λ i,
        s ← read_subnode a i;
        t ← read_subnode b i;
        node_equal_rec fuel s t)
  end.

Definition node_equal (a b : ptr) : M heap bool := with_fuel (λ f, node_equal_rec f a b).

Fixpoint node_get_size_rec (fuel : nat) (p : ptr) : M heap unit :=
  match p, fuel with
  | None, _ => mret tt
  | Some _, O => out_of_fuel
  | Some _, S fuel =>
      n ← load p;
      if decide (id n = 0) then
        store p (λ n, set_recursion_edge_size 0 (set_non_term_size 0 n))
      else
        _ ← store p (λ n, set_recursion_edge_size 0 (set_non_term_size 1 n));
        for_loop (Z.to_nat (subnode_count n)) 0 (λ i,
          s ← read_subnode p i;
          match s with
          | None => mret tt
          | Some _ =>
              x ← load s;
              _ ← (if decide (id n = id x)
                   then store p (λ n, set_recursion_edge_size (u64 (recursion_edge_size n + 1)) n)
                   else mret tt);
              _ ← node_get_size_rec fuel s;
              y ← load s;
              store p (λ n, set_non_term_size (u64 (non_term_size n + non_term_size y))
                (set_recursion_edge_size (u64 (recursion_edge_size n + recursion_edge_size y)) n))
          end)
  end.

Definition node_get_size (p : ptr) : M heap unit := with_fuel (λ f, node_get_size_rec f p).

(** The search loop of [node_replace_subnode] over [root->subnodes]. *)
Fixpoint replace_loop (n : nat) (i : Z) (rt sub new : ptr) : M heap bool :=
  match n with
  | O => mret false
  | S n =>
      cur ← read_subnode rt i;
      if decide (cur = sub) then
        _ ← write_subnode rt i new;
        _ ← store new (set_parent rt);
        _ ← store cur (set_parent None);
        mret true
      else replace_loop n (i + 1) rt sub new
  end.

Definition node_replace_subnode (rt sub new : ptr) : M heap bool :=
  match rt, sub, new with
  | Some _, Some _, Some _ =>
      s ← load sub;
      w ← load new;
      if decide (id s ≠ id w) then mret false else
      if decide (rt ≠ parent s) then mret false else
      r ← load rt;
      replace_loop (Z.to_nat (subnode_count r)) 0 rt sub new
  | _, _, _ => mret false
  end.

Definition null_edge : edge := Edge None None 0.

(** The search loop of [node_get_parent_edge]; [0] when nothing matches. *)
Fixpoint offset_loop (n : nat) (i : Z) (par p : ptr) : M heap Z :=
  match n with
  | O => mret 0
  | S n => cur ← read_subnode par i;
           if decide (p = cur) then mret i else offset_loop n (i + 1) par p
  end.

Definition node_get_parent_edge (p : ptr) : M heap edge :=
  match p with
  | None => mret null_edge
  | Some _ =>
      n ← load p;
      match parent n with
      | None => mret null_edge
      | Some _ =>
          par ← load (parent n);
          off ← offset_loop (Z.to_nat (subnode_count par)) 0 (parent n) p;
          mret (Edge (parent n) p off)
      end
  end.
End Memory.

(** ** Random choices in a tree

    The generator state is threaded explicitly through the calls. *)

Section Pick.
Context `{Host} {R : Type} `{!Random R}.

(** The loop of [node_pick_non_term_subnode] from subnode [i] on; [prob] is what
    is left of the drawn number and [pick] the recursive call. *)
Fixpoint pick_non_term_loop (pick : ptr → R → M heap (ptr * R)) (n : nat) (i prob : Z)
    (p : ptr) (r : R) : M heap (ptr * R) :=
  match n with
  | O => mret (None, r)
  | S n =>
      s ← read_subnode p i;
      match s with
      | None => pick_non_term_loop pick n (i + 1) prob p r
      | Some _ =>
          x ← load s;
          if decide (id x = 0) then pick_non_term_loop pick n (i + 1) prob p r else
          if decide (prob < non_term_size x) then pick s r
          else pick_non_term_loop pick n (i + 1) (u64 (prob - non_term_size x)) p r
      end
  end.

Fixpoint node_pick_non_term_subnode_rec (fuel : nat) (p : ptr) (r : R) : M heap (ptr * R) :=
  match p, fuel with
  | None, _ => mret (None, r)
  | Some _, O => out_of_fuel
  | Some _, S fuel =>
      n ← load p;
      if decide (non_term_size n = 0) then mret (None, r) else
      let '(prob, r) := below (u32 (non_term_size n)) r in
      if decide (prob < 1) then mret (p, r) else
      pick_non_term_loop (node_pick_non_term_subnode_rec fuel)
        (Z.to_nat (subnode_count n)) 0 (prob - 1) p r
  end.

Definition node_pick_non_term_subnode (p : ptr) (r : R) : M heap (ptr * R) :=
  with_fuel (λ f, node_pick_non_term_subnode_rec f p r).

(** The loop of [node_pick_recursion_edge]. *)
Fixpoint pick_edge_loop (pick : ptr → R → M heap (edge * R)) (n : nat) (i prob : Z)
    (p : ptr) (pid : Z) (r : R) : M heap (edge * R) :=
  match n with
  | O => mret (null_edge, r)
  | S n =>
      s ← read_subnode p i;
      match s with
      | None => pick_edge_loop pick n (i + 1) prob p pid r
      | Some _ =>
          x ← load s;
          if decide (pid = id x ∧ prob < 1) then mret (Edge p s i, r) else
          let prob := if decide (pid = id x) then u64 (prob - 1) else prob in
          if decide (prob < recursion_edge_size x) then pick s r
          else pick_edge_loop pick n (i + 1) (u64 (prob - recursion_edge_size x)) p pid r
      end
  end.

Fixpoint node_pick_recursion_edge_rec (fuel : nat) (p : ptr) (r : R) : M heap (edge * R) :=
  match p, fuel with
  | None, _ => mret (null_edge, r)
  | Some _, O => out_of_fuel
  | Some _, S fuel =>
      n ← load p;
      if decide (recursion_edge_size n = 0) then mret (null_edge, r) else
      let '(prob, r) := below (u32 (recursion_edge_size n)) r in
      pick_edge_loop (node_pick_recursion_edge_rec fuel)
        (Z.to_nat (subnode_count n)) 0 prob p (id n) r
  end.

Definition node_pick_recursion_edge (p : ptr) (r : R) : M heap (edge * R) :=
  with_fuel (λ f, node_pick_recursion_edge_rec f p r).
End Pick.

(** ** Whole trees *)

Section Trees.
Context `{Host}.

(** [list_append] on a sequence: nothing is added when the node cannot be
    allocated, nor to a NULL list. *)
Definition seq_append {A} (l : option (list A)) (x : A) : M heap (option (list A)) :=
  match l with
  | None => mret None
  | Some xs => ok ← request; mret (Some (if (ok : bool) then xs ++ [x] else xs))
  end.

(** [memcpy(dst + off, src, len)] with [dst] the pointer [maybe_grow] returned. *)
Definition append_bytes (dst : list membyte) (off : Z) (src : buf) (len : Z)
    : M heap (list membyte) :=
  if decide (len = 0) then mret dst else
  match src with
  | None => fail NullDeref
  | Some s => match copy_bytes s len with
              | None => fail OutOfBounds
              | Some v => match write_bytes dst off v with
                          | None => fail OutOfBounds
                          | Some dst' => mret dst'
                          end
              end
  end.

Fixpoint node_to_buf_rec (fuel : nat) (t p : ptr) : M heap unit :=
  match t, p, fuel with
  | None, _, _ | _, None, _ => mret tt
  | _, _, O => out_of_fuel
  | Some _, Some _, S fuel =>
      n ← load p;
      if decide (subnode_count n = 0) then
        if decide (val_len n = 0) then mret tt else
        x ← load_tree t;
        bs ← grow (data_buf x) (data_size x) (u64 (data_len x + val_len n));
        _ ← store_tree t (set_data_buf bs.1 bs.2);
        match bs.1 with
        | None => mret tt
        | Some dst =>
            dst' ← append_bytes dst (data_len x) (val_buf n) (val_len n);
            store_tree t (λ y, set_data_len (u64 (data_len y + val_len n)) (set_data_buf (Some dst') bs.2 y))
        end
      else
        for_loop (Z.to_nat (subnode_count n)) 0 (λ i,
          s ← read_subnode p i; node_to_buf_rec fuel t s)
  end.

Definition tree_to_buf (t : ptr) : M heap unit :=
  match t with
  | None => mret tt
  | Some _ =>
      x ← load_tree t;
      bs ← grow (data_buf x) (data_size x) 64;
      _ ← store_tree t (λ y, set_data_len 0 (set_data_buf bs.1 bs.2 y));
      with_fuel (λ f, node_to_buf_rec f t (root x))
  end.

Fixpoint node_get_recursion_edges_rec (fuel : nat) (t p : ptr) : M heap unit :=
  match t, p, fuel with
  | None, _, _ | _, None, _ => mret tt
  | _, _, O => out_of_fuel
  | Some _, Some _, S fuel =>
      n ← load p;
      if decide (subnode_count n = 0) then mret tt else
      for_loop (Z.to_nat (subnode_count n)) 0 (λ i,
        s ← read_subnode p i;
        match s with
        | None => mret tt
        | Some _ =>
            x ← load s;
            _ ← (if decide (id n = id x) then
                   ok ← request;       (* malloc(sizeof(edge_t)), unchecked *)
                   if (ok : bool) then
                     y ← load_tree t;
                     l ← seq_append (recursion_edge_list y) (Edge p s i);
                     store_tree t (set_recursion_edge_list l)
                   else fail NullDeref
                 else mret tt);
            node_get_recursion_edges_rec fuel t s
        end)
  end.

(** [list_create()]. *)
Definition seq_create {A} : M heap (option (list A)) :=
  ok ← request; mret (if (ok : bool) then Some [] else None).

Definition tree_get_recursion_edges (t : ptr) : M heap unit :=
  match t with
  | None => mret tt
  | Some _ =>
      l ← seq_create;
      _ ← store_tree t (set_recursion_edge_list l);
      x ← load_tree t;
      with_fuel (λ f, node_get_recursion_edges_rec f t (root x))
  end.

Fixpoint node_get_non_terminal_nodes_rec (fuel : nat) (t p : ptr) : M heap unit :=
  match t, p, fuel with
  | None, _, _ | _, None, _ => mret tt
  | _, _, O => out_of_fuel
  | Some _, Some q, S fuel =>
      n ← load p;
      if decide (id n = 0) then mret tt else
      y ← load_tree t;
      l ← seq_append (non_terminal_node_list y) q;
      _ ← store_tree t (set_non_terminal_node_list l);
      for_loop (Z.to_nat (subnode_count n)) 0 (λ i,
        s ← read_subnode p i; node_get_non_terminal_nodes_rec fuel t s)
  end.

Definition tree_get_non_terminal_nodes (t : ptr) : M heap unit :=
  match t with
  | None => mret tt
  | Some _ =>
      l ← seq_create;
      _ ← store_tree t (set_non_terminal_node_list l);
      x ← load_tree t;
      with_fuel (λ f, node_get_non_terminal_nodes_rec f t (root x))
  end.

(** The four [memcpy] calls that save the fixed-size fields of a node. *)
Definition node_header (n : node) : list Z :=
  le_bytes 4 (id n) ++ le_bytes 4 (rule_id n) ++ le_bytes 4 (subnode_count n) ++ le_bytes 4 (val_len n).

Fixpoint node_serialize_rec (fuel : nat) (t p : ptr) : M heap unit :=
  match t, p, fuel with
  | None, _, _ | _, None, _ => mret tt
  | _, _, O => out_of_fuel
  | Some _, Some _, S fuel =>
      n ← load p;
      let len := u64 (16 + val_len n) in
      x ← load_tree t;
      bs ← grow (ser_buf x) (ser_size x) (u64 (ser_len x + len));
      _ ← store_tree t (set_ser_buf bs.1 bs.2);
      match bs.1 with
      | None => mret tt
      | Some dst =>
          dst1 ← append_bytes dst (ser_len x) (Some (Some <$> node_header n)) 16;
          dst2 ← append_bytes dst1 (ser_len x + 16) (val_buf n) (val_len n);
          _ ← store_tree t (λ y, set_ser_len (u64 (ser_len x + 16 + val_len n))
                                   (set_ser_buf (Some dst2) bs.2 y));
          for_loop (Z.to_nat (subnode_count n)) 0 (λ i,
            s ← read_subnode p i; node_serialize_rec fuel t s)
      end
  end.

Definition tree_serialize (t : ptr) : M heap unit :=
  match t with
  | None => mret tt
  | Some _ =>
      x ← load_tree t;
      bs ← grow (ser_buf x) (ser_size x) 64;
      _ ← store_tree t (λ y, set_ser_len 0 (set_ser_buf bs.1 bs.2 y));
      with_fuel (λ f, node_serialize_rec f t (root x))
  end.

(** Four bytes of the input at offset [off]; the input is exactly [data]. *)
Definition read_u32 (data : list Z) (off : Z) : M heap Z :=
  if decide (off + 4 ≤ zlen data)
  then mret (le_value (take 4 (drop (Z.to_nat off) data)))
  else fail OutOfBounds.

(** The loop of [_node_deserialize] over the subnodes; [false] is the early
    return of NULL. *)
Fixpoint deserialize_loop (deser : Z → M heap (ptr * Z)) (n : nat) (i consumed : Z) (p : ptr)
    : M heap (bool * Z) :=
  match n with
  | O => mret (true, consumed)
  | S n =>
      r ← deser consumed;
      match r.1 with
      | None => mret (false, r.2)
      | Some _ =>
          _ ← node_set_subnode p i r.1;
          deserialize_loop deser n (i + 1) r.2 p
      end
  end.

(** [_node_deserialize(data_buf, data_size, consumed_size)]; returns the node
    and the new value of [*consumed_size]. *)
Fixpoint node_deserialize_rec (fuel : nat) (data : option (list Z)) (data_size consumed : Z)
    : M heap (ptr * Z) :=
  match data, fuel with
  | None, _ => mret (None, consumed)
  | _, O => out_of_fuel
  | Some d, S fuel =>
      p ← node_create 0;
      if decide (u64 (data_size - consumed) < 16) then
        _ ← node_free p;
        mret (None, consumed)
      else
        i ← read_u32 d consumed;
        _ ← store p (set_id i);
        ru ← read_u32 d (consumed + 4);
        _ ← store p (set_rule_id ru);
        cnt ← read_u32 d (consumed + 8);
        _ ← store p (set_subnode_count cnt);
        vl ← read_u32 d (consumed + 12);
        _ ← store p (set_val_len vl);
        _ ← node_set_val p (Some (Some <$> drop (Z.to_nat (consumed + 16)) d)) vl;
        let consumed := u64 (consumed + 16 + vl) in
        if decide (cnt = 0) then mret (p, consumed) else
        _ ← node_init_subnodes p cnt;
        r ← deserialize_loop (node_deserialize_rec fuel (Some d) data_size)
              (Z.to_nat cnt) 0 consumed p;
        if (r.1 : bool) then mret (p, r.2)
        else (_ ← node_free p; mret (None, r.2))
  end.

Definition tree_create : M heap ptr := λ h,
  let t := next_loc h in
  if refuses t then Ret (None, bump h)
  else Ret (Some t, bump (set_trees (<[t := zero_tree]> (trees h)) h)).

(** [tree_free]; the buffers and lists go with the record. *)
Definition tree_free (t : ptr) : M heap unit :=
  match t with
  | None => mret tt
  | Some _ =>
      x ← load_tree t;
      _ ← node_free (root x);
      _ ← store_tree t (set_root None);
      free_tree t
  end.

Definition tree_deserialize (data : option (list Z)) (data_size : Z) : M heap ptr :=
  r ← node_deserialize_rec (S (length (default [] data))) data data_size 0;
  match r.1 with
  | None => mret None
  | Some _ =>
      if decide (data_size < r.2) then
        _ ← node_free r.1; mret None
      else
        t ← tree_create;
        _ ← store_tree t (set_root r.1);
        mret t
  end.

Definition tree_clone (t : ptr) : M heap ptr :=
  t' ← tree_create;
  x ← load_tree t;
  r ← node_clone (root x);
  _ ← store_tree t' (set_root r);
  _ ← store_tree t' (λ y, set_data_len 0 (set_data_buf None 0 y));
  mret t'.

Definition tree_equal (a b : ptr) : M heap bool :=
  if decide (a = b) then mret true else
  match a, b with
  | Some _, Some _ =>
      x ← load_tree a;
      y ← load_tree b;
      node_equal (root x) (root y)
  | _, _ => mret false
  end.

Definition tree_get_size (t : ptr) : M heap Z :=
  x ← load_tree t;
  n ← load (root x);
  if decide (id n = 0) then mret 0 else
  _ ← node_get_size (root x);
  n ← load (root x);
  mret (non_term_size n).

(** ** Tree files *)

(** [read_tree_from_file]: [open] fails on a missing file, [mmap] on an empty
    one; any of the three system calls may also be refused. *)
Definition map_file (filename : string) : M heap (option (list Z)) :=
  h ← get_state;
  ok ← request;                                   (* open *)
  match files h !! filename with
  | Some contents =>
      if negb ok then mret None else
      ok ← request;                               (* fstat *)
      if negb ok then mret None else
      ok ← request;                               (* mmap *)
      if negb ok || bool_decide (contents = []) then mret None
      else mret (Some contents)
  | None => mret None
  end.

Definition read_tree_from_file (filename : string) : M heap ptr :=
  d ← map_file filename;
  match d with
  | None => mret None
  | Some contents => tree_deserialize (Some contents) (zlen contents)
  end.

(** [tree_from_buf] is the parser generated from the grammar. *)
Definition load_tree_from_test_case (tree_from_buf : list Z → M heap ptr) (filename : string) : M heap ptr :=
  d ← map_file filename;
  match d with
  | None => mret None
  | Some contents => tree_from_buf contents
  end.

(** [open(O_WRONLY | O_CREAT | O_TRUNC)] then [write(fd, buf, len)]; the flag
    says whether the file could be opened, which an empty name never is.  A
    refused [write], or one from a NULL buffer, leaves the truncated file behind. *)
Definition write_file (filename : string) (b : buf) (len : Z) : M heap bool :=
  ok ← request;                                   (* open *)
  if negb ok || bool_decide (filename = EmptyString) then mret false else
  h ← get_state;
  _ ← put_state (set_files (<[filename := []]> (files h)) h);
  ok ← request;                                   (* write *)
  if negb ok then mret true else
  if decide (len = 0) then mret true else
  match b with
  | None => mret true
  | Some bs =>
      match read_bytes bs len with
      | None => fail OutOfBounds
      | Some v => h ← get_state;
                  _ ← put_state (set_files (<[filename := v]> (files h)) h);
                  mret true
      end
  end.

Definition write_tree_to_file (t : ptr) (filename : string) : M heap unit :=
  _ ← tree_serialize t;
  x ← load_tree t;
  _ ← write_file filename (ser_buf x) (ser_len x);
  mret tt.

Definition dump_tree_to_test_case (t : ptr) (filename : string) : M heap unit :=
  _ ← tree_to_buf t;
  x ← load_tree t;
  opened ← write_file filename (data_buf x) (data_len x);
  if (opened : bool) then mret tt else fail ProcessExit.
End Trees.
