(* ===== verification/TreeSpec.v ===== *)
(** * TreeSpec: what the pointer structures of [Tree] mean

    [gtree] is the value a node pointer stands for; [shape] ties a heap, a
    pointer and a [gtree] together and names the nodes involved. *)

From S2P Require Import Prelude Buffer Utils Tree.

(** ** Values *)

Inductive gtree := GNode (gid grule : Z) (gval : list Z) (gres gnts : Z) (gsubs : list (option gtree)).

Definition gid t := let 'GNode i _ _ _ _ _ := t in i.
Definition grule t := let 'GNode _ r _ _ _ _ := t in r.
Definition gval t := let 'GNode _ _ v _ _ _ := t in v.
Definition gres t := let 'GNode _ _ _ a _ _ := t in a.
Definition gnts t := let 'GNode _ _ _ _ b _ := t in b.
Definition gsubs t := let 'GNode _ _ _ _ _ s := t in s.

Definition on_some {A} (P : A → Prop) (o : option A) : Prop :=
  match o with Some x => P x | None => True end.

Section GtreeInd.
Variable P : gtree → Prop.
Hypothesis step : ∀ i r v a b subs, Forall (on_some P) subs → P (GNode i r v a b subs).

Fixpoint gtree_ind' (t : gtree) : P t :=
  let 'GNode i r v a b subs := t in
  step i r v a b subs
    ((fix go (l : list (option gtree)) : Forall (on_some P) l :=
        match l with
        | [] => Forall_nil_2 _
        | o :: l => Forall_cons_2 _ _ _
                      (match o return on_some P o with Some t => gtree_ind' t | None => Logic.I end)
                      (go l)
        end) subs).
End GtreeInd.

Fixpoint gheight (t : gtree) : nat :=
  let 'GNode _ _ _ _ _ subs := t in
  S ((fix go (l : list (option gtree)) : nat :=
        match l with
        | [] => 0
        | Some t :: l => gheight t `max` go l
        | None :: l => go l
        end) subs)%nat.

(** ** Heaps *)

Definition heap_ok (h : heap) : Prop :=
  (∀ p n, nodes h !! p = Some n → (p < next_loc h)%positive) ∧
  (∀ t x, trees h !! t = Some x → (t < next_loc h)%positive).

(** The node [n] holds the fields of [t]; its subnode array is [ps]; with [chk]
    its parent pointer is [par].  The two width conditions are those of the
    [uint32_t] fields, and a terminal has no subnodes. *)
Record node_is (chk : bool) (par : ptr) (t : gtree) (ps : list ptr) (n : node) : Prop := {
  is_id : id n = gid t;
  is_rule : rule_id n = grule t;
  is_val_len : val_len n = zlen (gval t);
  is_val : gval t ≠ [] → ∃ bs, val_buf n = Some bs ∧ (Some <$> gval t) `prefix_of` bs;
  is_res : recursion_edge_size n = gres t;
  is_nts : non_term_size n = gnts t;
  is_count : subnode_count n = zlen ps;
  is_subs : ps ≠ [] → subnodes n = Some (Some <$> ps);
  is_parent : chk = true → parent n = par;
  is_width : zlen (gval t) < 2 ^ 32 ∧ zlen ps < 2 ^ 32;
  is_term : gid t = 0 → gsubs t = [] }.

Fixpoint shape (chk : bool) (m : gmap loc node) (par : ptr) (p : loc) (t : gtree) (ls : list loc)
    {struct t} : Prop :=
  ∃ n ps lss, m !! p = Some n ∧ node_is chk par t ps n ∧ ls = p :: concat lss ∧
    (fix go (subs : list (option gtree)) (ps : list ptr) (lss : list (list loc)) {struct subs} : Prop :=
       match subs, ps, lss with
       | [], [], [] => True
       | None :: subs, None :: ps, [] :: lss => go subs ps lss
       | Some t :: subs, Some q :: ps, l :: lss => shape chk m (Some p) q t l ∧ go subs ps lss
       | _, _, _ => False
       end) (let 'GNode _ _ _ _ _ subs := t in subs) ps lss.

Definition shape_opt (chk : bool) (m : gmap loc node) (par : ptr)
    (o : ptr) (ot : option gtree) (l : list loc) : Prop :=
  match o, ot with
  | None, None => l = []
  | Some p, Some t => shape chk m par p t l
  | _, _ => False
  end.

Lemma shape_unfold chk m par p t ls :
  shape chk m par p t ls ↔
  ∃ n ps lss, m !! p = Some n ∧ node_is chk par t ps n ∧ ls = p :: concat lss ∧
    Forall3 (shape_opt chk m (Some p)) ps (gsubs t) lss.
Proof.
  destruct t as [i r v a b subs]. cbn [shape gsubs].
  assert (∀ ps lss,
    (fix go (subs : list (option gtree)) (ps : list ptr) (lss : list (list loc)) {struct subs} : Prop :=
       match subs, ps, lss with
       | [], [], [] => True
       | None :: subs, None :: ps, [] :: lss => go subs ps lss
       | Some t :: subs, Some q :: ps, l :: lss => shape chk m (Some p) q t l ∧ go subs ps lss
       | _, _, _ => False
       end) subs ps lss ↔ Forall3 (shape_opt chk m (Some p)) ps subs lss) as Hgo.
  { induction subs as [|o subs IH]; intros ps lss.
    - split.
      + destruct ps, lss; try done. intros _. constructor.
      + by inversion 1.
    - destruct o as [t|], ps as [|[q|] ps], lss as [|l lss]; try (split; [done|by inversion 1]).
      + rewrite IH. split; [intros []; by constructor|]. inversion 1; subst. done.
      + destruct l as [|x l].
        * rewrite IH. split; [by constructor|]. inversion 1; subst. done.
        * split; [done|]. inversion 1; subst. simpl in *. done. }
  setoid_rewrite Hgo. done.
Qed.

#[global] Arguments shape _ _ _ _ _ _ : simpl never.

(** ** Basic facts *)

Lemma gheight_sub i r v a b subs t :
  Some t ∈ subs → (gheight t < gheight (GNode i r v a b subs))%nat.
Proof.
  intros Hin. cbn [gheight]. apply Nat.lt_succ_r.
  induction subs as [|o subs IH]; [by apply not_elem_of_nil in Hin|].
  apply elem_of_cons in Hin as [<-|Hin]; [lia|]. specialize (IH Hin).
  destruct o; lia.
Qed.

Lemma concat_elem {A} (x : A) lss : x ∈ concat lss ↔ ∃ l, l ∈ lss ∧ x ∈ l.
Proof.
  induction lss as [|l lss IH]; simpl.
  - split; [intros []%not_elem_of_nil|]. intros (l & []%not_elem_of_nil & _).
  - rewrite elem_of_app, IH. split.
    + intros [?|(l' & ? & ?)]; [exists l|exists l']; (split; [|done]); [left|by right].
    + intros (l' & [->|?]%elem_of_cons & ?); [by left|right; eauto].
Qed.

Lemma shape_opt_mono chk m m' par o ot l :
  (∀ p par t l', o = Some p → ot = Some t → l' = l → shape chk m par p t l' → shape chk m' par p t l') →
  shape_opt chk m par o ot l → shape_opt chk m' par o ot l.
Proof. destruct o, ot; simpl; naive_solver. Qed.

(** A shape only depends on the nodes it names. *)
Lemma shape_frame chk m m' t : ∀ par p ls,
  (∀ q, q ∈ ls → m' !! q = m !! q) → shape chk m par p t ls → shape chk m' par p t ls.
Proof.
  induction t as [i r v a b subs IH] using gtree_ind'. intros par p ls Hm.
  rewrite !shape_unfold. intros (n & ps & lss & Hp & His & -> & Hsub).
  exists n, ps, lss. split; [rewrite Hm; [done|left]|]. split; [done|]. split; [done|].
  assert (∀ q, q ∈ concat lss → m' !! q = m !! q) as Hm' by (intros q Hq; apply Hm; by right).
  clear Hm His Hp. simpl in *. revert IH Hm'.
  induction Hsub as [|o ot l ps' subs' lss' Ho Hsub IHs]; intros IH Hm'; [constructor|].
  apply Forall_cons in IH as [IHo IH]. constructor.
  - destruct o, ot; simpl in *; try done. apply IHo; [|done].
    intros q Hq. apply Hm'. apply elem_of_app. by left.
  - apply IHs; [done|]. intros q Hq. apply Hm'. apply elem_of_app. by right.
Qed.

Lemma shape_opt_frame chk m m' par o ot l :
  (∀ q, q ∈ l → m' !! q = m !! q) → shape_opt chk m par o ot l → shape_opt chk m' par o ot l.
Proof. destruct o, ot; simpl; try done. apply shape_frame. Qed.

Lemma shape_lookup chk m t : ∀ par p ls q,
  shape chk m par p t ls → q ∈ ls → is_Some (m !! q).
Proof.
  induction t as [i r v a b subs IH] using gtree_ind'. intros par p ls q.
  rewrite shape_unfold. intros (n & ps & lss & Hp & _ & -> & Hsub) [->|Hq]%elem_of_cons; [eauto|].
  simpl in Hsub. revert IH Hq.
  induction Hsub as [|o ot l ps' subs' lss' Ho Hsub IHs]; intros IH Hq; [by apply not_elem_of_nil in Hq|].
  apply Forall_cons in IH as [IHo IH]. simpl in Hq. apply elem_of_app in Hq as [Hq|Hq]; [|by apply IHs].
  destruct o, ot; simpl in *; try done; [by eapply IHo|]. subst. by apply not_elem_of_nil in Hq.
Qed.

Lemma shape_head chk m par p t ls : shape chk m par p t ls → p ∈ ls.
Proof. rewrite shape_unfold. intros (? & ? & ? & _ & _ & -> & _). left. Qed.

Lemma shape_height chk m t : ∀ par p ls, shape chk m par p t ls → (gheight t ≤ length ls)%nat.
Proof.
  induction t as [i r v a b subs IH] using gtree_ind'. intros par p ls.
  rewrite shape_unfold. intros (n & ps & lss & _ & _ & -> & Hsub). cbn [gheight length].
  apply le_n_S. simpl in Hsub. revert IH.
  induction Hsub as [|o ot l ps' subs' lss' Ho Hsub IHs]; intros IH; [done|].
  apply Forall_cons in IH as [IHo IH]. specialize (IHs IH). simpl. rewrite length_app.
  destruct o, ot; simpl in *; try done; [|lia]. specialize (IHo _ _ _ Ho). lia.
Qed.

Lemma shape_fuel chk h par p t ls :
  shape chk (nodes h) par p t ls → NoDup ls → (gheight t ≤ size (nodes h))%nat.
Proof.
  intros Hs Hnd. etrans; [by eapply shape_height|].
  assert (list_to_set ls ⊆ dom (nodes h)) as Hsub.
  { intros q Hq%elem_of_list_to_set. apply elem_of_dom. by eapply shape_lookup. }
  apply subseteq_size in Hsub. by rewrite size_dom, size_list_to_set in Hsub.
Qed.

(** Forgetting the parent pointers. *)
Lemma node_is_unchecked chk par par' t ps n : node_is chk par t ps n → node_is false par' t ps n.
Proof. intros []. by split. Qed.

Lemma shape_unchecked chk m t : ∀ par par' p ls, shape chk m par p t ls → shape false m par' p t ls.
Proof.
  induction t as [i r v a b subs IH] using gtree_ind'. intros par par' p ls.
  rewrite !shape_unfold. intros (n & ps & lss & Hp & His & -> & Hsub).
  exists n, ps, lss. split; [done|]. split; [by eapply node_is_unchecked|]. split; [done|].
  simpl in *. clear His Hp. revert IH.
  induction Hsub as [|o ot l ps' subs' lss' Ho Hsub IHs]; intros IH; constructor.
  - apply Forall_cons in IH as [IHo _]. destruct o, ot; simpl in *; try done. by eapply IHo.
  - apply IHs. by apply Forall_cons in IH as [_ IH].
Qed.

(** ** Reading a tree back

    [denote] computes the value of a node pointer, checking on the way what
    [shape] requires; concrete heaps are shown well shaped by evaluating it. *)

Definition node_value (n : node) : option (list Z) :=
  if decide (val_len n = 0) then Some [] else bs ← val_buf n; read_bytes bs (val_len n).

Definition node_children (n : node) : option (list ptr) :=
  if decide (subnode_count n = 0) then Some [] else arr ← subnodes n; mapM (λ x, x) arr.

Definition node_sound (par : ptr) (n : node) (v : list Z) (ps : list ptr) : bool :=
  bool_decide (parent n = par) && bool_decide (val_len n = zlen v) && bool_decide (subnode_count n = zlen ps)
  && bool_decide (zlen v < 2 ^ 32) && bool_decide (zlen ps < 2 ^ 32)
  && bool_decide (id n = 0 → ps = []).

Fixpoint denote (fuel : nat) (m : gmap loc node) (par : ptr) (p : loc) : option (gtree * list loc) :=
  match fuel with
  | O => None
  | S fuel =>
      n ← m !! p;
      v ← node_value n;
      ps ← node_children n;
      if node_sound par n v ps then
        kids ← mapM (λ o : ptr, match o with
                     | None => Some (None, [])
                     | Some q => r ← denote fuel m (Some p) q; Some (Some r.1, r.2)
                     end) ps;
        Some (GNode (id n) (rule_id n) v (recursion_edge_size n) (non_term_size n) kids.*1,
              p :: concat kids.*2)
      else None
  end.

Lemma read_bytes_inv b len v :
  read_bytes b len = Some v → 0 ≤ len → (Some <$> v) `prefix_of` b.
Proof.
  unfold read_bytes. case_decide; [|done]. intros Hm Hlen. apply mapM_Some in Hm.
  exists (drop (Z.to_nat len) b). rewrite <- (take_drop (Z.to_nat len) b) at 1. f_equal.
  induction Hm as [|x y l l' Hxy _ IH]; [done|]. simpl. unfold id in Hxy. simpl in Hxy. by rewrite Hxy, IH.
Qed.

Lemma denote_shape fuel m : ∀ par p t ls,
  denote fuel m par p = Some (t, ls) → shape true m par p t ls.
Proof.
  induction fuel as [|fuel IH]; intros par p t ls; [done|]. simpl. intros Hd.
  destruct (m !! p) as [n|] eqn:Hp; simpl in Hd; [|done].
  destruct (node_value n) as [v|] eqn:Hv; simpl in Hd; [|done].
  destruct (node_children n) as [ps|] eqn:Hc; simpl in Hd; [|done].
  destruct (node_sound par n v ps) eqn:Hs; [|done].
  destruct (mapM _ ps) as [kids|] eqn:Hk; simpl in Hd; [|done]. injection Hd as <- <-.
  unfold node_sound in Hs. rewrite !andb_true_iff, !bool_decide_eq_true in Hs.
  destruct Hs as [[[[[Hpar Hvl] Hcnt] Hw1] Hw2] Hterm].
  apply mapM_Some in Hk.
  apply shape_unfold. exists n, ps, kids.*2. split_and!; [done| |done|].
  - split; simpl; try done.
    + intros Hne. unfold node_value in Hv. rewrite decide_False in Hv by (destruct v; [done|simpl in Hvl; lia]).
      destruct (val_buf n) as [bs|]; simpl in Hv; [|done]. exists bs. split; [done|].
      eapply read_bytes_inv; [done|lia].
    + intros Hne. unfold node_children in Hc. rewrite decide_False in Hc by (destruct ps; [done|simpl in Hcnt; lia]).
      destruct (subnodes n) as [arr|]; simpl in Hc; [|done]. f_equal. apply mapM_Some in Hc.
      clear -Hc. induction Hc as [|x y l l' Hxy _ IHl]; [done|]. simpl. by rewrite Hxy, IHl.
    + intros Hz. specialize (Hterm Hz). subst ps. by inversion Hk.
  - simpl. clear -Hk IH. induction Hk as [|o k ps kids Ho Hk IHk]; [constructor|]. simpl. constructor; [|done].
    destruct o as [q|]; simpl in Ho; [|by injection Ho as <-].
    destruct (denote fuel m (Some p) q) as [[t l]|] eqn:Hq; simpl in Ho; [|done]. injection Ho as <-. simpl. by apply IH.
Qed.

(** ** Rules for the memory operations *)

Lemma set_nodes_twice m1 m2 h : set_nodes m1 (set_nodes m2 h) = set_nodes m1 h.
Proof. done. Qed.

Section Rules.
Context `{Host}.

Lemma wp_load p h n Q : nodes h !! p = Some n → Q n h → wp (load (Some p)) h Q.
Proof. unfold wp. simpl. by intros ->. Qed.

Lemma wp_store p h n f Q :
  nodes h !! p = Some n → Q tt (set_nodes (<[p := f n]> (nodes h)) h) → wp (store (Some p) f) h Q.
Proof. unfold wp. simpl. by intros ->. Qed.

Lemma wp_free_node p h n Q :
  nodes h !! p = Some n → Q tt (set_nodes (delete p (nodes h)) h) → wp (free_node (Some p)) h Q.
Proof. unfold wp. simpl. by intros ->. Qed.

Lemma wp_load_tree t h x Q : trees h !! t = Some x → Q x h → wp (load_tree (Some t)) h Q.
Proof. unfold wp. simpl. by intros ->. Qed.

Lemma wp_store_tree t h x f Q :
  trees h !! t = Some x → Q tt (set_trees (<[t := f x]> (trees h)) h) → wp (store_tree (Some t) f) h Q.
Proof. unfold wp. simpl. by intros ->. Qed.

Lemma wp_request h (Q : bool → heap → Prop) : never_refuses → Q true (bump h) → wp request h Q.
Proof. intros Hm. unfold wp, request. by rewrite Hm. Qed.

Lemma wp_read_subnode p h n ps i q (Q : ptr → heap → Prop) :
  nodes h !! p = Some n → subnodes n = Some (Some <$> ps) → ps !! Z.to_nat i = Some q →
  Q q h → wp (read_subnode (Some p) i) h Q.
Proof.
  intros Hp Hs Hi HQ. unfold read_subnode. apply wp_bind. eapply wp_load; [done|].
  rewrite Hs. rewrite list_lookup_fmap, Hi. done.
Qed.

Lemma wp_write_subnode p h n arr i q (Q : unit → heap → Prop) :
  nodes h !! p = Some n → subnodes n = Some arr → 0 ≤ i < zlen arr →
  Q tt (set_nodes (<[p := set_subnodes (Some (<[Z.to_nat i := Some q]> arr)) n]> (nodes h)) h) →
  wp (write_subnode (Some p) i q) h Q.
Proof.
  intros Hp Hs Hi HQ. unfold write_subnode. apply wp_bind. eapply wp_load; [done|].
  rewrite Hs, decide_True by done. by eapply wp_store.
Qed.
End Rules.

(** ** Heap growth *)

(** [h'] is [h] with the nodes [ls] added. *)
Record grown (ls : list loc) (h h' : heap) : Prop := {
  g_new : ∀ l, l ∈ ls → (next_loc h ≤ l < next_loc h')%positive;
  g_same : ∀ p, p ∉ ls → nodes h' !! p = nodes h !! p;
  g_trees : trees h' = trees h;
  g_files : files h' = files h;
  g_next : (next_loc h ≤ next_loc h')%positive;
  g_ok : heap_ok h' }.

Lemma grown_refl h : heap_ok h → grown [] h h.
Proof. intros. split; try done. intros l []%not_elem_of_nil. Qed.

Lemma grown_trans ls1 ls2 h h1 h2 : grown ls1 h h1 → grown ls2 h1 h2 → grown (ls1 ++ ls2) h h2.
Proof.
  intros [N1 S1 T1 F1 X1 O1] [N2 S2 T2 F2 X2 O2]. split.
  - intros l [Hl|Hl]%elem_of_app; [apply N1 in Hl|apply N2 in Hl]; lia.
  - intros p [? ?]%not_elem_of_app. rewrite S2 by done. by apply S1.
  - congruence.
  - congruence.
  - lia.
  - done.
Qed.

Lemma grown_bump ls h h' : grown ls h h' → grown ls h (bump h').
Proof.
  intros [N S T F X [O1 O2]]. split; simpl; try done.
  - intros l Hl%N. lia.
  - lia.
  - split; simpl; intros ? ? Hx; [apply O1 in Hx|apply O2 in Hx]; lia.
Qed.

Lemma heap_ok_store h p n :
  heap_ok h → is_Some (nodes h !! p) → heap_ok (set_nodes (<[p := n]> (nodes h)) h).
Proof.
  intros [O1 O2] [n0 Hp]. split; [|done]. intros q m. simpl.
  destruct (decide (p = q)) as [->|]; [intros _; by eapply O1|].
  rewrite lookup_insert_ne by done. apply O1.
Qed.

Lemma grown_store ls h h' p n :
  grown ls h h' → p ∈ ls → is_Some (nodes h' !! p) →
  grown ls h (set_nodes (<[p := n]> (nodes h')) h').
Proof.
  intros [N S T F X O] Hp Hn. split; simpl; try done.
  - intros q Hq. rewrite lookup_insert_ne by (intros ->; done). by apply S.
  - by apply heap_ok_store.
Qed.

Lemma grown_old ls h h' p : grown ls h h' → heap_ok h → is_Some (nodes h !! p) → p ∉ ls.
Proof. intros [N _ _ _ _ _] [O _] [n Hn] Hp. apply O in Hn. apply N in Hp. lia. Qed.

Lemma grown_lookup ls h h' p n : grown ls h h' → heap_ok h → nodes h !! p = Some n → nodes h' !! p = Some n.
Proof. intros Hg Ho Hn. rewrite (g_same _ _ _ Hg); [done|]. by eapply grown_old. Qed.

Lemma grown_shape ls h h' chk par p t ls0 :
  grown ls h h' → heap_ok h → shape chk (nodes h) par p t ls0 → shape chk (nodes h') par p t ls0.
Proof.
  intros Hg Ho Hs. eapply shape_frame; [|done]. intros q Hq. apply (g_same _ _ _ Hg).
  eapply grown_old; [done|done|]. by eapply shape_lookup.
Qed.

Lemma shape_set_parent chk m par par' p t ls n :
  shape chk m par p t ls → NoDup ls → m !! p = Some n →
  shape true m par p t ls → shape true (<[p := set_parent par' n]> m) par' p t ls.
Proof.
  intros _ Hnd Hn. rewrite !shape_unfold. intros (n' & ps & lss & Hp & His & -> & Hsub).
  simplify_eq. apply NoDup_cons in Hnd as [Hpl _].
  exists (set_parent par' n), ps, lss. split; [apply lookup_insert_eq|].
  split; [by destruct His; split|]. split; [done|].
  clear His. revert Hpl. induction Hsub as [|o ot l ps' subs' lss' Ho Hsub IHs]; intros Hpl; constructor.
  - eapply shape_opt_frame; [|done]. intros q Hq. rewrite lookup_insert_ne; [done|].
    intros ->. apply Hpl. simpl. apply elem_of_app. by left.
  - apply IHs. intros Hin. apply Hpl. simpl. apply elem_of_app. by right.
Qed.

(** ** Node construction *)

Definition new_node (i : Z) : node :=
  Node i 0 None 0 0 None None 0 0 (if decide (i ≠ 0) then 1 else 0).

Section Construct.
Context `{Host} (Hmem : never_refuses).

Lemma wp_node_create i h (Q : ptr → heap → Prop) :
  Q (Some (next_loc h)) (bump (set_nodes (<[next_loc h := new_node i]> (nodes h)) h)) →
  wp (node_create i) h Q.
Proof.
  intros HQ. unfold node_create. apply wp_bind. unfold wp at 1, calloc_node. rewrite Hmem.
  apply wp_bind. eapply wp_store; [simpl; apply lookup_insert_eq|]. simpl.
  rewrite insert_insert_eq. apply wp_bind. unfold new_node in HQ. case_decide as Hi.
  - eapply wp_store; [simpl; apply lookup_insert_eq|]. apply wp_ret. simpl.
    rewrite insert_insert_eq. done.
  - apply wp_ret, wp_ret. assert (i = 0) as -> by lia. done.
Qed.

Lemma node_create_grown i h : heap_ok h →
  grown [next_loc h] h (bump (set_nodes (<[next_loc h := new_node i]> (nodes h)) h)).
Proof.
  intros [O1 O2]. split; simpl; try done.
  - intros l ->%list_elem_of_singleton. lia.
  - intros p Hp. rewrite lookup_insert_ne; [done|]. intros <-. apply Hp. by apply list_elem_of_singleton.
  - lia.
  - split; simpl.
    + intros p n. destruct (decide (next_loc h = p)) as [->|]; [lia|].
      rewrite lookup_insert_ne by done. intros ?%O1. lia.
    + intros t x ?%O2. lia.
Qed.

(** [node_set_val] on a node that has no value yet. *)
Lemma wp_node_set_val p h n src v (Q : unit → heap → Prop) :
  nodes h !! p = Some n → val_buf n = None → val_size n = 0 →
  v ≠ [] → zlen v < 2 ^ 32 → v `prefix_of` src →
  (∀ dst sz, v `prefix_of` dst →
     Q tt (bump (set_nodes (<[p := set_val_len (zlen v) (set_val (Some dst) sz n)]> (nodes h)) h))) →
  wp (node_set_val (Some p) (Some src) (zlen v)) h Q.
Proof.
  intros Hp Hb Hs Hv Hlen Hpre HQ. unfold node_set_val.
  assert (zlen v ≠ 0) as Hnz by (destruct v; simpl; [done|lia]).
  rewrite decide_False by done. apply wp_bind. eapply wp_load; [done|]. rewrite Hb, Hs.
  apply wp_bind. unfold grow.
  destruct (maybe_grow_ok None 0 (zlen v)) as [(bs & sz & Hg & Hok & Hge & _) _]; [done|lia|].
  assert (must_grow 0 (zlen v) = true) as Hmg.
  { unfold must_grow. rewrite bool_decide_eq_true_2, bool_decide_eq_false_2 by lia. done. }
  rewrite Hmg. apply wp_bind. apply wp_request; [done|]. apply wp_ret. simpl negb. rewrite Hg.
  apply wp_bind. eapply wp_store; [done|]. cbn [fst snd].
  apply wp_bind. eapply wp_store; [simpl; apply lookup_insert_eq|].
  rewrite copy_bytes_prefix by done.
  destruct (write_bytes_extend bs [] 0 v) as (dst & -> & Hd & _).
  { apply prefix_nil. } { done. } { unfold buf_ok in Hok. simpl in Hok. lia. }
  eapply wp_store; [simpl; apply lookup_insert_eq|]. simpl. rewrite !insert_insert_eq.
  specialize (HQ dst sz Hd). rewrite wrap_small by lia. done.
Qed.

Lemma wp_node_init_subnodes p h n c (Q : unit → heap → Prop) :
  nodes h !! p = Some n → id n ≠ 0 → 0 < c < 2 ^ 32 → subnodes n = None →
  Q tt (bump (set_nodes (<[p := set_subnode_count c (set_subnodes (Some (Some <$> replicate (Z.to_nat c) None)) n)]>
                (nodes h)) h)) →
  wp (node_init_subnodes (Some p) c) h Q.
Proof.
  intros Hp Hi Hc Hs HQ. unfold node_init_subnodes. apply wp_bind. eapply wp_load; [done|].
  rewrite !decide_False by lia. apply wp_bind. apply wp_request; [done|]. rewrite Hs.
  apply wp_bind. eapply wp_store; [done|]. eapply wp_store; [simpl; apply lookup_insert_eq|]. simpl.
  rewrite insert_insert_eq, wrap_small, fmap_replicate in * by lia. done.
Qed.

(** [node_set_subnode] of a detached child with room in the array. *)
Lemma wp_node_set_subnode_null p h n arr i (Q : unit → heap → Prop) :
  nodes h !! p = Some n → id n ≠ 0 → subnodes n = Some arr → subnode_count n = zlen arr →
  0 ≤ i < zlen arr →
  Q tt (set_nodes (<[p := set_subnodes (Some (<[Z.to_nat i := Some None]> arr)) n]> (nodes h)) h) →
  wp (node_set_subnode (Some p) i None) h Q.
Proof.
  intros Hp Hid Hs Hc Hi HQ. unfold node_set_subnode. apply wp_bind. eapply wp_load; [done|].
  rewrite !decide_False by lia. rewrite Hs. apply wp_bind.
  by eapply wp_write_subnode.
Qed.

Lemma wp_node_set_subnode p h n arr i c nc (Q : unit → heap → Prop) :
  nodes h !! p = Some n → nodes h !! c = Some nc → c ≠ p →
  id n ≠ 0 → subnodes n = Some arr → subnode_count n = zlen arr → 0 ≤ i < zlen arr →
  Q tt (set_nodes (<[c := set_parent (Some p) nc]>
          (<[p := set_subnodes (Some (<[Z.to_nat i := Some (Some c)]> arr)) n]> (nodes h))) h) →
  wp (node_set_subnode (Some p) i (Some c)) h Q.
Proof.
  intros Hp Hc Hcp Hid Hs Hcnt Hi HQ. unfold node_set_subnode. apply wp_bind. eapply wp_load; [done|].
  rewrite !decide_False by lia. rewrite Hs. apply wp_bind.
  eapply wp_write_subnode; [done|done|done|]. eapply wp_store; [simpl; by rewrite lookup_insert_ne|]. done.
Qed.
End Construct.

(** ** A concrete heap

    The tree of [7+x] in a grammar with an expression rule (1) and an operand
    rule (2), and a second tree for [x]; used by the witnesses. *)

Definition leaf (i : Z) (c : Z) (par : loc) : node :=
  Node i 0 (Some [Some c]) 1 1 (Some par) None 0 0 0.
Definition inner (i rule : Z) (par : ptr) (subs : list loc) (res nts : Z) : node :=
  Node i rule None 0 0 par (Some (Some <$> (Some <$> subs))) (zlen subs) res nts.

Definition sample_nodes : gmap loc node := list_to_map [
  (1%positive, inner 1 0 None [2; 3; 4]%positive 1 3);
  (2%positive, inner 2 1 (Some 1%positive) [5]%positive 0 1);
  (3%positive, leaf 0 43 1%positive);
  (4%positive, inner 1 1 (Some 1%positive) [6]%positive 0 1);
  (5%positive, leaf 0 55 2%positive);
  (6%positive, leaf 0 120 4%positive);
  (7%positive, inner 1 1 None [8]%positive 0 1);
  (8%positive, leaf 0 120 7%positive)].

Definition tree_at (r : loc) : tree := Tree (Some r) None 0 0 None 0 0 None None.
Definition sample_trees : gmap loc tree :=
  list_to_map [(9%positive, tree_at 1%positive); (10%positive, tree_at 7%positive)].

Definition sample_heap : heap := Heap sample_nodes sample_trees ∅ 11.

Definition sample_tree : gtree :=
  GNode 1 0 [] 1 3
    [Some (GNode 2 1 [] 0 1 [Some (GNode 0 0 [55] 0 0 [])]);
     Some (GNode 0 0 [43] 0 0 []);
     Some (GNode 1 1 [] 0 1 [Some (GNode 0 0 [120] 0 0 [])])].
Definition sample_operand : gtree := GNode 1 1 [] 0 1 [Some (GNode 0 0 [120] 0 0 [])].

Definition sample_locs : list loc := [1; 2; 5; 3; 4; 6]%positive.

Lemma sample_shape : shape true (nodes sample_heap) None 1 sample_tree sample_locs.
Proof. apply (denote_shape 4). vm_compute. reflexivity. Qed.

Lemma sample_operand_shape : shape true (nodes sample_heap) None 7 sample_operand [7; 8]%positive.
Proof. apply (denote_shape 4). vm_compute. reflexivity. Qed.

Lemma sample_NoDup : NoDup sample_locs.
Proof. apply (bool_decide_unpack _). vm_compute. reflexivity. Qed.

Lemma sample_heap_ok : heap_ok sample_heap.
Proof.
  split.
  - change (map_Forall (λ p (_ : node), (p < next_loc sample_heap)%positive) (nodes sample_heap)).
    apply (bool_decide_unpack _). vm_compute. reflexivity.
  - change (map_Forall (λ p (_ : tree), (p < next_loc sample_heap)%positive) (trees sample_heap)).
    apply (bool_decide_unpack _). vm_compute. reflexivity.
Qed.
