(* ===== verification/TreeNodes.v ===== *)
(** * TreeNodes: correctness of the node operations of tree.c

    Cloning, freeing, comparison and size counting, each against [gtree]. *)

From S2P Require Import Prelude Buffer Utils Tree TreeSpec.

(** ** Sequences of subtrees *)

Abbreviation shapes chk m par := (Forall3 (shape_opt chk m par)).

Lemma shapes_frame chk m m' par ps subs lss :
  (∀ q, q ∈ concat lss → m' !! q = m !! q) →
  shapes chk m par ps subs lss → shapes chk m' par ps subs lss.
Proof.
  intros Hm Hs. induction Hs as [|o ot l ps subs lss Ho Hs IH]; constructor; simpl in *.
  - eapply shape_opt_frame; [|done]. intros q Hq. apply Hm, elem_of_app. by left.
  - apply IH. intros q Hq. apply Hm, elem_of_app. by right.
Qed.

Lemma shapes_lookup chk m par ps subs lss q :
  shapes chk m par ps subs lss → q ∈ concat lss → is_Some (m !! q).
Proof.
  intros Hs Hq. induction Hs as [|o ot l ps subs lss Ho Hs IH]; simpl in Hq.
  { by apply not_elem_of_nil in Hq. }
  apply elem_of_app in Hq as [Hq|Hq]; [|by apply IH].
  destruct o, ot; simpl in Ho; try done; [by eapply shape_lookup|].
  subst. by apply not_elem_of_nil in Hq.
Qed.

Lemma shapes_length chk m par ps subs lss :
  shapes chk m par ps subs lss → length ps = length subs ∧ length lss = length subs.
Proof. intros Hs. induction Hs as [|o ot l ps subs lss Ho Hs [IH1 IH2]]; simpl; auto. Qed.

Lemma shapes_pick chk m par ps subs lss i :
  shapes chk m par ps subs lss → (i < length subs)%nat →
  ∃ o ot l, ps !! i = Some o ∧ subs !! i = Some ot ∧ lss !! i = Some l ∧ shape_opt chk m par o ot l.
Proof.
  intros Hs. revert i. induction Hs as [|o ot l ps subs lss Ho Hs IH]; intros i Hi; simpl in Hi; [lia|].
  destruct i as [|i]; [by exists o, ot, l|]. simpl. apply IH. lia.
Qed.

Lemma take_S_snoc {A} (l : list A) i x : l !! i = Some x → take (S i) l = take i l ++ [x].
Proof. intros. by apply take_S_r. Qed.

Lemma elem_of_gsubs_height t s : Some s ∈ gsubs t → (gheight s < gheight t)%nat.
Proof. destruct t. apply gheight_sub. Qed.

Lemma NoDup_fresh_app (ls1 ls2 : list loc) (a b c : loc) :
  NoDup ls1 → NoDup ls2 → (∀ l, l ∈ ls1 → (a ≤ l < b)%positive) → (∀ l, l ∈ ls2 → (b ≤ l < c)%positive) →
  NoDup (ls1 ++ ls2).
Proof.
  intros H1 H2 L1 L2. apply NoDup_app. split; [done|]. split; [|done].
  intros x Hx%L1 Hy%L2. lia.
Qed.

Lemma grown_store2 ls h h' p q n m :
  grown ls h h' → p ∈ ls → q ∈ ls → is_Some (nodes h' !! p) → is_Some (nodes h' !! q) →
  grown ls h (set_nodes (<[q := m]> (<[p := n]> (nodes h'))) h').
Proof.
  intros Hg Hp Hq Hnp Hnq.
  eapply (grown_store _ _ _ q m) in Hq; [|exact (grown_store _ _ _ p n Hg Hp Hnp)|]; [done|].
  simpl. destruct (decide (p = q)) as [->|]; [rewrite lookup_insert_eq; eauto|by rewrite lookup_insert_ne].
Qed.

Section Clone.
Context `{Host} (Hmem : never_refuses).

(** What a run that builds a copy of [t] in [h] leaves. *)
Definition cloned (h : heap) (t : gtree) (q : ptr) (h' : heap) : Prop :=
  ∃ p' ls', q = Some p' ∧ grown ls' h h' ∧ NoDup ls' ∧ shape true (nodes h') None p' t ls'.

(** The state of the copy [q] of [t] before subnode [j] is copied. *)
Definition clone_inv (h : heap) (t : gtree) (q : loc) (j : Z) (s : heap) : Prop :=
  ∃ lss cs nq, grown (q :: concat lss) h s ∧ NoDup (q :: concat lss) ∧
    nodes s !! q = Some nq ∧ zlen cs = j ∧
    node_is true None t (cs ++ replicate (length (gsubs t) - length cs) None) nq ∧
    shapes true (nodes s) (Some q) cs (take (length cs) (gsubs t)) lss.

(** Filling entry [length cs] of a subnode array whose tail is still NULL. *)
Lemma node_is_fill chk par t cs k o n :
  node_is chk par t (cs ++ replicate (S k) None) n →
  node_is chk par t ((cs ++ [o]) ++ replicate k None)
    (set_subnodes (Some (<[length cs := Some o]> (Some <$> (cs ++ replicate (S k) None)))) n).
Proof.
  intros [I1 I2 I3 I4 I5 I6 I7 I8 I9 I10 I11]. split; simpl; try done.
  - rewrite I7, !length_app. simpl. lia.
  - intros _. simpl. rewrite !fmap_app. rewrite insert_app_r_alt; rewrite length_fmap; [|lia].
    rewrite Nat.sub_diag. simpl. by rewrite <- app_assoc.
  - split; [lia|]. destruct I10. rewrite !length_app in *. simpl in *. lia.
Qed.

Lemma clone_inv_split h t q j s :
  0 ≤ j < zlen (gsubs t) → clone_inv h t q j s →
  ∃ lss cs nq k, grown (q :: concat lss) h s ∧ NoDup (q :: concat lss) ∧
    nodes s !! q = Some nq ∧ Z.to_nat j = length cs ∧ (length (gsubs t) = length cs + S k)%nat ∧
    node_is true None t (cs ++ replicate (S k) None) nq ∧
    subnodes nq = Some (Some <$> (cs ++ replicate (S k) None)) ∧
    shapes true (nodes s) (Some q) cs (take (length cs) (gsubs t)) lss.
Proof.
  intros Hj (lss & cs & nq & Hg & Hnd & Hq & Hlen & His & Hs).
  exists lss, cs, nq, (length (gsubs t) - length cs - 1)%nat.
  replace (length (gsubs t) - length cs)%nat with (S (length (gsubs t) - length cs - 1)) in His by lia.
  split_and!; try done; try lia. eapply is_subs; [done|]. by destruct cs.
Qed.

Lemma clone_inv_step h t q o ot l s s' cs lss nq k :
  grown (q :: concat (lss ++ [l])) h s' → NoDup (q :: concat (lss ++ [l])) →
  nodes s' !! q = Some (set_subnodes (Some (<[length cs := Some o]> (Some <$> (cs ++ replicate (S k) None)))) nq) →
  (length (gsubs t) = length cs + S k)%nat → gsubs t !! length cs = Some ot →
  node_is true None t (cs ++ replicate (S k) None) nq →
  (∀ p, p ∈ concat lss → nodes s' !! p = nodes s !! p) →
  shapes true (nodes s) (Some q) cs (take (length cs) (gsubs t)) lss →
  shape_opt true (nodes s') (Some q) o ot l →
  clone_inv h t q (zlen cs + 1) s'.
Proof.
  intros Hg Hnd Hq Hlen Hot His Hm Hs Ho.
  exists (lss ++ [l]), (cs ++ [o]). eexists. split_and!; [done|done|done| | |].
  - rewrite length_app. simpl. lia.
  - rewrite length_app. simpl. replace (length (gsubs t) - (length cs + 1))%nat with k by lia.
    by apply node_is_fill.
  - rewrite length_app, Nat.add_1_r, (take_S_r _ _ ot) by done.
    apply Forall3_app; [by eapply shapes_frame|]. by constructor; [|constructor].
Qed.
Lemma clone_attach_null h t q j s :
  gid t ≠ 0 → 0 ≤ j < zlen (gsubs t) → gsubs t !! Z.to_nat j = Some None → clone_inv h t q j s →
  wp (node_set_subnode (Some q) j None) s (λ _, clone_inv h t q (j + 1)).
Proof.
  intros Hid Hj Hot Hinv.
  apply clone_inv_split in Hinv as (lss & cs & nq & k & Hg & Hnd & Hq & Hjc & Hlen & His & Hsub & Hs); [|done].
  eapply wp_node_set_subnode_null; [done|by rewrite (is_id _ _ _ _ _ His)|done| | |].
  - by rewrite (is_count _ _ _ _ _ His), length_fmap.
  - rewrite length_fmap, length_app, length_replicate. lia.
  - rewrite Hjc in *. replace j with (zlen cs) by lia.
    eapply (clone_inv_step _ _ _ None None [] s); try done.
    + rewrite concat_app. simpl. rewrite !app_nil_r. apply grown_store; [done|left|done].
    + rewrite concat_app. simpl. by rewrite !app_nil_r.
    + apply lookup_insert_eq.
    + intros p Hp. simpl. rewrite lookup_insert_ne; [done|]. intros ->. by apply NoDup_cons in Hnd as [? _].
Qed.

Lemma clone_attach h t q j s c tc s2 :
  gid t ≠ 0 → 0 ≤ j < zlen (gsubs t) → gsubs t !! Z.to_nat j = Some (Some tc) → heap_ok s →
  clone_inv h t q j s → cloned s tc c s2 →
  wp (node_set_subnode (Some q) j c) s2 (λ _, clone_inv h t q (j + 1)).
Proof.
  intros Hid Hj Hot Hok Hinv (c' & lc & -> & Hg2 & Hnd2 & Hc).
  apply clone_inv_split in Hinv as (lss & cs & nq & k & Hg & Hnd & Hq & Hjc & Hlen & His & Hsub & Hs); [|done].
  assert (nodes s2 !! q = Some nq) as Hq2 by (by eapply grown_lookup).
  assert (q ∉ lc) as Hqlc by (by eapply grown_old).
  assert (c' ∈ lc) as Hclc by (by eapply shape_head).
  assert (c' ≠ q) as Hcq by (by intros ->).
  destruct (shape_lookup _ _ _ _ _ _ _ Hc Hclc) as [nc Hnc].
  assert (∀ p, p ∈ q :: concat lss → p ∉ lc) as Hdisj.
  { intros p Hp Hp2. apply (g_new _ _ _ Hg) in Hp. apply (g_new _ _ _ Hg2) in Hp2. lia. }
  eapply wp_node_set_subnode; [done|done|done|by rewrite (is_id _ _ _ _ _ His)|done| | |].
  - by rewrite (is_count _ _ _ _ _ His), length_fmap.
  - rewrite length_fmap, length_app, length_replicate. lia.
  - rewrite Hjc in *. replace j with (zlen cs) by lia.
    assert (q :: concat (lss ++ [lc]) = (q :: concat lss) ++ lc) as Hls.
    { rewrite concat_app. simpl. by rewrite app_nil_r. }
    eapply (clone_inv_step _ _ _ (Some c') (Some tc) lc s); try done; try rewrite Hls.
    + apply grown_store2; [by eapply grown_trans|left|apply elem_of_app; by right|done|done].
    + apply NoDup_app. done.
    + simpl. rewrite lookup_insert_ne by done. apply lookup_insert_eq.
    + intros p Hp. simpl. apply NoDup_cons in Hnd as [Hqn _].
      rewrite !lookup_insert_ne; [apply (g_same _ _ _ Hg2), Hdisj; by right|..]; intros ->; [done|].
      by apply (Hdisj p); [right|].
    + simpl. eapply shape_set_parent; [|done|simpl; by rewrite lookup_insert_ne|].
      all: eapply shape_frame; [|done]; intros p Hp; by rewrite lookup_insert_ne by (by intros ->).
Qed.

Lemma wp_copy_val chk par t ps n ls h q s nq (Q : unit → heap → Prop) :
  node_is chk par t ps n → grown ls h s → q ∈ ls →
  nodes s !! q = Some nq → val_buf nq = None → val_size nq = 0 →
  (∀ s' b sz vl, grown ls h s' → nodes s' !! q = Some (set_val_len vl (set_val b sz nq)) →
     (gval t ≠ [] → ∃ bs, b = Some bs ∧ (Some <$> gval t) `prefix_of` bs) → Q tt s') →
  wp (node_set_val (Some q) (val_buf n) (val_len n)) s Q.
Proof.
  intros His Hg Hq Hnq Hb Hsz HQ. rewrite (is_val_len _ _ _ _ _ His).
  destruct (decide (gval t = [])) as [Hnil|Hne].
  - rewrite Hnil. simpl. apply wp_ret. apply (HQ s None 0 (val_len nq)); [done| |done].
    rewrite Hnq. destruct nq; simpl in *; by subst.
  - destruct (is_val _ _ _ _ _ His Hne) as (bs & -> & Hpre). destruct (is_width _ _ _ _ _ His) as [Hw _].
    rewrite <- (length_fmap (Some (A:=Z))). eapply wp_node_set_val; try done; [by destruct (gval t)|by rewrite length_fmap|].
    intros dst sz Hd. eapply HQ; [|simpl; apply lookup_insert_eq|eauto].
    apply grown_bump, grown_store; eauto.
Qed.

Lemma clone_inv_done h t q s :
  clone_inv h t q (zlen (gsubs t)) s → cloned h t (Some q) s.
Proof.
  intros (lss & cs & nq & Hg & Hnd & Hq & Hlen & His & Hs). exists q, (q :: concat lss).
  split_and!; try done. apply shape_unfold. exists nq, cs, lss.
  replace (length (gsubs t) - length cs)%nat with 0%nat in His by lia. simpl in His. rewrite app_nil_r in His.
  split_and!; try done. by rewrite take_ge in Hs by lia.
Qed.

Lemma clone_loop_ok fuel t h p n ps lss0 chk par q s :
  heap_ok h → nodes h !! p = Some n → node_is chk par t ps n → gid t ≠ 0 → gsubs t ≠ [] →
  shapes chk (nodes h) (Some p) ps (gsubs t) lss0 →
  (∀ tc, Some tc ∈ gsubs t → ∀ h chk par p ls, heap_ok h → shape chk (nodes h) par p tc ls →
     wp (node_clone_rec fuel (Some p)) h (cloned h tc)) →
  clone_inv h t q 0 s →
  wp (for_loop (length (gsubs t)) 0 (λ i, x ← read_subnode (Some p) i; c ← node_clone_rec fuel x;
        node_set_subnode (Some q) i c)) s (λ _ s', cloned h t (Some q) s').
Proof.
  intros Hok Hp His Hid Hne Hsub IH Hinv. eapply wp_mono.
  { apply (wp_for_loop (clone_inv h t q)); [done|]. intros j s' Hj Hinv'. apply wp_bind.
    destruct (shapes_pick _ _ _ _ _ _ (Z.to_nat j) Hsub) as (o & ot & l & Ho & Hot & Hl & Hsh); [lia|].
    assert (∃ ls, grown ls h s') as [ls Hg].
    { destruct Hinv' as (lss & ? & ? & ? & ?). by eexists. }
    eapply wp_read_subnode; [by eapply grown_lookup| |done|].
    { eapply is_subs; [done|]. by destruct ps. }
    apply wp_bind. destruct o as [c|], ot as [tc|]; simpl in Hsh; try done.
    - eapply wp_mono; [eapply IH|].
      + by eapply list_elem_of_lookup_2.
      + by eapply g_ok.
      + by eapply grown_shape.
      + intros r s2 Hc. eapply clone_attach; [done|lia|done|by eapply g_ok|done|done].
    - destruct fuel; apply wp_ret, clone_attach_null; by try lia. }
  intros [] s' Hd. by apply clone_inv_done.
Qed.

Lemma node_clone_rec_ok t : ∀ fuel h chk par p ls,
  heap_ok h → shape chk (nodes h) par p t ls → (gheight t ≤ fuel)%nat →
  wp (node_clone_rec fuel (Some p)) h (cloned h t).
Proof.
  induction t as [i r v a b subs IH] using gtree_ind'. intros fuel h chk par p ls Hok Hs Hf.
  apply shape_unfold in Hs as (n & ps & lss & Hp & His & -> & Hsub). simpl in Hsub.
  destruct fuel as [|fuel]; [cbn in Hf; lia|]. simpl node_clone_rec.
  apply wp_bind. eapply wp_load; [done|]. apply wp_bind, wp_node_create; [done|].
  pose proof (node_create_grown (id n) h Hok) as Hg.
  set (q := next_loc h) in *.
  assert (q ∈ [q]) as Hqin by left.
  apply wp_bind. eapply wp_store; [simpl; apply lookup_insert_eq|].
  eapply (grown_store _ _ _ q) in Hg; [|done|simpl; rewrite lookup_insert_eq; eauto].
  apply wp_bind. eapply wp_store; [simpl; apply lookup_insert_eq|].
  eapply (grown_store _ _ _ q) in Hg; [|done|simpl; rewrite lookup_insert_eq; eauto].
  apply wp_bind. eapply wp_copy_val; [done|exact Hg|done|simpl; apply lookup_insert_eq|done|done|].
  intros s bb sz vl Hg' Hq Hv. apply wp_bind. eapply wp_store; [done|].
  eapply (grown_store _ _ _ q) in Hg'; [|done|eauto].
  destruct (shapes_length _ _ _ _ _ _ Hsub) as [Hlen _].
  pose proof (is_width _ _ _ _ _ His) as [Hw1 Hw2].
  set (t := GNode i r v a b subs) in *. apply wp_bind. case_decide as Hc.
  - rewrite (is_count _ _ _ _ _ His) in *.
    assert (gid t ≠ 0) as Hid. { intros Hz. apply (is_term _ _ _ _ _ His) in Hz. simpl in Hz. subst. by destruct ps. }
    apply wp_bind. eapply wp_node_init_subnodes; [done|simpl; apply lookup_insert_eq| | |done|].
    { simpl. by rewrite (is_id _ _ _ _ _ His). } { lia. }
    rewrite Nat2Z.id, Hlen. eapply wp_mono; [eapply (clone_loop_ok _ t); try done|].
    { simpl. by destruct subs, ps. }
    { intros tc Htc h' chk' par' p' ls' Hok' Hsh'. eapply Forall_forall in IH; [|done].
      eapply IH; [done|done|]. apply elem_of_gsubs_height in Htc. lia. }
    { exists [], []. eexists. split.
      { apply grown_bump, grown_store; [exact Hg'|done|]. simpl. rewrite lookup_insert_eq. eauto. }
      split_and!; [apply NoDup_singleton|simpl; apply lookup_insert_eq|done| |constructor].
      simpl. rewrite Nat.sub_0_r.
      destruct His; split; simpl; try done; [by rewrite length_replicate|by rewrite length_replicate, <- Hlen]. }
    intros [] s' Hd. by apply wp_ret.
  - apply wp_ret, wp_ret. rewrite (is_count _ _ _ _ _ His) in Hc.
    assert (ps = []) as -> by (destruct ps; [done|simpl in Hc; lia]).
    assert (subs = []) as Hnil by (by destruct subs). exists q, [q]. split_and!; [done|done|apply NoDup_singleton|].
    apply shape_unfold. eexists _, [], []. split_and!; [simpl; apply lookup_insert_eq| |done|simpl; rewrite Hnil; constructor].
    destruct His; split; simpl; try done.
Qed.
Lemma node_clone_ok h chk par p t ls :
  heap_ok h → shape chk (nodes h) par p t ls → NoDup ls → wp (node_clone (Some p)) h (cloned h t).
Proof.
  intros Hok Hs Hnd. unfold node_clone, with_fuel. eapply node_clone_rec_ok; [done|done|].
  etrans; [by eapply shape_fuel|]. lia.
Qed.

(** On any well-formed subtree, [node_clone] returns the root of a tree with
    the same ids, rules, values, sizes and children, built from freshly
    allocated nodes with correct parent pointers, and changes nothing that was
    allocated before. *)
Theorem node_clone_correct h chk par p t ls :
  heap_ok h → shape chk (nodes h) par p t ls → NoDup ls →
  ∃ p' ls' h', node_clone (Some p) h = Ret (Some p', h') ∧
    shape true (nodes h') None p' t ls' ∧ NoDup ls' ∧ (∀ q, q ∈ ls' → nodes h !! q = None) ∧
    (∀ q, q ∉ ls' → nodes h' !! q = nodes h !! q) ∧ trees h' = trees h ∧ files h' = files h ∧ heap_ok h'.
Proof.
  intros Hok Hs Hnd. pose proof (node_clone_ok _ _ _ _ _ _ Hok Hs Hnd) as Hw.
  apply wp_Ret in Hw as (q & h' & Hr & p' & ls' & -> & Hg & Hnd' & Hs').
  exists p', ls', h'. pose proof Hg as []. split_and!; try done.
  intros q Hq. apply eq_None_not_Some. intros Hq'. by eapply grown_old in Hq'.
Qed.
End Clone.

Lemma node_clone_correct_witness :
  ∃ p' ls' h', node_clone (H := obliging) (Some 1%positive) sample_heap = Ret (Some p', h') ∧
    shape true (nodes h') None p' sample_tree ls' ∧ NoDup ls' ∧
    (∀ q, q ∈ ls' → nodes sample_heap !! q = None) ∧
    (∀ q, q ∉ ls' → nodes h' !! q = nodes sample_heap !! q) ∧
    trees h' = trees sample_heap ∧ files h' = files sample_heap ∧ heap_ok h'.
Proof.
  apply (node_clone_correct (H := obliging) (λ _, eq_refl) sample_heap true None 1 sample_tree sample_locs).
  - apply sample_heap_ok.
  - apply sample_shape.
  - apply sample_NoDup.
Defined.

(** ** [node_free] *)

(** [h'] is [h] without the nodes [ls]. *)
Record pruned (ls : list loc) (h h' : heap) : Prop := {
  pr_gone : ∀ q, q ∈ ls → nodes h' !! q = None;
  pr_same : ∀ q, q ∉ ls → nodes h' !! q = nodes h !! q;
  pr_trees : trees h' = trees h;
  pr_files : files h' = files h;
  pr_next : next_loc h' = next_loc h }.

Lemma pruned_ok ls h h' : pruned ls h h' → heap_ok h → heap_ok h'.
Proof.
  intros [P1 P2 P3 P4 P5] [O1 O2]. split; rewrite P5.
  - intros p n Hp. destruct (decide (p ∈ ls)) as [Hin|]; [by rewrite P1 in Hp|]. rewrite P2 in Hp by done. eauto.
  - rewrite P3. done.
Qed.

Lemma concat_take_lookup {A} (lss : list (list A)) i l :
  lss !! i = Some l → concat (take (S i) lss) = concat (take i lss) ++ l.
Proof. intros Hi. rewrite (take_S_r _ _ l) by done. rewrite concat_app. simpl. by rewrite app_nil_r. Qed.

Lemma NoDup_concat_lookup {A} (lss : list (list A)) i l :
  NoDup (concat lss) → lss !! i = Some l → NoDup l ∧ ∀ x, x ∈ l → x ∉ concat (take i lss).
Proof.
  intros Hnd Hi. rewrite <- (take_drop_middle lss i l Hi), concat_app in Hnd. simpl in Hnd.
  apply NoDup_app in Hnd as (H1 & H2 & H3). apply NoDup_app in H3 as (H4 & _ & _).
  split; [done|]. intros x Hx Hx'. apply (H2 x Hx'). apply elem_of_app. by left.
Qed.

Lemma concat_lookup_elem {A} (lss : list (list A)) i l x : lss !! i = Some l → x ∈ l → x ∈ concat lss.
Proof. intros Hi Hx. apply concat_elem. exists l. split; [|done]. by eapply list_elem_of_lookup_2. Qed.

Lemma wp_if_true {S A} (b : bool) (m1 m2 : M S A) s Q : b = true → wp m1 s Q → wp (if b then m1 else m2) s Q.
Proof. by intros ->. Qed.

(** The state of the freed node [p] before subnode [j] is freed. *)
Definition free_inv (h : heap) (p : loc) (arr : option (list (option ptr))) (lss : list (list loc))
    (j : Z) (s : heap) : Prop :=
  ∃ n, nodes s !! p = Some n ∧ subnodes n = arr ∧
    (∀ q, q ≠ p → q ∈ concat (take (Z.to_nat j) lss) → nodes s !! q = None) ∧
    (∀ q, q ≠ p → q ∉ concat (take (Z.to_nat j) lss) → nodes s !! q = nodes h !! q) ∧
    trees s = trees h ∧ files s = files h ∧ next_loc s = next_loc h.

Lemma free_inv_step h p arr lss j l s s' :
  0 ≤ j → p ∉ concat lss → NoDup (concat lss) → lss !! Z.to_nat j = Some l →
  free_inv h p arr lss j s → pruned l s s' → free_inv h p arr lss (j + 1) s'.
Proof.
  intros Hj Hp Hnd Hl (n & Hn & Ha & Hgone & Hsame & Ht & Hf & Hx) [P1 P2 P3 P4 P5].
  assert (p ∉ l) as Hpl by (intros Hin; apply Hp; by eapply concat_lookup_elem).
  unfold free_inv. replace (Z.to_nat (j + 1)) with (S (Z.to_nat j)) by lia.
  rewrite (concat_take_lookup _ _ _ Hl).
  exists n. rewrite P2 by done. split_and!; try done; try congruence.
  - intros q Hqp Hq. destruct (decide (q ∈ l)); [by apply P1|]. rewrite P2 by done. apply Hgone; [done|].
    by apply elem_of_app in Hq as [|].
  - intros q Hqp [Hq1 Hq2]%not_elem_of_app. rewrite P2 by done. by apply Hsame.
Qed.

Lemma free_inv_start h s p n n' lss :
  nodes s = <[p := n']> (nodes h) → subnodes n' = subnodes n →
  trees s = trees h → files s = files h → next_loc s = next_loc h → free_inv h p (subnodes n) lss 0 s.
Proof.
  intros Hn' Ha ? ? ?. exists n'. rewrite Hn', lookup_insert_eq. split_and!; try done; simpl.
  - intros q _ []%not_elem_of_nil.
  - intros q Hq _. by rewrite lookup_insert_ne.
Qed.

Lemma free_inv_store h p arr lss j s n f :
  nodes s !! p = Some n → subnodes (f n) = subnodes n → free_inv h p arr lss j s →
  free_inv h p arr lss j (set_nodes (<[p := f n]> (nodes s)) s).
Proof.
  intros Hn Hf (n' & Hn' & Ha & Hg & Hsm & R). simplify_eq. exists (f n). simpl. rewrite lookup_insert_eq, Hf.
  split_and!; try done; try apply R; intros q Hq ?; rewrite lookup_insert_ne by done; auto.
Qed.

Section Free.
Context `{Host}.

Lemma free_inv_end h p arr lss s :
  free_inv h p arr lss (zlen lss) s → wp (free_node (Some p)) s (λ _ h', pruned (p :: concat lss) h h').
Proof.
  intros (n' & Hn' & _ & Hgone & Hsame & Ht & Hfi & Hx). eapply wp_free_node; [done|].
  rewrite take_ge in Hgone, Hsame by lia. split; simpl; try done.
  - intros q Hq. destruct (decide (p = q)) as [->|]; [apply lookup_delete_eq|].
    rewrite lookup_delete_ne by done. apply Hgone; [done|]. by apply elem_of_cons in Hq as [|].
  - intros q [Hq1 Hq2]%not_elem_of_cons. rewrite lookup_delete_ne by done. by apply Hsame.
Qed.

Lemma free_loop_ok fuel chk h p n ps subs lss s :
  shapes chk (nodes h) (Some p) ps subs lss → NoDup (concat lss) → p ∉ concat lss → ps ≠ [] →
  subnodes n = Some (Some <$> ps) →
  (∀ tc, Some tc ∈ subs → ∀ h par p ls, shape chk (nodes h) par p tc ls → NoDup ls →
     wp (node_free_rec fuel (Some p)) h (λ _ h', pruned ls h h')) →
  free_inv h p (subnodes n) lss 0 s →
  wp (for_loop (length ps) 0 (λ i, x ← read_subnode (Some p) i;
        match x with None => mret tt | Some _ => node_free_rec fuel x end)) s
     (λ _ s', free_inv h p (subnodes n) lss (zlen lss) s').
Proof.
  intros Hsub Hnd Hpl Hne Harr IH Hinv. destruct (shapes_length _ _ _ _ _ _ Hsub) as [Hlen Hlen2].
  replace (zlen lss) with (0 + zlen ps) by lia.
  apply (wp_for_loop (free_inv h p (subnodes n) lss)); [done|].
  intros j s' Hj Hinv'. apply wp_bind.
  destruct (shapes_pick _ _ _ _ _ _ (Z.to_nat j) Hsub) as (o & ot & l & Ho & Hot & Hl & Hsh); [lia|].
  pose proof Hinv' as (nj & Hnj & Haj & _ & Hsame & _).
  eapply wp_read_subnode; [done|by rewrite Haj|done|].
  destruct (NoDup_concat_lookup _ _ _ Hnd Hl) as [Hndl Hdis].
  destruct o as [c|], ot as [tc|]; simpl in Hsh; try done.
  - eapply wp_mono; [eapply IH; [by eapply list_elem_of_lookup_2| |done]|].
    + eapply shape_frame; [|done]. intros q Hq. apply Hsame; [|by apply Hdis].
      intros ->. apply Hpl. by eapply concat_lookup_elem.
    + intros [] s2 Hpr. eapply free_inv_step; try done; lia.
  - apply wp_ret. subst l. eapply free_inv_step; try done; [lia|]. split; try done.
    intros q []%not_elem_of_nil.
Qed.

Lemma node_free_rec_ok t : ∀ fuel h chk par p ls,
  shape chk (nodes h) par p t ls → NoDup ls → (gheight t ≤ fuel)%nat →
  wp (node_free_rec fuel (Some p)) h (λ _ h', pruned ls h h').
Proof.
  induction t as [i r v a b subs IH] using gtree_ind'. intros fuel h chk par p ls Hs Hnd Hf.
  apply shape_unfold in Hs as (n & ps & lss & Hp & His & -> & Hsub). simpl in Hsub.
  destruct fuel as [|fuel]; [cbn in Hf; lia|]. simpl node_free_rec.
  destruct (shapes_length _ _ _ _ _ _ Hsub) as [Hlen Hlen2]. apply NoDup_cons in Hnd as [Hpl Hnd].
  apply wp_bind. eapply wp_store; [done|]. apply wp_bind. eapply wp_load; [simpl; apply lookup_insert_eq|].
  set (n1 := set_non_term_size 0 _). apply wp_bind.
  apply (wp_mono _ _ (λ _ s, ∃ n', nodes s = <[p := n']> (nodes h) ∧ subnodes n' = subnodes n ∧
    trees s = trees h ∧ files s = files h ∧ next_loc s = next_loc h)).
  { destruct (val_buf n1).
    - eapply wp_store; [simpl; apply lookup_insert_eq|]. eexists. simpl. rewrite insert_insert_eq. eauto.
    - apply wp_ret. by eexists. }
  intros _ s (n' & Hs & Ha & Ht & Hfi & Hx).
  apply wp_bind. eapply wp_store; [rewrite Hs; apply lookup_insert_eq|]. apply wp_bind.
  assert (free_inv h p (subnodes n) lss 0 (set_nodes (<[p := set_parent None n']> (nodes s)) s)) as Hinv.
  { apply free_inv_store; [rewrite Hs; apply lookup_insert_eq|done|by eapply free_inv_start]. }
  change (subnode_count n1) with (subnode_count n). rewrite (is_count _ _ _ _ _ His), Nat2Z.id.
  case_decide as Hc.
  - apply wp_bind. assert (ps ≠ []) as Hne by (by destruct ps).
    eapply wp_mono; [eapply free_loop_ok; try done|].
    + by eapply is_subs.
    + intros tc Htc h' par' p' ls' Hs' Hnd'. eapply Forall_forall in IH; [|done]. eapply IH; [done..|].
      pose proof (gheight_sub i r v a b _ _ Htc). lia.
    + intros [] s' Hinv'. pose proof Hinv' as (nj & Hnj & _). eapply wp_store; [done|].
      eapply free_inv_end, free_inv_store; [done|done|exact Hinv'].
  - apply wp_ret. eapply free_inv_end. by replace (zlen lss) with 0 by lia.
Qed.

Lemma node_free_ok h chk par p t ls :
  shape chk (nodes h) par p t ls → NoDup ls → wp (node_free (Some p)) h (λ _ h', pruned ls h h').
Proof.
  intros Hs Hnd. unfold node_free, with_fuel. eapply node_free_rec_ok; [done|done|].
  etrans; [by eapply shape_fuel|]. lia.
Qed.

(** [node_free] of a well-formed subtree returns, deallocates exactly the
    nodes of that subtree, each of them once, and touches nothing else. *)
Theorem node_free_correct h chk par p t ls :
  shape chk (nodes h) par p t ls → NoDup ls →
  ∃ h', node_free (Some p) h = Ret (tt, h') ∧
    (∀ q, q ∈ ls → nodes h' !! q = None) ∧ (∀ q, q ∉ ls → nodes h' !! q = nodes h !! q) ∧
    trees h' = trees h ∧ files h' = files h.
Proof.
  intros Hs Hnd. pose proof (node_free_ok _ _ _ _ _ _ Hs Hnd) as Hw.
  apply wp_Ret in Hw as ([] & h' & Hr & []). by exists h'.
Qed.
End Free.

Lemma node_free_correct_witness :
  ∃ h', node_free (Some 1%positive) sample_heap = Ret (tt, h') ∧
    (∀ q, q ∈ sample_locs → nodes h' !! q = None) ∧
    (∀ q, q ∉ sample_locs → nodes h' !! q = nodes sample_heap !! q) ∧
    trees h' = trees sample_heap ∧ files h' = files sample_heap.
Proof.
  apply (node_free_correct sample_heap true None 1 sample_tree sample_locs).
  - apply sample_shape.
  - apply sample_NoDup.
Defined.

(** ** [node_equal] *)

(** What [node_equal] compares: everything but the cached sizes. *)
Fixpoint strip (t : gtree) : gtree :=
  let 'GNode i r v _ _ subs := t in GNode i r v 0 0 (map (option_map strip) subs).

Lemma node_is_val_eq chk chk' par par' t t' ps ps' n :
  node_is chk par t ps n → node_is chk' par' t' ps' n → gval t = gval t' ∧ ps = ps'.
Proof.
  intros A B.
  assert (zlen (gval t) = zlen (gval t')) as Hl.
  { rewrite <- (is_val_len _ _ _ _ _ A). apply (is_val_len _ _ _ _ _ B). }
  assert (zlen ps = zlen ps') as Hl2.
  { rewrite <- (is_count _ _ _ _ _ A). apply (is_count _ _ _ _ _ B). }
  split.
  - destruct (decide (gval t = [])) as [E|Hne].
    { rewrite E in *. by destruct (gval t'). }
    assert (gval t' ≠ []) as Hne' by (intros E; rewrite E in Hl; by destruct (gval t)).
    destruct (is_val _ _ _ _ _ A Hne) as (bs & Hb & Hp). destruct (is_val _ _ _ _ _ B Hne') as (bs' & Hb' & Hp').
    assert (bs' = bs) as -> by congruence.
    apply read_bytes_prefix in Hp, Hp'. rewrite Hl in Hp. congruence.
  - destruct (decide (ps = [])) as [->|Hne]; [by destruct ps'|].
    assert (ps' ≠ []) as Hne' by (intros ->; by destruct ps).
    pose proof (is_subs _ _ _ _ _ A Hne). pose proof (is_subs _ _ _ _ _ B Hne').
    apply (list_fmap_eq_inj Some Some_inj). congruence.
Qed.

(** The value of a pointer is unique. *)
Lemma shape_fun t : ∀ chk chk' m par par' p t' ls ls',
  shape chk m par p t ls → shape chk' m par' p t' ls' → t = t' ∧ ls = ls'.
Proof.
  induction t as [i r v a b subs IH] using gtree_ind'. intros chk chk' m par par' p t' ls ls'.
  rewrite !shape_unfold. intros (n & ps & lss & Hp & His & -> & Hsub) (n' & ps' & lss' & Hp' & His' & -> & Hsub').
  assert (n' = n) as -> by congruence.
  destruct (node_is_val_eq _ _ _ _ _ _ _ _ _ His His') as [Hv <-].
  destruct t' as [i' r' v' a' b' subs']. destruct His as [I1 I2 _ _ I5 I6 _ _ _ _ _].
  destruct His' as [J1 J2 _ _ J5 J6 _ _ _ _ _]. simpl in *. subst.
  enough (subs = subs' ∧ lss = lss') as [-> ->] by done.
  clear -IH Hsub Hsub'. revert subs' lss' Hsub' IH.
  induction Hsub as [|o ot l ps subs lss Ho Hs IHs]; intros subs' lss' Hsub' IH.
  { by inversion Hsub'. }
  inversion Hsub' as [|? ot' l' ? subs2 lss2 Ho' Hs']; subst. apply Forall_cons in IH as [IHo IH].
  destruct (IHs _ _ Hs' IH) as [-> ->].
  destruct o as [q|], ot as [u|], ot' as [u'|]; simpl in *; try done; [|by subst].
  by destruct (IHo _ _ _ _ _ _ _ _ _ Ho Ho') as [-> ->].
Qed.

Lemma wp_all_loop {S} (P : Z → Prop) n : ∀ i (body : Z → M S bool) s,
  (∀ j, i ≤ j < i + Z.of_nat n → wp (body j) s (λ r s', s' = s ∧ (r = true ↔ P j))) →
  wp (all_loop n i body) s (λ r s', s' = s ∧ (r = true ↔ ∀ j, i ≤ j < i + Z.of_nat n → P j)).
Proof.
  induction n as [|n IH]; intros i body s Hb; simpl.
  { apply wp_ret. split; [done|]. split; [|done]. intros _ j ?. lia. }
  apply wp_bind. eapply wp_mono; [apply Hb; lia|]. intros r s' [-> Hr]. simpl. destruct r.
  - eapply wp_mono; [apply IH; intros j Hj; apply Hb; lia|]. intros r s' [-> Hr']. split; [done|].
    rewrite Hr'. split; intros HP j Hj; [|apply HP; lia].
    destruct (decide (j = i)) as [->|]; [by apply Hr|]. apply HP. lia.
  - apply wp_ret. split; [done|]. split; [done|]. intros HP. apply Hr, HP. lia.
Qed.

Lemma strip_subs_eq subs subs' :
  length subs = length subs' →
  map (option_map strip) subs = map (option_map strip) subs' ↔
  ∀ j o o', subs !! j = Some o → subs' !! j = Some o' → option_map strip o = option_map strip o'.
Proof.
  revert subs'. induction subs as [|o subs IH]; intros [|o' subs'] Hl; simpl in *; try done.
  split.
  - intros [= H1 H2] [|j] x x'; simpl; [intros; by simplify_eq|].
    intros. eapply (proj1 (IH subs' ltac:(lia))); done.
  - intros HP. f_equal; [by apply (HP 0%nat)|]. apply IH; [lia|]. intros j x x' Hx Hx'. by apply (HP (S j)).
Qed.

Section Equal.
Context `{Host}.

Lemma wp_memcmp_eq chk chk' par par' t t' ps ps' n n' h :
  node_is chk par t ps n → node_is chk' par' t' ps' n' → val_len n = val_len n' →
  wp (memcmp_eq (val_buf n) (val_buf n') (val_len n)) h (λ r h', h' = h ∧ (r = true ↔ gval t = gval t')).
Proof.
  intros A B Hl. unfold memcmp_eq.
  pose proof (is_val_len _ _ _ _ _ A) as L1. pose proof (is_val_len _ _ _ _ _ B) as L2.
  case_decide as Hz.
  - apply wp_ret. split; [done|]. split; [|done]. intros _. destruct (gval t), (gval t'); simpl in *; by try lia.
  - destruct (is_val _ _ _ _ _ A) as (bs & -> & Hp). { intros E. rewrite E in L1. simpl in *. lia. }
    destruct (is_val _ _ _ _ _ B) as (bs' & -> & Hp'). { intros E. rewrite E in L2. simpl in *. lia. }
    apply read_bytes_prefix in Hp, Hp'. rewrite <- L1 in Hp. rewrite <- L2, <- Hl in Hp'. rewrite Hp, Hp'.
    apply wp_ret. split; [done|]. by rewrite bool_decide_eq_true.
Qed.

Lemma wp_ret_false (h : heap) (P : Prop) : ¬ P → wp (mret false) h (λ (r : bool) h', h' = h ∧ (r = true ↔ P)).
Proof. intros HP. apply wp_ret. split; [done|]. by split. Qed.

(** One round of the loop: both subnodes may be NULL. *)
Lemma equal_opt_ok fuel h ca cb pa pb o ot l o' ot' l' :
  shape_opt ca (nodes h) pa o ot l → shape_opt cb (nodes h) pb o' ot' l' →
  (∀ u q pb q' u' l', ot = Some u → o = Some q → shape cb (nodes h) pb q' u' l' →
     wp (node_equal_rec fuel (Some q) (Some q')) h (λ r h', h' = h ∧ (r = true ↔ strip u = strip u'))) →
  wp (node_equal_rec fuel o o') h (λ r h', h' = h ∧ (r = true ↔ option_map strip ot = option_map strip ot')).
Proof.
  intros Ho Ho' IH.
  destruct o as [q|], ot as [u|], o' as [q'|], ot' as [u'|]; simpl in Ho, Ho'; try done.
  - eapply wp_mono; [by eapply IH|]. intros r h' [-> Hr]. split; [done|]. rewrite Hr. simpl.
    split; [by intros ->|by intros [=]].
  - destruct fuel; by apply wp_ret_false.
  - destruct fuel; by apply wp_ret_false.
  - destruct fuel; by apply wp_ret.
Qed.

Lemma node_equal_rec_ok ta : ∀ fuel h ca cb pa pb a b tb la lb,
  shape ca (nodes h) pa a ta la → shape cb (nodes h) pb b tb lb → (gheight ta ≤ fuel)%nat →
  wp (node_equal_rec fuel (Some a) (Some b)) h (λ r h', h' = h ∧ (r = true ↔ strip ta = strip tb)).
Proof.
  induction ta as [i r v ra na subs IH] using gtree_ind'. intros fuel h ca cb pa pb a b tb la lb Ha Hb Hf.
  destruct fuel as [|fuel]; [cbn in Hf; lia|]. simpl node_equal_rec. case_decide as Hab.
  { injection Hab as <-. apply wp_ret. split; [done|]. split; [|done]. intros _.
    by destruct (shape_fun _ _ _ _ _ _ _ _ _ _ Ha Hb) as [<- _]. }
  apply shape_unfold in Ha as (n & ps & lss & Hp & His & -> & Hsub).
  apply shape_unfold in Hb as (n' & ps' & lss' & Hp' & His' & -> & Hsub').
  apply wp_bind. eapply wp_load; [done|]. apply wp_bind. eapply wp_load; [done|].
  destruct (shapes_length _ _ _ _ _ _ Hsub) as [Hlen _]. destruct (shapes_length _ _ _ _ _ _ Hsub') as [Hlen' _].
  pose proof His as [I1 I2 I3 _ _ _ I7 I8 _ _ _]. pose proof His' as [J1 J2 J3 _ _ _ J7 J8 _ _ _].
  destruct tb as [i' r' v' ra' na' subs'].
  cbn [gid grule gval gsubs strip] in I1, I2, I3, J1, J2, J3, Hlen, Hlen', Hsub, Hsub' |- *.
  case_decide. { apply wp_ret_false. intros [=]; congruence. }
  case_decide. { apply wp_ret_false. intros [=]; congruence. }
  case_decide. { apply wp_ret_false. intros [=]; congruence. }
  apply wp_bind. eapply wp_mono; [eapply wp_memcmp_eq; [done|done|lia]|]. intros same h' [-> Hsame].
  destruct same; simpl negb; cbn match; [|apply wp_ret_false; intros [= ? ? HX]; apply Hsame in HX; done].
  case_decide. { apply wp_ret_false. intros [= _ _ _ HX%(f_equal length)]; rewrite !length_map in HX; lia. }
  eapply wp_mono.
  { apply (wp_all_loop (λ j, ∀ o o', subs !! Z.to_nat j = Some o → subs' !! Z.to_nat j = Some o' →
                          option_map strip o = option_map strip o')).
    intros j Hj. rewrite I7, Nat2Z.id in Hj.
    destruct (shapes_pick _ _ _ _ _ _ (Z.to_nat j) Hsub) as (o & ot & l & Ho & Hot & Hl & Hsh); [lia|].
    destruct (shapes_pick _ _ _ _ _ _ (Z.to_nat j) Hsub') as (o' & ot' & l' & Ho' & Hot' & Hl' & Hsh'); [lia|].
    apply wp_bind. eapply wp_read_subnode; [done|apply I8; by destruct ps|done|].
    apply wp_bind. eapply wp_read_subnode; [done|apply J8; by destruct ps'|done|].
    rewrite Hot, Hot'. eapply wp_mono.
    - eapply equal_opt_ok; [done|done|]. intros u q pb' q' u' l2 -> -> Hu'.
      eapply Forall_forall in IH; [|by eapply list_elem_of_lookup_2]. eapply IH; [done|done|].
      eapply list_elem_of_lookup_2 in Hot. pose proof (gheight_sub i r v ra na _ _ Hot). lia.
    - intros res h' [-> Hres]. split; [done|]. rewrite Hres. split; [by intros E ? ? [= <-] [= <-]|by auto]. }
  intros res h' [-> Hres]. split; [done|]. rewrite Hres, I7, Nat2Z.id.
  assert (v = v') as <- by (by apply Hsame). assert (i = i') as <- by lia. assert (r = r') as <- by lia.
  transitivity (map (option_map strip) subs = map (option_map strip) subs'); [|split; [by intros ->|by intros [=]]].
  rewrite strip_subs_eq by lia. split; intros HP.
  - intros j o o' Hj Hj'. apply lookup_lt_Some in Hj as Hlt. eapply (HP (Z.of_nat j)); rewrite ?Nat2Z.id; [lia|done|done].
  - intros j Hj o o'. apply HP.
Qed.

Lemma node_equal_ok h ca cb pa pb a b ta tb la lb :
  shape ca (nodes h) pa a ta la → NoDup la → shape cb (nodes h) pb b tb lb →
  wp (node_equal (Some a) (Some b)) h (λ r h', h' = h ∧ (r = true ↔ strip ta = strip tb)).
Proof.
  intros Ha Hnd Hb. unfold node_equal, with_fuel. eapply node_equal_rec_ok; [done|done|].
  etrans; [by eapply shape_fuel|]. lia.
Qed.

(** [node_equal] on two well-formed trees returns, changes nothing, and
    answers whether the trees agree in every id, rule, value and subtree (the
    cached sizes are not compared). *)
Theorem node_equal_correct h ca cb pa pb a b ta tb la lb :
  shape ca (nodes h) pa a ta la → NoDup la → shape cb (nodes h) pb b tb lb →
  ∃ r, node_equal (Some a) (Some b) h = Ret (r, h) ∧ (r = true ↔ strip ta = strip tb).
Proof.
  intros Ha Hnd Hb. pose proof (node_equal_ok _ _ _ _ _ _ _ _ _ _ _ Ha Hnd Hb) as Hw.
  apply wp_Ret in Hw as (r & h' & Hr & -> & Hiff). by exists r.
Qed.
End Equal.

Lemma node_equal_correct_witness :
  ∃ r, node_equal (Some 1%positive) (Some 7%positive) sample_heap = Ret (r, sample_heap) ∧
    (r = true ↔ strip sample_tree = strip sample_operand).
Proof.
  apply (node_equal_correct sample_heap true true None None 1 7 sample_tree sample_operand sample_locs [7; 8]%positive).
  - apply sample_shape.
  - apply sample_NoDup.
  - apply sample_operand_shape.
Defined.

(** The operand inside [7+x] equals the separate tree of [x], although it hangs
    below another node. *)
Example node_equal_inside : node_equal (Some 4%positive) (Some 7%positive) sample_heap = Ret (true, sample_heap).
Proof. vm_compute. reflexivity. Qed.
