(* ===== verification/TreeSizes.v ===== *)
(** * TreeSizes: the cached sizes of tree.c and the node lists

    [node_get_size] recomputes the two cached sizes of every node; the lists of
    non-terminal nodes and of recursion edges enumerate what it counts. *)

From S2P Require Import Prelude Buffer Utils Tree TreeSpec TreeNodes.

(** ** Reference definitions *)

Definition sum_subs (f : gtree → Z) (subs : list (option gtree)) : Z :=
  foldr (λ o acc, match o with Some s => f s | None => 0 end + acc) 0 subs.

(** The number of non-terminal nodes. *)
Fixpoint count_nt (t : gtree) : Z :=
  let 'GNode i _ _ _ _ subs := t in
  if decide (i = 0) then 0
  else 1 + foldr (λ o acc, match o with Some s => count_nt s | None => 0 end + acc) 0 subs.

(** The number of edges between a node and a subnode with the same id. *)
Fixpoint count_edges (t : gtree) : Z :=
  let 'GNode i _ _ _ _ subs := t in
  if decide (i = 0) then 0
  else foldr (λ o acc, match o with
                       | Some s => (if decide (i = gid s) then 1 else 0) + count_edges s
                       | None => 0
                       end + acc) 0 subs.

(** The tree with both sizes of every node recomputed. *)
Fixpoint recount (t : gtree) : gtree :=
  let 'GNode i r v _ _ subs := t in
  GNode i r v (u64 (count_edges t)) (u64 (count_nt t)) (map (option_map recount) subs).

Definition edge_weight (i : Z) (s : gtree) : Z := (if decide (i = gid s) then 1 else 0) + count_edges s.

Lemma count_nt_eq t : gid t ≠ 0 → count_nt t = 1 + sum_subs count_nt (gsubs t).
Proof. destruct t as [i r v a b subs]. simpl. intros. by rewrite decide_False. Qed.

Lemma count_edges_eq t : gid t ≠ 0 → count_edges t = sum_subs (edge_weight (gid t)) (gsubs t).
Proof. destruct t as [i r v a b subs]. simpl. intros. by rewrite decide_False. Qed.

Lemma sum_subs_snoc f subs o :
  sum_subs f (subs ++ [o]) = sum_subs f subs + match o with Some s => f s | None => 0 end.
Proof.
  induction subs as [|o' subs IH]; simpl; [unfold sum_subs; simpl; lia|].
  unfold sum_subs in *. simpl. rewrite IH. lia.
Qed.

Lemma recount_eq t : recount t =
  GNode (gid t) (grule t) (gval t) (u64 (count_edges t)) (u64 (count_nt t)) (map (option_map recount) (gsubs t)).
Proof. by destruct t. Qed.

Lemma gid_recount t : gid (recount t) = gid t.
Proof. by destruct t. Qed.

Lemma strip_recount t : strip (recount t) = strip t.
Proof.
  induction t as [i r v a b subs IH] using gtree_ind'. simpl. f_equal. rewrite map_map.
  induction IH as [|o subs Ho _ IHs]; [done|]. simpl. f_equal; [|done].
  destruct o; [|done]. simpl in *. by rewrite Ho.
Qed.

(** ** In-place updates *)

(** Only the nodes [ls] differ. *)
Record touched (ls : list loc) (h h' : heap) : Prop := {
  to_same : ∀ q, q ∉ ls → nodes h' !! q = nodes h !! q;
  to_trees : trees h' = trees h;
  to_files : files h' = files h;
  to_next : next_loc h' = next_loc h }.

Lemma touched_refl ls h : touched ls h h.
Proof. by split. Qed.

Lemma touched_trans ls ls1 ls2 h h1 h2 :
  touched ls1 h h1 → touched ls2 h1 h2 → (∀ q, q ∈ ls1 ∨ q ∈ ls2 → q ∈ ls) → touched ls h h2.
Proof.
  intros [A1 A2 A3 A4] [B1 B2 B3 B4] Hin. split; try congruence.
  intros q Hq. rewrite B1, A1; [done|..]; intros ?; apply Hq, Hin; auto.
Qed.

Lemma touched_store ls h p n : p ∈ ls → touched ls h (set_nodes (<[p := n]> (nodes h)) h).
Proof. intros Hp. split; try done. intros q Hq. simpl. rewrite lookup_insert_ne; [done|]. by intros ->. Qed.

(** Replacing one subtree by another over the same nodes. *)
Lemma shapes_update chk m m' par ps subs lss j o ot l :
  shapes chk m par ps subs lss → NoDup (concat lss) → ps !! j = Some o → lss !! j = Some l →
  (∀ q, q ∈ concat lss → q ∉ l → m' !! q = m !! q) → shape_opt chk m' par o ot l →
  shapes chk m' par ps (<[j := ot]> subs) lss.
Proof.
  intros Hs. revert j. induction Hs as [|o' ot' l' ps subs lss Ho Hs IH]; intros j Hnd Hj Hl Hm Hot; [done|].
  simpl in Hnd. apply NoDup_app in Hnd as (N1 & N2 & N3). destruct j as [|j]; simpl in *.
  - simplify_eq. constructor; [done|]. eapply shapes_frame; [|done]. intros q Hq. apply Hm.
    + apply elem_of_app. by right.
    + intros Hin. by apply (N2 q).
  - constructor.
    + eapply shape_opt_frame; [|done]. intros q Hq. apply Hm; [apply elem_of_app; by left|].
      intros Hin. apply (N2 q Hq). by eapply concat_lookup_elem.
    + apply IH; try done. intros q Hq Hq'. apply Hm; [apply elem_of_app; by right|done].
Qed.

Section GetSize.
Context `{Host}.

(** The node [p] before subnode [j] is counted. *)
Definition size_inv (chk : bool) (h : heap) (t : gtree) (p : loc) (n : node) (ps : list ptr)
    (lss : list (list loc)) (j : Z) (s : heap) : Prop :=
  nodes s !! p = Some
    (set_non_term_size (u64 (1 + sum_subs count_nt (take (Z.to_nat j) (gsubs t))))
       (set_recursion_edge_size (u64 (sum_subs (edge_weight (gid t)) (take (Z.to_nat j) (gsubs t)))) n)) ∧
  shapes chk (nodes s) (Some p) ps
    (map (option_map recount) (take (Z.to_nat j) (gsubs t)) ++ drop (Z.to_nat j) (gsubs t)) lss ∧
  touched (p :: concat lss) h s.

Lemma recount_step (subs : list (option gtree)) j ot :
  subs !! j = Some ot →
  map (option_map recount) (take (S j) subs) ++ drop (S j) subs =
  <[j := option_map recount ot]> (map (option_map recount) (take j subs) ++ drop j subs).
Proof.
  intros Hj. apply lookup_lt_Some in Hj as Hlt. rewrite (take_S_r _ _ ot) by done.
  rewrite (drop_S _ ot j) by done. rewrite insert_app_r_alt; rewrite length_map, length_take; [|lia].
  replace (j - (j `min` length subs))%nat with 0%nat by lia. rewrite map_app. simpl. by rewrite <- app_assoc.
Qed.

Definition recounted (chk : bool) (par : ptr) (p : loc) (t : gtree) (ls : list loc) (h h' : heap) : Prop :=
  shape chk (nodes h') par p (recount t) ls ∧ touched ls h h'.

Lemma size_inv_null chk h t p n ps lss j s :
  0 ≤ j < zlen (gsubs t) → gsubs t !! Z.to_nat j = Some None →
  size_inv chk h t p n ps lss j s → size_inv chk h t p n ps lss (j + 1) s.
Proof.
  intros Hj Hot (Hp & Hs & Ht). unfold size_inv. replace (Z.to_nat (j + 1)) with (S (Z.to_nat j)) by lia.
  rewrite !(take_S_r _ _ None), !sum_subs_snoc, !Z.add_0_r by done. split_and!; [done| |done].
  rewrite <- (take_S_r _ _ None), recount_step with (ot := None) by done. rewrite list_insert_id; [done|].
  rewrite lookup_app_r; rewrite length_map, length_take; [|lia].
  rewrite lookup_drop. replace (Z.to_nat j + _)%nat with (Z.to_nat j) by lia. done.
Qed.
Lemma size_body_ok fuel chk h t p n ps lss j s :
  0 ≤ j < zlen (gsubs t) → NoDup (p :: concat lss) →
  subnodes n = Some (Some <$> ps) →
  (∀ tc, Some tc ∈ gsubs t → ∀ h par p ls, shape chk (nodes h) par p tc ls → NoDup ls →
     wp (node_get_size_rec fuel (Some p)) h (λ _, recounted chk par p tc ls h)) →
  size_inv chk h t p n ps lss j s →
  wp (x ← read_subnode (Some p) j;
      match x with
      | None => mret tt
      | Some _ =>
          y ← load x;
          _ ← (if decide (gid t = id y)
               then store (Some p) (λ n, set_recursion_edge_size (u64 (recursion_edge_size n + 1)) n)
               else mret tt);
          _ ← node_get_size_rec fuel x;
          y ← load x;
          store (Some p) (λ n, set_non_term_size (u64 (non_term_size n + non_term_size y))
            (set_recursion_edge_size (u64 (recursion_edge_size n + recursion_edge_size y)) n))
      end) s (λ _ s', size_inv chk h t p n ps lss (j + 1) s').
Proof.
  intros Hj Hnd Harr IH Hinv. pose proof Hinv as (Hp & Hs & Ht).
  apply NoDup_cons in Hnd as [Hpl Hnd].
  destruct (shapes_length _ _ _ _ _ _ Hs) as [Hlen Hlen2].
  destruct (shapes_pick _ _ _ _ _ _ (Z.to_nat j) Hs) as (o & ot & l & Ho & Hot & Hl & Hsh).
  { rewrite length_app, length_map, length_take, length_drop. lia. }
  rewrite lookup_app_r in Hot; rewrite length_map, length_take in *; [|lia].
  rewrite lookup_drop in Hot. replace (Z.to_nat j + _)%nat with (Z.to_nat j) in Hot by lia.
  apply wp_bind. eapply wp_read_subnode; [done|done|done|].
  destruct o as [c|], ot as [tc|]; simpl in Hsh; try done; [|by apply wp_ret, size_inv_null].
  destruct (NoDup_concat_lookup _ _ _ Hnd Hl) as [Hndl _].
  assert (∀ q, q ∈ l → q ∈ concat lss) as Hlin by (intros q; by eapply concat_lookup_elem).
  assert (p ∉ l) as Hpnl by (intros Hin; by apply Hpl, Hlin).
  pose proof Hsh as (nc & psc & lsc & Hc & Hisc & _ & _)%shape_unfold.
  apply wp_bind. eapply wp_load; [done|]. apply wp_bind.
  set (np := set_non_term_size _ _) in Hp. set (e := if decide (gid t = gid tc) then 1 else 0).
  apply (wp_mono _ _ (λ _ s1, s1 = set_nodes (<[p := set_recursion_edge_size (u64 (recursion_edge_size np + e)) np]> (nodes s)) s)).
  { rewrite (is_id _ _ _ _ _ Hisc). unfold e. case_decide.
    - eapply wp_store; [done|]. done.
    - apply wp_ret. rewrite Z.add_0_r. unfold np at 2. simpl. autorewrite with wrap.
      replace (set_recursion_edge_size _ np) with np by done. rewrite insert_id by done. by destruct s. }
  intros [] s1 ->.
  apply wp_bind. eapply wp_mono; [eapply IH; [by eapply list_elem_of_lookup_2| |done]|].
  { eapply shape_frame; [|done]. intros q Hq. simpl. by rewrite lookup_insert_ne by (by intros ->). }
  intros [] s2 [Hsh2 Ht2]. pose proof Hsh2 as (nc2 & ? & ? & Hc2 & Hisc2 & _ & _)%shape_unfold.
  apply wp_bind. eapply wp_load; [done|]. eapply wp_store.
  { rewrite (to_same _ _ _ Ht2) by done. simpl. apply lookup_insert_eq. }
  unfold size_inv. replace (Z.to_nat (j + 1)) with (S (Z.to_nat j)) by lia. split_and!.
  - simpl. rewrite lookup_insert_eq. f_equal. unfold np. simpl.
    rewrite (is_nts _ _ _ _ _ Hisc2), (is_res _ _ _ _ _ Hisc2), recount_eq. simpl.
    rewrite !(take_S_r _ _ (Some tc)), !sum_subs_snoc by done. autorewrite with wrap.
    unfold set_non_term_size, set_recursion_edge_size; simpl. rewrite <- !Z.add_assoc, wrap_add_l.
    by replace (edge_weight (gid t) tc) with (e + count_edges tc).
  - rewrite recount_step with (ot := Some tc) by done. simpl.
    eapply shapes_update; [done|done|done|done| |].
    + intros q Hq Hql. simpl. rewrite lookup_insert_ne by (by intros ->).
      rewrite (to_same _ _ _ Ht2) by done. simpl. by rewrite lookup_insert_ne by (by intros ->).
    + simpl. eapply shape_frame; [|done]. intros q Hq. by rewrite lookup_insert_ne by (by intros ->).
  - eapply touched_trans; [exact Ht| |by intros q [Hq|Hq]; exact Hq].
    eapply (touched_trans _ [p] (l ++ [p])); [eapply touched_store; left| |].
    + eapply touched_trans; [exact Ht2|eapply (touched_store [p]); left|]. intros q Hq. by apply elem_of_app.
    + intros q. rewrite elem_of_app, !list_elem_of_singleton, elem_of_cons. naive_solver.
Qed.

Lemma node_get_size_rec_ok t : ∀ fuel h chk par p ls,
  shape chk (nodes h) par p t ls → NoDup ls → (gheight t ≤ fuel)%nat →
  wp (node_get_size_rec fuel (Some p)) h (λ _, recounted chk par p t ls h).
Proof.
  induction t as [i r v a b subs IH] using gtree_ind'. intros fuel h chk par p ls Hs Hnd Hf.
  apply shape_unfold in Hs as (n & ps & lss & Hp & His & -> & Hsub). set (t := GNode i r v a b subs) in *.
  destruct fuel as [|fuel]; [cbn in Hf; lia|]. simpl node_get_size_rec.
  apply wp_bind. eapply wp_load; [done|]. rewrite (is_id _ _ _ _ _ His).
  destruct (shapes_length _ _ _ _ _ _ Hsub) as [Hlen _]. case_decide as Hid.
  - eapply wp_store; [done|]. split; [|apply touched_store; left].
    pose proof (is_term _ _ _ _ _ His Hid) as Hnil. simpl in Hnil, Hid.
    rewrite recount_eq. unfold t. simpl. rewrite Hnil, !decide_True by done.
    apply shape_unfold. eexists _, [], []. cbn [gsubs t] in Hsub. rewrite Hnil in Hsub. inversion Hsub; subst ps lss.
    split_and!; [simpl; apply lookup_insert_eq| |done|constructor]. destruct His; by split.
  - apply wp_bind. eapply wp_store; [done|]. rewrite (is_count _ _ _ _ _ His), Nat2Z.id.
    eapply wp_mono.
    { apply (wp_for_loop (size_inv chk h t p n ps lss)).
      - split_and!; simpl; [apply lookup_insert_eq| |apply touched_store; left].
        eapply shapes_frame; [|done]. intros q Hq. apply NoDup_cons in Hnd as [Hpl _].
        by rewrite lookup_insert_ne by (by intros ->).
      - intros j s Hj Hinv. eapply size_body_ok; try done; [lia| |].
        + eapply is_subs; [done|]. intros ->. simpl in Hj. lia.
        + intros tc Htc h' par' p' ls' Hsh' Hnd'. eapply Forall_forall in IH; [|done]. eapply IH; [done|done|].
          apply elem_of_gsubs_height in Htc. lia. }
    intros [] s (Hps & Hss & Hts). split; [|done]. rewrite Z.add_0_l, Nat2Z.id in *.
    rewrite take_ge, ?drop_ge, ?app_nil_r in * by lia.
    apply shape_unfold. eexists _, ps, lss. split_and!; [done| |done|by rewrite recount_eq].
    rewrite recount_eq, count_nt_eq, count_edges_eq by done. destruct His; split; simpl; try done.
Qed.

Lemma node_get_size_ok h chk par p t ls :
  shape chk (nodes h) par p t ls → NoDup ls →
  wp (node_get_size (Some p)) h (λ _, recounted chk par p t ls h).
Proof.
  intros Hs Hnd. unfold node_get_size, with_fuel. eapply node_get_size_rec_ok; [done|done|].
  etrans; [by eapply shape_fuel|]. lia.
Qed.

(** [node_get_size] leaves in every node of a well-formed tree the exact
    number (modulo 2^64) of non-terminals and of recursion edges at and below
    it, keeps the tree otherwise unchanged and touches no other node. *)
Theorem node_get_size_correct h chk par p t ls :
  shape chk (nodes h) par p t ls → NoDup ls →
  ∃ h', node_get_size (Some p) h = Ret (tt, h') ∧
    shape chk (nodes h') par p (recount t) ls ∧ strip (recount t) = strip t ∧
    (∀ q, q ∉ ls → nodes h' !! q = nodes h !! q) ∧ trees h' = trees h.
Proof.
  intros Hs Hnd. pose proof (node_get_size_ok _ _ _ _ _ _ Hs Hnd) as Hw.
  apply wp_Ret in Hw as ([] & h' & Hr & Hsh & []). exists h'. split_and!; try done. apply strip_recount.
Qed.
End GetSize.

Lemma node_get_size_correct_witness :
  ∃ h', node_get_size (Some 1%positive) sample_heap = Ret (tt, h') ∧
    shape true (nodes h') None 1 (recount sample_tree) sample_locs ∧
    strip (recount sample_tree) = strip sample_tree ∧
    (∀ q, q ∉ sample_locs → nodes h' !! q = nodes sample_heap !! q) ∧ trees h' = trees sample_heap.
Proof.
  apply (node_get_size_correct sample_heap true None 1 sample_tree sample_locs).
  - apply sample_shape.
  - apply sample_NoDup.
Defined.
