(* ===== verification/TreeText.v ===== *)
(** * TreeText: what the traversals of tree.c produce

    [tree_to_buf] writes the yield of the tree, [tree_serialize] its serialised
    form, and the two list builders enumerate non-terminals and recursion edges
    in pre-order. *)

From S2P Require Import Prelude Buffer Utils Tree TreeSpec TreeNodes TreeSizes.

(** ** Loops over the subnodes of a node that is not modified *)

Lemma wp_sub_loop `{Host} chk m p n ps subs lss (f : Z → ptr → M heap unit) (P : nat → heap → Prop) s :
  (∀ j s, P j s → nodes s !! p = Some n) → (ps ≠ [] → subnodes n = Some (Some <$> ps)) →
  shapes chk m (Some p) ps subs lss → P 0%nat s →
  (∀ j o ot l s, ps !! j = Some o → subs !! j = Some ot → lss !! j = Some l →
     shape_opt chk m (Some p) o ot l → P j s → wp (f (Z.of_nat j) o) s (λ _, P (S j))) →
  wp (for_loop (length ps) 0 (λ i, x ← read_subnode (Some p) i; f i x)) s (λ _, P (length ps)).
Proof.
  intros Hn Harr Hsub HP Hf.
  assert (wp (for_loop (length ps) 0 (λ i, x ← read_subnode (Some p) i; f i x)) s
    (λ _ s', (λ i s, P (Z.to_nat i) s) (0 + zlen ps) s')) as Hw.
  { apply (wp_for_loop (λ i s, P (Z.to_nat i) s)); [done|]. intros j s' Hj HPj.
    destruct (shapes_length _ _ _ _ _ _ Hsub) as [Hlen _].
    destruct (shapes_pick _ _ _ _ _ _ (Z.to_nat j) Hsub) as (o & ot & l & Ho & Hot & Hl & Hsh); [lia|].
    apply wp_bind. eapply wp_read_subnode; [by eapply Hn|apply Harr; by intros ->|done|].
    specialize (Hf _ _ _ _ _ Ho Hot Hl Hsh HPj). rewrite Z2Nat.id in Hf by lia.
    eapply wp_mono; [exact Hf|]. intros [] s2 HP2. by replace (Z.to_nat (j + 1)) with (S (Z.to_nat j)) by lia. }
  rewrite Z.add_0_l in Hw. simpl in Hw. by rewrite Nat2Z.id in Hw.
Qed.

(** ** The yield *)

Definition opt_list {A} (f : gtree → list A) (o : option gtree) : list A :=
  match o with Some t => f t | None => [] end.

(** The text of a tree: the values of its leaves, from left to right. *)
Fixpoint yield (t : gtree) : list Z :=
  let 'GNode _ _ v _ _ subs := t in
  match subs with [] => v | _ => flat_map (λ o, match o with Some t => yield t | None => [] end) subs end.

Lemma yield_eq t : gsubs t ≠ [] → yield t = flat_map (opt_list yield) (gsubs t).
Proof. destruct t as [i r v a b [|o subs]]; [done|]. done. Qed.

Lemma flat_map_take_S {A B} (f : A → list B) l j x :
  l !! j = Some x → flat_map f (take (S j) l) = flat_map f (take j l) ++ f x.
Proof. intros Hj. rewrite (take_S_r _ _ x) by done. rewrite flat_map_app. simpl. by rewrite app_nil_r. Qed.

(** A buffer with [v] at its start and [len] bytes in use. *)
Definition holds (b : buf) (size len : Z) (v : list Z) : Prop :=
  buf_ok b size ∧ len = zlen v ∧ (Some <$> v) `prefix_of` default [] b.

Definition text_is (x : tree) (v : list Z) : Prop := holds (data_buf x) (data_size x) (data_len x) v.
Definition ser_is (x : tree) (v : list Z) : Prop := holds (ser_buf x) (ser_size x) (ser_len x) v.

(** [h'] is [h] with the record of tree [T] changed from [x] to [x'], and more
    requests made to the host. *)
Record tree_step (T : loc) (x x' : tree) (h h' : heap) : Prop := {
  ts_old : trees h !! T = Some x;
  ts_new : trees h' !! T = Some x';
  ts_other : ∀ t, t ≠ T → trees h' !! t = trees h !! t;
  ts_nodes : nodes h' = nodes h;
  ts_files : files h' = files h;
  ts_next : (next_loc h ≤ next_loc h')%positive }.

Lemma tree_step_refl T x h : trees h !! T = Some x → tree_step T x x h h.
Proof. by split. Qed.

Lemma tree_step_trans T x y z h1 h2 h3 : tree_step T x y h1 h2 → tree_step T y z h2 h3 → tree_step T x z h1 h3.
Proof.
  intros [A1 A2 A3 A4 A5 A6] [B1 B2 B3 B4 B5 B6]. split; try done; try congruence; [|lia].
  intros t Ht. rewrite B3 by done. by apply A3.
Qed.

Lemma tree_step_store T x x' h : trees h !! T = Some x → tree_step T x x' h (set_trees (<[T := x']> (trees h)) h).
Proof. intros Hx. split; simpl; try done; [apply lookup_insert_eq|]. intros. by rewrite lookup_insert_ne. Qed.

Lemma tree_step_bump T x x' h h' : tree_step T x x' h h' → tree_step T x x' h (bump h').
Proof. intros []. split; try done. simpl. lia. Qed.

(** The fields other than the text, and other than the serialisation. *)
Definition text_only (x x' : tree) : Prop :=
  root x' = root x ∧ ser_buf x' = ser_buf x ∧ ser_size x' = ser_size x ∧ ser_len x' = ser_len x ∧
  non_terminal_node_list x' = non_terminal_node_list x ∧ recursion_edge_list x' = recursion_edge_list x.
Definition ser_only (x x' : tree) : Prop :=
  root x' = root x ∧ data_buf x' = data_buf x ∧ data_size x' = data_size x ∧ data_len x' = data_len x ∧
  non_terminal_node_list x' = non_terminal_node_list x ∧ recursion_edge_list x' = recursion_edge_list x.

Lemma text_only_trans x y z : text_only x y → text_only y z → text_only x z.
Proof. unfold text_only. intuition congruence. Qed.
Lemma ser_only_trans x y z : ser_only x y → ser_only y z → ser_only x z.
Proof. unfold ser_only. intuition congruence. Qed.

Section Text.
Context `{Host} (Hmem : never_refuses).

(** [maybe_grow] on a buffer in use. *)
Lemma wp_grow b size len v needed h (Q : buf * Z → heap → Prop) :
  holds b size len v → 0 < needed < 2 ^ 64 →
  (∀ bs size' h', (h' = h ∨ h' = bump h) → holds (Some bs) size' len v → needed ≤ size' → Q (Some bs, size') h') →
  wp (grow b size needed) h Q.
Proof.
  intros (Hb & Hl & Hv) Hn HQ.
  destruct (maybe_grow_ok b size needed Hb ltac:(lia)) as [(bs & size' & Hg & Hok & Hge & Hpre) _].
  assert (holds (Some bs) size' len v) as Hh.
  { split; [done|]. split; [done|]. simpl. etrans; [exact Hv|]. apply Hpre. lia. }
  unfold grow. destruct (must_grow size needed).
  - apply wp_bind, wp_request; [done|]. apply wp_ret. simpl negb. rewrite Hg. apply HQ; auto.
  - apply wp_ret. rewrite Hg. apply HQ; auto.
Qed.

(** Copying a value behind the [len] bytes in use. *)
Lemma wp_append_bytes bs size len v src u h (Q : list membyte → heap → Prop) :
  holds (Some bs) size len v → len + zlen u ≤ size →
  (u ≠ [] → ∃ s, src = Some s ∧ (Some <$> u) `prefix_of` s) →
  (∀ bs', holds (Some bs') size (len + zlen u) (v ++ u) → Q bs' h) →
  wp (append_bytes bs len src (zlen u)) h Q.
Proof.
  intros (Hb & Hl & Hv) Hfit Hsrc HQ. unfold append_bytes. case_decide as Hz.
  - assert (u = []) as -> by (destruct u; [done|simpl in Hz; lia]). apply wp_ret. apply HQ.
    rewrite app_nil_r, Z.add_0_r. done.
  - destruct Hsrc as (s & -> & Hs); [by intros ->|]. rewrite <- (length_fmap (Some (A:=Z)) u) at 1.
    rewrite copy_bytes_prefix by done. unfold buf_ok in Hb. simpl in Hb, Hv.
    destruct (write_bytes_extend bs (Some <$> v) len (Some <$> u)) as (bs' & -> & Hp & Hlen).
    { done. } { by rewrite length_fmap. } { rewrite length_fmap. lia. }
    apply wp_ret. apply HQ. split; [unfold buf_ok; simpl; lia|]. split; [rewrite length_app; lia|].
    simpl. by rewrite fmap_app.
Qed.

(** What appending [u] to the text of tree [T] leaves. *)
Definition appended (T : loc) (x : tree) (v u : list Z) (h h' : heap) : Prop :=
  ∃ x', tree_step T x x' h h' ∧ text_only x x' ∧ text_is x' (v ++ u).

Lemma node_to_buf_leaf chk par t ps n T x v p fuel h :
  nodes h !! p = Some n → node_is chk par t ps n → ps = [] → trees h !! T = Some x → text_is x v →
  zlen v + zlen (gval t) < 2 ^ 64 →
  wp (node_to_buf_rec (S fuel) (Some T) (Some p)) h (λ _, appended T x v (gval t) h).
Proof.
  intros Hp His -> Hx Ht Hlt. simpl node_to_buf_rec. apply wp_bind. eapply wp_load; [done|].
  rewrite (is_count _ _ _ _ _ His), (is_val_len _ _ _ _ _ His), decide_True by done. case_decide as Hz.
  - apply wp_ret. exists x. split; [by apply tree_step_refl|]. split; [done|].
    assert (gval t = []) as -> by (destruct (gval t); [done|simpl in Hz; lia]). by rewrite app_nil_r.
  - apply wp_bind. eapply wp_load_tree; [done|]. pose proof Ht as (_ & Hlen & _). rewrite wrap_small by lia.
    apply wp_bind. eapply wp_grow; [exact Ht|lia|]. intros bs size' h' Hh' Hh Hge.
    assert (trees h' !! T = Some x) as Hx' by (by destruct Hh' as [->| ->]).
    assert (tree_step T x x h h') as Hstep0.
    { destruct Hh' as [->| ->]; [by apply tree_step_refl|by apply tree_step_bump, tree_step_refl]. }
    apply wp_bind. eapply wp_store_tree; [done|]. cbn [fst snd]. apply wp_bind.
    eapply wp_append_bytes; [exact Hh|lia|by apply (is_val _ _ _ _ _ His)|]. intros bs' Hh2.
    eapply wp_store_tree; [simpl; apply lookup_insert_eq|]. simpl.
    eexists. split; [eapply tree_step_trans; [exact Hstep0|]|].
    { rewrite insert_insert_eq. exact (tree_step_store T x _ h' Hx'). }
    split; [by destruct x|]. simpl. rewrite wrap_small by lia. exact Hh2.
Qed.
Lemma appended_trans T x v u w h h1 h2 x1 :
  tree_step T x x1 h h1 → text_only x x1 → text_is x1 (v ++ u) → appended T x1 (v ++ u) w h1 h2 →
  appended T x v (u ++ w) h h2.
Proof.
  intros S1 O1 T1 (x2 & S2 & O2 & T2). exists x2. split; [by eapply tree_step_trans|].
  split; [by eapply text_only_trans|]. by rewrite app_assoc.
Qed.

Lemma zlen_flat_map_take {A} (f : A → list Z) l j : zlen (flat_map f (take j l)) ≤ zlen (flat_map f l).
Proof. rewrite <- (take_drop j l) at 2. rewrite flat_map_app, length_app. lia. Qed.

Lemma node_to_buf_rec_ok t : ∀ fuel h chk par p ls T x v,
  shape chk (nodes h) par p t ls → (gheight t ≤ fuel)%nat → trees h !! T = Some x → text_is x v →
  zlen v + zlen (yield t) < 2 ^ 64 →
  wp (node_to_buf_rec fuel (Some T) (Some p)) h (λ _, appended T x v (yield t) h).
Proof.
  induction t as [i r w a b subs IH] using gtree_ind'. intros fuel h chk par p ls T x v Hs Hf Hx Ht Hlt.
  apply shape_unfold in Hs as (n & ps & lss & Hp & His & _ & Hsub). set (t := GNode i r w a b subs) in *.
  destruct fuel as [|fuel]; [cbn in Hf; lia|]. destruct (shapes_length _ _ _ _ _ _ Hsub) as [Hlen _].
  destruct (decide (subs = [])) as [Hnil|Hne].
  { assert (ps = []) as -> by (subst subs; simpl in *; by destruct ps).
    assert (yield t = gval t) as Hy by (unfold t; by subst subs). rewrite Hy in *. by eapply node_to_buf_leaf. }
  pose proof (yield_eq t Hne) as Hy. simpl node_to_buf_rec. apply wp_bind. eapply wp_load; [done|].
  assert (ps ≠ []) as Hps by (intros ->; by destruct subs).
  rewrite (is_count _ _ _ _ _ His). rewrite decide_False by (destruct ps; [done|simpl; lia]). rewrite Nat2Z.id.
  eapply wp_mono.
  { eapply (wp_sub_loop chk (nodes h) p n ps subs lss (λ _ o, node_to_buf_rec fuel (Some T) o)
      (λ j s, appended T x v (flat_map (opt_list yield) (take j subs)) h s)); [|by eapply is_subs|done| |].
    - intros j s (x' & Hstep & _). by rewrite (ts_nodes _ _ _ _ _ Hstep).
    - exists x. rewrite app_nil_r. split; [by apply tree_step_refl|done].
    - intros j o ot l s Ho Hot Hl Hsh (x' & Hstep & Honly & Htext).
      rewrite (flat_map_take_S _ _ _ ot) by done.
      destruct o as [c|], ot as [tc|]; simpl in Hsh; try done.
      + eapply wp_mono.
        { eapply Forall_forall in IH; [|by eapply list_elem_of_lookup_2]. eapply IH.
          - by rewrite (ts_nodes _ _ _ _ _ Hstep).
          - apply list_elem_of_lookup_2 in Hot. pose proof (elem_of_gsubs_height t tc Hot). lia.
          - apply Hstep.
          - exact Htext.
          - pose proof (zlen_flat_map_take (opt_list yield) subs (S j)) as Hz.
            rewrite (flat_map_take_S _ _ _ (Some tc)) in Hz by done. rewrite Hy in Hlt.
            unfold t in Hlt. simpl gsubs in Hlt. simpl (opt_list yield (Some tc)) in Hz.
            rewrite !length_app in *. lia. }
        intros [] s2 Happ. by eapply appended_trans.
      + simpl. rewrite app_nil_r. destruct fuel; apply wp_ret; by exists x'. }
  intros [] s Happ. rewrite take_ge in Happ by (unfold t in Hlen; simpl in Hlen; lia). by rewrite Hy.
Qed.

Lemma tree_to_buf_ok h T x p chk par t ls :
  trees h !! T = Some x → root x = Some p → shape chk (nodes h) par p t ls → NoDup ls →
  buf_ok (data_buf x) (data_size x) → zlen (yield t) < 2 ^ 64 →
  wp (tree_to_buf (Some T)) h (λ _, appended T x [] (yield t) h).
Proof.
  intros Hx Hroot Hs Hnd Hb Hlt. unfold tree_to_buf. apply wp_bind. eapply wp_load_tree; [done|]. apply wp_bind.
  eapply (wp_grow _ _ 0 []); [|lia|].
  { split; [done|]. split; [done|]. apply prefix_nil. }
  intros bs size' h1 Hh1 Hh _. assert (trees h1 !! T = Some x) as Hx1 by (by destruct Hh1 as [->| ->]).
  apply wp_bind. eapply wp_store_tree; [done|]. cbn [fst snd].
  set (x1 := set_data_len 0 _). set (h2 := set_trees _ h1).
  assert (tree_step T x x1 h h2) as Hstep.
  { eapply (tree_step_trans T x x); [|by apply tree_step_store].
    destruct Hh1 as [->| ->]; [by apply tree_step_refl|by apply tree_step_bump, tree_step_refl]. }
  unfold with_fuel. change (wp (node_to_buf_rec (S (size (nodes h2))) (Some T) (root x)) h2
    (λ _, appended T x [] (yield t) h)). rewrite Hroot.
  assert (shape chk (nodes h2) par p t ls) as Hs2 by (by rewrite (ts_nodes _ _ _ _ _ Hstep)).
  eapply wp_mono; [eapply (node_to_buf_rec_ok _ _ _ _ _ _ _ T x1 []); [exact Hs2| | |exact Hh|done]|].
  - etrans; [by eapply shape_fuel|]. lia.
  - apply Hstep.
  - intros [] h3 (x3 & S3 & O3 & T3). exists x3. split; [by eapply tree_step_trans|]. split; [|done].
    eapply text_only_trans; [|done]. by destruct x.
Qed.

(** [tree_to_buf] of a well-formed tree leaves in the text buffer exactly
    the values of the leaves from left to right, with [data_len] their length,
    and changes nothing else. *)
Theorem tree_to_buf_correct h T x p chk par t ls :
  trees h !! T = Some x → root x = Some p → shape chk (nodes h) par p t ls → NoDup ls →
  buf_ok (data_buf x) (data_size x) → zlen (yield t) < 2 ^ 64 →
  ∃ h' x', tree_to_buf (Some T) h = Ret (tt, h') ∧ tree_step T x x' h h' ∧ text_only x x' ∧
    text_is x' (yield t) ∧ read_bytes (default [] (data_buf x')) (data_len x') = Some (yield t).
Proof.
  intros Hx Hroot Hs Hnd Hb Hlt.
  pose proof (tree_to_buf_ok _ _ _ _ _ _ _ _ Hx Hroot Hs Hnd Hb Hlt) as Hw.
  apply wp_Ret in Hw as ([] & h' & Hr & x' & S' & O' & T'). exists h', x'. simpl in T'.
  split; [done|]. split; [done|]. split; [done|]. split; [done|].
  destruct T' as (_ & -> & Hp). by apply read_bytes_prefix.
Qed.
End Text.

Lemma tree_to_buf_correct_witness :
  ∃ h' x', tree_to_buf (H := obliging) (Some 9%positive) sample_heap = Ret (tt, h') ∧
    tree_step 9 (tree_at 1) x' sample_heap h' ∧ text_only (tree_at 1) x' ∧ text_is x' (yield sample_tree) ∧
    read_bytes (default [] (data_buf x')) (data_len x') = Some (yield sample_tree).
Proof.
  apply (tree_to_buf_correct (H := obliging) (λ _, eq_refl) sample_heap 9 (tree_at 1) 1 true None sample_tree sample_locs).
  - reflexivity.
  - reflexivity.
  - apply sample_shape.
  - apply sample_NoDup.
  - reflexivity.
  - vm_compute. reflexivity.
Defined.
