(* ===== verification/TreePaths.v ===== *)
(** * TreePaths: a node inside a tree, and the tree around it

    The mutations of tree_mutation.c and tree_trimming.c exchange one subtree for
    another by rewriting one entry of a subnode array.  [focus] describes a node
    below the root together with the surrounding tree, so that the effect of
    such a rewrite is read off as [gput]. *)

From S2P Require Import Prelude Buffer Utils Tree TreeSpec TreeNodes.

(** ** Paths in values *)

Definition set_gsubs (subs : list (option gtree)) (t : gtree) : gtree :=
  GNode (gid t) (grule t) (gval t) (gres t) (gnts t) subs.

(** The subtree at path [π], a list of subnode offsets from the root. *)
Fixpoint gget (t : gtree) (π : list nat) : option gtree :=
  match π with
  | [] => Some t
  | j :: π => match gsubs t !! j with Some (Some s) => gget s π | _ => None end
  end.

(** The tree with the subtree at [π] exchanged for [u]. *)
Fixpoint gput (t : gtree) (π : list nat) (u : gtree) : gtree :=
  match π with
  | [] => u
  | j :: π => match gsubs t !! j with
              | Some (Some s) => set_gsubs (<[j := Some (gput s π u)]> (gsubs t)) t
              | _ => t
              end
  end.

(** The node that the path [π] leads to. *)
Fixpoint loc_at (m : gmap loc node) (p : loc) (π : list nat) : option loc :=
  match π with
  | [] => Some p
  | j :: π => n ← m !! p; arr ← subnodes n;
              match take (Z.to_nat (subnode_count n)) arr !! j with Some (Some (Some q)) => loc_at m q π | _ => None end
  end.

Lemma gget_gput t π u v : gget t π = Some v → gget (gput t π u) π = Some u.
Proof.
  revert t. induction π as [|j π IH]; intros t; [done|]. simpl.
  destruct (gsubs t !! j) as [[s|]|] eqn:Hj; try done. intros Hv. simpl.
  rewrite list_lookup_insert_eq by (by eapply lookup_lt_Some). by apply IH.
Qed.

Lemma gput_gget t π v : gget t π = Some v → gput t π v = t.
Proof.
  revert t. induction π as [|j π IH]; intros t; [by intros [= ->]|]. simpl.
  destruct (gsubs t !! j) as [[s|]|] eqn:Hj; try done. intros Hv. rewrite IH by done.
  rewrite list_insert_id by done. by destruct t.
Qed.

Lemma gget_app t π π' : gget t (π ++ π') = (u ← gget t π; gget u π').
Proof.
  revert t. induction π as [|j π IH]; intros t; [done|]. simpl.
  destruct (gsubs t !! j) as [[s|]|]; [apply IH|done|done].
Qed.

Lemma gput_app t π π' u v : gget t π = Some v → gput t (π ++ π') u = gput t π (gput v π' u).
Proof.
  revert t. induction π as [|j π IH]; intros t; [by intros [= ->]|]. simpl.
  destruct (gsubs t !! j) as [[s|]|]; [|done|done]. intros Hv. by rewrite IH.
Qed.

Lemma gid_gput t π u v : gget t π = Some v → gid u = gid v → gid (gput t π u) = gid t.
Proof.
  destruct π as [|j π]; simpl; [by intros [= ->]|]. by destruct (gsubs t !! j) as [[s|]|].
Qed.

(** A test on every subtree. *)
Fixpoint gall (P : gtree → bool) (t : gtree) : bool :=
  P t && let 'GNode _ _ _ _ _ subs := t in
         forallb (λ o, match o with Some s => gall P s | None => true end) subs.

Lemma gall_gget P t π v : gall P t = true → gget t π = Some v → P v = true.
Proof.
  revert t. induction π as [|j π IH]; intros t Ht.
  - intros [= <-]. destruct t. simpl in Ht. by apply andb_true_iff in Ht as [? _].
  - simpl. destruct (gsubs t !! j) as [[s|]|] eqn:Hj; [|done|done]. apply IH. destruct t. simpl in *.
    apply andb_true_iff in Ht as [_ Ht]. rewrite forallb_forall in Ht.
    apply (Ht (Some s)). apply list_elem_of_In. by eapply list_elem_of_lookup_2.
Qed.

(** ** Lists of node sets *)

Lemma concat_delete_Permutation {A} (lss : list (list A)) j l :
  lss !! j = Some l → concat lss ≡ₚ l ++ concat (delete j lss).
Proof.
  revert j. induction lss as [|l' lss IH]; intros [|j] Hj; simpl in *; [done|done|by simplify_eq|].
  rewrite (IH _ Hj). by rewrite Permutation_app_swap_app.
Qed.

Lemma concat_insert_Permutation {A} (lss : list (list A)) j l l' :
  lss !! j = Some l → concat (<[j := l']> lss) ≡ₚ l' ++ concat (delete j lss).
Proof.
  revert j. induction lss as [|l0 lss IH]; intros [|j] Hj; simpl in *; [done|done|done|].
  rewrite (IH _ Hj). by rewrite Permutation_app_swap_app.
Qed.

(** ** Exchanging one entry of a subnode array *)

Lemma shapes_insert chk m m' par ps subs lss j l o' ot' l' :
  shapes chk m par ps subs lss → lss !! j = Some l →
  (∀ x, x ∈ concat (delete j lss) → m' !! x = m !! x) → shape_opt chk m' par o' ot' l' →
  shapes chk m' par (<[j := o']> ps) (<[j := ot']> subs) (<[j := l']> lss).
Proof.
  intros Hs. revert j. induction Hs as [|o ot l0 ps subs lss Ho Hs IH]; intros [|j] Hj Hm Hnew; simpl in *; try done.
  - constructor; [done|]. by eapply shapes_frame.
  - constructor.
    + eapply shape_opt_frame; [|done]. intros q Hq. apply Hm, elem_of_app. by left.
    + apply IH; try done. intros q Hq. apply Hm, elem_of_app. by right.
Qed.

(** A subnode occurs in one entry only. *)
Lemma shapes_first chk m par ps subs lss i j q :
  shapes chk m par ps subs lss → NoDup (concat lss) →
  ps !! i = Some (Some q) → ps !! j = Some (Some q) → i = j.
Proof.
  intros Hs. revert i j. induction Hs as [|o ot l ps subs lss Ho Hs IH]; intros i j Hnd Hi Hj; [done|].
  simpl in Hnd. apply NoDup_app in Hnd as (_ & Hdis & Hnd).
  assert (∀ k, o = Some q → ps !! k = Some (Some q) → False) as Habs.
  { intros k -> Hk. apply lookup_lt_Some in Hk as Hlt. destruct (shapes_length _ _ _ _ _ _ Hs) as [Hl _].
    destruct (shapes_pick _ _ _ _ _ _ k Hs) as (o' & ot' & l' & Ho' & _ & Hl' & Hsh); [lia|].
    simplify_eq. destruct ot as [t|], ot' as [t'|]; simpl in *; try done.
    apply shape_head in Ho, Hsh. apply (Hdis q); [done|]. by eapply concat_lookup_elem. }
  destruct i as [|i], j as [|j]; simpl in *; [done|simplify_eq; by edestruct Habs..|]. f_equal. by eapply IH.
Qed.

(** ** A node below the root *)

(** Node [q] is the root of the subtree [u] at path [π] of the tree [t] rooted at
    [p]; it hangs at entry [i] of the subnode array [ps] of its parent [pp].  The
    nodes of the tree are those of [u], [lq], and the others, [rest]. *)
Record focus (chk : bool) (m : gmap loc node) (par : ptr) (p : loc) (t : gtree) (ls : list loc)
    (π : list nat) (pp : loc) (npp : node) (ps : list ptr) (i : nat)
    (q : loc) (u : gtree) (lq rest : list loc) : Prop := {
  f_get : gget t π = Some u;
  f_below : π ≠ [];
  f_loc : loc_at m p π = Some q;
  f_shape : shape chk m (Some pp) q u lq;
  f_perm : ls ≡ₚ lq ++ rest;
  f_parent : pp ∈ rest;
  f_root : p ∈ rest;
  f_node : m !! pp = Some npp;
  f_id : id npp ≠ 0;
  f_subs : subnodes npp = Some (Some <$> ps);
  f_count : subnode_count npp = zlen ps;
  f_at : ps !! i = Some (Some q);
  f_first : ∀ j, ps !! j = Some (Some q) → j = i;
  f_plug : ∀ m' q' u' lq',
    (∀ x, x ∈ rest → x ≠ pp → m' !! x = m !! x) →
    m' !! pp = Some (set_subnodes (Some (<[i := Some (Some q')]> (Some <$> ps))) npp) →
    shape chk m' (Some pp) q' u' lq' →
    ∃ ls', shape chk m' par p (gput t π u') ls' ∧ ls' ≡ₚ lq' ++ rest }.

#[global] Arguments f_get {_ _ _ _ _ _ _ _ _ _ _ _ _ _ _} _.
#[global] Arguments f_loc {_ _ _ _ _ _ _ _ _ _ _ _ _ _ _} _.
#[global] Arguments f_shape {_ _ _ _ _ _ _ _ _ _ _ _ _ _ _} _.
#[global] Arguments f_perm {_ _ _ _ _ _ _ _ _ _ _ _ _ _ _} _.
#[global] Arguments f_plug {_ _ _ _ _ _ _ _ _ _ _ _ _ _ _} _.
#[global] Arguments f_node {_ _ _ _ _ _ _ _ _ _ _ _ _ _ _} _.
#[global] Arguments f_subs {_ _ _ _ _ _ _ _ _ _ _ _ _ _ _} _.

Lemma node_is_gput chk par t ps n i (q : loc) s :
  node_is chk par t ps n → gid t ≠ 0 → ps ≠ [] →
  node_is chk par (set_gsubs s t) (<[i := Some q]> ps)
    (set_subnodes (Some (<[i := Some (Some q)]> (Some <$> ps))) n).
Proof.
  intros [] Hid Hne. split; simpl; try done.
  - by rewrite length_insert.
  - intros _. by rewrite list_fmap_insert.
  - by rewrite length_insert.
Qed.

Lemma node_is_set_gsubs chk par t ps n s : node_is chk par t ps n → gid t ≠ 0 → node_is chk par (set_gsubs s t) ps n.
Proof. intros [] Hid. by split. Qed.

Lemma node_is_nonleaf chk m par p t n ps lss j c :
  node_is chk par t ps n → shapes chk m p ps (gsubs t) lss → gsubs t !! j = Some c → gid t ≠ 0.
Proof. intros His _ Hj Hz. by rewrite (is_term _ _ _ _ _ His Hz) in Hj. Qed.

Lemma loc_at_cons chk m par p t ps n j c π q :
  m !! p = Some n → node_is chk par t ps n → ps !! j = Some (Some c) → loc_at m c π = Some q →
  loc_at m p (j :: π) = Some q.
Proof.
  intros Hp His Hc Hq. simpl. rewrite Hp. simpl. rewrite (is_subs _ _ _ _ _ His) by (by intros ->). simpl.
  rewrite (is_count _ _ _ _ _ His), Nat2Z.id, take_ge by (by rewrite length_fmap).
  by rewrite list_lookup_fmap, Hc.
Qed.

Lemma loc_at_frame chk m m' π : ∀ par p t ls,
  shape chk m par p t ls → (∀ x, x ∈ ls → m' !! x = m !! x) → loc_at m' p π = loc_at m p π.
Proof.
  induction π as [|j π IH]; intros par p t ls Hs Hm; [done|].
  apply shape_unfold in Hs as (n & ps & lss & Hp & His & -> & Hsub). simpl. rewrite Hm by left. rewrite Hp. simpl.
  rewrite (is_count _ _ _ _ _ His), Nat2Z.id. destruct (decide (ps = [])) as [->|Hne].
  { by destruct (subnodes n). }
  rewrite (is_subs _ _ _ _ _ His) by done. simpl. rewrite take_ge, list_lookup_fmap by (by rewrite length_fmap).
  destruct (ps !! j) as [[c|]|] eqn:Hj; simpl; [|done..].
  destruct (shapes_length _ _ _ _ _ _ Hsub) as [Hlen _]. apply lookup_lt_Some in Hj as Hlt.
  destruct (shapes_pick _ _ _ _ _ _ j Hsub) as (o & ot & l & Ho & Hot & Hl & Hsh); [lia|]. simplify_eq.
  destruct ot as [tc|]; simpl in Hsh; [|done]. eapply IH; [done|]. intros x Hx. apply Hm. right.
  by eapply concat_lookup_elem.
Qed.

(** The child at entry [j] is in focus. *)
Lemma focus_child chk m par p t n ps lss j q u l :
  m !! p = Some n → node_is chk par t ps n → shapes chk m (Some p) ps (gsubs t) lss →
  NoDup (p :: concat lss) → ps !! j = Some (Some q) → gsubs t !! j = Some (Some u) → lss !! j = Some l →
  shape chk m (Some p) q u l →
  focus chk m par p t (p :: concat lss) [j] p n ps j q u l (p :: concat (delete j lss)).
Proof.
  intros Hp His Hsub Hnd Hq Hu Hl Hsh. apply NoDup_cons in Hnd as [Hpl Hnd].
  assert (gid t ≠ 0) as Hid by (by eapply node_is_nonleaf).
  assert (ps ≠ []) as Hne by (by intros ->).
  split; try done.
  - simpl. by rewrite Hu.
  - by eapply loc_at_cons.
  - rewrite (concat_delete_Permutation lss j l) by done. by rewrite Permutation_middle.
  - left.
  - left.
  - by rewrite (is_id _ _ _ _ _ His).
  - by eapply is_subs.
  - by eapply is_count.
  - intros k Hk. by eapply shapes_first.
  - intros m' q' u' lq' Hm Hpp Hsh'. exists (p :: concat (<[j := lq']> lss)). split.
    + apply shape_unfold. eexists _, (<[j := Some q']> ps), (<[j := lq']> lss).
      split; [done|]. split; [simpl; rewrite Hu; by eapply node_is_gput|]. split; [done|].
      simpl. rewrite Hu. simpl. eapply shapes_insert; [done|done| |done].
      intros x Hx. apply Hm; [by right|]. intros ->. apply Hpl.
      rewrite (concat_delete_Permutation lss j l) by done. apply elem_of_app. by right.
    + rewrite (concat_insert_Permutation lss j l lq') by done. by rewrite Permutation_middle.
Qed.

(** A node in focus in the child at entry [j] is in focus in the whole tree. *)
Lemma focus_deeper chk m par p t n ps lss j c tc l π pp npp psq i q u lq rest :
  m !! p = Some n → node_is chk par t ps n → shapes chk m (Some p) ps (gsubs t) lss →
  NoDup (p :: concat lss) → ps !! j = Some (Some c) → gsubs t !! j = Some (Some tc) → lss !! j = Some l →
  focus chk m (Some p) c tc l π pp npp psq i q u lq rest →
  focus chk m par p t (p :: concat lss) (j :: π) pp npp psq i q u lq (p :: rest ++ concat (delete j lss)).
Proof.
  intros Hp His Hsub Hnd Hc Htc Hl [F1 F2 F0 F3 F4 F5 F6 F7 F8 F9 F10 F11 F12 F13].
  apply NoDup_cons in Hnd as [Hpl Hnd].
  assert (gid t ≠ 0) as Hid by (by eapply node_is_nonleaf).
  assert (∀ x, x ∈ rest → x ∈ l) as Hrl by (intros x Hx; rewrite F4; apply elem_of_app; by right).
  assert (p ∉ l) as Hpnl by (intros Hin; apply Hpl; by eapply concat_lookup_elem).
  split; try done.
  - simpl. by rewrite Htc.
  - by eapply loc_at_cons.
  - rewrite (concat_delete_Permutation lss j l), F4 by done. rewrite <- app_assoc. by rewrite Permutation_middle.
  - right. apply elem_of_app. by left.
  - left.
  - intros m' q' u' lq' Hm Hpp Hsh'.
    destruct (F13 m' q' u' lq') as (lc & Hlc & Hperm); [|done|done|].
    { intros x Hx. apply Hm. right. apply elem_of_app. by left. }
    exists (p :: concat (<[j := lc]> lss)). split.
    + apply shape_unfold. exists n, ps, (<[j := lc]> lss). split.
      { rewrite Hm; [done|left|]. intros ->. by apply Hpnl, Hrl. }
      simpl. rewrite Htc. split; [by eapply node_is_set_gsubs|]. split; [done|]. simpl.
      rewrite <- (list_insert_id ps j (Some c)) by done. eapply shapes_insert; [done|done| |done].
      intros x Hx. apply Hm; [right; apply elem_of_app; by right|]. intros ->.
      assert (NoDup (l ++ concat (delete j lss))) as (_ & Hdis & _)%NoDup_app.
      { by rewrite <- (concat_delete_Permutation lss j l). }
      apply (Hdis pp); [by apply Hrl|done].
    + rewrite (concat_insert_Permutation lss j l lc), Hperm by done. rewrite <- app_assoc.
      by rewrite Permutation_middle.
Qed.

Lemma shape_focus chk m t : ∀ par p ls q,
  shape chk m par p t ls → NoDup ls → q ∈ ls → q ≠ p →
  ∃ π pp npp ps i u lq rest, focus chk m par p t ls π pp npp ps i q u lq rest.
Proof.
  induction t as [i r v a b subs IH] using gtree_ind'. intros par p ls q Hs Hnd Hq Hqp.
  apply shape_unfold in Hs as (n & ps & lss & Hp & His & -> & Hsub). set (t := GNode i r v a b subs) in *.
  apply elem_of_cons in Hq as [->|Hq]; [done|].
  apply concat_elem in Hq as (l & Hl & Hq). apply list_elem_of_lookup in Hl as [j Hl].
  destruct (shapes_length _ _ _ _ _ _ Hsub) as [_ Hlen]. apply lookup_lt_Some in Hl as Hj.
  destruct (shapes_pick _ _ _ _ _ _ j Hsub) as (o & ot & l' & Ho & Hot & Hl' & Hsh); [lia|]. simplify_eq.
  destruct o as [c|], ot as [tc|]; simpl in Hsh; try done; [|subst; by apply not_elem_of_nil in Hq].
  destruct (decide (q = c)) as [->|Hqc].
  { eexists _, _, _, _, _, _, _, _. by eapply focus_child. }
  pose proof Hnd as [_ Hnd']%NoDup_cons. destruct (NoDup_concat_lookup _ _ _ Hnd' Hl) as [Hndl _].
  eapply Forall_forall in IH; [|by eapply list_elem_of_lookup_2].
  destruct (IH _ _ _ _ Hsh Hndl Hq Hqc) as (π & pp & npp & psq & k & u & lq & rest & Hf).
  eexists _, _, _, _, _, _, _, _. by eapply focus_deeper.
Qed.

Section Focus.
Context {chk m par p t ls π pp npp ps i q u lq rest}
  (F : focus chk m par p t ls π pp npp ps i q u lq rest) (Hnd : NoDup ls).

Lemma focus_NoDup : NoDup (lq ++ rest).
Proof. by rewrite <- (f_perm F). Qed.

Lemma focus_split x : x ∈ ls ↔ x ∈ lq ∨ x ∈ rest.
Proof. rewrite (f_perm F). apply elem_of_app. Qed.

Lemma focus_apart x : x ∈ rest → x ∉ lq.
Proof. intros Hx Hq. pose proof focus_NoDup as (_ & H & _)%NoDup_app. by apply (H x). Qed.

Lemma focus_parent_ne : q ≠ pp.
Proof.
  intros Heq. apply (focus_apart pp); [apply F|]. rewrite <- Heq. eapply shape_head, F.
Qed.

Lemma focus_bound : (i < length ps)%nat.
Proof. eapply lookup_lt_Some, F. Qed.
End Focus.
