(* ===== verification/GrammarTypes.v ===== *)
(** * GrammarTypes: trees that follow a grammar

    The grammar files of Grammar-Mutator are context-free grammars; [typed] says
    that a tree follows one, and [typed_derives] that its text is then a sentence.
    Typing is kept when a subtree is exchanged for another of the same type. *)

From S2P Require Import Prelude Buffer Utils Tree TreeSpec TreeSizes TreeText TreePaths.

Inductive symbol := T (text : list Z) | NT (i : Z).

Section Typing.
(** [productions i] are the rules of the non-terminal [i], in order. *)
Context (productions : Z → list (list symbol)).

Inductive typed : symbol → gtree → Prop :=
| typed_T text r a b : typed (T text) (GNode 0 r text a b [])
| typed_NT i r a b syms ts :
    i ≠ 0 → 0 ≤ r → productions i !! Z.to_nat r = Some syms → Forall2 typed syms ts →
    typed (NT i) (GNode i r [] a b (Some <$> ts)).

Inductive derives : symbol → list Z → Prop :=
| derives_T text : derives (T text) text
| derives_NT i syms ws : syms ∈ productions i → Forall2 derives syms ws → derives (NT i) (concat ws).

Lemma typed_gid i t : typed (NT i) t → gid t = i ∧ i ≠ 0.
Proof. by inversion 1. Qed.

Lemma yield_subs ts : flat_map (λ o, match o with Some t => yield t | None => [] end) (Some <$> ts) = concat (yield <$> ts).
Proof. induction ts as [|t ts IH]; [done|]. simpl. f_equal. exact IH. Qed.

Lemma typed_derives t : ∀ s, typed s t → derives s (yield t).
Proof.
  induction t as [i r v a b subs IH] using gtree_ind'. intros s Ht. inversion Ht as [|? ? ? ? syms ts Hi Hr Hp Hts]; subst.
  { constructor. }
  replace (yield (GNode i r [] a b (Some <$> ts))) with (concat (yield <$> ts)).
  - econstructor; [by eapply list_elem_of_lookup_2|]. clear Ht Hp. revert IH.
    induction Hts as [|s t syms ts Hs Hts IHts]; intros IH; [constructor|].
    apply Forall_cons in IH as [IHt IH]. constructor; [by apply IHt|by apply IHts].
  - destruct ts as [|t ts]; [done|]. symmetry. exact (yield_subs (t :: ts)).
Qed.

(** A typed subtree is typed by its own type. *)
Lemma typed_sub t : ∀ s π v, typed s t → gget t π = Some v → gid v ≠ 0 → typed (NT (gid v)) v.
Proof.
  induction t as [i r w a b subs IH] using gtree_ind'. intros s π v Ht Hg Hv.
  destruct π as [|j π].
  - injection Hg as <-. by inversion Ht; subst.
  - simpl in Hg. inversion Ht as [|? ? ? ? syms ts Hi Hr Hp Hts]; subst; [done|].
    rewrite list_lookup_fmap in Hg. destruct (ts !! j) as [u|] eqn:Hj; [|done]. simpl in Hg.
    destruct (Forall2_lookup_r _ _ _ _ _ Hts Hj) as (s' & _ & Hs').
    eapply (Forall_lookup_1 _ _ j (Some u)) in IH; [|by rewrite list_lookup_fmap, Hj].
    by eapply IH.
Qed.

(** Exchanging a non-terminal subtree for one of the same type. *)
Lemma typed_gput t : ∀ s π v u,
  typed s t → gget t π = Some v → gid v ≠ 0 → typed (NT (gid v)) u → typed s (gput t π u).
Proof.
  induction t as [i r w a b subs IH] using gtree_ind'. intros s π v u Ht Hg Hv Hu.
  destruct π as [|j π].
  - injection Hg as <-. by inversion Ht; subst.
  - simpl in Hg |- *. inversion Ht as [|? ? ? ? syms ts Hi Hr Hp Hts]; subst; [done|].
    rewrite list_lookup_fmap in Hg |- *. destruct (ts !! j) as [t'|] eqn:Hj; [|done]. simpl in Hg |- *.
    destruct (Forall2_lookup_r _ _ _ _ _ Hts Hj) as (s' & Hs' & Ht').
    eapply (Forall_lookup_1 _ _ j (Some t')) in IH; [|by rewrite list_lookup_fmap, Hj].
    assert (typed s' (gput t' π u)) as Hnew by (by eapply IH).
    unfold set_gsubs. simpl. rewrite <- list_fmap_insert. econstructor; [done|done|done|].
    rewrite <- (list_insert_id syms j s') by done. by apply Forall2_insert.
Qed.
End Typing.
