(* ===== verification/TreeLists.v ===== *)
(** * TreeLists: the node lists of a tree and random choices in it

    [tree_get_non_terminal_nodes] and [tree_get_recursion_edges] enumerate in
    pre-order what [node_get_size] counts, and the two [node_pick] functions
    always find one of them when the counts are exact. *)

From S2P Require Import Prelude Buffer Utils Tree TreeSpec TreeNodes TreeSizes TreeText TreePaths.

(** ** Reference lists

    The nodes of a shape are named in pre-order. *)

Definition non_terminal (m : gmap loc node) (q : loc) : bool :=
  match m !! q with Some n => bool_decide (id n ≠ 0) | None => false end.

Definition non_terminals (m : gmap loc node) (ls : list loc) : list loc :=
  List.filter (non_terminal m) ls.

(** The edge to [q] when its parent has the same id. *)
Definition edge_to (m : gmap loc node) (q : loc) : option edge :=
  n ← m !! q; pp ← parent n; npp ← m !! pp;
  if decide (id npp = id n) then
    arr ← subnodes npp;
    iq ← list_find (Some (Some q) =.) arr;
    Some (Edge (Some pp) (Some q) (Z.of_nat iq.1))
  else None.

Definition recursion_edges (m : gmap loc node) (ls : list loc) : list edge := omap (edge_to m) (tail ls).

Lemma non_terminals_app m ls ls' : non_terminals m (ls ++ ls') = non_terminals m ls ++ non_terminals m ls'.
Proof. apply List.filter_app. Qed.

Lemma elem_of_non_terminals m ls q :
  q ∈ non_terminals m ls ↔ q ∈ ls ∧ ∃ n, m !! q = Some n ∧ id n ≠ 0.
Proof.
  unfold non_terminals, non_terminal. rewrite list_elem_of_In, filter_In, <- list_elem_of_In.
  destruct (m !! q) as [n|]; [rewrite bool_decide_eq_true|]; naive_solver.
Qed.

Lemma filter_terminal m par p t ls chk :
  shape chk m par p t ls → gid t = 0 → non_terminals m ls = [].
Proof.
  rewrite shape_unfold. intros (n & ps & lss & Hp & His & -> & Hsub) Hid.
  rewrite (is_term _ _ _ _ _ His Hid) in Hsub. inversion Hsub; subst. simpl.
  unfold non_terminal. by rewrite Hp, (is_id _ _ _ _ _ His), Hid.
Qed.

Lemma filter_non_terminal m par p t ls chk n ps lss :
  m !! p = Some n → node_is chk par t ps n → ls = p :: concat lss → gid t ≠ 0 →
  non_terminals m ls = p :: non_terminals m (concat lss).
Proof.
  intros Hp His -> Hid. unfold non_terminals. simpl. unfold non_terminal at 1.
  by rewrite Hp, (is_id _ _ _ _ _ His), bool_decide_eq_true_2.
Qed.

Lemma concat_take_S {A} (lss : list (list A)) j l :
  lss !! j = Some l → concat (take (S j) lss) = concat (take j lss) ++ l.
Proof. intros Hj. rewrite (take_S_r _ _ l) by done. rewrite concat_app. simpl. by rewrite app_nil_r. Qed.

(** The list of non-terminals of [T] has grown by [u]. *)
Definition listed (T : loc) (x : tree) (v u : list loc) (h h' : heap) : Prop :=
  tree_step T x (set_non_terminal_node_list (Some (v ++ u)) x) h h'.

Definition edged (T : loc) (x : tree) (v u : list edge) (h h' : heap) : Prop :=
  tree_step T x (set_recursion_edge_list (Some (v ++ u)) x) h h'.

Section Lists.
Context `{Host} (Hmem : never_refuses).

Lemma listed_refl T x v h : trees h !! T = Some x → non_terminal_node_list x = Some v → listed T x v [] h h.
Proof.
  intros Hx Hv. unfold listed. rewrite app_nil_r. replace (set_non_terminal_node_list (Some v) x) with x.
  - by apply tree_step_refl.
  - destruct x. simpl in *. by subst.
Qed.

Lemma listed_trans T x v u w h h1 h2 :
  listed T x v u h h1 → listed T (set_non_terminal_node_list (Some (v ++ u)) x) (v ++ u) w h1 h2 →
  listed T x v (u ++ w) h h2.
Proof. unfold listed. intros S1 S2. rewrite app_assoc. eapply tree_step_trans; [exact S1|exact S2]. Qed.

Lemma listed_start T x v q h :
  trees h !! T = Some x → non_terminal_node_list x = Some v →
  wp (y ← load_tree (Some T);
      l ← seq_append (non_terminal_node_list y) q;
      store_tree (Some T) (set_non_terminal_node_list l)) h (λ _, listed T x v [q] h).
Proof.
  intros Hx Hv. apply wp_bind. eapply wp_load_tree; [done|]. rewrite Hv.
  apply wp_bind. simpl. apply wp_bind, wp_request; [done|]. apply wp_ret.
  eapply wp_store_tree; [done|]. unfold listed.
  eapply (tree_step_trans T x x _ h (bump h)); [by apply tree_step_bump, tree_step_refl|].
  by apply (tree_step_store T x).
Qed.

Lemma non_terminal_nodes_rec_ok t : ∀ fuel h chk par p ls T x v,
  shape chk (nodes h) par p t ls → (gheight t ≤ fuel)%nat → trees h !! T = Some x →
  non_terminal_node_list x = Some v →
  wp (node_get_non_terminal_nodes_rec fuel (Some T) (Some p)) h (λ _, listed T x v (non_terminals (nodes h) ls) h).
Proof.
  induction t as [i r w a b subs IH] using gtree_ind'. intros fuel h chk par p ls T x v Hs Hf Hx Hv.
  pose proof Hs as (n & ps & lss & Hp & His & Hls & Hsub)%shape_unfold. set (t := GNode i r w a b subs) in *.
  destruct fuel as [|fuel]; [cbn in Hf; lia|]. destruct (shapes_length _ _ _ _ _ _ Hsub) as [Hlen Hlen2].
  simpl node_get_non_terminal_nodes_rec. apply wp_bind. eapply wp_load; [done|].
  rewrite (is_id _ _ _ _ _ His). case_decide as Hid.
  { apply wp_ret. rewrite (filter_terminal _ _ _ _ _ _ Hs Hid). by apply listed_refl. }
  rewrite (filter_non_terminal _ _ _ _ _ _ _ _ _ Hp His Hls Hid).
  apply wp_bind3. eapply wp_mono; [by apply (listed_start T x v p)|]. intros [] h1 H1.
  rewrite (is_count _ _ _ _ _ His), Nat2Z.id. eapply wp_mono.
  { apply (wp_sub_loop chk (nodes h) p n ps subs lss (λ _ o, node_get_non_terminal_nodes_rec fuel (Some T) o)
      (λ j s, listed T x v ([p] ++ non_terminals (nodes h) (concat (take j lss))) h s));
      [|by eapply is_subs|done| |].
    - intros j s Hstep. by rewrite (ts_nodes _ _ _ _ _ Hstep).
    - done.
    - intros j o ot l s Ho Hot Hl Hsh Hstep. rewrite (concat_take_S _ _ l) by done.
      rewrite non_terminals_app, app_assoc.
      destruct o as [c|], ot as [tc|]; simpl in Hsh; try done.
      + eapply wp_mono.
        { eapply Forall_forall in IH; [|by eapply list_elem_of_lookup_2]. eapply IH.
          - by rewrite (ts_nodes _ _ _ _ _ Hstep).
          - apply list_elem_of_lookup_2 in Hot. pose proof (elem_of_gsubs_height t tc Hot). lia.
          - apply Hstep.
          - done. }
        intros [] s2 Hstep2. rewrite (ts_nodes _ _ _ _ _ Hstep) in Hstep2. by eapply listed_trans.
      + subst l. simpl. rewrite app_nil_r. destruct fuel; by apply wp_ret. }
  intros [] s Hstep. rewrite take_ge in Hstep by (simpl in *; lia). done.
Qed.
(** *** Recursion edges *)

Lemma edges_refl T x v h : trees h !! T = Some x → recursion_edge_list x = Some v → edged T x v [] h h.
Proof.
  intros Hx Hv. unfold edged. rewrite app_nil_r. replace (set_recursion_edge_list (Some v) x) with x.
  - by apply tree_step_refl.
  - destruct x. simpl in *. by subst.
Qed.

Lemma edges_trans T x v u w h h1 h2 :
  edged T x v u h h1 → edged T (set_recursion_edge_list (Some (v ++ u)) x) (v ++ u) w h1 h2 →
  edged T x v (u ++ w) h h2.
Proof. unfold edged. intros S1 S2. rewrite app_assoc. eapply tree_step_trans; [exact S1|exact S2]. Qed.

Lemma edges_one T x v e h :
  trees h !! T = Some x → recursion_edge_list x = Some v →
  wp (ok ← request;
      if (ok : bool) then
        y ← load_tree (Some T);
        l ← seq_append (recursion_edge_list y) e;
        store_tree (Some T) (set_recursion_edge_list l)
      else fail NullDeref) h (λ _, edged T x v [e] h).
Proof.
  intros Hx Hv. apply wp_bind, wp_request; [done|]. apply wp_bind. eapply wp_load_tree; [done|]. rewrite Hv.
  apply wp_bind. simpl. apply wp_bind, wp_request; [done|]. apply wp_ret.
  eapply wp_store_tree; [done|]. unfold edged.
  eapply (tree_step_trans T x x _ h (bump (bump h))); [by apply tree_step_bump, tree_step_bump, tree_step_refl|].
  by apply (tree_step_store T x).
Qed.

(** The edge to the subnode [c] at entry [j]. *)
Lemma edge_to_child m par p t n ps lss j c tc l :
  m !! p = Some n → node_is true par t ps n → shapes true m (Some p) ps (gsubs t) lss → NoDup (concat lss) →
  ps !! j = Some (Some c) → lss !! j = Some l → shape true m (Some p) c tc l →
  edge_to m c = if decide (gid t = gid tc) then Some (Edge (Some p) (Some c) (Z.of_nat j)) else None.
Proof.
  intros Hp His Hsub Hnd Hc Hl Hsh.
  pose proof Hsh as (nc & ? & ? & Hnc & Hisc & _ & _)%shape_unfold. unfold edge_to. rewrite Hnc. simpl.
  rewrite (is_parent _ _ _ _ _ Hisc eq_refl). simpl. rewrite Hp. simpl.
  rewrite (is_id _ _ _ _ _ His), (is_id _ _ _ _ _ Hisc). case_decide; [|done].
  rewrite (is_subs _ _ _ _ _ His) by (by intros ->). simpl.
  assert (list_find (Some (Some c) =.) (Some <$> ps) = Some (j, Some (Some c))) as ->; [|done].
  apply list_find_Some. split; [by rewrite list_lookup_fmap, Hc|]. split; [done|].
  intros k y Hk Hlt Heq. rewrite <- Heq in Hk. rewrite list_lookup_fmap in Hk.
  destruct (ps !! k) as [y'|] eqn:Hy; [|done]. simpl in Hk. injection Hk as ->.
  assert (j = k) by (by eapply shapes_first). lia.
Qed.

Lemma omap_app' {A B} (f : A → option B) l l' : omap f (l ++ l') = omap f l ++ omap f l'.
Proof. apply omap_app. Qed.

Lemma recursion_edges_rec_ok t : ∀ fuel h par p ls T x v,
  shape true (nodes h) par p t ls → NoDup ls → (gheight t ≤ fuel)%nat → trees h !! T = Some x →
  recursion_edge_list x = Some v →
  wp (node_get_recursion_edges_rec fuel (Some T) (Some p)) h (λ _, edged T x v (recursion_edges (nodes h) ls) h).
Proof.
  induction t as [i r w a b subs IH] using gtree_ind'. intros fuel h par p ls T x v Hs Hnd Hf Hx Hv.
  pose proof Hs as (n & ps & lss & Hp & His & -> & Hsub)%shape_unfold. set (t := GNode i r w a b subs) in *.
  destruct fuel as [|fuel]; [cbn in Hf; lia|]. destruct (shapes_length _ _ _ _ _ _ Hsub) as [Hlen Hlen2].
  apply NoDup_cons in Hnd as [_ Hnd].
  simpl node_get_recursion_edges_rec. apply wp_bind. eapply wp_load; [done|].
  rewrite (is_count _ _ _ _ _ His), Nat2Z.id. case_decide as Hz.
  { apply wp_ret. destruct ps as [|? ?]; [|simpl in Hz; lia]. destruct subs; [|done]. inversion Hsub; subst.
    by apply edges_refl. }
  eapply wp_mono.
  { apply (wp_sub_loop true (nodes h) p n ps subs lss _
      (λ j s, edged T x v (omap (edge_to (nodes h)) (concat (take j lss))) h s)); [|by eapply is_subs|done| |].
    - intros j s Hstep. by rewrite (ts_nodes _ _ _ _ _ Hstep).
    - by apply edges_refl.
    - intros j o ot l s Ho Hot Hl Hsh Hstep. rewrite (concat_take_S _ _ l), omap_app' by done.
      destruct o as [c|], ot as [tc|]; simpl in Hsh; try done; [|subst; simpl; rewrite app_nil_r; by apply wp_ret].
      destruct (NoDup_concat_lookup _ _ _ Hnd Hl) as [Hndl _].
      pose proof (edge_to_child _ _ _ _ _ _ _ _ _ _ _ Hp His Hsub Hnd Ho Hl Hsh) as Hedge.
      pose proof Hsh as (nc & psc & lsc & Hnc & Hisc & Hlc & _)%shape_unfold.
      apply wp_bind. eapply wp_load; [by rewrite (ts_nodes _ _ _ _ _ Hstep)|].
      rewrite (is_id _ _ _ _ _ His), (is_id _ _ _ _ _ Hisc).
      assert (omap (edge_to (nodes h)) l =
        (if decide (gid t = gid tc) then [Edge (Some p) (Some c) (Z.of_nat j)] else []) ++ recursion_edges (nodes h) l) as ->.
      { rewrite Hlc. unfold recursion_edges. simpl. rewrite Hedge. by destruct (decide _). }
      apply wp_bind. rewrite app_assoc. eapply (wp_mono _ _ (λ _ s1, edged T x v
        (omap (edge_to (nodes h)) (concat (take j lss)) ++
         (if decide (gid t = gid tc) then [Edge (Some p) (Some c) (Z.of_nat j)] else [])) h s1)).
      { case_decide; [|by rewrite app_nil_r; apply wp_ret].
        eapply wp_mono; [by eapply edges_one; [apply Hstep|]|]. intros [] s1 H1. by eapply edges_trans. }
      intros [] s1 Hstep1. eapply wp_mono.
      { eapply Forall_forall in IH; [|by eapply list_elem_of_lookup_2]. eapply IH; [|done| | |].
        - by rewrite (ts_nodes _ _ _ _ _ Hstep1).
        - apply list_elem_of_lookup_2 in Hot. pose proof (elem_of_gsubs_height t tc Hot). lia.
        - apply Hstep1.
        - done. }
      intros [] s2 Hstep2. rewrite (ts_nodes _ _ _ _ _ Hstep1) in Hstep2. by eapply edges_trans. }
  intros [] s Hstep. rewrite take_ge in Hstep by (simpl in *; lia). done.
Qed.

(** *** Whole trees *)

Lemma wp_fresh_list {A} T x h (set : option (list A) → tree → tree) (k : tree → M heap unit) (Q : unit → heap → Prop) :
  trees h !! T = Some x →
  (∀ h1, tree_step T x (set (Some []) x) h h1 → wp (k (set (Some []) x)) h1 Q) →
  wp (l ← seq_create; _ ← store_tree (Some T) (set l); y ← load_tree (Some T); k y) h Q.
Proof.
  intros Hx HQ. apply wp_bind. unfold seq_create. apply wp_bind, wp_request; [done|]. apply wp_ret.
  apply wp_bind. eapply wp_store_tree; [done|]. apply wp_bind. eapply wp_load_tree; [simpl; apply lookup_insert_eq|].
  apply HQ. eapply (tree_step_trans T x x _ h (bump h)); [by apply tree_step_bump, tree_step_refl|].
  by apply (tree_step_store T x).
Qed.
Lemma tree_get_non_terminal_nodes_ok h T x p chk par t ls :
  trees h !! T = Some x → root x = Some p → shape chk (nodes h) par p t ls → NoDup ls →
  wp (tree_get_non_terminal_nodes (Some T)) h (λ _,
    tree_step T x (set_non_terminal_node_list (Some (non_terminals (nodes h) ls)) x) h).
Proof.
  intros Hx Hroot Hs Hnd. unfold tree_get_non_terminal_nodes.
  apply (wp_fresh_list T x); [done|]. intros h1 S1. unfold with_fuel.
  pose proof (ts_nodes _ _ _ _ _ S1) as Hn. simpl. rewrite Hroot.
  change (wp (node_get_non_terminal_nodes_rec (S (size (nodes h1))) (Some T) (Some p)) h1
    (λ _, tree_step T x (set_non_terminal_node_list (Some (non_terminals (nodes h) ls)) x) h)).
  eapply wp_mono; [eapply (non_terminal_nodes_rec_ok t _ h1 chk par p ls T _ [])|].
  - by rewrite Hn.
  - rewrite Hn. etrans; [by eapply shape_fuel|]. lia.
  - apply S1.
  - done.
  - intros [] h2 S2. rewrite Hn in S2. eapply tree_step_trans; [exact S1|]. exact S2.
Qed.

Lemma tree_get_recursion_edges_ok h T x p par t ls :
  trees h !! T = Some x → root x = Some p → shape true (nodes h) par p t ls → NoDup ls →
  wp (tree_get_recursion_edges (Some T)) h (λ _,
    tree_step T x (set_recursion_edge_list (Some (recursion_edges (nodes h) ls)) x) h).
Proof.
  intros Hx Hroot Hs Hnd. unfold tree_get_recursion_edges.
  apply (wp_fresh_list T x); [done|]. intros h1 S1. unfold with_fuel.
  pose proof (ts_nodes _ _ _ _ _ S1) as Hn. simpl. rewrite Hroot.
  change (wp (node_get_recursion_edges_rec (S (size (nodes h1))) (Some T) (Some p)) h1
    (λ _, tree_step T x (set_recursion_edge_list (Some (recursion_edges (nodes h) ls)) x) h)).
  eapply wp_mono; [eapply (recursion_edges_rec_ok t _ h1 par p ls T _ [])|].
  - by rewrite Hn.
  - done.
  - rewrite Hn. etrans; [by eapply shape_fuel|]. lia.
  - apply S1.
  - done.
  - intros [] h2 S2. rewrite Hn in S2. eapply tree_step_trans; [exact S1|]. exact S2.
Qed.
End Lists.

(** ** The lists have the lengths that [node_get_size] computes *)

Lemma shapes_sum chk m par ps subs lss (f : list loc → Z) (g : gtree → Z) :
  (∀ a b, f (a ++ b) = f a + f b) → f [] = 0 → shapes chk m par ps subs lss →
  (∀ j c tc l, ps !! j = Some (Some c) → subs !! j = Some (Some tc) → lss !! j = Some l →
     shape chk m par c tc l → f l = g tc) →
  f (concat lss) = sum_subs g subs.
Proof.
  intros Happ Hnil Hs. induction Hs as [|o ot l ps subs lss Ho Hs IH]; intros Hf; [done|].
  unfold sum_subs in *. simpl. rewrite Happ, IH by (intros j; apply (Hf (S j))). f_equal.
  destruct o as [c|], ot as [tc|]; simpl in Ho; try done; [by eapply (Hf 0%nat)|by subst].
Qed.

Lemma length_non_terminals chk m t : ∀ par p ls,
  shape chk m par p t ls → zlen (non_terminals m ls) = count_nt t.
Proof.
  induction t as [i r v a b subs IH] using gtree_ind'. intros par p ls Hs.
  pose proof Hs as (n & ps & lss & Hp & His & Hls & Hsub)%shape_unfold. set (t := GNode i r v a b subs) in *.
  destruct (decide (gid t = 0)) as [Hid|Hid].
  { rewrite (filter_terminal _ _ _ _ _ _ Hs Hid). simpl in Hid. subst i. done. }
  rewrite (filter_non_terminal _ _ _ _ _ _ _ _ _ Hp His Hls Hid), count_nt_eq by done. cbn [length].
  rewrite Nat2Z.inj_succ, <- Z.add_1_l. f_equal.
  apply (shapes_sum chk m (Some p) ps (gsubs t) lss (λ l, zlen (non_terminals m l))); [|done|done|].
  - intros x y. rewrite non_terminals_app, length_app. lia.
  - intros j c tc l _ Htc _ Hsh. eapply Forall_forall in IH; [|by eapply list_elem_of_lookup_2]. by eapply IH.
Qed.

Lemma length_recursion_edges m t : ∀ par p ls,
  shape true m par p t ls → NoDup ls → zlen (recursion_edges m ls) = count_edges t.
Proof.
  induction t as [i r v a b subs IH] using gtree_ind'. intros par p ls Hs Hnd.
  pose proof Hs as (n & ps & lss & Hp & His & -> & Hsub)%shape_unfold. set (t := GNode i r v a b subs) in *.
  apply NoDup_cons in Hnd as [_ Hnd]. unfold recursion_edges. simpl tail.
  destruct (decide (gid t = 0)) as [Hid|Hid].
  { rewrite (is_term _ _ _ _ _ His Hid) in Hsub. inversion Hsub; subst. simpl in Hid. by subst i. }
  rewrite count_edges_eq by done.
  apply (shapes_sum true m (Some p) ps (gsubs t) lss (λ l, zlen (omap (edge_to m) l))); [|done|done|].
  - intros x y. rewrite omap_app', length_app. lia.
  - intros j c tc l Hc Htc Hl Hsh. destruct (NoDup_concat_lookup _ _ _ Hnd Hl) as [Hndl _].
    eapply Forall_forall in IH; [|by eapply list_elem_of_lookup_2]. specialize (IH _ _ _ Hsh Hndl).
    pose proof (edge_to_child _ _ _ _ _ _ _ _ _ _ _ Hp His Hsub Hnd Hc Hl Hsh) as Hedge.
    pose proof Hsh as (nc & psc & lsc & _ & _ & -> & _)%shape_unfold. unfold edge_weight.
    unfold recursion_edges in IH. simpl in *. rewrite Hedge. case_decide; simpl; unfold omap in IH; lia.
Qed.

(** The lists of non-terminals and of recursion edges that the trimming stage
    walks enumerate, in pre-order, exactly the non-terminal nodes of the tree and
    exactly the edges between a node and a subnode with the same id; their lengths
    are the sizes that [node_get_size] computes.  Nothing else is changed. *)
Theorem tree_lists_correct `{Host} h T x p par t ls :
  never_refuses → trees h !! T = Some x → root x = Some p → shape true (nodes h) par p t ls → NoDup ls →
  (∃ h', tree_get_non_terminal_nodes (Some T) h = Ret (tt, h') ∧
     tree_step T x (set_non_terminal_node_list (Some (non_terminals (nodes h) ls)) x) h h') ∧
  (∃ h', tree_get_recursion_edges (Some T) h = Ret (tt, h') ∧
     tree_step T x (set_recursion_edge_list (Some (recursion_edges (nodes h) ls)) x) h h') ∧
  zlen (non_terminals (nodes h) ls) = count_nt t ∧ zlen (recursion_edges (nodes h) ls) = count_edges t.
Proof.
  intros Hmem Hx Hroot Hs Hnd. split_and!.
  - pose proof (tree_get_non_terminal_nodes_ok Hmem h T x p true par t ls Hx Hroot Hs Hnd) as Hw.
    apply wp_Ret in Hw as ([] & h' & ? & ?). by exists h'.
  - pose proof (tree_get_recursion_edges_ok Hmem h T x p par t ls Hx Hroot Hs Hnd) as Hw.
    apply wp_Ret in Hw as ([] & h' & ? & ?). by exists h'.
  - by eapply length_non_terminals.
  - by eapply length_recursion_edges.
Qed.

Lemma tree_lists_correct_witness :
  (∃ h', tree_get_non_terminal_nodes (H := obliging) (Some 9%positive) sample_heap = Ret (tt, h') ∧
     tree_step 9 (tree_at 1) (set_non_terminal_node_list (Some (non_terminals (nodes sample_heap) sample_locs)) (tree_at 1))
       sample_heap h') ∧
  (∃ h', tree_get_recursion_edges (H := obliging) (Some 9%positive) sample_heap = Ret (tt, h') ∧
     tree_step 9 (tree_at 1) (set_recursion_edge_list (Some (recursion_edges (nodes sample_heap) sample_locs)) (tree_at 1))
       sample_heap h') ∧
  zlen (non_terminals (nodes sample_heap) sample_locs) = count_nt sample_tree ∧
  zlen (recursion_edges (nodes sample_heap) sample_locs) = count_edges sample_tree.
Proof.
  apply (tree_lists_correct (H := obliging) sample_heap 9 (tree_at 1) 1 None sample_tree sample_locs).
  - intros n. reflexivity.
  - reflexivity.
  - reflexivity.
  - apply sample_shape.
  - apply sample_NoDup.
Defined.
