(* ===== verification/TreePicks.v ===== *)
(** * TreePicks: random choices in a tree

    [node_pick_non_term_subnode] and [node_pick_recursion_edge] walk down the tree
    spending a random number on the cached sizes.  When those are exact, the walk
    never falls through: it ends on a non-terminal node, on a recursion edge. *)

From S2P Require Import Prelude Buffer Utils Tree TreeSpec TreeNodes TreeSizes.

(** Trees whose cached sizes are exact. *)
Definition counted (t : gtree) : Prop := recount t = t.

Lemma count_nt_nonneg t : 0 ≤ count_nt t.
Proof.
  induction t as [i r v a b subs IH] using gtree_ind'. simpl. case_decide; [lia|].
  enough (0 ≤ foldr (λ o acc, match o with Some s => count_nt s | None => 0 end + acc) 0 subs) by lia.
  induction IH as [|o subs Ho _ IHs]; simpl; [lia|]. destruct o; simpl in *; lia.
Qed.

Lemma count_edges_nonneg t : 0 ≤ count_edges t.
Proof.
  induction t as [i r v a b subs IH] using gtree_ind'. simpl. case_decide; [lia|].
  induction IH as [|o subs Ho _ IHs]; simpl; [lia|]. destruct o; simpl in *; [case_decide; lia|lia].
Qed.

Lemma count_nt_pos t : gid t ≠ 0 → 1 ≤ count_nt t.
Proof.
  intros Hid. rewrite count_nt_eq by done. enough (0 ≤ sum_subs count_nt (gsubs t)) by lia.
  unfold sum_subs. induction (gsubs t) as [|[s|] subs IH]; simpl; [lia|pose proof (count_nt_nonneg s); lia|lia].
Qed.

Lemma count_nt_zero t : gid t = 0 → count_nt t = 0.
Proof. destruct t. simpl. by intros ->. Qed.

Lemma sum_subs_le f g subs : (∀ s, Some s ∈ subs → f s ≤ g s) → sum_subs f subs ≤ sum_subs g subs.
Proof.
  unfold sum_subs. induction subs as [|o subs IH]; intros Hfg; simpl; [lia|].
  assert (foldr (λ o acc, match o with Some s => f s | None => 0 end + acc) 0 subs ≤
    foldr (λ o acc, match o with Some s => g s | None => 0 end + acc) 0 subs) by (apply IH; intros; apply Hfg; by right).
  destruct o as [s|]; [specialize (Hfg s ltac:(left)); lia|lia].
Qed.

Lemma sum_subs_elem f subs s : (∀ s, 0 ≤ f s) → Some s ∈ subs → f s ≤ sum_subs f subs.
Proof.
  intros Hf. unfold sum_subs. induction subs as [|o subs IH]; [by intros []%not_elem_of_nil|].
  assert (0 ≤ foldr (λ o acc, match o with Some s => f s | None => 0 end + acc) 0 subs).
  { clear IH. induction subs as [|[s'|] subs IH]; simpl; [lia|specialize (Hf s'); lia|lia]. }
  simpl. intros [<-|Hin]%elem_of_cons; [lia|]. specialize (IH Hin). destruct o as [s'|]; [specialize (Hf s')|]; lia.
Qed.

(** A subtree of a counted tree is counted, and no larger. *)
Lemma counted_sub t s : counted t → Some s ∈ gsubs t → counted s.
Proof.
  destruct t as [i r v a b subs]. unfold counted. simpl. intros [= _ _ Hm] Hin.
  apply list_elem_of_lookup in Hin as [j Hj]. pose proof (f_equal (.!! j) Hm) as Hjm. simpl in Hjm.
  rewrite list_lookup_fmap, Hj in Hjm. simpl in Hjm. congruence.
Qed.

Lemma count_nt_sub t s : gid t ≠ 0 → Some s ∈ gsubs t → count_nt s < count_nt t.
Proof.
  intros Hid Hin. rewrite (count_nt_eq t) by done.
  pose proof (sum_subs_elem count_nt (gsubs t) s count_nt_nonneg Hin). lia.
Qed.

Lemma count_edges_sub t s : gid t ≠ 0 → Some s ∈ gsubs t → edge_weight (gid t) s ≤ count_edges t.
Proof.
  intros Hid Hin. rewrite (count_edges_eq t) by done. apply sum_subs_elem; [|done].
  intros s'. unfold edge_weight. pose proof (count_edges_nonneg s'). case_decide; lia.
Qed.

Lemma drop_sum f subs i ot :
  subs !! i = Some ot → sum_subs f (drop i subs) = match ot with Some s => f s | None => 0 end + sum_subs f (drop (S i) subs).
Proof. intros Hi. by rewrite (drop_S _ ot i). Qed.

Lemma counted_sizes t : counted t → count_nt t < 2 ^ 64 → count_edges t < 2 ^ 64 →
  gnts t = count_nt t ∧ gres t = count_edges t.
Proof.
  intros Hc Hn He. pose proof (count_nt_nonneg t). pose proof (count_edges_nonneg t).
  unfold counted in Hc. rewrite recount_eq in Hc. pose proof (f_equal gnts Hc) as Hb. pose proof (f_equal gres Hc) as Ha.
  simpl gnts in Hb at 1. simpl gres in Ha at 1. rewrite wrap_small in Ha, Hb by lia. done.
Qed.

Section Picks.
Context `{Host} {R : Type} `{!Random R}.

Section Loops.
Context {chk : bool} {h : heap} {p : loc} {n : node} {ps : list ptr} {subs : list (option gtree)} {lss : list (list loc)}.
Hypothesis (Hp : nodes h !! p = Some n) (Harr : ps ≠ [] → subnodes n = Some (Some <$> ps))
  (Hsub : shapes chk (nodes h) (Some p) ps subs lss).

(** One round: the subnode at [i], NULL or a counted tree. *)
Lemma wp_read_sub i (Q : ptr → heap → Prop) :
  (i < length subs)%nat →
  (∀ o ot l, ps !! i = Some o → subs !! i = Some ot → lss !! i = Some l → shape_opt chk (nodes h) (Some p) o ot l → Q o h) →
  wp (read_subnode (Some p) (Z.of_nat i)) h Q.
Proof.
  intros Hi HQ. destruct (shapes_pick _ _ _ _ _ _ i Hsub Hi) as (o & ot & l & Ho & Hot & Hl & Hsh).
  eapply wp_read_subnode; [done|apply Harr; by intros ->|by rewrite Nat2Z.id|by eapply HQ].
Qed.

Lemma pick_non_term_loop_ok pick m : ∀ i prob r (Q : ptr * R → heap → Prop),
  (∀ s, Some s ∈ subs → counted s ∧ count_nt s < 2 ^ 32 ∧ count_edges s < 2 ^ 32) →
  (i + m = length subs)%nat → 0 ≤ prob < sum_subs count_nt (drop i subs) → prob < 2 ^ 32 →
  (∀ j c tc l, ps !! j = Some (Some c) → subs !! j = Some (Some tc) → lss !! j = Some l →
     shape chk (nodes h) (Some p) c tc l → gid tc ≠ 0 → wp (pick (Some c) r) h Q) →
  wp (pick_non_term_loop pick m (Z.of_nat i) prob (Some p) r) h Q.
Proof.
  induction m as [|m IH]; intros i prob r Q Hc Hm Hprob Hsmall Hpick; simpl.
  { rewrite drop_ge in Hprob by lia. unfold sum_subs in Hprob. simpl in Hprob. lia. }
  apply wp_bind, wp_read_sub; [lia|]. intros o ot l Ho Hot Hl Hsh.
  assert (∀ prob', 0 ≤ prob' < sum_subs count_nt (drop (S i) subs) → prob' < 2 ^ 32 →
    wp (pick_non_term_loop pick m (Z.of_nat i + 1) prob' (Some p) r) h Q) as Hnext.
  { intros prob' ??. replace (Z.of_nat i + 1) with (Z.of_nat (S i)) by lia. apply IH; try done. lia. }
  rewrite (drop_sum _ _ _ _ Hot) in Hprob.
  destruct o as [c|], ot as [tc|]; simpl in Hsh; try done; [|by apply Hnext].
  destruct (Hc tc) as (Hct & Hnt & Hne); [by eapply list_elem_of_lookup_2|].
  destruct (counted_sizes tc Hct) as [Hs1 _]; [lia..|].
  pose proof Hsh as (nc & ? & ? & Hnc & Hisc & _ & _)%shape_unfold.
  apply wp_bind. eapply wp_load; [done|]. rewrite (is_id _ _ _ _ _ Hisc), (is_nts _ _ _ _ _ Hisc), Hs1.
  case_decide as Hid; [rewrite (count_nt_zero tc) in Hprob by done; by apply Hnext|].
  case_decide; [by eapply Hpick|]. pose proof (count_nt_nonneg tc). rewrite wrap_small by lia. apply Hnext; lia.
Qed.

Lemma pick_edge_loop_ok pick pid m : ∀ i prob r (Q : edge * R → heap → Prop),
  (∀ s, Some s ∈ subs → counted s ∧ count_nt s < 2 ^ 32 ∧ count_edges s < 2 ^ 32) →
  (i + m = length subs)%nat → 0 ≤ prob < sum_subs (edge_weight pid) (drop i subs) → prob < 2 ^ 32 →
  (∀ j c tc, ps !! j = Some (Some c) → subs !! j = Some (Some tc) → pid = gid tc →
     Q (Edge (Some p) (Some c) (Z.of_nat j), r) h) →
  (∀ j c tc l, ps !! j = Some (Some c) → subs !! j = Some (Some tc) → lss !! j = Some l →
     shape chk (nodes h) (Some p) c tc l → 0 < count_edges tc → wp (pick (Some c) r) h Q) →
  wp (pick_edge_loop pick m (Z.of_nat i) prob (Some p) pid r) h Q.
Proof.
  induction m as [|m IH]; intros i prob r Q Hc Hm Hprob Hsmall Hhere Hpick; simpl.
  { rewrite drop_ge in Hprob by lia. unfold sum_subs in Hprob. simpl in Hprob. lia. }
  apply wp_bind, wp_read_sub; [lia|]. intros o ot l Ho Hot Hl Hsh.
  assert (∀ prob', 0 ≤ prob' < sum_subs (edge_weight pid) (drop (S i) subs) → prob' < 2 ^ 32 →
    wp (pick_edge_loop pick m (Z.of_nat i + 1) prob' (Some p) pid r) h Q) as Hnext.
  { intros prob' ??. replace (Z.of_nat i + 1) with (Z.of_nat (S i)) by lia. apply IH; try done. lia. }
  rewrite (drop_sum _ _ _ _ Hot) in Hprob.
  destruct o as [c|], ot as [tc|]; simpl in Hsh; try done; [|by apply Hnext].
  destruct (Hc tc) as (Hct & Hnt & Hne); [by eapply list_elem_of_lookup_2|].
  destruct (counted_sizes tc Hct) as [_ Hs1]; [lia..|]. pose proof (count_edges_nonneg tc).
  pose proof Hsh as (nc & ? & ? & Hnc & Hisc & _ & _)%shape_unfold.
  apply wp_bind. eapply wp_load; [done|]. rewrite (is_id _ _ _ _ _ Hisc), (is_res _ _ _ _ _ Hisc), Hs1.
  unfold edge_weight at 1 in Hprob. destruct (decide (pid = gid tc)) as [Heq|Heq].
  - case_decide as Hid; [apply wp_ret; by eapply Hhere|].
    assert (1 ≤ prob) by (apply Znot_gt_le; intros ?; apply Hid; split; [done|lia]).
    rewrite (wrap_small 64 (prob - 1)) by lia.
    case_decide; [eapply Hpick; [done..|lia]|]. rewrite wrap_small by lia. apply Hnext; lia.
  - rewrite decide_False by (by intros []).
    case_decide; [eapply Hpick; [done..|lia]|]. rewrite wrap_small by lia. apply Hnext; lia.
Qed.
End Loops.

(** The node [q] of the tree is a non-terminal. *)
Definition is_non_terminal (m : gmap loc node) (ls : list loc) (q : loc) : Prop :=
  q ∈ ls ∧ ∃ n, m !! q = Some n ∧ id n ≠ 0.

Lemma pick_non_term_rec_ok t : ∀ fuel h chk par p ls r,
  shape chk (nodes h) par p t ls → (gheight t ≤ fuel)%nat → counted t → gid t ≠ 0 →
  count_nt t < 2 ^ 32 → count_edges t < 2 ^ 32 →
  wp (node_pick_non_term_subnode_rec fuel (Some p) r) h
    (λ pr h', h' = h ∧ ∃ q, pr.1 = Some q ∧ is_non_terminal (nodes h) ls q).
Proof.
  induction t as [i r v a b subs IH] using gtree_ind'. intros fuel h chk par p ls rg Hs Hf Hc Hid Hnt He.
  pose proof Hs as (n & ps & lss & Hp & His & -> & Hsub)%shape_unfold. set (t := GNode i r v a b subs) in *.
  destruct fuel as [|fuel]; [cbn in Hf; lia|]. destruct (shapes_length _ _ _ _ _ _ Hsub) as [Hlen _].
  simpl node_pick_non_term_subnode_rec. apply wp_bind. eapply wp_load; [done|].
  destruct (counted_sizes t Hc) as [Hs1 _]; [lia..|]. rewrite (is_nts _ _ _ _ _ His), Hs1.
  pose proof (count_nt_pos t Hid). rewrite decide_False by lia. rewrite wrap_small by lia.
  pose proof (below_range (count_nt t) rg) as (B1 & B2 & B3). destruct (below (count_nt t) rg) as [prob r'].
  cbn [fst] in B1, B2, B3. case_decide.
  { apply wp_ret. split; [done|]. exists p. split; [done|]. split; [left|]. exists n. by rewrite (is_id _ _ _ _ _ His). }
  rewrite (is_count _ _ _ _ _ His), Nat2Z.id, Hlen. change 0 with (Z.of_nat 0).
  eapply pick_non_term_loop_ok; [done|by eapply is_subs|exact Hsub| |done| |lia|].
  - intros s Hin. split; [by eapply counted_sub|]. pose proof (count_nt_sub t s Hid Hin).
    pose proof (count_edges_sub t s Hid Hin) as Hes. unfold edge_weight in Hes. case_decide; lia.
  - rewrite drop_0. pose proof (count_nt_eq t Hid) as Heq. simpl in *. lia.
  - intros j c tc l Hcj Htc Hl Hsh Hidc. pose proof (list_elem_of_lookup_2 _ _ _ Htc) as Hin.
    eapply Forall_forall in IH; [|exact Hin]. pose proof (elem_of_gsubs_height t tc Hin).
    pose proof (count_nt_sub t tc Hid Hin). pose proof (count_edges_sub t tc Hid Hin) as Hes.
    eapply wp_mono; [eapply IH; [done|lia|by eapply (counted_sub t)|done|lia|]|].
    + unfold edge_weight in Hes. case_decide; lia.
    + intros [o r2] h' (-> & q & Hq & Hin' & Hnq). split; [done|]. exists q. split; [done|]. split; [|done].
      right. by eapply concat_lookup_elem.
Qed.

(** [e] is an edge of the tree between a node and a subnode with its id. *)
Definition is_recursion_edge (m : gmap loc node) (ls : list loc) (e : edge) : Prop :=
  ∃ a b na nb ps k, e = Edge (Some a) (Some b) (Z.of_nat k) ∧ a ∈ ls ∧ b ∈ ls ∧
    m !! a = Some na ∧ subnodes na = Some (Some <$> ps) ∧ subnode_count na = zlen ps ∧ ps !! k = Some (Some b) ∧
    m !! b = Some nb ∧ id na = id nb ∧ id na ≠ 0.

Lemma is_recursion_edge_sub m ls ls' e :
  is_recursion_edge m ls e → (∀ q, q ∈ ls → q ∈ ls') → is_recursion_edge m ls' e.
Proof. intros (a & b & na & nb & ps & k & ? & ? & ? & ?) Hsub. exists a, b, na, nb, ps, k. auto 10. Qed.

Lemma count_edges_zero t : gid t = 0 → count_edges t = 0.
Proof. destruct t. simpl. by intros ->. Qed.

Lemma pick_edge_rec_ok t : ∀ fuel h chk par p ls r,
  shape chk (nodes h) par p t ls → (gheight t ≤ fuel)%nat → counted t → 0 < count_edges t →
  count_nt t < 2 ^ 32 → count_edges t < 2 ^ 32 →
  wp (node_pick_recursion_edge_rec fuel (Some p) r) h
    (λ er h', h' = h ∧ is_recursion_edge (nodes h) ls er.1).
Proof.
  induction t as [i r v a b subs IH] using gtree_ind'. intros fuel h chk par p ls rg Hs Hf Hc Hpos Hnt He.
  pose proof Hs as (n & ps & lss & Hp & His & -> & Hsub)%shape_unfold. set (t := GNode i r v a b subs) in *.
  destruct fuel as [|fuel]; [cbn in Hf; lia|]. destruct (shapes_length _ _ _ _ _ _ Hsub) as [Hlen _].
  assert (gid t ≠ 0) as Hid by (intros Hz; rewrite (count_edges_zero t) in Hpos by done; lia).
  simpl node_pick_recursion_edge_rec. apply wp_bind. eapply wp_load; [done|].
  destruct (counted_sizes t Hc) as [_ Hs1]; [lia..|]. rewrite (is_res _ _ _ _ _ His), Hs1.
  rewrite decide_False by lia. rewrite wrap_small by lia.
  pose proof (below_range (count_edges t) rg) as (B1 & B2 & B3). destruct (below (count_edges t) rg) as [prob r'].
  cbn [fst] in B1, B2, B3. rewrite (is_count _ _ _ _ _ His), (is_id _ _ _ _ _ His), Nat2Z.id, Hlen.
  change 0 with (Z.of_nat 0).
  eapply pick_edge_loop_ok; [done|by eapply is_subs|exact Hsub| |done| |lia| |].
  - intros s Hin. split; [by eapply counted_sub|]. pose proof (count_nt_sub t s Hid Hin).
    pose proof (count_edges_sub t s Hid Hin) as Hes. unfold edge_weight in Hes. case_decide; lia.
  - rewrite drop_0. rewrite <- (count_edges_eq t Hid). lia.
  - intros j c tc Hcj Htc Heq. split; [done|].
    destruct (shapes_pick _ _ _ _ _ _ j Hsub) as (o & ot & l & Ho & Hot & Hl & Hsh); [by eapply lookup_lt_Some|].
    simpl in Hot, Htc. simplify_eq. simpl in Hsh. apply shape_head in Hsh as Hin.
    pose proof Hsh as (nc & ? & ? & Hnc & Hisc & _ & _)%shape_unfold.
    exists p, c, n, nc, ps, j. split_and!; try done; [left|right; by eapply concat_lookup_elem| | | |].
    + eapply is_subs; [done|]. by intros ->.
    + by eapply is_count.
    + by rewrite (is_id _ _ _ _ _ His), (is_id _ _ _ _ _ Hisc).
    + by rewrite (is_id _ _ _ _ _ His).
  - intros j c tc l Hcj Htc Hl Hsh Hposc. pose proof (list_elem_of_lookup_2 _ _ _ Htc) as Hin.
    eapply Forall_forall in IH; [|exact Hin]. pose proof (elem_of_gsubs_height t tc Hin).
    pose proof (count_nt_sub t tc Hid Hin). pose proof (count_edges_sub t tc Hid Hin) as Hes.
    eapply wp_mono; [eapply IH; [done|lia|by eapply (counted_sub t)|done|lia|]|].
    + unfold edge_weight in Hes. case_decide; lia.
    + intros [e r2] h' (-> & He'). split; [done|]. eapply is_recursion_edge_sub; [done|].
      intros q Hq. right. by eapply concat_lookup_elem.
Qed.

Lemma node_pick_non_term_subnode_ok h chk par p t ls r :
  shape chk (nodes h) par p t ls → NoDup ls → counted t → gid t ≠ 0 →
  count_nt t < 2 ^ 32 → count_edges t < 2 ^ 32 →
  wp (node_pick_non_term_subnode (Some p) r) h
    (λ pr h', h' = h ∧ ∃ q, pr.1 = Some q ∧ is_non_terminal (nodes h) ls q).
Proof.
  intros Hs Hnd ????. unfold node_pick_non_term_subnode, with_fuel. eapply pick_non_term_rec_ok; try done.
  etrans; [by eapply shape_fuel|]. lia.
Qed.

(** Without recursion edges there is no edge to pick. *)
Lemma node_pick_recursion_edge_ok h chk par p t ls r :
  shape chk (nodes h) par p t ls → NoDup ls → counted t → count_nt t < 2 ^ 32 → count_edges t < 2 ^ 32 →
  wp (node_pick_recursion_edge (Some p) r) h
    (λ er h', h' = h ∧ if decide (count_edges t = 0) then er.1 = null_edge else is_recursion_edge (nodes h) ls er.1).
Proof.
  intros Hs Hnd Hc ??. unfold node_pick_recursion_edge, with_fuel. pose proof (count_edges_nonneg t). case_decide.
  - pose proof Hs as (n & ? & ? & Hp & His & _ & _)%shape_unfold. cbn [node_pick_recursion_edge_rec].
    change (wp (n ← load (Some p);
      if decide (recursion_edge_size n = 0) then mret (null_edge, r) else
      let '(prob, r) := below (u32 (recursion_edge_size n)) r in
      pick_edge_loop (node_pick_recursion_edge_rec (size (nodes h))) (Z.to_nat (subnode_count n)) 0 prob (Some p) (id n) r)
      h (λ er h', h' = h ∧ er.1 = null_edge)).
    apply wp_bind. eapply wp_load; [done|]. destruct (counted_sizes t Hc) as [_ Hs1]; [lia..|].
    rewrite decide_True; [by apply wp_ret|]. rewrite (is_res _ _ _ _ _ His). lia.
  - eapply pick_edge_rec_ok; try done; [|lia]. etrans; [by eapply shape_fuel|]. lia.
Qed.

(** Random choices are always possible: on a tree whose cached sizes are
    exact (as [node_get_size] leaves them), [node_pick_non_term_subnode] returns a
    non-terminal node of the tree, never NULL, and [node_pick_recursion_edge]
    returns an edge of the tree between a node and a subnode with the same id
    whenever the tree has one, and the null edge otherwise; neither changes
    anything. *)
Theorem node_picks_correct h chk par p t ls r :
  shape chk (nodes h) par p t ls → NoDup ls → counted t → gid t ≠ 0 →
  count_nt t < 2 ^ 32 → count_edges t < 2 ^ 32 →
  (∃ q r', node_pick_non_term_subnode (Some p) r h = Ret ((Some q, r'), h) ∧ is_non_terminal (nodes h) ls q) ∧
  (∃ e r', node_pick_recursion_edge (Some p) r h = Ret ((e, r'), h) ∧
     if decide (count_edges t = 0) then e = null_edge else is_recursion_edge (nodes h) ls e).
Proof.
  intros Hs Hnd Hc Hid Hnt He. split.
  - pose proof (node_pick_non_term_subnode_ok h chk par p t ls r Hs Hnd Hc Hid Hnt He) as Hw.
    apply wp_Ret in Hw as ([o r'] & h' & Hr & -> & q & Ho & Hq). simpl in Ho. subst o. by exists q, r'.
  - pose proof (node_pick_recursion_edge_ok h chk par p t ls r Hs Hnd Hc Hnt He) as Hw.
    apply wp_Ret in Hw as ([e r'] & h' & Hr & -> & Hq). by exists e, r'.
Qed.
End Picks.

(** A generator that always draws the least number. *)
Definition least : Random unit.
Proof.
  refine {| below := λ _ r, (0, r) |}. abstract (simpl; intros; lia).
Defined.

Lemma sample_counted : counted sample_tree.
Proof. vm_compute. reflexivity. Qed.

Lemma node_picks_correct_witness :
  (∃ q r', node_pick_non_term_subnode (Random0 := least) (Some 1%positive) tt sample_heap = Ret ((Some q, r'), sample_heap) ∧
     is_non_terminal (nodes sample_heap) sample_locs q) ∧
  (∃ e r', node_pick_recursion_edge (Random0 := least) (Some 1%positive) tt sample_heap = Ret ((e, r'), sample_heap) ∧
     if decide (count_edges sample_tree = 0) then e = null_edge else is_recursion_edge (nodes sample_heap) sample_locs e).
Proof.
  apply (node_picks_correct (Random0 := least) sample_heap true None 1 sample_tree sample_locs tt).
  - apply sample_shape.
  - apply sample_NoDup.
  - apply sample_counted.
  - discriminate.
  - vm_compute. reflexivity.
  - vm_compute. reflexivity.
Defined.
