(* ===== verification/TreeCounts.v ===== *)
(** * TreeCounts: how exchanging a subtree changes the sizes of a tree *)

From S2P Require Import Prelude Buffer Utils Tree TreeSpec TreeNodes TreeSizes TreeText TreePaths GrammarTypes TreeLists TreePicks.

(** ** Recomputing the cached sizes changes no count *)

Lemma map_recount_sum f subs :
  (∀ s, Some s ∈ subs → f (recount s) = f s) → sum_subs f (map (option_map recount) subs) = sum_subs f subs.
Proof.
  unfold sum_subs. induction subs as [|o subs IH]; intros Hf; [done|]. simpl.
  rewrite IH by (intros s Hs; apply Hf; by right). destruct o as [s|]; [|done]. simpl. by rewrite Hf by left.
Qed.

Lemma count_nt_recount t : count_nt (recount t) = count_nt t.
Proof.
  induction t as [i r v a b subs IH] using gtree_ind'. set (t := GNode i r v a b subs) in *.
  destruct (decide (gid t = 0)) as [Hid|Hid]; [rewrite !count_nt_zero by (by rewrite ?gid_recount); done|].
  rewrite (count_nt_eq (recount t)), (count_nt_eq t) by (by rewrite ?gid_recount). f_equal.
  rewrite recount_eq. simpl. apply map_recount_sum. intros s Hs.
  rewrite Forall_forall in IH. by apply (IH (Some s)).
Qed.

Lemma count_edges_recount t : count_edges (recount t) = count_edges t.
Proof.
  induction t as [i r v a b subs IH] using gtree_ind'. set (t := GNode i r v a b subs) in *.
  destruct (decide (gid t = 0)) as [Hid|Hid]; [rewrite !count_edges_zero by (by rewrite ?gid_recount); done|].
  rewrite (count_edges_eq (recount t)), (count_edges_eq t) by (by rewrite ?gid_recount).
  rewrite recount_eq. simpl. apply map_recount_sum. intros s Hs. unfold edge_weight. rewrite gid_recount. f_equal.
  rewrite Forall_forall in IH. by apply (IH (Some s)).
Qed.

Lemma counted_recount t : counted (recount t).
Proof.
  unfold counted. induction t as [i r v a b subs IH] using gtree_ind'. set (t := GNode i r v a b subs) in *.
  rewrite (recount_eq (recount t)), count_nt_recount, count_edges_recount. rewrite (recount_eq t). cbn [gid grule gval gsubs].
  f_equal. cbn [gsubs t]. induction IH as [|o subs Ho _ IHs]; [done|]. simpl. f_equal; [|done].
  destruct o as [s|]; [|done]. simpl in *. by rewrite Ho.
Qed.

Lemma yield_recount t : yield (recount t) = yield t.
Proof.
  induction t as [i r v a b subs IH] using gtree_ind'. destruct subs as [|o subs]; [done|].
  rewrite !yield_eq by done. rewrite recount_eq. cbn [gsubs]. induction IH as [|o' subs' Ho _ IHs]; [done|].
  simpl. f_equal; [|done]. destruct o' as [s|]; [|done]. exact Ho.
Qed.

Lemma typed_recount productions t : ∀ s, typed productions s t → typed productions s (recount t).
Proof.
  induction t as [i r w a b subs IH] using gtree_ind'. intros s Ht.
  inversion Ht as [|? ? ? ? syms ts Hi Hr Hp Hts]; subst; [constructor|].
  rewrite recount_eq. cbn [gid grule gval gsubs].
  replace (map (option_map recount) (Some <$> ts)) with (Some <$> (recount <$> ts)) by (rewrite <- !list_fmap_compose; done).
  econstructor; [done|done|done|]. apply Forall2_fmap_r. rewrite Forall_fmap in IH. clear Hp Ht.
  induction Hts as [|s t syms ts Hs _ IHts]; [constructor|]. apply Forall_cons in IH as [IH1 IH2].
  constructor; [by apply IH1|by apply IHts].
Qed.

(** ** Exchanging a subtree *)

Lemma sum_subs_insert f subs j s u :
  subs !! j = Some (Some s) → sum_subs f (<[j := Some u]> subs) = sum_subs f subs - f s + f u.
Proof.
  unfold sum_subs. revert j. induction subs as [|o subs IH]; intros [|j] Hj; simpl in *; [done|done| |].
  - injection Hj as ->. lia.
  - rewrite (IH j Hj). lia.
Qed.

Section Counts.
Context (productions : Z → list (list symbol)).

Lemma typed_child s t j c : typed productions s t → gsubs t !! j = Some (Some c) → gid t ≠ 0 ∧ ∃ s', typed productions s' c.
Proof.
  intros Ht Hj. inversion Ht as [|? ? ? ? syms ts Hi Hr Hp Hts]; subst; [done|]. simpl in *. split; [done|].
  rewrite list_lookup_fmap in Hj. destruct (ts !! j) as [c'|] eqn:Hc; [|done]. injection Hj as ->.
  destruct (Forall2_lookup_r _ _ _ _ _ Hts Hc) as (s' & _ & ?). by exists s'.
Qed.

Lemma gsubs_gput t j π s u : gsubs t !! j = Some (Some s) → gput t (j :: π) u = set_gsubs (<[j := Some (gput s π u)]> (gsubs t)) t.
Proof. intros Hj. simpl. by rewrite Hj. Qed.

Lemma count_nt_gput π : ∀ t s v u, typed productions s t → gget t π = Some v →
  count_nt (gput t π u) = count_nt t - count_nt v + count_nt u.
Proof.
  induction π as [|j π IH]; intros t s v u Ht Hg; [simpl in *; injection Hg as ->; lia|].
  simpl in Hg. destruct (gsubs t !! j) as [[c|]|] eqn:Hj; try done.
  destruct (typed_child s t j c Ht Hj) as [Hid [s' Hc]]. rewrite (gsubs_gput _ _ _ c) by done.
  rewrite (count_nt_eq (set_gsubs _ t)), (count_nt_eq t) by done. simpl gsubs.
  rewrite (sum_subs_insert _ _ _ c) by done. rewrite (IH c s' v u) by done. lia.
Qed.

Lemma count_edges_gput π : ∀ t s v u, typed productions s t → gget t π = Some v → gid u = gid v →
  count_edges (gput t π u) = count_edges t - count_edges v + count_edges u.
Proof.
  induction π as [|j π IH]; intros t s v u Ht Hg Huv; [simpl in *; injection Hg as ->; lia|].
  simpl in Hg. destruct (gsubs t !! j) as [[c|]|] eqn:Hj; try done.
  destruct (typed_child s t j c Ht Hj) as [Hid [s' Hc]]. rewrite (gsubs_gput _ _ _ c) by done.
  rewrite (count_edges_eq (set_gsubs _ t)), (count_edges_eq t) by done. simpl gsubs. simpl gid.
  rewrite (sum_subs_insert _ _ _ c) by done. unfold edge_weight.
  rewrite (gid_gput c π u v) by done. rewrite (IH c s' v u) by done. lia.
Qed.
End Counts.
