(* ===== verification/StrMap.v ===== *)
(** * StrMap: the string hash map of Grammar-Mutator/third_party/rxi_map/map.c

    A map is an array of buckets, each a singly linked chain of entries, with
    the bucket count a power of two; the chunk store keeps two of them.  A chain
    is the list of its entries; [nbuckets] is the length of the array.  The
    theorems show that the operations implement a finite map from strings. *)

From S2P Require Import Prelude.

(** [struct map_node_t], with the key and value stored behind it. *)
Record map_node (A : Type) := MapNode { hash : Z; key : string; value : A }.
Arguments MapNode {A} hash key value.
Arguments hash {A} m.
Arguments key {A} m.
Arguments value {A} m.

(** [map_base_t]; a NULL [buckets] is the empty array. *)
Record map_base (A : Type) := MapBase { buckets : list (list (map_node A)); nnodes : Z }.
Arguments MapBase {A} buckets nnodes.
Arguments buckets {A} m.
Arguments nnodes {A} m.

(** The value of a [char], which is signed. *)
Definition char_value (c : Ascii.ascii) : Z :=
  let n := Z.of_N (Ascii.N_of_ascii c) in if decide (n < 128) then n else n - 256.

(** The loop of [map_hash]. *)
Fixpoint map_hash_loop (h : Z) (s : string) : Z :=
  match s with
  | EmptyString => h
  | String c s => map_hash_loop (u32 (Z.lxor (u32 (u32 (Z.shiftl h 5) + h)) (char_value c))) s
  end.

Definition map_hash (s : string) : Z := map_hash_loop 5381 s.

Section Map.
Context {A : Type}.

Definition nbuckets (m : map_base A) : Z := zlen (buckets m).

(** [map_newnode], when [malloc] obliges. *)
Definition map_newnode (k : string) (v : A) : map_node A := MapNode (map_hash k) k v.

Definition map_bucketidx (m : map_base A) (h : Z) : Z := Z.land h (nbuckets m - 1).

Definition map_addnode (m : map_base A) (n : map_node A) : map_base A :=
  MapBase (alter (λ c, n :: c) (Z.to_nat (map_bucketidx m (hash n))) (buckets m)) (nnodes m).

(** The first loop of [map_resize]: the buckets are visited from the last one
    down, every entry is pushed on the chain. *)
Definition chain_nodes (m : map_base A) : list (map_node A) :=
  foldl (λ nodes c, foldl (λ nodes n, n :: nodes) nodes c) [] (reverse (buckets m)).

(** [map_resize(m, n)]; the flag says whether [realloc] succeeds, the result
    is the map and whether the call returned 0. *)
Definition map_resize (ok : bool) (m : map_base A) (n : Z) : map_base A * bool :=
  let nodes := chain_nodes m in
  let size := if ok then Z.to_nat n else length (buckets m) in
  (foldl map_addnode (MapBase (replicate size []) (nnodes m)) nodes, ok).

(** The test of the search loop. *)
Definition matches (k : string) (n : map_node A) : bool :=
  bool_decide (hash n = map_hash k) && bool_decide (key n = k).

(** [map_getref]: the bucket and the position in its chain. *)
Definition map_getref (m : map_base A) (k : string) : option (nat * nat) :=
  if decide (0 < nbuckets m) then
    let b := Z.to_nat (map_bucketidx m (map_hash k)) in
    c ← buckets m !! b;
    p ← list_find (λ n, matches k n = true) c;
    Some (b, p.1)
  else None.

Definition map_get_ (m : map_base A) (k : string) : option A :=
  p ← map_getref m k;
  c ← buckets m !! p.1;
  n ← c !! p.2;
  Some (value n).

(** [map_set_]: the flags say whether [map_newnode] and the [realloc] of
    [map_resize] get their memory; the result says whether it returned 0. *)
Definition map_set_ (newnode_ok realloc_ok : bool) (m : map_base A) (k : string) (v : A)
    : map_base A * bool :=
  match map_getref m k with
  | Some (b, i) =>
      (MapBase (alter (alter (λ n, MapNode (hash n) (key n) v) i) b (buckets m)) (nnodes m), true)
  | None =>
      if newnode_ok then
        let node := map_newnode k v in
        let '(m', ok) :=
          if decide (nbuckets m ≤ nnodes m)
          then map_resize realloc_ok m (if decide (0 < nbuckets m) then u32 (Z.shiftl (nbuckets m) 1) else 1)
          else (m, true) in
        if ok then
          let m2 := map_addnode m' node in (MapBase (buckets m2) (u32 (nnodes m2 + 1)), true)
        else (m', false)
      else (m, false)
  end.

Definition map_remove_ (m : map_base A) (k : string) : map_base A :=
  match map_getref m k with
  | Some (b, i) => MapBase (alter (delete i) b (buckets m)) (u32 (nnodes m - 1))
  | None => m
  end.

Definition map_init : map_base A := MapBase [] 0.

Definition map_deinit_ (m : map_base A) : map_base A := MapBase [] 0.

(** The keys a [while ((key = map_next(m, &iter)))] loop yields, in order: the
    chains of the buckets, from bucket 0 on. *)
Record map_iter := MapIter { it_bucket : Z; it_rest : option (map_node A * list (map_node A)) }.

Definition map_iter_ : map_iter := MapIter (-1) None.

(** The [do ... while] loop that looks for the next non-empty bucket. *)
Fixpoint next_bucket (fuel : nat) (m : map_base A) (b : Z) : option (string * map_iter) :=
  match fuel with
  | O => None
  | S fuel =>
      let b := b + 1 in
      if decide (nbuckets m ≤ b) then None
      else match buckets m !! Z.to_nat b with
           | Some (n :: rest) => Some (key n, MapIter b (Some (n, rest)))
           | _ => next_bucket fuel m b
           end
  end.

Definition map_next_ (m : map_base A) (it : map_iter) : option (string * map_iter) :=
  match it_rest it with
  | Some (_, n :: rest) => Some (key n, MapIter (it_bucket it) (Some (n, rest)))
  | _ => next_bucket (S (length (buckets m))) m (it_bucket it)
  end.

(** The keys such a loop sees, at most [fuel] of them. *)
Fixpoint iter_keys (fuel : nat) (m : map_base A) (it : map_iter) : list string :=
  match fuel with
  | O => []
  | S fuel => match map_next_ m it with
              | Some (k, it') => k :: iter_keys fuel m it'
              | None => []
              end
  end.

(** ** Abstraction *)

Definition entries (m : map_base A) : list (map_node A) := concat (buckets m).

Definition pair_of (n : map_node A) : string * A := (key n, value n).

Definition to_gmap (m : map_base A) : gmap string A := list_to_map (pair_of <$> entries m).

(** Every entry sits in the bucket of its hash, keys are unique, and the bucket
    count is a power of two (or there is no array yet). *)
Record map_ok (m : map_base A) : Prop := {
  ok_pow2 : buckets m = [] ∨ ∃ j, 0 ≤ j ∧ nbuckets m = 2 ^ j;
  ok_placed : ∀ b c n, buckets m !! b = Some c → n ∈ c →
    hash n = map_hash (key n) ∧ map_bucketidx m (hash n) = Z.of_nat b;
  ok_keys : NoDup (key <$> entries m);
  ok_count : nnodes m = u32 (zlen (entries m)) }.

Lemma map_hash_range k : 0 ≤ map_hash k < 2 ^ 32.
Proof.
  unfold map_hash. assert (0 ≤ 5381 < 2 ^ 32) as Hh by lia. revert Hh. generalize 5381 as h.
  induction k as [|c k IH]; intros h Hh; simpl; [done|]. apply IH. apply wrap_range. lia.
Qed.

Lemma bucketidx_range m h : nbuckets m ≠ 0 → (∃ j, 0 ≤ j ∧ nbuckets m = 2 ^ j) → 0 ≤ h →
  map_bucketidx m h = h mod nbuckets m ∧ 0 ≤ map_bucketidx m h < nbuckets m.
Proof.
  intros Hz (j & Hj & Hn) Hh. unfold map_bucketidx. rewrite Hn.
  replace (2 ^ j - 1) with (Z.ones j) by (rewrite Z.ones_equiv; lia). rewrite Z.land_ones by done. split; [done|].
  apply Z.mod_pos_bound. lia.
Qed.

Lemma bucketidx_lookup m h : map_ok m → buckets m ≠ [] → 0 ≤ h →
  ∃ c, buckets m !! Z.to_nat (map_bucketidx m h) = Some c.
Proof.
  intros [[?|Hp] _ _ _] Hne Hh; [done|]. apply lookup_lt_is_Some_2.
  destruct (bucketidx_range m h) as [_ Hr]; [|done|done|].
  - unfold nbuckets. destruct (buckets m); [done|simpl; lia].
  - unfold nbuckets in Hr. lia.
Qed.

Lemma concat_pick {B} (bs : list (list B)) b c :
  bs !! b = Some c → concat bs ≡ₚ c ++ concat (delete b bs).
Proof.
  intros Hb. rewrite <- (take_drop_middle bs b c Hb) at 1. rewrite delete_take_drop.
  rewrite !concat_app. simpl. by rewrite !app_assoc, (Permutation_app_comm c).
Qed.

Lemma delete_alter_same {B} f b (l : list B) : delete b (alter f b l) = delete b l.
Proof. revert b. induction l as [|x l IH]; intros [|b]; simpl; try done. by rewrite IH. Qed.

Lemma concat_alter {B} (bs : list (list B)) f b c :
  bs !! b = Some c → concat (alter f b bs) ≡ₚ f c ++ concat (delete b bs).
Proof.
  intros Hb. rewrite (concat_pick _ b (f c)); [|by rewrite list_lookup_alter_eq, Hb].
  by rewrite delete_alter_same.
Qed.

Lemma getref_Some m k b i :
  map_getref m k = Some (b, i) →
  ∃ c n, buckets m !! b = Some c ∧ c !! i = Some n ∧ key n = k.
Proof.
  unfold map_getref. case_decide; [|done]. simpl.
  destruct (buckets m !! _) as [c|] eqn:Hc; simpl; [|done].
  destruct (list_find _ c) as [[j n]|] eqn:Hf; simpl; [|done]. intros [= <- <-].
  apply list_find_Some in Hf as (Hj & Hm & _). exists c, n. split_and!; try done.
  unfold matches in Hm. by apply andb_true_iff in Hm as [_ Hm%bool_decide_eq_true].
Qed.

Lemma getref_None m k : map_ok m → map_getref m k = None → k ∉ key <$> entries m.
Proof.
  intros Hok Hg (n & -> & Hn)%list_elem_of_fmap. unfold entries in Hn.
  apply list_elem_of_In, in_concat in Hn as (c & Hc & Hn).
  apply list_elem_of_In in Hc, Hn. apply list_elem_of_lookup in Hc as [b Hb].
  destruct (ok_placed m Hok b c n Hb Hn) as [Hh Hbi].
  unfold map_getref in Hg. rewrite decide_True in Hg.
  2: { unfold nbuckets. apply lookup_lt_Some in Hb. lia. }
  rewrite <- Hh, Hbi, Nat2Z.id, Hb in Hg. simpl in Hg.
  destruct (list_find _ c) as [[j n']|] eqn:Hf; [done|].
  apply list_find_None in Hf. eapply Forall_forall in Hf; [|done]. apply Hf.
  unfold matches. by rewrite Hh, !bool_decide_eq_true_2.
Qed.

Lemma to_gmap_Some m k v : map_ok m → to_gmap m !! k = Some v ↔ (k, v) ∈ pair_of <$> entries m.
Proof.
  intros Hok. unfold to_gmap. symmetry. apply elem_of_list_to_map.
  rewrite <- list_fmap_compose. apply Hok.
Qed.

Lemma to_gmap_None m k : k ∉ key <$> entries m → to_gmap m !! k = None.
Proof. intros Hk. apply not_elem_of_list_to_map_1. by rewrite <- list_fmap_compose. Qed.

Lemma map_get_ok m k : map_ok m → map_get_ m k = to_gmap m !! k.
Proof.
  intros Hok. unfold map_get_. destruct (map_getref m k) as [[b i]|] eqn:Hg; simpl.
  - apply getref_Some in Hg as (c & n & Hb & Hi & <-). rewrite Hb. simpl. rewrite Hi. simpl. symmetry.
    apply to_gmap_Some; [done|]. apply list_elem_of_fmap. exists n. split; [done|].
    unfold entries. rewrite (concat_pick _ b c) by done. apply elem_of_app. left. by eapply list_elem_of_lookup_2.
  - symmetry. apply to_gmap_None. by apply getref_None.
Qed.

Lemma to_gmap_perm m l : NoDup (key <$> l) → entries m ≡ₚ l → to_gmap m = list_to_map (pair_of <$> l).
Proof.
  intros Hnd Hp. symmetry. apply list_to_map_proper; [by rewrite <- list_fmap_compose|by rewrite Hp].
Qed.

(** ** Moving entries between buckets *)

Definition hashed (n : map_node A) : Prop := hash n = map_hash (key n).

Definition placed (m : map_base A) : Prop :=
  (∃ j, 0 ≤ j ∧ nbuckets m = 2 ^ j) ∧
  ∀ b c n, buckets m !! b = Some c → n ∈ c → hashed n ∧ map_bucketidx m (hash n) = Z.of_nat b.

Lemma nbuckets_addnode m n : nbuckets (map_addnode m n) = nbuckets m.
Proof. unfold nbuckets, map_addnode. simpl. by rewrite length_alter. Qed.

Lemma map_addnode_ok m n : placed m → hashed n →
  placed (map_addnode m n) ∧ entries (map_addnode m n) ≡ₚ n :: entries m.
Proof.
  intros [Hp Hpl] Hn. pose proof (map_hash_range (key n)) as Hr.
  destruct (bucketidx_range m (hash n)) as [_ Hi]; [destruct Hp as (j & ? & ->); lia|done|rewrite Hn; lia|].
  destruct (lookup_lt_is_Some_2 (buckets m) (Z.to_nat (map_bucketidx m (hash n)))) as [c Hc].
  { unfold nbuckets in Hi. lia. }
  split.
  - split; [by rewrite nbuckets_addnode|]. intros b c' n'. unfold map_bucketidx. rewrite nbuckets_addnode. simpl.
    rewrite list_lookup_alter. case_decide as Hb.
    + subst b. rewrite Hc. intros [= <-] [->|Hin]%elem_of_cons; [|by eapply Hpl].
      split; [done|]. unfold map_bucketidx in Hi. rewrite Z2Nat.id by apply Hi. done.
    + intros Hb' Hin. by eapply Hpl.
  - unfold entries, map_addnode. simpl. rewrite (concat_alter _ _ _ c) by done.
    rewrite (concat_pick _ _ c Hc) at 1. done.
Qed.

Lemma foldl_addnode_ok nodes : ∀ m, placed m → Forall hashed nodes →
  placed (foldl map_addnode m nodes) ∧ entries (foldl map_addnode m nodes) ≡ₚ nodes ++ entries m ∧
  nnodes (foldl map_addnode m nodes) = nnodes m.
Proof.
  induction nodes as [|n nodes IH]; intros m Hm Hh; [done|]. apply Forall_cons in Hh as [Hn Hh].
  destruct (map_addnode_ok m n Hm Hn) as [Hm' He]. destruct (IH _ Hm' Hh) as (H1 & H2 & H3). simpl.
  split_and!; [done| |done]. rewrite H2, He. by rewrite Permutation_middle.
Qed.

Lemma chain_nodes_perm m : chain_nodes m ≡ₚ entries m.
Proof.
  assert (∀ (c acc : list (map_node A)), foldl (λ nodes n, n :: nodes) acc c = reverse c ++ acc) as Hin.
  { induction c as [|n c IH]; intros acc; simpl; [done|]. rewrite IH, reverse_cons, <- app_assoc. done. }
  assert (∀ (bs : list (list (map_node A))) acc, foldl (λ nodes c, foldl (λ nodes n, n :: nodes) nodes c) acc bs ≡ₚ concat bs ++ acc) as Hout.
  { induction bs as [|c bs IH]; intros acc; simpl; [done|]. rewrite IH, Hin, reverse_Permutation.
    rewrite <- app_assoc. apply Permutation_app_swap_app. }
  unfold chain_nodes, entries. rewrite Hout, app_nil_r.
  generalize (buckets m) as bs. induction bs as [|c bs IH]; [done|].
  rewrite reverse_cons, concat_app, IH. simpl. by rewrite app_nil_r, Permutation_app_comm.
Qed.

Lemma map_ok_hashed m : map_ok m → Forall hashed (entries m).
Proof.
  intros Hok. apply Forall_forall. intros n Hn.
  apply list_elem_of_In, in_concat in Hn as (c & Hc & Hn). apply list_elem_of_In in Hc, Hn.
  apply list_elem_of_lookup in Hc as [b Hb]. by destruct (ok_placed m Hok b c n Hb Hn).
Qed.

Lemma placed_empty j x : 0 ≤ j → placed (MapBase (replicate (Z.to_nat (2 ^ j)) []) x).
Proof.
  intros Hj. split.
  - exists j. split; [done|]. unfold nbuckets. simpl. rewrite length_replicate. lia.
  - intros b c n. simpl. intros [-> _]%lookup_replicate []%not_elem_of_nil.
Qed.

Lemma concat_replicate_nil {B} n : concat (replicate n ([] : list B)) = [].
Proof. by induction n. Qed.

(** [map_resize] keeps the entries, whether or not it gets its memory. *)
Lemma map_resize_ok ok m j : map_ok m → 0 ≤ j →
  entries (map_resize ok m (2 ^ j)).1 ≡ₚ entries m ∧ nnodes (map_resize ok m (2 ^ j)).1 = nnodes m ∧
  (ok = true ∨ buckets m ≠ [] → placed (map_resize ok m (2 ^ j)).1) ∧
  (ok = false → buckets m = [] → buckets (map_resize ok m (2 ^ j)).1 = []).
Proof.
  intros Hok Hj. unfold map_resize. simpl.
  assert (Forall hashed (chain_nodes m)) as Hh by (rewrite chain_nodes_perm; by apply map_ok_hashed).
  assert ((ok = false ∧ buckets m = []) ∨
          ∃ i, 0 ≤ i ∧ (ok = false → buckets m ≠ []) ∧
            (if ok then Z.to_nat (2 ^ j) else length (buckets m)) = Z.to_nat (2 ^ i)) as [[-> Hnil]|(i & Hi & Hne & ->)].
  { destruct ok; [right; by exists j|]. destruct (ok_pow2 m Hok) as [?|(i & ? & Hi)]; [by left|right].
    exists i. unfold nbuckets in Hi. split_and!; [done| |lia]. intros _ Hnil. rewrite Hnil in Hi. simpl in Hi.
    assert (0 < 2 ^ i) by (by apply Z.pow_pos_nonneg). lia. }
  - assert (chain_nodes m = []) as ->.
    { apply Permutation_nil_r. rewrite chain_nodes_perm. unfold entries. by rewrite Hnil. }
    rewrite Hnil. simpl. unfold entries. simpl. rewrite Hnil. split_and!; try done. by intros [|].
  - destruct (foldl_addnode_ok (chain_nodes m) _ (placed_empty i (nnodes m) Hi) Hh) as (H1 & H2 & H3).
    split_and!; [|done|done|].
    + rewrite H2, chain_nodes_perm. unfold entries at 2. simpl. by rewrite concat_replicate_nil, app_nil_r.
    + intros -> Hnil. by destruct Hne.
Qed.

(** ** Insertion and removal *)

Lemma map_ok_placed m : map_ok m → buckets m ≠ [] → placed m.
Proof. intros [[?|Hp] H2 _ _] Hne; [done|]. by split. Qed.

Lemma placed_ok m : placed m → NoDup (key <$> entries m) → nnodes m = u32 (zlen (entries m)) → map_ok m.
Proof. intros [Hp Hpl] Hnd Hn. split; [by right|done|done|done]. Qed.

(** Adding an entry with a new key. *)
Lemma add_new_ok m k v : placed m → NoDup (key <$> entries m) → k ∉ key <$> entries m →
  nnodes m = u32 (zlen (entries m)) →
  let m2 := map_addnode m (map_newnode k v) in
  let m' := MapBase (buckets m2) (u32 (nnodes m2 + 1)) in
  map_ok m' ∧ to_gmap m' = <[k := v]> (to_gmap m).
Proof.
  intros Hp Hnd Hk Hn m2 m'. destruct (map_addnode_ok m (map_newnode k v) Hp) as [Hp2 He]; [done|].
  assert (NoDup (key <$> entries m2)) as Hnd2. { unfold m2. rewrite He. simpl. by apply NoDup_cons. }
  split.
  - apply placed_ok; [exact Hp2|done|]. change (entries m') with (entries m2). unfold m2. rewrite He. simpl.
    rewrite Hn. autorewrite with wrap. f_equal. lia.
  - change (to_gmap m') with (to_gmap m2). rewrite (to_gmap_perm m2 (map_newnode k v :: entries m)); [done| |done].
    simpl. by apply NoDup_cons.
Qed.

(** Overwriting the value of a present key. *)
Lemma overwrite_ok m k v b i : map_ok m → map_getref m k = Some (b, i) →
  let m' := MapBase (alter (alter (λ n, MapNode (hash n) (key n) v) i) b (buckets m)) (nnodes m) in
  map_ok m' ∧ to_gmap m' = <[k := v]> (to_gmap m).
Proof.
  intros Hok Hg m'. apply getref_Some in Hg as (c & n & Hb & Hi & Hk).
  set (f := λ n : map_node A, MapNode (hash n) (key n) v) in *.
  assert (entries m ≡ₚ n :: delete i c ++ concat (delete b (buckets m))) as E1.
  { unfold entries. rewrite (concat_pick _ _ _ Hb), app_comm_cons. f_equiv. by apply delete_Permutation. }
  assert (entries m' ≡ₚ f n :: delete i c ++ concat (delete b (buckets m))) as E2.
  { unfold entries. simpl. rewrite (concat_alter _ _ _ c) by done.
    rewrite app_comm_cons, <- (delete_alter_same f i c). f_equiv. apply delete_Permutation.
    by rewrite list_lookup_alter_eq, Hi. }
  pose proof (ok_keys m Hok) as Hnd. rewrite E1 in Hnd. split.
  - split.
    + destruct (ok_pow2 m Hok) as [Hnil|(j & Hj & Hn)]; [by rewrite Hnil in Hb|right].
      exists j. split; [done|]. unfold nbuckets in *. simpl. by rewrite length_alter.
    + intros b' c' n' Hb' Hin. unfold map_bucketidx, nbuckets, m' in *. simpl in *. rewrite length_alter.
      rewrite list_lookup_alter in Hb'. case_decide as Hbb; [|by eapply (ok_placed m Hok)].
      subst b'. rewrite Hb in Hb'. injection Hb' as <-. apply list_elem_of_lookup in Hin as [i' Hi'].
      rewrite list_lookup_alter in Hi'. case_decide as Hii.
      * subst i'. rewrite Hi in Hi'. injection Hi' as <-. simpl.
        apply (ok_placed m Hok b c n Hb). by eapply list_elem_of_lookup_2.
      * apply (ok_placed m Hok b c n' Hb). by eapply list_elem_of_lookup_2.
    + by rewrite E2.
    + simpl. rewrite (ok_count m Hok). by rewrite E1, E2.
  - rewrite (to_gmap_perm _ _ Hnd E1), (to_gmap_perm m' (f n :: _) Hnd E2).
    simpl. rewrite Hk, insert_insert_eq. done.
Qed.

Lemma map_set_new_ok newnode_ok realloc_ok m k v m' r :
  map_ok m → nbuckets m < 2 ^ 30 → map_getref m k = None → map_set_ newnode_ok realloc_ok m k v = (m', r) →
  map_ok m' ∧ to_gmap m' = (if r then <[k := v]> (to_gmap m) else to_gmap m) ∧
  (newnode_ok = true → realloc_ok = true → r = true).
Proof.
  intros Hok Hnb Hg. unfold map_set_. rewrite Hg. pose proof (getref_None m k Hok Hg) as Hk.
  destruct newnode_ok; [|by intros [= <- <-]].
  assert (∃ j, 0 ≤ j ∧ (if decide (0 < nbuckets m) then u32 (Z.shiftl (nbuckets m) 1) else 1) = 2 ^ j) as (j & Hj & ->).
  { case_decide as Hz; [|by exists 0]. destruct (ok_pow2 m Hok) as [Hnil|(j & Hj & Hn)].
    { unfold nbuckets in Hz. rewrite Hnil in Hz. simpl in Hz. lia. }
    exists (Z.succ j). split; [lia|]. rewrite Z.shiftl_mul_pow2 by lia. rewrite wrap_small by lia.
    rewrite Z.pow_succ_r by done. rewrite Hn. lia. }
  case_decide as Hfull.
  - destruct (map_resize realloc_ok m (2 ^ j)) as [mr rok] eqn:Hr.
    assert (rok = realloc_ok) as -> by (unfold map_resize in Hr; congruence).
    destruct (map_resize_ok realloc_ok m j Hok Hj) as (He & Hn & Hp & Hz). rewrite Hr in *. simpl in *.
    pose proof (ok_keys m Hok) as Hnd. pose proof (ok_count m Hok) as Hcnt.
    destruct realloc_ok; intros [= <- <-].
    + destruct (add_new_ok mr k v) as [Ho Hm]; [by apply Hp; left|by rewrite He|by rewrite He|by rewrite Hn, Hcnt, He|].
      split_and!; [done| |done]. etrans; [exact Hm|]. by rewrite (to_gmap_perm mr _ Hnd He).
    + split_and!; [|by rewrite (to_gmap_perm mr _ Hnd He)|done].
      destruct (decide (buckets m = [])) as [Hnil|Hne].
      * split; [left; by apply Hz|by rewrite Hz|by rewrite He|by rewrite Hn, Hcnt, He].
      * apply placed_ok; [by apply Hp; right|by rewrite He|by rewrite Hn, Hcnt, He].
  - intros [= <- <-]. destruct (add_new_ok m k v) as [Ho Hm]; [|apply Hok|done|apply Hok|done].
    apply map_ok_placed; [done|]. intros Hnil. apply Hfull. unfold nbuckets. rewrite Hnil. simpl.
    rewrite (ok_count m Hok). apply wrap_range. lia.
Qed.

(** [map_set_] on a well-formed map leaves a well-formed map; when it
    reports success the map binds the key to the value and is otherwise
    unchanged, when it reports failure no binding changes; it succeeds
    whenever its allocations do. *)
Theorem map_set_correct newnode_ok realloc_ok m k v m' r :
  map_ok m → nbuckets m < 2 ^ 30 → map_set_ newnode_ok realloc_ok m k v = (m', r) →
  map_ok m' ∧ to_gmap m' = (if r then <[k := v]> (to_gmap m) else to_gmap m) ∧
  (newnode_ok = true → realloc_ok = true → r = true).
Proof.
  intros Hok Hnb. destruct (map_getref m k) as [[b i]|] eqn:Hg; [|by apply map_set_new_ok].
  unfold map_set_. rewrite Hg. intros [= <- <-]. destruct (overwrite_ok m k v b i Hok Hg). done.
Qed.

Lemma map_remove_ok m k : map_ok m → map_ok (map_remove_ m k) ∧ to_gmap (map_remove_ m k) = delete k (to_gmap m).
Proof.
  intros Hok. unfold map_remove_. destruct (map_getref m k) as [[b i]|] eqn:Hg.
  2: { split; [done|]. rewrite delete_id; [done|]. by apply to_gmap_None, getref_None. }
  set (m' := MapBase _ _). apply getref_Some in Hg as (c & n & Hb & Hi & Hk).
  assert (entries m ≡ₚ n :: delete i c ++ concat (delete b (buckets m))) as E1.
  { unfold entries. rewrite (concat_pick _ _ _ Hb), app_comm_cons. f_equiv. by apply delete_Permutation. }
  assert (entries m' ≡ₚ delete i c ++ concat (delete b (buckets m))) as E2.
  { unfold entries. simpl. by rewrite (concat_alter _ _ _ c). }
  pose proof (ok_keys m Hok) as Hnd. rewrite E1 in Hnd. pose proof Hnd as [Hkn Hnd']%NoDup_cons. split.
  - split.
    + destruct (ok_pow2 m Hok) as [Hnil|(j & Hj & Hn)]; [by rewrite Hnil in Hb|right].
      exists j. split; [done|]. unfold nbuckets in *. simpl. by rewrite length_alter.
    + intros b' c' n' Hb' Hin. unfold map_bucketidx, nbuckets, m' in *. simpl in *. rewrite length_alter.
      rewrite list_lookup_alter in Hb'. case_decide as Hbb; [|by eapply (ok_placed m Hok)].
      subst b'. rewrite Hb in Hb'. injection Hb' as <-. apply (ok_placed m Hok b c n' Hb).
      rewrite (delete_Permutation c i n Hi). by right.
    + by rewrite E2.
    + simpl. rewrite (ok_count m Hok). rewrite E1, E2. simpl. autorewrite with wrap. f_equal. lia.
  - rewrite (to_gmap_perm _ _ Hnd E1), (to_gmap_perm m' _ Hnd' E2). simpl. rewrite Hk, delete_insert_eq.
    rewrite delete_id; [done|]. apply not_elem_of_list_to_map_1. rewrite <- list_fmap_compose. by rewrite <- Hk.
Qed.

(** Lookup and removal agree with the finite map that a well-formed hash
    map stands for: [map_get_] finds exactly the stored bindings, and
    [map_remove_] leaves a well-formed map without the key. *)
Theorem map_get_remove_correct m k :
  map_ok m →
  map_get_ m k = to_gmap m !! k ∧
  map_ok (map_remove_ m k) ∧ to_gmap (map_remove_ m k) = delete k (to_gmap m) ∧
  map_get_ (map_remove_ m k) k = None.
Proof.
  intros Hok. destruct (map_remove_ok m k Hok) as [Hr Hd]. split_and!; [by apply map_get_ok|done|done|].
  by rewrite map_get_ok, Hd, lookup_delete_eq.
Qed.

(** ** Growth *)

Lemma size_to_gmap m : map_ok m → size (to_gmap m) = length (entries m).
Proof.
  intros Hok. unfold to_gmap. rewrite map_size_list_to_map; [by rewrite length_fmap|].
  rewrite <- list_fmap_compose. apply Hok.
Qed.

(** The table is at most twice as large as its contents ask for. *)
Record map_fit (m : map_base A) : Prop := {
  fit_ok : map_ok m;
  fit_room : nbuckets m ≤ 2 * Z.of_nat (size (to_gmap m)) + 1 }.

Lemma foldl_addnode_length l : ∀ m, length (buckets (foldl map_addnode m l)) = length (buckets m).
Proof. induction l as [|n l IH]; intros m; [done|]. simpl. rewrite IH. simpl. by rewrite length_alter. Qed.

Lemma map_set_fit m k v : map_fit m → Z.of_nat (size (to_gmap m)) < 2 ^ 28 →
  map_fit (map_set_ true true m k v).1 ∧ to_gmap (map_set_ true true m k v).1 = <[k := v]> (to_gmap m).
Proof.
  intros [Hok Hroom] Hz. destruct (map_getref m k) as [[b i]|] eqn:Hg.
  - assert ((map_set_ true true m k v).1 = MapBase (alter (alter (λ n, MapNode (hash n) (key n) v) i) b (buckets m)) (nnodes m)) as E
      by (unfold map_set_; by rewrite Hg).
    destruct (overwrite_ok m k v b i Hok Hg) as [H1 H2]. rewrite <- E in H1, H2. split; [|done]. split; [done|].
    rewrite H2, E. unfold nbuckets in *. simpl. rewrite length_alter. etrans; [exact Hroom|].
    destruct (to_gmap m !! k) as [v'|] eqn:Hk; [rewrite map_size_insert_Some by eauto; lia|rewrite map_size_insert_None by done; lia].
  - destruct (map_set_ true true m k v) as [m' r] eqn:E.
    assert (nbuckets m < 2 ^ 30) as Hnb by lia.
    destruct (map_set_new_ok true true m k v m' r Hok Hnb Hg E) as (H1 & H2 & H3). rewrite (H3 eq_refl eq_refl) in H2. simpl.
    split; [|done]. split; [done|]. rewrite H2. pose proof (getref_None m k Hok Hg) as Hk.
    rewrite map_size_insert_None by (by apply to_gmap_None). unfold map_set_ in E. rewrite Hg in E.
    pose proof (ok_count m Hok) as Hc. rewrite <- size_to_gmap, wrap_small in Hc by (done || lia).
    case_decide as Hfull; unfold map_resize in E; injection E as <- _; unfold nbuckets in *; simpl; rewrite length_alter.
    + rewrite foldl_addnode_length. simpl. rewrite length_replicate. case_decide; [|lia].
      rewrite Z.shiftl_mul_pow2 by lia. rewrite wrap_small by lia. lia.
    + lia.
Qed.

(** ** Iteration *)

(** The entries an iterator has not reached yet. *)
Definition remaining (m : map_base A) (it : map_iter) : list (map_node A) :=
  match it_rest it with Some (_, rest) => rest | None => [] end
  ++ concat (drop (Z.to_nat (it_bucket it + 1)) (buckets m)).

Lemma next_bucket_ok m : ∀ fuel b, -1 ≤ b → nbuckets m < b + 1 + Z.of_nat fuel →
  match next_bucket fuel m b with
  | Some (k, it') => ∃ n, key n = k ∧ concat (drop (Z.to_nat (b + 1)) (buckets m)) = n :: remaining m it' ∧ -1 ≤ it_bucket it'
  | None => concat (drop (Z.to_nat (b + 1)) (buckets m)) = []
  end.
Proof.
  induction fuel as [|fuel IH]; intros b Hb Hf; unfold nbuckets in *.
  { simpl. by rewrite drop_ge by lia. }
  cbn [next_bucket]. unfold nbuckets. case_decide as Hd. { by rewrite drop_ge by lia. }
  destruct (lookup_lt_is_Some_2 (buckets m) (Z.to_nat (b + 1))) as [c Hc]; [lia|]. rewrite Hc.
  rewrite (drop_S _ c) by done. simpl.
  specialize (IH (b + 1) ltac:(lia) ltac:(lia)).
  replace (Z.to_nat (b + 1 + 1)) with (S (Z.to_nat (b + 1))) in IH by lia.
  destruct c as [|n rest].
  - simpl. exact IH.
  - exists n. split; [done|]. split; [|simpl; lia]. unfold remaining. simpl.
    by replace (Z.to_nat (b + 1 + 1)) with (S (Z.to_nat (b + 1))) by lia.
Qed.

Lemma map_next_ok m it : -1 ≤ it_bucket it →
  match map_next_ m it with
  | Some (k, it') => ∃ n, key n = k ∧ remaining m it = n :: remaining m it' ∧ -1 ≤ it_bucket it'
  | None => remaining m it = []
  end.
Proof.
  intros Hb. unfold map_next_. pose proof (next_bucket_ok m (S (length (buckets m))) (it_bucket it) Hb) as Hn.
  unfold nbuckets in Hn. specialize (Hn ltac:(lia)).
  destruct it as [b [[x [|n rest]]|]]; simpl in *; [exact Hn| |exact Hn]. by exists n.
Qed.

(** A [map_next] loop from a fresh iterator visits every entry of the map
    exactly once and then ends. *)
Theorem map_iteration_complete m fuel :
  (length (entries m) ≤ fuel)%nat → iter_keys fuel m map_iter_ = key <$> entries m.
Proof.
  assert (∀ fuel it, -1 ≤ it_bucket it → (length (remaining m it) ≤ fuel)%nat →
            iter_keys fuel m it = key <$> remaining m it) as Hgen.
  { clear fuel. induction fuel as [|fuel IH]; intros it Hb Hl; simpl.
    { destruct (remaining m it); [done|simpl in Hl; lia]. }
    pose proof (map_next_ok m it Hb) as Hn. destruct (map_next_ m it) as [[k it']|]; [|by rewrite Hn].
    destruct Hn as (n & <- & Hr & Hb'). rewrite Hr in *. simpl in *. f_equal. apply IH; [done|lia]. }
  intros Hf. apply (Hgen fuel map_iter_); [done|]. done.
Qed.
End Map.
Arguments map_iter : clear implicits.

Lemma map_init_ok {A} : map_ok (A := A) map_init.
Proof. split; [by left|done|constructor|done]. Qed.

Lemma map_init_fit {A} : map_fit (A := A) map_init.
Proof. split; [apply map_init_ok|]. unfold nbuckets. simpl. lia. Qed.

(** A map with two entries, the second of which made the table grow. *)
Definition sample_map : map_base Z :=
  (map_set_ true true (map_set_ true true map_init "NODE_EXPR" 1).1 "NODE_OP" 2).1.

Lemma sample_map_ok : map_ok sample_map.
Proof.
  apply placed_ok.
  - split; [by exists 1|]. intros b c n Hb Hn.
    assert (Forall (λ bc : nat * list (map_node Z), Forall (λ n, hash n = map_hash (key n) ∧
      map_bucketidx sample_map (hash n) = Z.of_nat bc.1) bc.2) (imap pair (buckets sample_map))) as Hall.
    { apply (bool_decide_unpack _). vm_compute. reflexivity. }
    eapply Forall_forall in Hall.
    2: { apply list_elem_of_lookup_2 with (i := b). by rewrite list_lookup_imap, Hb. }
    by eapply Forall_forall in Hall.
  - apply (bool_decide_unpack _). vm_compute. reflexivity.
  - reflexivity.
Qed.

Lemma map_set_correct_witness :
  map_ok (map_set_ true true sample_map "NODE_TERM__" 3).1 ∧
  to_gmap (map_set_ true true sample_map "NODE_TERM__" 3).1 = <["NODE_TERM__" := 3]> (to_gmap sample_map) ∧
  (true = true → true = true → true = true).
Proof.
  apply (map_set_correct true true sample_map "NODE_TERM__" 3 _ true); [apply sample_map_ok|vm_compute; reflexivity|].
  vm_compute. reflexivity.
Defined.

Lemma map_get_remove_correct_witness :
  map_get_ sample_map "NODE_OP" = to_gmap sample_map !! "NODE_OP" ∧
  map_ok (map_remove_ sample_map "NODE_OP") ∧
  to_gmap (map_remove_ sample_map "NODE_OP") = delete "NODE_OP" (to_gmap sample_map) ∧
  map_get_ (map_remove_ sample_map "NODE_OP") "NODE_OP" = None.
Proof. apply (map_get_remove_correct sample_map "NODE_OP"). apply sample_map_ok. Defined.

Lemma map_iteration_complete_witness : iter_keys 5 sample_map map_iter_ = key <$> entries sample_map.
Proof. apply (map_iteration_complete sample_map 5). vm_compute. lia. Defined.
