(* ===== verification/World.v ===== *)
(** * World: the state the mutator shares between calls, and the generated code

    Grammar-Mutator keeps its trees on the heap and, in static variables, the
    random generator (utils.c), the maximal length of generated subtrees
    (tree_mutation.c) and the two hash maps of the chunk store (chunk_store.c).
    The functions that f1_c_gen.py generates from a grammar, and the parser, are
    the fields of [Grammar]. *)

From S2P Require Import Prelude Buffer Utils Tree TreeSpec StrMap.

(** ** The generated code *)

(** [gen_func_t]: the arguments are [max_len] and [rule_index]; the value of
    [*consumed] is never read by the callers. *)
Definition gen_func_t (R : Type) : Type := Z → Z → R → M heap (ptr * R).

Class Grammar (R : Type) := {
  gen_funcs : list (option (gen_func_t R));
  node_num_rules : list Z;
  node_type_str : Z → string;
  tree_from_buf : list Z → M heap ptr;
  gen_init__ : Z → R → M heap (ptr * R) }.

(** [XXH3_64bits] of everything that was fed to the hash state. *)
Class Digest := { xxh3 : list Z → Z }.

(** ** The state *)

Record world (R : Type) := World {
  w_heap : heap;
  w_rng : R;
  max_tree_len : Z;
  chunk_store : map_base (option (list loc));
  seen_chunks : map_base loc }.
Arguments World {R} w_heap w_rng max_tree_len chunk_store seen_chunks.
Arguments w_heap {R} w.
Arguments w_rng {R} w.
Arguments max_tree_len {R} w.
Arguments chunk_store {R} w.
Arguments seen_chunks {R} w.

Section World.
Context {R : Type}.

Definition set_heap (h : heap) (w : world R) : world R :=
  World h (w_rng w) (max_tree_len w) (chunk_store w) (seen_chunks w).
Definition set_rng (r : R) (w : world R) : world R :=
  World (w_heap w) r (max_tree_len w) (chunk_store w) (seen_chunks w).
Definition set_max_tree_len (n : Z) (w : world R) : world R :=
  World (w_heap w) (w_rng w) n (chunk_store w) (seen_chunks w).
Definition set_chunk_store m (w : world R) : world R :=
  World (w_heap w) (w_rng w) (max_tree_len w) m (seen_chunks w).
Definition set_seen_chunks m (w : world R) : world R :=
  World (w_heap w) (w_rng w) (max_tree_len w) (chunk_store w) m.

Definition modify (f : world R → world R) : M (world R) unit := λ w, Ret (tt, f w).

(** Running heap code, with and without random choices. *)
Definition on_heap {A} (m : M heap A) : M (world R) A := λ w,
  match m (w_heap w) with
  | Ret (a, h) => Ret (a, set_heap h w)
  | Fault e => Fault e
  | NoFuel => NoFuel
  end.

Definition on_rng {A} (m : R → M heap (A * R)) : M (world R) A := λ w,
  match m (w_rng w) (w_heap w) with
  | Ret ((a, r), h) => Ret (a, set_rng r (set_heap h w))
  | Fault e => Fault e
  | NoFuel => NoFuel
  end.

(** [random_below(limit)]. *)
Definition draw_below `{!Random R} (limit : Z) : M (world R) Z :=
  on_rng (λ r, mret (below (u32 limit) r)).

(** [gen_funcs[id](max_len, &consumed, rule_index)]. *)
Definition call_gen_func `{!Grammar R} (i max_len rule_index : Z) : M (world R) ptr :=
  match gen_funcs !! Z.to_nat i with
  | None => fail OutOfBounds
  | Some None => fail NullDeref
  | Some (Some f) => on_rng (f (i32 max_len) (i32 rule_index))
  end.

(** [node_num_rules[id]]. *)
Definition num_rules `{!Grammar R} (i : Z) : M (world R) Z :=
  match node_num_rules !! Z.to_nat i with
  | None => fail OutOfBounds
  | Some n => mret n
  end.

(** ** Rules *)

Lemma wp_on_heap {A} (m : M heap A) w (Q : A → world R → Prop) :
  wp m (w_heap w) (λ a h, Q a (set_heap h w)) → wp (on_heap m) w Q.
Proof. unfold wp, on_heap. by destruct (m (w_heap w)) as [[a h]| |]. Qed.

(** Two steps of heap code in the middle of a function. *)
Lemma wp_on_heap2 {A B C} (a : M heap A) (b : M heap B) (k : M (world R) C) w (Q : C → world R → Prop) :
  wp (_ ← a; b) (w_heap w) (λ _ h, wp k (set_heap h w) Q) →
  wp (_ ← on_heap a; _ ← on_heap b; k) w Q.
Proof.
  unfold wp, on_heap, mbind, M_bind. destruct (a (w_heap w)) as [[? h1]| |]; simpl; [|done..].
  by destruct (b h1) as [[? h2]| |].
Qed.

(** Three steps of heap code at the end of a function. *)
Lemma wp_on_heap3 {A B C} (a : M heap A) (b : M heap B) (c : M heap C) (t : ptr) w (Q : ptr → world R → Prop) :
  wp (_ ← a; _ ← b; c) (w_heap w) (λ _ h, Q t (set_heap h w)) →
  wp (_ ← on_heap a; _ ← on_heap b; _ ← on_heap c; mret t) w Q.
Proof.
  unfold wp, on_heap, mbind, M_bind, mret, M_ret. destruct (a (w_heap w)) as [[? h1]| |]; simpl; [|done..].
  destruct (b h1) as [[? h2]| |]; simpl; [|done..]. by destruct (c h2) as [[? h3]| |].
Qed.

Lemma wp_on_rng {A} (m : R → M heap (A * R)) w (Q : A → world R → Prop) :
  wp (m (w_rng w)) (w_heap w) (λ ar h, Q ar.1 (set_rng ar.2 (set_heap h w))) → wp (on_rng m) w Q.
Proof. unfold wp, on_rng. by destruct (m (w_rng w) (w_heap w)) as [[[a r] h]| |]. Qed.

Lemma wp_modify (f : world R → world R) w (Q : unit → world R → Prop) : Q tt (f w) → wp (modify f) w Q.
Proof. done. Qed.

Lemma wp_draw_below `{!Random R} limit w (Q : Z → world R → Prop) :
  (∀ x r, 0 ≤ x → (1 < u32 limit → x < u32 limit) → (u32 limit ≤ 1 → x = 0) → Q x (set_rng r w)) →
  wp (draw_below limit) w Q.
Proof.
  intros HQ. unfold draw_below. apply wp_on_rng. pose proof (below_range (u32 limit) (w_rng w)) as (H1 & H2 & H3).
  apply wp_ret. replace (set_heap (w_heap w) w) with w by (by destruct w). by apply HQ.
Qed.

Lemma wp_call_gen_func `{!Grammar R} i max_len rule_index f w (Q : ptr → world R → Prop) :
  gen_funcs !! Z.to_nat i = Some (Some f) →
  wp (f (i32 max_len) (i32 rule_index) (w_rng w)) (w_heap w) (λ pr h, Q pr.1 (set_rng pr.2 (set_heap h w))) →
  wp (call_gen_func i max_len rule_index) w Q.
Proof. intros Hf HQ. unfold call_gen_func. rewrite Hf. by apply wp_on_rng. Qed.
End World.
