(* ===== verification/TreeGrafts.v ===== *)
(** * TreeGrafts: exchanging a subtree for another

    [rules_mutation] and [subtree_trimming] hang a freshly generated subtree into
    the tree, clone the tree and then undo the exchange.  [wp_graft] is the
    correctness of that sequence; what it asks of the generated code is the class
    [GeneratorLaw]. *)

From S2P Require Import Prelude Buffer Utils Tree TreeSpec TreeNodes TreePaths StrMap World.

(** The generated function of node type [i], given one of the lengths [room],
    builds a fresh tree that [builds i] accepts, with [i] at its root, and touches
    nothing else. *)
Class GeneratorLaw {R : Type} `{!Grammar R} (room : Z → Prop) (builds : Z → gtree → Prop) := {
  builds_gid : ∀ i u, builds i u → gid u = i;
  generator_law : ∀ i f ml rule r h,
    gen_funcs !! i = Some (Some f) → room ml → heap_ok h →
    wp (f ml rule r) h (λ pr h', ∃ g u lg, pr.1 = Some g ∧ grown lg h h' ∧ NoDup lg ∧
      shape true (nodes h') None g u lg ∧ builds (Z.of_nat i) u) }.

(** ** The offset of a node in its parent *)

Section Edges.
Context `{Host}.

Lemma wp_offset_loop h pp npp ps i q n : ∀ k (Q : Z → heap → Prop),
  nodes h !! pp = Some npp → subnodes npp = Some (Some <$> ps) → ps !! i = Some (Some q) →
  (∀ j, ps !! j = Some (Some q) → j = i) → (k + n = length ps)%nat → (k ≤ i)%nat →
  Q (Z.of_nat i) h → wp (offset_loop n (Z.of_nat k) (Some pp) (Some q)) h Q.
Proof.
  induction n as [|n IH]; intros k Q Hpp Hsub Hi Hfirst Hn Hk HQ; apply lookup_lt_Some in Hi as Hlt; [lia|].
  simpl. destruct (lookup_lt_is_Some_2 ps k) as [o Ho]; [lia|]. apply wp_bind.
  eapply wp_read_subnode; [done|done|by rewrite Nat2Z.id|]. case_decide as Heq.
  - apply wp_ret. subst o. by rewrite (Hfirst _ Ho).
  - replace (Z.of_nat k + 1) with (Z.of_nat (S k)) by lia. eapply IH; try done; [lia|].
    destruct (decide (k = i)) as [->|]; [|lia]. exfalso. apply Heq. congruence.
Qed.

Lemma wp_parent_edge h q nq pp npp ps i (Q : edge → heap → Prop) :
  nodes h !! q = Some nq → parent nq = Some pp → nodes h !! pp = Some npp →
  subnodes npp = Some (Some <$> ps) → subnode_count npp = zlen ps → ps !! i = Some (Some q) →
  (∀ j, ps !! j = Some (Some q) → j = i) → Q (Edge (Some pp) (Some q) (Z.of_nat i)) h →
  wp (node_get_parent_edge (Some q)) h Q.
Proof.
  intros Hq Hpar Hpp Hsub Hcnt Hi Hfirst HQ. unfold node_get_parent_edge.
  apply wp_bind. eapply wp_load; [done|]. rewrite Hpar. apply wp_bind. eapply wp_load; [done|].
  rewrite Hcnt, Nat2Z.id. apply wp_bind. change 0 with (Z.of_nat 0).
  eapply wp_offset_loop; [done..|lia|lia|]. by apply wp_ret.
Qed.
End Edges.

(** ** Copies of whole trees *)

(** [h'] is [h] with a new tree [T'] added: its root is [p'], its nodes [ls']. *)
Record made (T' p' : loc) (ls' : list loc) (h h' : heap) : Prop := {
  md_new : ∀ l, l ∈ ls' → (next_loc h ≤ l < next_loc h')%positive;
  md_same : ∀ q, q ∉ ls' → nodes h' !! q = nodes h !! q;
  md_fresh : trees h !! T' = None;
  md_tree : trees h' = <[T' := tree_at p']> (trees h);
  md_files : files h' = files h;
  md_next : (next_loc h ≤ next_loc h')%positive;
  md_ok : heap_ok h' }.

Lemma made_old T' p' ls' h h' x : made T' p' ls' h h' → heap_ok h → is_Some (nodes h !! x) → x ∉ ls'.
Proof. intros Hm [O _] [n Hn] Hx. apply O in Hn. apply (md_new _ _ _ _ _ Hm) in Hx. lia. Qed.

(** A tree built around a fresh node. *)
Lemma grown_made T' p' lg h0 h h' : grown lg h0 h → made T' p' [] h h' → made T' p' lg h0 h'.
Proof.
  intros Hg [M1 M2 M3 M4 M5 M6 M7]. pose proof (g_next _ _ _ Hg). split.
  - intros l Hl%(g_new _ _ _ Hg). lia.
  - intros q Hq. rewrite M2 by (by intros []%not_elem_of_nil). by apply (g_same _ _ _ Hg).
  - by rewrite <- (g_trees _ _ _ Hg).
  - by rewrite M4, (g_trees _ _ _ Hg).
  - by rewrite M5, (g_files _ _ _ Hg).
  - lia.
  - done.
Qed.

Section Copies.
Context `{Host} (Hmem : never_refuses).

Lemma wp_tree_create h (Q : ptr → heap → Prop) :
  Q (Some (next_loc h)) (bump (set_trees (<[next_loc h := zero_tree]> (trees h)) h)) → wp tree_create h Q.
Proof. unfold wp, tree_create. by rewrite Hmem. Qed.

Lemma heap_ok_new_tree h x : heap_ok h → heap_ok (bump (set_trees (<[next_loc h := x]> (trees h)) h)).
Proof.
  intros [O1 O2]. split; simpl.
  - intros p n ?%O1. lia.
  - intros t y. destruct (decide (next_loc h = t)) as [->|]; [lia|]. rewrite lookup_insert_ne by done.
    intros ?%O2. lia.
Qed.

Lemma heap_ok_fresh_tree h : heap_ok h → trees h !! next_loc h = None.
Proof. intros [_ O2]. destruct (trees h !! next_loc h) eqn:Ht; [|done]. apply O2 in Ht. lia. Qed.

(** A new tree around an existing root. *)
Definition around (h : heap) (p : loc) : heap :=
  bump (set_trees (<[next_loc h := tree_at p]> (trees h)) h).

Lemma made_around h p : heap_ok h → made (next_loc h) p [] h (around h p).
Proof.
  intros Hok. split; simpl; try done.
  - intros l []%not_elem_of_nil.
  - by apply heap_ok_fresh_tree.
  - lia.
  - by apply (heap_ok_new_tree h (tree_at p)).
Qed.

(** A new tree whose nodes were made after its record. *)
Lemma created_made h g lg h2 :
  heap_ok h → grown lg (bump (set_trees (<[next_loc h := zero_tree]> (trees h)) h)) h2 →
  made (next_loc h) g lg h (set_trees (<[next_loc h := tree_at g]> (trees h2)) h2).
Proof.
  intros Hok [N S TT FF X [O1 O2]]. simpl in *. split; simpl; try done.
  - intros l Hl%N. lia.
  - by apply heap_ok_fresh_tree.
  - by rewrite TT, insert_insert_eq.
  - lia.
  - split; [done|]. simpl. intros t0 y. intros [[<- _]|[_ Ht]]%lookup_insert_Some; [lia|by eapply O2].
Qed.

Lemma wp_tree_clone h T x chk par p t ls (Q : ptr → heap → Prop) :
  heap_ok h → trees h !! T = Some x → root x = Some p → shape chk (nodes h) par p t ls → NoDup ls →
  (∀ T' p' ls' h', made T' p' ls' h h' → NoDup ls' → shape true (nodes h') None p' t ls' → Q (Some T') h') →
  wp (tree_clone (Some T)) h Q.
Proof.
  intros Hok Hx Hroot Hs Hnd HQ. unfold tree_clone. apply wp_bind, wp_tree_create.
  set (h1 := bump _). pose proof (heap_ok_fresh_tree h Hok) as Hfresh.
  apply wp_bind. eapply wp_load_tree; [simpl; rewrite lookup_insert_ne; [done|congruence]|].
  rewrite Hroot. apply wp_bind. eapply wp_mono; [apply (node_clone_ok Hmem h1 chk par p t ls)|].
  { by apply heap_ok_new_tree. } { done. } { done. }
  intros r h2 (p' & ls' & -> & Hg & Hnd' & Hs').
  apply wp_bind. eapply wp_store_tree; [rewrite (g_trees _ _ _ Hg); apply lookup_insert_eq|].
  apply wp_bind. eapply wp_store_tree; [simpl; apply lookup_insert_eq|]. apply wp_ret.
  eapply HQ; [|done|exact Hs']. pose proof (created_made h p' ls' h2 Hok Hg) as Hm.
  by rewrite <- (insert_insert_eq (trees h2) (next_loc h) (tree_at p') (set_root (Some p') zero_tree)) in Hm.
Qed.
End Copies.

(** ** The exchange *)

(** [h'] is [h] without the nodes [lg] and with the tree [T'], of root [p'] and
    nodes [ls'], added. *)
Record grafted (T' p' : loc) (ls' lg : list loc) (h h' : heap) : Prop := {
  gr_same : ∀ x, x ∉ ls' → x ∉ lg → nodes h' !! x = nodes h !! x;
  gr_gone : ∀ x, x ∈ lg → nodes h' !! x = None;
  gr_new : ∀ x, x ∈ ls' → (next_loc h ≤ x < next_loc h')%positive;
  gr_next : (next_loc h ≤ next_loc h')%positive;
  gr_fresh : trees h !! T' = None;
  gr_tree : trees h' = <[T' := tree_at p']> (trees h);
  gr_files : files h' = files h;
  gr_ok : heap_ok h' }.

Section Exchange.
Context `{Host} (Hmem : never_refuses).

(** The nodes after [g] was hung in at the place of [q]. *)
Definition graft_nodes (m : gmap loc node) (pp : loc) (npp : node) (ps : list ptr) (i : nat)
    (q : loc) (nq : node) (g : loc) (ng : node) : gmap loc node :=
  <[g := set_parent (Some pp) ng]>
    (<[pp := set_subnodes (Some (<[i := Some (Some g)]> (Some <$> ps))) npp]>
      (<[q := set_parent None nq]> m)).

Lemma graft_nodes_lookup m pp npp ps i q nq g ng :
  g ≠ pp → g ≠ q → q ≠ pp →
  graft_nodes m pp npp ps i q nq g ng !! g = Some (set_parent (Some pp) ng) ∧
  graft_nodes m pp npp ps i q nq g ng !! pp =
    Some (set_subnodes (Some (<[i := Some (Some g)]> (Some <$> ps))) npp) ∧
  graft_nodes m pp npp ps i q nq g ng !! q = Some (set_parent None nq) ∧
  (∀ y, y ≠ g → y ≠ pp → y ≠ q → graft_nodes m pp npp ps i q nq g ng !! y = m !! y).
Proof.
  intros ? ? ?. unfold graft_nodes. split; [apply lookup_insert_eq|]. split.
  { rewrite lookup_insert_ne by done. apply lookup_insert_eq. }
  split; [rewrite !lookup_insert_ne by done; apply lookup_insert_eq|].
  intros. by rewrite !lookup_insert_ne by done.
Qed.

Lemma heap_ok_update h m :
  heap_ok h → (∀ l, is_Some (m !! l) → is_Some (nodes h !! l)) → heap_ok (set_nodes m h).
Proof. intros [O1 O2] Hm. split; [|done]. intros l n Hn. destruct (Hm l) as [n' Hn']; [by eexists|]. by eapply O1. Qed.

Lemma graft_nodes_ok h pp npp ps i q nq g ng :
  heap_ok h → nodes h !! q = Some nq → nodes h !! pp = Some npp → nodes h !! g = Some ng →
  heap_ok (set_nodes (graft_nodes (nodes h) pp npp ps i q nq g ng) h).
Proof.
  intros Hok Hq Hpp Hg. apply heap_ok_update; [done|]. intros l [n Hn]. unfold graft_nodes in Hn.
  repeat (apply lookup_insert_Some in Hn as [[<- _]|[_ Hn]]; [by eexists|]). by eexists.
Qed.

(** Only the parent pointer of the root [g] has changed. *)
Lemma shape_graft_off h6 h par par' g ng u lg :
  shape true (nodes h) par g u lg → nodes h !! g = Some ng → NoDup lg →
  (∀ y, y ∈ lg → y ≠ g → nodes h6 !! y = nodes h !! y) →
  nodes h6 !! g = Some (set_parent par' ng) → shape false (nodes h6) par' g u lg.
Proof.
  intros Hg Hng Hnd Hm Hg6. eapply (shape_unchecked true). eapply shape_frame; [|by eapply (shape_set_parent true (nodes h))].
  intros y Hy. destruct (decide (y = g)) as [->|]; [by rewrite lookup_insert_eq|].
  rewrite lookup_insert_ne by done. by apply Hm.
Qed.

(** The tree with [g] hung in at the place of [q], as the three stores leave it. *)
Lemma graft_shape h par p t ls π pp npp ps i q nq v lq rest g ng u lg :
  focus true (nodes h) par p t ls π pp npp ps i q v lq rest → NoDup ls →
  shape true (nodes h) None g u lg → NoDup lg → nodes h !! g = Some ng →
  (∀ x, x ∈ ls → x ∉ lg) →
  ∃ ls3, shape true (graft_nodes (nodes h) pp npp ps i q nq g ng) par p (gput t π u) ls3 ∧ NoDup ls3 ∧ ls3 ≡ₚ lg ++ rest.
Proof.
  intros F Hnd Hg Hndg Hng Hdis.
  assert (g ∈ lg) as Hgl by (by eapply shape_head).
  assert (q ∈ lq) as Hql by (eapply shape_head, F).
  assert (∀ x, x ∈ rest → x ≠ g) as Hrg.
  { intros x Hx ->. apply (Hdis g); [|done]. rewrite (focus_split F). by right. }
  assert (∀ x, x ∈ rest → x ≠ q) as Hrq.
  { intros x Hx ->. by eapply (focus_apart F Hnd). }
  assert (∀ x, x ∈ lg → x ≠ pp ∧ x ≠ q) as Hlg.
  { intros x Hx. split; intros ->; eapply Hdis; try done; rewrite (focus_split F); [right; apply F|by left]. }
  set (m3 := graft_nodes _ _ _ _ _ _ _ _ _).
  assert (∀ x, x ≠ g → x ≠ pp → x ≠ q → m3 !! x = nodes h !! x) as Hm3.
  { intros x ? ? ?. unfold m3, graft_nodes. by rewrite !lookup_insert_ne. }
  destruct (f_plug F m3 g u lg) as (ls3 & Hs3 & Hp3).
  { intros x Hx Hpp. apply Hm3; auto. }
  { unfold m3, graft_nodes. rewrite lookup_insert_ne; [apply lookup_insert_eq|]. apply not_eq_sym, Hrg, F. }
  { unfold m3, graft_nodes. eapply (shape_set_parent true _ None (Some pp) g u lg ng); try done.
    all: first [eapply shape_frame; [|exact Hg]; intros x Hx
               |rewrite !lookup_insert_ne by (apply not_eq_sym, Hlg, Hgl); done].
    all: by rewrite !lookup_insert_ne by (apply not_eq_sym, Hlg, Hx). }
  exists ls3. split; [done|]. split; [|done]. rewrite Hp3. apply NoDup_app. split; [done|]. split.
  - intros x Hx Hr. eapply Hdis; [|exact Hx]. rewrite (focus_split F). by right.
  - pose proof (focus_NoDup F Hnd) as (_ & _ & ?)%NoDup_app. done.
Qed.
(** Undoing the exchange: the old entry is written back and [g] is freed. *)
Lemma wp_ungraft h h4 pp npp ps i q nq g ng u lg T' p' ls' (Q : unit → heap → Prop) :
  heap_ok h → nodes h !! pp = Some npp → subnodes npp = Some (Some <$> ps) → ps !! i = Some (Some q) →
  nodes h !! q = Some nq → parent nq = Some pp → q ≠ pp →
  shape true (nodes h) None g u lg → NoDup lg → nodes h !! g = Some ng → pp ∉ lg → q ∉ lg →
  made T' p' ls' (set_nodes (graft_nodes (nodes h) pp npp ps i q nq g ng) h) h4 →
  heap_ok (set_nodes (graft_nodes (nodes h) pp npp ps i q nq g ng) h) →
  (∀ h', grafted T' p' ls' lg h h' → (∀ x, x ∈ ls' → nodes h' !! x = nodes h4 !! x) → Q tt h') →
  wp (_ ← write_subnode (Some pp) (Z.of_nat i) (Some q);
      _ ← store (Some q) (set_parent (Some pp));
      node_free (Some g)) h4 Q.
Proof.
  intros Hok Hpp Hsub Hi Hq Hpar Hqpp Hg Hndg Hng Hppl Hql Hmd Hok3 HQ.
  set (m3 := graft_nodes _ _ _ _ _ _ _ _ _) in *.
  assert (g ∈ lg) as Hgl by (by eapply shape_head).
  assert (g ≠ pp ∧ g ≠ q) as [Hgpp Hgq] by (split; intros ->; auto).
  destruct (graft_nodes_lookup (nodes h) pp npp ps i q nq g ng) as (Mg & Mpp & Mq & Mo); try done.
  fold m3 in Mg, Mpp, Mq, Mo.
  assert (∀ y n, m3 !! y = Some n → nodes h4 !! y = Some n ∧ y ∉ ls') as Hold.
  { intros y n Hy. assert (y ∉ ls') as Hny by (by eapply made_old).
    split; [|done]. by rewrite (md_same _ _ _ _ _ Hmd) by done. }
  pose proof (Hold _ _ Mg) as [Hg4 Hgl']. pose proof (Hold _ _ Mpp) as [Hpp4 Hppl'].
  pose proof (Hold _ _ Mq) as [Hq4 Hql'].
  apply wp_bind. eapply wp_write_subnode; [done|done|rewrite length_insert, length_fmap; apply lookup_lt_Some in Hi; lia|].
  apply wp_bind. eapply wp_store; [simpl; by rewrite lookup_insert_ne|]. simpl. rewrite Nat2Z.id.
  set (h6 := set_nodes _ _).
  assert (∀ y, y ∉ ls' → y ≠ g → nodes h6 !! y = nodes h !! y) as Hsame.
  { intros y Hy Hyg. simpl. destruct (decide (y = q)) as [->|]; [rewrite lookup_insert_eq|rewrite lookup_insert_ne by done].
    { rewrite Hq. f_equal. destruct nq. simpl in *. by subst. }
    destruct (decide (y = pp)) as [->|]; [rewrite lookup_insert_eq|rewrite lookup_insert_ne by done].
    { rewrite Hpp. f_equal. rewrite list_insert_insert_eq. rewrite list_insert_id by (by rewrite list_lookup_fmap, Hi).
      rewrite <- Hsub. by destruct npp. }
    rewrite (md_same _ _ _ _ _ Hmd) by done. simpl. by apply Mo. }
  assert (∀ y, y ∈ ls' → nodes h6 !! y = nodes h4 !! y) as Hcopy.
  { intros y Hy. simpl. by rewrite !lookup_insert_ne by (by intros ->). }
  eapply wp_mono; [apply (node_free_ok h6 false (Some pp) g u lg)|].
  { apply (shape_graft_off h6 h None (Some pp) g ng u lg); try done.
    - intros y Hy Hyg. apply Hsame; [|done].
      assert (is_Some (m3 !! y)) as [n Hn]; [|by eapply Hold].
      assert (y ≠ pp ∧ y ≠ q) as [? ?] by (split; intros ->; auto).
      rewrite Mo by done. by eapply shape_lookup.
    - simpl. by rewrite !lookup_insert_ne by done. }
  { done. }
  intros [] h7 Hpr. apply HQ.
  - split.
    + intros y Hy Hyg. rewrite (pr_same _ _ _ Hpr) by done. apply Hsame; [done|]. by intros ->.
    + by apply (pr_gone _ _ _ Hpr).
    + intros y Hy. rewrite (pr_next _ _ _ Hpr). by apply (md_new _ _ _ _ _ Hmd) in Hy.
    + rewrite (pr_next _ _ _ Hpr). apply (md_next _ _ _ _ _ Hmd).
    + apply (md_fresh _ _ _ _ _ Hmd).
    + rewrite (pr_trees _ _ _ Hpr). apply (md_tree _ _ _ _ _ Hmd).
    + rewrite (pr_files _ _ _ Hpr). apply (md_files _ _ _ _ _ Hmd).
    + eapply pruned_ok; [done|]. apply (heap_ok_update h4 (nodes h6)); [apply Hmd|].
      intros l [n Hn]. simpl in Hn. apply lookup_insert_Some in Hn as [[<- _]|[_ Hn]]; [by eexists|].
      apply lookup_insert_Some in Hn as [[<- _]|[_ Hn]]; by eexists.
  - intros y Hy. rewrite (pr_same _ _ _ Hpr); [by apply Hcopy|]. intros Hyl.
    apply (md_new _ _ _ _ _ Hmd) in Hy. simpl in Hy.
    destruct (shape_lookup _ _ _ _ _ _ y Hg Hyl) as [n Hn]. apply Hok in Hn. lia.
Qed.

(** [node_replace_subnode] finds the entry of [q] and hangs [g] there. *)
Lemma wp_replace_loop h pp npp ps i q nq g ng n : ∀ k (Q : bool → heap → Prop),
  nodes h !! pp = Some npp → subnodes npp = Some (Some <$> ps) → ps !! i = Some (Some q) →
  (∀ j, ps !! j = Some (Some q) → j = i) → nodes h !! q = Some nq → nodes h !! g = Some ng →
  g ≠ pp → g ≠ q → q ≠ pp → (k + n = length ps)%nat → (k ≤ i)%nat →
  Q true (set_nodes (graft_nodes (nodes h) pp npp ps i q nq g ng) h) →
  wp (replace_loop n (Z.of_nat k) (Some pp) (Some q) (Some g)) h Q.
Proof.
  induction n as [|n IH]; intros k Q Hpp Hsub Hi Hfirst Hq Hg Hgpp Hgq Hqpp Hn Hk HQ;
    apply lookup_lt_Some in Hi as Hlt; [lia|].
  simpl. destruct (lookup_lt_is_Some_2 ps k) as [o Ho]; [lia|]. apply wp_bind.
  eapply wp_read_subnode; [done|done|by rewrite Nat2Z.id|]. case_decide as Heq.
  - subst o. rewrite (Hfirst _ Ho) in *. apply wp_bind. eapply wp_write_subnode; [done|done|rewrite length_fmap; lia|].
    apply wp_bind. eapply wp_store; [simpl; by rewrite lookup_insert_ne|].
    apply wp_bind. eapply wp_store; [simpl; by rewrite !lookup_insert_ne by done|]. apply wp_ret.
    rewrite Nat2Z.id. unfold graft_nodes in HQ.
    by rewrite (insert_insert_ne _ pp q), (insert_insert_ne _ g q) in HQ by done.
  - replace (Z.of_nat k + 1) with (Z.of_nat (S k)) by lia. eapply IH; try done; [lia|].
    destruct (decide (k = i)) as [->|]; [|lia]. exfalso. apply Heq. congruence.
Qed.

Lemma wp_replace_subnode h pp npp ps i q nq g ng (Q : bool → heap → Prop) :
  nodes h !! pp = Some npp → subnodes npp = Some (Some <$> ps) → subnode_count npp = zlen ps →
  ps !! i = Some (Some q) → (∀ j, ps !! j = Some (Some q) → j = i) →
  nodes h !! q = Some nq → nodes h !! g = Some ng → id nq = id ng → parent nq = Some pp →
  g ≠ pp → g ≠ q → q ≠ pp → Q true (set_nodes (graft_nodes (nodes h) pp npp ps i q nq g ng) h) →
  wp (node_replace_subnode (Some pp) (Some q) (Some g)) h Q.
Proof.
  intros Hpp Hsub Hcnt Hi Hfirst Hq Hg Hid Hpar ????. unfold node_replace_subnode.
  apply wp_bind. eapply wp_load; [done|]. apply wp_bind. eapply wp_load; [done|].
  rewrite decide_False by (intros []; done). rewrite Hpar, decide_False by (intros []; done).
  apply wp_bind. eapply wp_load; [done|]. rewrite Hcnt, Nat2Z.id. change 0 with (Z.of_nat 0).
  by eapply wp_replace_loop; [done..|lia|lia|].
Qed.

(** The node [q] that was exchanged is freed. *)
Lemma wp_free_replaced h par p t ls π pp npp ps i q nq v lq rest g ng u lg (Q : unit → heap → Prop) :
  focus true (nodes h) par p t ls π pp npp ps i q v lq rest → NoDup ls →
  shape true (nodes h) None g u lg → NoDup lg → nodes h !! q = Some nq → nodes h !! g = Some ng →
  (∀ x, x ∈ ls → x ∉ lg) →
  (∀ h' ls3, pruned lq (set_nodes (graft_nodes (nodes h) pp npp ps i q nq g ng) h) h' →
     shape true (nodes h') par p (gput t π u) ls3 → NoDup ls3 → ls3 ≡ₚ lg ++ rest → Q tt h') →
  wp (node_free (Some q)) (set_nodes (graft_nodes (nodes h) pp npp ps i q nq g ng) h) Q.
Proof.
  intros F Hnd Hg Hndg Hq Hng Hdis HQ.
  destruct (graft_shape h par p t ls π pp npp ps i q nq v lq rest g ng u lg F Hnd Hg Hndg Hng Hdis)
    as (ls3 & Hs3 & Hnd3 & Hp3).
  pose proof (focus_NoDup F Hnd) as (Hndq & Hdisq & _)%NoDup_app.
  assert (q ∈ lq) as Hql by (eapply shape_head, F). assert (g ∈ lg) as Hgl by (by eapply shape_head).
  assert (∀ x, x ∈ lq → x ≠ g ∧ x ≠ pp) as Hlq.
  { intros x Hx. split; [intros ->|intros ->; eapply Hdisq; [done|apply F]].
    apply (Hdis g); [rewrite (focus_split F); by left|done]. }
  assert (g ≠ pp) as Hgpp by (intros ->; apply (Hdis pp); [rewrite (focus_split F); right; apply F|done]).
  destruct (graft_nodes_lookup (nodes h) pp npp ps i q nq g ng) as (Mg & Mpp & Mq & Mo).
  { done. } { apply not_eq_sym, Hlq, Hql. } { apply Hlq, Hql. }
  set (h1 := set_nodes _ h). eapply wp_mono; [eapply (node_free_ok h1 false None q v lq)|].
  - apply (shape_graft_off h1 h (Some pp) None q nq); [apply F|done|done| |exact Mq].
    intros y Hy Hyq. simpl. apply Mo; [apply Hlq, Hy..|done].
  - done.
  - intros [] h' Hpr. apply (HQ h' ls3); [done| |done|done]. eapply shape_frame; [|exact Hs3].
    intros y Hy. rewrite (pr_same _ _ _ Hpr); [done|]. intros Hyq. rewrite Hp3 in Hy.
    apply elem_of_app in Hy as [Hy|Hy]; [|by eapply Hdisq].
    apply (Hdis y); [rewrite (focus_split F); by left|done].
Qed.

Context {R : Type}.

Lemma wp_tree_around (w : world R) p (Q : ptr → world R → Prop) :
  Q (Some (next_loc (w_heap w))) (set_heap (around (w_heap w) p) w) →
  wp (t' ← on_heap tree_create; _ ← on_heap (store_tree t' (set_root (Some p))); mret t') w Q.
Proof.
  intros HQ. apply wp_bind, wp_on_heap, (wp_tree_create Hmem). apply wp_bind, wp_on_heap.
  eapply wp_store_tree; [simpl; apply lookup_insert_eq|]. apply wp_ret. simpl.
  by rewrite insert_insert_eq.
Qed.

Lemma wp_graft (w : world R) T x par p t ls π pp npp ps i q v lq rest g u lg (Q : ptr → world R → Prop) :
  let h := w_heap w in
  heap_ok h → trees h !! T = Some x → root x = Some p → NoDup ls →
  focus true (nodes h) par p t ls π pp npp ps i q v lq rest →
  shape true (nodes h) None g u lg → NoDup lg → (∀ x, x ∈ ls → x ∉ lg) →
  (∀ T' p' ls' h', grafted T' p' ls' lg h h' → shape true (nodes h') None p' (gput t π u) ls' → NoDup ls' →
     Q (Some T') (set_heap h' w)) →
  wp (e ← on_heap (node_get_parent_edge (Some q));
      _ ← on_heap (store (Some q) (set_parent None));
      _ ← on_heap (write_subnode (Some pp) (subnode_offset e) (Some g));
      _ ← on_heap (store (Some g) (set_parent (Some pp)));
      t' ← on_heap (tree_clone (Some T));
      _ ← on_heap (write_subnode (Some pp) (subnode_offset e) (Some q));
      _ ← on_heap (store (Some q) (set_parent (Some pp)));
      _ ← on_heap (node_free (Some g));
      mret t') w Q.
Proof.
  intros h Hok Hx Hroot Hnd F Hg Hndg Hdis HQ.
  pose proof (f_shape F) as (nq & ? & ? & Hq & Hisq & _ & _)%shape_unfold.
  pose proof Hg as (ng & ? & ? & Hng & Hisg & _ & _)%shape_unfold.
  pose proof (is_parent _ _ _ _ _ Hisq eq_refl) as Hparq. pose proof (is_parent _ _ _ _ _ Hisg eq_refl) as Hparg.
  pose proof (focus_parent_ne F Hnd) as Hqpp.
  assert (g ∈ lg) as Hgl by (by eapply shape_head).
  assert (pp ∉ lg ∧ q ∉ lg) as [Hppl Hql].
  { split; apply Hdis; rewrite (focus_split F); [right; apply F|left; eapply shape_head, F]. }
  assert (g ≠ pp ∧ g ≠ q) as [Hgpp Hgq] by (split; intros ->; auto).
  apply wp_bind, wp_on_heap. eapply wp_parent_edge; [done|done|apply F..|]. cbn [subnode_offset].
  apply wp_bind, wp_on_heap. eapply wp_store; [done|].
  apply wp_bind, wp_on_heap. eapply wp_write_subnode.
  { simpl. rewrite lookup_insert_ne by done. apply F. } { apply F. }
  { rewrite length_fmap. pose proof (focus_bound F). lia. }
  apply wp_bind, wp_on_heap. eapply wp_store; [simpl; by rewrite !lookup_insert_ne by done|].
  rewrite Nat2Z.id. cbn [w_heap set_heap nodes set_nodes trees files next_loc].
  set (m3 := <[g := _]> _). change m3 with (graft_nodes (nodes h) pp npp ps i q nq g ng). clear m3.
  set (m3 := graft_nodes _ _ _ _ _ _ _ _ _).
  destruct (graft_shape h par p t ls π pp npp ps i q nq v lq rest g ng u lg) as (ls3 & Hs3 & Hnd3 & _); try done.
  assert (heap_ok (set_nodes m3 h)) as Hok3 by (eapply graft_nodes_ok; [done|done|apply F|done]).
  apply wp_bind, wp_on_heap. apply (wp_tree_clone Hmem (set_nodes m3 h) T x true par p (gput t π u) ls3); try done.
  intros T' p' ls' h4 Hmd Hnd' Hs'. apply wp_on_heap3.
  eapply (wp_ungraft h h4 pp npp ps i q nq g ng u lg T' p' ls'); try done; try apply F.
  intros h' Hgr Hcopy. eapply HQ; [done| |done]. by eapply shape_frame.
Qed.
End Exchange.
