(* ===== verification/TreeLife.v ===== *)
(** * TreeLife: freeing, measuring and printing whole trees

    The calls around the mutations in the handlers of the custom mutator, with
    what they leave of the heap. *)

From S2P Require Import Prelude Buffer Utils Tree TreeSpec TreeNodes TreeSizes TreeText TreePaths StrMap World TreeGrafts.

(** A tree of the heap: its record [x], root [p], value [t], nodes [ls]. *)
Record tree_in (h : heap) (T : loc) (x : tree) (p : loc) (t : gtree) (ls : list loc) : Prop := {
  ti_tree : trees h !! T = Some x;
  ti_root : root x = Some p;
  ti_shape : shape true (nodes h) None p t ls;
  ti_NoDup : NoDup ls }.

Lemma tree_in_frame h h' T x p t ls :
  trees h' !! T = trees h !! T → (∀ q, q ∈ ls → nodes h' !! q = nodes h !! q) → tree_in h T x p t ls → tree_in h' T x p t ls.
Proof. intros Ht Hn [A B C D]. split; [by rewrite Ht|done| |done]. by eapply shape_frame. Qed.

(** [h'] is [h] without tree [T] and the nodes [ls]. *)
Record dropped (T : loc) (ls : list loc) (h h' : heap) : Prop := {
  dr_gone : ∀ q, q ∈ ls → nodes h' !! q = None;
  dr_same : ∀ q, q ∉ ls → nodes h' !! q = nodes h !! q;
  dr_trees : trees h' = delete T (trees h);
  dr_files : files h' = files h;
  dr_next : next_loc h' = next_loc h }.

Lemma dropped_ok T ls h h' : dropped T ls h h' → heap_ok h → heap_ok h'.
Proof.
  intros [D1 D2 D3 D4 D5] [O1 O2]. split; rewrite D5.
  - intros p n Hp. destruct (decide (p ∈ ls)) as [Hin|]; [by rewrite D1 in Hp|]. rewrite D2 in Hp by done. eauto.
  - intros t y. rewrite D3. intros [_ Hy]%lookup_delete_Some. eauto.
Qed.

Lemma tree_step_ok T x x' h h' : tree_step T x x' h h' → heap_ok h → heap_ok h'.
Proof.
  intros [S1 S2 S3 S4 S5 S6] [O1 O2]. split.
  - intros p n. rewrite S4. intros Hp%O1. lia.
  - intros t y Ht. destruct (decide (t = T)) as [->|]; [apply O2 in S1; lia|]. rewrite S3 in Ht by done. apply O2 in Ht. lia.
Qed.

Section Life.
Context `{Host}.

Lemma tree_free_ok h T x p t ls : tree_in h T x p t ls → wp (tree_free (Some T)) h (λ _, dropped T ls h).
Proof.
  intros [Hx Hroot Hs Hnd]. unfold tree_free. apply wp_bind. eapply wp_load_tree; [done|]. rewrite Hroot.
  apply wp_bind. eapply wp_mono; [by eapply node_free_ok|]. intros [] h1 [P1 P2 P3 P4 P5].
  apply wp_bind. eapply wp_store_tree; [by rewrite P3|]. unfold wp, free_tree. simpl. rewrite lookup_insert_eq.
  split; simpl; try done. by rewrite P3, delete_insert_eq.
Qed.

Lemma tree_get_size_ok h T x p t ls :
  tree_in h T x p t ls → gid t ≠ 0 →
  wp (tree_get_size (Some T)) h (λ _, recounted true None p t ls h).
Proof.
  intros [Hx Hroot Hs Hnd] Hid. unfold tree_get_size. apply wp_bind. eapply wp_load_tree; [done|]. rewrite Hroot.
  pose proof Hs as (n & ? & ? & Hp & His & _ & _)%shape_unfold.
  apply wp_bind. eapply wp_load; [done|]. rewrite (is_id _ _ _ _ _ His), decide_False by done.
  apply wp_bind. eapply wp_mono; [by eapply node_get_size_ok|]. intros [] h1 Hre.
  pose proof Hre as [(n1 & ? & ? & Hp1 & _)%shape_unfold _]. apply wp_bind. eapply wp_load; [done|]. by apply wp_ret.
Qed.
End Life.
