(* ===== verification/TreeSerial.v ===== *)
(** * TreeSerial: the serialised form of a tree

    [tree_serialize] writes [ser t]; [tree_deserialize] reads it back, up to the
    cached sizes, which the format does not hold. *)

From S2P Require Import Prelude Buffer Utils Tree TreeSpec TreeNodes TreeSizes TreeText TreeGrafts TreeLife.

(** ** The format *)

Definition header (t : gtree) : list Z :=
  le_bytes 4 (gid t) ++ le_bytes 4 (grule t) ++ le_bytes 4 (zlen (gsubs t)) ++ le_bytes 4 (zlen (gval t)).

Fixpoint ser (t : gtree) : list Z :=
  let 'GNode i r v _ _ subs := t in
  (le_bytes 4 i ++ le_bytes 4 r ++ le_bytes 4 (zlen subs) ++ le_bytes 4 (zlen v)) ++ v ++
  flat_map (λ o, match o with Some s => ser s | None => [] end) subs.

Lemma ser_eq t : ser t = header t ++ gval t ++ flat_map (opt_list ser) (gsubs t).
Proof. by destruct t. Qed.

(** Trees that the format can hold: the header fields fit in 32 bits, and no
    subnode is NULL (a NULL subnode is counted in the header but not written). *)
Definition storable_node (t : gtree) : Prop :=
  0 ≤ gid t < 2 ^ 32 ∧ 0 ≤ grule t < 2 ^ 32 ∧ zlen (gsubs t) < 2 ^ 32 ∧ zlen (gval t) < 2 ^ 32 ∧
  (gid t = 0 → gsubs t = []) ∧ None ∉ gsubs t.

Fixpoint storable (t : gtree) : Prop :=
  storable_node t ∧ let 'GNode _ _ _ _ _ subs := t in
    foldr (λ o P, match o with Some s => storable s | None => True end ∧ P) True subs.

Lemma storable_inv t : storable t → storable_node t ∧ ∀ s, Some s ∈ gsubs t → storable s.
Proof.
  destruct t as [i r v a b subs]. intros [Hn Hs]. split; [done|]. simpl. clear Hn. intros s.
  induction subs as [|o subs IH]; [by intros []%not_elem_of_nil|]. destruct Hs as [Ho Hs].
  intros [<-|Hin]%elem_of_cons; auto.
Qed.

Lemma length_le_bytes n x : length (le_bytes n x) = n.
Proof. revert x. induction n as [|n IH]; intros x; [done|]. simpl. by rewrite IH. Qed.

Lemma le_value_bytes n x : 0 ≤ x < 256 ^ Z.of_nat n → le_value (le_bytes n x) = x.
Proof.
  revert x. induction n as [|n IH]; intros x Hx; [simpl in *; lia|]. cbn [le_bytes le_value].
  rewrite Nat2Z.inj_succ, Z.pow_succ_r in Hx by lia. rewrite IH.
  - pose proof (Z.div_mod x 256). lia.
  - split; [apply Z.div_pos; lia|]. apply Z.div_lt_upper_bound; lia.
Qed.

Lemma length_header t : length (header t) = 16%nat.
Proof. unfold header. by rewrite !length_app, !length_le_bytes. Qed.

Lemma zlen_header t : zlen (header t) = 16.
Proof. by rewrite length_header. Qed.

Lemma zlen_ser t : zlen (ser t) = 16 + zlen (gval t) + zlen (flat_map (opt_list ser) (gsubs t)).
Proof. rewrite ser_eq, !length_app, length_header. lia. Qed.

Lemma gheight_ser t : (gheight t ≤ length (ser t))%nat.
Proof.
  induction t as [i r v a b subs IH] using gtree_ind'. rewrite ser_eq, !length_app, length_header. simpl.
  enough ((fix go (l : list (option gtree)) : nat :=
        match l with | [] => 0 | Some t :: l => gheight t `max` go l | None :: l => go l end) subs ≤
     length (flat_map (opt_list ser) subs))%nat by lia.
  induction IH as [|o subs Ho _ IHs]; simpl; [lia|]. rewrite length_app. destruct o; simpl in *; lia.
Qed.

(** ** Writing *)

Definition ser_appended (T : loc) (x : tree) (v u : list Z) (h h' : heap) : Prop :=
  ∃ x', tree_step T x x' h h' ∧ ser_only x x' ∧ ser_is x' (v ++ u).

Lemma ser_appended_trans T x v u w h h1 h2 x1 :
  tree_step T x x1 h h1 → ser_only x x1 → ser_is x1 (v ++ u) → ser_appended T x1 (v ++ u) w h1 h2 →
  ser_appended T x v (u ++ w) h h2.
Proof.
  intros S1 O1 T1 (x2 & S2 & O2 & T2). exists x2. split; [by eapply tree_step_trans|].
  split; [by eapply ser_only_trans|]. by rewrite app_assoc.
Qed.

Lemma node_header_is chk par t ps n subs lss m :
  node_is chk par t ps n → shapes chk m par ps subs lss → subs = gsubs t → node_header n = header t.
Proof.
  intros His Hs ->. destruct (shapes_length _ _ _ _ _ _ Hs) as [Hl _].
  unfold node_header, header. by rewrite (is_id _ _ _ _ _ His), (is_rule _ _ _ _ _ His),
    (is_count _ _ _ _ _ His), (is_val_len _ _ _ _ _ His), Hl.
Qed.

Section Write.
Context `{Host} (Hmem : never_refuses).

(** The fields of one node. *)
Lemma wp_serialize_node chk par t ps n T x v h (k : M heap unit) (Q : unit → heap → Prop) :
  node_is chk par t ps n → node_header n = header t → trees h !! T = Some x → ser_is x v →
  zlen v + 16 + zlen (gval t) < 2 ^ 64 →
  (∀ h', ser_appended T x v (header t ++ gval t) h h' → wp k h' Q) →
  wp (x ← load_tree (Some T);
      bs ← grow (ser_buf x) (ser_size x) (u64 (ser_len x + u64 (16 + val_len n)));
      _ ← store_tree (Some T) (set_ser_buf bs.1 bs.2);
      match bs.1 with
      | None => mret tt
      | Some dst =>
          dst1 ← append_bytes dst (ser_len x) (Some (Some <$> node_header n)) 16;
          dst2 ← append_bytes dst1 (ser_len x + 16) (val_buf n) (val_len n);
          _ ← store_tree (Some T) (λ y, set_ser_len (u64 (ser_len x + 16 + val_len n))
                                   (set_ser_buf (Some dst2) bs.2 y));
          k
      end) h Q.
Proof.
  intros His Hhd Hx Hv Hlt Hk. apply wp_bind. eapply wp_load_tree; [done|].
  rewrite Hhd, (is_val_len _ _ _ _ _ His). pose proof Hv as (_ & Hlen & _).
  rewrite wrap_add_r, !wrap_small by lia. apply wp_bind. eapply wp_grow; [done|exact Hv|lia|].
  intros bs size' h' Hh' Hh Hge.
  assert (trees h' !! T = Some x) as Hx' by (by destruct Hh' as [->| ->]).
  assert (tree_step T x x h h') as Hstep0.
  { destruct Hh' as [->| ->]; [by apply tree_step_refl|by apply tree_step_bump, tree_step_refl]. }
  apply wp_bind. eapply wp_store_tree; [done|]. cbn [fst snd]. apply wp_bind.
  rewrite <- (zlen_header t). eapply wp_append_bytes; [exact Hh|rewrite zlen_header; lia|by eauto|]. intros bs1 Hh1.
  apply wp_bind. eapply wp_append_bytes; [exact Hh1|rewrite zlen_header; lia|by apply (is_val _ _ _ _ _ His)|].
  intros bs2 Hh2. apply wp_bind. eapply wp_store_tree; [simpl; apply lookup_insert_eq|]. simpl. apply Hk.
  eexists. split; [eapply tree_step_trans; [exact Hstep0|]|].
  { rewrite insert_insert_eq. exact (tree_step_store T x _ h' Hx'). }
  split; [by destruct x|]. rewrite zlen_header, <- app_assoc in Hh2. exact Hh2.
Qed.

Lemma node_serialize_rec_ok t : ∀ fuel h chk par p ls T x v,
  shape chk (nodes h) par p t ls → (gheight t ≤ fuel)%nat → trees h !! T = Some x → ser_is x v →
  zlen v + zlen (ser t) < 2 ^ 64 →
  wp (node_serialize_rec fuel (Some T) (Some p)) h (λ _, ser_appended T x v (ser t) h).
Proof.
  induction t as [i r w a b subs IH] using gtree_ind'. intros fuel h chk par p ls T x v Hs Hf Hx Ht Hlt.
  apply shape_unfold in Hs as (n & ps & lss & Hp & His & _ & Hsub). set (t := GNode i r w a b subs) in *.
  destruct fuel as [|fuel]; [cbn in Hf; lia|]. destruct (shapes_length _ _ _ _ _ _ Hsub) as [Hlen _].
  assert (node_header n = header t) as Hhd.
  { unfold node_header, header. by rewrite (is_id _ _ _ _ _ His), (is_rule _ _ _ _ _ His),
      (is_count _ _ _ _ _ His), (is_val_len _ _ _ _ _ His), Hlen. }
  simpl node_serialize_rec. apply wp_bind. eapply wp_load; [done|].
  pose proof (zlen_ser t) as Hz. eapply (wp_serialize_node chk par t ps n T x v); [done|done|done|done|lia|].
  intros h1 (x1 & S1 & O1 & V1). rewrite (is_count _ _ _ _ _ His), Nat2Z.id. rewrite ser_eq.
  eapply wp_mono.
  { eapply (wp_sub_loop chk (nodes h) p n ps subs lss (λ _ o, node_serialize_rec fuel (Some T) o)
      (λ j s, ser_appended T x v ((header t ++ gval t) ++ flat_map (opt_list ser) (take j subs)) h s));
      [|by eapply is_subs|done| |].
    - intros j s (x' & Hstep & _). by rewrite (ts_nodes _ _ _ _ _ Hstep).
    - exists x1. simpl. rewrite app_nil_r. done.
    - intros j o ot l s Ho Hot Hl Hsh (x' & Hstep & Honly & Htext).
      rewrite (flat_map_take_S _ _ _ ot), app_assoc by done.
      destruct o as [c|], ot as [tc|]; simpl in Hsh; try done.
      + eapply wp_mono.
        { eapply Forall_forall in IH; [|by eapply list_elem_of_lookup_2]. eapply IH.
          - by rewrite (ts_nodes _ _ _ _ _ Hstep).
          - apply list_elem_of_lookup_2 in Hot. pose proof (elem_of_gsubs_height t tc Hot). lia.
          - apply Hstep.
          - exact Htext.
          - pose proof (zlen_flat_map_take (opt_list ser) subs (S j)) as Hz'.
            rewrite (flat_map_take_S _ _ _ (Some tc)) in Hz' by done.
            simpl (opt_list ser (Some tc)) in Hz'. unfold t in Hz, Hlt. simpl gsubs in Hz.
            rewrite !length_app in *. rewrite length_header. simpl gval in *. lia. }
        intros [] s2 Happ. by eapply ser_appended_trans.
      + simpl. rewrite app_nil_r. destruct fuel; apply wp_ret; by exists x'. }
  intros [] s Happ. rewrite take_ge in Happ by (unfold t in Hlen; simpl in Hlen; lia). by rewrite <- app_assoc in Happ.
Qed.

Lemma tree_serialize_ok h T x p chk par t ls :
  trees h !! T = Some x → root x = Some p → shape chk (nodes h) par p t ls → NoDup ls →
  buf_ok (ser_buf x) (ser_size x) → zlen (ser t) < 2 ^ 64 →
  wp (tree_serialize (Some T)) h (λ _, ser_appended T x [] (ser t) h).
Proof.
  intros Hx Hroot Hs Hnd Hb Hlt. unfold tree_serialize. apply wp_bind. eapply wp_load_tree; [done|]. apply wp_bind.
  eapply (wp_grow Hmem _ _ 0 []); [|lia|].
  { split; [done|]. split; [done|]. apply prefix_nil. }
  intros bs size' h1 Hh1 Hh _. assert (trees h1 !! T = Some x) as Hx1 by (by destruct Hh1 as [->| ->]).
  apply wp_bind. eapply wp_store_tree; [done|]. cbn [fst snd].
  set (x1 := set_ser_len 0 _). set (h2 := set_trees _ h1).
  assert (tree_step T x x1 h h2) as Hstep.
  { eapply (tree_step_trans T x x); [|by apply tree_step_store].
    destruct Hh1 as [->| ->]; [by apply tree_step_refl|by apply tree_step_bump, tree_step_refl]. }
  unfold with_fuel. change (wp (node_serialize_rec (S (size (nodes h2))) (Some T) (root x)) h2
    (λ _, ser_appended T x [] (ser t) h)). rewrite Hroot.
  assert (shape chk (nodes h2) par p t ls) as Hs2 by (by rewrite (ts_nodes _ _ _ _ _ Hstep)).
  eapply wp_mono; [eapply (node_serialize_rec_ok _ _ _ _ _ _ _ T x1 []); [exact Hs2| | |exact Hh|done]|].
  - etrans; [by eapply shape_fuel|]. lia.
  - apply Hstep.
  - intros [] h3 (x3 & S3 & O3 & T3). exists x3. split; [by eapply tree_step_trans|]. split; [|done].
    eapply ser_only_trans; [|done]. by destruct x.
Qed.
End Write.

(** ** Reading *)

Lemma prefix_fmap_Some (v w : list Z) : (Some <$> v) `prefix_of` (Some <$> (v ++ w)).
Proof. exists (Some <$> w). by rewrite fmap_app. Qed.

Section Read.
Context `{Host} (Hmem : never_refuses).

Lemma wp_read_u32 pre x post (Q : Z → heap → Prop) h off :
  0 ≤ x < 2 ^ 32 → off = zlen pre → Q x h → wp (read_u32 (pre ++ le_bytes 4 x ++ post) off) h Q.
Proof.
  intros Hx -> HQ. unfold read_u32. rewrite decide_True by (rewrite !length_app, length_le_bytes; lia).
  rewrite Nat2Z.id, drop_app_length, take_app_length' by (by rewrite length_le_bytes).
  rewrite le_value_bytes; [by apply wp_ret|done].
Qed.

Lemma wp_read_u32' pre x post (Q : Z → heap → Prop) h off d :
  0 ≤ x < 2 ^ 32 → d = pre ++ le_bytes 4 x ++ post → off = zlen pre → Q x h → wp (read_u32 d off) h Q.
Proof. intros ? ->. by apply wp_read_u32. Qed.

(** [node_set_val] of the [zlen v] bytes at the start of the rest of the input. *)
Lemma wp_fresh_val v w ls h q s nq (Q : unit → heap → Prop) :
  grown ls h s → q ∈ ls → nodes s !! q = Some nq → val_buf nq = None → val_size nq = 0 → val_len nq = zlen v →
  zlen v < 2 ^ 32 →
  (∀ s' b sz, grown ls h s' → nodes s' !! q = Some (set_val b sz nq) →
     (v ≠ [] → ∃ bs, b = Some bs ∧ (Some <$> v) `prefix_of` bs) → Q tt s') →
  wp (node_set_val (Some q) (Some (Some <$> (v ++ w))) (zlen v)) s Q.
Proof.
  intros Hg Hq Hnq Hb Hsz Hvl Hw HQ. destruct (decide (v = [])) as [->|Hne].
  - apply wp_ret. apply (HQ s None 0); [done| |done]. rewrite Hnq. destruct nq; simpl in *; by subst.
  - rewrite <- (length_fmap (Some (A:=Z)) v) at 1.
    eapply (wp_node_set_val Hmem q s nq _ (Some <$> v)); try done; [by destruct v|by rewrite length_fmap|apply prefix_fmap_Some|].
    intros dst sz Hd. apply (HQ _ (Some dst) sz); [|simpl; rewrite lookup_insert_eq|eauto].
    + apply grown_bump, grown_store; eauto.
    + rewrite length_fmap, <- Hvl. by destruct nq.
Qed.

(** The header and the value of a node, as [_node_deserialize] reads them. *)
Definition blank (t : gtree) : node :=
  set_val_len (zlen (gval t)) (set_subnode_count (zlen (gsubs t)) (set_rule_id (grule t) (set_id (gid t) (new_node 0)))).

Lemma node_is_blank t b sz :
  storable_node t → gsubs t = [] → (gval t ≠ [] → ∃ bs, b = Some bs ∧ (Some <$> gval t) `prefix_of` bs) →
  node_is true None (strip t) [] (set_val b sz (blank t)).
Proof.
  intros (H1 & H2 & H3 & H4 & H5 & H6) Hnil Hv. destruct t as [i r v a bb subs]. simpl in *. subst subs.
  split; simpl; try done.
Qed.

Lemma clone_inv_blank h t q s b sz :
  storable_node t → gsubs t ≠ [] → grown [q] h s →
  nodes s !! q = Some (set_subnode_count (zlen (gsubs t))
     (set_subnodes (Some (Some <$> replicate (length (gsubs t)) None)) (set_val b sz (blank t)))) →
  (gval t ≠ [] → ∃ bs, b = Some bs ∧ (Some <$> gval t) `prefix_of` bs) → clone_inv h (strip t) q 0 s.
Proof.
  intros (H1 & H2 & H3 & H4 & H5 & H6) Hne Hg Hq Hv. destruct t as [i r v a bb subs]. simpl in *.
  exists [], []. eexists. split; [done|]. split; [apply NoDup_singleton|]. split; [exact Hq|]. split; [done|].
  split; [|constructor]. simpl. rewrite Nat.sub_0_r, length_map.
  split; simpl; rewrite ?length_replicate; try done. intros Hz. by rewrite H5.
Qed.

Definition parsed (h : heap) (t : gtree) (consumed : Z) (r : ptr * Z) (h' : heap) : Prop :=
  r.2 = consumed + zlen (ser t) ∧ cloned h (strip t) r.1 h'.

Lemma deserialize_loop_ok fuel t h q rest m : ∀ i pre consumed s,
  gid t ≠ 0 → None ∉ gsubs t → (i + m = length (gsubs t))%nat →
  consumed = zlen pre → clone_inv h (strip t) q (Z.of_nat i) s →
  let d := pre ++ flat_map (opt_list ser) (drop i (gsubs t)) ++ rest in
  zlen d < 2 ^ 64 →
  (∀ s pre post h, Some s ∈ gsubs t → heap_ok h → d = pre ++ ser s ++ post →
     wp (node_deserialize_rec fuel (Some d) (zlen d) (zlen pre)) h (parsed h s (zlen pre))) →
  wp (deserialize_loop (node_deserialize_rec fuel (Some d) (zlen d)) m (Z.of_nat i) consumed (Some q)) s
    (λ r s', r = (true, consumed + zlen (flat_map (opt_list ser) (drop i (gsubs t)))) ∧ cloned h (strip t) (Some q) s').
Proof.
  induction m as [|m IH]; intros i pre consumed s Hid Hfull Hm -> Hinv d Hd Hrec; simpl.
  { apply wp_ret. rewrite drop_ge by lia. simpl. rewrite Z.add_0_r. split; [done|]. apply clone_inv_done.
    replace (zlen (gsubs (strip t))) with (Z.of_nat i); [done|]. destruct t. simpl in *. rewrite length_map. lia. }
  destruct (lookup_lt_is_Some_2 (gsubs t) i) as [[sub|] Hsub]; [lia| |].
  2: { by apply list_elem_of_lookup_2 in Hsub. }
  assert (heap_ok s) as Hoks by (destruct Hinv as (? & ? & ? & Hg & _); apply Hg).
  assert (d = pre ++ ser sub ++ flat_map (opt_list ser) (drop (S i) (gsubs t)) ++ rest) as Hsplit.
  { unfold d. rewrite (drop_S _ (Some sub) i) by done. simpl. by rewrite <- app_assoc. }
  apply wp_bind. eapply wp_mono; [eapply Hrec; [by eapply list_elem_of_lookup_2|done|exact Hsplit]|].
  intros [o c] s2 [Hc Hcl]. simpl in Hc, Hcl. subst c. pose proof Hcl as (c' & lc & -> & _). simpl.
  apply wp_bind. eapply wp_mono.
  { eapply (clone_attach h (strip t) q (Z.of_nat i) s (Some c') (strip sub)); try done.
    - by destruct t.
    - destruct t. simpl in *. rewrite length_map. lia.
    - rewrite Nat2Z.id. destruct t. simpl in *. rewrite list_lookup_fmap. by rewrite Hsub. }
  intros [] s3 Hinv3. replace (Z.of_nat i + 1) with (Z.of_nat (S i)) in * by lia.
  rewrite Hsplit in Hrec, Hd |- *. rewrite app_assoc in Hrec, Hd |- *.
  eapply wp_mono; [apply (IH (S i) (pre ++ ser sub)); try done; [lia|by rewrite length_app, Nat2Z.inj_add]|].
  intros r s' [-> Hd']. split; [|done]. f_equal. rewrite (drop_S _ (Some sub) i) by done. simpl.
  rewrite length_app. lia.
Qed.

(** The header of a node: four integers are read and stored. *)
Lemma wp_read_header t pre post h d (k : ptr → Z → Z → M heap (ptr * Z)) (Q : ptr * Z → heap → Prop) :
  let q := next_loc h in
  d = pre ++ header t ++ post → storable_node t → heap_ok h → zlen d < 2 ^ 64 →
  (∀ s, grown [q] h s → nodes s !! q = Some (blank t) → wp (k (Some q) (zlen (gsubs t)) (zlen (gval t))) s Q) →
  wp (p ← node_create 0;
      if decide (u64 (zlen d - zlen pre) < 16) then _ ← node_free p; mret (None, zlen pre)
      else
        i ← read_u32 d (zlen pre);
        _ ← store p (set_id i);
        ru ← read_u32 d (zlen pre + 4);
        _ ← store p (set_rule_id ru);
        cnt ← read_u32 d (zlen pre + 8);
        _ ← store p (set_subnode_count cnt);
        vl ← read_u32 d (zlen pre + 12);
        _ ← store p (set_val_len vl);
        k p cnt vl) h Q.
Proof.
  intros q Hdt (H1 & H2 & H3 & H4 & H5 & H6) Hok Hd Hk. apply wp_bind, (wp_node_create Hmem).
  pose proof (node_create_grown 0 h Hok) as Hg.
  assert (zlen d = zlen pre + 16 + zlen post) as Hz by (rewrite Hdt, !length_app, length_header; lia).
  rewrite decide_False by (rewrite wrap_small; lia). unfold header in Hdt.
  apply wp_bind, (wp_read_u32' pre (gid t) (le_bytes 4 (grule t) ++ le_bytes 4 (zlen (gsubs t)) ++ le_bytes 4 (zlen (gval t)) ++ post));
    [done|rewrite Hdt; by rewrite <- !app_assoc|done|].
  apply wp_bind. eapply wp_store; [simpl; apply lookup_insert_eq|].
  apply wp_bind, (wp_read_u32' (pre ++ le_bytes 4 (gid t)) (grule t) (le_bytes 4 (zlen (gsubs t)) ++ le_bytes 4 (zlen (gval t)) ++ post));
    [done|rewrite Hdt; by rewrite <- !app_assoc|rewrite length_app, length_le_bytes; lia|].
  apply wp_bind. eapply wp_store; [simpl; apply lookup_insert_eq|].
  apply wp_bind, (wp_read_u32' (pre ++ le_bytes 4 (gid t) ++ le_bytes 4 (grule t)) (zlen (gsubs t)) (le_bytes 4 (zlen (gval t)) ++ post));
    [lia|rewrite Hdt; by rewrite <- !app_assoc|rewrite !length_app, !length_le_bytes; lia|].
  apply wp_bind. eapply wp_store; [simpl; apply lookup_insert_eq|].
  apply wp_bind, (wp_read_u32' (pre ++ le_bytes 4 (gid t) ++ le_bytes 4 (grule t) ++ le_bytes 4 (zlen (gsubs t))) (zlen (gval t)) post);
    [lia|rewrite Hdt; by rewrite <- !app_assoc|rewrite !length_app, !length_le_bytes; lia|].
  apply wp_bind. eapply wp_store; [simpl; apply lookup_insert_eq|].
  apply Hk; [|simpl; by rewrite lookup_insert_eq].
  do 4 (apply (grown_store [q]); [|left|simpl; rewrite lookup_insert_eq; by eexists]). exact Hg.
Qed.

Lemma node_deserialize_rec_ok t : ∀ fuel h pre post,
  storable t → (gheight t ≤ fuel)%nat → heap_ok h →
  let d := pre ++ ser t ++ post in
  zlen d < 2 ^ 64 →
  wp (node_deserialize_rec fuel (Some d) (zlen d) (zlen pre)) h (parsed h t (zlen pre)).
Proof.
  induction t as [i r v a b subs IH] using gtree_ind'. intros fuel h pre post Hst Hf Hok d Hd.
  set (t := GNode i r v a b subs) in *. destruct (storable_inv t Hst) as [Hn Hsubs].
  pose proof Hn as (H1 & H2 & H3 & H4 & H5 & H6).
  destruct fuel as [|fuel]; [cbn in Hf; lia|].
  assert (d = pre ++ header t ++ gval t ++ flat_map (opt_list ser) (gsubs t) ++ post) as Hdt.
  { unfold d. rewrite ser_eq. by rewrite <- !app_assoc. }
  assert (zlen (ser t) = 16 + zlen (gval t) + zlen (flat_map (opt_list ser) (gsubs t))) as Hz by apply zlen_ser.
  assert (zlen d = zlen pre + zlen (ser t) + zlen post) as Hzd by (unfold d; rewrite !length_app; lia).
  clearbody d. cbn [node_deserialize_rec].
  eapply (wp_read_header t pre _ h d); [exact Hdt|done|done|done|]. cbn beta. intros s Hg Hq.
  set (q := next_loc h) in *.
  assert (drop (Z.to_nat (zlen pre + 16)) d = gval t ++ flat_map (opt_list ser) (gsubs t) ++ post) as ->.
  { rewrite Hdt, (app_assoc pre). apply drop_app_length'. rewrite length_app, length_header. lia. }
  apply wp_bind. eapply (wp_fresh_val (gval t)); [exact Hg|left|exact Hq|done|done|done|done|].
  intros s1 bb sz Hg1 Hq1 Hv. rewrite wrap_small by lia. case_decide as Hz0.
  { assert (gsubs t = []) as Hnil by (destruct (gsubs t); [done|simpl in Hz0; lia]).
    apply wp_ret. split; [simpl snd; rewrite Hz, Hnil; simpl; lia|]. exists q, [q]. split; [done|]. split; [done|].
    split; [apply NoDup_singleton|]. apply shape_unfold. exists (set_val bb sz (blank t)), [], [].
    split; [done|]. split; [by apply node_is_blank|]. split; [done|]. destruct t. simpl in *. rewrite Hnil. constructor. }
  assert (gid t ≠ 0) as Hid by (intros Hid; rewrite H5 in Hz0 by done; done).
  apply wp_bind. eapply (wp_node_init_subnodes Hmem); [exact Hq1|done|lia|done|]. rewrite Nat2Z.id.
  set (s2 := bump _).
  assert (clone_inv h (strip t) q 0 s2) as Hinv.
  { eapply (clone_inv_blank h t q s2 bb sz); [done| | |simpl; apply lookup_insert_eq|done].
    - intros Hnil. by rewrite Hnil in Hz0.
    - apply grown_bump, grown_store; [done|left|by eexists]. }
  apply wp_bind. rewrite (app_assoc (header t)), (app_assoc pre) in Hdt. subst d.
  eapply wp_mono.
  { apply (deserialize_loop_ok fuel t h q post (length (gsubs t)) 0 (pre ++ header t ++ gval t)); try done.
    - rewrite !length_app, length_header. lia.
    - intros sub pre' post' h' Hin Hok' Hsplit. rewrite drop_0 in Hsplit. rewrite drop_0.
      rewrite Hsplit in Hd |- *.
      eapply Forall_forall in IH; [|exact Hin]. apply (IH fuel h' pre' post'); [by apply Hsubs| |done|done].
      pose proof (elem_of_gsubs_height t sub Hin). lia. }
  intros r' s' [-> Hcl]. apply wp_ret. split; [|done]. cbn [snd]. rewrite Hz, drop_0. lia.
Qed.
End Read.

(** ** Whole trees *)

Section Whole.
Context `{Host} (Hmem : never_refuses).

Lemma tree_deserialize_ok t h :
  storable t → heap_ok h → zlen (ser t) < 2 ^ 64 →
  wp (tree_deserialize (Some (ser t)) (zlen (ser t))) h (λ T' h', ∃ T p ls, T' = Some T ∧
    made T p ls h h' ∧ NoDup ls ∧ shape true (nodes h') None p (strip t) ls).
Proof.
  intros Hst Hok Hlt. unfold tree_deserialize. cbn [default]. apply wp_bind.
  pose proof (node_deserialize_rec_ok Hmem t (S (length (ser t))) h [] [] Hst) as Hrec.
  rewrite !app_nil_r in Hrec. cbn [app] in Hrec. change (zlen (@nil Z)) with 0 in Hrec.
  eapply wp_mono; [apply Hrec; [pose proof (gheight_ser t); lia|done|done]|].
  intros [o c] h1 [Hc (g & lg & Ho & Hg & Hnd & Hsg)]. simpl in Hc, Ho. subst o c.
  cbn [fst snd]. rewrite Z.add_0_l, decide_False by lia.
  apply wp_bind, (wp_tree_create Hmem). apply wp_bind. eapply wp_store_tree; [simpl; apply lookup_insert_eq|].
  apply wp_ret. exists (next_loc h1), g, lg. split; [done|]. split; [|done].
  eapply (grown_made _ _ _ _ h1); [done|]. simpl. pose proof (made_around h1 g ltac:(apply Hg)) as Hm.
  unfold around in Hm. by rewrite <- (insert_insert_eq (trees h1) (next_loc h1) (tree_at g) zero_tree) in Hm.
Qed.

(** C31. Serialising a tree and reading the bytes back gives a new tree equal to
    the first, node by node, except for the cached sizes, which the format leaves
    out; neither step changes any existing node. *)
Theorem serialize_roundtrip h T x p t ls :
  heap_ok h → trees h !! T = Some x → root x = Some p → shape true (nodes h) None p t ls → NoDup ls →
  buf_ok (ser_buf x) (ser_size x) → storable t → zlen (ser t) < 2 ^ 64 →
  ∃ h1 x1, tree_serialize (Some T) h = Ret (tt, h1) ∧ trees h1 !! T = Some x1 ∧ nodes h1 = nodes h ∧
    ser_len x1 = zlen (ser t) ∧ read_bytes (default [] (ser_buf x1)) (ser_len x1) = Some (ser t) ∧
    ∃ T2 p2 ls2 h2, tree_deserialize (Some (ser t)) (ser_len x1) h1 = Ret (Some T2, h2) ∧
      made T2 p2 ls2 h1 h2 ∧ NoDup ls2 ∧ shape true (nodes h2) None p2 (strip t) ls2.
Proof.
  intros Hok Hx Hroot Hs Hnd Hb Hst Hlt.
  pose proof (tree_serialize_ok Hmem h T x p true None t ls Hx Hroot Hs Hnd Hb Hlt) as Hw.
  apply wp_Ret in Hw as ([] & h1 & Hr & x1 & S1 & O1 & V1). simpl in V1. exists h1, x1.
  pose proof V1 as (_ & Hlen & Hpre). split; [done|]. split; [apply S1|]. split; [apply S1|]. split; [done|].
  split; [rewrite Hlen; by apply read_bytes_prefix|]. rewrite Hlen.
  pose proof (tree_deserialize_ok t h1 Hst (tree_step_ok _ _ _ _ _ S1 Hok) Hlt) as Hd.
  apply wp_Ret in Hd as (T' & h2 & Hr2 & T2 & p2 & ls2 & -> & ?). by exists T2, p2, ls2, h2.
Qed.
End Whole.

Lemma sample_storable : storable sample_tree.
Proof.
  unfold sample_tree. cbn [storable foldr].
  repeat (first [split | done | lia | intros [=]]; unfold storable_node; cbn [gid grule gsubs gval length]).
  all: rewrite ?not_elem_of_cons; repeat split; try done; apply not_elem_of_nil.
Qed.

Lemma serialize_roundtrip_witness :
  ∃ h1 x1, tree_serialize (H := obliging) (Some 9%positive) sample_heap = Ret (tt, h1) ∧
    trees h1 !! 9%positive = Some x1 ∧ nodes h1 = nodes sample_heap ∧
    ser_len x1 = zlen (ser sample_tree) ∧ read_bytes (default [] (ser_buf x1)) (ser_len x1) = Some (ser sample_tree) ∧
    ∃ T2 p2 ls2 h2, tree_deserialize (H := obliging) (Some (ser sample_tree)) (ser_len x1) h1 = Ret (Some T2, h2) ∧
      made T2 p2 ls2 h1 h2 ∧ NoDup ls2 ∧ shape true (nodes h2) None p2 (strip sample_tree) ls2.
Proof.
  apply (serialize_roundtrip (H := obliging) (λ _, eq_refl) sample_heap 9 (tree_at 1) 1 sample_tree sample_locs).
  - apply sample_heap_ok.
  - reflexivity.
  - reflexivity.
  - apply sample_shape.
  - apply sample_NoDup.
  - reflexivity.
  - apply sample_storable.
  - vm_compute. reflexivity.
Defined.
