(* ===== verification/ToyGrammar.v ===== *)
(** * ToyGrammar: a grammar that satisfies [GeneratorLaw]

    Sums (type 1) of operands (type 2), with the productions of the sample tree;
    its generated functions always build the smallest tree, as those of a grammar
    do when they are given no room.  The witnesses of the mutations use it. *)

From S2P Require Import Prelude Buffer Utils Tree TreeSpec TreeNodes TreePaths TreePicks StrMap World TreeGrafts GrammarTypes.

Definition x_byte : buf := Some [Some 120].

Definition toy_rule (i : Z) : Z := if decide (i = 1) then 1 else 0.

Definition toy_gen `{Host} (i : Z) : gen_func_t unit := λ _ _ r,
  p ← node_create_with_rule_id i (toy_rule i);
  _ ← node_init_subnodes p 1;
  c ← node_create_with_val 0 x_byte 1;
  _ ← node_set_subnode p 0 c;
  mret (p, r).

Definition toy_grammar `{Host} : Grammar unit := {|
  gen_funcs := [None; Some (toy_gen 1); Some (toy_gen 2)];
  node_num_rules := [0; 2; 2];
  node_type_str := λ i, if decide (i = 0) then "NODE_TERM__" else if decide (i = 1) then "NODE_EXPR"
    else if decide (i = 2) then "NODE_OPERAND" else "";
  tree_from_buf := λ _, mret None;
  gen_init__ := λ _ r, mret (None, r) |}.

Definition toy_leaf : gtree := GNode 0 0 [120] 0 0 [].

(** EXPR -> OPERAND '+' EXPR | 'x';  OPERAND -> 'x' | '7'. *)
Definition toy_productions (i : Z) : list (list symbol) :=
  if decide (i = 1) then [[NT 2; T [43]; NT 1]; [T [120]]]
  else if decide (i = 2) then [[T [120]]; [T [55]]] else [].

Definition toy_builds (i : Z) (u : gtree) : Prop :=
  (i = 1 ∨ i = 2) ∧ ∃ a b, u = GNode i (toy_rule i) [] a b [Some toy_leaf].

Lemma toy_builds_typed i u : toy_builds i u → typed toy_productions (NT i) u.
Proof.
  intros [Hi (a & b & ->)]. change [Some toy_leaf] with (Some <$> [toy_leaf]).
  destruct Hi; subst i; econstructor; try done; (constructor; [constructor|constructor]).
Qed.

Lemma sample_typed : typed toy_productions (NT 1) sample_tree.
Proof.
  unfold sample_tree. eapply (typed_NT _ 1 0 _ _ _ [_; _; _]); [done|done|reflexivity|].
  constructor; [|constructor; [constructor|constructor; [|constructor]]].
  - eapply (typed_NT _ 2 1 _ _ _ [_]); [done|done|reflexivity|]. constructor; constructor.
  - eapply (typed_NT _ 1 1 _ _ _ [_]); [done|done|reflexivity|]. constructor; constructor.
Qed.

Section Law.
Context `{Host} (Hmem : never_refuses).

Lemma toy_leaf_created h :
  heap_ok h →
  wp (node_create_with_val 0 x_byte 1) h (λ c h', c = Some (next_loc h) ∧ grown [next_loc h] h h' ∧
    shape true (nodes h') None (next_loc h) toy_leaf [next_loc h]).
Proof.
  intros Hok. unfold node_create_with_val, node_create_with_rule_id. apply wp_bind, wp_bind.
  apply (wp_node_create Hmem). pose proof (node_create_grown 0 h Hok) as Hg.
  apply wp_bind. eapply wp_store; [simpl; apply lookup_insert_eq|]. apply wp_ret. apply wp_bind.
  set (h1 := set_nodes _ _).
  assert (grown [next_loc h] h h1) as Hg1 by (eapply grown_store; [done|left|simpl; rewrite lookup_insert_eq; eauto]).
  eapply (wp_node_set_val Hmem (next_loc h) h1 _ [Some 120] [Some 120]);
    [simpl; apply lookup_insert_eq|done|done|done|done|done|].
  intros dst sz Hpre. apply wp_ret. split; [done|]. split.
  - apply grown_bump. eapply grown_store; [exact Hg1|left|simpl; rewrite lookup_insert_eq; eauto].
  - apply shape_unfold. eexists _, [], []. split; [simpl; apply lookup_insert_eq|]. split; [|split; [done|constructor]].
    split; simpl; try done. intros _. by exists dst.
Qed.

Lemma toy_gen_ok i ml rule r h :
  i = 1 ∨ i = 2 → heap_ok h →
  wp (toy_gen i ml rule r) h (λ pr h', ∃ g u lg, pr.1 = Some g ∧ grown lg h h' ∧ NoDup lg ∧
    shape true (nodes h') None g u lg ∧ toy_builds i u).
Proof.
  intros Hi Hok. assert (i ≠ 0) as Hi0 by lia. unfold toy_gen, node_create_with_rule_id. apply wp_bind, wp_bind, (wp_node_create Hmem).
  pose proof (node_create_grown i h Hok) as Hg. set (p := next_loc h) in *.
  apply wp_bind. eapply wp_store; [simpl; apply lookup_insert_eq|]. apply wp_ret. apply wp_bind.
  set (h1 := set_nodes _ _).
  assert (grown [p] h h1) as Hg1 by (eapply grown_store; [done|left|simpl; rewrite lookup_insert_eq; eauto]).
  eapply (wp_node_init_subnodes Hmem); [simpl; apply lookup_insert_eq|done|lia|done|].
  apply wp_bind. set (h2 := bump _).
  assert (grown [p] h h2) as Hg2.
  { apply grown_bump. eapply grown_store; [exact Hg1|left|simpl; rewrite lookup_insert_eq; eauto]. }
  eapply wp_mono; [apply (toy_leaf_created h2), Hg2|]. intros ? h3 (-> & Hg3 & Hs3). set (c := next_loc h2) in *.
  assert (p ≠ c) as Hpc.
  { pose proof (g_new _ _ _ Hg2 p ltac:(left)). unfold c. lia. }
  assert (nodes h3 !! p = nodes h2 !! p) as Hp3.
  { apply (g_same _ _ _ Hg3). by intros ?%list_elem_of_singleton. }
  assert (∃ n2, nodes h2 !! p = Some n2 ∧ id n2 = i ∧ rule_id n2 = toy_rule i ∧ subnodes n2 = Some [Some None] ∧ subnode_count n2 = 1 ∧
    val_len n2 = 0 ∧ parent n2 = None) as (n2 & Hp2 & E1 & E0 & E2 & E3 & E4 & E5).
  { eexists. split; [simpl; apply lookup_insert_eq|]. done. }
  rewrite Hp2 in Hp3. pose proof Hs3 as (nc & ? & ? & Hc3 & _)%shape_unfold.
  apply wp_bind. eapply wp_node_set_subnode; [done|done|by apply not_eq_sym|congruence|done|by rewrite E3|done|].
  apply wp_ret. exists p, (GNode i (toy_rule i) [] (recursion_edge_size n2) (non_term_size n2) [Some toy_leaf]), [p; c].
  split; [done|]. split; [|split; [|split; [|split; [done|by eexists _, _]]]].
  - eapply (grown_store2 [p; c]); [exact (grown_trans _ _ _ _ _ Hg2 Hg3)|left|right; left|..]; simpl; by eexists.
  - apply NoDup_cons. split; [by intros ?%list_elem_of_singleton|apply NoDup_singleton].
  - apply shape_unfold. eexists _, [Some c], [[c]].
    split; [simpl; rewrite lookup_insert_ne by done; apply lookup_insert_eq|]. split; [|split; [done|]].
    + split; simpl; try done; try congruence. 
    + constructor; [|constructor]. simpl. eapply (shape_set_parent true _ None); [|apply NoDup_singleton| |].
      all: try (rewrite lookup_insert_ne by done; exact Hc3).
      all: eapply shape_frame; [|exact Hs3]; intros y ->%list_elem_of_singleton; by rewrite lookup_insert_ne.
Qed.

#[export] Instance toy_law : GeneratorLaw (Grammar0 := toy_grammar) (λ _, True) toy_builds.
Proof.
  split.
  - by intros i u [_ (a & b & ->)].
  - intros i f ml rule r h Hf _ Hok. destruct i as [|[|[|i]]]; simpl in Hf; simplify_eq; apply toy_gen_ok; auto.
Qed.
End Law.
