(* ===== verification/ChunkStore.v ===== *)
(** * ChunkStore: the store of seen subtrees, Grammar-Mutator/src/chunk_store.c

    [seen_chunks] maps the hash of a subtree, in hexadecimal, to the stored
    node; [chunk_store] maps the name of a node type to the list of stored nodes
    of that type.  A stored tree whose subtree was seen before points to the
    node stored first, so the stored nodes form a directed acyclic graph. *)

From S2P Require Import Prelude Buffer Utils Tree TreeSpec StrMap World.

Section ChunkStore.
Context `{Host} {R : Type} `{!Random R, !Grammar R, !Digest}.

(** What [XXH3_64bits_update(hash, buf, len)] reads. *)
Definition hash_bytes (b : buf) (len : Z) : M heap (list Z) :=
  if decide (len = 0) then mret [] else
  match b with
  | None => fail NullDeref
  | Some bs => match read_bytes bs len with Some v => mret v | None => fail OutOfBounds end
  end.

(** The loop of [node_update_hash] over the subnodes. *)
Fixpoint hash_loop (update : ptr → list Z → M heap (list Z)) (n : nat) (i : Z) (p : ptr) (hash : list Z)
    : M heap (list Z) :=
  match n with
  | O => mret hash
  | S n => s ← read_subnode p i;
           hash ← update s hash;
           hash_loop update n (i + 1) p hash
  end.

(** [hash] is what was fed to the hash state so far. *)
Fixpoint node_update_hash (fuel : nat) (p : ptr) (hash : list Z) : M heap (list Z) :=
  match fuel with
  | O => out_of_fuel
  | S fuel =>
      n ← load p;
      v ← hash_bytes (val_buf n) (val_len n);
      let hash := hash ++ le_bytes 4 (Tree.id n) ++ le_bytes 4 (rule_id n) ++ le_bytes 4 (val_len n) ++ v in
      hash_loop (node_update_hash fuel) (Z.to_nat (subnode_count n)) 0 p hash
  end.

Definition hash_node (p : ptr) : M heap string :=
  bytes ← with_fuel (λ f, node_update_hash f p []);
  mret (uint64_to_hex (xxh3 bytes)).

(** [map_set(m, key, value)]: an allocation for a new key, and one more when
    the table is full. *)
Definition map_set {A} (m : map_base A) (k : string) (v : A) : M heap (map_base A) :=
  match map_getref m k with
  | Some _ => mret (map_set_ true true m k v).1
  | None =>
      a ← request;
      if negb a then mret (map_set_ false false m k v).1 else
      if decide (nbuckets m ≤ nnodes m) then
        b ← request; mret (map_set_ true b m k v).1
      else mret (map_set_ true true m k v).1
  end.

(** Recording a new node: in [seen_chunks], then in the list of its type, which
    is created first when there is none. *)
Definition store_node (node_type node_hash : string) (q : loc) : M (world R) unit :=
  w ← get_state;
  m ← on_heap (map_set (seen_chunks w) node_hash q);
  _ ← modify (set_seen_chunks m);
  _ ← (match map_get_ (chunk_store w) node_type with
       | Some _ => mret tt
       | None =>
           l ← on_heap seq_create;
           m ← on_heap (map_set (chunk_store w) node_type l);
           modify (set_chunk_store m)
       end);
  w ← get_state;
  match map_get_ (chunk_store w) node_type with
  | None => fail NullDeref
  | Some node_list =>
      l ← on_heap (seq_append node_list q);
      modify (set_chunk_store (map_set_ true true (chunk_store w) node_type l).1)
  end.

Fixpoint chunk_store_take_node_rec (fuel : nat) (p : ptr) : M (world R) unit :=
  match p, fuel with
  | None, _ => mret tt
  | Some _, O => out_of_fuel
  | Some q, S fuel =>
      n ← on_heap (load p);
      let node_type := node_type_str (Tree.id n) in
      node_hash ← on_heap (hash_node p);
      w ← get_state;
      match map_get_ (seen_chunks w) node_hash with
      | Some seen_node =>
          _ ← (match parent n with
               | Some _ => _ ← on_heap (node_replace_subnode (parent n) p (Some seen_node)); mret tt
               | None => mret tt
               end);
          on_heap (node_free p)
      | None =>
          _ ← store_node node_type node_hash q;
          for_loop (Z.to_nat (subnode_count n)) 0 (λ i,
            x ← on_heap (load p);
            if decide (i < subnode_count x) then
              s ← on_heap (read_subnode p i);
              chunk_store_take_node_rec fuel s
            else mret tt)
      end
  end.

Definition chunk_store_take_node (p : ptr) : M (world R) unit := λ w,
  chunk_store_take_node_rec (S (size (nodes (w_heap w)))) p w.

Definition chunk_store_init : M (world R) unit :=
  modify (λ w, set_seen_chunks map_init (set_chunk_store map_init w)).

Definition chunk_store_add_tree (t : ptr) : M (world R) unit :=
  match t with
  | None => mret tt
  | Some _ =>
      x ← on_heap (load_tree t);
      match root x with
      | None => mret tt
      | Some _ => c ← on_heap (node_clone (root x)); chunk_store_take_node c
      end
  end.

Definition chunk_store_get_alternative_node (p : ptr) : M (world R) ptr :=
  match p with
  | None => mret None
  | Some _ =>
      n ← on_heap (load p);
      w ← get_state;
      match map_get_ (chunk_store w) (node_type_str (Tree.id n)) with
      | None => mret None
      | Some None => fail NullDeref
      | Some (Some node_list) =>
          prob ← draw_below (zlen node_list);
          on_heap (node_clone (node_list !! Z.to_nat prob))
      end
  end.

(** The loop of [list_free_with_data_free_func(list, node_free_only_self)]. *)
Fixpoint free_stored (l : list loc) : M (world R) unit :=
  match l with
  | [] => mret tt
  | q :: l => _ ← on_heap (node_free_only_self (Some q)); free_stored l
  end.

(** The [map_next] loop of [chunk_store_clear]. *)
Fixpoint clear_loop (fuel : nat) (it : map_iter (option (list loc))) : M (world R) unit :=
  match fuel with
  | O => out_of_fuel
  | S fuel =>
      w ← get_state;
      match map_next_ (chunk_store w) it with
      | None => mret tt
      | Some (k, it') =>
          _ ← (match map_get_ (chunk_store w) k with
               | None => fail NullDeref
               | Some None => mret tt
               | Some (Some l) => free_stored l
               end);
          clear_loop fuel it'
      end
  end.

Definition chunk_store_clear : M (world R) unit :=
  _ ← modify (λ w, set_seen_chunks (map_deinit_ (seen_chunks w)) w);
  w ← get_state;
  _ ← clear_loop (S (length (entries (chunk_store w)))) map_iter_;
  modify (λ w, set_chunk_store (map_deinit_ (chunk_store w)) w).
End ChunkStore.
