(* ===== verification/TreeMutation.v ===== *)
(** * TreeMutation: the mutations of Grammar-Mutator/src/tree_mutation.c and the
    trimmings of tree_trimming.c

    Every function takes and returns tree pointers, as in the source.  Where the
    source dereferences a pointer it does not check, the model faults on NULL. *)

From S2P Require Import Prelude Buffer Utils Tree TreeSpec StrMap World ChunkStore.

Section Mutation.
Context `{Host} {R : Type} `{!Random R, !Grammar R, !Digest}.

Definition tree_set_max_len (max_len : Z) : M (world R) unit := modify (set_max_tree_len max_len).

(** The end of [random_mutation] and [splicing_mutation]: [node] of the cloned
    tree is replaced by [replace_node]; whichever of the two is not in the tree
    afterwards is freed. *)
Definition replace_picked (mutated_tree node par replace_node : ptr) : M (world R) ptr :=
  match par with
  | None =>
      _ ← on_heap (node_free node);
      _ ← on_heap (store_tree mutated_tree (set_root replace_node));
      mret mutated_tree
  | Some _ =>
      ok ← on_heap (node_replace_subnode par node replace_node);
      _ ← (if (ok : bool) then on_heap (node_free node) else on_heap (node_free replace_node));
      mret mutated_tree
  end.

Definition random_mutation (t : ptr) : M (world R) ptr :=
  match t with
  | None => mret None
  | Some _ =>
      mutated_tree ← on_heap (tree_clone t);
      x ← on_heap (load_tree mutated_tree);
      node ← on_rng (node_pick_non_term_subnode (root x));
      match node with
      | None => fail ProcessExit
      | Some _ =>
          n ← on_heap (load node);
          w ← get_state;
          replace_node ← call_gen_func (Tree.id n) (max_tree_len w) (-1);
          replace_picked mutated_tree node (parent n) replace_node
      end
  end.

Definition rules_mutation (t node : ptr) (rule : Z) : M (world R) ptr :=
  match t, node with
  | None, _ | _, None => mret None
  | Some _, Some _ =>
      n ← on_heap (load node);
      if decide (Tree.id n = 0) then mret None else
      num ← num_rules (Tree.id n);
      if decide (num ≤ rule) then mret None else
      if decide (rule_id n = rule) then mret None else
      w ← get_state;
      replace_node ← call_gen_func (Tree.id n) (max_tree_len w) rule;
      match parent n with
      | None =>
          mutated_tree ← on_heap tree_create;
          _ ← on_heap (store_tree mutated_tree (set_root replace_node));
          mret mutated_tree
      | Some _ =>
          e ← on_heap (node_get_parent_edge node);
          _ ← on_heap (store node (set_parent None));
          _ ← on_heap (write_subnode (parent n) (subnode_offset e) replace_node);
          _ ← on_heap (store replace_node (set_parent (parent n)));
          mutated_tree ← on_heap (tree_clone t);
          _ ← on_heap (write_subnode (parent n) (subnode_offset e) node);
          _ ← on_heap (store node (set_parent (parent n)));
          _ ← on_heap (node_free replace_node);
          mret mutated_tree
      end
  end.

(** The loop of [_node_rules_mutation_count]. *)
Fixpoint count_loop (count : ptr → M (world R) Z) (n : nat) (i ret : Z) (p : ptr) : M (world R) Z :=
  match n with
  | O => mret ret
  | S n => s ← on_heap (read_subnode p i);
           c ← count s;
           count_loop count n (i + 1) (u64 (ret + c)) p
  end.

Fixpoint node_rules_mutation_count_rec (fuel : nat) (p : ptr) : M (world R) Z :=
  match p, fuel with
  | None, _ => mret 0
  | Some _, O => out_of_fuel
  | Some _, S fuel =>
      n ← on_heap (load p);
      if decide (Tree.id n = 0) then mret 0 else
      num ← num_rules (Tree.id n);
      if decide (num ≤ 0) then mret 0 else
      count_loop (node_rules_mutation_count_rec fuel) (Z.to_nat (subnode_count n)) 0 (num - 1) p
  end.

Definition node_rules_mutation_count (p : ptr) : M (world R) Z := λ w,
  node_rules_mutation_count_rec (S (size (nodes (w_heap w)))) p w.

Definition rules_mutation_count (t : ptr) : M (world R) Z :=
  match t with
  | None => mret 0
  | Some _ => x ← on_heap (load_tree t); node_rules_mutation_count (root x)
  end.

(** The loop of [random_recursive_mutation]: [num] copies of [par], each with
    the previous one at [offset]. *)
Fixpoint recursion_loop (num : nat) (par tail : ptr) (offset : Z) : M (world R) ptr :=
  match num with
  | O => mret tail
  | S num =>
      cloned_part ← on_heap (node_clone par);
      _ ← on_heap (store tail (set_parent cloned_part));
      _ ← on_heap (write_subnode cloned_part offset tail);
      recursion_loop num par cloned_part offset
  end.

(** [1 << n] for an [int]: only up to 30 is there a value. *)
Definition shift_int (n : Z) : M (world R) Z := if decide (0 ≤ n < 31) then mret (Z.shiftl 1 n) else fail BadShift.

(** [n] is a [uint8_t]. *)
Definition random_recursive_mutation (t : ptr) (n : Z) : M (world R) ptr :=
  match t with
  | None => mret None
  | Some _ =>
      mutated_tree ← on_heap (tree_clone t);
      x ← on_heap (load_tree mutated_tree);
      e ← on_rng (node_pick_recursion_edge (root x));
      match e_parent e, e_subnode e with
      | None, _ | _, None => mret mutated_tree
      | Some _, Some _ =>
          _ ← on_heap (store (e_subnode e) (set_parent None));
          _ ← on_heap (write_subnode (e_parent e) (subnode_offset e) None);
          num ← shift_int (u8 n);
          tail ← recursion_loop (Z.to_nat num) (e_parent e) (e_subnode e) (subnode_offset e);
          _ ← on_heap (store tail (set_parent (e_parent e)));
          _ ← on_heap (write_subnode (e_parent e) (subnode_offset e) tail);
          mret mutated_tree
      end
  end.

Definition splicing_mutation (t : ptr) : M (world R) ptr :=
  match t with
  | None => mret None
  | Some _ =>
      mutated_tree ← on_heap (tree_clone t);
      x ← on_heap (load_tree mutated_tree);
      node ← on_rng (node_pick_non_term_subnode (root x));
      match node with
      | None => fail ProcessExit
      | Some _ =>
          n ← on_heap (load node);
          replace_node ← chunk_store_get_alternative_node node;
          match replace_node with
          | None => mret mutated_tree
          | Some _ => replace_picked mutated_tree node (parent n) replace_node
          end
      end
  end.

(** ** Trimming *)

Definition subtree_trimming (t node : ptr) : M (world R) ptr :=
  n ← on_heap (load node);
  min_node ← call_gen_func (Tree.id n) 0 (-1);
  match parent n with
  | None =>
      trimmed_tree ← on_heap tree_create;
      _ ← on_heap (store_tree trimmed_tree (set_root min_node));
      mret trimmed_tree
  | Some _ =>
      e ← on_heap (node_get_parent_edge node);
      _ ← on_heap (store node (set_parent None));
      _ ← on_heap (write_subnode (parent n) (subnode_offset e) min_node);
      _ ← on_heap (store min_node (set_parent (parent n)));
      trimmed_tree ← on_heap (tree_clone t);
      _ ← on_heap (write_subnode (parent n) (subnode_offset e) node);
      _ ← on_heap (store node (set_parent (parent n)));
      _ ← on_heap (node_free min_node);
      mret trimmed_tree
  end.

Definition recursive_trimming (t : ptr) (e : edge) : M (world R) ptr :=
  match e_parent e, e_subnode e with
  | None, _ | _, None => on_heap (tree_clone t)
  | Some _, Some _ =>
      p ← on_heap (load (e_parent e));
      match parent p with
      | None =>
          trimmed_tree ← on_heap tree_create;
          r ← on_heap (node_clone (e_subnode e));
          _ ← on_heap (store_tree trimmed_tree (set_root r));
          mret trimmed_tree
      | Some _ =>
          _ ← on_heap (store (e_subnode e) (set_parent None));
          pre_edge ← on_heap (node_get_parent_edge (e_parent e));
          _ ← on_heap (store (e_parent e) (set_parent None));
          _ ← on_heap (write_subnode (parent p) (subnode_offset pre_edge) (e_subnode e));
          _ ← on_heap (store (e_subnode e) (set_parent (parent p)));
          trimmed_tree ← on_heap (tree_clone t);
          _ ← on_heap (write_subnode (parent p) (subnode_offset pre_edge) (e_parent e));
          _ ← on_heap (store (e_parent e) (set_parent (parent p)));
          _ ← on_heap (store (e_subnode e) (set_parent (e_parent e)));
          mret trimmed_tree
      end
  end.
End Mutation.
