(* ===== verification/MutationSpec.v ===== *)
(** * MutationSpec: what the mutations and the trimmings produce

    Each returns a tree of its own, equal to the input except for the subtree it
    exchanges, leaves the input tree as it was, and frees whatever else it built.
    *)

From S2P Require Import Prelude Buffer Utils Tree TreeSpec TreeNodes TreeSizes TreePaths TreePicks StrMap World ChunkStore TreeMutation TreeGrafts ToyGrammar.

(** [T'] is a new tree of value [t], and nothing else in the heap has changed. *)
Definition new_tree (t : gtree) (T' : ptr) (h h' : heap) : Prop :=
  ∃ T p ls, T' = Some T ∧ made T p ls h h' ∧ NoDup ls ∧ shape true (nodes h') None p t ls.

(** Tree [T] has value [t]: its root is [p] and its nodes are [ls]. *)
Record stored (h : heap) (T p : loc) (t : gtree) (ls : list loc) : Prop := {
  st_ok : heap_ok h;
  st_tree : ∃ x, trees h !! T = Some x ∧ root x = Some p;
  st_shape : shape true (nodes h) None p t ls;
  st_NoDup : NoDup ls }.

(** There is a generated function for every type of node in the tree. *)
Definition covered {R : Type} `{!Grammar R} (t : gtree) : Prop := ∀ π v,
  gget t π = Some v → gid v ≠ 0 → 0 ≤ gid v ∧ ∃ f, gen_funcs !! Z.to_nat (gid v) = Some (Some f).

Lemma grown_fresh ls h h' x : grown ls h h' → heap_ok h → x ∈ ls → nodes h !! x = None.
Proof.
  intros Hg Hok Hx. destruct (nodes h !! x) eqn:Hn; [|done]. exfalso.
  eapply grown_old; [done|done| |done]. by eexists.
Qed.

Lemma grafted_made T' p' ls' lg h0 h h' :
  heap_ok h0 → grown lg h0 h → grafted T' p' ls' lg h h' → made T' p' ls' h0 h'.
Proof.
  intros Hok Hg [G1 G2 G3 G4 G5 G6 G7 G8]. split.
  - intros l Hl%G3. pose proof (g_next _ _ _ Hg). lia.
  - intros q Hq. destruct (decide (q ∈ lg)) as [Hin|Hin].
    + rewrite G2 by done. symmetry. by eapply grown_fresh.
    + rewrite G1 by done. by apply (g_same _ _ _ Hg).
  - by rewrite <- (g_trees _ _ _ Hg).
  - by rewrite G6, (g_trees _ _ _ Hg).
  - by rewrite G7, (g_files _ _ _ Hg).
  - pose proof (g_next _ _ _ Hg). lia.
  - done.
Qed.

(** The copy [T'] after the subtree at [q] was exchanged for [g] and freed. *)
Lemma replaced_made T' p' t ls' h0 ha h1 h' π pp npp ps i q nq v lq rest g ng lg ls3 :
  heap_ok h0 → made T' p' ls' h0 ha → NoDup ls' → grown lg ha h1 →
  focus true (nodes h1) None p' t ls' π pp npp ps i q v lq rest →
  nodes h1 !! q = Some nq → nodes h1 !! g = Some ng → g ∈ lg → g ≠ pp → g ≠ q →
  pruned lq (set_nodes (graft_nodes (nodes h1) pp npp ps i q nq g ng) h1) h' → ls3 ≡ₚ lg ++ rest →
  made T' p' ls3 h0 h'.
Proof.
  intros Hok [M1 M2 M3 M4 M5 M6 M7] Hnd Hg F Hq Hng Hgl Hgpp Hgq Hpr Hp3.
  pose proof (g_next _ _ _ Hg). pose proof (focus_parent_ne F Hnd) as Hqpp.
  destruct (graft_nodes_lookup (nodes h1) pp npp ps i q nq g ng) as (_ & _ & _ & Mo); try done.
  assert (heap_ok h') as Hok'.
  { eapply pruned_ok; [done|]. apply graft_nodes_ok; [apply Hg|done|apply F|done]. }
  split; try rewrite (pr_trees _ _ _ Hpr); try rewrite (pr_files _ _ _ Hpr); simpl; try done.
  - intros l. rewrite Hp3, (pr_next _ _ _ Hpr). simpl. intros [Hl%(g_new _ _ _ Hg)|Hl]%elem_of_app; [lia|].
    assert (l ∈ ls') as Hl'%M1 by (rewrite (focus_split F); by right). lia.
  - intros y. rewrite Hp3. intros [Hyl Hyr]%not_elem_of_app. destruct (decide (y ∈ lq)) as [Hyq|Hyq].
    + rewrite (pr_gone _ _ _ Hpr) by done. symmetry. destruct (nodes h0 !! y) eqn:Hn; [|done]. exfalso.
      apply Hok in Hn. assert (y ∈ ls') as Hy'%M1 by (rewrite (focus_split F); by left). lia.
    + rewrite (pr_same _ _ _ Hpr) by done. simpl. rewrite Mo.
      * rewrite (g_same _ _ _ Hg), M2; [done| |done]. rewrite (focus_split F). tauto.
      * by intros ->.
      * intros ->. apply Hyr, F.
      * intros ->. apply Hyq. eapply shape_head, F.
  - by rewrite (g_trees _ _ _ Hg), M4.
  - by rewrite (g_files _ _ _ Hg).
  - rewrite (pr_next _ _ _ Hpr). simpl. lia.
Qed.

(** The copy [T'] after all its nodes were freed and [g] became its root. *)
Lemma rerooted_made T' p' ls' h0 ha h1 h2 g lg :
  heap_ok h0 → made T' p' ls' h0 ha → grown lg ha h1 → pruned ls' h1 h2 → (∀ y, y ∈ ls' → y ∉ lg) →
  made T' g lg h0 (set_trees (<[T' := tree_at g]> (trees h2)) h2).
Proof.
  intros Hok [M1 M2 M3 M4 M5 M6 M7] Hg Hpr Hdis. pose proof (g_next _ _ _ Hg).
  pose proof (pr_next _ _ _ Hpr). pose proof (pr_trees _ _ _ Hpr) as Ht. split; simpl; try done.
  - intros l Hl%(g_new _ _ _ Hg). lia.
  - intros y Hy. destruct (decide (y ∈ ls')) as [Hyl|Hyl].
    + rewrite (pr_gone _ _ _ Hpr) by done. symmetry. destruct (nodes h0 !! y) eqn:Hn; [|done]. exfalso.
      apply Hok in Hn. apply M1 in Hyl. lia.
    + by rewrite (pr_same _ _ _ Hpr), (g_same _ _ _ Hg), M2.
  - by rewrite Ht, (g_trees _ _ _ Hg), M4, insert_insert_eq.
  - by rewrite (pr_files _ _ _ Hpr), (g_files _ _ _ Hg).
  - lia.
  - pose proof (pruned_ok _ _ _ Hpr ltac:(apply Hg)) as [O1 O2]. split; [done|]. simpl. intros t0 y0.
    intros [[<- _]|[_ Hn]]%lookup_insert_Some; [|by eapply O2].
    apply (O2 T' (tree_at p')). rewrite Ht, (g_trees _ _ _ Hg), M4. apply lookup_insert_eq.
Qed.

Section Spec.
Context `{Host} (Hmem : never_refuses) {R : Type} `{!Random R, !Grammar R, !Digest} {room builds} `{!GeneratorLaw room builds}.

(** A node of a well-formed tree: the root, or a node in focus. *)
Lemma node_cases m p t ls q n :
  shape true m None p t ls → NoDup ls → q ∈ ls → m !! q = Some n →
  (q = p ∧ parent n = None ∧ id n = gid t) ∨
  (∃ π pp npp ps i v lq rest, focus true m None p t ls π pp npp ps i q v lq rest ∧ parent n = Some pp ∧ id n = gid v).
Proof.
  intros Hs Hnd Hq Hn. destruct (decide (q = p)) as [->|Hne].
  - left. apply shape_unfold in Hs as (n' & ? & ? & Hn' & His & _). simplify_eq.
    by rewrite (is_parent _ _ _ _ _ His eq_refl), (is_id _ _ _ _ _ His).
  - right. destruct (shape_focus true m t None p ls q Hs Hnd Hq Hne) as (π & pp & npp & ps & i & v & lq & rest & F).
    exists π, pp, npp, ps, i, v, lq, rest. split; [done|].
    pose proof (f_shape F) as (n' & ? & ? & Hn' & His & _)%shape_unfold. simplify_eq.
    by rewrite (is_parent _ _ _ _ _ His eq_refl), (is_id _ _ _ _ _ His).
Qed.

(** Exchanging the subtree at [q] for a generated one, as [rules_mutation] and
    [subtree_trimming] do. *)
Lemma wp_exchange (w : world R) T x p t ls q n f ml rule (Q : ptr → world R → Prop) :
  let h := w_heap w in
  heap_ok h → trees h !! T = Some x → root x = Some p → shape true (nodes h) None p t ls → NoDup ls →
  q ∈ ls → nodes h !! q = Some n → 0 ≤ id n → gen_funcs !! Z.to_nat (id n) = Some (Some f) → room (i32 ml) →
  (∀ T' h' r π v u, loc_at (nodes h) p π = Some q → gget t π = Some v → gid v = id n → builds (gid v) u →
     new_tree (gput t π u) T' h h' → Q T' (set_rng r (set_heap h' w))) →
  wp (g ← call_gen_func (id n) ml rule;
      match parent n with
      | None =>
          t' ← on_heap tree_create;
          _ ← on_heap (store_tree t' (set_root g));
          mret t'
      | Some _ =>
          e ← on_heap (node_get_parent_edge (Some q));
          _ ← on_heap (store (Some q) (set_parent None));
          _ ← on_heap (write_subnode (parent n) (subnode_offset e) g);
          _ ← on_heap (store g (set_parent (parent n)));
          t' ← on_heap (tree_clone (Some T));
          _ ← on_heap (write_subnode (parent n) (subnode_offset e) (Some q));
          _ ← on_heap (store (Some q) (set_parent (parent n)));
          _ ← on_heap (node_free g);
          mret t'
      end) w Q.
Proof.
  intros h Hok Hx Hroot Hs Hnd Hq Hn Hid Hf Hml HQ. apply wp_bind. eapply wp_call_gen_func; [done|].
  eapply wp_mono; [by eapply generator_law|]. intros [? r] h1 (g & u & lg & -> & Hg & Hndg & Hsg & Hbu). simpl.
  rewrite Z2Nat.id in Hbu by done. pose proof (builds_gid _ _ Hbu) as Hgid.
  assert (shape true (nodes h1) None p t ls) as Hs1 by (by eapply grown_shape).
  assert (∀ y, y ∈ ls → y ∉ lg ∧ nodes h1 !! y = nodes h !! y) as Hsame.
  { intros y Hy. assert (y ∉ lg) by (eapply grown_old; [done|done|]; by eapply shape_lookup).
    split; [done|]. by apply (g_same _ _ _ Hg). }
  assert (nodes h1 !! q = Some n) as Hn1 by (by rewrite (proj2 (Hsame q Hq))).
  destruct (node_cases _ _ _ _ _ _ Hs1 Hnd Hq Hn1) as [(-> & -> & Heq)|(π & pp & npp & ps & i & v & lq & rest & F & -> & Heq)].
  - apply (wp_tree_around Hmem). apply (HQ _ _ r [] t u); [done|done|congruence|congruence|].
    exists (next_loc h1), g, lg. split; [done|]. split; [|done]. eapply grown_made; [done|].
    by apply made_around, Hg.
  - apply (wp_graft Hmem (set_rng r (set_heap h1 w)) T x None p t ls π pp npp ps i q v lq rest g u lg); try done.
    + apply Hg.
    + simpl. by rewrite (g_trees _ _ _ Hg).
    + intros y Hy. by apply Hsame.
    + intros T' p' ls' h' Hgr Hs' Hnd'. apply (HQ (Some T') h' r π v u); [|apply (f_get F)|congruence|congruence|].
      * rewrite <- (f_loc F). symmetry. eapply loc_at_frame; [done|]. intros y Hy. by apply Hsame.
      * exists T', p', ls'. split; [done|]. split; [|done]. by eapply grafted_made.
Qed.

(** Hanging the generated tree [g] into the copy [T'], where [q] is. *)
Lemma wp_replace_picked (w : world R) h0 ha T' p' t ls' q n g u lg (Q : ptr → world R → Prop) :
  heap_ok h0 → made T' p' ls' h0 ha → NoDup ls' → shape true (nodes ha) None p' t ls' →
  grown lg ha (w_heap w) → NoDup lg → shape true (nodes (w_heap w)) None g u lg →
  q ∈ ls' → nodes ha !! q = Some n → id n = gid u →
  (∀ h' π v, gget t π = Some v → gid v = gid u → new_tree (gput t π u) (Some T') h0 h' → Q (Some T') (set_heap h' w)) →
  wp (replace_picked (Some T') (Some q) (parent n) (Some g)) w Q.
Proof.
  intros Hok Hm Hnd Hs Hg Hndg Hsg Hq Hn Hid HQ. set (h1 := w_heap w) in *.
  pose proof (md_ok _ _ _ _ _ Hm) as Hoka. assert (shape true (nodes h1) None p' t ls') as Hs1 by (by eapply grown_shape).
  assert (∀ y, y ∈ ls' → y ∉ lg) as Hdis.
  { intros y Hy. eapply grown_old; [done|done|]. by eapply shape_lookup. }
  assert (nodes h1 !! q = Some n) as Hn1 by (by rewrite (g_same _ _ _ Hg) by auto).
  pose proof Hsg as (ng & ? & ? & Hng & Hisg & _ & _)%shape_unfold.
  assert (g ∈ lg) as Hgl by (by eapply shape_head). unfold replace_picked.
  destruct (node_cases _ _ _ _ _ _ Hs1 Hnd Hq Hn1) as [(-> & -> & Heq)|(π & pp & npp & ps & i & v & lq & rest & F & Hpar & Heq)].
  - apply wp_bind, wp_on_heap. eapply wp_mono; [by eapply node_free_ok|].
    intros [] h2 Hpr. fold h1 in Hpr. assert (trees h2 !! T' = Some (tree_at p')) as HT2.
    { rewrite (pr_trees _ _ _ Hpr), (g_trees _ _ _ Hg), (md_tree _ _ _ _ _ Hm). apply lookup_insert_eq. }
    apply wp_bind, wp_on_heap. eapply wp_store_tree; [done|]. apply wp_ret.
    apply (HQ _ [] t); [done|congruence|]. exists T', g, lg. split; [done|].
    split; [by eapply (rerooted_made T' p' ls' h0 ha h1)|]. split; [done|]. simpl.
    eapply shape_frame; [|exact Hsg]. intros y Hy. rewrite (pr_same _ _ _ Hpr); [done|].
    intros Hyl. by apply (Hdis y).
  - rewrite Hpar. assert (g ≠ pp ∧ g ≠ q) as [Hgpp Hgq].
    { split; intros ->; [apply (Hdis pp)|by apply (Hdis q)]; [rewrite (focus_split F); right; apply F|done]. }
    pose proof (focus_parent_ne F Hnd) as Hqpp. apply wp_bind, wp_on_heap.
    eapply wp_replace_subnode; [apply F..|done|done| |done|done|done|done|].
    { by rewrite (is_id _ _ _ _ _ Hisg). }
    apply wp_bind, wp_on_heap. eapply (wp_free_replaced h1); try done.
    intros h' ls3 Hpr Hs3 Hnd3 Hp3. apply wp_ret. apply (HQ h' π v); [apply (f_get F)|congruence|].
    exists T', p', ls3. split; [done|]. split; [|done]. by eapply replaced_made.
Qed.

Lemma node_gid_path chk m p t ls q n :
  shape chk m None p t ls → NoDup ls → q ∈ ls → m !! q = Some n → ∃ π v, gget t π = Some v ∧ gid v = id n.
Proof.
  intros Hs Hnd Hq Hn. destruct (decide (q = p)) as [->|Hne].
  - apply shape_unfold in Hs as (n' & ? & ? & Hn' & His & _). simplify_eq. exists [], t.
    by rewrite (is_id _ _ _ _ _ His).
  - destruct (shape_focus chk m t None p ls q Hs Hnd Hq Hne) as (π & pp & npp & ps & i & v & lq & rest & F).
    exists π, v. split; [apply (f_get F)|].
    pose proof (f_shape F) as (n' & ? & ? & Hn' & His & _)%shape_unfold. simplify_eq.
    by rewrite (is_id _ _ _ _ _ His).
Qed.

Lemma random_mutation_ok (w : world R) T p t ls :
  stored (w_heap w) T p t ls → counted t → gid t ≠ 0 → count_nt t < 2 ^ 32 → count_edges t < 2 ^ 32 → covered t → room (i32 (max_tree_len w)) →
  wp (random_mutation (Some T)) w (λ T' w', ∃ h' r π v u, w' = set_rng r (set_heap h' w) ∧
    gget t π = Some v ∧ builds (gid v) u ∧ new_tree (gput t π u) T' (w_heap w) h').
Proof.
  intros [Hok (x & Hx & Hroot) Hs Hnd] Hc Hid Hnt He Hcov Hml.
  unfold random_mutation. apply wp_bind, wp_on_heap. eapply (wp_tree_clone Hmem _ T x true None p t ls); try done.
  intros T' p' ls' ha Hm Hnd' Hs'. apply wp_bind, wp_on_heap.
  eapply wp_load_tree; [simpl; rewrite (md_tree _ _ _ _ _ Hm); apply lookup_insert_eq|].
  apply wp_bind, wp_on_rng. eapply wp_mono; [by apply (node_pick_non_term_subnode_ok ha true None p' t ls')|].
  intros [? r1] ? (-> & q & -> & Hq & n & Hn & Hidn). simpl.
  destruct (node_gid_path _ _ _ _ _ _ _ Hs' Hnd' Hq Hn) as (π0 & v0 & Hg0 & Hv0).
  destruct (Hcov π0 v0 Hg0) as (Hpos & f & Hf); [congruence|]. rewrite Hv0 in Hf, Hpos.
  apply wp_bind, wp_on_heap. eapply wp_load; [done|]. apply wp_bind, wp_get. simpl.
  apply wp_bind. eapply wp_call_gen_func; [done|]. simpl.
  eapply wp_mono; [eapply generator_law; [done|done|by eapply md_ok]|].
  intros [? r2] h1 (g & u & lg & -> & Hg & Hndg & Hsg & Hbu). rewrite Z2Nat.id in Hbu by done. pose proof (builds_gid _ _ Hbu) as Hgid.
  eapply (wp_replace_picked _ (w_heap w) ha); try done. intros h' π v Hgv Hvu Hnew.
  exists h', r2, π, v, u. split_and!; try done. congruence.
Qed.

(** C23. [random_mutation] of a tree with exact sizes returns a new tree that
    differs from the input in one subtree: at some non-terminal node it has a
    generated subtree of the same type.  The input tree and everything else in
    the heap is unchanged, and the nodes that were exchanged are freed. *)
Theorem random_mutation_correct (w : world R) T p t ls :
  stored (w_heap w) T p t ls → counted t → gid t ≠ 0 → count_nt t < 2 ^ 32 → count_edges t < 2 ^ 32 → covered t → room (i32 (max_tree_len w)) →
  ∃ T' h' r π v u, random_mutation (Some T) w = Ret (T', set_rng r (set_heap h' w)) ∧
    gget t π = Some v ∧ builds (gid v) u ∧ new_tree (gput t π u) T' (w_heap w) h'.
Proof.
  intros. pose proof (random_mutation_ok w T p t ls) as Hw. discharge Hw.
  apply wp_Ret in Hw as (T' & w' & Hr & h' & r & π & v & u & -> & ?). by exists T', h', r, π, v, u.
Qed.

Lemma rules_mutation_ok (w : world R) T p t ls q n num f rule :
  stored (w_heap w) T p t ls → q ∈ ls → nodes (w_heap w) !! q = Some n → 0 < id n →
  node_num_rules !! Z.to_nat (id n) = Some num → gen_funcs !! Z.to_nat (id n) = Some (Some f) →
  rule < num → rule_id n ≠ rule → room (i32 (max_tree_len w)) →
  wp (rules_mutation (Some T) (Some q) rule) w (λ T' w', ∃ h' r π v u, w' = set_rng r (set_heap h' w) ∧
    loc_at (nodes (w_heap w)) p π = Some q ∧ gget t π = Some v ∧ gid v = id n ∧ builds (gid v) u ∧
    new_tree (gput t π u) T' (w_heap w) h').
Proof.
  intros [Hok (x & Hx & Hroot) Hs Hnd] Hq Hn Hid Hnum Hf Hrule Hr Hml.
  unfold rules_mutation. apply wp_bind, wp_on_heap. eapply wp_load; [done|].
  rewrite decide_False by lia. apply wp_bind. unfold num_rules. rewrite Hnum. apply wp_ret.
  rewrite decide_False by lia. rewrite decide_False by done. apply wp_bind, wp_get.
  eapply (wp_exchange (set_heap (w_heap w) w) T x p t ls q n f (max_tree_len w) rule); try done; [lia|].
  intros T' h' r π v u Hloc Hget Hgid Hbu Hnew. by exists h', r, π, v, u.
Qed.

(** C24. [rules_mutation] with another rule of a non-terminal node returns a new
    tree in which the subtree at that node is a generated one of the same type.
    The node is taken out of the input tree only for the copy: afterwards the
    input tree and everything else in the heap is as before. *)
Theorem rules_mutation_correct (w : world R) T p t ls q n num f rule :
  stored (w_heap w) T p t ls → q ∈ ls → nodes (w_heap w) !! q = Some n → 0 < id n →
  node_num_rules !! Z.to_nat (id n) = Some num → gen_funcs !! Z.to_nat (id n) = Some (Some f) →
  rule < num → rule_id n ≠ rule → room (i32 (max_tree_len w)) →
  ∃ T' h' r π v u, rules_mutation (Some T) (Some q) rule w = Ret (T', set_rng r (set_heap h' w)) ∧
    loc_at (nodes (w_heap w)) p π = Some q ∧ gget t π = Some v ∧ builds (gid v) u ∧
    new_tree (gput t π u) T' (w_heap w) h'.
Proof.
  intros. pose proof (rules_mutation_ok w T p t ls q n num f rule) as Hw. discharge Hw.
  apply wp_Ret in Hw as (T' & w' & Hrun & h' & r & π & v & u & -> & ? & ? & _ & ?). by exists T', h', r, π, v, u.
Qed.

Lemma subtree_trimming_ok (w : world R) T p t ls q n f :
  stored (w_heap w) T p t ls → q ∈ ls → nodes (w_heap w) !! q = Some n → 0 ≤ id n →
  gen_funcs !! Z.to_nat (id n) = Some (Some f) → room 0 →
  wp (subtree_trimming (Some T) (Some q)) w (λ T' w', ∃ h' r π v u, w' = set_rng r (set_heap h' w) ∧
    loc_at (nodes (w_heap w)) p π = Some q ∧ gget t π = Some v ∧ gid v = id n ∧ builds (gid v) u ∧
    new_tree (gput t π u) T' (w_heap w) h').
Proof.
  intros [Hok (x & Hx & Hroot) Hs Hnd] Hq Hn Hid Hf Hml.
  unfold subtree_trimming. apply wp_bind, wp_on_heap. eapply wp_load; [done|].
  eapply (wp_exchange (set_heap (w_heap w) w) T x p t ls q n f 0 (-1)); try done.
  intros T' h' r π v u Hloc Hget Hgid Hbu Hnew. by exists h', r, π, v, u.
Qed.

(** C26. [subtree_trimming] returns a new tree in which the subtree at the node is
    a generated one of the same type, asked to be as small as possible, and leaves
    the input tree and everything else in the heap as before. *)
Theorem subtree_trimming_correct (w : world R) T p t ls q n f :
  stored (w_heap w) T p t ls → q ∈ ls → nodes (w_heap w) !! q = Some n → 0 ≤ id n →
  gen_funcs !! Z.to_nat (id n) = Some (Some f) → room 0 →
  ∃ T' h' r π v u, subtree_trimming (Some T) (Some q) w = Ret (T', set_rng r (set_heap h' w)) ∧
    loc_at (nodes (w_heap w)) p π = Some q ∧ gget t π = Some v ∧ builds (gid v) u ∧
    new_tree (gput t π u) T' (w_heap w) h'.
Proof.
  intros. pose proof (subtree_trimming_ok w T p t ls q n f) as Hw. discharge Hw.
  apply wp_Ret in Hw as (T' & w' & Hrun & h' & r & π & v & u & -> & ? & ? & _ & ?). by exists T', h', r, π, v, u.
Qed.
End Spec.

(** ** Witnesses *)

Definition toy_world : world unit := World sample_heap tt 50 map_init map_init.

Lemma sample_stored : stored (w_heap toy_world) 9 1 sample_tree sample_locs.
Proof.
  split; [apply sample_heap_ok|by exists (tree_at 1)|apply sample_shape|apply sample_NoDup].
Qed.

Lemma sample_covered : covered (Grammar0 := toy_grammar (H := obliging)) sample_tree.
Proof.
  intros π v Hg. eapply (gall_gget (λ v, bool_decide (gid v = 0 ∨ gid v = 1 ∨ gid v = 2))) in Hg; [|reflexivity].
  apply bool_decide_eq_true in Hg as [->|[->| ->]]; [done|..]; (split; [lia|]); by eexists.
Qed.

Lemma random_mutation_correct_witness :
  ∃ T' h' r π v u, random_mutation (H := obliging) (Random0 := least) (Grammar0 := toy_grammar (H := obliging))
      (Some 9%positive) toy_world = Ret (T', set_rng r (set_heap h' toy_world)) ∧
    gget sample_tree π = Some v ∧ toy_builds (gid v) u ∧ new_tree (gput sample_tree π u) T' sample_heap h'.
Proof.
  apply (random_mutation_correct (H := obliging) (λ _, eq_refl) (Random0 := least)
    (Grammar0 := toy_grammar (H := obliging)) (GeneratorLaw0 := toy_law (H := obliging) (λ _, eq_refl))
    toy_world 9 1 sample_tree sample_locs).
  - apply sample_stored.
  - apply sample_counted.
  - discriminate.
  - vm_compute. reflexivity.
  - vm_compute. reflexivity.
  - apply sample_covered.
  - exact I.
Defined.

Lemma rules_mutation_correct_witness :
  ∃ T' h' r π v u, rules_mutation (H := obliging) (Grammar0 := toy_grammar (H := obliging))
      (Some 9%positive) (Some 4%positive) 0 toy_world = Ret (T', set_rng r (set_heap h' toy_world)) ∧
    loc_at (nodes sample_heap) 1 π = Some 4%positive ∧
    gget sample_tree π = Some v ∧ toy_builds (gid v) u ∧ new_tree (gput sample_tree π u) T' sample_heap h'.
Proof.
  apply (rules_mutation_correct (H := obliging) (λ _, eq_refl)
    (Grammar0 := toy_grammar (H := obliging)) (GeneratorLaw0 := toy_law (H := obliging) (λ _, eq_refl))
    toy_world 9 1 sample_tree sample_locs 4 (inner 1 1 (Some 1%positive) [6]%positive 0 1) 2 (toy_gen (H := obliging) 1) 0).
  - apply sample_stored.
  - right. right. right. right. left.
  - reflexivity.
  - reflexivity.
  - reflexivity.
  - reflexivity.
  - reflexivity.
  - discriminate.
  - exact I.
Defined.

Lemma subtree_trimming_correct_witness :
  ∃ T' h' r π v u, subtree_trimming (H := obliging) (Grammar0 := toy_grammar (H := obliging))
      (Some 9%positive) (Some 2%positive) toy_world = Ret (T', set_rng r (set_heap h' toy_world)) ∧
    loc_at (nodes sample_heap) 1 π = Some 2%positive ∧
    gget sample_tree π = Some v ∧ toy_builds (gid v) u ∧ new_tree (gput sample_tree π u) T' sample_heap h'.
Proof.
  apply (subtree_trimming_correct (H := obliging) (λ _, eq_refl)
    (Grammar0 := toy_grammar (H := obliging)) (GeneratorLaw0 := toy_law (H := obliging) (λ _, eq_refl))
    toy_world 9 1 sample_tree sample_locs 2 (inner 2 1 (Some 1%positive) [5]%positive 0 1) (toy_gen (H := obliging) 2)).
  - apply sample_stored.
  - right. left.
  - reflexivity.
  - discriminate.
  - reflexivity.
  - exact I.
Defined.
