(* ===== verification/RecursionSpec.v ===== *)
(** * RecursionSpec: the mutation and the trimming along a recursion edge

    [recursive_trimming] puts the lower node of a recursion edge in the place of
    the upper one; [random_recursive_mutation] repeats the part between them. *)

From S2P Require Import Prelude Buffer Utils Tree TreeSpec TreeNodes TreeSizes TreePaths TreePicks StrMap World ChunkStore TreeMutation TreeGrafts ToyGrammar MutationSpec.

Section Recursion.
Context `{Host} (Hmem : never_refuses) {R : Type}.

(** The two ends of an edge as subtrees. *)
Record edge_ends (m : gmap loc node) (a b : loc) (k : nat) (na nb : node) (ps : list ptr) (lss : list (list loc))
    (va vb : gtree) (lb : list loc) (par : ptr) : Prop := {
  ee_a : m !! a = Some na;
  ee_is : node_is true par va ps na;
  ee_shapes : shapes true m (Some a) ps (gsubs va) lss;
  ee_at : ps !! k = Some (Some b);
  ee_sub : gsubs va !! k = Some (Some vb);
  ee_locs : lss !! k = Some lb;
  ee_b : m !! b = Some nb;
  ee_shape : shape true m (Some a) b vb lb }.

Lemma edge_ends_of m ls par a va la e :
  shape true m par a va la → e_parent e = Some a → is_recursion_edge m ls e →
  ∃ b k na nb ps lss vb lb, e = Edge (Some a) (Some b) (Z.of_nat k) ∧
    edge_ends m a b k na nb ps lss va vb lb par ∧ la = a :: concat lss ∧ gid va = gid vb ∧ gid va ≠ 0.
Proof.
  intros Hs He (a' & b & na & nb & ps & k & -> & Ha & Hb & Hna & Hsub & Hcnt & Hk & Hnb & Hid & Hid0).
  simpl in He. injection He as ->.
  pose proof Hs as (na' & ps' & lss & Hna' & His & -> & Hshs)%shape_unfold. simplify_eq.
  assert (ps' = ps) as ->.
  { rewrite (is_count _ _ _ _ _ His) in Hcnt. assert (ps' ≠ []) as Hne.
    { intros ->. destruct ps; [by rewrite lookup_nil in Hk|simpl in Hcnt; lia]. }
    rewrite (is_subs _ _ _ _ _ His Hne) in Hsub. injection Hsub as Hsub.
    apply list_fmap_eq_inj in Hsub; [done|]. intros ?? [=]. done. }
  destruct (shapes_length _ _ _ _ _ _ Hshs) as [Hlen _]. apply lookup_lt_Some in Hk as Hlt.
  destruct (shapes_pick _ _ _ _ _ _ k Hshs) as (o & ot & l & Ho & Hot & Hl & Hsh); [lia|]. simplify_eq.
  destruct ot as [vb|]; simpl in Hsh; [|done].
  pose proof Hsh as (nb' & ? & ? & Hnb' & Hisb & _ & _)%shape_unfold. simplify_eq.
  exists b, k, na, nb, ps, lss, vb, l. split; [done|]. split; [by split|]. split; [done|].
  by rewrite <- (is_id _ _ _ _ _ His), <- (is_id _ _ _ _ _ Hisb).
Qed.

(** The path to the lower end of an edge. *)
Lemma loc_at_snoc m π k : ∀ p a, loc_at m p π = Some a → loc_at m p (π ++ [k]) = loc_at m a [k].
Proof.
  induction π as [|j π IH]; intros p a Hp; [by injection Hp as ->|]. simpl in Hp |- *. destruct (m !! p) as [n|]; [|done]. simpl in *.
  destruct (subnodes n) as [arr|]; [|done]. simpl in *. destruct (take _ _ !! j) as [[[q|]|]|]; [|done..]. by apply IH.
Qed.

Lemma loc_at_child m a b k na nb ps lss va vb lb par : edge_ends m a b k na nb ps lss va vb lb par → loc_at m a [k] = Some b.
Proof.
  intros [E1 E2 E3 E4 _ _ _ _]. assert (ps ≠ []) as Hne by (by intros ->). simpl. rewrite E1. simpl. rewrite (is_subs _ _ _ _ _ E2 Hne). simpl.
  rewrite (is_count _ _ _ _ _ E2), Nat2Z.id, take_ge by (by rewrite length_fmap). by rewrite list_lookup_fmap, E4.
Qed.

(** With [b] in the place of [a] the tree is well-formed. *)
Lemma lift_shape h p t ls π pp npp ps0 i a na va la rest b k nb ps lss vb lb :
  focus true (nodes h) None p t ls π pp npp ps0 i a va la rest → NoDup ls →
  edge_ends (nodes h) a b k na nb ps lss va vb lb (Some pp) → la = a :: concat lss →
  ∃ ls3, shape true (graft_nodes (nodes h) pp npp ps0 i a na b nb) None p (gput t π vb) ls3 ∧ NoDup ls3.
Proof.
  intros F Hnd [E1 E2 E3 E4 E5 E6 E7 E8] Hla.
  pose proof (focus_NoDup F Hnd) as (Hndla & Hdis & Hndr)%NoDup_app. rewrite Hla in Hndla.
  apply NoDup_cons in Hndla as [Hal Hndl]. destruct (NoDup_concat_lookup _ _ _ Hndl E6) as [Hndb _].
  assert (∀ y, y ∈ lb → y ∈ concat lss) as Hlb by (intros y; by eapply concat_lookup_elem).
  assert (b ∈ lb) as Hbl by (by eapply shape_head).
  assert (∀ y, y ∈ lb → y ≠ a ∧ y ∉ rest) as Hb.
  { intros y Hy. split; [intros ->; by apply Hal, Hlb|]. apply Hdis. rewrite Hla. right. by apply Hlb. }
  destruct (f_plug F (graft_nodes (nodes h) pp npp ps0 i a na b nb) b vb lb) as (ls3 & Hs3 & Hp3).
  - intros y Hy Hyp. unfold graft_nodes. rewrite !lookup_insert_ne; [done|..]; [|done|].
    + intros <-. apply (Hdis a); [rewrite Hla; left|done].
    + intros <-. by apply (Hb b).
  - unfold graft_nodes. rewrite lookup_insert_ne; [apply lookup_insert_eq|]. intros ->.
    apply (Hb pp); [done|apply F].
  - assert (∀ y, y ∈ lb → (<[pp:=set_subnodes (Some (<[i:=Some (Some b)]> (Some <$> ps0))) npp]>
        (<[a:=set_parent None na]> (nodes h))) !! y = nodes h !! y) as Hsame.
    { intros y Hy. destruct (Hb y Hy) as [Hya Hyr]. rewrite !lookup_insert_ne; [done|by apply not_eq_sym|].
      intros <-. apply Hyr, F. }
    unfold graft_nodes. apply (shape_set_parent true _ (Some a)); [|done|by rewrite Hsame|];
      (eapply shape_frame; [|exact E8]; done).
  - exists ls3. split; [done|]. rewrite Hp3. apply NoDup_app. split; [done|]. split; [|done].
    intros y Hy. by apply Hb.
Qed.

(** The nodes after [b] was put in the place of [a], store by store. *)
Lemma lift_nodes (m : gmap loc node) pp npp ps0 i a na b nb :
  b ≠ pp → b ≠ a → a ≠ pp →
  <[b := set_parent (Some pp) (set_parent None nb)]>
    (<[pp := set_subnodes (Some (<[i := Some (Some b)]> (Some <$> ps0))) npp]>
      (<[a := set_parent None na]> (<[b := set_parent None nb]> m))) =
  graft_nodes m pp npp ps0 i a na b nb.
Proof.
  intros ???. unfold graft_nodes. change (set_parent (Some pp) (set_parent None nb)) with (set_parent (Some pp) nb).
  apply map_eq. intros y. destruct (decide (y = b)) as [->|]; [by rewrite !lookup_insert_eq|].
  rewrite !(lookup_insert_ne _ b) by done. destruct (decide (y = pp)) as [->|]; [by rewrite !lookup_insert_eq|].
  rewrite !(lookup_insert_ne _ pp) by done. destruct (decide (y = a)) as [->|]; [by rewrite !lookup_insert_eq|].
  by rewrite !lookup_insert_ne by done.
Qed.

(** The three stores that put [a] back in its place above [b]. *)
Lemma wp_lower h h4 T' p' ls' pp npp ps0 i a na b nb :
  heap_ok h → nodes h !! pp = Some npp → subnodes npp = Some (Some <$> ps0) → ps0 !! i = Some (Some a) →
  nodes h !! a = Some na → nodes h !! b = Some nb → parent na = Some pp → parent nb = Some a →
  b ≠ pp → b ≠ a → a ≠ pp → made T' p' ls' (set_nodes (graft_nodes (nodes h) pp npp ps0 i a na b nb) h) h4 →
  wp (_ ← write_subnode (Some pp) (Z.of_nat i) (Some a);
      _ ← store (Some a) (set_parent (Some pp));
      store (Some b) (set_parent (Some a))) h4
    (λ _ h', made T' p' ls' h h' ∧ ∀ y, y ∈ ls' → nodes h' !! y = nodes h4 !! y).
Proof.
  intros Hok Hpp Hsub Hi Ha Hb Hpa Hpb Hbpp Hba Happ Hmd. set (m3 := graft_nodes _ _ _ _ _ _ _ _ _) in *.
  destruct (graft_nodes_lookup (nodes h) pp npp ps0 i a na b nb) as (Mb & Mpp & Ma & Mo); try done.
  fold m3 in Mb, Mpp, Ma, Mo. pose proof (graft_nodes_ok h pp npp ps0 i a na b nb Hok Ha Hpp Hb) as Hok3.
  assert (∀ y n, m3 !! y = Some n → nodes h4 !! y = Some n ∧ y ∉ ls') as Hold.
  { intros y n Hy. assert (y ∉ ls') as Hny by (by eapply made_old).
    split; [|done]. by rewrite (md_same _ _ _ _ _ Hmd) by done. }
  pose proof (Hold _ _ Mb) as [Hb4 Hbl]. pose proof (Hold _ _ Mpp) as [Hpp4 Hppl]. pose proof (Hold _ _ Ma) as [Ha4 Hal].
  apply wp_bind. eapply wp_write_subnode; [done|done|rewrite length_insert, length_fmap; apply lookup_lt_Some in Hi; lia|].
  apply wp_bind. eapply wp_store; [simpl; by rewrite lookup_insert_ne|].
  eapply wp_store; [simpl; by rewrite !lookup_insert_ne by done|]. simpl. rewrite Nat2Z.id.
  set (h7 := set_nodes _ _).
  assert (∀ y, y ∈ ls' → nodes h7 !! y = nodes h4 !! y) as Hcopy.
  { intros y Hy. simpl. by rewrite !lookup_insert_ne by (by intros ->). }
  split; [|done]. destruct Hmd as [M1 M2 M3 M4 M5 M6 M7]. split; try done.
  - intros y Hy. simpl.
    destruct (decide (y = b)) as [->|]; [rewrite lookup_insert_eq|rewrite lookup_insert_ne by done].
    { rewrite Hb. f_equal. destruct nb. simpl in *. by subst. }
    destruct (decide (y = a)) as [->|]; [rewrite lookup_insert_eq|rewrite lookup_insert_ne by done].
    { rewrite Ha. f_equal. destruct na. simpl in *. by subst. }
    destruct (decide (y = pp)) as [->|]; [rewrite lookup_insert_eq|rewrite lookup_insert_ne by done].
    { rewrite Hpp. f_equal. rewrite list_insert_insert_eq. rewrite list_insert_id by (by rewrite list_lookup_fmap, Hi).
      rewrite <- Hsub. by destruct npp. }
    rewrite M2 by done. simpl. by apply Mo.
  - apply (heap_ok_update h4 (nodes h7)); [done|]. intros l [n Hn]. simpl in Hn.
    repeat (apply lookup_insert_Some in Hn as [[<- _]|[_ Hn]]; [by eexists|]). by eexists.
Qed.

Lemma recursive_trimming_ok (w : world R) T p t ls e a :
  stored (w_heap w) T p t ls → is_recursion_edge (nodes (w_heap w)) ls e → e_parent e = Some a →
  wp (recursive_trimming (Some T) e) w (λ T' w', ∃ h' π k b va vb, w' = set_heap h' w ∧ e = Edge (Some a) (Some b) (Z.of_nat k) ∧
    loc_at (nodes (w_heap w)) p π = Some a ∧ loc_at (nodes (w_heap w)) p (π ++ [k]) = Some b ∧ gget t π = Some va ∧ gsubs va !! k = Some (Some vb) ∧
    gid va = gid vb ∧ new_tree (gput t π vb) T' (w_heap w) h').
Proof.
  intros [Hok (x & Hx & Hroot) Hs Hnd] He Hea. set (h := w_heap w) in *.
  pose proof He as (a' & ? & na & ? & ? & ? & -> & Ha & _ & Hna & _). simpl in Hea. injection Hea as ->.
  destruct (node_cases _ _ _ _ _ _ Hs Hnd Ha Hna) as [(-> & Hpar & _)|(π & pp & npp & ps0 & i & va & la & rest & F & Hpar & _)].
  - destruct (edge_ends_of _ _ _ _ _ _ (Edge _ _ _) Hs eq_refl He) as (b & k & na' & nb & ps & lss & vb & lb & Heq & E & -> & Hgid & _).
    injection Heq as -> Hoff. pose proof (loc_at_child _ _ _ _ _ _ _ _ _ _ _ _ E) as Hb. destruct E as [E1 E2 E3 E4 E5 E6 E7 E8]. simplify_eq.
    unfold recursive_trimming. simpl. apply wp_bind, wp_on_heap. eapply wp_load; [done|]. rewrite Hpar.
    apply wp_bind, wp_on_heap, (wp_tree_create Hmem). apply wp_bind, wp_on_heap.
    apply NoDup_cons in Hnd as [_ Hnd]. destruct (NoDup_concat_lookup _ _ _ Hnd E6) as [Hndb _].
    eapply wp_mono; [apply (node_clone_ok Hmem _ true (Some p) b vb lb); [by apply heap_ok_new_tree|done|done]|].
    intros ? h2 (g & lg & -> & Hg & Hndg & Hsg). apply wp_bind, wp_on_heap.
    eapply wp_store_tree; [simpl; rewrite (g_trees _ _ _ Hg); apply lookup_insert_eq|]. apply wp_ret.
    eexists _, [], k, b, t, vb. split; [done|]. split; [by f_equal|]. do 5 (split; [done|]). exists (next_loc h), g, lg.
    split; [done|]. split; [by apply created_made|done].
  - assert (shape true (nodes h) (Some pp) a va la) as Hsa by apply F.
    destruct (edge_ends_of _ _ _ _ _ _ (Edge _ _ _) Hsa eq_refl He) as (b & k & na' & nb & ps & lss & vb & lb & Heq & E & Hla & Hgid & _).
    injection Heq as -> Hoff. pose proof (loc_at_child _ _ _ _ _ _ _ _ _ _ _ _ E) as Hbk. destruct (lift_shape _ _ _ _ _ _ _ _ _ _ _ _ _ _ _ _ _ _ _ _ _ F Hnd E Hla) as (ls3 & Hs3 & Hnd3).
    destruct E as [E1 E2 E3 E4 E5 E6 E7 E8]. assert (na' = na) as -> by congruence. clear E1.
    pose proof (focus_NoDup F Hnd) as (Hndla & Hdis & _)%NoDup_app. rewrite Hla in Hndla, Hdis.
    apply NoDup_cons in Hndla as [Hal Hndl].
    assert (b ∈ concat lss) as Hbl by (eapply concat_lookup_elem; [done|]; by eapply shape_head).
    assert (b ≠ a) as Hba by (intros ->; done).
    assert (a ≠ pp) as Happ by (intros ->; apply (Hdis pp); [left|apply F]).
    assert (b ≠ pp) as Hbpp by (intros ->; apply (Hdis pp); [by right|apply F]).
    assert (parent nb = Some a) as Hparb.
    { pose proof E8 as (nb' & ? & ? & Hnb' & Hisb & _ & _)%shape_unfold. simplify_eq.
      by apply (is_parent _ _ _ _ _ Hisb). }
    unfold recursive_trimming. cbn [e_parent e_subnode].
    apply wp_bind, wp_on_heap. eapply wp_load; [done|]. rewrite Hpar.
    apply wp_bind, wp_on_heap. eapply wp_store; [done|].
    apply wp_bind, wp_on_heap.
    eapply (wp_parent_edge _ a na pp npp ps0 i); [simpl; by rewrite lookup_insert_ne|done| |apply F..|].
    { simpl. rewrite lookup_insert_ne by done. apply F. }
    cbn [subnode_offset].
    apply wp_bind, wp_on_heap. eapply wp_store; [simpl; by rewrite lookup_insert_ne|].
    apply wp_bind, wp_on_heap. eapply wp_write_subnode.
    { simpl. rewrite !lookup_insert_ne by done. apply F. } { apply F. }
    { rewrite length_fmap. pose proof (focus_bound F). lia. }
    apply wp_bind, wp_on_heap.
    eapply wp_store; [simpl; rewrite !lookup_insert_ne by done; apply lookup_insert_eq|].
    rewrite Nat2Z.id. cbn [w_heap set_heap nodes set_nodes trees files next_loc].
    rewrite (lift_nodes (nodes h)) by done. set (m3 := graft_nodes _ _ _ _ _ _ _ _ _) in *.
    assert (heap_ok (set_nodes m3 h)) as Hok3 by (apply graft_nodes_ok; [done|done|apply F|done]).
    apply wp_bind, wp_on_heap. apply (wp_tree_clone Hmem (set_nodes m3 h) T x true None p (gput t π vb) ls3); try done.
    intros T' p' ls' h4 Hmd Hnd' Hs'. apply wp_on_heap3.
    eapply wp_mono; [eapply (wp_lower h h4 T' p' ls' pp npp ps0 i a na b nb); try done; apply F|].
    intros [] h' [Hm Hcopy]. eexists h', π, k, b, va, vb. split; [done|]. split; [by f_equal|]. split; [apply F|].
    split; [by rewrite (loc_at_snoc _ _ _ _ a) by apply F|]. split; [apply F|].
    do 2 (split; [done|]). exists T', p', ls'. split; [done|]. split; [done|]. split; [done|]. by eapply shape_frame.
Qed.

(** C27. [recursive_trimming] of a recursion edge, from a node [a] to its subnode [b] at the
    offset of the edge, returns a new tree in which the subtree of [b] stands where the subtree
    of [a] was.  The input tree
    is rearranged for the copy and put back: nothing in the heap but the new tree
    is different afterwards. *)
Theorem recursive_trimming_correct (w : world R) T p t ls e a :
  stored (w_heap w) T p t ls → is_recursion_edge (nodes (w_heap w)) ls e → e_parent e = Some a →
  ∃ T' h' π k b va vb, recursive_trimming (Some T) e w = Ret (T', set_heap h' w) ∧ e = Edge (Some a) (Some b) (Z.of_nat k) ∧
    loc_at (nodes (w_heap w)) p π = Some a ∧ loc_at (nodes (w_heap w)) p (π ++ [k]) = Some b ∧ gget t π = Some va ∧ gsubs va !! k = Some (Some vb) ∧
    gid va = gid vb ∧ new_tree (gput t π vb) T' (w_heap w) h'.
Proof.
  intros. pose proof (recursive_trimming_ok w T p t ls e a) as Hw. discharge Hw.
  apply wp_Ret in Hw as (T' & w' & Hrun & h' & π & k & b & va & vb & -> & ?). by exists T', h', π, k, b, va, vb.
Qed.

(** ** Repeating the part between the ends of an edge *)

(** [va] with [u] as its subnode at [k]. *)
Definition plug (va : gtree) (k : nat) (u : gtree) : gtree := set_gsubs (<[k := Some u]> (gsubs va)) va.

(** [va] without its subnode at [k]. *)
Definition unplug (va : gtree) (k : nat) : gtree := set_gsubs (<[k := None]> (gsubs va)) va.

Lemma plug_unplug va k u : plug (unplug va k) k u = plug va k u.
Proof. unfold plug, unplug, set_gsubs. simpl. by rewrite list_insert_insert_eq. Qed.

Lemma iter_plug va k N u : Nat.iter N (plug (unplug va k) k) u = Nat.iter N (plug va k) u.
Proof. induction N as [|N IH]; [done|]. by rewrite !Nat.iter_succ, IH, plug_unplug. Qed.

Lemma wp_attach s par q hole lq k tl u lt :
  shape true (nodes s) par q hole lq → NoDup lq → gsubs hole !! k = Some None →
  shape true (nodes s) None tl u lt → NoDup lt → (∀ y, y ∈ lt → y ∉ lq) → heap_ok s →
  wp (_ ← store (Some tl) (set_parent (Some q)); write_subnode (Some q) (Z.of_nat k) (Some tl)) s
    (λ _ s', ∃ lq', shape true (nodes s') par q (plug hole k u) lq' ∧ lq' ≡ₚ lt ++ lq ∧
       touched [tl; q] s s' ∧ heap_ok s').
Proof.
  intros Hs Hnd Hk Ht Hndt Hdis Hok.
  pose proof Hs as (n & ps & lss & Hq & His & -> & Hsub)%shape_unfold.
  pose proof Ht as (nt & ? & ? & Htl & Hist & _ & _)%shape_unfold.
  destruct (shapes_length _ _ _ _ _ _ Hsub) as [Hlen Hlen2]. apply lookup_lt_Some in Hk as Hlt.
  destruct (shapes_pick _ _ _ _ _ _ k Hsub Hlt) as (o & ot & l & Ho & Hot & Hl & Hsh). simplify_eq.
  destruct o; simpl in Hsh; [done|]. subst l. apply NoDup_cons in Hnd as [Hqn Hnd].
  assert (tl ∈ lt) as Htll by (by eapply shape_head).
  assert (tl ≠ q) as Htq by (intros ->; eapply Hdis; [done|left]).
  assert (ps ≠ []) as Hne by (by intros ->).
  apply wp_bind. eapply wp_store; [done|].
  eapply wp_write_subnode; [simpl; by rewrite lookup_insert_ne|by eapply is_subs|rewrite length_fmap; lia|].
  rewrite Nat2Z.id. simpl. set (s' := set_nodes _ _). exists (q :: concat (<[k := lt]> lss)).
  split; [|split; [|split]].
  - apply shape_unfold. eexists _, (<[k := Some tl]> ps), (<[k := lt]> lss).
    split; [simpl; apply lookup_insert_eq|]. split; [|split; [done|]].
    { apply node_is_gput; [done| |done]. by eapply node_is_nonleaf. }
    simpl. eapply shapes_insert; [exact Hsub|exact Hl| |].
    + intros y Hy. simpl. assert (y ∈ concat lss) as Hyl.
      { rewrite (concat_delete_Permutation lss k []) by done. done. }
      rewrite !lookup_insert_ne; [done|intros <-; eapply Hdis; [done|by right]|by intros <-].
    + simpl. rewrite insert_insert_ne by done.
      eapply (shape_set_parent true _ None); [|done|rewrite lookup_insert_ne; done|];
        (eapply shape_frame; [|exact Ht]; intros y Hy; apply lookup_insert_ne; intros <-; eapply Hdis; [done|left]).
  - rewrite (concat_insert_Permutation lss k [] lt), (concat_delete_Permutation lss k []) by done. simpl.
    by rewrite Permutation_middle.
  - split; try done. intros y Hy. simpl. rewrite !lookup_insert_ne; [done|..]; intros <-; apply Hy; [left|right; left].
  - apply (heap_ok_update s (nodes s')); [done|]. intros y [m Hm]. simpl in Hm.
    repeat (apply lookup_insert_Some in Hm as [[<- _]|[_ Hm]]; [by eexists|]). by eexists.
Qed.

(** What [recursion_loop] leaves: more nodes in the chain, the rest as before. *)
Record chained (lt' lt : list loc) (s s' : heap) : Prop := {
  ch_in : ∀ y, y ∈ lt' → y ∈ lt ∨ (next_loc s ≤ y < next_loc s')%positive;
  ch_old : ∀ y, y ∈ lt → y ∈ lt';
  ch_same : ∀ y, y ∉ lt' → nodes s' !! y = nodes s !! y;
  ch_trees : trees s' = trees s;
  ch_files : files s' = files s;
  ch_next : (next_loc s ≤ next_loc s')%positive;
  ch_ok : heap_ok s' }.

Lemma chained_trans l0 l1 l2 s0 s1 s2 : chained l1 l0 s0 s1 → chained l2 l1 s1 s2 → chained l2 l0 s0 s2.
Proof.
  intros [A1 A2 A3 A4 A5 A6 A7] [B1 B2 B3 B4 B5 B6 B7]. split; try done; try congruence; try lia; auto.
  - intros y Hy. destruct (B1 y Hy) as [Hy1|?]; [|right; lia]. destruct (A1 y Hy1); [by left|right; lia].
  - intros y Hy. rewrite B3, A3; [done| |done]. intros Hy1. apply Hy. by apply B2.
Qed.

Lemma recursion_loop_ok chk a hole la k par N : ∀ tl u lt (w : world R),
  let s := w_heap w in
  shape chk (nodes s) par a hole la → NoDup la → gsubs hole !! k = Some None → heap_ok s →
  shape true (nodes s) None tl u lt → NoDup lt → (∀ y, y ∈ lt → y ∉ la) →
  wp (recursion_loop N (Some a) (Some tl) (Z.of_nat k)) w (λ r w', ∃ s' tl' lt', w' = set_heap s' w ∧ r = Some tl' ∧
    shape true (nodes s') None tl' (Nat.iter N (plug hole k) u) lt' ∧ NoDup lt' ∧ (∀ y, y ∈ lt' → y ∉ la) ∧
    chained lt' lt s s').
Proof.
  induction N as [|N IH]; intros tl u lt w s Hs Hnd Hk Hok Ht Hndt Hdis.
  { apply wp_ret. exists s, tl, lt. split; [by destruct w|]. split_and!; try done. split; auto; lia. }
  cbn [recursion_loop]. apply wp_bind, wp_on_heap.
  eapply wp_mono; [by apply (node_clone_ok Hmem s chk par a hole la)|].
  intros ? s1 (q & lq & -> & Hg & Hndq & Hsq).
  assert (∀ y, is_Some (nodes s !! y) → y ∉ lq) as Hold by (intros y; by eapply grown_old).
  assert (∀ y, y ∈ lt → y ∉ lq) as Hdq by (intros y Hy; apply Hold; by eapply shape_lookup).
  assert (shape true (nodes s1) None tl u lt) as Ht1 by (by eapply grown_shape).
  pose proof (wp_attach s1 None q hole lq k tl u lt Hsq Hndq Hk Ht1 Hndt Hdq ltac:(apply Hg)) as Hatt.
  apply wp_on_heap2. eapply wp_mono; [exact Hatt|]. intros [] s2 (lq' & Hsq' & Hp & Htou & Hok2). cbn beta.
  assert (∀ y, y ∈ la → nodes s2 !! y = nodes s !! y) as Hla.
  { intros y Hy. rewrite (to_same _ _ _ Htou).
    - apply (g_same _ _ _ Hg), Hold. by eapply (shape_lookup _ _ _ _ _ _ _ Hs).
    - rewrite elem_of_cons, list_elem_of_singleton. intros [->| ->].
      + by eapply Hdis; [by apply (shape_head _ _ _ _ _ _ Ht)|].
      + eapply Hold; [by apply (shape_lookup _ _ _ _ _ _ _ Hs)|by apply (shape_head _ _ _ _ _ _ Hsq)]. }
  assert (chained lq' lt s s2) as Hch.
  { pose proof (g_next _ _ _ Hg). pose proof (to_next _ _ _ Htou) as Hnx. split; try done.
    - intros y. rewrite Hp. intros [?|Hy%(g_new _ _ _ Hg)]%elem_of_app; [by left|right; lia].
    - intros y Hy. rewrite Hp. apply elem_of_app. by left.
    - intros y. rewrite Hp. intros [Hyt Hyq]%not_elem_of_app.
      rewrite (to_same _ _ _ Htou), (g_same _ _ _ Hg); [done|done|].
      rewrite elem_of_cons, list_elem_of_singleton. intros [->| ->]; [by apply Hyt, (shape_head _ _ _ _ _ _ Ht)|].
      by apply Hyq, (shape_head _ _ _ _ _ _ Hsq).
    - by rewrite (to_trees _ _ _ Htou), (g_trees _ _ _ Hg).
    - by rewrite (to_files _ _ _ Htou), (g_files _ _ _ Hg).
    - lia. }
  rewrite Nat.iter_succ_r.
  eapply wp_mono; [apply (IH q (plug hole k u) lq' (set_heap s2 w))|].
  - simpl. eapply shape_frame; [|exact Hs]. done.
  - done.
  - done.
  - done.
  - done.
  - rewrite Hp. apply NoDup_app. by split_and!.
  - intros y. rewrite Hp. intros [?|Hy]%elem_of_app; [by apply Hdis|]. intros Hya.
    eapply Hold; [by apply (shape_lookup _ _ _ _ _ _ _ Hs)|done].
  - intros r w' (s' & tl' & lt' & -> & -> & Hst & Hndl & Hdl & Hch'). exists s', tl', lt'.
    split; [done|]. split; [done|]. split; [done|]. split; [done|]. split; [done|]. by eapply chained_trans.
Qed.

(** A subtree that changes without moving. *)
Lemma in_place m p t ls a :
  shape true m None p t ls → NoDup ls → a ∈ ls →
  ∃ π va la rest par, gget t π = Some va ∧ shape true m par a va la ∧ ls ≡ₚ la ++ rest ∧
    ∀ m' va' la', (∀ y, y ∈ rest → m' !! y = m !! y) → shape true m' par a va' la' →
      ∃ ls', shape true m' None p (gput t π va') ls' ∧ ls' ≡ₚ la' ++ rest.
Proof.
  intros Hs Hnd Ha. destruct (decide (a = p)) as [->|Hne].
  - exists [], t, ls, [], None. split; [done|]. split; [done|]. split; [by rewrite app_nil_r|].
    intros m' va' la' _ Hs'. exists la'. by rewrite app_nil_r.
  - destruct (shape_focus true m t None p ls a Hs Hnd Ha Hne) as (π & pp & npp & ps & i & va & la & rest & F).
    exists π, va, la, rest, (Some pp). split; [apply F|]. split; [apply F|]. split; [apply F|].
    intros m' va' la' Hm Hs'. apply (f_plug F m' a va' la'); [by intros; apply Hm| |done].
    rewrite Hm by apply F. rewrite (f_node F). f_equal.
    rewrite list_insert_id by (rewrite list_lookup_fmap, (f_at _ _ _ _ _ _ _ _ _ _ _ _ _ _ _ F); done).
    rewrite <- (f_subs F). by destruct npp.
Qed.

(** Taking [b] off [a]. *)
Lemma wp_detach h par a va la b k na nb ps lss vb lb :
  heap_ok h → NoDup la → edge_ends (nodes h) a b k na nb ps lss va vb lb par → la = a :: concat lss →
  wp (_ ← store (Some b) (set_parent None); write_subnode (Some a) (Z.of_nat k) None) h
    (λ _ s, ∃ la1, shape true (nodes s) par a (unplug va k) la1 ∧ shape true (nodes s) None b vb lb ∧
       la ≡ₚ lb ++ la1 ∧ touched [a; b] h s ∧ heap_ok s).
Proof.
  intros Hok Hnd [E1 E2 E3 E4 E5 E6 E7 E8] ->. apply NoDup_cons in Hnd as [Hal Hnd].
  destruct (NoDup_concat_lookup _ _ _ Hnd E6) as [Hndb _].
  assert (b ∈ lb) as Hbl by (by eapply shape_head).
  assert (∀ y, y ∈ lb → y ∈ concat lss) as Hlb by (intros y; by eapply concat_lookup_elem).
  assert (b ≠ a) as Hba by (intros ->; by apply Hal, Hlb).
  assert (NoDup (lb ++ concat (delete k lss))) as (_ & Hdis & _)%NoDup_app.
  { by rewrite <- (concat_delete_Permutation lss k lb). }
  assert (ps ≠ []) as Hne by (by intros ->).
  apply wp_bind. eapply wp_store; [done|].
  eapply wp_write_subnode; [simpl; by rewrite lookup_insert_ne|by eapply is_subs| |].
  { rewrite length_fmap. apply lookup_lt_Some in E4. lia. }
  rewrite Nat2Z.id. simpl. set (s := set_nodes _ _). exists (a :: concat (<[k := []]> lss)).
  split; [|split; [|split; [|split]]].
  - apply shape_unfold. eexists _, (<[k := None]> ps), (<[k := []]> lss).
    split; [simpl; apply lookup_insert_eq|]. split; [|split; [done|]].
    + unfold unplug. assert (gid va ≠ 0) by (by eapply node_is_nonleaf). destruct E2. split; simpl; try done.
      * by rewrite length_insert.
      * intros _. by rewrite list_fmap_insert.
      * by rewrite length_insert.
    + simpl. eapply shapes_insert; [exact E3|exact E6| |done].
      intros y Hy. simpl. rewrite !lookup_insert_ne; [done|intros <-; by eapply Hdis|intros <-].
      apply Hal. rewrite (concat_delete_Permutation lss k lb) by done. apply elem_of_app. by right.
  - simpl. rewrite insert_insert_ne by done. apply (shape_set_parent true _ (Some a)); [|done|by rewrite lookup_insert_ne|];
      (eapply shape_frame; [|exact E8]; intros y Hy; apply lookup_insert_ne; intros <-; by apply Hal, Hlb).
  - rewrite (concat_insert_Permutation lss k lb []), (concat_delete_Permutation lss k lb) by done. simpl.
    by rewrite Permutation_middle.
  - split; try done. intros y Hy. simpl. rewrite !lookup_insert_ne; [done|..]; intros <-; apply Hy; [right; left|left].
  - apply (heap_ok_update h (nodes s)); [done|]. intros y [m Hm]. simpl in Hm.
    repeat (apply lookup_insert_Some in Hm as [[<- _]|[_ Hm]]; [by eexists|]). by eexists.
Qed.

(** The copy [T'] after the subtree at [a], made of [la], was changed in place to
    one made of [la2]. *)
Lemma changed_made T' p' ls' h0 ha h' la rest la2 ls3 :
  heap_ok h0 → made T' p' ls' h0 ha → ls' ≡ₚ la ++ rest → ls3 ≡ₚ la2 ++ rest →
  (∀ y, y ∈ la2 → y ∈ la ∨ (next_loc ha ≤ y < next_loc h')%positive) → (∀ y, y ∈ la → y ∈ la2) →
  (∀ y, y ∉ la2 → nodes h' !! y = nodes ha !! y) → trees h' = trees ha → files h' = files ha →
  (next_loc ha ≤ next_loc h')%positive → heap_ok h' → made T' p' ls3 h0 h'.
Proof.
  intros Hok [M1 M2 M3 M4 M5 M6 M7] Hp Hp3 Hin Hold Hsame Ht Hf Hnx Hok'. split; try done; try congruence; try lia.
  - intros y. rewrite Hp3. intros [[Hy|?]%Hin|Hy]%elem_of_app; [|lia|].
    + assert (y ∈ ls') as ?%M1 by (rewrite Hp; apply elem_of_app; by left). lia.
    + assert (y ∈ ls') as ?%M1 by (rewrite Hp; apply elem_of_app; by right). lia.
  - intros y. rewrite Hp3. intros [Hya Hyr]%not_elem_of_app. rewrite Hsame, M2; [done| |done].
    rewrite Hp. intros [?|?]%elem_of_app; [|done]. by apply Hya, Hold.
Qed.

Lemma wp_shift_int n (w : world R) (Q : Z → world R → Prop) : 0 ≤ n < 31 → Q (Z.shiftl 1 n) w → wp (shift_int (u8 n)) w Q.
Proof. intros Hn HQ. unfold shift_int. rewrite wrap_small by lia. rewrite decide_True by done. by apply wp_ret. Qed.

(** From the chosen edge on: [N] copies of the part between its ends are chained in. *)
Lemma repeat_ok (w : world R) h0 T' p' t ls' n e Q :
  let ha := w_heap w in
  let N := Z.to_nat (Z.shiftl 1 n) in
  0 ≤ n < 31 →
  heap_ok h0 → made T' p' ls' h0 ha → NoDup ls' → shape true (nodes ha) None p' t ls' → is_recursion_edge (nodes ha) ls' e →
  (∀ h' π k va vb, gget t π = Some va → gsubs va !! k = Some (Some vb) → gid va = gid vb →
     new_tree (gput t π (Nat.iter (S N) (plug va k) vb)) (Some T') h0 h' → Q (Some T') (set_heap h' w)) →
  wp (_ ← on_heap (store (e_subnode e) (set_parent None));
      _ ← on_heap (write_subnode (e_parent e) (subnode_offset e) None);
      num ← shift_int (u8 n);
      tail ← recursion_loop (Z.to_nat num) (e_parent e) (e_subnode e) (subnode_offset e);
      _ ← on_heap (store tail (set_parent (e_parent e)));
      _ ← on_heap (write_subnode (e_parent e) (subnode_offset e) tail);
      mret (Some T')) w Q.
Proof.
  intros ha N Hrange Hok Hm Hnd Hs He HQ.
  pose proof He as (a & ? & ? & ? & ? & ? & -> & Ha & _).
  destruct (in_place _ _ _ _ a Hs Hnd Ha) as (π & va & la & rest & par & Hget & Hsa & Hp & Hplug).
  assert (NoDup (la ++ rest)) as (Hnda & Hdis & Hndr)%NoDup_app by (by rewrite <- Hp).
  destruct (edge_ends_of _ _ _ _ _ _ (Edge _ _ _) Hsa eq_refl He) as (b & k & na & nb & ps & lss & vb & lb & Heq & E & Hla & Hgid & Hid).
  injection Heq as -> ->. cbn [e_parent e_subnode subnode_offset].
  apply wp_on_heap2. eapply wp_mono; [by apply (wp_detach ha par a va la b k na nb ps lss vb lb); [apply Hm|..]|].
  intros [] s (la1 & Hs1 & Hsb & Hp1 & Ht1 & Hok1). cbn beta.
  assert (NoDup (lb ++ la1)) as (Hndb & Hdb & Hnd1)%NoDup_app by (by rewrite <- Hp1).
  assert (gsubs (unplug va k) !! k = Some None) as Hk.
  { simpl. apply list_lookup_insert_eq. eapply lookup_lt_Some, E. }
  apply wp_bind, wp_shift_int; [done|]. fold N.
  apply wp_bind. eapply wp_mono; [by apply (recursion_loop_ok true a (unplug va k) la1 k par N b vb lb (set_heap s w))|].
  intros r w' (s' & tl & lt & -> & -> & Hst & Hndt & Hdt & Hch). simpl in Hch.
  assert (shape true (nodes s') par a (unplug va k) la1) as Hs1'.
  { eapply shape_frame; [|exact Hs1]. intros y Hy. apply (ch_same _ _ _ _ Hch). intros Hyl. by apply (Hdt y). }
  apply wp_on_heap2. eapply wp_mono; [eapply (wp_attach s' par a (unplug va k) la1 k tl _ lt); try done; apply Hch|].
  intros [] h' (la2 & Hs2 & Hp2 & Ht2 & Hok2). apply wp_ret.
  assert (∀ y, y ∉ la2 → nodes h' !! y = nodes ha !! y) as Hsame.
  { intros y. rewrite Hp2. intros [Hyt Hy1]%not_elem_of_app.
    rewrite (to_same _ _ _ Ht2), (ch_same _ _ _ _ Hch), (to_same _ _ _ Ht1); [done|..].
    - rewrite elem_of_cons, list_elem_of_singleton. intros [->| ->]; [by apply Hy1, (shape_head _ _ _ _ _ _ Hs1)|].
      by apply Hyt, (ch_old _ _ _ _ Hch), (shape_head _ _ _ _ _ _ Hsb).
    - done.
    - rewrite elem_of_cons, list_elem_of_singleton. intros [->| ->]; [by apply Hyt, (shape_head _ _ _ _ _ _ Hst)|].
      by apply Hy1, (shape_head _ _ _ _ _ _ Hs1). }
  assert (∀ y, y ∈ la2 → y ∈ la ∨ (next_loc ha ≤ y < next_loc h')%positive) as Hin.
  { intros y. rewrite Hp2, Hp1. rewrite !elem_of_app, (to_next _ _ _ Ht2), <- (to_next _ _ _ Ht1).
    intros [[?|?]%(ch_in _ _ _ _ Hch)|?]; auto. }
  assert (∀ y, y ∈ rest → y ∉ la2) as Hrest.
  { intros y Hy [Hya|Hya]%Hin; [by eapply Hdis|].
    destruct (shape_lookup _ _ _ _ _ _ y Hs) as [nd Hn]; [rewrite Hp; apply elem_of_app; by right|].
    apply (md_ok _ _ _ _ _ Hm) in Hn. lia. }
  destruct (Hplug (nodes h') (plug va k (Nat.iter N (plug va k) vb)) la2) as (ls3 & Hs3 & Hp3).
  { intros y Hy. by apply Hsame, Hrest. }
  { rewrite plug_unplug in Hs2. by rewrite (iter_plug va k) in Hs2. }
  apply (HQ h' π k va vb); [done|apply E|done|]. exists T', p', ls3. split; [done|]. split; [|split; [|done]].
  - eapply (changed_made T' p' ls' h0 ha h' la rest la2 ls3); try done.
    + intros y. rewrite Hp1, Hp2, !elem_of_app. intros [?%(ch_old _ _ _ _ Hch)|?]; auto.
    + by rewrite (to_trees _ _ _ Ht2), (ch_trees _ _ _ _ Hch), (to_trees _ _ _ Ht1).
    + by rewrite (to_files _ _ _ Ht2), (ch_files _ _ _ _ Hch), (to_files _ _ _ Ht1).
    + rewrite (to_next _ _ _ Ht2), <- (to_next _ _ _ Ht1). apply Hch.
  - rewrite Hp3, Hp2. apply NoDup_app. split; [apply NoDup_app; by split_and!|]. split; [|done].
    intros y Hy Hyr. apply (Hrest y Hyr). by rewrite Hp2.
Qed.

(** The tree after one insertion of [N] copies at some recursion edge. *)
Definition repeated (t : gtree) (N : nat) (T' : ptr) (h h' : heap) : Prop :=
  ∃ π k va vb, gget t π = Some va ∧ gsubs va !! k = Some (Some vb) ∧ gid va = gid vb ∧
    new_tree (gput t π (Nat.iter (S N) (plug va k) vb)) T' h h'.

(** The function up to the choice of the edge, and from there. *)
Definition copy_and_pick `{!Random R} (T : loc) : M (world R) (ptr * edge) :=
  mutated_tree ← on_heap (tree_clone (Some T));
  x ← on_heap (load_tree mutated_tree);
  e ← on_rng (node_pick_recursion_edge (root x));
  mret (mutated_tree, e).

Definition repeat_along (n : Z) (c : ptr * edge) : M (world R) ptr :=
  match e_parent c.2, e_subnode c.2 with
  | None, _ | _, None => mret c.1
  | Some _, Some _ =>
      _ ← on_heap (store (e_subnode c.2) (set_parent None));
      _ ← on_heap (write_subnode (e_parent c.2) (subnode_offset c.2) None);
      num ← shift_int (u8 n);
      tail ← recursion_loop (Z.to_nat num) (e_parent c.2) (e_subnode c.2) (subnode_offset c.2);
      _ ← on_heap (store tail (set_parent (e_parent c.2)));
      _ ← on_heap (write_subnode (e_parent c.2) (subnode_offset c.2) tail);
      mret c.1
  end.

Lemma mutation_in_parts `{!Random R} T n (w : world R) :
  random_recursive_mutation (Some T) n w = (copy_and_pick T ≫= repeat_along n) w.
Proof.
  unfold random_recursive_mutation, copy_and_pick, mbind, M_bind. destruct (on_heap (tree_clone (Some T)) w) as [[T' w1]| |]; [|done..].
  destruct (on_heap (load_tree T') w1) as [[x w2]| |]; [|done..]. by destruct (on_rng _ w2) as [[e w3]| |].
Qed.

(** The copy [c.1] of [t] in the world [w'], with the chosen edge [c.2]. *)
Definition picked (t : gtree) (w : world R) (c : ptr * edge) (w' : world R) : Prop :=
  ∃ T' p' ls' ha r, c.1 = Some T' ∧ w' = set_rng r (set_heap ha w) ∧ made T' p' ls' (w_heap w) ha ∧ NoDup ls' ∧
    shape true (nodes ha) None p' t ls' ∧ if decide (count_edges t = 0) then c.2 = null_edge else is_recursion_edge (nodes ha) ls' c.2.

Lemma copy_and_pick_ok `{!Random R} (w : world R) T p t ls :
  stored (w_heap w) T p t ls → counted t → count_nt t < 2 ^ 32 → count_edges t < 2 ^ 32 → wp (copy_and_pick T) w (picked t w).
Proof.
  intros [Hok (x & Hx & Hroot) Hs Hnd] Hc Hnt He. apply wp_bind, wp_on_heap. eapply (wp_tree_clone Hmem _ T x true None p t ls); try done.
  intros T' p' ls' ha Hm Hnd' Hs'. apply wp_bind, wp_on_heap.
  eapply wp_load_tree; [simpl; rewrite (md_tree _ _ _ _ _ Hm); apply lookup_insert_eq|].
  apply wp_bind, wp_on_rng. eapply wp_mono; [by apply (node_pick_recursion_edge_ok ha true None p' t ls')|].
  intros [e r] ? (-> & Hpick). apply wp_ret. by exists T', p', ls', ha, r.
Qed.

Lemma random_recursive_mutation_ok `{!Random R} (w : world R) T p t ls n :
  stored (w_heap w) T p t ls → counted t → count_nt t < 2 ^ 32 → count_edges t < 2 ^ 32 → (count_edges t ≠ 0 → 0 ≤ n < 31) →
  wp (random_recursive_mutation (Some T) n) w (λ T' w', ∃ h' r, w' = set_rng r (set_heap h' w) ∧
    if decide (count_edges t = 0) then new_tree t T' (w_heap w) h'
    else repeated t (Z.to_nat (Z.shiftl 1 n)) T' (w_heap w) h').
Proof.
  intros St Hc Hnt He Hn. unfold wp. rewrite mutation_in_parts. change (wp (copy_and_pick T ≫= repeat_along n) w
    (λ T' w', ∃ h' r, w' = set_rng r (set_heap h' w) ∧ if decide (count_edges t = 0) then new_tree t T' (w_heap w) h'
      else repeated t (Z.to_nat (Z.shiftl 1 n)) T' (w_heap w) h')).
  apply wp_bind. eapply wp_mono; [by eapply copy_and_pick_ok|]. intros [T1 e] ? (T' & p' & ls' & ha & r & Hc1 & -> & Hm & Hnd' & Hs' & Hpick).
  simpl in Hc1, Hpick. subst T1. unfold repeat_along. cbn [fst snd]. case_decide as Hz.
  - rewrite Hpick. apply wp_ret. exists ha, r. split; [done|]. by exists T', p', ls'.
  - pose proof Hpick as (a & b & ? & ? & ? & ? & Heq & _). rewrite Heq. cbn [e_parent e_subnode]. rewrite Heq in Hpick.
    eapply (repeat_ok (set_rng r (set_heap ha w)) (w_heap w) T' p' t ls' n (Edge (Some a) (Some b) _)); try done; [by apply Hn|apply St|].
    intros h' π k va vb Hget Hk Hgid Hnew. exists h', r. split; [done|]. by exists π, k, va, vb.
Qed.

Lemma shift_too_far `{!Random R} (w : world R) T p t ls n :
  stored (w_heap w) T p t ls → counted t → count_nt t < 2 ^ 32 → count_edges t < 2 ^ 32 → count_edges t ≠ 0 → 31 ≤ n < 2 ^ 8 →
  random_recursive_mutation (Some T) n w = Fault BadShift.
Proof.
  intros St Hc Hnt He Hz Hn. rewrite mutation_in_parts. eapply wp_then_fault; [by eapply copy_and_pick_ok|].
  intros [T1 e] ? (T' & p' & ls' & ha & r & Hc1 & -> & Hm & Hnd' & Hs' & Hpick). simpl in Hc1, Hpick. subst T1.
  rewrite decide_False in Hpick by done. pose proof Hpick as (a & b & ? & ? & ? & ? & Heq & Ha & _).
  destruct (in_place _ _ _ _ a Hs' Hnd' Ha) as (π & va & la & rest & par & _ & Hsa & Hp & _).
  assert (NoDup la) as Hnda by (rewrite Hp in Hnd'; by apply NoDup_app in Hnd' as [? _]).
  rewrite Heq in Hpick.
  destruct (edge_ends_of _ _ _ _ _ _ (Edge _ _ _) Hsa eq_refl Hpick) as (b' & k & na & nb & ps & lss & vb & lb & Heq' & E & Hla & _).
  injection Heq' as -> Hoff. unfold repeat_along. cbn [fst snd]. rewrite Heq. cbn [e_parent e_subnode subnode_offset]. rewrite Hoff.
  pose proof (wp_detach ha par a va la b' k na nb ps lss vb lb (md_ok _ _ _ _ _ Hm) Hnda E Hla) as Hdet.
  unfold wp, mbind, M_bind in Hdet |- *. unfold on_heap at 1. cbn [w_heap set_heap set_rng].
  destruct (store (Some b') (set_parent None) ha) as [[[] h1]| |]; [|done..]. unfold on_heap at 1. cbn [w_heap set_heap].
  destruct (write_subnode (Some a) (Z.of_nat k) None h1) as [[[] h2]| |]; [|done..].
  unfold shift_int. rewrite wrap_small by lia. by rewrite decide_False by lia.
Qed.

(** C25. [random_recursive_mutation] of a tree with exact sizes, for every value of the [uint8_t n]: if the
    tree has no recursion edge, the result is an equal copy. Otherwise, for [n] up to 30, it is a new tree in
    which, for one of the recursion edges, the part between the two ends occurs
    [2^n] times more, and for a larger [n] the shift of an [int] has no defined value. The
    input tree and everything else in the heap is unchanged. *)
Theorem random_recursive_mutation_correct `{!Random R} (w : world R) T p t ls n :
  stored (w_heap w) T p t ls → counted t → count_nt t < 2 ^ 32 → count_edges t < 2 ^ 32 → 0 ≤ n < 2 ^ 8 →
  if decide (count_edges t = 0) then
    ∃ T' h' r, random_recursive_mutation (Some T) n w = Ret (T', set_rng r (set_heap h' w)) ∧ new_tree t T' (w_heap w) h'
  else if decide (n < 31) then
    ∃ T' h' r, random_recursive_mutation (Some T) n w = Ret (T', set_rng r (set_heap h' w)) ∧
      ∃ π k va vb, gget t π = Some va ∧ gsubs va !! k = Some (Some vb) ∧ gid va = gid vb ∧
        new_tree (gput t π (Nat.iter (S (Z.to_nat (Z.shiftl 1 n))) (plug va k) vb)) T' (w_heap w) h'
  else random_recursive_mutation (Some T) n w = Fault BadShift.
Proof.
  intros St Hc Hnt He Hn. pose proof (random_recursive_mutation_ok w T p t ls n St Hc Hnt He) as Hw. rewrite wp_Ret in Hw.
  case_decide as Hz; [|case_decide as Hn31].
  - destruct (Hw ltac:(done)) as (T' & ? & Hrun & h' & r & -> & ?). by exists T', h', r.
  - destruct (Hw ltac:(lia)) as (T' & ? & Hrun & h' & r & -> & ?). by exists T', h', r.
  - eapply shift_too_far; try done. lia.
Qed.
End Recursion.

(** ** Witnesses *)

Lemma sample_edge : is_recursion_edge (nodes sample_heap) sample_locs (Edge (Some 1%positive) (Some 4%positive) 2).
Proof.
  exists 1%positive, 4%positive, (inner 1 0 None [2; 3; 4]%positive 1 3), (inner 1 1 (Some 1%positive) [6]%positive 0 1),
    (Some <$> [2; 3; 4]%positive), 2%nat.
  split_and!; try reflexivity; [left|right; right; right; right; left|discriminate].
Qed.

Lemma recursive_trimming_correct_witness :
  ∃ T' h' π k b va vb, recursive_trimming (H := obliging) (Some 9%positive) (Edge (Some 1%positive) (Some 4%positive) 2) toy_world =
      Ret (T', set_heap h' toy_world) ∧ Edge (Some 1%positive) (Some 4%positive) 2 = Edge (Some 1%positive) (Some b) (Z.of_nat k) ∧
    loc_at (nodes sample_heap) 1 π = Some 1%positive ∧ loc_at (nodes sample_heap) 1 (π ++ [k]) = Some b ∧ gget sample_tree π = Some va ∧ gsubs va !! k = Some (Some vb) ∧
    gid va = gid vb ∧ new_tree (gput sample_tree π vb) T' sample_heap h'.
Proof.
  apply (recursive_trimming_correct (H := obliging) (λ _, eq_refl) toy_world 9 1 sample_tree sample_locs).
  - apply sample_stored.
  - apply sample_edge.
  - reflexivity.
Defined.

Lemma random_recursive_mutation_correct_witness :
  if decide (count_edges sample_tree = 0) then
    ∃ T' h' r, random_recursive_mutation (H := obliging) (Random0 := least) (Some 9%positive) 3 toy_world =
      Ret (T', set_rng r (set_heap h' toy_world)) ∧ new_tree sample_tree T' sample_heap h'
  else if decide (3 < 31) then
    ∃ T' h' r, random_recursive_mutation (H := obliging) (Random0 := least) (Some 9%positive) 3 toy_world =
      Ret (T', set_rng r (set_heap h' toy_world)) ∧
      ∃ π k va vb, gget sample_tree π = Some va ∧ gsubs va !! k = Some (Some vb) ∧ gid va = gid vb ∧
        new_tree (gput sample_tree π (Nat.iter (S (Z.to_nat (Z.shiftl 1 3))) (plug va k) vb)) T' sample_heap h'
  else random_recursive_mutation (H := obliging) (Random0 := least) (Some 9%positive) 3 toy_world = Fault BadShift.
Proof.
  apply (random_recursive_mutation_correct (H := obliging) (λ _, eq_refl) (Random0 := least)
    toy_world 9 1 sample_tree sample_locs 3).
  - apply sample_stored.
  - apply sample_counted.
  - vm_compute. reflexivity.
  - vm_compute. reflexivity.
  - lia.
Defined.
