(* ===== verification/SplicingSpec.v ===== *)
(** * SplicingSpec: mutation with the subtrees of the chunk store

    The store shares equal subtrees between the trees it keeps, so a stored node
    is the root of an acyclic graph rather than of a tree; cloning it is what
    makes a tree again. *)

From S2P Require Import Prelude Buffer Utils Tree TreeSpec TreeNodes TreeSizes TreePaths TreePicks StrMap World TreeGrafts GrammarTypes ToyGrammar ChunkStore TreeMutation MutationSpec RecursionSpec.

(** ** Depth of shared structures *)

Lemma gheight_child i r v a b subs :
  gheight (GNode i r v a b subs) = 1%nat ∨
  ∃ s, Some s ∈ subs ∧ gheight (GNode i r v a b subs) = S (gheight s).
Proof.
  cbn [gheight]. induction subs as [|o subs IH]; [by left|]. destruct o as [s|].
  - destruct IH as [IH|(s' & Hin & IH)]; injection IH as IH; rewrite IH.
    + right. exists s. split; [left|]. destruct s. cbn [gheight]. lia.
    + destruct (decide (gheight s ≤ gheight s')%nat).
      * right. exists s'. split; [by right|]. lia.
      * right. exists s. split; [left|]. lia.
  - destruct IH as [IH|(s' & Hin & IH)]; [by left|]. right. exists s'. split; [by right|done].
Qed.

(** A chain of distinct nodes as long as the structure is deep. *)
Lemma shape_chain chk m t : ∀ par p ls, shape chk m par p t ls →
  ∃ l, NoDup l ∧ length l = gheight t ∧
    ∀ q, q ∈ l → ∃ par u lq, shape chk m par q u lq ∧ (gheight u ≤ gheight t)%nat.
Proof.
  induction t as [i r v a b subs IH] using gtree_ind'. intros par p ls Hs. set (t := GNode i r v a b subs) in *.
  destruct (gheight_child i r v a b subs) as [Hh|(s & Hin & Hh)]; fold t in Hh.
  - exists [p]. split; [apply NoDup_singleton|]. split; [done|]. intros q ->%list_elem_of_singleton.
    exists par, t, ls. split; [done|lia].
  - pose proof Hs as (n & ps & lss & Hp & His & -> & Hsub)%shape_unfold.
    apply list_elem_of_lookup in Hin as Hj. destruct Hj as [j Hj].
    destruct (shapes_pick _ _ _ _ _ _ j Hsub) as (o & ot & l & Ho & Hot & Hl & Hsh); [by eapply lookup_lt_Some|].
    simpl in Hot. simplify_eq. destruct o as [c|]; simpl in Hsh; [|done].
    eapply Forall_forall in IH; [|exact Hin]. destruct (IH _ _ _ Hsh) as (lc & Hnd & Hlen & Hlc).
    exists (p :: lc). split; [|split; [rewrite Hh; cbn [length]; by rewrite Hlen|]].
    + apply NoDup_cons. split; [|done]. intros Hpl. destruct (Hlc p Hpl) as (par' & u & lq & Hu & Hle).
      destruct (shape_fun _ _ _ _ _ _ _ _ _ _ Hs Hu) as [<- _]. lia.
    + intros q [->|Hq]%elem_of_cons; [by exists par, t, (p :: concat lss)|].
      destruct (Hlc q Hq) as (par' & u & lq & Hu & Hle). exists par', u, lq. split; [done|lia].
Qed.

Lemma shape_depth chk h par p t ls : shape chk (nodes h) par p t ls → (gheight t ≤ size (nodes h))%nat.
Proof.
  intros Hs. destruct (shape_chain chk (nodes h) t par p ls Hs) as (l & Hnd & <- & Hl).
  assert (list_to_set l ⊆ dom (nodes h)) as Hsub.
  { intros q Hq%elem_of_list_to_set. destruct (Hl q Hq) as (par' & u & lq & Hu & _). apply elem_of_dom.
    eapply shape_lookup; [done|by eapply shape_head]. }
  apply subseteq_size in Hsub. by rewrite size_dom, size_list_to_set in Hsub.
Qed.

Section Splicing.
Context `{Host} (Hmem : never_refuses) {R : Type} `{!Random R, !Grammar R, !Digest}.

(** Cloning a stored node: the copy shares nothing. *)
Lemma node_clone_shared_ok h chk par p t ls :
  heap_ok h → shape chk (nodes h) par p t ls → wp (node_clone (Some p)) h (cloned h t).
Proof.
  intros Hok Hs. unfold node_clone, with_fuel. eapply (node_clone_rec_ok Hmem t _ h chk par p ls); [done|done|].
  pose proof (shape_depth _ _ _ _ _ _ Hs). lia.
Qed.

(** The list of a node type holds structures of that type. *)
Definition store_sound (cs : map_base (option (list loc))) (m : gmap loc node) (holds : Z → gtree → Prop) : Prop :=
  ∀ i l, map_get_ cs (node_type_str i) = Some l →
  ∃ qs, l = Some qs ∧ qs ≠ [] ∧ zlen qs < 2 ^ 32 ∧
    ∀ q, q ∈ qs → ∃ par u lq, shape false m par q u lq ∧ gid u = i ∧ holds i u.

Lemma store_sound_mono cs m m' holds : m ⊆ m' → store_sound cs m holds → store_sound cs m' holds.
Proof.
  intros Hm Hst i l Hl. destruct (Hst i l Hl) as (qs & -> & Hne & Hlen & Hqs). exists qs. do 3 (split; [done|]).
  intros q Hq. destruct (Hqs q Hq) as (par & u & lq & Hu & Hgid). exists par, u, lq. split; [|done].
  eapply shape_frame; [|exact Hu]. intros y Hy. destruct (shape_lookup _ _ _ _ _ _ y Hu Hy) as [n Hn].
  rewrite Hn. by eapply lookup_weaken.
Qed.

Lemma get_alternative_ok (w : world R) holds q n (Q : ptr → world R → Prop) :
  store_sound (chunk_store w) (nodes (w_heap w)) holds → heap_ok (w_heap w) → nodes (w_heap w) !! q = Some n →
  (map_get_ (chunk_store w) (node_type_str (id n)) = None → Q None w) →
  (∀ r h' g u qs q', map_get_ (chunk_store w) (node_type_str (id n)) = Some (Some qs) → q' ∈ qs →
     (∃ par lq, shape false (nodes (w_heap w)) par q' u lq) → cloned (w_heap w) u (Some g) h' → gid u = id n → holds (id n) u →
     Q (Some g) (set_rng r (set_heap h' w))) →
  wp (chunk_store_get_alternative_node (Some q)) w Q.
Proof.
  intros Hst Hok Hn Hnone Hsome. unfold chunk_store_get_alternative_node.
  apply wp_bind, wp_on_heap. eapply wp_load; [done|]. replace (set_heap (w_heap w) w) with w by (by destruct w).
  apply wp_bind, wp_get. destruct (map_get_ (chunk_store w) (node_type_str (id n))) as [l|] eqn:Hl.
  2: { apply wp_ret. by apply Hnone. }
  destruct (Hst _ _ Hl) as (qs & -> & Hne & Hlen & Hqs). apply wp_bind, wp_draw_below. intros x r Hx Hlt Hone.
  assert (0 < zlen qs) by (destruct qs; [done|simpl; lia]). rewrite wrap_small in Hlt, Hone by lia.
  destruct (lookup_lt_is_Some_2 qs (Z.to_nat x)) as [q' Hq']; [lia|]. rewrite Hq'.
  destruct (Hqs q') as (par & u & lq & Hu & Hgid & Hh); [by eapply list_elem_of_lookup_2|].
  apply wp_on_heap. simpl. eapply wp_mono; [by eapply node_clone_shared_ok|]. intros o h' Hcl.
  pose proof Hcl as (g & lg & -> & _). apply (Hsome r h' g u qs q'); try done; [by eapply list_elem_of_lookup_2|by exists par, lq].
Qed.

(** The tree after splicing: what the store [cs] has for the type of the subtree [v] at some path decides. *)
Definition spliced (holds : Z → gtree → Prop) (cs : map_base (option (list loc))) (t : gtree) (T' : ptr) (h h' : heap) : Prop :=
  ∃ π v, gget t π = Some v ∧ gid v ≠ 0 ∧
    match map_get_ cs (node_type_str (gid v)) with
    | None => new_tree t T' h h'
    | Some l => ∃ qs q u par lq, l = Some qs ∧ q ∈ qs ∧ shape false (nodes h) par q u lq ∧ gid u = gid v ∧ holds (gid v) u ∧
                  new_tree (gput t π u) T' h h'
    end.

Lemma splicing_mutation_ok holds (w : world R) T p t ls :
  stored (w_heap w) T p t ls → counted t → gid t ≠ 0 → count_nt t < 2 ^ 32 → count_edges t < 2 ^ 32 →
  store_sound (chunk_store w) (nodes (w_heap w)) holds →
  wp (splicing_mutation (Some T)) w (λ T' w', ∃ h' r, w' = set_rng r (set_heap h' w) ∧ spliced holds (chunk_store w) t T' (w_heap w) h').
Proof.
  intros [Hok (x & Hx & Hroot) Hs Hnd] Hc Hid Hnt He Hst.
  unfold splicing_mutation. apply wp_bind, wp_on_heap. eapply (wp_tree_clone Hmem _ T x true None p t ls); try done.
  intros T' p' ls' ha Hm Hnd' Hs'. apply wp_bind, wp_on_heap.
  eapply wp_load_tree; [simpl; rewrite (md_tree _ _ _ _ _ Hm); apply lookup_insert_eq|].
  apply wp_bind, wp_on_rng. eapply wp_mono; [by apply (node_pick_non_term_subnode_ok ha true None p' t ls')|].
  intros [? r1] ? (-> & q & -> & Hq & n & Hn & Hidn). cbn [fst snd].
  apply wp_bind, wp_on_heap. eapply wp_load; [done|]. apply wp_bind.
  set (w1 := set_heap _ _).
  assert (nodes (w_heap w) ⊆ nodes (w_heap w1)) as Hsub.
  { apply map_subseteq_spec. intros y n' Hy. simpl. rewrite (md_same _ _ _ _ _ Hm); [done|]. eapply made_old; [done|done|]. by eexists. }
  assert (store_sound (chunk_store w1) (nodes (w_heap w1)) holds) as Hst1 by (by eapply store_sound_mono).
  apply (get_alternative_ok w1 holds q n); [done|apply Hm|done| |].
  - intros Hnone. apply wp_ret. exists ha, r1. split; [done|].
    destruct (in_place _ _ _ _ q Hs' Hnd' Hq) as (π & v & la & rest & par & Hget & Hv & _).
    pose proof Hv as (n' & ? & ? & Hn' & His & _ & _)%shape_unfold. assert (n' = n) as -> by congruence.
    exists π, v. rewrite <- (is_id _ _ _ _ _ His). split; [done|]. split; [done|]. simpl in Hnone. rewrite Hnone. by exists T', p', ls'.
  - intros r2 h1 g u qs q' Hqs Hq' (par & lq & Hu) (g' & lg & Hg' & Hg & Hndg & Hsg) Hgid Hh. injection Hg' as <-.
    eapply (wp_replace_picked _ (w_heap w) ha); try done. intros h' π v Hgv Hvu Hnew.
    exists h', r2. split; [done|]. exists π, v. split; [done|]. split; [congruence|]. rewrite Hvu, Hgid. simpl in Hqs. rewrite Hqs.
    destruct (Hst _ _ Hqs) as (qs' & Heq & _ & _ & Hall). injection Heq as <-. destruct (Hall q' Hq') as (par0 & u0 & lq0 & Hu0 & _).
    assert (shape false (nodes (w_heap w1)) par0 q' u0 lq0) as Hu1.
    { eapply shape_frame; [|exact Hu0]. intros y Hy. destruct (shape_lookup _ _ _ _ _ _ y Hu0 Hy) as [ny Hny]. rewrite Hny. by eapply lookup_weaken. }
    destruct (shape_fun _ _ _ _ _ _ _ _ _ _ Hu Hu1) as [-> ->]. exists qs, q', u0, par0, lq0. split_and!; try done; congruence.
Qed.

(** C28. [splicing_mutation] with a sound store returns a new tree, which depends on the type of a
    non-terminal of the tree, the one picked: if the store has no list for this type, the new tree is an equal copy; if
    it has one, the subtree at that place is exchanged for a copy of a structure that the list
    holds and that has the same type. The new tree shares no node with the store or with the input,
    which are unchanged. *)
Theorem splicing_mutation_correct holds (w : world R) T p t ls :
  stored (w_heap w) T p t ls → counted t → gid t ≠ 0 → count_nt t < 2 ^ 32 → count_edges t < 2 ^ 32 →
  store_sound (chunk_store w) (nodes (w_heap w)) holds →
  ∃ T' h' r, splicing_mutation (Some T) w = Ret (T', set_rng r (set_heap h' w)) ∧
    ∃ π v, gget t π = Some v ∧ gid v ≠ 0 ∧
      match map_get_ (chunk_store w) (node_type_str (gid v)) with
      | None => new_tree t T' (w_heap w) h'
      | Some l => ∃ qs q u par lq, l = Some qs ∧ q ∈ qs ∧ shape false (nodes (w_heap w)) par q u lq ∧ gid u = gid v ∧ holds (gid v) u ∧
                    new_tree (gput t π u) T' (w_heap w) h'
      end.
Proof.
  intros. pose proof (splicing_mutation_ok holds w T p t ls) as Hw. discharge Hw.
  apply wp_Ret in Hw as (T' & w' & Hrun & h' & r & -> & ?). by exists T', h', r.
Qed.
End Splicing.

(** ** Witness *)

(** The store has seen the tree of the sample heap that is rooted at 7. *)
Definition spliced_world : world unit :=
  World sample_heap tt 50 (map_set_ true true map_init "NODE_EXPR" (Some [7%positive])).1 map_init.

Lemma spliced_sound :
  store_sound (Grammar0 := toy_grammar (H := obliging)) (chunk_store spliced_world) (nodes sample_heap) (λ i u, typed toy_productions (NT i) u).
Proof.
  intros i l. unfold node_type_str, toy_grammar. destruct (decide (i = 1)) as [->|].
  2: { repeat case_decide; intros Hl; vm_compute in Hl; discriminate. }
  intros Hl.
  vm_compute in Hl. injection Hl as <-. exists [7%positive]. do 3 (split; [done|]).
  intros q ->%list_elem_of_singleton. exists None, sample_operand, [7; 8]%positive.
  split; [|split; [done|]].
  - eapply shape_unchecked, sample_operand_shape.
  - eapply (typed_NT _ 1 1 _ _ _ [_]); [done|done|reflexivity|]. constructor; constructor.
Qed.

Lemma splicing_mutation_correct_witness :
  ∃ T' h' r, splicing_mutation (H := obliging) (Random0 := least) (Grammar0 := toy_grammar (H := obliging))
      (Some 9%positive) spliced_world = Ret (T', set_rng r (set_heap h' spliced_world)) ∧
    ∃ π v, gget sample_tree π = Some v ∧ gid v ≠ 0 ∧
      match map_get_ (chunk_store spliced_world) (node_type_str (Grammar := toy_grammar (H := obliging)) (gid v)) with
      | None => new_tree sample_tree T' sample_heap h'
      | Some l => ∃ qs q u par lq, l = Some qs ∧ q ∈ qs ∧ shape false (nodes sample_heap) par q u lq ∧ gid u = gid v ∧
                    typed toy_productions (NT (gid v)) u ∧ new_tree (gput sample_tree π u) T' sample_heap h'
      end.
Proof.
  apply (splicing_mutation_correct (H := obliging) (λ _, eq_refl) (Random0 := least)
    (Grammar0 := toy_grammar (H := obliging)) (λ i u, typed toy_productions (NT i) u) spliced_world 9 1 sample_tree sample_locs).
  - apply sample_stored.
  - apply sample_counted.
  - discriminate.
  - vm_compute. reflexivity.
  - vm_compute. reflexivity.
  - apply spliced_sound.
Defined.
