(* ===== verification/ChunkHash.v ===== *)
(** * ChunkHash: what the chunk store hashes

    [hash_node] feeds the fields of a subtree to the hash in pre-order, without
    the number of subnodes.  For trees of one grammar the bytes still determine
    the tree, because a rule fixes the number of subnodes. *)

From S2P Require Import Prelude Buffer Utils Tree TreeSpec TreeNodes TreeSizes TreeText TreePaths TreePicks GrammarTypes TreeSerial StrMap World ChunkStore.

(** The bytes that are hashed for [t]. *)
Fixpoint hash_stream (t : gtree) : list Z :=
  let 'GNode i r v _ _ subs := t in
  le_bytes 4 i ++ le_bytes 4 r ++ le_bytes 4 (zlen v) ++ v ++
  flat_map (λ o, match o with Some s => hash_stream s | None => [] end) subs.

Lemma hash_stream_eq t : hash_stream t =
  le_bytes 4 (gid t) ++ le_bytes 4 (grule t) ++ le_bytes 4 (zlen (gval t)) ++ gval t ++ flat_map (opt_list hash_stream) (gsubs t).
Proof. by destruct t. Qed.

Section Hash.
Context `{Host} {R : Type} `{!Random R, !Grammar R, !Digest}.

(** The name under which [t] is kept in [seen_chunks]. *)
Definition node_hash (t : gtree) : string := uint64_to_hex (xxh3 (hash_stream t)).

Lemma hash_bytes_ok chk par t ps n h :
  node_is chk par t ps n → wp (hash_bytes (val_buf n) (val_len n)) h (λ v h', h' = h ∧ v = gval t).
Proof.
  intros His. unfold hash_bytes. rewrite (is_val_len _ _ _ _ _ His). case_decide as Hz.
  { apply wp_ret. split; [done|]. by destruct (gval t). }
  destruct (is_val _ _ _ _ _ His) as (bs & -> & Hp); [by intros E; rewrite E in Hz|].
  apply read_bytes_prefix in Hp. rewrite Hp. by apply wp_ret.
Qed.

Lemma hash_loop_ok h p n ps subs lss chk update :
  nodes h !! p = Some n → (ps ≠ [] → subnodes n = Some (Some <$> ps)) → shapes chk (nodes h) (Some p) ps subs lss → None ∉ subs →
  (∀ s c l hash, Some s ∈ subs → shape chk (nodes h) (Some p) c s l →
     wp (update (Some c) hash) h (λ b h', h' = h ∧ b = hash ++ hash_stream s)) →
  ∀ k j hash, (j + k = length ps)%nat →
  wp (hash_loop update k (Z.of_nat j) (Some p) hash) h (λ b h', h' = h ∧ b = hash ++ flat_map (opt_list hash_stream) (drop j subs)).
Proof.
  intros Hp Harr Hsub Hnone Hup. destruct (shapes_length _ _ _ _ _ _ Hsub) as [Hlen _].
  induction k as [|k IH]; intros j hash Hj.
  { apply wp_ret. rewrite drop_ge by lia. split; [done|]. by rewrite app_nil_r. }
  destruct (shapes_pick _ _ _ _ _ _ j Hsub) as (o & ot & l & Ho & Hot & Hl & Hsh); [lia|].
  simpl. apply wp_bind. eapply wp_read_subnode; [done|apply Harr; by intros ->|by rewrite Nat2Z.id|].
  apply list_elem_of_lookup_2 in Hot as Hin. destruct ot as [s|]; [|done]. destruct o as [c|]; [|done]. simpl in Hsh.
  apply wp_bind. eapply wp_mono; [by eapply Hup|]. intros ? ? [-> ->]. replace (Z.of_nat j + 1) with (Z.of_nat (S j)) by lia.
  eapply wp_mono; [apply IH; lia|]. intros ? ? [-> ->]. split; [done|]. rewrite (drop_S _ _ _ Hot). simpl. by rewrite app_assoc.
Qed.

Lemma node_update_hash_ok t : ∀ fuel h chk par p ls hash,
  shape chk (nodes h) par p t ls → storable t → (gheight t ≤ fuel)%nat →
  wp (node_update_hash fuel (Some p) hash) h (λ b h', h' = h ∧ b = hash ++ hash_stream t).
Proof.
  induction t as [i r v a b subs IH] using gtree_ind'. intros fuel h chk par p ls hash Hs Hst Hf.
  destruct (storable_inv _ Hst) as [(_ & _ & _ & _ & _ & Hnone) Hstc].
  apply shape_unfold in Hs as (n & ps & lss & Hp & His & -> & Hsub). simpl in Hsub, Hnone, Hstc.
  destruct fuel as [|fuel]; [cbn in Hf; lia|]. simpl node_update_hash.
  apply wp_bind. eapply wp_load; [done|]. apply wp_bind. eapply wp_mono; [by eapply hash_bytes_ok|]. intros ? ? [-> ->].
  rewrite (is_count _ _ _ _ _ His), Nat2Z.id, (is_id _ _ _ _ _ His), (is_rule _ _ _ _ _ His), (is_val_len _ _ _ _ _ His).
  eapply wp_mono.
  - change 0 with (Z.of_nat 0). eapply hash_loop_ok; [done|by eapply is_subs|done|done| |done].
    intros s c l hash' Hin Hc. eapply Forall_forall in IH; [|done]. eapply IH; [done|by apply Hstc|].
    pose proof (gheight_sub i r v a b _ _ Hin). lia.
  - intros ? ? [-> ->]. split; [done|]. rewrite drop_0, hash_stream_eq. simpl. by rewrite <- !app_assoc.
Qed.

Lemma hash_node_ok h chk par p t ls :
  shape chk (nodes h) par p t ls → NoDup ls → storable t → wp (hash_node (Some p)) h (λ k h', h' = h ∧ k = node_hash t).
Proof.
  intros Hs Hnd Hst. unfold hash_node, with_fuel. apply wp_bind. eapply wp_mono.
  - eapply node_update_hash_ok; [done|done|]. etrans; [by eapply shape_fuel|]. lia.
  - intros ? ? [-> ->]. by apply wp_ret.
Qed.
End Hash.

(** ** The bytes determine the tree *)

Lemma le_bytes_app_inj n x y l l' : 0 ≤ x < 256 ^ Z.of_nat n → 0 ≤ y < 256 ^ Z.of_nat n →
  le_bytes n x ++ l = le_bytes n y ++ l' → x = y ∧ l = l'.
Proof.
  intros Hx Hy E. apply app_inj_1 in E as [E ->]; [|by rewrite !length_le_bytes]. split; [|done].
  apply (f_equal le_value) in E. by rewrite !le_value_bytes in E.
Qed.

(** The fields in front of the subnodes. *)
Lemma hash_head_inj t u x y : storable t → storable u → hash_stream t ++ x = hash_stream u ++ y →
  gid t = gid u ∧ grule t = grule u ∧ gval t = gval u ∧
  flat_map (opt_list hash_stream) (gsubs t) ++ x = flat_map (opt_list hash_stream) (gsubs u) ++ y.
Proof.
  intros [(Hi & Hr & _ & Hv & _) _]%storable_inv [(Hi' & Hr' & _ & Hv' & _) _]%storable_inv.
  rewrite (hash_stream_eq t), (hash_stream_eq u), <- !app_assoc. intros E.
  apply le_bytes_app_inj in E as [-> E]; [|simpl; lia..]. apply le_bytes_app_inj in E as [-> E]; [|simpl; lia..].
  apply le_bytes_app_inj in E as [Hz E]; [|simpl; lia..]. apply app_inj_1 in E as [-> E]; [done|lia].
Qed.

Section Injective.
Context (productions : Z → list (list symbol)).

Lemma hash_stream_prefix t : ∀ s s' u x y, typed productions s t → typed productions s' u → storable t → storable u →
  hash_stream t ++ x = hash_stream u ++ y → strip t = strip u ∧ x = y.
Proof.
  induction t as [i r v a b subs IH] using gtree_ind'. intros s s' u x y Ht Hu Hst Hsu E.
  destruct (hash_head_inj _ _ _ _ Hst Hsu E) as (Hi & Hr & Hv & Es).
  destruct (storable_inv _ Hst) as [_ Ht']. destruct (storable_inv _ Hsu) as [_ Hu'].
  inversion Ht as [|? ? ? ? syms ts Hi0 Hr0 Hp Hts]; inversion Hu as [|? ? ? ? syms' us Hi1 Hr1 Hp' Hus]; subst;
    simpl in Hi, Hr, Hv, Es, Ht', Hu'; subst; try done.
  assert (syms' = syms) as -> by congruence. simpl. clear Ht Hu Hst Hsu Hp Hp' E.
  enough (map (option_map strip) (Some <$> ts) = map (option_map strip) (Some <$> us) ∧ x = y) as [-> ->] by done.
  revert us Hus IH Ht' Hu' Es. induction Hts as [|s t syms ts Hs _ IHts]; intros us Hus IH Ht' Hu' Es.
  { inversion Hus; subst. done. }
  inversion Hus as [|? u ? us' Hu Hus']; subst. apply Forall_cons in IH as [IHt IH]. simpl in Es. rewrite <- !app_assoc in Es.
  simpl in IHt. destruct (IHt s s u _ _ Hs Hu (Ht' t ltac:(left)) (Hu' u ltac:(left)) Es) as [Hhd Es'].
  destruct (IHts us' Hus' IH) as [Htl ->]; [by intros ??; apply Ht'; right|by intros ??; apply Hu'; right|done|].
  simpl. split; [|done]. f_equal; [by rewrite Hhd|exact Htl].
Qed.

Lemma recount_strip_eq t : recount (strip t) = recount t.
Proof.
  assert (∀ t, count_nt (strip t) = count_nt t ∧ count_edges (strip t) = count_edges t ∧ gid (strip t) = gid t) as Hc.
  { clear t. intros t. induction t as [i r v a b subs IH] using gtree_ind'. simpl. case_decide; [done|].
    split_and!; [f_equal| |done]; (induction IH as [|o subs Ho _ IHs]; [done|]; simpl; rewrite IHs; f_equal;
      destruct o as [s|]; [|done]; simpl in *; destruct Ho as (E1 & E2 & E3); by rewrite ?E1, ?E2, ?E3). }
  induction t as [i r v a b subs IH] using gtree_ind'. rewrite (recount_eq (strip _)), (recount_eq (GNode _ _ _ _ _ _)).
  destruct (Hc (GNode i r v a b subs)) as (-> & -> & ->). cbn [strip grule gval gsubs]. f_equal. rewrite map_map.
  induction IH as [|o subs Ho _ IHs]; [done|]. simpl. f_equal; [|done]. destruct o as [s|]; [|done]. simpl in *. by rewrite Ho.
Qed.

Lemma strip_counted t u : counted t → counted u → strip t = strip u → t = u.
Proof.
  intros Ht Hu E. etrans; [symmetry; exact Ht|]. etrans; [|exact Hu].
  rewrite <- (recount_strip_eq t), <- (recount_strip_eq u). by rewrite E.
Qed.

Lemma hash_stream_inj t u s s' : typed productions s t → typed productions s' u → storable t → storable u →
  hash_stream t = hash_stream u → strip t = strip u.
Proof.
  intros Ht Hu Hst Hsu E. eapply (hash_stream_prefix t s s' u [] []); [done..|]. by rewrite E.
Qed.
End Injective.
