(* ===== verification/ChunkSpec.v ===== *)
(** * ChunkSpec: the chunk store shares every subtree it has seen

    A store is described by a finite map from stored nodes to the trees they
    stand for.  Adding a tree hands over a copy of it: of two equal subtrees one
    is kept, and the nodes of the other are freed. *)

From S2P Require Import Prelude Buffer Utils Tree TreeSpec TreeNodes TreeSizes TreeText TreePaths TreePicks TreeSerial StrMap World TreeGrafts TreeLife GrammarTypes ToyGrammar ChunkStore TreeMutation MutationSpec SplicingSpec ChunkHash.

(** ** Parent pointers do not matter to shared structures *)

Lemma node_is_reparent chk par par' t ps n n' :
  node_is chk par t ps n → set_parent None n' = set_parent None n → node_is false par' t ps n'.
Proof.
  intros [I1 I2 I3 I4 I5 I6 I7 I8 I9 I10 I11] E. destruct n, n'. unfold set_parent in E. simpl in *. injection E as -> -> -> -> -> -> -> -> ->.
  by split.
Qed.

Lemma shape_reparent chk m m' t : ∀ par par' p ls,
  (∀ x, x ∈ ls → set_parent None <$> m' !! x = set_parent None <$> m !! x) → shape chk m par p t ls → shape false m' par' p t ls.
Proof.
  induction t as [i r v a b subs IH] using gtree_ind'. intros par par' p ls Hm Hs.
  apply shape_unfold in Hs as (n & ps & lss & Hp & His & -> & Hsub). apply shape_unfold. simpl in *.
  pose proof (Hm p ltac:(left)) as Hmp. rewrite Hp in Hmp. destruct (m' !! p) as [n'|] eqn:Hp'; [|done]. simpl in Hmp.
  assert (set_parent None n' = set_parent None n) as Hn by congruence.
  exists n', ps, lss. split; [done|]. split; [by eapply node_is_reparent|]. split; [done|].
  assert (∀ x, x ∈ concat lss → set_parent None <$> m' !! x = set_parent None <$> m !! x) as Hm' by (intros x Hx; apply Hm; by right).
  clear Hm His Hp. induction Hsub as [|o ot l ps subs lss Ho Hs IHs]; [constructor|]. apply Forall_cons in IH as [IHo IH].
  constructor.
  - destruct o as [c|], ot as [s|]; simpl in Ho |- *; try done. eapply IHo; [|exact Ho]. intros x Hx. apply Hm'. simpl. apply elem_of_app. by left.
  - apply IHs; [done|]. intros x Hx. apply Hm'. simpl. apply elem_of_app. by right.
Qed.

(** ** The store *)

(** The trees a store may hold: whole, with room for their fields, of types
    that have names, and without two that share a hash. *)
Class StoreLaw `{!Grammar R, !Digest} (known : gtree → Prop) := {
  known_sub u s : known u → Some s ∈ gsubs u → known s;
  known_storable u : known u → storable u;
  known_hash u v : known u → known v → node_hash u = node_hash v → u = v;
  known_type u i : known u → node_type_str i = node_type_str (gid u) → i = gid u }.

(** [h'] has made more requests to the host. *)
Record bumped (h h' : heap) : Prop := {
  bu_nodes : nodes h' = nodes h;
  bu_trees : trees h' = trees h;
  bu_files : files h' = files h;
  bu_next : (next_loc h ≤ next_loc h')%positive }.

Lemma bumped_refl h : bumped h h.
Proof. by split. Qed.

Lemma bumped_bump h h' : bumped h h' → bumped h (bump h').
Proof. intros []. split; simpl; [done..|]. lia. Qed.

Lemma bumped_trans h h1 h2 : bumped h h1 → bumped h1 h2 → bumped h h2.
Proof. intros [] []. split; [congruence..|]. lia. Qed.

Lemma bumped_ok h h' : bumped h h' → heap_ok h → heap_ok h'.
Proof. intros [B1 B2 _ B4] [O1 O2]. split; rewrite ?B1, ?B2; intros x y Hx; [apply O1 in Hx|apply O2 in Hx]; lia. Qed.

Section Store.
Context `{Host} (Hmem : never_refuses) {R : Type} `{!Random R, !Grammar R, !Digest} (known : gtree → Prop) `{!StoreLaw known}.

Lemma wp_map_set {A} (m : map_base A) k v h (Q : map_base A → heap → Prop) :
  map_fit m → Z.of_nat (size (to_gmap m)) < 2 ^ 28 →
  (∀ m' h', map_fit m' → to_gmap m' = <[k := v]> (to_gmap m) → bumped h h' → Q m' h') → wp (map_set m k v) h Q.
Proof.
  intros Hm Hz HQ. destruct (map_set_fit m k v Hm Hz) as [H1 H2]. unfold map_set.
  destruct (map_getref m k); [by apply HQ|]. apply wp_bind, wp_request; [done|]. simpl.
  case_decide; [apply wp_bind, wp_request; [done|]|]; apply wp_ret, HQ; try done; repeat apply bumped_bump; apply bumped_refl.
Qed.

(** The two maps of the store list the nodes of [W]. *)
Record indexed (W : gmap loc gtree) (w : world R) : Prop := {
  ix_seen_fit : map_fit (seen_chunks w);
  ix_lists_fit : map_fit (chunk_store w);
  ix_known : ∀ q u, W !! q = Some u → known u;
  ix_seen : ∀ k q, to_gmap (seen_chunks w) !! k = Some q ↔ ∃ u, W !! q = Some u ∧ node_hash u = k;
  ix_lists : ∀ k, match to_gmap (chunk_store w) !! k with
    | Some l => ∃ qs, l = Some qs ∧ qs ≠ [] ∧ NoDup qs ∧ ∀ q, q ∈ qs ↔ ∃ u, W !! q = Some u ∧ node_type_str (gid u) = k
    | None => ∀ q u, W !! q = Some u → node_type_str (gid u) ≠ k
    end;
  ix_seen_size : (size (to_gmap (seen_chunks w)) ≤ size W)%nat;
  ix_lists_size : (size (to_gmap (chunk_store w)) ≤ size W)%nat }.

(** What a call on the store may not change. *)
Definition same_config (w w' : world R) : Prop := w_rng w' = w_rng w ∧ max_tree_len w' = max_tree_len w.

Lemma indexed_maps W w w' : chunk_store w' = chunk_store w → seen_chunks w' = seen_chunks w → indexed W w → indexed W w'.
Proof. intros E1 E2 []. by split; rewrite ?E1, ?E2. Qed.

(** The list of a type once the node [p] of the tree [t] is in it. *)
Lemma listed_snoc (W : gmap loc gtree) p t qs : W !! p = None →
  (∀ q, q ∈ qs ↔ ∃ u, W !! q = Some u ∧ node_type_str (gid u) = node_type_str (gid t)) → NoDup qs →
  NoDup (qs ++ [p]) ∧ ∀ q, q ∈ qs ++ [p] ↔ ∃ u, <[p := t]> W !! q = Some u ∧ node_type_str (gid u) = node_type_str (gid t).
Proof.
  intros Hp Hqs Hnd. split.
  - apply NoDup_app. split; [done|]. split; [|apply NoDup_singleton]. intros q Hq ->%list_elem_of_singleton.
    apply Hqs in Hq as (u & Hu & _). congruence.
  - intros q. rewrite elem_of_app, list_elem_of_singleton, Hqs. split.
    + intros [(u & Hu & E)| ->]; [exists u|exists t; by rewrite lookup_insert_eq]. by rewrite lookup_insert_ne by congruence.
    + intros (u & [[<- <-]|[_ Hu]]%lookup_insert_Some & E); [by right|left; by exists u].
Qed.

Lemma size_insert_le {A} (m : gmap string A) k x : (size (<[k := x]> m) ≤ S (size m))%nat.
Proof. destruct (m !! k) eqn:Hm; [rewrite map_size_insert_Some by eauto; lia|by rewrite map_size_insert_None]. Qed.

(** The maps with the node [p] of the tree [t] added. *)
Lemma indexed_add W p t w h seen lists qs :
  indexed W w → W !! p = None → known t → (∀ q, W !! q ≠ Some t) →
  map_fit seen → to_gmap seen = <[node_hash t := p]> (to_gmap (seen_chunks w)) →
  map_fit lists → to_gmap lists = <[node_type_str (gid t) := Some (qs ++ [p])]> (to_gmap (chunk_store w)) → NoDup qs →
  (∀ q, q ∈ qs ↔ ∃ u, W !! q = Some u ∧ node_type_str (gid u) = node_type_str (gid t)) →
  indexed (<[p := t]> W) (World h (w_rng w) (max_tree_len w) lists seen).
Proof.
  intros [I1 I2 I3 I4 I5 I6 I7] Hp Hk Hnew Hs1 Hs2 Hl1 Hl2 Hnd Hqs.
  assert (∀ q u, W !! q = Some u → node_hash u ≠ node_hash t) as Hnh.
  { intros q u Hu E. apply (Hnew q). rewrite Hu. f_equal. apply (known_hash u t); [by eapply I3|done|done]. }
  assert (Hsz : size (<[p := t]> W) = S (size W)) by (by apply map_size_insert_None).
  destruct (listed_snoc W p t qs Hp Hqs Hnd) as [Hnd' Hqs'].
  split; simpl; rewrite ?Hsz; try done.
  - intros q u [[<- <-]|[_ Hu]]%lookup_insert_Some; [done|by eapply I3].
  - intros k q. rewrite Hs2, lookup_insert_Some. rewrite I4. split.
    + intros [[<- <-]|[Hne (u & Hu & E)]]; [exists t; by rewrite lookup_insert_eq|]. exists u. by rewrite lookup_insert_ne by congruence.
    + intros (u & [[<- <-]|[Hne Hu]]%lookup_insert_Some & <-); [by left|right]. split; [by apply not_eq_sym, (Hnh q)|by exists u].
  - intros k. rewrite Hl2. destruct (decide (k = node_type_str (gid t))) as [->|Hne].
    + rewrite lookup_insert_eq. exists (qs ++ [p]). split_and!; [done|by destruct qs|done|done].
    + rewrite lookup_insert_ne by done. pose proof (I5 k) as Hk'. destruct (to_gmap (chunk_store w) !! k) as [l|].
      * destruct Hk' as (qs' & -> & Hne' & Hnd2 & Hin). exists qs'. split_and!; [done..|]. intros q. rewrite Hin. split.
        -- intros (u & Hu & E). exists u. by rewrite lookup_insert_ne by congruence.
        -- intros (u & [[<- <-]|[_ Hu]]%lookup_insert_Some & E); [congruence|by exists u].
      * intros q u [[<- <-]|[_ Hu]]%lookup_insert_Some; [congruence|by eapply Hk'].
  - rewrite Hs2. etrans; [apply size_insert_le|]. lia.
  - rewrite Hl2. etrans; [apply size_insert_le|]. lia.
Qed.

(** Recording the node [p] of a tree that was not seen before. *)
Lemma store_node_ok W p t w :
  indexed W w → W !! p = None → known t → (∀ q, W !! q ≠ Some t) → Z.of_nat (size W) + 1 < 2 ^ 28 →
  wp (store_node (node_type_str (gid t)) (node_hash t) p) w (λ _ w',
    indexed (<[p := t]> W) w' ∧ bumped (w_heap w) (w_heap w') ∧ same_config w w').
Proof.
  intros Hix Hp Hk Hnew Hz. pose proof Hix as [I1 I2 I3 I4 I5 I6 I7].
  unfold store_node. apply wp_bind, wp_get, wp_bind, wp_on_heap, wp_map_set; [done|lia|]. intros seen h1 Hs1 Hs2 Hb1.
  apply wp_bind, wp_modify. rewrite (map_get_ok (chunk_store w)) by apply I2. specialize (I5 (node_type_str (gid t))).
  destruct (to_gmap (chunk_store w) !! _) as [l|] eqn:Hl.
  - destruct I5 as (qs & -> & _ & Hnd & Hqs). apply wp_bind, wp_ret, wp_bind, wp_get. simpl.
    rewrite map_get_ok by apply I2. rewrite Hl. apply wp_bind, wp_on_heap. simpl. apply wp_bind, wp_request; [done|].
    apply wp_ret, wp_modify. simpl. destruct (map_set_fit (chunk_store w) (node_type_str (gid t)) (Some (qs ++ [p])) I2) as [Hf Hm]; [lia|].
    split; [|split; [by apply bumped_bump|done]]. by apply (indexed_add W p t w _ _ _ qs).
  - apply wp_bind, wp_bind, wp_on_heap. unfold seq_create. apply wp_bind, wp_request; [done|]. apply wp_ret. simpl.
    apply wp_bind, wp_on_heap, wp_map_set; [done|simpl; lia|]. intros lists h2 Hl1 Hl2 Hb2.
    apply wp_modify, wp_bind, wp_get. simpl. rewrite map_get_ok by apply Hl1. rewrite Hl2, lookup_insert_eq. simpl.
    apply wp_bind, wp_on_heap. simpl. apply wp_bind, wp_request; [done|]. apply wp_ret, wp_modify. simpl.
    destruct (map_set_fit lists (node_type_str (gid t)) (Some [p]) Hl1) as [Hf Hm].
    { rewrite Hl2. rewrite map_size_insert_None by done. lia. }
    split; [|split; [|done]].
    + apply (indexed_add W p t w _ _ _ []); try done; [by rewrite Hm, Hl2, insert_insert_eq|constructor|].
      intros q. split; [intros []%not_elem_of_nil|]. intros (u & Hu & E). by destruct (I5 q u Hu).
    + simpl in Hb2. apply bumped_bump. eapply bumped_trans; [|exact Hb2]. by apply bumped_bump.
Qed.

(** ** Taking a tree over *)

(** The nodes of [V] are shared structures that stay inside [V]. *)
Definition closed (V : gmap loc gtree) (m : gmap loc node) : Prop :=
  ∀ q u, V !! q = Some u → ∃ ls, shape false m None q u ls ∧ ∀ x, x ∈ ls → is_Some (V !! x).

(** While a tree is taken over, [V] holds what is finished and [A] the nodes
    whose subnodes are still being worked on. *)
Record store_inv (V A : gmap loc gtree) (w : world R) : Prop := {
  sv_heap : heap_ok (w_heap w);
  sv_indexed : indexed (V ∪ A) w;
  sv_closed : closed V (nodes (w_heap w));
  sv_disj : ∀ q, is_Some (A !! q) → V !! q = None;
  sv_pending : ∀ q, is_Some (A !! q) → is_Some (nodes (w_heap w) !! q) }.

(** Entry [i] of the subnodes of [pp] is the only one that points to [p]. *)
Record slot (m : gmap loc node) (pp : loc) (npp : node) (ps : list ptr) (i : nat) (p : loc) : Prop := {
  sl_node : m !! pp = Some npp;
  sl_subs : subnodes npp = Some (Some <$> ps);
  sl_count : subnode_count npp = zlen ps;
  sl_at : ps !! i = Some (Some p);
  sl_once : ∀ j, ps !! j = Some (Some p) → j = i }.

Lemma slot_det m pp npp npp' ps ps' i i' p : slot m pp npp ps i p → slot m pp npp' ps' i' p → npp = npp' ∧ ps = ps' ∧ i = i'.
Proof.
  intros [A1 A2 _ A4 A5] [B1 B2 _ B4 B5]. assert (npp = npp') as <- by congruence. split; [done|].
  assert (ps = ps') as <- by (apply (list_fmap_eq_inj Some Some_inj); congruence). split; [done|]. by apply B5.
Qed.

(** [p] hangs in its parent, which is not part of the store's finished nodes. *)
Definition hangs (V : gmap loc gtree) (m : gmap loc node) (par : ptr) (p : loc) (lp : list loc) : Prop :=
  ∀ pp, par = Some pp → pp ∉ lp ∧ V !! pp = None ∧ ∃ npp ps i, slot m pp npp ps i p.

(** [q] has taken the place of [p] in the parent. *)
Definition replaced (m m' : gmap loc node) (par : ptr) (p q : loc) : Prop :=
  ∀ pp npp ps i, par = Some pp → slot m pp npp ps i p → m' !! pp = Some (set_subnodes (Some (Some <$> <[i := Some q]> ps)) npp).

(** What [chunk_store_take_node] does to the tree [t] at [p], made of the nodes
    [lp]: the store has the tree at [q], and what it did not keep is freed. *)
Record taken (V A : gmap loc gtree) (par : ptr) (p : loc) (t : gtree) (lp : list loc) (w w' : world R)
    (V' : gmap loc gtree) (q : loc) : Prop := {
  tk_inv : store_inv V' A w';
  tk_more : V ⊆ V';
  tk_at : V' !! q = Some t;
  tk_dom : ∀ x, is_Some (V' !! x) → is_Some (V !! x) ∨ x ∈ lp;
  tk_only : ∀ x u, V' !! x = Some u → V !! x = Some u ∨ ∃ π, gget t π = Some u;
  tk_frame : ∀ x, x ∉ lp → V !! x = None → par ≠ Some x → nodes (w_heap w') !! x = nodes (w_heap w) !! x;
  tk_slot : replaced (nodes (w_heap w)) (nodes (w_heap w')) par p q;
  tk_gone : ∀ x, x ∈ lp → V' !! x = None → nodes (w_heap w') !! x = None;
  tk_none : ∀ x, nodes (w_heap w) !! x = None → nodes (w_heap w') !! x = None;
  tk_trees : trees (w_heap w') = trees (w_heap w);
  tk_files : files (w_heap w') = files (w_heap w);
  tk_config : same_config w w' }.

Lemma replace_seen_ok h par p t lp q nq V (Q : unit → heap → Prop) :
  heap_ok h → shape true (nodes h) par p t lp → nodes h !! q = Some nq → id nq = gid t → q ∉ lp → is_Some (V !! q) →
  hangs V (nodes h) par p lp →
  (∀ h', heap_ok h' → trees h' = trees h → files h' = files h →
     (∀ x, par ≠ Some x → set_parent None <$> nodes h' !! x = set_parent None <$> nodes h !! x) →
     (∀ x, par ≠ Some x → x ≠ p → x ≠ q → nodes h' !! x = nodes h !! x) →
     replaced (nodes h) (nodes h') par p q → Q tt h') →
  wp (match par with Some _ => _ ← node_replace_subnode par (Some p) (Some q); mret tt | None => mret tt end) h Q.
Proof.
  intros Hok Hs Hq Hid Hql HVq Hh HQ. pose proof (shape_head _ _ _ _ _ _ Hs) as Hpl.
  apply shape_unfold in Hs as (n & ps & lss & Hp & His & -> & Hsub). destruct par as [pp|].
  2: { apply wp_ret, HQ; try done. }
  destruct (Hh pp eq_refl) as (Hppl & HVpp & npp & pps & i & Hsl). pose proof Hsl as [S1 S2 S3 S4 S5].
  assert (q ≠ pp) by (intros ->; destruct HVq; congruence). assert (q ≠ p) by (by intros ->). assert (p ≠ pp) by (by intros ->).
  destruct (graft_nodes_lookup (nodes h) pp npp pps i p n q nq) as (G1 & G2 & G3 & G4); [done..|].
  apply wp_bind. eapply (wp_replace_subnode h pp npp pps i p n q nq); try done.
  { by rewrite Hid, (is_id _ _ _ _ _ His). }
  { by apply (is_parent _ _ _ _ _ His). }
  apply wp_ret, HQ; simpl; try done.
  - by apply graft_nodes_ok.
  - intros x Hx. destruct (decide (x = q)) as [->|]; [by rewrite G1, Hq|]. destruct (decide (x = p)) as [->|]; [by rewrite G3, Hp|].
    rewrite G4; [done|done|congruence|done].
  - intros x Hx ??. apply G4; [done|congruence|done].
  - intros pp' npp' ps' i' [= <-] Hsl'. destruct (slot_det _ _ _ _ _ _ _ _ _ Hsl Hsl') as (<- & <- & <-).
    rewrite G2. by rewrite list_fmap_insert.
Qed.

(** A tree that was seen before: the parent gets the node seen first, and the
    nodes of the tree are freed. *)
Lemma seen_case_ok V A w par p t lp q :
  store_inv V A w → shape true (nodes (w_heap w)) par p t lp → NoDup lp → (∀ x, x ∈ lp → V !! x = None ∧ A !! x = None) →
  V !! q = Some t → hangs V (nodes (w_heap w)) par p lp →
  wp (_ ← (match par with
           | Some _ => _ ← on_heap (node_replace_subnode par (Some p) (Some q)); mret tt
           | None => mret tt
           end);
      on_heap (node_free (Some p))) w (λ _ w', taken V A par p t lp w w' V q).
Proof.
  intros [I1 I2 I3 I4 I5] Hs Hnd Hlp Hq Hh. destruct (I3 q t Hq) as (lq & Hsq & HlqV).
  pose proof Hsq as (nq & psq & lssq & Hnq & Hisq & _ & _)%shape_unfold.
  assert (∀ x, x ∈ lp → par ≠ Some x) as Hparlp by (intros x Hx E; by destruct (Hh x E)).
  assert (∀ x, is_Some (V !! x) → par ≠ Some x) as HparV.
  { intros x [u Hu] E. destruct (Hh x E) as (_ & E' & _). congruence. }
  apply wp_bind. assert (∀ Q : unit → world R → Prop,
    wp (match par with Some _ => _ ← node_replace_subnode par (Some p) (Some q); mret tt | None => mret tt end) (w_heap w)
      (λ _ h, Q tt (set_heap h w)) →
    wp (match par with Some _ => _ ← on_heap (node_replace_subnode par (Some p) (Some q)); mret tt | None => mret tt end) w Q) as Hlift.
  { intros Q. unfold wp, on_heap, mbind, M_bind, mret, M_ret. destruct par; [by destruct (node_replace_subnode _ _ _ _) as [[]| |]|].
    by destruct w. }
  apply Hlift. eapply (replace_seen_ok _ par p t lp q nq V); try done.
  { by rewrite (is_id _ _ _ _ _ Hisq). }
  { intros Hin. destruct (Hlp q Hin). congruence. }
  intros h1 Hok1 Ht1 Hf1 Hsame Hother Hrep. apply wp_on_heap. simpl.
  eapply wp_mono; [eapply (node_free_ok h1 false None p t lp); [|done]|].
  { eapply shape_reparent; [|exact Hs]. intros x Hx. by apply Hsame, Hparlp. }
  intros [] h2 Hpr. pose proof Hpr as [P1 P2 P3 P4 P5]. set (w' := set_heap h2 (set_heap h1 w)).
  assert (∀ x, is_Some (nodes (w_heap w) !! x) → x ∉ lp → is_Some (nodes h2 !! x)) as Hkeep.
  { intros x [nx Hx] Hxl. rewrite P2 by done. destruct (decide (par = Some x)) as [E|Hne].
    - destruct (Hh x E) as (_ & _ & npp & ps & i & Hsl). rewrite (Hrep x npp ps i E Hsl). by eexists.
    - pose proof (Hsame x Hne) as E. rewrite Hx in E. destruct (nodes h1 !! x); [by eexists|done]. }
  assert (∀ x, par ≠ Some x → x ∉ lp → set_parent None <$> nodes h2 !! x = set_parent None <$> nodes (w_heap w) !! x) as Hrest
    by (intros x Hx Hxl; rewrite P2 by done; by apply Hsame).
  assert (store_inv V A w') as Hinv'.
  { split; simpl; [by eapply pruned_ok|by apply (indexed_maps _ w)| |done|].
    - intros x u Hx. destruct (I3 x u Hx) as (lx & Hsx & HlxV). exists lx. split; [|done]. eapply shape_reparent; [|exact Hsx].
      intros y Hy. apply Hrest; [by apply HparV, HlxV|]. intros Hyl. destruct (Hlp y Hyl) as [E _]. destruct (HlxV y Hy). congruence.
    - intros x Hx. apply Hkeep; [by apply I5|]. intros Hxl. destruct (Hlp x Hxl) as [_ E]. destruct Hx. congruence. }
  split; simpl; try done.
  - intros x. by left.
  - intros x u. by left.
  - intros x Hxl HVx Hx. rewrite P2 by done. apply Hother; [done| |by intros ->; congruence].
    intros ->. apply Hxl. by eapply shape_head.
  - intros pp npp ps i Hpp Hsl. rewrite P2 by (by destruct (Hh pp Hpp)). by apply Hrep.
  - intros x Hxl _. by apply P1.
  - intros x Hx. destruct (decide (x ∈ lp)) as [Hin|Hxl]; [by apply P1|]. destruct (decide (par = Some x)) as [E|Hne].
    + destruct (Hh x E) as (_ & _ & npp & ps & i & []). congruence.
    + pose proof (Hrest x Hne Hxl) as E. rewrite Hx in E. by destruct (nodes h2 !! x).
  - congruence.
  - congruence.
Qed.

(** The node [p], recorded in the world [w], before its subnode [j]. *)
Record filling (V A : gmap loc gtree) (w : world R) (par : ptr) (p : loc) (t : gtree) (ps : list ptr) (lss : list (list loc))
    (j : nat) (wj : world R) (Vj : gmap loc gtree) (qs : list loc) : Prop := {
  fl_inv : store_inv Vj (<[p := t]> A) wj;
  fl_more : V ⊆ Vj;
  fl_len : length qs = j;
  fl_done : ∀ k c, qs !! k = Some c → ∃ s, gsubs t !! k = Some (Some s) ∧ Vj !! c = Some s;
  fl_node : ∃ nj, nodes (w_heap wj) !! p = Some nj ∧ node_is true par t ((Some <$> qs) ++ drop j ps) nj;
  fl_dom : ∀ x, is_Some (Vj !! x) → is_Some (V !! x) ∨ x ∈ concat (take j lss);
  fl_only : ∀ x u, Vj !! x = Some u → V !! x = Some u ∨ ∃ π, gget t π = Some u;
  fl_frame : ∀ x, x ≠ p → x ∉ concat (take j lss) → V !! x = None → nodes (w_heap wj) !! x = nodes (w_heap w) !! x;
  fl_gone : ∀ x, x ∈ concat (take j lss) → Vj !! x = None → nodes (w_heap wj) !! x = None;
  fl_none : ∀ x, nodes (w_heap w) !! x = None → nodes (w_heap wj) !! x = None;
  fl_trees : trees (w_heap wj) = trees (w_heap w);
  fl_files : files (w_heap wj) = files (w_heap w);
  fl_config : same_config w wj }.

Lemma node_is_put chk par t cs x ps n q :
  node_is chk par t (cs ++ x :: ps) n →
  node_is chk par t (cs ++ q :: ps) (set_subnodes (Some (Some <$> <[length cs := q]> (cs ++ x :: ps))) n).
Proof.
  intros [I1 I2 I3 I4 I5 I6 I7 I8 I9 I10 I11]. rewrite insert_app_r_alt, Nat.sub_diag by lia. simpl.
  rewrite !length_app in *. simpl in *. split; simpl; rewrite ?length_app; try done.
Qed.

(** Taking over subnode [j], [c]. *)
Lemma filling_step V A w par p t ps lss j wj Vj qs s c l w' V' q :
  filling V A w par p t ps lss j wj Vj qs → gsubs t !! j = Some (Some s) → ps !! j = Some (Some c) → lss !! j = Some l →
  slot (nodes (w_heap wj)) p (default (new_node 0) (nodes (w_heap wj) !! p)) ((Some <$> qs) ++ drop j ps) j c →
  p ∉ concat lss → V !! p = None → (∀ x, x ∈ l → x ∉ concat (take j lss)) →
  taken Vj (<[p := t]> A) (Some p) c s l wj w' V' q →
  filling V A w par p t ps lss (S j) w' V' (qs ++ [q]).
Proof.
  intros [F1 F2 F3 F4 (nj & Hnj & Hisj) F6 Fo F7 F8 F9 F10 F11 F12] Hs Hc Hl Hsl Hpl HVp Hll [T1 T2 T3 T4 To T5 T6 T7 T8 T9 T10 T11].
  split; rewrite ?(concat_take_lookup _ _ _ Hl); try done; try congruence.
  - by etrans.
  - rewrite length_app. simpl. lia.
  - intros k c' [Hk|[Hge Hk]]%lookup_app_Some.
    + destruct (F4 k c' Hk) as (s' & Hs' & HV'). exists s'. split; [done|]. by eapply lookup_weaken.
    + apply list_lookup_singleton_Some in Hk as [Hk <-]. replace k with j by lia. by exists s.
  - rewrite Hnj in Hsl. simpl in Hsl. specialize (T6 p nj _ j eq_refl Hsl). eexists. split; [exact T6|].
    rewrite (drop_S _ _ _ Hc) in *. pose proof (node_is_put _ _ _ _ _ _ _ (Some q) Hisj) as Hput.
    rewrite fmap_app, <- app_assoc. simpl. rewrite length_fmap, F3 in Hput. exact Hput.
  - intros x [[Hx|Hx]%F6|Hx]%T4; [by left|right; apply elem_of_app; by left|right; apply elem_of_app; by right].
  - intros x u [[Hx|Hx]%Fo|[π Hπ]]%To; [by left|by right|right]. exists (j :: π). simpl. by rewrite Hs.
  - intros x Hxp [Hx1 Hx2]%not_elem_of_app HVx. rewrite T5; [by apply F7|done| |congruence].
    apply eq_None_not_Some. intros [[y Hy]|Hx]%F6; [congruence|done].
  - intros x [Hx|Hx]%elem_of_app HVx; [|by apply T7]. apply T8, F8; [done|].
    apply eq_None_not_Some. intros [y Hy]. assert (V' !! x = Some y) by (by eapply lookup_weaken). congruence.
  - intros x Hx. by apply T8, F9.
  - destruct F12, T11. split; congruence.
Qed.

Lemma size_shrinks {A} (m m' : gmap loc A) : (∀ x, m !! x = None → m' !! x = None) → (size m' ≤ size m)%nat.
Proof.
  intros Hm. rewrite <- !size_dom. apply subseteq_size. intros x [y Hy]%elem_of_dom. apply elem_of_dom.
  destruct (m !! x) eqn:Hx; [by eexists|]. rewrite Hm in Hy; done.
Qed.

Lemma NoDup_concat_index {A} (lss : list (list A)) i k l l' x :
  NoDup (concat lss) → lss !! i = Some l → lss !! k = Some l' → x ∈ l → x ∈ l' → i = k.
Proof.
  intros Hnd Hi Hk Hx Hx'. destruct (Nat.lt_trichotomy i k) as [Hlt|[?|Hlt]]; [|done|]; exfalso.
  - destruct (NoDup_concat_lookup _ _ _ Hnd Hk) as [_ Hd]. apply (Hd x Hx'). apply concat_elem. exists l. split; [|done].
    eapply (list_elem_of_lookup_2 _ i). by rewrite lookup_take_lt.
  - destruct (NoDup_concat_lookup _ _ _ Hnd Hi) as [_ Hd]. apply (Hd x Hx). apply concat_elem. exists l'. split; [|done].
    eapply (list_elem_of_lookup_2 _ k). by rewrite lookup_take_lt.
Qed.

Definition take_spec (fuel : nat) (t : gtree) : Prop := ∀ V A w par p lp,
  store_inv V A w → shape true (nodes (w_heap w)) par p t lp → NoDup lp →
  (∀ x, x ∈ lp → V !! x = None ∧ A !! x = None) → known t →
  (∀ q u, A !! q = Some u → (gheight t < gheight u)%nat) → hangs V (nodes (w_heap w)) par p lp →
  Z.of_nat (size (nodes (w_heap w))) < 2 ^ 28 →
  wp (chunk_store_take_node_rec fuel (Some p)) w (λ _ w', ∃ V' q, taken V A par p t lp w w' V' q).

(** *** The subnodes of one node

    [p] stands for [t], its subnodes [ps] are trees of the nodes [lss]. *)
Section Subnodes.
Context (V A : gmap loc gtree) (w : world R) (par : ptr) (p : loc) (t : gtree) (ps : list ptr) (lss : list (list loc)).
Hypothesis Hsub : shapes true (nodes (w_heap w)) (Some p) ps (gsubs t) lss.
Hypothesis Hnd : NoDup (p :: concat lss).
Hypothesis Hfresh : ∀ x, x ∈ p :: concat lss → V !! x = None ∧ A !! x = None.

Lemma p_apart : p ∉ concat lss ∧ NoDup (concat lss) ∧ V !! p = None.
Proof. destruct (proj1 (NoDup_cons _ _) Hnd) as [H1 H2]. split_and!; [done|done|]. apply (Hfresh p). left. Qed.

Lemma filling_apart j wj Vj qs l x :
  filling V A w par p t ps lss j wj Vj qs → lss !! j = Some l → x ∈ p :: l → Vj !! x = None.
Proof.
  intros Hfl Hl Hx. destruct p_apart as (Hpl & Hndc & _). destruct (NoDup_concat_lookup _ _ _ Hndc Hl) as [_ Hdis].
  apply eq_None_not_Some. intros [[y Hy]|Hx']%(fl_dom _ _ _ _ _ _ _ _ _ _ _ _ Hfl).
  - destruct (Hfresh x) as [E _]; [|congruence]. apply elem_of_cons in Hx as [->|Hx]; [left|right; by eapply concat_lookup_elem].
  - apply elem_of_cons in Hx as [->|Hx]; [|by eapply Hdis]. apply Hpl. rewrite <- (take_drop j lss), concat_app. apply elem_of_app. by left.
Qed.

(** The entry of the subnode that is taken over next. *)
Lemma filling_slot j wj Vj qs c l :
  filling V A w par p t ps lss j wj Vj qs → ps !! j = Some (Some c) → lss !! j = Some l → c ∈ l →
  ∃ nj, subnode_count nj = zlen ps ∧ slot (nodes (w_heap wj)) p nj ((Some <$> qs) ++ drop j ps) j c.
Proof.
  intros Hfl Hc Hl Hcl. pose proof Hfl as [_ _ F3 F4 (nj & Hnj & Hisj) _ _ _ _ _ _ _ _]. apply lookup_lt_Some in Hc as Hj.
  assert (length ((Some <$> qs) ++ drop j ps) = length ps) as Hcnt by (rewrite length_app, length_fmap, length_drop; lia).
  assert (((Some <$> qs) ++ drop j ps) !! j = Some (Some c)) as Hat.
  { rewrite lookup_app_r by (rewrite length_fmap; lia). by rewrite length_fmap, F3, Nat.sub_diag, lookup_drop, Nat.add_0_r. }
  exists nj. split; [by rewrite (is_count _ _ _ _ _ Hisj), Hcnt|]. split; [done| |by apply (is_count _ _ _ _ _ Hisj)|done|].
  { apply (is_subs _ _ _ _ _ Hisj). intros E. by rewrite E in Hat. }
  intros k [Hk|[Hge Hk]]%lookup_app_Some.
  - rewrite list_lookup_fmap in Hk. destruct (qs !! k) as [c'|] eqn:Hqk; [|done]. injection Hk as ->.
    destruct (F4 k c Hqk) as (s' & _ & Hs'). rewrite (filling_apart j wj Vj qs l c) in Hs'; [done|done|done|by right].
  - rewrite length_fmap, F3 in Hge, Hk. rewrite lookup_drop in Hk. replace (j + (k - j))%nat with k in Hk by lia.
    destruct (shapes_length _ _ _ _ _ _ Hsub) as [Hlen _].
    destruct (shapes_pick _ _ _ _ _ _ k Hsub) as (o' & ot' & l' & Ho' & Hot' & Hl' & Hsh'); [apply lookup_lt_Some in Hk; lia|].
    assert (o' = Some c) as -> by congruence. destruct ot' as [s'|]; [|done]. simpl in Hsh'. destruct p_apart as (_ & Hndc & _).
    eapply NoDup_concat_index; [exact Hndc|exact Hl'|exact Hl|by eapply shape_head|done].
Qed.

Hypothesis Hk : known t.
Hypothesis HA : ∀ q u, A !! q = Some u → (gheight t < gheight u)%nat.
Hypothesis Hz : Z.of_nat (size (nodes (w_heap w))) < 2 ^ 28.

Lemma take_sub_ok fuel j wj Vj qs s c l :
  take_spec fuel s → filling V A w par p t ps lss j wj Vj qs →
  ps !! j = Some (Some c) → gsubs t !! j = Some (Some s) → lss !! j = Some l → shape true (nodes (w_heap w)) (Some p) c s l →
  wp (chunk_store_take_node_rec fuel (Some c)) wj (λ _ w', ∃ V' qs', filling V A w par p t ps lss (S j) w' V' qs').
Proof.
  intros Hts Hfl Ho Hot Hl Hsh. pose proof Hfl as [F1 F2 F3 F4 (nj & Hnj & Hisj) F6 Fo F7 F8 F9 F10 F11 F12].
  destruct p_apart as (Hpl & Hndc & HVp). destruct (NoDup_concat_lookup _ _ _ Hndc Hl) as [Hndl Hdis].
  pose proof (shape_head _ _ _ _ _ _ Hsh) as Hcl. apply list_elem_of_lookup_2 in Hot as Hin.
  assert (∀ x, x ∈ l → x ∈ concat lss) as Hlc by (intros x Hx; by eapply concat_lookup_elem).
  destruct (filling_slot j wj Vj qs c l Hfl Ho Hl Hcl) as (nj' & _ & Hslot).
  assert (nj' = nj) as -> by (destruct Hslot; congruence).
  eapply wp_mono; [apply (Hts Vj (<[p := t]> A) wj (Some p) c l); try done|].
  - eapply shape_frame; [|exact Hsh]. intros x Hx. apply F7; [intros ->; by apply Hpl, Hlc|by apply Hdis|].
    destruct (Hfresh x); [right; by apply Hlc|done].
  - intros x Hx. split; [eapply filling_apart; [done|done|by right]|]. rewrite lookup_insert_ne by (intros ->; by apply Hpl, Hlc).
    destruct (Hfresh x); [right; by apply Hlc|done].
  - by eapply known_sub.
  - pose proof (elem_of_gsubs_height t s Hin). intros q u [[_ <-]|[_ Hu]]%lookup_insert_Some; [done|]. apply HA in Hu. lia.
  - intros pp [= <-]. split; [intros Hx; by apply Hpl, Hlc|]. split; [|by eexists _, _, _].
    eapply filling_apart; [done|done|left].
  - pose proof (size_shrinks _ _ F9). lia.
  - intros [] w' (V' & q & Htk). exists V', (qs ++ [q]). eapply filling_step; try done. by rewrite Hnj.
Qed.

Lemma take_loop_ok fuel w0 :
  (∀ s, Some s ∈ gsubs t → take_spec fuel s) → filling V A w par p t ps lss 0 w0 V [] →
  wp (for_loop (length ps) 0 (λ i,
        x ← on_heap (load (Some p));
        if decide (i < subnode_count x) then
          s ← on_heap (read_subnode (Some p) i);
          chunk_store_take_node_rec fuel s
        else mret tt)) w0 (λ _ w', ∃ V' qs, filling V A w par p t ps lss (length ps) w' V' qs).
Proof.
  intros IH Hf0. destruct (shapes_length _ _ _ _ _ _ Hsub) as [Hlen Hlen2].
  destruct (storable_inv _ (known_storable t Hk)) as [(_ & _ & _ & _ & _ & Hnone) _].
  eapply wp_mono; [apply (wp_for_loop (λ i w', ∃ V' qs, filling V A w par p t ps lss (Z.to_nat i) w' V' qs)); [by exists V, []|]|].
  - intros j wj Hj (Vj & qs & Hfl).
    destruct (shapes_pick _ _ _ _ _ _ (Z.to_nat j) Hsub) as (o & ot & l & Ho & Hot & Hl & Hsh); [lia|].
    apply list_elem_of_lookup_2 in Hot as Hin. destruct ot as [s|]; [|done]. destruct o as [c|]; [|done]. simpl in Hsh.
    destruct (filling_slot _ _ _ _ _ _ Hfl Ho Hl (shape_head _ _ _ _ _ _ Hsh)) as (nj & Hcnt & [S1 S2 S3 S4 S5]).
    apply wp_bind, wp_on_heap. eapply wp_load; [done|]. rewrite Hcnt, decide_True by lia.
    apply wp_bind, wp_on_heap. eapply wp_read_subnode; [done|done|exact S4|].
    replace (set_heap (w_heap wj) wj) with wj by (by destruct wj). replace (set_heap _ wj) with wj by (by destruct wj).
    replace (Z.to_nat (j + 1)) with (S (Z.to_nat j)) by lia. eapply take_sub_ok; try done. by apply IH.
  - intros [] w'. by rewrite Z.add_0_l, Nat2Z.id.
Qed.
End Subnodes.

Lemma closed_shapes V m par qs : ∀ subs, closed V m → length qs = length subs →
  (∀ k c, qs !! k = Some c → ∃ s, subs !! k = Some (Some s) ∧ V !! c = Some s) →
  ∃ lss, shapes false m par (Some <$> qs) subs lss ∧ ∀ x, x ∈ concat lss → is_Some (V !! x).
Proof.
  induction qs as [|q qs IH]; intros subs Hcl Hlen Hqs; destruct subs as [|o subs]; try done.
  { exists []. split; [constructor|]. intros x []%not_elem_of_nil. }
  destruct (IH subs) as (lss & Hs & Hl); [done|simpl in Hlen; lia|by intros k; apply (Hqs (S k))|].
  destruct (Hqs 0%nat q eq_refl) as (s & [= ->] & HV). destruct (Hcl q s HV) as (l & Hsh & Hin).
  exists (l :: lss). split.
  - constructor; [|done]. simpl. by eapply shape_unchecked.
  - intros x [Hx|Hx]%elem_of_app; auto.
Qed.

(** All subnodes are done: [p] is finished too. *)
Lemma filling_taken V A w par p t n ps lss w' V' qs :
  filling V A w par p t ps lss (length ps) w' V' qs → nodes (w_heap w) !! p = Some n → node_is true par t ps n →
  length ps = length (gsubs t) → length lss = length ps → p ∉ concat lss → V !! p = None → A !! p = None →
  hangs V (nodes (w_heap w)) par p (p :: concat lss) →
  taken V A par p t (p :: concat lss) w w' (<[p := t]> V') p.
Proof.
  intros [F1 F2 F3 F4 (nj & Hnj & Hisj) F6 Fo F7 F8 F9 F10 F11 F12] Hp His Hlen Hlen2 Hpl HVp HAp Hh.
  rewrite take_ge in F6, F7, F8 by lia. rewrite drop_ge, app_nil_r in Hisj by lia.
  assert (V' !! p = None) as HVp' by (apply eq_None_not_Some; intros [[y Hy]|?]%F6; [congruence|done]).
  destruct F1 as [I1 I2 I3 I4 I5].
  assert (nodes (w_heap w') !! p ≠ None) as Hnp by congruence.
  split; try done.
  - split; try done.
    + by rewrite <- insert_union_l, insert_union_r.
    + intros q u [[<- <-]|[Hne Hu]]%lookup_insert_Some.
      * destruct (closed_shapes V' (nodes (w_heap w')) (Some p) qs (gsubs t)) as (lss' & Hsh & Hin); [done|lia|done|].
        exists (p :: concat lss'). split.
        -- apply shape_unfold. exists nj, (Some <$> qs), lss'. split_and!; [done|by eapply node_is_unchecked|done|done].
        -- intros x [->|Hx]%elem_of_cons; [by rewrite lookup_insert_eq|]. destruct (Hin x Hx) as [y Hy].
           destruct (decide (p = x)) as [->|]; [by rewrite lookup_insert_eq|]. by rewrite lookup_insert_ne.
      * destruct (I3 q u Hu) as (lq & Hsq & Hlq). exists lq. split; [done|]. intros x Hx.
        destruct (decide (p = x)) as [->|]; [by rewrite lookup_insert_eq|]. rewrite lookup_insert_ne by done. by apply Hlq.
    + intros q Hq. assert (p ≠ q) by (intros <-; destruct Hq; congruence). rewrite lookup_insert_ne by done.
      apply I4. by rewrite lookup_insert_ne.
    + intros q Hq. assert (p ≠ q) by (intros <-; destruct Hq; congruence). apply I5. by rewrite lookup_insert_ne.
  - etrans; [exact F2|]. by apply insert_subseteq.
  - by rewrite lookup_insert_eq.
  - intros x [y [[<- _]|[_ Hy]]%lookup_insert_Some]; [right; left|]. destruct (F6 x) as [?|?]; [by eexists|by left|right; by right].
  - intros x u [[<- <-]|[_ Hu]]%lookup_insert_Some; [right; by exists []|by apply Fo].
  - intros x [Hxp Hxl]%not_elem_of_cons HVx _. by apply F7.
  - intros pp npp pps i Hpp Hsl. destruct (Hh pp Hpp) as (Hppl & HVpp & _). apply not_elem_of_cons in Hppl as [Hpp1 Hpp2].
    rewrite F7 by done. destruct Hsl as [S1 S2 S3 S4 S5]. rewrite S1, list_insert_id by done. f_equal. destruct npp. simpl in S2. by subst.
  - intros x [->|Hx]%elem_of_cons [Hx' Hne]%lookup_insert_None; [done|]. by apply F8.
Qed.

Lemma take_node_rec_ok t : ∀ fuel, (gheight t ≤ fuel)%nat → take_spec fuel t.
Proof.
  induction t as [i r v a b subs IH] using gtree_ind'. set (t := GNode i r v a b subs) in *.
  intros fuel Hf V A w par p lp Hinv Hs Hnd Hlp Hk HA Hh Hz. pose proof Hinv as [I1 I2 I3 I4 I5].
  destruct fuel as [|fuel]; [cbn in Hf; lia|]. pose proof Hs as (n & ps & lss & Hp & His & -> & Hsub)%shape_unfold.
  destruct (Hlp p) as [HVp HAp]; [left|]. destruct (shapes_length _ _ _ _ _ _ Hsub) as [Hlen Hlen2].
  simpl chunk_store_take_node_rec. apply wp_bind, wp_on_heap. eapply wp_load; [done|].
  apply wp_bind, wp_on_heap. replace (set_heap (w_heap w) w) with w by (by destruct w).
  eapply wp_mono; [eapply hash_node_ok; [done|done|by apply known_storable]|]. intros ? ? [-> ->].
  replace (set_heap (w_heap w) w) with w by (by destruct w). apply wp_bind, wp_get.
  rewrite (is_id _ _ _ _ _ His), (is_parent _ _ _ _ _ His eq_refl). destruct I2 as [X1 X2 X3 X4 X5 X6 X7].
  rewrite map_get_ok by apply X1. destruct (to_gmap (seen_chunks w) !! node_hash t) as [q|] eqn:Hseen.
  - apply X4 in Hseen as (u & Hu & Hhash). assert (u = t) as -> by (apply known_hash; [by eapply X3|done|done]).
    assert (V !! q = Some t) as HVq.
    { apply lookup_union_Some_raw in Hu as [?|[_ Hu]]; [done|]. apply HA in Hu. lia. }
    eapply wp_mono; [by apply (seen_case_ok V A w par p t (p :: concat lss) q)|]. intros [] w' Htk. by exists V, q.
  - assert ((V ∪ A) !! p = None) as Hnew by (by apply lookup_union_None).
    assert (Z.of_nat (size (V ∪ A)) + 1 < 2 ^ 28) as Hz'.
    { enough (S (size (V ∪ A)) ≤ size (nodes (w_heap w)))%nat by lia. 
      assert (size (<[p := t]> (V ∪ A)) = S (size (V ∪ A))) as <- by (by apply map_size_insert_None). rewrite <- !size_dom.
      apply subseteq_size. intros x Hx%elem_of_dom. apply elem_of_dom. destruct Hx as [y [[<- _]|[_ Hy]]%lookup_insert_Some]; [by eexists|].
      apply lookup_union_Some_raw in Hy as [Hy|[_ Hy]]; [|apply I5; by eexists]. destruct (I3 x y Hy) as (lx & Hsx & _).
      eapply shape_lookup; [exact Hsx|by eapply shape_head]. }
    apply wp_bind. eapply wp_mono; [apply (store_node_ok (V ∪ A) p t w); try done|].
    { intros q Hq. pose proof (proj2 (X4 (node_hash t) q) (ex_intro _ t (conj Hq eq_refl))). congruence. }
    intros [] w1 (Hix & Hbu & Hcfg). pose proof Hbu as [B1 B2 B3 B4].
    assert (filling V A w par p t ps lss 0 w1 V []) as Hfl.
    { split; try done.
      - split; [by eapply bumped_ok|by rewrite <- insert_union_r|by rewrite B1| |].
        + intros q [y [[<- _]|[_ Hy]]%lookup_insert_Some]; [done|apply I4; by eexists].
        + intros q [y [[<- _]|[_ Hy]]%lookup_insert_Some]; rewrite B1; [by eexists|apply I5; by eexists].
      - exists n. by rewrite B1.
      - intros x Hx. by left.
      - intros x u Hx. by left.
      - intros x _ _ _. by rewrite B1.
      - intros x []%not_elem_of_nil.
      - intros x Hx. by rewrite B1. }
    rewrite (is_count _ _ _ _ _ His), Nat2Z.id. eapply wp_mono; [eapply take_loop_ok; try done|].
    + intros s Hin. eapply Forall_forall in IH; [|exact Hin]. apply IH. pose proof (elem_of_gsubs_height t s Hin). lia.
    + intros [] w' (V' & qs & Hfl'). exists (<[p := t]> V'), p. apply NoDup_cons in Hnd as [Hpl Hnd].
      eapply filling_taken; done || lia.
Qed.

End Store.
