(* ===== verification/ChunkLife.v ===== *)
(** * ChunkLife: adding trees to the chunk store, using it and clearing it

    The theorems on the store, from [ChunkSpec], and a grammar whose trees keep
    the law of the store when the hash has no collisions among them. *)

From S2P Require Import Prelude Buffer Utils Tree TreeSpec TreeNodes TreeSizes TreeText TreePaths TreePicks TreeSerial StrMap World TreeGrafts TreeLife GrammarTypes ToyGrammar ChunkStore TreeMutation MutationSpec SplicingSpec ChunkHash ChunkSpec.

Section Store.
Context `{Host} (Hmem : never_refuses) {R : Type} `{!Random R, !Grammar R, !Digest} (known : gtree → Prop) `{!StoreLaw known}.

(** ** Adding a tree *)

Lemma shape_length_eq t : ∀ chk chk' m m' par par' p p' ls ls',
  shape chk m par p t ls → shape chk' m' par' p' t ls' → length ls = length ls'.
Proof.
  induction t as [i r v a b subs IH] using gtree_ind'. intros chk chk' m m' par par' p p' ls ls'.
  rewrite !shape_unfold. intros (n & ps & lss & Hp & His & -> & Hsub) (n' & ps' & lss' & Hp' & His' & -> & Hsub'). simpl in *. f_equal.
  clear Hp His Hp' His'. revert ps' lss' Hsub'. induction Hsub as [|o ot l ps subs lss Ho _ IHs]; intros ps' lss' Hsub'; inversion Hsub' as [|o' ? l' ? ? ? Ho' Hsub2]; subst; [done|].
  apply Forall_cons in IH as [IHo IH]. simpl. rewrite !length_app. f_equal; [|by eapply IHs].
  destruct o, ot, o'; simpl in Ho, Ho'; try done; [by eapply IHo|by subst].
Qed.

Lemma cloned_size h t q h' chk par p ls : cloned h t q h' → shape chk (nodes h) par p t ls →
  (size (nodes h') ≤ size (nodes h) + length ls)%nat.
Proof.
  intros (p' & ls' & -> & Hg & Hnd & Hs') Hs. rewrite (shape_length_eq t _ _ _ _ _ _ _ _ _ _ Hs Hs').
  rewrite <- !size_dom, <- (size_list_to_set (C := gset loc) ls') by done.
  etrans; [apply (subseteq_size _ (dom (nodes h) ∪ list_to_set ls'))|].
  - intros x [y Hy]%elem_of_dom. apply elem_of_union. destruct (decide (x ∈ ls')); [right; by apply elem_of_list_to_set|left].
    apply elem_of_dom. rewrite (g_same _ _ _ Hg) in Hy by done. by eexists.
  - rewrite size_union_alt. apply Nat.add_le_mono_l, subseteq_size. set_solver.
Qed.

(** Every subtree of a finished tree is stored. *)
Lemma closed_sub V m q u π s : closed V m → V !! q = Some u → gget u π = Some s → ∃ q', V !! q' = Some s.
Proof.
  intros Hcl. revert q u. induction π as [|j π IH]; intros q u Hq; [intros [= <-]; by exists q|]. simpl.
  destruct (gsubs u !! j) as [[c|]|] eqn:Hj; try done. destruct (Hcl q u Hq) as (ls & Hs & Hls).
  apply shape_unfold in Hs as (n & ps & lss & _ & _ & -> & Hsub).
  destruct (shapes_pick _ _ _ _ _ _ j Hsub) as (o & ot & l & Ho & Hot & Hl & Hsh); [by eapply lookup_lt_Some|].
  assert (ot = Some c) as -> by congruence. destruct o as [qc|]; simpl in Hsh; [|done].
  destruct (Hls qc) as [u' Hu']. { right. eapply concat_lookup_elem; [done|by eapply shape_head]. }
  destruct (Hcl qc u' Hu') as (ls' & Hs' & _). destruct (shape_fun _ _ _ _ _ _ _ _ _ _ Hsh Hs') as [<- _]. by apply IH with qc.
Qed.

(** Of equal trees one is stored. *)
Lemma indexed_unique W w q q' u : indexed known W w → W !! q = Some u → W !! q' = Some u → q = q'.
Proof.
  intros Hix Hq Hq'. assert (∀ x, W !! x = Some u → to_gmap (seen_chunks w) !! node_hash u = Some x) as Hall.
  { intros x Hx. apply (ix_seen _ _ _ Hix). by exists u. }
  apply Hall in Hq, Hq'. congruence.
Qed.

(** The store as the splicing mutation uses it. *)
Lemma store_inv_sound V w : store_inv known V ∅ w → Z.of_nat (size (nodes (w_heap w))) < 2 ^ 28 →
  store_sound (chunk_store w) (nodes (w_heap w)) (λ _ u, known u).
Proof.
  intros [I1 I2 I3 _ _] Hz i l. rewrite (right_id_L ∅ (∪)) in I2. rewrite map_get_ok by apply (ix_lists_fit _ _ _ I2). intros Hl.
  pose proof (ix_lists _ _ _ I2 (node_type_str i)) as Hk. rewrite Hl in Hk. destruct Hk as (qs & -> & Hne & Hnd & Hqs).
  assert (∀ q, q ∈ qs → ∃ par u lq, shape false (nodes (w_heap w)) par q u lq ∧ gid u = i ∧ known u) as Hin.
  { intros q (u & Hu & E)%Hqs. destruct (I3 q u Hu) as (lq & Hsq & _). pose proof (ix_known _ _ _ I2 q u Hu) as Hku.
    exists None, u, lq. split_and!; [done|symmetry; by apply known_type|done]. }
  exists qs. split_and!; [done|done| |done].
  enough (length qs ≤ size (nodes (w_heap w)))%nat by lia. rewrite <- (size_list_to_set (C := gset loc) qs) by done. rewrite <- size_dom.
  apply subseteq_size. intros q Hq%elem_of_list_to_set. destruct (Hin q Hq) as (par & u & lq & Hs & _). apply elem_of_dom.
  eapply shape_lookup; [exact Hs|by eapply shape_head].
Qed.

Lemma chunk_store_add_tree_ok V w T x p t ls :
  store_inv known V ∅ w → tree_in (w_heap w) T x p t ls → known t → zlen ls + Z.of_nat (size (nodes (w_heap w))) < 2 ^ 28 →
  wp (chunk_store_add_tree (Some T)) w (λ _ w', ∃ V' q,
    store_inv known V' ∅ w' ∧ V ⊆ V' ∧ V' !! q = Some t ∧ (∀ y u, V' !! y = Some u → V !! y = Some u ∨ ∃ π, gget t π = Some u) ∧
    (∀ y, is_Some (nodes (w_heap w) !! y) → V !! y = None → nodes (w_heap w') !! y = nodes (w_heap w) !! y) ∧
    (∀ y, nodes (w_heap w) !! y = None → V' !! y = None → nodes (w_heap w') !! y = None) ∧
    trees (w_heap w') = trees (w_heap w) ∧ files (w_heap w') = files (w_heap w) ∧ same_config w w').
Proof.
  intros Hinv [Hx Hroot Hs Hnd] Hk Hz. pose proof Hinv as [I1 I2 I3 I4 I5]. unfold chunk_store_add_tree.
  apply wp_bind, wp_on_heap. eapply wp_load_tree; [done|]. rewrite Hroot. replace (set_heap (w_heap w) w) with w by (by destruct w).
  apply wp_bind, wp_on_heap. eapply wp_mono; [by eapply (node_clone_ok Hmem)|]. intros o h1 Hcl.
  pose proof (cloned_size _ _ _ _ _ _ _ _ Hcl Hs) as Hsize. destruct Hcl as (p' & ls' & -> & Hg & Hnd' & Hs').
  assert (∀ y, is_Some (V !! y) → is_Some (nodes (w_heap w) !! y)) as HVold.
  { intros y [u Hu]. destruct (I3 y u Hu) as (ly & Hsy & _). eapply shape_lookup; [exact Hsy|by eapply shape_head]. }
  assert (store_inv known V ∅ (set_heap h1 w)) as Hinv1.
  { split; simpl; [apply Hg|by apply (indexed_maps known _ w)| |done|by intros q [? ?%lookup_empty_Some]].
    intros q u Hq. destruct (I3 q u Hq) as (lq & Hsq & Hlq). exists lq. split; [by eapply grown_shape|done]. }
  unfold chunk_store_take_node. eapply wp_mono; [eapply (take_node_rec_ok Hmem known); [|exact Hinv1|exact Hs'|done|..]|]; simpl; try done.
  - etrans; [by eapply (shape_fuel _ h1)|]. lia.
  - intros y Hy. split; [|done]. apply eq_None_not_Some. intros HVy. apply HVold in HVy. by eapply grown_old in HVy.
  - lia.
  - intros [] w' (V' & q & [T1 T2 T3 T4 To T5 T6 T7 T8 T9 T10 T11]). simpl in *. exists V', q. split_and!; try done.
    + intros y Hy HVy. rewrite T5; [|by eapply grown_old|done|done]. apply (g_same _ _ _ Hg). by eapply grown_old.
    + intros y Hy HVy. destruct (decide (y ∈ ls')) as [Hin|Hnin]; [by apply T7|]. apply T8. by rewrite (g_same _ _ _ Hg).
    + rewrite T9. apply Hg.
    + rewrite T10. apply Hg.
Qed.

(** ** Clearing the store *)

Lemma free_only_self_ok h q n : nodes h !! q = Some n → wp (node_free_only_self (Some q)) h (λ _ h', pruned [q] h h').
Proof.
  intros Hq. unfold node_free_only_self. apply wp_bind. eapply wp_store; [done|]. unfold node_free, with_fuel. simpl node_free_rec.
  apply wp_bind. eapply wp_store; [simpl; apply lookup_insert_eq|]. apply wp_bind. eapply wp_load; [simpl; apply lookup_insert_eq|].
  set (n1 := set_non_term_size 0 _). apply wp_bind.
  apply (wp_mono _ _ (λ _ s, ∃ n', nodes s = <[q := n']> (nodes h) ∧ trees s = trees h ∧ files s = files h ∧ next_loc s = next_loc h)).
  { destruct (val_buf n1).
    - eapply wp_store; [simpl; apply lookup_insert_eq|]. eexists. simpl. rewrite !insert_insert_eq. eauto.
    - apply wp_ret. eexists. simpl. rewrite !insert_insert_eq. eauto. }
  intros _ s (n' & Hs & Ht & Hf & Hx). apply wp_bind. eapply wp_store; [rewrite Hs; apply lookup_insert_eq|].
  apply wp_bind. change (subnode_count n1) with 0. rewrite decide_False by lia. apply wp_ret.
  eapply wp_free_node; [simpl; apply lookup_insert_eq|]. split; simpl; try done; rewrite Hs.
  - intros x ->%list_elem_of_singleton. apply lookup_delete_eq.
  - intros x Hx'. rewrite list_elem_of_singleton in Hx'. by rewrite lookup_delete_ne, !lookup_insert_ne by done.
Qed.

Lemma pruned_app l l' h h1 h2 : pruned l h h1 → pruned l' h1 h2 → pruned (l ++ l') h h2.
Proof.
  intros [P1 P2 P3 P4 P5] [Q1 Q2 Q3 Q4 Q5]. split; try congruence.
  - intros q [Hq|Hq]%elem_of_app; [|by apply Q1]. destruct (decide (q ∈ l')); [by apply Q1|]. rewrite Q2 by done. by apply P1.
  - intros q [Hq Hq']%not_elem_of_app. rewrite Q2 by done. by apply P2.
Qed.

Lemma free_stored_ok l : ∀ (w : world R), NoDup l → (∀ x, x ∈ l → is_Some (nodes (w_heap w) !! x)) →
  wp (free_stored l) w (λ _ w', ∃ h', w' = set_heap h' w ∧ pruned l (w_heap w) h').
Proof.
  induction l as [|q l IH]; intros w Hnd Hl; simpl.
  { apply wp_ret. exists (w_heap w). split; [by destruct w|]. split; try done. by intros x ?%not_elem_of_nil. }
  apply NoDup_cons in Hnd as [Hq Hnd]. destruct (Hl q) as [n Hn]; [left|]. apply wp_bind, wp_on_heap.
  eapply wp_mono; [by eapply free_only_self_ok|]. intros [] h1 Hp. eapply wp_mono; [apply IH; [done|]|].
  - intros x Hx. simpl. rewrite (pr_same _ _ _ Hp); [apply Hl; by right|]. intros ->%list_elem_of_singleton. done.
  - intros [] w' (h' & -> & Hp'). exists h'. split; [done|]. by apply (pruned_app [q] l _ h1).
Qed.

(** The stored nodes that an entry of [chunk_store] lists. *)
Definition entry_nodes (n : map_node (option (list loc))) : list loc := default [] (value n).

Lemma store_clear_loop_ok fuel : ∀ it (w : world R), map_ok (chunk_store w) → -1 ≤ it_bucket it → (length (remaining (chunk_store w) it) < fuel)%nat →
  (∀ n, n ∈ remaining (chunk_store w) it → to_gmap (chunk_store w) !! key n = Some (value n) ∧ is_Some (value n)) →
  NoDup (concat (entry_nodes <$> remaining (chunk_store w) it)) →
  (∀ x, x ∈ concat (entry_nodes <$> remaining (chunk_store w) it) → is_Some (nodes (w_heap w) !! x)) →
  wp (clear_loop fuel it) w (λ _ w', ∃ h', w' = set_heap h' w ∧ pruned (concat (entry_nodes <$> remaining (chunk_store w) it)) (w_heap w) h').
Proof.
  induction fuel as [|fuel IH]; intros it w Hok Hit Hf Hr Hnd Hl; [lia|]. simpl. apply wp_bind, wp_get.
  pose proof (map_next_ok (chunk_store w) it Hit) as Hn. destruct (map_next_ (chunk_store w) it) as [[k it']|].
  2: { rewrite Hn in *. apply wp_ret. exists (w_heap w). split; [by destruct w|]. split; try done. by intros x ?%not_elem_of_nil. }
  destruct Hn as (n & <- & Hrem & Hit'). rewrite Hrem in *. simpl in *. destruct (Hr n) as [Hn [qs Hqs]]; [left|].
  rewrite map_get_ok by done. rewrite Hn, Hqs. assert (entry_nodes n = qs) as E by (unfold entry_nodes; by rewrite Hqs).
  rewrite E in *. apply NoDup_app in Hnd as (Hnd1 & Hdis & Hnd2).
  apply wp_bind. eapply wp_mono; [apply free_stored_ok; [done|intros x Hx; apply Hl, elem_of_app; by left]|].
  intros [] w1 (h1 & -> & Hp). eapply wp_mono; [apply IH; simpl; try done; [lia| |]|].
  - intros n' Hn'. apply Hr. by right.
  - intros x Hx. rewrite (pr_same _ _ _ Hp); [apply Hl, elem_of_app; by right|]. intros Hx'. by apply (Hdis x).
  - intros [] w' (h' & -> & Hp'). exists h'. split; [done|]. by eapply pruned_app.
Qed.

Lemma NoDup_entry_nodes (P : string → loc → Prop) l :
  NoDup (key <$> l) → (∀ n, n ∈ l → NoDup (entry_nodes n) ∧ ∀ x, x ∈ entry_nodes n → P (key n) x) →
  (∀ k k' x, P k x → P k' x → k = k') → NoDup (concat (entry_nodes <$> l)).
Proof.
  intros Hnd Hl HP. induction l as [|n l IH]; [constructor|]. simpl in *. apply NoDup_cons in Hnd as [Hn Hnd].
  apply NoDup_app. destruct (Hl n) as [Hn1 Hn2]; [left|]. split; [done|]. split.
  - intros x Hx (l' & Hl' & Hx')%concat_elem. apply list_elem_of_fmap in Hl' as (n' & -> & Hn'). apply Hn.
    destruct (Hl n') as [_ Hn2']; [by right|]. rewrite (HP (key n) (key n') x); [by apply list_elem_of_fmap_2|by apply Hn2|by apply Hn2'].
  - apply IH; [done|]. intros n' Hn'. apply Hl. by right.
Qed.

Lemma indexed_empty (w : world R) : map_fit (seen_chunks w) → map_fit (chunk_store w) →
  to_gmap (seen_chunks w) = ∅ → to_gmap (chunk_store w) = ∅ → indexed known ∅ w.
Proof.
  intros H1 H2 E1 E2. split; try done.
  - intros k q. rewrite E1. split; [done|]. by intros (u & Hu & _).
  - intros k. rewrite E2. rewrite lookup_empty. by intros q u [=].
  - by rewrite E1.
  - by rewrite E2.
Qed.

Lemma store_inv_empty (w : world R) : heap_ok (w_heap w) → chunk_store w = map_init → seen_chunks w = map_init → store_inv known ∅ ∅ w.
Proof.
  intros Hok E1 E2. split; try done; [|by intros q [? ?]..]. rewrite (left_id_L ∅ (∪)).
  apply indexed_empty; rewrite ?E1, ?E2; done || apply map_init_fit.
Qed.

Lemma chunk_store_clear_ok V w : store_inv known V ∅ w →
  wp chunk_store_clear w (λ _ w', store_inv known ∅ ∅ w' ∧ (∀ x, is_Some (V !! x) → nodes (w_heap w') !! x = None) ∧
    (∀ x, V !! x = None → nodes (w_heap w') !! x = nodes (w_heap w) !! x) ∧
    trees (w_heap w') = trees (w_heap w) ∧ files (w_heap w') = files (w_heap w) ∧ same_config w w').
Proof.
  intros [I1 I2 I3 _ _]. rewrite (right_id_L ∅ (∪)) in I2. destruct I2 as [X1 X2 X3 X4 X5 X6 X7].
  pose proof (fit_ok _ X2) as Hok. set (m := chunk_store w).
  assert (∀ n, n ∈ entries m → to_gmap m !! key n = Some (value n)) as Hent.
  { intros n Hn. apply to_gmap_Some; [done|]. by apply (list_elem_of_fmap_2 pair_of). }
  assert (∀ n, n ∈ entries m → is_Some (value n) ∧ NoDup (entry_nodes n) ∧
    ∀ x, x ∈ entry_nodes n ↔ ∃ u, V !! x = Some u ∧ node_type_str (gid u) = key n) as Hlists.
  { intros n Hn%Hent. pose proof (X5 (key n)) as Hk. fold m in Hk. rewrite Hn in Hk. destruct Hk as (qs & Hqs & _ & Hnd & Hin).
    unfold entry_nodes. rewrite Hqs. by split_and!; [eexists|..]. }
  assert (remaining m map_iter_ = entries m) as Hrem by done.
  assert (∀ x, x ∈ concat (entry_nodes <$> entries m) ↔ is_Some (V !! x)) as Hall.
  { intros x. rewrite concat_elem. split.
    - intros (l & (n & -> & Hn)%list_elem_of_fmap & Hx). destruct (Hlists n Hn) as (_ & _ & Hin). apply Hin in Hx as (u & Hu & _). by eexists.
    - intros [u Hu]. specialize (X5 (node_type_str (gid u))). fold m in X5.
      destruct (to_gmap m !! node_type_str (gid u)) as [v|] eqn:Hv; [|by destruct (X5 x u Hu)].
      apply to_gmap_Some in Hv as (n & [= Ek Ev] & Hn)%list_elem_of_fmap; [|done]. exists (entry_nodes n). split; [by apply list_elem_of_fmap_2|].
      destruct (Hlists n Hn) as (_ & _ & Hin). apply Hin. by exists u. }
  unfold chunk_store_clear. apply wp_bind, wp_modify, wp_bind, wp_get, wp_bind.
  assert (S (length (entries (chunk_store (set_seen_chunks (map_deinit_ (seen_chunks w)) w)))) = S (length (entries m))) as -> by done.
  set (fuel := S (length (entries m))).
  eapply wp_mono; [apply store_clear_loop_ok; simpl; fold m; rewrite ?Hrem; try done|].
  - unfold fuel. lia.
  - intros n Hn. split; [by apply Hent|]. by destruct (Hlists n Hn).
  - apply (NoDup_entry_nodes (λ k x, ∃ u, V !! x = Some u ∧ node_type_str (gid u) = k)); [apply Hok| |].
    + intros n Hn. destruct (Hlists n Hn) as (_ & Hnd & Hin). split; [done|]. intros x. apply Hin.
    + intros k k' x (u & Hu & <-) (u' & Hu' & <-). congruence.
  - intros x [u Hu]%Hall. destruct (I3 x u Hu) as (lx & Hsx & _). eapply shape_lookup; [exact Hsx|by eapply shape_head].
  - intros [] w' (h' & -> & Hp). simpl in Hp. fold m in Hp. rewrite Hrem in Hp. apply wp_modify. simpl. split_and!; try done.
    + apply store_inv_empty; [simpl; by eapply pruned_ok|done|done].
    + intros x Hx. by apply (pr_gone _ _ _ Hp), Hall.
    + intros x Hx. apply (pr_same _ _ _ Hp). rewrite Hall, Hx. by intros [].
    + apply Hp.
    + apply Hp.
Qed.
(** C29. [chunk_store_add_tree] leaves the tree and all other memory as they are and
    keeps the store well-formed: it then holds every subtree of the tree, each
    distinct tree exactly once, and nothing but what it held before and those
    subtrees; the nodes of the copy that are not stored are freed again. *)
Theorem chunk_store_add_tree_correct V w T x p t ls :
  store_inv known V ∅ w → tree_in (w_heap w) T x p t ls → known t → zlen ls + Z.of_nat (size (nodes (w_heap w))) < 2 ^ 28 →
  ∃ w' V', chunk_store_add_tree (Some T) w = Ret (tt, w') ∧ store_inv known V' ∅ w' ∧ V ⊆ V' ∧
    (∀ π u, gget t π = Some u → ∃ q, V' !! q = Some u) ∧
    (∀ q u, V' !! q = Some u → V !! q = Some u ∨ ∃ π, gget t π = Some u) ∧
    (∀ q q' u, V' !! q = Some u → V' !! q' = Some u → q = q') ∧
    (∀ y, is_Some (nodes (w_heap w) !! y) → V !! y = None → nodes (w_heap w') !! y = nodes (w_heap w) !! y) ∧
    (∀ y, nodes (w_heap w) !! y = None → V' !! y = None → nodes (w_heap w') !! y = None) ∧
    trees (w_heap w') = trees (w_heap w) ∧ files (w_heap w') = files (w_heap w).
Proof.
  intros Hinv Ht Hk Hz. pose proof (chunk_store_add_tree_ok V w T x p t ls Hinv Ht Hk Hz) as Hw.
  apply wp_Ret in Hw as ([] & w' & Hrun & V' & q & Hinv' & Hsub & Hq & Honly & Hfr & Hno & Htr & Hfi & _).
  exists w', V'. split_and!; try done.
  - intros π u Hu. eapply closed_sub; [apply Hinv'|exact Hq|exact Hu].
  - intros q1 q2 u Hu1 Hu2. apply (indexed_unique (V' ∪ ∅) w' q1 q2 u); [apply Hinv'|by rewrite (right_id_L ∅ (∪))..].
Qed.

(** C30. [chunk_store_clear] frees every stored node, each once although the store
    shares them, touches no other memory, and leaves an empty store. *)
Theorem chunk_store_clear_correct V w :
  store_inv known V ∅ w →
  ∃ w', chunk_store_clear w = Ret (tt, w') ∧ store_inv known ∅ ∅ w' ∧
    (∀ x, is_Some (V !! x) → nodes (w_heap w') !! x = None) ∧
    (∀ x, V !! x = None → nodes (w_heap w') !! x = nodes (w_heap w) !! x) ∧
    trees (w_heap w') = trees (w_heap w) ∧ files (w_heap w') = files (w_heap w).
Proof.
  intros Hinv. pose proof (chunk_store_clear_ok V w Hinv) as Hw.
  apply wp_Ret in Hw as ([] & w' & Hrun & Hinv' & Hgone & Hsame & Ht & Hf & _). by exists w'.
Qed.
End Store.

(** ** The law of the store, from a grammar and its hash *)

(** No two different streams of the trees [U] have the same 64-bit hash. *)
Class DigestLaw `{!Digest} (U : gtree → Prop) := {
  digest_width l : in_width 64 (xxh3 l);
  digest_inj u v : U u → U v → xxh3 (hash_stream u) = xxh3 (hash_stream v) → hash_stream u = hash_stream v }.

Lemma grammar_store_law `{!Grammar R, !Digest} productions (U : gtree → Prop) `{!DigestLaw U} :
  (∀ u s, U u → Some s ∈ gsubs u → U s) →
  (∀ u, U u → counted u ∧ storable u ∧ ∃ s, typed productions s u) →
  (∀ u i, U u → node_type_str i = node_type_str (gid u) → i = gid u) → StoreLaw U.
Proof.
  intros Hsub HU Htype. split; [done|by intros u (_ & ? & _)%HU| |done].
  intros u v Hu Hv E. apply (uint64_to_hex_inj _ _ (digest_width (U := U) _) (digest_width (U := U) _)) in E.
  apply (digest_inj u v Hu Hv) in E.
  destruct (HU u Hu) as (Hc & Hst & s & Hs). destruct (HU v Hv) as (Hc' & Hst' & s' & Hs').
  apply strip_counted; [done|done|]. by eapply hash_stream_inj.
Qed.

(** ** Witnesses *)

(** What holds of a tree and of the subnodes of what it holds of holds of all subtrees. *)
Lemma gget_closed (P : gtree → Prop) : (∀ u s, P u → Some s ∈ gsubs u → P s) → ∀ π t u, P t → gget t π = Some u → P u.
Proof.
  intros HP π. induction π as [|j π IH]; intros t u Ht; [by intros [= <-]|]. simpl.
  destruct (gsubs t !! j) as [[s|]|] eqn:Hj; try done. apply IH. eapply HP; [done|]. by eapply list_elem_of_lookup_2.
Qed.

Lemma typed_subnode productions s t c : typed productions s t → Some c ∈ gsubs t → ∃ s', typed productions s' c.
Proof.
  intros Ht Hc. inversion Ht as [|? ? ? ? syms ts ? ? ? Hts]; subst; simpl in Hc; [by apply not_elem_of_nil in Hc|].
  apply list_elem_of_fmap in Hc as (? & [= ->] & Hc). apply list_elem_of_lookup in Hc as [j Hj].
  destruct (Forall2_lookup_r _ _ _ _ _ Hts Hj) as (s' & _ & Hs'). by exists s'.
Qed.

Fixpoint subtrees (t : gtree) : list gtree :=
  t :: (let 'GNode _ _ _ _ _ subs := t in flat_map (λ o, match o with Some s => subtrees s | None => [] end) subs).

Lemma gget_subtrees π : ∀ t u, gget t π = Some u → u ∈ subtrees t.
Proof.
  induction π as [|j π IH]; intros t u; simpl; [intros [= <-]; destruct t; left|].
  destruct (gsubs t !! j) as [[s|]|] eqn:Hj; try done. intros Hu%IH. destruct t as [i r v a b subs]. right. simpl in Hj.
  apply list_elem_of_In, in_flat_map. exists (Some s). split; [apply list_elem_of_In; by eapply list_elem_of_lookup_2|by apply list_elem_of_In].
Qed.

Definition sample_known (u : gtree) : Prop := ∃ π, gget sample_tree π = Some u.

#[local] Instance toy_digest : Digest := {| xxh3 := foldl (λ a b, (a * 257 + b + 1) mod 2 ^ 64) 0 |}.

Lemma toy_digest_distinct : forallb (λ u, forallb (λ v,
  negb (bool_decide (xxh3 (hash_stream u) = xxh3 (hash_stream v))) || bool_decide (hash_stream u = hash_stream v))
  (subtrees sample_tree)) (subtrees sample_tree) = true.
Proof. vm_compute. reflexivity. Qed.

#[local] Instance toy_digest_law : DigestLaw sample_known.
Proof.
  split.
  - intros l. unfold xxh3, toy_digest. assert (in_width 64 0) as H0 by (unfold in_width; lia). revert H0. generalize 0 as a.
    induction l as [|b l IH]; intros a Ha; [done|]. simpl. apply IH. unfold in_width. apply Z.mod_pos_bound. lia.
  - intros u v [πu Hu%gget_subtrees%list_elem_of_In] [πv Hv%gget_subtrees%list_elem_of_In] E. pose proof toy_digest_distinct as Hall.
    rewrite forallb_forall in Hall. specialize (Hall u Hu). rewrite forallb_forall in Hall. specialize (Hall v Hv).
    apply orb_prop in Hall as [Hn|Hn%bool_decide_eq_true]; [|done]. by rewrite bool_decide_eq_true_2 in Hn.
Qed.

#[local] Instance sample_store_law : StoreLaw (Grammar0 := toy_grammar (H := obliging)) sample_known.
Proof.
  apply (grammar_store_law toy_productions).
  - apply toy_digest_law.
  - intros u s [π Hu] [j Hj]%list_elem_of_lookup. exists (π ++ [j]). rewrite gget_app, Hu. simpl. by rewrite Hj.
  - intros u [π Hu]. refine (gget_closed (λ u, counted u ∧ storable u ∧ ∃ s, typed toy_productions s u) _ π sample_tree u _ Hu).
    + intros v s (Hc & Hst & sy & Hty) Hs. split_and!; [by eapply counted_sub|by apply (storable_inv v)|by eapply typed_subnode].
    + split_and!; [apply sample_counted|apply sample_storable|]. exists (NT 1). apply sample_typed.
  - intros u i [π Hu]. eapply (gall_gget (λ v, bool_decide (gid v = 0 ∨ gid v = 1 ∨ gid v = 2))) in Hu; [|reflexivity].
    apply bool_decide_eq_true in Hu as Hall. unfold node_type_str, toy_grammar.
    destruct Hall as [->|[->| ->]]; repeat case_decide; try done; by intros [=].
Qed.

Lemma sample_tree_in : tree_in sample_heap 9 (tree_at 1) 1 sample_tree sample_locs.
Proof. split; [done|done|apply sample_shape|apply sample_NoDup]. Qed.

Lemma sample_store_inv : store_inv (Grammar0 := toy_grammar (H := obliging)) sample_known ∅ ∅ toy_world.
Proof. apply store_inv_empty; [apply sample_heap_ok|done|done]. Qed.

Lemma chunk_store_add_tree_correct_witness :
  ∃ w' V', chunk_store_add_tree (H := obliging) (Grammar0 := toy_grammar (H := obliging)) (Some 9%positive) toy_world = Ret (tt, w') ∧
    (∀ π u, gget sample_tree π = Some u → ∃ q, V' !! q = Some u) ∧
    store_inv (Grammar0 := toy_grammar (H := obliging)) sample_known V' ∅ w'.
Proof.
  destruct (chunk_store_add_tree_correct (H := obliging) (λ _, eq_refl) (Grammar0 := toy_grammar (H := obliging)) sample_known
    ∅ toy_world 9 (tree_at 1) 1 sample_tree sample_locs) as (w' & V' & Hrun & Hinv & _ & Hall & _).
  - apply sample_store_inv.
  - apply sample_tree_in.
  - by exists [].
  - vm_compute. reflexivity.
  - exists w', V'. split; [exact Hrun|]. split; [exact Hall|exact Hinv].
Defined.

Lemma sample_added :
  ∃ w1 V', chunk_store_add_tree (H := obliging) (Grammar0 := toy_grammar (H := obliging)) (Some 9%positive) toy_world = Ret (tt, w1) ∧
    store_inv (Grammar0 := toy_grammar (H := obliging)) sample_known V' ∅ w1.
Proof.
  eassert (wp (chunk_store_add_tree (H := obliging) (Grammar0 := toy_grammar (H := obliging)) (Some 9%positive)) toy_world _) as Hw.
  { apply (chunk_store_add_tree_ok (H := obliging) (λ _, eq_refl) (Grammar0 := toy_grammar (H := obliging)) sample_known
      ∅ toy_world 9 (tree_at 1) 1 sample_tree sample_locs sample_store_inv sample_tree_in); [by exists []|reflexivity]. }
  revert Hw. unfold wp. destruct (chunk_store_add_tree _ _) as [[[] w1]| |]; [|intros []..].
  intros (V' & q & Hinv & _). exists w1, V'. split; [reflexivity|exact Hinv].
Qed.

(** A tree is added and the store is cleared again. *)
Lemma chunk_store_clear_correct_witness :
  ∃ w1 w2, chunk_store_add_tree (H := obliging) (Grammar0 := toy_grammar (H := obliging)) (Some 9%positive) toy_world = Ret (tt, w1) ∧
    chunk_store_clear w1 = Ret (tt, w2) ∧ store_inv (Grammar0 := toy_grammar (H := obliging)) sample_known ∅ ∅ w2.
Proof.
  destruct sample_added as (w1 & V' & Hrun & Hinv).
  destruct (chunk_store_clear_correct (Grammar0 := toy_grammar (H := obliging)) sample_known V' w1 Hinv) as (w2 & Hclear & Hinv2 & _).
  exists w1, w2. split; [exact Hrun|]. split; [exact Hclear|exact Hinv2].
Defined.
