(* ===== verification/Language.v ===== *)
(** * Language: what the mutations do to the text of a tree

    Exchanging subtrees of one type, and repeating the part between the ends of a
    recursion edge, keep a tree in the language of its grammar and bound the
    growth of its text. *)

From S2P Require Import Prelude Buffer Utils Tree TreeSpec TreeSizes TreeText TreePaths GrammarTypes StrMap World TreeGrafts RecursionSpec ToyGrammar.

(** ** The length of the text *)

Lemma flat_map_insert_length {A B} (f : A → list B) l j x y :
  l !! j = Some x → zlen (flat_map f (<[j := y]> l)) = zlen (flat_map f l) - zlen (f x) + zlen (f y).
Proof.
  intros Hj. apply lookup_lt_Some in Hj as Hlt. rewrite insert_take_drop by done.
  rewrite <- (take_drop_middle l j x Hj) at 3. rewrite !flat_map_app. simpl. rewrite !length_app. lia.
Qed.

Lemma flat_map_lookup_length {A B} (f : A → list B) l j x :
  l !! j = Some x → zlen (f x) ≤ zlen (flat_map f l).
Proof.
  intros Hj. rewrite <- (take_drop_middle l j x Hj), flat_map_app. simpl. rewrite !length_app. lia.
Qed.

Lemma gsubs_lookup_ne t j x : gsubs t !! j = Some x → gsubs t ≠ [].
Proof. intros Hj Hn. by rewrite Hn in Hj. Qed.

Lemma yield_set_sub t j s u :
  gsubs t !! j = Some (Some s) →
  zlen (yield (set_gsubs (<[j := Some u]> (gsubs t)) t)) = zlen (yield t) - zlen (yield s) + zlen (yield u).
Proof.
  intros Hj. rewrite (yield_eq t) by (by eapply gsubs_lookup_ne). rewrite (yield_eq (set_gsubs _ t)).
  - simpl. by rewrite (flat_map_insert_length _ _ _ (Some s)).
  - simpl. apply lookup_lt_Some in Hj. rewrite <- length_zero_iff_nil, length_insert. lia.
Qed.

Lemma yield_gget t : ∀ π v, gget t π = Some v → zlen (yield v) ≤ zlen (yield t).
Proof.
  intros π. revert t. induction π as [|j π IH]; intros t v; simpl; [by intros [= ->]|].
  destruct (gsubs t !! j) as [[s|]|] eqn:Hj; try done. intros Hv. etrans; [by apply IH|].
  rewrite (yield_eq t) by (by eapply gsubs_lookup_ne). by apply (flat_map_lookup_length (opt_list yield) _ j (Some s)).
Qed.

Lemma yield_gput t : ∀ π v u, gget t π = Some v →
  zlen (yield (gput t π u)) = zlen (yield t) - zlen (yield v) + zlen (yield u).
Proof.
  intros π. revert t. induction π as [|j π IH]; intros t v u; simpl; [intros [= ->]; lia|].
  destruct (gsubs t !! j) as [[s|]|] eqn:Hj; try done. intros Hv.
  rewrite (yield_set_sub t j s) by done. rewrite (IH s v u Hv). lia.
Qed.

(** ** The part between the ends of a recursion edge *)

Lemma plug_gput va k vb u : gsubs va !! k = Some (Some vb) → plug va k u = gput va [k] u.
Proof. intros Hk. simpl. by rewrite Hk. Qed.

Lemma gid_repeat va k vb N : gid va = gid vb → gid (Nat.iter N (plug va k) vb) = gid va.
Proof. intros Hid. by destruct N. Qed.

Lemma yield_repeat va k vb N : gsubs va !! k = Some (Some vb) →
  zlen (yield (Nat.iter N (plug va k) vb)) = Z.of_nat N * (zlen (yield va) - zlen (yield vb)) + zlen (yield vb).
Proof.
  intros Hk. induction N as [|N IH]; [change (Nat.iter 0 (plug va k) vb) with vb; lia|]. rewrite Nat.iter_succ. unfold plug at 1.
  rewrite (yield_set_sub va k vb) by done. rewrite IH. lia.
Qed.

Section Language.
Context (productions : Z → list (list symbol)).

(** A recursion edge of a typed tree starts at a non-terminal. *)
Lemma typed_edge_gid s t π va k vb :
  typed productions s t → gget t π = Some va → gsubs va !! k = Some (Some vb) → gid va = gid vb → gid va ≠ 0.
Proof.
  revert s π. induction t as [i r w a b subs IH] using gtree_ind'. intros s π Ht Hg Hk Hid.
  destruct π as [|j π].
  - injection Hg as <-. by inversion Ht; subst.
  - simpl in Hg. inversion Ht as [|? ? ? ? syms ts Hi Hr Hp Hts]; subst; [done|].
    rewrite list_lookup_fmap in Hg. destruct (ts !! j) as [u|] eqn:Hj; [|done]. simpl in Hg.
    destruct (Forall2_lookup_r _ _ _ _ _ Hts Hj) as (s' & _ & Hs').
    eapply (Forall_lookup_1 _ _ j (Some u)) in IH; [|by rewrite list_lookup_fmap, Hj]. by eapply IH.
Qed.

Lemma typed_repeat s t π va k vb N :
  typed productions s t → gget t π = Some va → gsubs va !! k = Some (Some vb) → gid va = gid vb →
  typed productions s (gput t π (Nat.iter N (plug va k) vb)).
Proof.
  intros Ht Hg Hk Hid. assert (gid va ≠ 0) as Hne by (by eapply typed_edge_gid).
  assert (typed productions (NT (gid va)) va) as Hva by (by eapply (typed_sub _ t)).
  assert (gget va [k] = Some vb) as Hgk by (simpl; by rewrite Hk).
  assert (typed productions (NT (gid va)) vb) as Hvb.
  { rewrite Hid. eapply (typed_sub _ va); [done|done|]. congruence. }
  eapply typed_gput; [done|done|done|]. induction N as [|N IH]; [done|].
  rewrite Nat.iter_succ, (plug_gput va k vb) by done. eapply typed_gput; [done|done|congruence|].
  by rewrite <- Hid.
Qed.
End Language.
