(* ===== verification/MutatorState.v ===== *)
(** * MutatorState: the per-instance data of the custom mutator

    [my_mutator] is [struct my_mutator] of Grammar-Mutator/include/custom_mutator.h
    (the unused [afl] pointer apart), with one update function per field. *)

From S2P Require Import Prelude Buffer Tree.

Record my_mutator := MyMutator {
  tree_out_dir_exist : bool;
  filename_cur : option string;
  tree_cur : ptr;
  mutated_tree : ptr;
  trimmed_tree : ptr;
  cur_trimming_stage : Z;
  trim_was_effective : bool;
  cur_subtree_trimming_step : Z;
  finished_subtree_trimming_nodes : Z;
  total_subtree_trimming_steps : Z;
  cur_recursive_trimming_step : Z;
  finished_recursive_trimming_edges : Z;
  total_recursive_trimming_steps : Z;
  cur_fuzzing_stage : Z;
  cur_fuzzing_step : Z;
  total_rules_mutation_steps : Z;
  total_random_mutation_steps : Z;
  total_random_recursive_mutation_steps : Z;
  total_splicing_mutation_steps : Z;
  cur_rules_mutation_node : ptr;
  cur_rules_mutation_rule_id : Z;
  fuzz_buf : buf;
  fuzz_size : Z;
  tree_fn_cur : string;
  new_tree_fn : string }.

(** [calloc(1, sizeof(my_mutator_t))]. *)
Definition zero_mutator : my_mutator :=
  MyMutator false None None None None 0 false 0 0 0 0 0 0 0 0 0 0 0 0 None 0 None 0 EmptyString EmptyString.

(** ** Field updates *)

Definition set_tree_out_dir_exist (v : bool) (d : my_mutator) : my_mutator :=
  MyMutator v (filename_cur d) (tree_cur d) (mutated_tree d) (trimmed_tree d) (cur_trimming_stage d)
    (trim_was_effective d) (cur_subtree_trimming_step d) (finished_subtree_trimming_nodes d)
    (total_subtree_trimming_steps d) (cur_recursive_trimming_step d) (finished_recursive_trimming_edges
    d) (total_recursive_trimming_steps d) (cur_fuzzing_stage d) (cur_fuzzing_step d)
    (total_rules_mutation_steps d) (total_random_mutation_steps d) (total_random_recursive_mutation_steps
    d) (total_splicing_mutation_steps d) (cur_rules_mutation_node d) (cur_rules_mutation_rule_id d)
    (fuzz_buf d) (fuzz_size d) (tree_fn_cur d) (new_tree_fn d).
Definition set_filename_cur (v : option string) (d : my_mutator) : my_mutator :=
  MyMutator (tree_out_dir_exist d) v (tree_cur d) (mutated_tree d) (trimmed_tree d) (cur_trimming_stage
    d) (trim_was_effective d) (cur_subtree_trimming_step d) (finished_subtree_trimming_nodes d)
    (total_subtree_trimming_steps d) (cur_recursive_trimming_step d) (finished_recursive_trimming_edges
    d) (total_recursive_trimming_steps d) (cur_fuzzing_stage d) (cur_fuzzing_step d)
    (total_rules_mutation_steps d) (total_random_mutation_steps d) (total_random_recursive_mutation_steps
    d) (total_splicing_mutation_steps d) (cur_rules_mutation_node d) (cur_rules_mutation_rule_id d)
    (fuzz_buf d) (fuzz_size d) (tree_fn_cur d) (new_tree_fn d).
Definition set_tree_cur (v : ptr) (d : my_mutator) : my_mutator :=
  MyMutator (tree_out_dir_exist d) (filename_cur d) v (mutated_tree d) (trimmed_tree d)
    (cur_trimming_stage d) (trim_was_effective d) (cur_subtree_trimming_step d)
    (finished_subtree_trimming_nodes d) (total_subtree_trimming_steps d) (cur_recursive_trimming_step d)
    (finished_recursive_trimming_edges d) (total_recursive_trimming_steps d) (cur_fuzzing_stage d)
    (cur_fuzzing_step d) (total_rules_mutation_steps d) (total_random_mutation_steps d)
    (total_random_recursive_mutation_steps d) (total_splicing_mutation_steps d) (cur_rules_mutation_node
    d) (cur_rules_mutation_rule_id d) (fuzz_buf d) (fuzz_size d) (tree_fn_cur d) (new_tree_fn d).
Definition set_mutated_tree (v : ptr) (d : my_mutator) : my_mutator :=
  MyMutator (tree_out_dir_exist d) (filename_cur d) (tree_cur d) v (trimmed_tree d) (cur_trimming_stage
    d) (trim_was_effective d) (cur_subtree_trimming_step d) (finished_subtree_trimming_nodes d)
    (total_subtree_trimming_steps d) (cur_recursive_trimming_step d) (finished_recursive_trimming_edges
    d) (total_recursive_trimming_steps d) (cur_fuzzing_stage d) (cur_fuzzing_step d)
    (total_rules_mutation_steps d) (total_random_mutation_steps d) (total_random_recursive_mutation_steps
    d) (total_splicing_mutation_steps d) (cur_rules_mutation_node d) (cur_rules_mutation_rule_id d)
    (fuzz_buf d) (fuzz_size d) (tree_fn_cur d) (new_tree_fn d).
Definition set_trimmed_tree (v : ptr) (d : my_mutator) : my_mutator :=
  MyMutator (tree_out_dir_exist d) (filename_cur d) (tree_cur d) (mutated_tree d) v (cur_trimming_stage
    d) (trim_was_effective d) (cur_subtree_trimming_step d) (finished_subtree_trimming_nodes d)
    (total_subtree_trimming_steps d) (cur_recursive_trimming_step d) (finished_recursive_trimming_edges
    d) (total_recursive_trimming_steps d) (cur_fuzzing_stage d) (cur_fuzzing_step d)
    (total_rules_mutation_steps d) (total_random_mutation_steps d) (total_random_recursive_mutation_steps
    d) (total_splicing_mutation_steps d) (cur_rules_mutation_node d) (cur_rules_mutation_rule_id d)
    (fuzz_buf d) (fuzz_size d) (tree_fn_cur d) (new_tree_fn d).
Definition set_cur_trimming_stage (v : Z) (d : my_mutator) : my_mutator :=
  MyMutator (tree_out_dir_exist d) (filename_cur d) (tree_cur d) (mutated_tree d) (trimmed_tree d) v
    (trim_was_effective d) (cur_subtree_trimming_step d) (finished_subtree_trimming_nodes d)
    (total_subtree_trimming_steps d) (cur_recursive_trimming_step d) (finished_recursive_trimming_edges
    d) (total_recursive_trimming_steps d) (cur_fuzzing_stage d) (cur_fuzzing_step d)
    (total_rules_mutation_steps d) (total_random_mutation_steps d) (total_random_recursive_mutation_steps
    d) (total_splicing_mutation_steps d) (cur_rules_mutation_node d) (cur_rules_mutation_rule_id d)
    (fuzz_buf d) (fuzz_size d) (tree_fn_cur d) (new_tree_fn d).
Definition set_trim_was_effective (v : bool) (d : my_mutator) : my_mutator :=
  MyMutator (tree_out_dir_exist d) (filename_cur d) (tree_cur d) (mutated_tree d) (trimmed_tree d)
    (cur_trimming_stage d) v (cur_subtree_trimming_step d) (finished_subtree_trimming_nodes d)
    (total_subtree_trimming_steps d) (cur_recursive_trimming_step d) (finished_recursive_trimming_edges
    d) (total_recursive_trimming_steps d) (cur_fuzzing_stage d) (cur_fuzzing_step d)
    (total_rules_mutation_steps d) (total_random_mutation_steps d) (total_random_recursive_mutation_steps
    d) (total_splicing_mutation_steps d) (cur_rules_mutation_node d) (cur_rules_mutation_rule_id d)
    (fuzz_buf d) (fuzz_size d) (tree_fn_cur d) (new_tree_fn d).
Definition set_cur_subtree_trimming_step (v : Z) (d : my_mutator) : my_mutator :=
  MyMutator (tree_out_dir_exist d) (filename_cur d) (tree_cur d) (mutated_tree d) (trimmed_tree d)
    (cur_trimming_stage d) (trim_was_effective d) v (finished_subtree_trimming_nodes d)
    (total_subtree_trimming_steps d) (cur_recursive_trimming_step d) (finished_recursive_trimming_edges
    d) (total_recursive_trimming_steps d) (cur_fuzzing_stage d) (cur_fuzzing_step d)
    (total_rules_mutation_steps d) (total_random_mutation_steps d) (total_random_recursive_mutation_steps
    d) (total_splicing_mutation_steps d) (cur_rules_mutation_node d) (cur_rules_mutation_rule_id d)
    (fuzz_buf d) (fuzz_size d) (tree_fn_cur d) (new_tree_fn d).
Definition set_finished_subtree_trimming_nodes (v : Z) (d : my_mutator) : my_mutator :=
  MyMutator (tree_out_dir_exist d) (filename_cur d) (tree_cur d) (mutated_tree d) (trimmed_tree d)
    (cur_trimming_stage d) (trim_was_effective d) (cur_subtree_trimming_step d) v
    (total_subtree_trimming_steps d) (cur_recursive_trimming_step d) (finished_recursive_trimming_edges
    d) (total_recursive_trimming_steps d) (cur_fuzzing_stage d) (cur_fuzzing_step d)
    (total_rules_mutation_steps d) (total_random_mutation_steps d) (total_random_recursive_mutation_steps
    d) (total_splicing_mutation_steps d) (cur_rules_mutation_node d) (cur_rules_mutation_rule_id d)
    (fuzz_buf d) (fuzz_size d) (tree_fn_cur d) (new_tree_fn d).
Definition set_total_subtree_trimming_steps (v : Z) (d : my_mutator) : my_mutator :=
  MyMutator (tree_out_dir_exist d) (filename_cur d) (tree_cur d) (mutated_tree d) (trimmed_tree d)
    (cur_trimming_stage d) (trim_was_effective d) (cur_subtree_trimming_step d)
    (finished_subtree_trimming_nodes d) v (cur_recursive_trimming_step d)
    (finished_recursive_trimming_edges d) (total_recursive_trimming_steps d) (cur_fuzzing_stage d)
    (cur_fuzzing_step d) (total_rules_mutation_steps d) (total_random_mutation_steps d)
    (total_random_recursive_mutation_steps d) (total_splicing_mutation_steps d) (cur_rules_mutation_node
    d) (cur_rules_mutation_rule_id d) (fuzz_buf d) (fuzz_size d) (tree_fn_cur d) (new_tree_fn d).
Definition set_cur_recursive_trimming_step (v : Z) (d : my_mutator) : my_mutator :=
  MyMutator (tree_out_dir_exist d) (filename_cur d) (tree_cur d) (mutated_tree d) (trimmed_tree d)
    (cur_trimming_stage d) (trim_was_effective d) (cur_subtree_trimming_step d)
    (finished_subtree_trimming_nodes d) (total_subtree_trimming_steps d) v
    (finished_recursive_trimming_edges d) (total_recursive_trimming_steps d) (cur_fuzzing_stage d)
    (cur_fuzzing_step d) (total_rules_mutation_steps d) (total_random_mutation_steps d)
    (total_random_recursive_mutation_steps d) (total_splicing_mutation_steps d) (cur_rules_mutation_node
    d) (cur_rules_mutation_rule_id d) (fuzz_buf d) (fuzz_size d) (tree_fn_cur d) (new_tree_fn d).
Definition set_finished_recursive_trimming_edges (v : Z) (d : my_mutator) : my_mutator :=
  MyMutator (tree_out_dir_exist d) (filename_cur d) (tree_cur d) (mutated_tree d) (trimmed_tree d)
    (cur_trimming_stage d) (trim_was_effective d) (cur_subtree_trimming_step d)
    (finished_subtree_trimming_nodes d) (total_subtree_trimming_steps d) (cur_recursive_trimming_step d)
    v (total_recursive_trimming_steps d) (cur_fuzzing_stage d) (cur_fuzzing_step d)
    (total_rules_mutation_steps d) (total_random_mutation_steps d) (total_random_recursive_mutation_steps
    d) (total_splicing_mutation_steps d) (cur_rules_mutation_node d) (cur_rules_mutation_rule_id d)
    (fuzz_buf d) (fuzz_size d) (tree_fn_cur d) (new_tree_fn d).
Definition set_total_recursive_trimming_steps (v : Z) (d : my_mutator) : my_mutator :=
  MyMutator (tree_out_dir_exist d) (filename_cur d) (tree_cur d) (mutated_tree d) (trimmed_tree d)
    (cur_trimming_stage d) (trim_was_effective d) (cur_subtree_trimming_step d)
    (finished_subtree_trimming_nodes d) (total_subtree_trimming_steps d) (cur_recursive_trimming_step d)
    (finished_recursive_trimming_edges d) v (cur_fuzzing_stage d) (cur_fuzzing_step d)
    (total_rules_mutation_steps d) (total_random_mutation_steps d) (total_random_recursive_mutation_steps
    d) (total_splicing_mutation_steps d) (cur_rules_mutation_node d) (cur_rules_mutation_rule_id d)
    (fuzz_buf d) (fuzz_size d) (tree_fn_cur d) (new_tree_fn d).
Definition set_cur_fuzzing_stage (v : Z) (d : my_mutator) : my_mutator :=
  MyMutator (tree_out_dir_exist d) (filename_cur d) (tree_cur d) (mutated_tree d) (trimmed_tree d)
    (cur_trimming_stage d) (trim_was_effective d) (cur_subtree_trimming_step d)
    (finished_subtree_trimming_nodes d) (total_subtree_trimming_steps d) (cur_recursive_trimming_step d)
    (finished_recursive_trimming_edges d) (total_recursive_trimming_steps d) v (cur_fuzzing_step d)
    (total_rules_mutation_steps d) (total_random_mutation_steps d) (total_random_recursive_mutation_steps
    d) (total_splicing_mutation_steps d) (cur_rules_mutation_node d) (cur_rules_mutation_rule_id d)
    (fuzz_buf d) (fuzz_size d) (tree_fn_cur d) (new_tree_fn d).
Definition set_cur_fuzzing_step (v : Z) (d : my_mutator) : my_mutator :=
  MyMutator (tree_out_dir_exist d) (filename_cur d) (tree_cur d) (mutated_tree d) (trimmed_tree d)
    (cur_trimming_stage d) (trim_was_effective d) (cur_subtree_trimming_step d)
    (finished_subtree_trimming_nodes d) (total_subtree_trimming_steps d) (cur_recursive_trimming_step d)
    (finished_recursive_trimming_edges d) (total_recursive_trimming_steps d) (cur_fuzzing_stage d) v
    (total_rules_mutation_steps d) (total_random_mutation_steps d) (total_random_recursive_mutation_steps
    d) (total_splicing_mutation_steps d) (cur_rules_mutation_node d) (cur_rules_mutation_rule_id d)
    (fuzz_buf d) (fuzz_size d) (tree_fn_cur d) (new_tree_fn d).
Definition set_total_rules_mutation_steps (v : Z) (d : my_mutator) : my_mutator :=
  MyMutator (tree_out_dir_exist d) (filename_cur d) (tree_cur d) (mutated_tree d) (trimmed_tree d)
    (cur_trimming_stage d) (trim_was_effective d) (cur_subtree_trimming_step d)
    (finished_subtree_trimming_nodes d) (total_subtree_trimming_steps d) (cur_recursive_trimming_step d)
    (finished_recursive_trimming_edges d) (total_recursive_trimming_steps d) (cur_fuzzing_stage d)
    (cur_fuzzing_step d) v (total_random_mutation_steps d) (total_random_recursive_mutation_steps d)
    (total_splicing_mutation_steps d) (cur_rules_mutation_node d) (cur_rules_mutation_rule_id d)
    (fuzz_buf d) (fuzz_size d) (tree_fn_cur d) (new_tree_fn d).
Definition set_total_random_mutation_steps (v : Z) (d : my_mutator) : my_mutator :=
  MyMutator (tree_out_dir_exist d) (filename_cur d) (tree_cur d) (mutated_tree d) (trimmed_tree d)
    (cur_trimming_stage d) (trim_was_effective d) (cur_subtree_trimming_step d)
    (finished_subtree_trimming_nodes d) (total_subtree_trimming_steps d) (cur_recursive_trimming_step d)
    (finished_recursive_trimming_edges d) (total_recursive_trimming_steps d) (cur_fuzzing_stage d)
    (cur_fuzzing_step d) (total_rules_mutation_steps d) v (total_random_recursive_mutation_steps d)
    (total_splicing_mutation_steps d) (cur_rules_mutation_node d) (cur_rules_mutation_rule_id d)
    (fuzz_buf d) (fuzz_size d) (tree_fn_cur d) (new_tree_fn d).
Definition set_total_random_recursive_mutation_steps (v : Z) (d : my_mutator) : my_mutator :=
  MyMutator (tree_out_dir_exist d) (filename_cur d) (tree_cur d) (mutated_tree d) (trimmed_tree d)
    (cur_trimming_stage d) (trim_was_effective d) (cur_subtree_trimming_step d)
    (finished_subtree_trimming_nodes d) (total_subtree_trimming_steps d) (cur_recursive_trimming_step d)
    (finished_recursive_trimming_edges d) (total_recursive_trimming_steps d) (cur_fuzzing_stage d)
    (cur_fuzzing_step d) (total_rules_mutation_steps d) (total_random_mutation_steps d) v
    (total_splicing_mutation_steps d) (cur_rules_mutation_node d) (cur_rules_mutation_rule_id d)
    (fuzz_buf d) (fuzz_size d) (tree_fn_cur d) (new_tree_fn d).
Definition set_total_splicing_mutation_steps (v : Z) (d : my_mutator) : my_mutator :=
  MyMutator (tree_out_dir_exist d) (filename_cur d) (tree_cur d) (mutated_tree d) (trimmed_tree d)
    (cur_trimming_stage d) (trim_was_effective d) (cur_subtree_trimming_step d)
    (finished_subtree_trimming_nodes d) (total_subtree_trimming_steps d) (cur_recursive_trimming_step d)
    (finished_recursive_trimming_edges d) (total_recursive_trimming_steps d) (cur_fuzzing_stage d)
    (cur_fuzzing_step d) (total_rules_mutation_steps d) (total_random_mutation_steps d)
    (total_random_recursive_mutation_steps d) v (cur_rules_mutation_node d) (cur_rules_mutation_rule_id
    d) (fuzz_buf d) (fuzz_size d) (tree_fn_cur d) (new_tree_fn d).
Definition set_cur_rules_mutation_node (v : ptr) (d : my_mutator) : my_mutator :=
  MyMutator (tree_out_dir_exist d) (filename_cur d) (tree_cur d) (mutated_tree d) (trimmed_tree d)
    (cur_trimming_stage d) (trim_was_effective d) (cur_subtree_trimming_step d)
    (finished_subtree_trimming_nodes d) (total_subtree_trimming_steps d) (cur_recursive_trimming_step d)
    (finished_recursive_trimming_edges d) (total_recursive_trimming_steps d) (cur_fuzzing_stage d)
    (cur_fuzzing_step d) (total_rules_mutation_steps d) (total_random_mutation_steps d)
    (total_random_recursive_mutation_steps d) (total_splicing_mutation_steps d) v
    (cur_rules_mutation_rule_id d) (fuzz_buf d) (fuzz_size d) (tree_fn_cur d) (new_tree_fn d).
Definition set_cur_rules_mutation_rule_id (v : Z) (d : my_mutator) : my_mutator :=
  MyMutator (tree_out_dir_exist d) (filename_cur d) (tree_cur d) (mutated_tree d) (trimmed_tree d)
    (cur_trimming_stage d) (trim_was_effective d) (cur_subtree_trimming_step d)
    (finished_subtree_trimming_nodes d) (total_subtree_trimming_steps d) (cur_recursive_trimming_step d)
    (finished_recursive_trimming_edges d) (total_recursive_trimming_steps d) (cur_fuzzing_stage d)
    (cur_fuzzing_step d) (total_rules_mutation_steps d) (total_random_mutation_steps d)
    (total_random_recursive_mutation_steps d) (total_splicing_mutation_steps d) (cur_rules_mutation_node
    d) v (fuzz_buf d) (fuzz_size d) (tree_fn_cur d) (new_tree_fn d).
Definition set_fuzz_buf (v : buf) (d : my_mutator) : my_mutator :=
  MyMutator (tree_out_dir_exist d) (filename_cur d) (tree_cur d) (mutated_tree d) (trimmed_tree d)
    (cur_trimming_stage d) (trim_was_effective d) (cur_subtree_trimming_step d)
    (finished_subtree_trimming_nodes d) (total_subtree_trimming_steps d) (cur_recursive_trimming_step d)
    (finished_recursive_trimming_edges d) (total_recursive_trimming_steps d) (cur_fuzzing_stage d)
    (cur_fuzzing_step d) (total_rules_mutation_steps d) (total_random_mutation_steps d)
    (total_random_recursive_mutation_steps d) (total_splicing_mutation_steps d) (cur_rules_mutation_node
    d) (cur_rules_mutation_rule_id d) v (fuzz_size d) (tree_fn_cur d) (new_tree_fn d).
Definition set_fuzz_size (v : Z) (d : my_mutator) : my_mutator :=
  MyMutator (tree_out_dir_exist d) (filename_cur d) (tree_cur d) (mutated_tree d) (trimmed_tree d)
    (cur_trimming_stage d) (trim_was_effective d) (cur_subtree_trimming_step d)
    (finished_subtree_trimming_nodes d) (total_subtree_trimming_steps d) (cur_recursive_trimming_step d)
    (finished_recursive_trimming_edges d) (total_recursive_trimming_steps d) (cur_fuzzing_stage d)
    (cur_fuzzing_step d) (total_rules_mutation_steps d) (total_random_mutation_steps d)
    (total_random_recursive_mutation_steps d) (total_splicing_mutation_steps d) (cur_rules_mutation_node
    d) (cur_rules_mutation_rule_id d) (fuzz_buf d) v (tree_fn_cur d) (new_tree_fn d).
Definition set_tree_fn_cur (v : string) (d : my_mutator) : my_mutator :=
  MyMutator (tree_out_dir_exist d) (filename_cur d) (tree_cur d) (mutated_tree d) (trimmed_tree d)
    (cur_trimming_stage d) (trim_was_effective d) (cur_subtree_trimming_step d)
    (finished_subtree_trimming_nodes d) (total_subtree_trimming_steps d) (cur_recursive_trimming_step d)
    (finished_recursive_trimming_edges d) (total_recursive_trimming_steps d) (cur_fuzzing_stage d)
    (cur_fuzzing_step d) (total_rules_mutation_steps d) (total_random_mutation_steps d)
    (total_random_recursive_mutation_steps d) (total_splicing_mutation_steps d) (cur_rules_mutation_node
    d) (cur_rules_mutation_rule_id d) (fuzz_buf d) (fuzz_size d) v (new_tree_fn d).
Definition set_new_tree_fn (v : string) (d : my_mutator) : my_mutator :=
  MyMutator (tree_out_dir_exist d) (filename_cur d) (tree_cur d) (mutated_tree d) (trimmed_tree d)
    (cur_trimming_stage d) (trim_was_effective d) (cur_subtree_trimming_step d)
    (finished_subtree_trimming_nodes d) (total_subtree_trimming_steps d) (cur_recursive_trimming_step d)
    (finished_recursive_trimming_edges d) (total_recursive_trimming_steps d) (cur_fuzzing_stage d)
    (cur_fuzzing_step d) (total_rules_mutation_steps d) (total_random_mutation_steps d)
    (total_random_recursive_mutation_steps d) (total_splicing_mutation_steps d) (cur_rules_mutation_node
    d) (cur_rules_mutation_rule_id d) (fuzz_buf d) (fuzz_size d) (tree_fn_cur d) v.
