(* ===== verification/GrammarMutator.v ===== *)
(** * GrammarMutator: the AFL++ custom-mutator entry points of
    Grammar-Mutator/src/grammar_mutator.c

    The handlers share [my_mutator] and the [world]; each is a definition of the
    same name in the state monad over [driver]. *)

From Stdlib Require Import Ascii.
From S2P Require Import Prelude Buffer Utils Tree TreeSpec StrMap World ChunkStore TreeMutation MutatorState.

Record driver (R : Type) := Driver {
  d_world : world R;
  d_data : option my_mutator;
  d_dirs : gset string;
  default_random_mutation_steps : Z;
  default_random_recursive_mutation_steps : Z;
  default_splicing_mutation_steps : Z }.
Arguments Driver {R} d_world d_data d_dirs default_random_mutation_steps
  default_random_recursive_mutation_steps default_splicing_mutation_steps.
Arguments d_world {R} d.
Arguments d_data {R} d.
Arguments d_dirs {R} d.
Arguments default_random_mutation_steps {R} d.
Arguments default_random_recursive_mutation_steps {R} d.
Arguments default_splicing_mutation_steps {R} d.

Section State.
Context {R : Type}.

Definition set_world (w : world R) (d : driver R) : driver R :=
  Driver w (d_data d) (d_dirs d) (default_random_mutation_steps d)
    (default_random_recursive_mutation_steps d) (default_splicing_mutation_steps d).
Definition set_data (x : option my_mutator) (d : driver R) : driver R :=
  Driver (d_world d) x (d_dirs d) (default_random_mutation_steps d)
    (default_random_recursive_mutation_steps d) (default_splicing_mutation_steps d).
Definition set_dirs (x : gset string) (d : driver R) : driver R :=
  Driver (d_world d) (d_data d) x (default_random_mutation_steps d)
    (default_random_recursive_mutation_steps d) (default_splicing_mutation_steps d).

Definition in_world {A} (m : M (world R) A) : M (driver R) A := λ d,
  match m (d_world d) with
  | Ret (a, w) => Ret (a, set_world w d)
  | Fault e => Fault e
  | NoFuel => NoFuel
  end.

(** Heap code run from a handler. *)
Definition in_heap {A} (m : M heap A) : M (driver R) A := in_world (on_heap m).

(** [data->...] read and written. *)
Definition get_data : M (driver R) my_mutator := λ d,
  match d_data d with Some x => Ret (x, d) | None => Fault NullDeref end.
Definition upd (f : my_mutator → my_mutator) : M (driver R) unit := λ d,
  match d_data d with Some x => Ret (tt, set_data (Some (f x)) d) | None => Fault NullDeref end.

(** [calloc] and [free] of the structure. *)
Definition put_data (x : option my_mutator) : M (driver R) unit := λ d, Ret (tt, set_data x d).
End State.

(** ** Strings *)

Abbreviation chars := (list Ascii.ascii).

(** The index of the last occurrence, [strrchr]. *)
Fixpoint strrchr (s : chars) (c : Ascii.ascii) : option nat :=
  match s with
  | [] => None
  | x :: s => match strrchr s c with
              | Some i => Some (S i)
              | None => if decide (x = c) then Some O else None
              end
  end.

(** The suffix from the first occurrence on, [strstr]. *)
Fixpoint strstr (hay needle : chars) : option chars :=
  if decide (needle `prefix_of` hay) then Some hay else
  match hay with
  | [] => None
  | _ :: hay => strstr hay needle
  end.

Definition text (s : string) : chars := String.list_ascii_of_string s.
Definition untext (s : chars) : string := String.string_of_list_ascii s.

Definition PATH_MAX : nat := 4096.

(** What [snprintf(dst, PATH_MAX - 1, ...)] stores. *)
Definition snprintf_path (s : chars) : string := untext (take (PATH_MAX - 2) s).

(** The four outcomes of the path analysis of [afl_custom_queue_get]: no slash,
    no parent folder, a folder that is neither [queue] nor [_resume], or the
    folder and the name of the tree file. *)
Inductive queue_path := NoFolder | NoParent | Elsewhere | InQueue (tree_out_dir tree_fn : string).

Definition queue_path_of (filename : string) : queue_path :=
  let fn := text filename in
  match strrchr fn "/"%char with
  | None => NoFolder
  | Some slash =>
      let slash_basename := drop slash fn in
      let use_name := match strstr slash_basename (text ",orig:") with
                      | Some s => drop 6 s
                      | None => drop 1 slash_basename
                      end in
      let tree_out_dir := take slash fn in
      match strrchr tree_out_dir "/"%char with
      | None => NoParent
      | Some k =>
          let last_dir := drop k tree_out_dir in
          if decide (last_dir ≠ text "/queue" ∧ last_dir ≠ text "/_resume") then Elsewhere
          else let dir := take k tree_out_dir ++ text "/trees" in
               InQueue (untext dir) (snprintf_path (dir ++ text "/" ++ use_name))
      end
  end.

(** ** The environment *)

Definition is_space (c : Ascii.ascii) : bool :=
  let n := Ascii.nat_of_ascii c in bool_decide (n = 32 ∨ 9 ≤ n ≤ 13)%nat.
Definition digit_of (c : Ascii.ascii) : option Z :=
  let n := Z.of_nat (Ascii.nat_of_ascii c) in if decide (48 ≤ n ≤ 57) then Some (n - 48) else None.

Fixpoint digits_value (acc : Z) (s : chars) : Z :=
  match s with
  | [] => acc
  | c :: s => match digit_of c with Some d => digits_value (10 * acc + d) s | None => acc end
  end.

Fixpoint skip_space (s : chars) : chars :=
  match s with
  | [] => []
  | c :: s' => if is_space c then skip_space s' else s
  end.

(** [strtol(s, NULL, 10)] of the C library: white space, a sign, digits,
    saturating at the bounds of [long]. *)
Definition strtol (s : string) : Z :=
  let v := match skip_space (text s) with
           | c :: s' => if decide (c = "-"%char) then - digits_value 0 s'
                        else if decide (c = "+"%char) then digits_value 0 s'
                        else digits_value 0 (c :: s')
           | [] => 0
           end in
  Z.max (- 2 ^ 63) (Z.min (2 ^ 63 - 1) v).

(** One round of the loop of [load_env_configs]. *)
Definition env_config (getenv : string → option string) (name : string) (default : Z) : Z :=
  match getenv name with
  | Some EmptyString | None => default
  | Some v => u64 (strtol v)
  end.

Section Driver.
Context `{Host} {R : Type} `{!Random R, !Grammar R, !Digest}.

Definition load_env_configs (getenv : string → option string) : M (driver R) unit := λ d,
  Ret (tt, Driver (d_world d) (d_data d) (d_dirs d)
    (env_config getenv "RANDOM_MUTATION_STEPS" (default_random_mutation_steps d))
    (env_config getenv "RANDOM_RECURSIVE_MUTATION_STEPS" (default_random_recursive_mutation_steps d))
    (env_config getenv "SPLICING_MUTATION_STEPS" (default_splicing_mutation_steps d))).

(** [afl_custom_init]; [reseed] is [random_set_seed] on the generator in use,
    the result says whether the structure was allocated. *)
Definition afl_custom_init (reseed : Z → R) (getenv : string → option string) (seed : Z) : M (driver R) bool :=
  _ ← in_world (modify (set_rng (reseed seed)));
  _ ← load_env_configs getenv;
  _ ← in_world chunk_store_init;
  ok ← in_heap request;
  if negb ok then mret false else
  _ ← put_data (Some zero_mutator);
  mret true.

Definition free_tree_of (t : ptr) : M (driver R) unit :=
  match t with None => mret tt | Some _ => in_heap (tree_free t) end.

(** [afl_custom_deinit]; the assignments to fields of the structure that is
    freed right after them are not observable. *)
Definition afl_custom_deinit : M (driver R) unit :=
  x ← get_data;
  _ ← free_tree_of (tree_cur x);
  _ ← free_tree_of (mutated_tree x);
  _ ← free_tree_of (trimmed_tree x);
  _ ← put_data None;
  in_world chunk_store_clear.

(** [create_directory] of utils.c: [stat], then [mkdir] when nothing is there. *)
Definition create_directory (path : string) : M (driver R) bool :=
  d ← get_state;
  if decide (path ∈ d_dirs d) then mret true else
  match files (w_heap (d_world d)) !! path with
  | Some _ => mret false
  | None =>
      ok ← in_heap request;
      if negb ok then mret false else
      d ← get_state;
      _ ← put_state (set_dirs ({[ path ]} ∪ d_dirs d) d);
      mret true
  end.

(** The parsing half of [afl_custom_queue_get]. *)
Definition queue_get_parse (filename : string) : M (driver R) Z :=
  t ← in_heap (load_tree_from_test_case tree_from_buf filename);
  _ ← upd (set_tree_cur t);
  match t with
  | None => mret 0
  | Some _ =>
      _ ← in_heap (tree_get_size t);
      x ← get_data;
      _ ← (if decide (tree_fn_cur x = EmptyString) then mret tt
           else in_heap (write_tree_to_file t (tree_fn_cur x)));
      _ ← in_world (chunk_store_add_tree t);
      mret 1
  end.

(** From [strlen(data->tree_fn_cur)] on. *)
Definition queue_get_load (filename : string) : M (driver R) Z :=
  x ← get_data;
  if decide (tree_fn_cur x = EmptyString) then queue_get_parse filename else
  t ← in_heap (read_tree_from_file (tree_fn_cur x));
  _ ← upd (set_tree_cur t);
  match t with
  | None => queue_get_parse filename
  | Some _ =>
      _ ← in_heap (tree_get_size t);
      _ ← in_world (chunk_store_add_tree t);
      mret 1
  end.

Definition afl_custom_queue_get (filename : string) : M (driver R) Z :=
  _ ← upd (set_filename_cur (Some filename));
  x ← get_data;
  _ ← free_tree_of (tree_cur x);
  _ ← upd (set_tree_cur None);
  match queue_path_of filename with
  | NoFolder | NoParent => mret 0
  | Elsewhere =>
      _ ← upd (set_tree_fn_cur EmptyString);
      queue_get_load filename
  | InQueue tree_out_dir tree_fn =>
      _ ← upd (set_tree_fn_cur tree_fn);
      ok ← (if tree_out_dir_exist x then mret true else create_directory tree_out_dir);
      if negb ok then mret 0 else queue_get_load filename
  end.

(** ** Trimming *)

Definition afl_custom_init_trim : M (driver R) Z :=
  x ← get_data;
  match tree_cur x with
  | None => mret 0
  | Some _ =>
      _ ← in_heap (tree_get_non_terminal_nodes (tree_cur x));
      _ ← in_heap (tree_get_recursion_edges (tree_cur x));
      t ← in_heap (load_tree (tree_cur x));
      n ← in_heap (load (root t));
      _ ← upd (λ x, set_cur_trimming_stage 0 (set_trim_was_effective false
             (set_cur_subtree_trimming_step 0 (set_finished_subtree_trimming_nodes 0
             (set_total_subtree_trimming_steps (non_term_size n)
             (set_cur_recursive_trimming_step 0 (set_finished_recursive_trimming_edges 0
             (set_total_recursive_trimming_steps (recursion_edge_size n) x))))))));
      mret (i32 (u64 (non_term_size n + recursion_edge_size n)))
  end.

(** [list_pop_front] of the two lists of a tree: NULL on a missing or empty list. *)
Definition pop_non_terminal (t : ptr) : M heap ptr :=
  x ← load_tree t;
  match non_terminal_node_list x with
  | Some (n :: l) => _ ← store_tree t (set_non_terminal_node_list (Some l)); mret (Some n)
  | _ => mret None
  end.
Definition pop_recursion_edge (t : ptr) : M heap (option edge) :=
  x ← load_tree t;
  match recursion_edge_list x with
  | Some (e :: l) => _ ← store_tree t (set_recursion_edge_list (Some l)); mret (Some e)
  | _ => mret None
  end.

(** The end of [afl_custom_trim] and [afl_custom_fuzz]: [len] bytes of the tree
    text are copied to [data->fuzz_buf]; returns [len] and whether [*out_buf] is
    that buffer, or 0 and NULL. *)
Definition output_tree (t : ptr) (len : Z) : M (driver R) (Z * bool) :=
  x ← get_data;
  bs ← in_heap (grow (fuzz_buf x) (fuzz_size x) len);
  _ ← upd (λ x, set_fuzz_buf bs.1 (set_fuzz_size bs.2 x));
  match bs.1 with
  | None => mret (0, false)
  | Some dst =>
      y ← in_heap (load_tree t);
      dst' ← in_heap (append_bytes dst 0 (data_buf y) len);
      _ ← upd (set_fuzz_buf (Some dst'));
      mret (len, true)
  end.

Definition afl_custom_trim : M (driver R) (Z * bool) :=
  x ← get_data;
  trimmed ← (if decide (cur_trimming_stage x = 0) then
               node ← in_heap (pop_non_terminal (tree_cur x));
               t ← in_world (subtree_trimming (tree_cur x) node);
               mret (Some t)
             else if decide (cur_trimming_stage x = 1) then
               e ← in_heap (pop_recursion_edge (tree_cur x));
               match e with
               | None => fail NullDeref
               | Some e => t ← in_world (recursive_trimming (tree_cur x) e); mret (Some t)
               end
             else mret None);
  match trimmed with
  | None => mret (0, false)
  | Some t =>
      _ ← in_heap (tree_to_buf t);
      _ ← in_heap (tree_get_size t);
      _ ← upd (set_trimmed_tree t);
      y ← in_heap (load_tree t);
      output_tree t (data_len y)
  end.

(** [n] times [list_pop_front], the results dropped. *)
Definition pop_non_terminals (t : ptr) (n : Z) : M heap unit :=
  store_tree t (λ x, set_non_terminal_node_list (drop (Z.to_nat n) <$> non_terminal_node_list x) x).
Definition pop_recursion_edges (t : ptr) (n : Z) : M heap unit :=
  store_tree t (λ x, set_recursion_edge_list (drop (Z.to_nat n) <$> recursion_edge_list x) x).

(** [list->size]. *)
Definition list_size {A} (l : option (list A)) : M heap Z :=
  match l with Some l => mret (zlen l) | None => fail NullDeref end.

(** The success branch of [afl_custom_post_trim]. *)
Definition post_trim_success : M (driver R) unit :=
  _ ← upd (set_trim_was_effective true);
  x ← get_data;
  _ ← in_heap (tree_free (tree_cur x));
  _ ← upd (λ x, set_tree_cur (trimmed_tree x) x);
  x ← get_data;
  _ ← in_heap (tree_get_non_terminal_nodes (tree_cur x));
  _ ← in_heap (pop_non_terminals (tree_cur x) (finished_subtree_trimming_nodes x));
  node ← in_heap (pop_non_terminal (tree_cur x));
  _ ← (match node with
       | None => mret tt
       | Some _ =>
           n ← in_heap (load node);
           _ ← upd (λ x, set_finished_subtree_trimming_nodes
                           (u64 (finished_subtree_trimming_nodes x + u64 (1 + non_term_size n))) x);
           in_heap (pop_non_terminals (tree_cur x) (non_term_size n))
       end);
  t ← in_heap (load_tree (tree_cur x));
  new_node_size ← in_heap (list_size (non_terminal_node_list t));
  _ ← upd (λ x, set_cur_subtree_trimming_step (u64 (total_subtree_trimming_steps x - new_node_size)) x);
  _ ← in_heap (tree_get_recursion_edges (tree_cur x));
  _ ← in_heap (pop_recursion_edges (tree_cur x) (finished_recursive_trimming_edges x));
  t ← in_heap (load_tree (tree_cur x));
  new_edge_size ← in_heap (list_size (recursion_edge_list t));
  upd (λ x, set_cur_recursive_trimming_step (u64 (total_recursive_trimming_steps x - new_edge_size)) x).

(** The progress counters after a failed attempt. *)
Definition trim_failed (x : my_mutator) : my_mutator :=
  let x := if decide (cur_trimming_stage x = 0)
           then set_finished_subtree_trimming_nodes (u64 (finished_subtree_trimming_nodes x + 1))
                  (set_cur_subtree_trimming_step (u64 (cur_subtree_trimming_step x + 1)) x)
           else x in
  if decide (cur_trimming_stage x = 1)
  then set_finished_recursive_trimming_edges (u64 (finished_recursive_trimming_edges x + 1))
         (set_cur_recursive_trimming_step (u64 (cur_recursive_trimming_step x + 1)) x)
  else x.

(** [// update trimming stage]. *)
Definition trim_stage (x : my_mutator) : my_mutator :=
  let x := if decide (cur_trimming_stage x = 0 ∧ total_subtree_trimming_steps x ≤ cur_subtree_trimming_step x)
           then set_cur_trimming_stage 1 x else x in
  if decide (cur_trimming_stage x = 1 ∧ total_recursive_trimming_steps x ≤ cur_recursive_trimming_step x)
  then set_cur_trimming_stage 2 x else x.

Definition afl_custom_post_trim (success : bool) : M (driver R) Z :=
  _ ← (if success then post_trim_success
       else x ← get_data;
            _ ← in_heap (tree_free (trimmed_tree x));
            upd trim_failed);
  _ ← upd (λ x, trim_stage (set_trimmed_tree None x));
  x ← get_data;
  _ ← (if decide (trim_was_effective x = true ∧ 1 < cur_trimming_stage x) then
         _ ← in_heap (write_tree_to_file (tree_cur x) (tree_fn_cur x));
         in_world (chunk_store_add_tree (tree_cur x))
       else mret tt);
  mret (i32 (u64 (cur_subtree_trimming_step x + cur_recursive_trimming_step x))).

(** ** Fuzzing *)

(** The [while (true)] loop of [afl_custom_fuzz_count] and [afl_custom_fuzz]:
    the next node and rule that is not the node's own. *)
Fixpoint next_rule (fuel : nat) : M (driver R) unit :=
  match fuel with
  | O => out_of_fuel
  | S fuel =>
      x ← get_data;
      n ← in_heap (load (cur_rules_mutation_node x));
      num ← in_world (num_rules (Tree.id n));
      _ ← (if decide (num ≤ cur_rules_mutation_rule_id x) then
             node ← in_heap (pop_non_terminal (tree_cur x));
             upd (λ x, set_cur_rules_mutation_rule_id 0 (set_cur_rules_mutation_node node x))
           else mret tt);
      x ← get_data;
      n ← in_heap (load (cur_rules_mutation_node x));
      if decide (cur_rules_mutation_rule_id x ≠ rule_id n) then mret tt else
      _ ← upd (λ x, set_cur_rules_mutation_rule_id (u32 (cur_rules_mutation_rule_id x + 1)) x);
      next_rule fuel
  end.

(** A bound on the rounds: each node of the list takes at most two. *)
Definition rule_fuel (d : driver R) (t : ptr) : nat :=
  let l := t ← t; x ← trees (w_heap (d_world d)) !! t; non_terminal_node_list x in
  2 * (length (default [] l) + 2).

Definition find_next_rule : M (driver R) unit :=
  x ← get_data;
  d ← get_state;
  next_rule (rule_fuel d (tree_cur x)).

Definition afl_custom_fuzz_count : M (driver R) Z :=
  x ← get_data;
  match tree_cur x with
  | None => mret 0
  | Some _ =>
      _ ← in_heap (tree_get_non_terminal_nodes (tree_cur x));
      _ ← in_heap (tree_get_recursion_edges (tree_cur x));
      _ ← upd (λ x, set_cur_fuzzing_stage 0 (set_cur_fuzzing_step 0 x));
      count ← in_world (rules_mutation_count (tree_cur x));
      d ← get_state;
      t ← in_heap (load_tree (tree_cur x));
      edges ← in_heap (list_size (recursion_edge_list t));
      _ ← upd (λ x, set_total_rules_mutation_steps count
                 (set_total_random_mutation_steps (default_random_mutation_steps d)
                 (set_total_random_recursive_mutation_steps
                    (if decide (0 < edges) then default_random_recursive_mutation_steps d else 0)
                 (set_total_splicing_mutation_steps (default_splicing_mutation_steps d) x))));
      _ ← (if decide (0 < count) then
             node ← in_heap (pop_non_terminal (tree_cur x));
             _ ← upd (λ x, set_cur_rules_mutation_rule_id 0 (set_cur_rules_mutation_node node x));
             find_next_rule
           else upd (λ x, set_cur_fuzzing_step 0 (set_cur_fuzzing_stage 1 x)));
      x ← get_data;
      mret (u32 (total_rules_mutation_steps x + total_random_mutation_steps x
                 + total_random_recursive_mutation_steps x + total_splicing_mutation_steps x))
  end.

Definition RRM_GROWTH : Z := 10.

(** The [do ... while] loop of the random recursive mutation; [prev] is
    [rrm_tree].  The source sets no bound on the number of attempts. *)
Fixpoint rrm_loop (fuel : nat) (t prev : ptr) : M (driver R) ptr :=
  match fuel with
  | O => out_of_fuel
  | S fuel =>
      _ ← free_tree_of prev;
      n ← in_world (draw_below (RRM_GROWTH + 1));
      rrm_tree ← in_world (random_recursive_mutation t n);
      _ ← in_heap (tree_to_buf rrm_tree);
      x ← in_heap (load_tree rrm_tree);
      y ← in_heap (load_tree t);
      if decide (Z.shiftl 1 RRM_GROWTH + data_len y < data_len x)
      then rrm_loop fuel t rrm_tree
      else mret rrm_tree
  end.

(** The [switch] over the stages; [None] is the early return of the default. *)
Definition mutate (fuel : nat) (t : ptr) (x : my_mutator) : M (driver R) (option ptr) :=
  if decide (cur_fuzzing_stage x = 0) then
    r ← in_world (rules_mutation t (cur_rules_mutation_node x) (cur_rules_mutation_rule_id x)); mret (Some r)
  else if decide (cur_fuzzing_stage x = 1) then
    r ← in_world (random_mutation t); mret (Some r)
  else if decide (cur_fuzzing_stage x = 2) then
    _ ← in_heap (tree_to_buf t);
    r ← rrm_loop fuel t None; mret (Some r)
  else if decide (cur_fuzzing_stage x = 3) then
    r ← in_world (splicing_mutation t); mret (Some r)
  else mret None.

(** Leaving stage [s] when its [total] steps are done. *)
Definition leave_stage (s total : Z) (x : my_mutator) : my_mutator :=
  if decide (cur_fuzzing_stage x = s ∧ total ≤ cur_fuzzing_step x)
  then set_cur_fuzzing_step 0 (set_cur_fuzzing_stage (s + 1) x) else x.

(** The stage update at the end of [afl_custom_fuzz], the rules stage apart. *)
Definition leave_stages (x : my_mutator) : my_mutator :=
  let x := leave_stage 1 (total_random_mutation_steps x) x in
  let x := leave_stage 2 (total_random_recursive_mutation_steps x) x in
  leave_stage 3 (total_splicing_mutation_steps x) x.

(** [// update internal status]. *)
Definition advance : M (driver R) unit :=
  _ ← upd (λ x, set_cur_fuzzing_step (u64 (cur_fuzzing_step x + 1)) x);
  x ← get_data;
  _ ← (if decide (cur_fuzzing_stage x = 0) then
         if decide (total_rules_mutation_steps x ≤ cur_fuzzing_step x)
         then upd (leave_stage 0 (total_rules_mutation_steps x))
         else _ ← upd (λ x, set_cur_rules_mutation_rule_id (u32 (cur_rules_mutation_rule_id x + 1)) x);
              find_next_rule
       else mret tt);
  upd leave_stages.

Definition afl_custom_fuzz (fuel : nat) (max_size : Z) : M (driver R) (Z * bool) :=
  x ← get_data;
  _ ← free_tree_of (mutated_tree x);
  _ ← upd (set_mutated_tree None);
  t ← (match tree_cur x with
       | Some _ => mret (tree_cur x)
       | None =>
           t ← in_world (on_rng (gen_init__ 500));
           _ ← in_heap (tree_get_non_terminal_nodes t);
           _ ← in_heap (tree_get_size t);
           mret t
       end);
  r ← mutate fuel t x;
  match r with
  | None | Some None => mret (0, false)
  | Some (Some t') =>
      _ ← advance;
      _ ← in_heap (tree_to_buf (Some t'));
      _ ← in_heap (tree_get_size (Some t'));
      _ ← upd (set_mutated_tree (Some t'));
      y ← in_heap (load_tree (Some t'));
      output_tree (Some t') (if decide (data_len y ≤ max_size) then data_len y else max_size)
  end.

(** [memcpy(found, "/trees", 6)] at offset [k] of the name. *)
Definition trees_name (fn : chars) (k : nat) : chars := take k fn ++ text "/trees" ++ drop (k + 6) fn.

Definition afl_custom_queue_new_entry (filename_new_queue : string) (filename_orig_queue : option string)
    : M (driver R) unit :=
  x ← get_data;
  if decide (filename_orig_queue = None ∨ mutated_tree x = None) then
    _ ← afl_custom_queue_get filename_new_queue; mret tt
  else
    let fn := take (PATH_MAX - 2) (text filename_new_queue) in
    _ ← upd (set_new_tree_fn (untext fn));
    match strrstr (Some fn) (Some (text "/queue/")) with
    | None => mret tt
    | Some k =>
        let name := untext (trees_name fn k) in
        _ ← upd (set_new_tree_fn name);
        _ ← in_heap (write_tree_to_file (mutated_tree x) name);
        _ ← in_world (chunk_store_add_tree (mutated_tree x));
        _ ← in_heap (tree_free (mutated_tree x));
        upd (set_mutated_tree None)
    end.
End Driver.

(** ** Rules of the driver's monad *)

Section Rules.
Context {R : Type}.

Lemma wp_in_world {A} (m : M (world R) A) d (Q : A → driver R → Prop) :
  wp m (d_world d) (λ a w, Q a (set_world w d)) → wp (in_world m) d Q.
Proof. unfold wp, in_world. by destruct (m (d_world d)) as [[a w]| |]. Qed.

Lemma wp_in_heap {A} (m : M heap A) d (Q : A → driver R → Prop) :
  wp m (w_heap (d_world d)) (λ a h, Q a (set_world (set_heap h (d_world d)) d)) → wp (in_heap m) d Q.
Proof. intros. by apply wp_in_world, wp_on_heap. Qed.

Lemma wp_get_data d x (Q : my_mutator → driver R → Prop) : d_data d = Some x → Q x d → wp get_data d Q.
Proof. unfold wp, get_data. by intros ->. Qed.

Lemma wp_upd f d x (Q : unit → driver R → Prop) :
  d_data d = Some x → Q tt (set_data (Some (f x)) d) → wp (upd f) d Q.
Proof. unfold wp, upd. by intros ->. Qed.
End Rules.
