(* ===== verification/RulesPlan.v ===== *)
(** * RulesPlan: the deterministic stage of [afl_custom_fuzz]

    The handler walks the non-terminals of the current tree and, at each, the
    rules other than the node's own.  [plan] is what is left of that walk;
    [next_rule] moves to its first entry. *)

From S2P Require Import Prelude Buffer Utils Tree TreeSpec TreeNodes TreeText TreePaths TreeLists StrMap World ChunkStore TreeMutation MutatorState GrammarMutator.

Section Plan.
Context {R : Type} `{!Grammar R}.

(** The rules from [r] on, [own] left out. *)
Definition rules_from (num own r : Z) : list Z := filter (λ k, k ≠ own) (seqZ r (num - r)).

Definition node_rules (m : gmap loc node) (q : loc) : option (Z * Z) :=
  n ← m !! q; num ← node_num_rules !! Z.to_nat (id n); Some (num, rule_id n).

Definition choices (m : gmap loc node) (r : Z) (q : loc) : list (loc * Z) :=
  match node_rules m q with Some (num, own) => pair q <$> rules_from num own r | None => [] end.

Definition plan (m : gmap loc node) (q : loc) (r : Z) (rest : list loc) : list (loc * Z) :=
  choices m r q ++ flat_map (choices m 0) rest.

(** The node uses one of the rules of its type. *)
Definition ruled (m : gmap loc node) (q : loc) : Prop := ∃ n num,
  m !! q = Some n ∧ node_num_rules !! Z.to_nat (id n) = Some num ∧ 0 ≤ rule_id n < num ∧ num < 2 ^ 32.

Lemma rules_from_done num own r : num ≤ r → rules_from num own r = [].
Proof. intros. unfold rules_from. by rewrite seqZ_nil by lia. Qed.

Lemma rules_from_step num own r : r < num →
  rules_from num own r = (if decide (r = own) then [] else [r]) ++ rules_from num own (r + 1).
Proof.
  intros. unfold rules_from. rewrite (seqZ_cons r) by lia. replace (Z.pred (num - r)) with (num - (r + 1)) by lia.
  rewrite filter_cons. unfold Z.succ. by case_decide; case_decide.
Qed.

Lemma rules_from_length num own : ∀ k, 0 ≤ own < num → 0 ≤ num - k →
  zlen (rules_from num own k) = (num - k) - (if decide (k ≤ own) then 1 else 0).
Proof.
  intros k Hown Hk. remember (Z.to_nat (num - k)) as n eqn:Hn. revert k Hk Hn.
  induction n as [|n IH]; intros k Hk Hn; [rewrite rules_from_done, decide_False by lia; simpl; lia|].
  rewrite rules_from_step, length_app, Nat2Z.inj_add, (IH (k + 1)) by lia.
  repeat case_decide; simpl; lia.
Qed.

Lemma choices_length m q n num :
  m !! q = Some n → node_num_rules !! Z.to_nat (id n) = Some num → 0 ≤ rule_id n < num →
  zlen (choices m 0 q) = num - 1.
Proof.
  intros Hq Hnum Hown. unfold choices, node_rules. rewrite Hq. simpl. rewrite Hnum. simpl.
  rewrite length_fmap, rules_from_length, decide_True by lia. lia.
Qed.

Lemma choices_frame m m' r q : m' !! q = m !! q → choices m' r q = choices m r q.
Proof. intros Hq. unfold choices, node_rules. by rewrite Hq. Qed.

Lemma plan_frame m m' q r rest : (∀ y, y ∈ q :: rest → m' !! y = m !! y) → plan m' q r rest = plan m q r rest.
Proof.
  intros Hm. unfold plan. f_equal; [apply choices_frame, Hm; left|]. induction rest as [|y rest IH]; [done|].
  simpl. f_equal; [apply choices_frame, Hm; right; left|]. apply IH. intros z Hz. apply Hm.
  apply elem_of_cons in Hz as [->|Hz]; [left|by do 2 right].
Qed.

(** One rule further. *)
Lemma plan_step m q n num r rest :
  m !! q = Some n → node_num_rules !! Z.to_nat (id n) = Some num → r < num →
  plan m q r rest = (pair q <$> if decide (r = rule_id n) then [] else [r]) ++ plan m q (r + 1) rest.
Proof.
  intros Hq Hnum Hr. unfold plan, choices, node_rules. rewrite Hq. simpl. rewrite Hnum. simpl.
  rewrite rules_from_step by lia. by rewrite fmap_app, <- app_assoc.
Qed.

(** ** [next_rule] *)

(** The place of the walk: [cur_rules_mutation_node] and [cur_rules_mutation_rule_id]. *)
Definition set_place (q : ptr) (r : Z) (x : my_mutator) : my_mutator :=
  set_cur_rules_mutation_rule_id r (set_cur_rules_mutation_node q x).

(** [d] with the walk at rule [r] of node [q] of tree [T], [rest] to follow. *)
Definition walking (d : driver R) (T : loc) (y : tree) (x : my_mutator) (rest : list loc) (q : ptr) (r : Z) : driver R :=
  let w := d_world d in
  let h := w_heap w in
  set_data (Some (set_place q r x))
    (set_world (set_heap (set_trees (<[T := set_non_terminal_node_list (Some rest) y]> (trees h)) h) w) d).

Lemma walking_start d T y x rest q r :
  d_data d = Some x → trees (w_heap (d_world d)) !! T = Some y → non_terminal_node_list y = Some rest →
  cur_rules_mutation_node x = q → cur_rules_mutation_rule_id x = r → d = walking d T y x rest q r.
Proof.
  destruct d as [[h rg ml cs sc] dd dirs ? ? ?], x, y, h. unfold walking. simpl. intros -> Hy -> -> ->.
  do 3 f_equal. by rewrite insert_id.
Qed.

Lemma walking_absorb d T y x x1 rest rest' q q' r r' :
  walking (walking d T y x rest q r) T y x1 rest' q' r' = walking d T y x1 rest' q' r'.
Proof. unfold walking. simpl. by rewrite insert_insert_eq. Qed.

Lemma wp_pop_walking d T y x q0 rest q r (Q : ptr → driver R → Prop) :
  Q (Some q0) (walking d T y x rest q r) → wp (in_heap (pop_non_terminal (Some T))) (walking d T y x (q0 :: rest) q r) Q.
Proof.
  intros HQ. apply wp_in_heap. unfold pop_non_terminal. apply wp_bind.
  eapply wp_load_tree; [simpl; apply lookup_insert_eq|]. simpl. apply wp_bind.
  eapply wp_store_tree; [simpl; apply lookup_insert_eq|]. apply wp_ret. unfold walking in HQ. simpl in *.
  by rewrite insert_insert_eq.
Qed.

(** Rounds of [next_rule] that are still possible. *)
Definition rounds (own r : Z) (rest : list loc) : nat := 2 * length rest + (if decide (r ≤ own) then 1 else 0).

Lemma wp_num_rules i num (d : driver R) (Q : Z → driver R → Prop) :
  node_num_rules !! Z.to_nat i = Some num → Q num d → wp (in_world (num_rules i)) d Q.
Proof.
  intros Hnum HQ. apply wp_in_world. unfold num_rules. rewrite Hnum. apply wp_ret. by destruct d.
Qed.

(** Rule [r] is one of the node's type, and not the one it uses. *)
Definition usable (m : gmap loc node) (q : loc) (r : Z) : Prop := ∃ n num,
  m !! q = Some n ∧ node_num_rules !! Z.to_nat (id n) = Some num ∧ 0 ≤ r < num ∧ r ≠ rule_id n.

(** What [next_rule] promises about the walk at [q], [r]. *)
Definition at_first (m : gmap loc node) (d : driver R) T y x rest q e todo (d' : driver R) : Prop := ∃ q' r' rest',
    d' = walking d T y x rest' (Some q') r' ∧ e = (q', r') ∧ usable m q' r' ∧ plan m q' r' rest' = e :: todo ∧ q' :: rest' `suffix_of` q :: rest.

(** The second half of a round: stop at a rule that is not the node's own. *)
Lemma check_rule_ok (next : M (driver R) unit) m d T y x rest q n num r e todo :
  m ⊆ nodes (w_heap (d_world d)) →
  m !! q = Some n → node_num_rules !! Z.to_nat (id n) = Some num → num < 2 ^ 32 → 0 ≤ r < num →
  plan m q r rest = e :: todo →
  (r = rule_id n → plan m q (r + 1) rest = e :: todo →
     wp next (walking d T y x rest (Some q) (r + 1)) (λ _, at_first m d T y x rest q e todo)) →
  wp (x ← get_data; n ← in_heap (load (cur_rules_mutation_node x));
      if decide (cur_rules_mutation_rule_id x ≠ rule_id n) then mret tt else
      _ ← upd (λ x, set_cur_rules_mutation_rule_id (u32 (cur_rules_mutation_rule_id x + 1)) x);
      next) (walking d T y x rest (Some q) r) (λ _, at_first m d T y x rest q e todo).
Proof.
  intros Hm Hq Hnum H32 Hr Hplan Hnext. assert (nodes (w_heap (d_world d)) !! q = Some n) as Hqn by (by eapply lookup_weaken).
  pose proof (plan_step m q n num r rest Hq Hnum ltac:(lia)) as Hstep.
  apply wp_bind. eapply wp_get_data; [done|]. apply wp_bind, wp_in_heap. eapply wp_load; [exact Hqn|].
  cbn [cur_rules_mutation_rule_id set_place set_cur_rules_mutation_rule_id].
  destruct (decide (r = rule_id n)) as [Heq|Heq]; simpl in Hstep.
  - rewrite decide_False by tauto. apply wp_bind. eapply wp_upd; [done|].
    cbn [cur_rules_mutation_rule_id set_place set_cur_rules_mutation_rule_id].
    rewrite wrap_small by lia. apply Hnext; [done|]. by rewrite <- Hplan, Hstep.
  - rewrite decide_True by done. apply wp_ret. exists q, r, rest. split; [done|].
    rewrite Hplan in Hstep. injection Hstep as -> _. split_and!; try done. by exists n, num.
Qed.

(** With something left in the plan, the walk moves to its first entry. *)
Lemma next_rule_ok fuel m : ∀ d T y x rest q n num r e todo,
  m ⊆ nodes (w_heap (d_world d)) →
  tree_cur x = Some T → m !! q = Some n → node_num_rules !! Z.to_nat (id n) = Some num → 0 ≤ rule_id n < num → num < 2 ^ 32 →
  0 ≤ r → Forall (ruled m) rest → plan m q r rest = e :: todo → (rounds (rule_id n) r rest < fuel)%nat →
  wp (next_rule fuel) (walking d T y x rest (Some q) r) (λ _, at_first m d T y x rest q e todo).
Proof.
  induction fuel as [|fuel IH]; intros d T y x rest q n num r e todo Hm Htc Hq Hnum Hown H32 Hr Hrest Hplan Hfuel; [lia|].
  cbn [next_rule]. apply wp_bind. eapply wp_get_data; [done|]. apply wp_bind, wp_in_heap.
  eapply wp_load; [by eapply lookup_weaken|]. apply wp_bind. eapply wp_num_rules; [done|].
  apply wp_bind. change (tree_cur (set_place (Some q) r x)) with (tree_cur x). rewrite Htc.
  cbn [cur_rules_mutation_rule_id set_place set_cur_rules_mutation_rule_id]. unfold rounds in Hfuel.
  destruct (decide (num ≤ r)) as [Hdone|Hmore].
  - assert (choices m r q = []) as Hc.
    { unfold choices, node_rules. rewrite Hq. simpl. rewrite Hnum. simpl. by rewrite rules_from_done. }
    destruct rest as [|q1 rest]; [unfold plan in Hplan; by rewrite Hc in Hplan|].
    apply Forall_cons in Hrest as [(n1 & num1 & Hq1 & Hnum1 & Hown1 & H321) Hrest].
    assert (plan m q1 0 rest = e :: todo) as Hplan1 by (rewrite <- Hplan; unfold plan; by rewrite Hc).
    apply wp_bind. apply wp_pop_walking. eapply wp_upd; [done|].
    assert (∀ d', at_first m d T y x rest q1 e todo d' → at_first m d T y x (q1 :: rest) q e todo d') as Hlift.
    { intros d' (q' & r' & rest' & ? & ? & ? & ? & ?). exists q', r', rest'. split_and!; try done. by apply suffix_cons_r. }
    eapply wp_mono; [eapply (check_rule_ok (next_rule fuel) m d T y x rest q1 n1 num1 0 e todo); try done; [lia|]|by intros []].
    intros Heq Hplan2. eapply wp_mono; [eapply (IH d T y x rest q1 n1 num1 (0 + 1)); try done|].
    + unfold rounds. simpl in Hfuel. repeat case_decide; lia.
    + intros [] d' (q' & r' & rest' & ?). by exists q', r', rest'.
  - apply wp_ret. eapply wp_mono; [eapply (check_rule_ok (next_rule fuel) m d T y x rest q n num r e todo); try done; [lia|]|by intros []].
    intros Heq Hplan2. eapply wp_mono; [eapply (IH d T y x rest q n num (r + 1)); try done; [lia|]|].
    + unfold rounds. repeat case_decide; lia.
    + intros [] d' (q' & r' & rest' & ?). by exists q', r', rest'.
Qed.
(** ** [rules_mutation_count] *)

(** Everything that the deterministic stage tries on a tree made of [ls]. *)
Definition alternatives (m : gmap loc node) (ls : list loc) : list (loc * Z) := flat_map (choices m 0) (non_terminals m ls).

Lemma alternatives_app m ls ls' : alternatives m (ls ++ ls') = alternatives m ls ++ alternatives m ls'.
Proof. unfold alternatives. by rewrite non_terminals_app, flat_map_app. Qed.

Lemma count_loop_ok (count : ptr → M (world R) Z) (w : world R) chk p n ps subs lss :
  let m := nodes (w_heap w) in
  m !! p = Some n → (ps ≠ [] → subnodes n = Some (Some <$> ps)) → shapes chk m (Some p) ps subs lss →
  (∀ j o ot l, ps !! j = Some o → subs !! j = Some ot → lss !! j = Some l → shape_opt chk m (Some p) o ot l →
     wp (count o) w (λ c w', w' = w ∧ c = u64 (zlen (alternatives m l)))) →
  ∀ k j ret, (j + k = length ps)%nat →
  wp (count_loop count k (Z.of_nat j) (u64 ret) (Some p)) w
    (λ c w', w' = w ∧ c = u64 (ret + zlen (alternatives m (concat (drop j lss))))).
Proof.
  intros m Hn Harr Hsub Hcount k. destruct (shapes_length _ _ _ _ _ _ Hsub) as [Hlen Hlen2].
  induction k as [|k IH]; intros j ret Hj; cbn [count_loop].
  - apply wp_ret. split; [done|]. rewrite drop_ge by lia. simpl. by rewrite Z.add_0_r.
  - destruct (shapes_pick _ _ _ _ _ _ j Hsub) as (o & ot & l & Ho & Hot & Hl & Hsh); [lia|].
    apply wp_bind, wp_on_heap. eapply wp_read_subnode; [done|apply Harr; by intros ->|by rewrite Nat2Z.id|].
    replace (set_heap (w_heap w) w) with w by (by destruct w).
    apply wp_bind. eapply wp_mono; [by eapply Hcount|]. intros c ? [-> ->].
    replace (Z.of_nat j + 1) with (Z.of_nat (S j)) by lia.
    replace (u64 (u64 ret + u64 (zlen (alternatives m l)))) with (u64 (ret + zlen (alternatives m l))) by (by rewrite wrap_add_l, wrap_add_r).
    eapply wp_mono; [apply IH; lia|]. intros c w' [-> ->]. split; [done|]. f_equal.
    rewrite (drop_S _ _ _ Hl). simpl. rewrite alternatives_app, length_app. lia.
Qed.

Lemma non_terminals_ruled m lss j l :
  lss !! j = Some l → Forall (ruled m) (non_terminals m (concat lss)) → Forall (ruled m) (non_terminals m l).
Proof.
  intros Hl. rewrite <- (take_drop_middle lss j l Hl), concat_app. simpl.
  rewrite !non_terminals_app, !Forall_app. tauto.
Qed.

Lemma rules_count_rec_ok t : ∀ fuel (w : world R) chk par p ls,
  let m := nodes (w_heap w) in
  shape chk m par p t ls → (gheight t ≤ fuel)%nat → Forall (ruled m) (non_terminals m ls) →
  wp (node_rules_mutation_count_rec fuel (Some p)) w (λ c w', w' = w ∧ c = u64 (zlen (alternatives m ls))).
Proof.
  induction t as [i r v a b subs IH] using gtree_ind'. intros fuel w chk par p ls m Hs Hf Hr.
  pose proof Hs as (n & ps & lss & Hp & His & Hls & Hsub)%shape_unfold. set (t := GNode i r v a b subs) in *.
  destruct fuel as [|fuel]; [cbn in Hf; lia|].
  assert (∀ j o ot l, ps !! j = Some o → subs !! j = Some ot → lss !! j = Some l → shape_opt chk m (Some p) o ot l →
    Forall (ruled m) (non_terminals m (concat lss)) →
    wp (node_rules_mutation_count_rec fuel o) w (λ c w', w' = w ∧ c = u64 (zlen (alternatives m l)))) as Hsubs.
  { intros j o ot l Ho Hot Hl Hsh Hr'. destruct o as [c|], ot as [tc|]; simpl in Hsh; try done; [|subst l; by destruct fuel].
    eapply Forall_forall in IH; [|by eapply list_elem_of_lookup_2]. eapply IH; [done| |].
    - apply list_elem_of_lookup_2 in Hot. pose proof (elem_of_gsubs_height t tc Hot). lia.
    - by eapply non_terminals_ruled. }
  cbn [node_rules_mutation_count_rec].
  apply wp_bind, wp_on_heap. eapply wp_load; [done|]. replace (set_heap (w_heap w) w) with w by (by destruct w).
  rewrite (is_id _ _ _ _ _ His). destruct (decide (gid t = 0)) as [Hid|Hid].
  { apply wp_ret. split; [done|]. unfold alternatives. by rewrite (filter_terminal _ _ _ _ _ _ Hs Hid). }
  rewrite (filter_non_terminal _ _ _ _ _ _ _ _ _ Hp His Hls Hid) in Hr.
  apply Forall_cons in Hr as [(n' & num & Hn' & Hnum & Hown & H32) Hr].
  assert (n' = n) as -> by congruence. clear Hn'.
  apply wp_bind. rewrite <- (is_id _ _ _ _ _ His). unfold num_rules. rewrite Hnum. apply wp_ret.
  rewrite decide_False by lia. rewrite (is_count _ _ _ _ _ His), Nat2Z.id.
  replace (num - 1) with (u64 (num - 1)) by (apply wrap_small; lia).
  eapply wp_mono; [apply (count_loop_ok _ w chk p n ps subs lss Hp ltac:(by eapply is_subs) Hsub ltac:(eauto) (length ps) 0); lia|].
  intros c w' [-> ->]. split; [done|]. f_equal. rewrite drop_0, Hls. unfold alternatives at 2.
  rewrite (filter_non_terminal _ _ _ _ _ _ _ _ _ Hp His eq_refl Hid). simpl.
  rewrite length_app, Nat2Z.inj_add, (choices_length _ p n num) by done. done.
Qed.

Lemma rules_mutation_count_ok (w : world R) T x chk par p t ls :
  let m := nodes (w_heap w) in
  trees (w_heap w) !! T = Some x → root x = Some p → shape chk m par p t ls → NoDup ls → Forall (ruled m) (non_terminals m ls) →
  wp (rules_mutation_count (Some T)) w (λ c w', w' = w ∧ c = u64 (zlen (alternatives m ls))).
Proof.
  intros m Hx Hroot Hs Hnd Hr. unfold rules_mutation_count. apply wp_bind, wp_on_heap. eapply wp_load_tree; [done|].
  replace (set_heap (w_heap w) w) with w by (by destruct w). rewrite Hroot. unfold node_rules_mutation_count.
  unfold wp. eapply (rules_count_rec_ok t _ w chk par p ls); [done| |done].
  etrans; [by eapply shape_fuel|]. lia.
Qed.
End Plan.
