(* ===== verification/FuzzRound.v ===== *)
(** * FuzzRound: one call of [afl_custom_fuzz]

    [session] is what holds between the calls of the handlers on a test case;
    [mutate_ok] is the switch over the stages: a new tree of the grammar's
    language, and everything that lives longer as it was. *)

From S2P Require Import Prelude Buffer Utils Tree TreeSpec TreeNodes TreeSizes TreeText TreePaths GrammarTypes TreeLists TreePicks StrMap World TreeGrafts TreeLife ChunkStore TreeMutation MutationSpec RecursionSpec SplicingSpec Language MutatorState GrammarMutator RulesPlan.

(** [h'] is [h] with a new tree [T'] of value [t']; of the old trees only the text
    of [T] may have changed. *)
Definition grown_by (T : loc) (y : tree) (T' : ptr) (t' : gtree) (h h' : heap) : Prop := ∃ T1 y1 p1 ls1 y',
  T' = Some T1 ∧ T1 ≠ T ∧ tree_in h' T1 y1 p1 t' ls1 ∧ buf_ok (data_buf y1) (data_size y1) ∧ heap_ok h' ∧
  (∀ q, is_Some (nodes h !! q) → nodes h' !! q = nodes h !! q ∧ q ∉ ls1) ∧
  trees h' !! T = Some y' ∧ text_only y y' ∧ buf_ok (data_buf y') (data_size y').

Lemma new_tree_grown t' T' T y h h' :
  heap_ok h → trees h !! T = Some y → buf_ok (data_buf y) (data_size y) → new_tree t' T' h h' → grown_by T y T' t' h h'.
Proof.
  intros Hok Hy Hb (T1 & p1 & ls1 & -> & Hm & Hnd & Hs).
  assert (T1 ≠ T) as Hne by (intros ->; by rewrite (md_fresh _ _ _ _ _ Hm) in Hy).
  exists T1, (tree_at p1), p1, ls1, y. split_and!; try done.
  - split; [rewrite (md_tree _ _ _ _ _ Hm); apply lookup_insert_eq|done..].
  - apply Hm.
  - intros q Hq. assert (q ∉ ls1) by (by eapply made_old). split; [|done]. by apply Hm.
  - by rewrite (md_tree _ _ _ _ _ Hm), lookup_insert_ne.
Qed.

Lemma new_tree_keeps t' T' T y h h' : trees h !! T = Some y → new_tree t' T' h h' → trees h' !! T = Some y.
Proof.
  intros Hy (T1 & p1 & ls1 & -> & Hm & _). rewrite (md_tree _ _ _ _ _ Hm), lookup_insert_ne; [done|].
  intros ->. by rewrite (md_fresh _ _ _ _ _ Hm) in Hy.
Qed.

Section Fuzz.
Context `{Host} (Hmem : never_refuses) {R : Type} `{!Random R, !Grammar R, !Digest}.
Context (productions : Z → list (list symbol)) {builds} `{!GeneratorLaw (λ _, True) builds}.

(** A tree of type [i] that follows the grammar, with a text below a terabyte. *)
Definition fits (i : Z) (u : gtree) : Prop := typed productions (NT i) u ∧ zlen (yield u) < 2 ^ 40.

Context (Hbuilds : ∀ i u, builds i u → fits i u).

(** A current tree that the handlers can work on. *)
Record target (m : gmap loc node) (p : loc) (t : gtree) (ls : list loc) (i : Z) : Prop := {
  tg_shape : shape true m None p t ls;
  tg_NoDup : NoDup ls;
  tg_fits : fits i t;
  tg_counted : counted t;
  tg_nt : count_nt t < 2 ^ 32;
  tg_edges : count_edges t < 2 ^ 32;
  tg_covered : covered t;
  tg_ruled : Forall (ruled m) (non_terminals m ls) }.

(** The current tree [T] and the chunk store live in the nodes [m]. *)
Record core (d : driver R) (x : my_mutator) (T : loc) (y : tree) (p : loc) (t : gtree) (ls : list loc) (i : Z)
    (m : gmap loc node) : Prop := {
  ss_data : d_data d = Some x;
  ss_cur : tree_cur x = Some T;
  ss_ok : heap_ok (w_heap (d_world d));
  ss_keep : m ⊆ nodes (w_heap (d_world d));
  ss_target : target m p t ls i;
  ss_tree : trees (w_heap (d_world d)) !! T = Some y;
  ss_root : root y = Some p;
  ss_text : buf_ok (data_buf y) (data_size y);
  ss_store : store_sound (chunk_store (d_world d)) m fits;
  ss_out : buf_ok (fuzz_buf x) (fuzz_size x) }.

(** A session; the tree of the last call is apart from those. *)
Record session (d : driver R) (x : my_mutator) (T : loc) (y : tree) (p : loc) (t : gtree) (ls : list loc) (i : Z)
    (m : gmap loc node) : Prop := {
  ss_core :> core d x T y p t ls i m;
  ss_mutated : ∀ T2, mutated_tree x = Some T2 → T2 ≠ T ∧ ∃ y2 p2 t2 ls2,
    tree_in (w_heap (d_world d)) T2 y2 p2 t2 ls2 ∧ ∀ q, q ∈ ls2 → m !! q = None }.

Lemma target_gid m p t ls i : target m p t ls i → gid t ≠ 0.
Proof. intros Htg. pose proof (tg_fits _ _ _ _ _ Htg) as [[-> ?]%typed_gid _]. done. Qed.

Lemma target_frame m m' p t ls i : m ⊆ m' → target m p t ls i → shape true m' None p t ls.
Proof.
  intros Hm Htg. eapply shape_frame; [|apply Htg]. intros q Hq.
  destruct (shape_lookup _ _ _ _ _ _ q (tg_shape _ _ _ _ _ Htg) Hq) as [n Hn]. rewrite Hn. by eapply lookup_weaken.
Qed.

(** *** The values of the mutated trees *)

Lemma fits_exchange i t π v u :
  fits i t → gget t π = Some v → gid v ≠ 0 → fits (gid v) u →
  typed productions (NT i) (gput t π u) ∧ zlen (yield (gput t π u)) < 2 ^ 41.
Proof.
  intros [Ht Hl] Hg Hv [Hu Hlu]. split; [by eapply typed_gput|]. rewrite (yield_gput t π v u Hg). lia.
Qed.

(** The tree after [random_recursive_mutation]. *)
Lemma fits_repeat i t π va k vb n :
  fits i t → gget t π = Some va → gsubs va !! k = Some (Some vb) → gid va = gid vb → 0 ≤ n ≤ 10 →
  let t' := gput t π (Nat.iter (S (Z.to_nat (Z.shiftl 1 n))) (plug va k) vb) in
  typed productions (NT i) t' ∧ zlen (yield t') < 2 ^ 60.
Proof.
  intros [Ht Hl] Hg Hk Hid Hn t'. split; [by eapply typed_repeat|]. unfold t'.
  rewrite (yield_gput t π va _ Hg), (yield_repeat va k vb _ Hk).
  pose proof (yield_gget t π va Hg). pose proof (yield_gget va [k] vb ltac:(simpl; by rewrite Hk)).
  rewrite Z.shiftl_1_l. assert (1 ≤ 2 ^ n ≤ 1024).
  { split; [apply (Z.pow_le_mono_r 2 0 n); lia|apply (Z.pow_le_mono_r 2 n 10); lia]. }
  set (N := Z.of_nat (S (Z.to_nat (2 ^ n)))). assert (0 ≤ N ≤ 1025) by lia. nia.
Qed.

(** *** The switch over the stages *)

(** What [mutate] leaves. *)
Definition mutated (d : driver R) (T : loc) (y : tree) (i : Z) (T' : ptr) (t' : gtree) (d' : driver R) : Prop := ∃ h' r,
  d' = set_world (set_rng r (set_heap h' (d_world d))) d ∧ grown_by T y T' t' (w_heap (d_world d)) h' ∧
  typed productions (NT i) t' ∧ zlen (yield t') < 2 ^ 41.

Lemma session_stored d x T y p t ls i m : session d x T y p t ls i m → stored (w_heap (d_world d)) T p t ls.
Proof.
  intros S. split; [apply S|exists y; split; apply S| |apply S]. eapply target_frame; apply S.
Qed.

Lemma mutated_by d x T y p t ls i m T' t' h' r :
  session d x T y p t ls i m → new_tree t' T' (w_heap (d_world d)) h' →
  typed productions (NT i) t' ∧ zlen (yield t') < 2 ^ 41 →
  mutated d T y i T' t' (set_world (set_rng r (set_heap h' (d_world d))) d).
Proof.
  intros S Hn [Ht Hl]. exists h', r. split; [done|]. split; [|done]. by eapply new_tree_grown; [apply S..|].
Qed.

(** The rules stage tries rule [r] at node [q]. *)
Lemma mutate_rules_ok fuel d x T y p t ls i m q r :
  session d x T y p t ls i m → cur_fuzzing_stage x = 0 → cur_rules_mutation_node x = Some q → cur_rules_mutation_rule_id x = r →
  q ∈ non_terminals m ls → usable m q r →
  wp (mutate fuel (Some T) x) d (λ o d', ∃ T' t' π u, o = Some T' ∧ mutated d T y i T' t' d' ∧
    loc_at (nodes (w_heap (d_world d))) p π = Some q ∧ t' = gput t π u).
Proof.
  intros S Hst Hcq Hcr Hq (n & num & Hmq & Hnum & Hr & Hown). pose proof (session_stored _ _ _ _ _ _ _ _ _ S) as St.
  pose proof (ss_target _ _ _ _ _ _ _ _ _ S) as Tg. apply elem_of_non_terminals in Hq as (Hq & n' & Hn' & Hnt). assert (n' = n) as -> by congruence.
  assert (nodes (w_heap (d_world d)) !! q = Some n) as Hn by (eapply lookup_weaken; [done|apply S]).
  destruct (node_gid_path _ _ _ _ _ _ _ (tg_shape _ _ _ _ _ Tg) (tg_NoDup _ _ _ _ _ Tg) Hq Hmq) as (π0 & v0 & Hg0 & Hv0).
  destruct (tg_covered _ _ _ _ _ Tg π0 v0 Hg0) as (Hpos & f & Hf); [congruence|]. rewrite Hv0 in Hf, Hpos.
  unfold mutate. rewrite decide_True by done. apply wp_bind, wp_in_world. rewrite Hcq, Hcr.
  eapply wp_mono; [eapply (rules_mutation_ok Hmem (d_world d) T p t ls q n num f r); try done; lia|].
  intros T' w' (h' & rg & π & v & u & -> & Hloc & Hget & Hgid & Hbu & Hnew). apply wp_ret.
  exists T', (gput t π u), π, u. split; [done|]. split; [|done]. eapply mutated_by; [done|done|].
  eapply fits_exchange; [apply Tg|done|congruence|by apply Hbuilds].
Qed.

Lemma mutate_random_ok fuel d x T y p t ls i m :
  session d x T y p t ls i m → cur_fuzzing_stage x = 1 →
  wp (mutate fuel (Some T) x) d (λ o d', ∃ T' t', o = Some T' ∧ mutated d T y i T' t' d').
Proof.
  intros S Hst. pose proof (session_stored _ _ _ _ _ _ _ _ _ S) as St. pose proof (ss_target _ _ _ _ _ _ _ _ _ S) as Tg.
  unfold mutate. rewrite Hst. cbn [decide]. apply wp_bind, wp_in_world.
  eapply wp_mono; [eapply (random_mutation_ok Hmem (d_world d) T p t ls); try apply Tg; [done|by eapply target_gid|done]|].
  intros T' w' (h' & rg & π & v & u & -> & Hget & Hbu & Hnew). apply wp_ret.
  exists T', (gput t π u). split; [done|]. eapply mutated_by; [done|done|].
  destruct (Hbuilds _ _ Hbu) as [[? Hv]%typed_gid _]. eapply fits_exchange; [apply Tg|done|done|by apply Hbuilds].
Qed.

Lemma mutate_splicing_ok fuel d x T y p t ls i m :
  session d x T y p t ls i m → cur_fuzzing_stage x = 3 →
  wp (mutate fuel (Some T) x) d (λ o d', ∃ T' t', o = Some T' ∧ mutated d T y i T' t' d').
Proof.
  intros S Hst. pose proof (session_stored _ _ _ _ _ _ _ _ _ S) as St. pose proof (ss_target _ _ _ _ _ _ _ _ _ S) as Tg.
  unfold mutate. rewrite Hst. cbn [decide]. apply wp_bind, wp_in_world.
  eapply wp_mono; [eapply (splicing_mutation_ok Hmem fits (d_world d) T p t ls); try apply Tg; [done|by eapply target_gid|]|].
  { eapply store_sound_mono; apply S. }
  intros T' w' (h' & rg & -> & π & v & Hget & Hv & Hcase); apply wp_ret.
  destruct (map_get_ _ _) as [l|]; [destruct Hcase as (qs & q0 & u & par & lq & _ & _ & _ & Hgu & Hu & Hnew)|rename Hcase into Hnew].
  2: { exists T', t. split; [done|]. eapply mutated_by; [done|done|]. destruct (tg_fits _ _ _ _ _ Tg). split; [done|lia]. }
  exists T', (gput t π u). split; [done|]. eapply mutated_by; [done|done|]. eapply fits_exchange; [apply Tg|done..].
Qed.

(** *** The random recursive stage *)

(** The state between two attempts: the long-lived heap is [h0]. *)
Definition between (T : loc) (y : tree) (v : list Z) (prev : ptr) (h0 h : heap) : Prop :=
  match prev with
  | None => heap_ok h ∧ (∀ q, is_Some (nodes h0 !! q) → nodes h !! q = nodes h0 !! q) ∧
      ∃ y', trees h !! T = Some y' ∧ text_only y y' ∧ text_is y' v
  | Some _ => ∃ t', grown_by T y prev t' h0 h ∧ ∃ y', trees h !! T = Some y' ∧ text_is y' v
  end.

Lemma free_prev_ok T y v prev h0 (d : driver R) :
  between T y v prev h0 (w_heap (d_world d)) →
  wp (free_tree_of prev) d (λ _ d', ∃ h, d' = set_world (set_heap h (d_world d)) d ∧ between T y v None h0 h).
Proof.
  intros Hb. destruct prev as [T1|]; simpl in *.
  - destruct Hb as (t' & (T2 & y1 & p1 & ls1 & y' & [= ->] & Hne & Hin & _ & Hok & Hold & Hy & Ho & _) & y2 & Hy2 & Htext).
    assert (y2 = y') as -> by congruence. apply wp_in_heap. eapply wp_mono; [by eapply tree_free_ok|].
    intros [] h' D. exists h'. split; [done|]. split; [by eapply dropped_ok|]. split.
    + intros q Hq. destruct (Hold q Hq) as [<- Hl]. by apply (dr_same _ _ _ _ D).
    + exists y'. rewrite (dr_trees _ _ _ _ D), lookup_delete_ne by done. done.
  - apply wp_ret. exists (w_heap (d_world d)). split; [by destruct d as [[] ? ? ? ? ?]|done].
Qed.

Lemma text_is_buf x v : text_is x v → buf_ok (data_buf x) (data_size x).
Proof. by intros [? _]. Qed.

(** Printing the new tree. *)
Lemma grown_to_buf T y T1 t' h0 h :
  grown_by T y (Some T1) t' h0 h → zlen (yield t') < 2 ^ 64 →
  wp (tree_to_buf (Some T1)) h (λ _ h', grown_by T y (Some T1) t' h0 h' ∧ trees h' !! T = trees h !! T ∧
    nodes h' = nodes h ∧ ∃ y1, trees h' !! T1 = Some y1 ∧ text_is y1 (yield t')).
Proof.
  intros (T2 & y1 & p1 & ls1 & y' & [= <-] & Hne & Hin & Hb & Hok & Hold & Hy & Ho & Hby) Hlt.
  eapply wp_mono; [eapply (tree_to_buf_ok Hmem h T1 y1 p1 true None t' ls1); try done; apply Hin|].
  intros [] h' (y2 & Hs & Ho2 & Htext). pose proof Hs as [S1 S2 S3 S4 S5 S6].
  assert (trees h' !! T = trees h !! T) as HT by (by apply S3). split; [|split; [done|split; [done|by exists y2]]].
  exists T1, y2, p1, ls1, y'. split_and!; try done.
  - destruct Hin as [I1 I2 I3 I4]. split; [done|by rewrite (proj1 Ho2)|by rewrite S4|done].
  - by eapply text_is_buf.
  - by eapply tree_step_ok.
  - intros q Hq. rewrite S4. by apply Hold.
  - by rewrite HT.
Qed.

(** One result of [random_recursive_mutation]. *)
Lemma rrm_new (w : world R) T y' p t ls i n :
  stored (w_heap w) T p t ls → trees (w_heap w) !! T = Some y' → buf_ok (data_buf y') (data_size y') →
  counted t → count_nt t < 2 ^ 32 → count_edges t < 2 ^ 32 → fits i t → 0 ≤ n ≤ 10 →
  wp (random_recursive_mutation (Some T) n) w (λ T' w', ∃ h' r t', w' = set_rng r (set_heap h' w) ∧
    grown_by T y' T' t' (w_heap w) h' ∧ trees h' !! T = Some y' ∧ typed productions (NT i) t' ∧ zlen (yield t') < 2 ^ 60).
Proof.
  intros St Hy Hb Hc Hnt He Hf Hn. eapply wp_mono; [eapply (random_recursive_mutation_ok Hmem w T p t ls n); try done; intros _; lia|].
  intros T' w' (h' & r & -> & Hcase). exists h', r. case_decide.
  - exists t. destruct Hf. split; [done|]. split; [by eapply new_tree_grown; [apply St|..]|].
    split; [by eapply new_tree_keeps|]. split; [done|lia].
  - destruct Hcase as (π & k & va & vb & Hget & Hk & Hgid & Hnew). eexists. split; [done|].
    split; [by eapply new_tree_grown; [apply St|..]|]. split; [by eapply new_tree_keeps|]. by eapply fits_repeat.
Qed.

(** The new tree over the state before the attempt, which is itself over [h0]. *)
Lemma grown_between T y v h0 h y' T' t' h' :
  trees h !! T = Some y' → text_only y y' → (∀ q, is_Some (nodes h0 !! q) → nodes h !! q = nodes h0 !! q) →
  grown_by T y' T' t' h h' → text_is y' v → grown_by T y T' t' h0 h'.
Proof.
  intros Hy Ho Hsame (T1 & y1 & p1 & ls1 & y2 & -> & Hne & Hin & Hb & Hok & Hold & Hy2 & Ho2 & Hby) Htext.
  exists T1, y1, p1, ls1, y2. split_and!; try done; [|by eapply text_only_trans].
  intros q Hq. rewrite <- (Hsame q Hq). apply Hold. by rewrite Hsame.
Qed.
Lemma rrm_loop_ok fuel : ∀ d T y p t ls i h0 prev,
  heap_ok h0 → root y = Some p → shape true (nodes h0) None p t ls → NoDup ls → fits i t →
  counted t → count_nt t < 2 ^ 32 → count_edges t < 2 ^ 32 → between T y (yield t) prev h0 (w_heap (d_world d)) →
  wlp (rrm_loop fuel (Some T) prev) d (λ T' d', ∃ h' r t', d' = set_world (set_rng r (set_heap h' (d_world d))) d ∧
    grown_by T y T' t' h0 h' ∧ typed productions (NT i) t' ∧ zlen (yield t') ≤ 2 ^ 10 + zlen (yield t)).
Proof.
  induction fuel as [|fuel IH]; intros d T y p t ls i h0 prev Hok0 Hroot Hs Hnd Hf Hc Hnt He Hbtw; [done|].
  cbn [rrm_loop]. apply wlp_bind. eapply wlp_mono; [by eapply wp_wlp, free_prev_ok|].
  intros [] ? (h & -> & Hok & Hsame & y' & Hy & Ho & Htext). simpl.
  apply wlp_bind, wp_wlp, wp_in_world, wp_draw_below. intros n r Hn0 Hn _. simpl.
  assert (n < 11) by exact (Hn eq_refl). set (w := set_rng r (set_heap h (d_world d))).
  assert (stored (w_heap w) T p t ls) as St.
  { split; [done| | |done]; [exists y'; by rewrite (proj1 Ho)|]. eapply shape_frame; [|exact Hs]. intros q Hq. apply Hsame.
    by eapply shape_lookup. }
  apply wlp_bind, wp_wlp, wp_in_world. simpl.
  eapply wp_mono; [eapply (rrm_new w T y' p t ls i n); try done; [by eapply text_is_buf|lia]|].
  intros T' ? (h1 & r1 & t' & -> & Hg & HT & Ht' & Hl). pose proof Hg as (T1 & ? & ? & ? & ? & -> & _).
  apply wlp_bind, wp_wlp, wp_in_heap. simpl. eapply wp_mono; [eapply grown_to_buf; [exact Hg|lia]|].
  intros [] h2 (Hg2 & HT2 & Hnodes & y1 & Hy1 & Htext1). apply wlp_bind, wp_wlp, wp_in_heap. eapply wp_load_tree; [done|].
  apply wlp_bind, wp_wlp, wp_in_heap. simpl. eapply wp_load_tree; [by rewrite HT2|].
  pose proof Htext as (Hb & Hlen & Hpre). destruct Htext1 as (Hb1 & Hlen1 & Hpre1). rewrite Hlen, Hlen1.
  assert (grown_by T y (Some T1) t' h0 h2) as Hg0 by exact (grown_between T y (yield t) h0 h y' (Some T1) t' h2 Hy Ho Hsame Hg2 Htext).
  change (Z.shiftl 1 RRM_GROWTH) with (2 ^ 10). case_decide as Hbig.
  - set (d2 := set_world _ _). eapply wlp_mono; [eapply (IH d2 T y p t ls i h0 (Some T1)); try done|].
    + exists t'. split; [done|]. exists y'. split; [by etrans|done].
    + intros T'' d' (h' & r' & t'' & -> & ?). exists h', r', t''. by split.
  - apply wp_wlp, wp_ret. exists h2, r1, t'. split; [done|]. split; [done|]. split; [done|lia].
Qed.

Lemma mutate_recursive_ok fuel d x T y p t ls i m :
  session d x T y p t ls i m → cur_fuzzing_stage x = 2 →
  wlp (mutate fuel (Some T) x) d (λ o d', ∃ T' t', o = Some T' ∧ mutated d T y i T' t' d').
Proof.
  intros S Hst. pose proof (session_stored _ _ _ _ _ _ _ _ _ S) as St. pose proof (ss_target _ _ _ _ _ _ _ _ _ S) as Tg.
  destruct (tg_fits _ _ _ _ _ Tg) as [Ht Hl]. pose proof (st_shape _ _ _ _ _ St) as Hs.
  unfold mutate. rewrite Hst. cbn [decide]. apply wlp_bind, wp_wlp, wp_in_heap.
  eapply wp_mono; [eapply (tree_to_buf_ok Hmem _ T y p true None t ls); first [exact Hs|apply S|apply Tg|lia]|].
  intros [] h1 (y' & Hstep & Ho & Htext). apply wlp_bind.
  eapply wlp_mono; [eapply (rrm_loop_ok fuel _ T y p t ls i (w_heap (d_world d)) None); try first [exact Hs|apply S|apply Tg]|].
  - split; [by eapply tree_step_ok; [|apply S]|]. split; [intros q _; exact (f_equal (lookup q) (ts_nodes _ _ _ _ _ Hstep))|].
    exists y'. split; [apply Hstep|]. by split.
  - intros T' d' (h' & r & t' & -> & Hg & Ht' & Hl'). apply wp_wlp, wp_ret. exists T', t'. split; [done|].
    exists h', r. split; [done|]. split; [done|]. split; [done|lia].
Qed.
End Fuzz.
