(* ===== verification/FuzzStages.v ===== *)
(** * FuzzStages: the stages of [afl_custom_fuzz]

    Four stages are walked through: every other rule of every non-terminal of the
    current tree, then as many random, random recursive and splicing mutations as
    are configured.  [ready] is the state between two calls, [steps_left] the
    number of calls to come. *)

From S2P Require Import Prelude Buffer Utils Tree TreeSpec TreeNodes TreeSizes TreeText TreePaths GrammarTypes TreeLists TreePicks StrMap World TreeGrafts TreeLife ChunkStore TreeMutation MutationSpec SplicingSpec MutatorState GrammarMutator RulesPlan FuzzRound.

Definition stage_total (s : Z) (x : my_mutator) : Z :=
  if decide (s = 0) then total_rules_mutation_steps x
  else if decide (s = 1) then total_random_mutation_steps x
  else if decide (s = 2) then total_random_recursive_mutation_steps x
  else if decide (s = 3) then total_splicing_mutation_steps x else 0.

(** The calls that are left: the rest of this stage and the stages after it. *)
Definition steps_left (x : my_mutator) : Z :=
  let from s := if decide (cur_fuzzing_stage x ≤ s) then stage_total s x else 0 in
  from 0 + from 1 + from 2 + from 3 - cur_fuzzing_step x.

Definition totals_ok (x : my_mutator) : Prop := ∀ s, 0 ≤ stage_total s x < 2 ^ 62.

Definition placed (s st : Z) (x : my_mutator) : my_mutator := set_cur_fuzzing_step st (set_cur_fuzzing_stage s x).

(** All stages are done. *)
Definition finished (x : my_mutator) : Prop := cur_fuzzing_stage x = 4 ∧ cur_fuzzing_step x = 0.

Definition in_stage (x : my_mutator) : Prop :=
  1 ≤ cur_fuzzing_stage x ≤ 3 ∧ 0 ≤ cur_fuzzing_step x < stage_total (cur_fuzzing_stage x) x.

(** Leaving a stage, when its steps are done, for the next one that has any. *)
Lemma leave_stages_ok x :
  totals_ok x → 1 ≤ cur_fuzzing_stage x ≤ 3 → 0 ≤ cur_fuzzing_step x ≤ stage_total (cur_fuzzing_stage x) x →
  ∃ s st, leave_stages x = placed s st x ∧ (in_stage (placed s st x) ∨ finished (placed s st x)) ∧
    steps_left (placed s st x) = steps_left x.
Proof.
  intros Ht Hs Hst. pose proof (Ht 1) as T1. pose proof (Ht 2) as T2. pose proof (Ht 3) as T3. clear Ht.
  destruct x. unfold leave_stages, leave_stage, in_stage, finished, steps_left, stage_total, placed in *. simpl in *.
  assert (cur_fuzzing_stage = 1 ∨ cur_fuzzing_stage = 2 ∨ cur_fuzzing_stage = 3) as [->|[->| ->]] by lia; simpl in *;
    repeat (case_decide; simpl in *; try lia); eexists _, _; (split; [reflexivity|]); simpl; lia.
Qed.

Lemma leave_stages_rules x : cur_fuzzing_stage x = 0 → leave_stages x = x.
Proof. destruct x. simpl. intros ->. reflexivity. Qed.

Section Stages.
Context `{Host} (Hmem : never_refuses) {R : Type} `{!Random R, !Grammar R, !Digest}.

(** In the first stage, the walk stands at the first entry of what is left. *)
Record at_rule (m : gmap loc node) (ls : list loc) (x : my_mutator) (y : tree) (q : loc) (r : Z) (todo : list (loc * Z)) : Prop := {
  ar_stage : cur_fuzzing_stage x = 0;
  ar_node : cur_rules_mutation_node x = Some q;
  ar_rule : cur_rules_mutation_rule_id x = r;
  ar_rest : ∃ rest, non_terminal_node_list y = Some rest ∧ plan m q r rest = (q, r) :: todo ∧
              q :: rest `suffix_of` non_terminals m ls;
  ar_usable : usable m q r;
  ar_step : 0 ≤ cur_fuzzing_step x;
  ar_left : total_rules_mutation_steps x - cur_fuzzing_step x = zlen todo + 1 }.

(** The mutator before a call: [todo] is what the first stage has yet to try. *)
Definition ready (m : gmap loc node) (ls : list loc) (x : my_mutator) (y : tree) (todo : list (loc * Z)) : Prop :=
  totals_ok x ∧
  match todo with
  | e :: todo => at_rule m ls x y e.1 e.2 todo
  | [] => in_stage x
  end.

(** What the status update does not touch. *)
Definition same_case (x x' : my_mutator) : Prop :=
  tree_cur x' = tree_cur x ∧ mutated_tree x' = mutated_tree x ∧ fuzz_buf x' = fuzz_buf x ∧ fuzz_size x' = fuzz_size x ∧
  ∀ s, stage_total s x' = stage_total s x.

Lemma find_next_rule_ok m d T y x rest q n num r e todo :
  m ⊆ nodes (w_heap (d_world d)) →
  tree_cur x = Some T → m !! q = Some n → node_num_rules !! Z.to_nat (id n) = Some num → 0 ≤ rule_id n < num → num < 2 ^ 32 →
  0 ≤ r → Forall (ruled m) rest → plan m q r rest = e :: todo →
  wp find_next_rule (walking d T y x rest (Some q) r) (λ _, at_first m d T y x rest q e todo).
Proof.
  intros Hm Htc Hq Hnum Hown H32 Hr Hrest Hplan. unfold find_next_rule. apply wp_bind. eapply wp_get_data; [done|].
  apply wp_bind, wp_get. eapply next_rule_ok; try done. change (tree_cur (set_place (Some q) r x)) with (tree_cur x).
  rewrite Htc. unfold rule_fuel, rounds. simpl. rewrite lookup_insert_eq. simpl. case_decide; lia.
Qed.

(** From one entry of the plan to the next. *)
Lemma advance_rule_ok m ls d T y x q r e todo :
  d_data d = Some x → m ⊆ nodes (w_heap (d_world d)) → trees (w_heap (d_world d)) !! T = Some y → tree_cur x = Some T →
  Forall (ruled m) (non_terminals m ls) → totals_ok x → at_rule m ls x y q r (e :: todo) →
  wp advance d (λ _ d', ∃ rest' q' r', d' = walking d T y (set_cur_fuzzing_step (cur_fuzzing_step x + 1) x) rest' (Some q') r' ∧
    at_rule m ls (set_place (Some q') r' (set_cur_fuzzing_step (cur_fuzzing_step x + 1) x))
      (set_non_terminal_node_list (Some rest') y) e.1 e.2 todo).
Proof.
  intros Hd Hm Hy Htc Hruled Htot [Hst Hn Hr (rest & Hrest & Hplan & Hsuf) (n & num & Hqn & Hnum & Hrange & Hown) Hstep Hleft].
  pose proof (Htot 0) as Ht0. unfold stage_total in Ht0. simpl in Ht0. rewrite length_cons in Hleft.
  assert (Forall (ruled m) (q :: rest)) as Hall.
  { destruct Hsuf as [l Hl]. rewrite Hl in Hruled. by apply Forall_app in Hruled as [_ ?]. }
  apply Forall_cons in Hall as [(n' & num' & Hn' & Hnum' & Hrid & H32) Hall]. assert (n' = n) as -> by congruence.
  assert (num' = num) as -> by congruence.
  rewrite (walking_start d T y x rest (Some q) r) by done. unfold advance.
  apply wp_bind. eapply wp_upd; [done|]. apply wp_bind. eapply wp_get_data; [done|].
  change (cur_fuzzing_step (set_place (Some q) r x)) with (cur_fuzzing_step x). rewrite (wrap_small 64 (_ + 1)) by lia.
  set (x1 := set_cur_fuzzing_step (cur_fuzzing_step x + 1) x).
  match goal with |- wp _ ?s _ => change s with (walking d T y x1 rest (Some q) r) end.
  change (set_cur_fuzzing_step _ (set_place _ _ _)) with (set_place (Some q) r x1).
  change (cur_fuzzing_stage (set_place (Some q) r x1)) with (cur_fuzzing_stage x). rewrite Hst, (decide_True (P := 0 = 0)) by done.
  change (total_rules_mutation_steps (set_place (Some q) r x1)) with (total_rules_mutation_steps x).
  change (cur_fuzzing_step (set_place (Some q) r x1)) with (cur_fuzzing_step x + 1).
  apply wp_bind. rewrite decide_False by lia. apply wp_bind. eapply wp_upd; [done|].
  change (cur_rules_mutation_rule_id (set_place (Some q) r x1)) with r. rewrite wrap_small by lia.
  match goal with |- wp _ ?s _ => change s with (walking d T y x1 rest (Some q) (r + 1)) end.
  pose proof (plan_step m q n num r rest Hqn Hnum ltac:(lia)) as Hps. rewrite Hplan, (decide_False (P := r = rule_id n)) in Hps by done.
  injection Hps as Hps.
  eapply wp_mono; [eapply (find_next_rule_ok m d T y x1 rest q n num (r + 1) e todo); try done; lia|].
  intros [] d' (q' & r' & rest' & -> & -> & Hu & Hplan' & Hsuf').
  eapply wp_upd; [done|]. rewrite leave_stages_rules by done. exists rest', q', r'. rewrite walking_absorb.
  split; [done|]. split; simpl; try done; [|lia|lia]. exists rest'. split; [done|]. split; [done|]. by etrans.
Qed.
(** [d] with another mutator state and another record of the tree [T]. *)
Definition moved (d : driver R) (T : loc) (y : tree) (x : my_mutator) : driver R :=
  let h := w_heap (d_world d) in
  set_data (Some x) (set_world (set_heap (set_trees (<[T := y]> (trees h)) h) (d_world d)) d).

Lemma moved_id (d : driver R) T y x' :
  trees (w_heap (d_world d)) !! T = Some y → set_data (Some x') d = moved d T y x'.
Proof.
  destruct d as [[h rg ml cs sc] dd dirs ? ? ?], h. unfold moved. simpl. intros Hy. do 3 f_equal. by rewrite insert_id.
Qed.

(** One step further. *)
Definition advanced (m : gmap loc node) (ls : list loc) (x : my_mutator) (y : tree) (todo : list (loc * Z))
    (x' : my_mutator) (y' : tree) : Prop :=
  same_case x x' ∧ (∃ l, y' = set_non_terminal_node_list l y) ∧
  (ready m ls x' y' (tail todo) ∨ tail todo = [] ∧ finished x') ∧ steps_left x' = steps_left x - 1.

Lemma set_same_list y : set_non_terminal_node_list (non_terminal_node_list y) y = y.
Proof. by destruct y. Qed.

(** The end of a round in the later stages. *)
Lemma leave_ok m ls x y d T s st :
  d_data d = Some (placed s st x) → trees (w_heap (d_world d)) !! T = Some y → totals_ok x →
  1 ≤ s ≤ 3 → 0 ≤ st ≤ stage_total s x → steps_left (placed s st x) = steps_left x - 1 →
  wp (upd leave_stages) d (λ _ d', ∃ x' y', d' = moved d T y' x' ∧ advanced m ls x y [] x' y').
Proof.
  intros Hd Hy Htot Hs Hst Hleft. eapply wp_upd; [done|].
  assert (totals_ok (placed s st x)) as Htot' by done.
  destruct (leave_stages_ok (placed s st x)) as (s' & st' & -> & Hnext & Hleft'); [done|done|done|].
  exists (placed s' st' (placed s st x)), y. split; [by apply moved_id|]. split; [done|].
  split; [exists (non_terminal_node_list y); by rewrite set_same_list|].
  split; [|lia]. destruct Hnext as [Hin|Hfin]; [left|by right]. split; done.
Qed.

Lemma steps_left_step x : totals_ok x → steps_left (set_cur_fuzzing_step (cur_fuzzing_step x + 1) x) = steps_left x - 1.
Proof. intros _. unfold steps_left. simpl. unfold stage_total. simpl. repeat case_decide; lia. Qed.

Lemma advance_ok m ls d T y x todo :
  d_data d = Some x → m ⊆ nodes (w_heap (d_world d)) → trees (w_heap (d_world d)) !! T = Some y → tree_cur x = Some T →
  Forall (ruled m) (non_terminals m ls) → ready m ls x y todo →
  wp advance d (λ _ d', ∃ x' y', d' = moved d T y' x' ∧ advanced m ls x y todo x' y').
Proof.
  intros Hd Hm Hy Htc Hruled [Htot Hready]. destruct todo as [|e [|e' todo]].
  - destruct Hready as [Hs Hst]. pose proof (Htot (cur_fuzzing_stage x)).
    unfold advance. apply wp_bind. eapply wp_upd; [done|]. apply wp_bind. eapply wp_get_data; [done|].
    rewrite wrap_small by lia. rewrite decide_False by (simpl; lia). apply wp_bind, wp_ret.
    eapply wp_mono; [eapply (leave_ok m ls x y _ T (cur_fuzzing_stage x) (cur_fuzzing_step x + 1)); try done; [lia|]|].
    + rewrite <- steps_left_step by done. by destruct x.
    + intros [] d' (x' & y' & -> & ?). by exists x', y'.
  - destruct Hready as [Hst Hn Hr Hrest Hu Hstep Hleft]. pose proof (Htot 0) as Ht0. unfold stage_total in Ht0. simpl in Ht0, Hleft.
    unfold advance. apply wp_bind. eapply wp_upd; [done|]. apply wp_bind. eapply wp_get_data; [done|].
    rewrite wrap_small by lia. set (x1 := set_cur_fuzzing_step _ x).
    change (cur_fuzzing_stage x1) with (cur_fuzzing_stage x). rewrite Hst, (decide_True (P := 0 = 0)) by done.
    change (total_rules_mutation_steps x1) with (total_rules_mutation_steps x).
    change (cur_fuzzing_step x1) with (cur_fuzzing_step x + 1). rewrite decide_True by lia.
    apply wp_bind. eapply wp_upd; [done|]. unfold leave_stage.
    change (cur_fuzzing_step x1) with (cur_fuzzing_step x + 1).
    change (cur_fuzzing_stage x1) with (cur_fuzzing_stage x). rewrite decide_True by lia.
    eapply wp_mono; [eapply (leave_ok m ls x y _ T 1 0); try done; [split; [done|apply Htot]|]|].
    + unfold steps_left. rewrite Hst. unfold stage_total. simpl. lia.
    + intros [] d' (x' & y' & -> & ?). by exists x', y'.
  - eapply wp_mono; [by eapply (advance_rule_ok m ls d T y x e.1 e.2 e' todo)|].
    intros [] d' (rest' & q' & r' & -> & Har). eexists _, (set_non_terminal_node_list (Some rest') y). split; [done|].
    split; [by destruct x|]. split; [by exists (Some rest')|]. split.
    + left. split; [exact Htot|exact Har].
    + rewrite <- steps_left_step by done. by destruct x.
Qed.
End Stages.
