(* ===== verification/ToySession.v ===== *)
(** * ToySession: a session over the sample tree, for the witnesses *)

From S2P Require Import Prelude Buffer Utils Tree TreeSpec TreeSizes TreeText TreePaths GrammarTypes TreeLists TreePicks StrMap World TreeGrafts TreeLife ToyGrammar ChunkStore TreeMutation MutationSpec SplicingSpec MutatorState GrammarMutator RulesPlan FuzzRound FuzzStages.

Lemma toy_builds_fit i u : toy_builds i u → fits toy_productions i u.
Proof.
  intros Hb. split; [by apply toy_builds_typed|]. destruct Hb as (_ & a & b & ->). vm_compute. reflexivity.
Qed.

(** The sample tree is current; three random mutations are to come. *)
Definition toy_mutator : my_mutator :=
  set_total_random_mutation_steps 3 (set_cur_fuzzing_stage 1 (set_tree_cur (Some 9%positive) zero_mutator)).

Definition toy_driver : driver unit := Driver toy_world (Some toy_mutator) ∅ 3 0 2.

Lemma toy_ruled : Forall (ruled (Grammar0 := toy_grammar (H := obliging)) (nodes sample_heap)) (non_terminals (nodes sample_heap) sample_locs).
Proof.
  change (non_terminals (nodes sample_heap) sample_locs) with [1%positive; 2%positive; 4%positive].
  repeat constructor; eexists _, 2; (split; [reflexivity|]); (split; [reflexivity|]); simpl; lia.
Qed.

Lemma toy_target :
  target (Grammar0 := toy_grammar (H := obliging)) toy_productions (nodes sample_heap) 1 sample_tree sample_locs 1.
Proof.
  split.
  - apply sample_shape.
  - apply sample_NoDup.
  - split; [apply sample_typed|]. vm_compute. reflexivity.
  - apply sample_counted.
  - vm_compute. reflexivity.
  - vm_compute. reflexivity.
  - apply sample_covered.
  - apply toy_ruled.
Qed.

Lemma toy_session : session (Grammar0 := toy_grammar (H := obliging)) toy_productions toy_driver toy_mutator 9 (tree_at 1) 1
  sample_tree sample_locs 1 (nodes sample_heap).
Proof.
  split; [split|]; try done.
  - apply sample_heap_ok.
  - apply toy_target.
Qed.

Lemma toy_ready : ready (Grammar0 := toy_grammar (H := obliging)) (nodes sample_heap) sample_locs toy_mutator (tree_at 1) [].
Proof.
  split; [|by vm_compute]. intros s. unfold stage_total. repeat case_decide; by vm_compute.
Qed.
