(* ===== verification/FuzzOutput.v ===== *)
(** * FuzzOutput: calls of [afl_custom_fuzz] from start to end

    A call hands out a text of the grammar's language and leaves the mutator
    ready for the next one; the calls that [afl_custom_fuzz_count] announces are
    exactly those it takes to go through the stages. *)

From S2P Require Import Prelude Buffer Utils Tree TreeSpec TreeNodes TreeSizes TreeText TreePaths GrammarTypes TreeLists TreePicks StrMap World TreeGrafts TreeLife ChunkStore TreeMutation MutationSpec SplicingSpec MutatorState GrammarMutator RulesPlan FuzzRound FuzzStages ToyGrammar ToySession.

Lemma tree_step_bump_only T x h h' : trees h !! T = Some x → h' = h ∨ h' = bump h → tree_step T x x h h'.
Proof. intros Hx [->| ->]; [by apply tree_step_refl|by apply tree_step_bump, tree_step_refl]. Qed.

Section Output.
Context `{Host} (Hmem : never_refuses) {R : Type} `{!Random R, !Grammar R, !Digest}.

(** Copying [len] bytes of a tree's text to the output buffer. *)
Lemma output_tree_ok (d : driver R) x T1 y1 v len :
  d_data d = Some x → trees (w_heap (d_world d)) !! T1 = Some y1 → text_is y1 v → 0 ≤ len ≤ zlen v → len < 2 ^ 64 →
  buf_ok (fuzz_buf x) (fuzz_size x) →
  wp (output_tree (Some T1) len) d (λ res d', res = (len, true) ∧ ∃ h' b s,
    (h' = w_heap (d_world d) ∨ h' = bump (w_heap (d_world d))) ∧
    d' = set_data (Some (set_fuzz_buf (Some b) (set_fuzz_size s x))) (set_world (set_heap h' (d_world d)) d) ∧
    buf_ok (Some b) s ∧ (Some <$> take (Z.to_nat len) v) `prefix_of` b).
Proof.
  intros Hd Hy (Hb & Hlen & Hpre) Hl H64 Hout. unfold output_tree. apply wp_bind. eapply wp_get_data; [done|].
  destruct (maybe_grow_ok (fuzz_buf x) (fuzz_size x) len Hout ltac:(lia)) as [(bs & size' & Hg & Hok & Hge & _) _].
  apply wp_bind, wp_in_heap.
  assert (wp (grow (fuzz_buf x) (fuzz_size x) len) (w_heap (d_world d)) (λ r h', r = (Some bs, size') ∧
    (h' = w_heap (d_world d) ∨ h' = bump (w_heap (d_world d))))) as Hgrow.
  { unfold grow. destruct (must_grow _ _); [apply wp_bind, wp_request; [done|]|]; apply wp_ret; simpl negb; rewrite Hg; auto. }
  eapply wp_mono; [exact Hgrow|]. intros ? h' (-> & Hh').
  assert (trees h' !! T1 = Some y1) as Hy' by (by destruct Hh' as [->| ->]).
  apply wp_bind. eapply wp_upd; [done|]. cbn [fst snd]. apply wp_bind, wp_in_heap. eapply wp_load_tree; [done|].
  apply wp_bind, wp_in_heap. set (u := take (Z.to_nat len) v).
  assert (len = zlen u) as Hu by (unfold u; rewrite length_take; lia). rewrite Hu.
  eapply (wp_append_bytes bs size' 0 []).
  - split; [done|]. split; [done|apply prefix_nil].
  - lia.
  - intros Hne. assert (v ≠ []) as Hv by (intros Hv; apply Hne; unfold u; rewrite Hv; by destruct (Z.to_nat len)).
    destruct (data_buf y1) as [s|]; simpl in Hpre.
    + exists s. split; [done|]. etrans; [|exact Hpre]. unfold u. rewrite fmap_take. exists (drop (Z.to_nat len) (Some <$> v)). by rewrite take_drop.
    + apply prefix_nil_inv in Hpre. by destruct v.
  - intros bs' (Hb' & _ & Hpre'). apply wp_bind. eapply wp_upd; [done|]. apply wp_ret. split; [done|].
    exists h', bs', size'. split; [done|]. split; [by destruct x|]. by split.
Qed.

Context (productions : Z → list (list symbol)).

(** A tree of its own beside the session. *)
Definition beside (m : gmap loc node) (h : heap) (T T1 : loc) (t' : gtree) : Prop := T1 ≠ T ∧ ∃ y1 p1 ls1,
  tree_in h T1 y1 p1 t' ls1 ∧ buf_ok (data_buf y1) (data_size y1) ∧ ∀ q, q ∈ ls1 → m !! q = None.

(** The new tree is printed, measured and remembered by [f], and the first [g] bytes
    of its text are handed out. *)
Lemma hand_out_core (f : my_mutator → my_mutator) (g : Z → Z) d x T y p t ls i m T1 t' :
  core productions d x T y p t ls i m → tree_cur (f x) = tree_cur x → fuzz_buf (f x) = fuzz_buf x → fuzz_size (f x) = fuzz_size x →
  beside m (w_heap (d_world d)) T T1 t' → zlen (yield t') < 2 ^ 41 → gid t' ≠ 0 → 0 ≤ g (zlen (yield t')) ≤ zlen (yield t') →
  wp (_ ← in_heap (tree_to_buf (Some T1)); _ ← in_heap (tree_get_size (Some T1)); _ ← upd f;
      y1 ← in_heap (load_tree (Some T1)); output_tree (Some T1) (g (data_len y1))) d
    (λ res d', ∃ b s, let x' := set_fuzz_buf (Some b) (set_fuzz_size s (f x)) in
      res = (g (zlen (yield t')), true) ∧ core productions d' x' T y p t ls i m ∧
      beside m (w_heap (d_world d')) T T1 (recount t') ∧ (Some <$> take (Z.to_nat (g (zlen (yield t')))) (yield t')) `prefix_of` b).
Proof.
  intros S F1 F2 F3 (Hne & y1 & p1 & ls1 & Hin & Hb & Hap) Hl Hid Hg. set (h := w_heap (d_world d)) in *.
  pose proof (ti_tree _ _ _ _ _ _ Hin) as Hy1. pose proof (ti_root _ _ _ _ _ _ Hin) as Hr1.
  pose proof (ti_shape _ _ _ _ _ _ Hin) as Hs1. pose proof (ti_NoDup _ _ _ _ _ _ Hin) as Hnd1.
  apply wp_bind, wp_in_heap. eapply wp_mono; [eapply (tree_to_buf_ok Hmem h T1 y1 p1 true None t' ls1); try done; lia|].
  intros [] h1 (y2 & Hst & Ho & Htext). pose proof Hst as [A1 A2 A3 A4 A5 A6].
  assert (tree_in h1 T1 y2 p1 t' ls1) as Hin1 by (split; [done|by rewrite (proj1 Ho)|by rewrite A4|done]).
  apply wp_bind, wp_in_heap. eapply wp_mono; [by eapply tree_get_size_ok|]. intros _ h2 (Hs2 & [B1 B2 B3 B4]).
  simpl in B1, B2, B3, B4.
  apply wp_bind. eapply wp_upd; [apply S|]. apply wp_bind, wp_in_heap. eapply wp_load_tree; [simpl; by rewrite B2|].
  pose proof Htext as (_ & Hlen & _). simpl in Hlen. rewrite Hlen.
  eapply wp_mono; [eapply (output_tree_ok _ (f x) T1 y2 (yield t')); [done|simpl; by rewrite B2|done|lia|lia|]|].
  { rewrite F2, F3. apply S. }
  intros res d' (-> & h' & b & s & Hh' & -> & Hok & Hpre). exists b, s. simpl in Hh'. simpl w_heap.
  assert (heap_ok h2) as Hok2.
  { pose proof (tree_step_ok _ _ _ _ _ Hst ltac:(apply S)) as [O1 O2]. split; rewrite B4; [|by rewrite B2].
    intros q n Hq. destruct (decide (q ∈ ls1)) as [Hql|Hql]; [|rewrite B1 in Hq by done; by eapply O1].
    destruct (shape_lookup _ _ _ _ _ _ q (ti_shape _ _ _ _ _ _ Hin1) Hql) as [n' Hn']. by eapply O1. }
  assert (nodes h' = nodes h2 ∧ trees h' = trees h2) as [Hn' Ht'] by (by destruct Hh' as [->| ->]).
  assert (heap_ok h') as Hok'.
  { destruct Hh' as [->| ->]; [done|]. destruct Hok2 as [O1 O2]. split; simpl; [intros q n ?%O1|intros q z ?%O2]; lia. }
  assert (tree_in h' T1 y2 p1 (recount t') ls1) as Hin'.
  { split; [by rewrite Ht', B2|by rewrite (proj1 Ho)|by rewrite Hn'|done]. }
  split; [done|]. split; [|split; [|done]].
  - split; simpl; try apply S; try done.
    + rewrite F1. apply S.
    + rewrite Hn'. apply map_subseteq_spec. intros q n Hq. rewrite B1, A4; [by eapply lookup_weaken; [|apply S]|].
      intros Hql. by rewrite (Hap q Hql) in Hq.
    + rewrite Ht', B2, A3 by done. apply S.
  - split; [done|]. exists y2, p1, ls1. split; [done|]. split; [by eapply text_is_buf|done].
Qed.

Lemma take_min {A} (l : list A) n : take (Z.to_nat (Z.min (zlen l) n)) l = take (Z.to_nat n) l.
Proof.
  destruct (decide (n ≤ zlen l)); [by rewrite Z.min_r|]. rewrite Z.min_l, !take_ge by lia. done.
Qed.

(** The cut that [afl_custom_fuzz] makes. *)
Definition at_most (max_size n : Z) : Z := if decide (n ≤ max_size) then n else max_size.

Lemma at_most_min max_size n : at_most max_size n = Z.min n max_size.
Proof. unfold at_most. case_decide; lia. Qed.

(** The mutated tree of a session. *)
Lemma hand_out_ok d x T y p t ls i m T1 t' max_size :
  session productions d x T y p t ls i m → beside m (w_heap (d_world d)) T T1 t' →
  zlen (yield t') < 2 ^ 41 → gid t' ≠ 0 → 0 ≤ max_size →
  wp (_ ← in_heap (tree_to_buf (Some T1)); _ ← in_heap (tree_get_size (Some T1)); _ ← upd (set_mutated_tree (Some T1));
      y1 ← in_heap (load_tree (Some T1));
      output_tree (Some T1) (if decide (data_len y1 ≤ max_size) then data_len y1 else max_size)) d
    (λ res d', ∃ b s, let x' := set_fuzz_buf (Some b) (set_fuzz_size s (set_mutated_tree (Some T1) x)) in
      res = (Z.min (zlen (yield t')) max_size, true) ∧ session productions d' x' T y p t ls i m ∧
      beside m (w_heap (d_world d')) T T1 (recount t') ∧ (Some <$> take (Z.to_nat max_size) (yield t')) `prefix_of` b).
Proof.
  intros S Hb Hl Hid Hmax.
  pose proof (hand_out_core (set_mutated_tree (Some T1)) (at_most max_size) d x T y p t ls i m T1 t' ltac:(apply S)
    eq_refl eq_refl eq_refl Hb Hl Hid ltac:(rewrite at_most_min; lia)) as Hw.
  eapply wp_mono; [exact Hw|].
  intros res d' (b & s & -> & S' & Hb' & Hpre). exists b, s. rewrite at_most_min in *. rewrite take_min in Hpre.
  split; [done|]. split; [|by split]. split; [exact S'|]. intros ? [= <-]. pose proof Hb' as (Hne & y2 & p2 & ls2 & ? & _ & ?).
  split; [done|]. by exists y2, p2, (recount t'), ls2.
Qed.

(** *** The session through the steps of a call *)

Lemma free_mutated_ok d x T y p t ls i m :
  session productions d x T y p t ls i m →
  wp (free_tree_of (mutated_tree x)) d (λ _ d', ∃ h', d' = set_world (set_heap h' (d_world d)) d ∧
    session productions (set_data (Some (set_mutated_tree None x)) d') (set_mutated_tree None x) T y p t ls i m).
Proof.
  intros S. destruct (mutated_tree x) as [T2|] eqn:HT2; simpl.
  - destruct (ss_mutated _ _ _ _ _ _ _ _ _ _ S T2 HT2) as (Hne & y2 & p2 & t2 & ls2 & Hin & Hap).
    apply wp_in_heap. eapply wp_mono; [by eapply tree_free_ok|]. intros [] h' D. exists h'. split; [done|].
    split; [split|]; simpl; try apply S; try done.
    + eapply dropped_ok; [done|apply S].
    + apply map_subseteq_spec. intros q n Hq. rewrite (dr_same _ _ _ _ D); [eapply lookup_weaken; [done|apply S]|].
      intros Hq2. by rewrite Hap in Hq.
    + rewrite (dr_trees _ _ _ _ D), lookup_delete_ne by done. apply S.
  - apply wp_ret. exists (w_heap (d_world d)). split; [by destruct d as [[] ? ? ? ? ?]|].
    split; [split|]; simpl; try apply S; done.
Qed.

Lemma session_mutated d x T y p t ls i m T' t' d' :
  session productions d x T y p t ls i m → mutated_tree x = None → mutated productions d T y i T' t' d' →
  ∃ T1 y', T' = Some T1 ∧ session productions d' x T y' p t ls i m ∧ beside m (w_heap (d_world d')) T T1 t' ∧ text_only y y'.
Proof.
  intros S Hnone (h' & r & -> & (T1 & y1 & p1 & ls1 & y' & -> & Hne & Hin & Hb1 & Hok & Hold & Hy' & Ho & Hby) & _).
  assert (∀ q n, m !! q = Some n → nodes h' !! q = Some n ∧ q ∉ ls1) as Hkeep.
  { intros q n Hq. assert (nodes (w_heap (d_world d)) !! q = Some n) as Hn by (eapply lookup_weaken; [done|apply S]).
    rewrite <- Hn. apply Hold. by eexists. }
  exists T1, y'. split; [done|]. split; [|split; [|done]].
  - split; [split|]; simpl; try apply S; try done.
    + apply map_subseteq_spec. intros q n Hq. by apply Hkeep.
    + rewrite (proj1 Ho). apply S.
    + by rewrite Hnone.
  - split; [done|]. exists y1, p1, ls1. split; [done|]. split; [done|]. intros q Hq.
    destruct (m !! q) as [n|] eqn:Hmq; [|done]. by destruct (Hkeep q n Hmq).
Qed.

Lemma session_moved d x T y p t ls i m x' y' :
  session productions d x T y p t ls i m → same_case x x' → (∃ l, y' = set_non_terminal_node_list l y) → mutated_tree x = None →
  session productions (moved d T y' x') x' T y' p t ls i m ∧
  ∀ T1 t', beside m (w_heap (d_world d)) T T1 t' → beside m (w_heap (d_world (moved d T y' x'))) T T1 t'.
Proof.
  intros S (C1 & C2 & C3 & C4 & _) [l ->] Hnone. split.
  - split; [split|]; simpl; try apply S; try done.
    + rewrite C1. apply S.
    + pose proof (ss_ok _ _ _ _ _ _ _ _ _ _ S) as [O1 O2]. split; [done|]. simpl. intros T2 y2.
      intros [[<- _]|[_ Hy2]]%lookup_insert_Some; [|by eapply O2]. eapply O2, S.
    + apply lookup_insert_eq.
    + rewrite C3, C4. apply S.
    + by rewrite C2, Hnone.
  - intros T1 t' (Hne & y1 & p1 & ls1 & Hin & Hb & Hap). split; [done|]. exists y1, p1, ls1. split; [|by split].
    apply (tree_in_frame (w_heap (d_world d))); [|done|done]. simpl. by rewrite lookup_insert_ne.
Qed.

Lemma ready_text m ls x y y' todo : text_only y y' → ready m ls x y todo → ready m ls x y' todo.
Proof.
  intros Ho [Ht Hr]. split; [done|]. destruct todo as [|e todo]; [done|]. destruct Hr. split; try done.
  replace (non_terminal_node_list y') with (non_terminal_node_list y); [done|]. symmetry. apply Ho.
Qed.

(** *** A whole call *)

Context {builds : Z → gtree → Prop} `{!GeneratorLaw (λ _, True) builds} (Hbuilds : ∀ i u, builds i u → fits productions i u).

(** What a call leaves, where [todo] was left to try before it. *)
Definition round_done T p t ls i (m : gmap loc node) x todo max_size (res : Z * bool) (d' : driver R) : Prop :=
  ∃ x' y' t' T1 b, res = (Z.min (zlen (yield t')) max_size, true) ∧
    session productions d' x' T y' p t ls i m ∧ mutated_tree x' = Some T1 ∧ beside m (w_heap (d_world d')) T T1 (recount t') ∧
    typed productions (NT i) t' ∧ fuzz_buf x' = Some b ∧ (Some <$> take (Z.to_nat max_size) (yield t')) `prefix_of` b ∧
    (ready m ls x' y' (tail todo) ∨ tail todo = [] ∧ finished x') ∧ steps_left x' = steps_left x - 1 ∧
    (∀ s, stage_total s x' = stage_total s x) ∧
    match todo with (q, _) :: _ => ∃ π u, loc_at m p π = Some q ∧ t' = gput t π u | [] => True end.

(** From the mutated tree to the end of the call. *)
Lemma round_rest_ok d x T y p t ls i m todo T' t' d' max_size :
  session productions d x T y p t ls i m → mutated_tree x = None → ready m ls x y todo → 0 ≤ max_size →
  mutated productions d T y i T' t' d' →
  match todo with (q, _) :: _ => ∃ π u, loc_at m p π = Some q ∧ t' = gput t π u | [] => True end →
  wp (match T' with
      | None => mret (0, false)
      | Some t1 =>
          _ ← advance;
          _ ← in_heap (tree_to_buf (Some t1)); _ ← in_heap (tree_get_size (Some t1)); _ ← upd (set_mutated_tree (Some t1));
          y1 ← in_heap (load_tree (Some t1));
          output_tree (Some t1) (if decide (data_len y1 ≤ max_size) then data_len y1 else max_size)
      end) d' (round_done T p t ls i m x todo max_size).
Proof.
  intros S Hnone Hready Hmax Hmut Htodo.
  destruct (session_mutated _ _ _ _ _ _ _ _ _ _ _ _ S Hnone Hmut) as (T1 & y' & -> & S' & Hb & Ho).
  destruct Hmut as (_ & _ & _ & _ & Ht' & Hl'). pose proof (typed_gid _ _ _ Ht') as [Hg' Hi'].
  apply wp_bind. eapply wp_mono; [eapply (advance_ok m ls d' T y' x todo); try apply S'; by eapply ready_text|].
  intros [] ? (x2 & y2 & -> & Hcase & Hlist & Hnext & Hleft). pose proof Hcase as (_ & C2 & _ & _ & C5).
  destruct (session_moved _ _ _ _ _ _ _ _ _ _ _ S' Hcase Hlist Hnone) as [S2 Hb2].
  eapply wp_mono; [apply (hand_out_ok _ _ _ _ _ _ _ _ _ _ _ max_size S2 (Hb2 _ _ Hb)); [done|congruence|done]|].
  intros res d3 (b & s & -> & S3 & Hb3 & Hpre). eexists _, y2, t', T1, b. split; [done|]. split; [exact S3|].
  split; [done|]. split; [done|]. split; [done|]. split; [done|]. split; [done|]. split; [|split; [exact Hleft|split; [exact C5|done]]].
  destruct Hnext as [[Htot Hr]|Hfin]; [left|by right]. split; [done|]. destruct (tail todo); [exact Hr|]. by destruct Hr.
Qed.

Lemma at_rule_head m ls x y q r todo : at_rule m ls x y q r todo → q ∈ non_terminals m ls.
Proof.
  intros [_ _ _ (rest & _ & _ & [l ->]) _ _ _]. apply elem_of_app. right. left.
Qed.

(** The switch, for what is ready. *)
Lemma switch_ok fuel d x T y p t ls i m todo :
  session productions d x T y p t ls i m → ready m ls x y todo →
  (if decide (cur_fuzzing_stage x = 2) then wlp else wp) (mutate fuel (Some T) x) d (λ o d', ∃ T' t', o = Some T' ∧
    mutated productions d T y i T' t' d' ∧
    match todo with (q, _) :: _ => ∃ π u, loc_at m p π = Some q ∧ t' = gput t π u | [] => True end).
Proof.
  intros S [_ Hr]. destruct todo as [|[q r] todo].
  - destruct Hr as [Hs _]. case_decide as H2.
    + eapply wlp_mono; [by eapply mutate_recursive_ok|]. intros o d' (T' & t' & ? & ?). by exists T', t'.
    + assert (cur_fuzzing_stage x = 1 ∨ cur_fuzzing_stage x = 3) as [H1|H3] by lia.
      * eapply wp_mono; [by eapply mutate_random_ok|]. intros o d' (T' & t' & ? & ?). by exists T', t'.
      * eapply wp_mono; [by eapply mutate_splicing_ok|]. intros o d' (T' & t' & ? & ?). by exists T', t'.
  - simpl in Hr. rewrite decide_False by (rewrite (ar_stage _ _ _ _ _ _ _ Hr); lia).
    eapply wp_mono; [eapply mutate_rules_ok with (q := q) (r := r); try done; try apply Hr; by eapply at_rule_head|].
    intros o d' (T' & t' & π & u & ? & ? & Hloc & ?). exists T', t'. split; [done|]. split; [done|]. exists π, u.
    split; [|done]. rewrite <- Hloc. symmetry. eapply loc_at_frame; [apply (ss_target _ _ _ _ _ _ _ _ _ _ S)|].
    intros z Hz. destruct (shape_lookup _ _ _ _ _ _ z (tg_shape _ _ _ _ _ _ (ss_target _ _ _ _ _ _ _ _ _ _ S)) Hz) as [n Hn].
    rewrite Hn. eapply lookup_weaken; [done|apply S].
Qed.

(** In the random recursive stage the loop of the source has no bound; everywhere
    else a call returns whatever [fuel] is. *)
Lemma fuzz_ok fuel d x T y p t ls i m todo max_size :
  session productions d x T y p t ls i m → ready m ls x y todo → 0 ≤ max_size →
  (if decide (cur_fuzzing_stage x = 2) then wlp else wp) (afl_custom_fuzz fuel max_size) d
    (round_done T p t ls i m x todo max_size).
Proof.
  intros S Hready Hmax. set (x1 := set_mutated_tree None x).
  assert (∀ d1, session productions d1 x1 T y p t ls i m →
    (if decide (cur_fuzzing_stage x = 2) then wlp else wp) (r ← mutate fuel (Some T) x1;
      match r with
      | None | Some None => mret (0, false)
      | Some (Some t1) =>
          _ ← advance;
          _ ← in_heap (tree_to_buf (Some t1)); _ ← in_heap (tree_get_size (Some t1)); _ ← upd (set_mutated_tree (Some t1));
          y1 ← in_heap (load_tree (Some t1));
          output_tree (Some t1) (if decide (data_len y1 ≤ max_size) then data_len y1 else max_size)
      end) d1 (round_done T p t ls i m x todo max_size)) as Hrest.
  { intros d1 S1. assert (ready m ls x1 y todo) as Hready1.
    { destruct Hready as [? Hr]. split; [done|]. destruct todo; [done|]. by destruct Hr. }
    pose proof (switch_ok fuel d1 x1 T y p t ls i m todo S1 Hready1) as Hsw.
    change (cur_fuzzing_stage x1) with (cur_fuzzing_stage x) in Hsw.
    assert (∀ o d2, (∃ T' t', o = Some T' ∧ mutated productions d1 T y i T' t' d2 ∧
        match todo with (q, _) :: _ => ∃ π u, loc_at m p π = Some q ∧ t' = gput t π u | [] => True end) →
      wp (match o with
          | None | Some None => mret (0, false)
          | Some (Some t1) =>
              _ ← advance;
              _ ← in_heap (tree_to_buf (Some t1)); _ ← in_heap (tree_get_size (Some t1)); _ ← upd (set_mutated_tree (Some t1));
              y1 ← in_heap (load_tree (Some t1));
              output_tree (Some t1) (if decide (data_len y1 ≤ max_size) then data_len y1 else max_size)
          end) d2 (round_done T p t ls i m x todo max_size)) as Hk.
    { intros o d2 (T' & t' & -> & Hm & Htodo).
      pose proof (round_rest_ok d1 x1 T y p t ls i m todo T' t' d2 max_size S1 eq_refl Hready1 Hmax Hm Htodo) as Hw.
      destruct T'; exact Hw. }
    case_decide; [apply wlp_bind; eapply wlp_mono; [exact Hsw|]; intros; by apply wp_wlp, Hk|].
    apply wp_bind. eapply wp_mono; [exact Hsw|exact Hk]. }
  pose proof (free_mutated_ok d x T y p t ls i m S) as Hfree. unfold afl_custom_fuzz.
  assert (d_data d = Some x) as Hd by apply S. assert (tree_cur x = Some T) as Htc by apply S.
  case_decide.
  - apply wlp_bind, wp_wlp. eapply wp_get_data; [done|]. apply wlp_bind. eapply wlp_mono; [by apply wp_wlp|].
    intros [] ? (h' & -> & S1). apply wlp_bind, wp_wlp. eapply wp_upd; [done|]. rewrite Htc. apply wlp_bind, wp_wlp, wp_ret.
    by apply Hrest.
  - apply wp_bind. eapply wp_get_data; [done|]. apply wp_bind. eapply wp_mono; [done|].
    intros [] ? (h' & -> & S1). apply wp_bind. eapply wp_upd; [done|]. rewrite Htc. apply wp_bind, wp_ret.
    by apply Hrest.
Qed.

(** C1. A call of [afl_custom_fuzz] in a session hands out a sentence of the
    grammar: the text of the mutated tree derives from the type of the current
    tree, its first [max_size] bytes are in the output buffer, and their number is
    returned.  Only in the random recursive stage, whose loop the source does not
    bound, may the call fail to return. *)
Theorem fuzz_writes_sentence fuel d x T y p t ls i m todo max_size :
  session productions d x T y p t ls i m → ready m ls x y todo → 0 ≤ max_size →
  cur_fuzzing_stage x = 2 ∧ afl_custom_fuzz fuel max_size d = NoFuel ∨
  ∃ sentence d' x' b, afl_custom_fuzz fuel max_size d = Ret ((Z.min (zlen sentence) max_size, true), d') ∧
    derives productions (NT i) sentence ∧ d_data d' = Some x' ∧ fuzz_buf x' = Some b ∧
    read_bytes b (Z.min (zlen sentence) max_size) = Some (take (Z.to_nat max_size) sentence).
Proof.
  intros S Hready Hmax. pose proof (fuzz_ok fuel d x T y p t ls i m todo max_size S Hready Hmax) as Hw.
  assert (∀ res d', round_done T p t ls i m x todo max_size res d' → ∃ sentence x' b,
    res = (Z.min (zlen sentence) max_size, true) ∧ derives productions (NT i) sentence ∧ d_data d' = Some x' ∧ fuzz_buf x' = Some b ∧
    read_bytes b (Z.min (zlen sentence) max_size) = Some (take (Z.to_nat max_size) sentence)) as Hdone.
  { intros res d' (x' & y' & t' & T1 & b & -> & S' & _ & _ & Ht & Hb & Hpre & _).
    exists (yield t'), x', b. split; [done|]. split; [by apply typed_derives|]. split; [apply S'|]. split; [done|].
    replace (Z.min _ _) with (zlen (take (Z.to_nat max_size) (yield t'))) by (rewrite length_take; lia).
    by apply read_bytes_prefix. }
  case_decide as H2; [apply wlp_Ret in Hw as [Hw|Hw]; [by left|]|apply wp_Ret in Hw]; right;
    destruct Hw as (res & d' & Hrun & (s & x' & b & -> & ?)%Hdone); by exists s, d', x', b.
Qed.

(** *** Going through the stages *)

(** What the next call tries in the first stage. *)
Definition place_of (x : my_mutator) : option (loc * Z) :=
  if decide (cur_fuzzing_stage x = 0) then q ← cur_rules_mutation_node x; Some (q, cur_rules_mutation_rule_id x) else None.

(** [n] calls of [afl_custom_fuzz], with what each tried and returned. *)
Fixpoint fuzz_rounds (fuel : nat) (max_size : Z) (n : nat) : M (driver R) (list (option (loc * Z) * (Z * bool))) :=
  match n with
  | O => mret []
  | S n =>
      x ← get_data;
      r ← afl_custom_fuzz fuel max_size;
      rs ← fuzz_rounds fuel max_size n;
      mret ((place_of x, r) :: rs)
  end.

Lemma ready_left m ls x y todo : ready m ls x y todo → 0 < steps_left x.
Proof.
  intros [Ht Hr]. pose proof (Ht 0). pose proof (Ht 1). pose proof (Ht 2). pose proof (Ht 3).
  unfold steps_left. destruct todo as [|e todo].
  - destruct Hr as [Hs Hst]. assert (cur_fuzzing_stage x = 1 ∨ cur_fuzzing_stage x = 2 ∨ cur_fuzzing_stage x = 3) as [E|[E|E]] by lia;
      rewrite E in *; simpl; lia.
  - destruct Hr as [E _ _ _ _ Hstep Hleft]. rewrite E. simpl. change (stage_total 0 x) with (total_rules_mutation_steps x) in *. lia.
Qed.

Lemma finished_left x : finished x → steps_left x = 0.
Proof. intros [H1 H2]. unfold steps_left. rewrite H1, H2. done. Qed.

Lemma ready_place m ls x y todo : ready m ls x y todo → place_of x = head todo.
Proof.
  intros [_ Hr]. unfold place_of. destruct todo as [|[q r] todo].
  - destruct Hr. by rewrite decide_False by lia.
  - destruct Hr as [-> -> Hrule _ _ _ _]. simpl in *. by rewrite Hrule.
Qed.

Lemma fuzz_rounds_ok fuel max_size T p t ls i m n : ∀ d x y todo,
  session productions d x T y p t ls i m → 0 ≤ max_size →
  (ready m ls x y todo ∧ steps_left x = Z.of_nat n ∨ n = 0%nat ∧ todo = [] ∧ finished x) →
  (if decide (stage_total 2 x = 0) then wp else wlp) (fuzz_rounds fuel max_size n) d (λ rs d', ∃ x' y',
    session productions d' x' T y' p t ls i m ∧ finished x' ∧ omap fst rs = todo).
Proof.
  induction n as [|n IH]; intros d x y todo S Hmax Hcase.
  - destruct Hcase as [[Hr Hl]|(_ & -> & Hf)]; [apply ready_left in Hr; lia|].
    case_decide; [|apply wp_wlp]; apply wp_ret; by exists x, y.
  - destruct Hcase as [[Hready Hl]|[? _]]; [|done].
    pose proof (fuzz_ok fuel d x T y p t ls i m todo max_size S Hready Hmax) as Hw.
    assert (∀ res d', round_done T p t ls i m x todo max_size res d' →
      (if decide (stage_total 2 x = 0) then wp else wlp) (rs ← fuzz_rounds fuel max_size n; mret ((place_of x, res) :: rs)) d'
        (λ rs d', ∃ x' y', session productions d' x' T y' p t ls i m ∧ finished x' ∧ omap fst rs = todo)) as Hk.
    { intros res d' (x' & y' & t' & T1 & b & -> & S' & _ & _ & _ & _ & _ & Hnext & Hleft & Htot & _).
      assert (omap fst [(place_of x, (Z.min (zlen (yield t')) max_size, true))] ++ tail todo = todo) as Htodo.
      { rewrite (ready_place m ls x y todo Hready). by destruct todo as [|[] ?]. }
      assert ((if decide (stage_total 2 x = 0) then wp else wlp) (fuzz_rounds fuel max_size n) d' (λ rs d', ∃ x' y',
        session productions d' x' T y' p t ls i m ∧ finished x' ∧ omap fst rs = tail todo)) as Hrec.
      { rewrite <- (Htot 2). apply (IH d' x' y' (tail todo)); [done|done|].
        destruct Hnext as [Hr|[Ht Hf]]; [left; split; [done|lia]|right]. apply finished_left in Hf as Hz. split; [lia|done]. }
      case_decide; [apply wp_bind|apply wlp_bind]; (eapply wp_mono || eapply wlp_mono); try exact Hrec;
        intros rs d2 (x2 & y2 & S2 & Hf2 & Hrs); [|apply wp_wlp]; apply wp_ret; exists x2, y2; (split; [done|]; split; [done|]);
        rewrite <- Htodo, <- Hrs; simpl; by destruct (place_of x). }
    cbn [fuzz_rounds]. assert (d_data d = Some x) as Hd by apply S.
    case_decide as Hz.
    + apply wp_bind. eapply wp_get_data; [done|]. apply wp_bind.
      rewrite decide_False in Hw; [eapply wp_mono; [exact Hw|exact Hk]|].
      intros H2. destruct Hready as [_ Hr]. destruct todo; [|by destruct Hr; lia]. destruct Hr as [_ Hr]. rewrite H2, Hz in Hr. lia.
    + apply wlp_bind, wp_wlp. eapply wp_get_data; [done|]. apply wlp_bind.
      eapply wlp_mono; [|exact Hk]. case_decide; [exact Hw|by apply wp_wlp].
Qed.
End Output.

(** ** Witness *)

Lemma fuzz_writes_sentence_witness :
  ∃ sentence d' x' b, afl_custom_fuzz (H := obliging) (Random0 := least) (Grammar0 := toy_grammar (H := obliging)) 0 100 toy_driver =
      Ret ((Z.min (zlen sentence) 100, true), d') ∧
    derives toy_productions (NT 1) sentence ∧ d_data d' = Some x' ∧ fuzz_buf x' = Some b ∧
    read_bytes b (Z.min (zlen sentence) 100) = Some (take (Z.to_nat 100) sentence).
Proof.
  destruct (fuzz_writes_sentence (H := obliging) (λ _, eq_refl) (Random0 := least) (Grammar0 := toy_grammar (H := obliging))
    toy_productions (GeneratorLaw0 := toy_law (H := obliging) (λ _, eq_refl)) toy_builds_fit 0 toy_driver toy_mutator 9 (tree_at 1) 1
    sample_tree sample_locs 1 (nodes sample_heap) [] 100) as [[Hs _]|Hs].
  - apply toy_session.
  - apply toy_ready.
  - lia.
  - discriminate Hs.
  - exact Hs.
Defined.
