(* ===== verification/FuzzCount.v ===== *)
(** * FuzzCount: the calls that [afl_custom_fuzz_count] announces

    It sets the stages up, and the calls of [afl_custom_fuzz] that follow try
    every other rule of every non-terminal exactly once. *)

From S2P Require Import Prelude Buffer Utils Tree TreeSpec TreeNodes TreeSizes TreeText TreePaths GrammarTypes TreeLists TreePicks StrMap World TreeGrafts TreeLife ChunkStore TreeMutation MutationSpec SplicingSpec MutatorState GrammarMutator RulesPlan FuzzRound FuzzStages ToyGrammar ToySession FuzzOutput.

Section Alternatives.
Context {R : Type} `{!Grammar R}.

Lemma elem_of_choices m q e : e ∈ choices m 0 q ↔ e.1 = q ∧ usable m q e.2.
Proof.
  unfold choices, node_rules, usable. destruct e as [q' r]. simpl.
  destruct (m !! q) as [n|]; simpl; [|split; [by intros ?%not_elem_of_nil|naive_solver]].
  destruct (node_num_rules !! Z.to_nat (id n)) as [num|] eqn:Hnum; simpl; [|split; [by intros ?%not_elem_of_nil|naive_solver]].
  rewrite list_elem_of_fmap. unfold rules_from. setoid_rewrite list_elem_of_filter. setoid_rewrite elem_of_seqZ.
  split.
  - intros (r' & [= -> ->] & ? & ?). split; [done|]. exists n, num. split_and!; try done; lia.
  - intros (-> & n' & num' & [= <-] & Hnum' & ? & ?). exists r. split; [done|]. split; [done|]. simplify_eq. lia.
Qed.

Lemma elem_of_alternatives m ls q r : (q, r) ∈ alternatives m ls ↔ q ∈ non_terminals m ls ∧ usable m q r.
Proof.
  unfold alternatives. rewrite list_elem_of_In, in_flat_map. setoid_rewrite <- list_elem_of_In.
  setoid_rewrite elem_of_choices. naive_solver.
Qed.

Lemma NoDup_choices m q : NoDup (choices m 0 q).
Proof.
  unfold choices. destruct (node_rules m q) as [[num own]|]; [|constructor].
  apply NoDup_fmap_2; [intros ?? [=]; done|]. apply NoDup_filter, NoDup_seqZ.
Qed.

Lemma NoDup_alternatives m ls : NoDup ls → NoDup (alternatives m ls).
Proof.
  intros Hnd. assert (NoDup (non_terminals m ls)) as Hnt by (by apply NoDup_ListNoDup, List.NoDup_filter, NoDup_ListNoDup).
  unfold alternatives. induction Hnt as [|q l Hq Hl IH]; [constructor|]. simpl. apply NoDup_app.
  split; [apply NoDup_choices|]. split; [|done]. intros e [He _]%elem_of_choices.
  rewrite list_elem_of_In, in_flat_map. intros (q' & Hq' & [He' _]%list_elem_of_In%elem_of_choices).
  apply Hq. rewrite <- He, He'. by apply list_elem_of_In.
Qed.
End Alternatives.

Section Count.
Context `{Host} (Hmem : never_refuses) {R : Type} `{!Random R, !Grammar R, !Digest}.
Context (productions : Z → list (list symbol)).

Lemma non_terminals_frame m m' ls : (∀ q, q ∈ ls → m' !! q = m !! q) → non_terminals m' ls = non_terminals m ls.
Proof.
  intros Hm. unfold non_terminals. induction ls as [|q ls IH]; [done|]. simpl.
  rewrite IH by (intros; apply Hm; by right). unfold non_terminal. by rewrite Hm by left.
Qed.

Lemma alternatives_frame m m' ls : (∀ q, q ∈ ls → m' !! q = m !! q) → alternatives m' ls = alternatives m ls.
Proof.
  intros Hm. unfold alternatives. rewrite (non_terminals_frame m) by done.
  assert (∀ q, q ∈ non_terminals m ls → m' !! q = m !! q) as Hm' by (intros q [? _]%elem_of_non_terminals; auto).
  induction (non_terminals m ls) as [|q l IH]; [done|]. simpl. f_equal; [apply choices_frame, Hm'; left|].
  apply IH. intros. apply Hm'. by right.
Qed.

(** The calls to come, from the configured numbers. *)
Definition announced (d : driver R) (t : gtree) (rules : Z) : Z :=
  rules + default_random_mutation_steps d
  + (if decide (0 < count_edges t) then default_random_recursive_mutation_steps d else 0)
  + default_splicing_mutation_steps d.

Definition defaults_ok (d : driver R) : Prop :=
  0 ≤ default_random_mutation_steps d < 2 ^ 30 ∧ 0 ≤ default_random_recursive_mutation_steps d < 2 ^ 30 ∧
  0 ≤ default_splicing_mutation_steps d < 2 ^ 30.

(** The lists are built and the stages set up. *)
Definition set_up (d : driver R) (t : gtree) (count : Z) (x : my_mutator) : my_mutator :=
  set_total_rules_mutation_steps count
    (set_total_random_mutation_steps (default_random_mutation_steps d)
    (set_total_random_recursive_mutation_steps
      (if decide (0 < count_edges t) then default_random_recursive_mutation_steps d else 0)
    (set_total_splicing_mutation_steps (default_splicing_mutation_steps d)
    (set_cur_fuzzing_stage 0 (set_cur_fuzzing_step 0 x))))).

Lemma set_up_left d t count x : steps_left (set_up d t count x) = announced d t count.
Proof. unfold steps_left, announced, set_up. simpl. unfold stage_total. simpl. lia. Qed.

Lemma set_up_totals d t count x : defaults_ok d → 0 ≤ count < 2 ^ 30 → totals_ok (set_up d t count x).
Proof. intros (? & ? & ?) ? s. unfold stage_total. simpl. repeat case_decide; lia. Qed.


(** The two lists of the current tree, and other state of the mutator. *)
Lemma core_listed d x T y p t ls i m x' y' h' :
  core productions d x T y p t ls i m → tree_step T y y' (w_heap (d_world d)) h' →
  root y' = root y → data_buf y' = data_buf y → data_size y' = data_size y →
  tree_cur x' = tree_cur x → fuzz_buf x' = fuzz_buf x → fuzz_size x' = fuzz_size x →
  core productions (set_data (Some x') (set_world (set_heap h' (d_world d)) d)) x' T y' p t ls i m.
Proof.
  intros S Hst Hr Hb Hsz C1 C3 C4. pose proof Hst as [A1 A2 A3 A4 A5 A6]. split; simpl; try apply S; try done.
  - rewrite C1. apply S.
  - eapply tree_step_ok; [done|apply S].
  - rewrite A4. apply S.
  - rewrite Hr. apply S.
  - rewrite Hb, Hsz. apply S.
  - rewrite C3, C4. apply S.
Qed.

Lemma session_listed d x T y p t ls i m x' y' h' :
  session productions d x T y p t ls i m → tree_step T y y' (w_heap (d_world d)) h' →
  root y' = root y → data_buf y' = data_buf y → data_size y' = data_size y →
  tree_cur x' = tree_cur x → mutated_tree x' = mutated_tree x → fuzz_buf x' = fuzz_buf x → fuzz_size x' = fuzz_size x →
  session productions (set_data (Some x') (set_world (set_heap h' (d_world d)) d)) x' T y' p t ls i m.
Proof.
  intros S Hst Hr Hb Hsz C1 C2 C3 C4. pose proof Hst as [A1 A2 A3 A4 A5 A6].
  split; [eapply core_listed; try done; apply S|].
  rewrite C2. intros T2 HT2. destruct (ss_mutated _ _ _ _ _ _ _ _ _ _ S T2 HT2) as (Hne & y2 & p2 & t2 & ls2 & Hin & Hap).
  split; [done|]. exists y2, p2, t2, ls2. split; [|done]. eapply tree_in_frame; [by apply A3| |exact Hin].
  intros q Hq. simpl. by rewrite A4.
Qed.

Lemma session_data d x T y p t ls i m x' :
  session productions d x T y p t ls i m →
  tree_cur x' = tree_cur x → mutated_tree x' = mutated_tree x → fuzz_buf x' = fuzz_buf x → fuzz_size x' = fuzz_size x →
  session productions (set_data (Some x') d) x' T y p t ls i m.
Proof.
  intros S C1 C2 C3 C4. replace d with (set_world (set_heap (w_heap (d_world d)) (d_world d)) d) by (by destruct d as [[] ? ? ? ? ?]).
  apply (session_listed d x T y); try done. apply tree_step_refl, S.
Qed.

(** The walk begins at the first non-terminal. *)
Lemma start_walk_ok d x T y p t ls i m e todo :
  session productions d x T y p t ls i m → non_terminal_node_list y = Some (non_terminals m ls) → totals_ok x →
  alternatives m ls = e :: todo → cur_fuzzing_stage x = 0 → cur_fuzzing_step x = 0 →
  total_rules_mutation_steps x = zlen (alternatives m ls) →
  wp (node ← in_heap (pop_non_terminal (tree_cur x));
      _ ← upd (λ x, set_cur_rules_mutation_rule_id 0 (set_cur_rules_mutation_node node x));
      find_next_rule) d (λ _ d', ∃ x' y', d_data d' = Some x' ∧ session productions d' x' T y' p t ls i m ∧ ready m ls x' y' (e :: todo) ∧
        steps_left x' = steps_left x ∧ ∀ s, stage_total s x' = stage_total s x).
Proof.
  intros S Hlist Htot Halt Hstage Hstep Hrules. pose proof (ss_target _ _ _ _ _ _ _ _ _ _ S) as Tg.
  assert (d_data d = Some x) as Hd by apply S. assert (tree_cur x = Some T) as Htc by apply S.
  destruct (non_terminals m ls) as [|q rest] eqn:Hnt; [by unfold alternatives in Halt; rewrite Hnt in Halt|].
  pose proof (tg_ruled _ _ _ _ _ _ Tg) as Hruled. rewrite Hnt in Hruled.
  apply Forall_cons in Hruled as [(n & num & Hn & Hnum & Hown & H32) Hruled].
  rewrite (walking_start d T y x (q :: rest) (cur_rules_mutation_node x) (cur_rules_mutation_rule_id x)); [|done|apply S|done..].
  rewrite Htc. apply wp_bind, wp_pop_walking. apply wp_bind. eapply wp_upd; [done|].
  match goal with |- wp _ ?s _ => change s with (walking d T y x rest (Some q) 0) end.
  eapply wp_mono; [eapply (find_next_rule_ok m d T y x rest q n num 0 e todo); try done; [apply S|unfold alternatives in Halt; by rewrite Hnt in Halt]|].
  intros [] ? (q' & r' & rest' & -> & -> & Hu & Hplan & Hsuf).
  exists (set_place (Some q') r' x), (set_non_terminal_node_list (Some rest') y). split; [done|].
  split; [|split; [|split; [by destruct x|by destruct x]]].
  - apply (session_listed d x T y); try done. apply (tree_step_store T y). apply S.
  - split; [done|]. simpl. split; simpl; try done; [|lia|rewrite Hrules, Hstep, Halt; simpl; lia].
    exists rest'. split; [done|]. split; [done|]. by rewrite Hnt.
Qed.

(** What the count leaves. *)
Definition counted_up (d0 : driver R) T p t ls i (m : gmap loc node) (n : Z) (d' : driver R) : Prop :=
  n = announced d0 t (zlen (alternatives m ls)) ∧ ∃ x' y',
    session productions d' x' T y' p t ls i m ∧ ready m ls x' y' (alternatives m ls) ∧ steps_left x' = n ∧
    stage_total 2 x' = if decide (0 < count_edges t) then default_random_recursive_mutation_steps d0 else 0.

Lemma sum_totals x : 
  total_rules_mutation_steps x + total_random_mutation_steps x + total_random_recursive_mutation_steps x + total_splicing_mutation_steps x =
  stage_total 0 x + stage_total 1 x + stage_total 2 x + stage_total 3 x.
Proof. done. Qed.

Lemma announced_sum d t count x :
  stage_total 0 (set_up d t count x) + stage_total 1 (set_up d t count x) + stage_total 2 (set_up d t count x)
    + stage_total 3 (set_up d t count x) = announced d t count.
Proof. unfold announced, set_up, stage_total. simpl. lia. Qed.

Lemma count_tail_ok d0 d x x0 T y p t ls i m :
  session productions d x T y p t ls i m → x = set_up d0 t (zlen (alternatives m ls)) x0 →
  non_terminal_node_list y = Some (non_terminals m ls) → defaults_ok d0 → zlen (alternatives m ls) < 2 ^ 30 →
  (alternatives m ls ≠ [] ∨ 0 < default_random_mutation_steps d0) →
  wp (_ ← (if decide (0 < zlen (alternatives m ls)) then
             node ← in_heap (pop_non_terminal (tree_cur x));
             _ ← upd (λ x, set_cur_rules_mutation_rule_id 0 (set_cur_rules_mutation_node node x));
             find_next_rule
           else upd (λ x, set_cur_fuzzing_step 0 (set_cur_fuzzing_stage 1 x)));
      x ← get_data;
      mret (u32 (total_rules_mutation_steps x + total_random_mutation_steps x
                 + total_random_recursive_mutation_steps x + total_splicing_mutation_steps x))) d
    (counted_up d0 T p t ls i m).
Proof.
  intros S Hx Hlist Hdef Hlt Hsome. pose proof Hdef as (D1 & D2 & D3).
  assert (totals_ok x) as Htot by (subst x; apply set_up_totals; [done|lia]).
  assert (announced d0 t (zlen (alternatives m ls)) < 2 ^ 32) as H32 by (unfold announced; case_decide; lia).
  assert (0 ≤ announced d0 t (zlen (alternatives m ls))) as H0' by (unfold announced; case_decide; lia).
  assert (steps_left x = announced d0 t (zlen (alternatives m ls))) as Hleft by (subst x; apply set_up_left).
  assert (stage_total 0 x + stage_total 1 x + stage_total 2 x + stage_total 3 x =
    announced d0 t (zlen (alternatives m ls))) as Hsum by (subst x; apply announced_sum).
  assert (∀ d' x' y', d_data d' = Some x' → session productions d' x' T y' p t ls i m → ready m ls x' y' (alternatives m ls) →
    steps_left x' = steps_left x → (∀ s, stage_total s x' = stage_total s x) →
    wp (x ← get_data;
      mret (u32 (total_rules_mutation_steps x + total_random_mutation_steps x
                 + total_random_recursive_mutation_steps x + total_splicing_mutation_steps x))) d' (counted_up d0 T p t ls i m)) as Hend.
  { intros d' x' y' Hd' S' Hr Hl Ht. apply wp_bind. eapply wp_get_data; [done|]. apply wp_ret.
    rewrite sum_totals, !Ht, Hsum, wrap_small by lia. split; [done|]. exists x', y'. split; [done|]. split; [done|].
    split; [congruence|]. rewrite Ht. by subst x. }
  apply wp_bind. destruct (alternatives m ls) as [|e todo] eqn:Halt.
  - rewrite decide_False by (simpl; lia). eapply wp_upd; [apply S|]. destruct Hsome as [|Hr]; [done|].
    eapply (Hend _ _ y); [done|by apply (session_data d x)|..].
    + split; [by subst x|]. split; subst x; simpl; [lia|]. unfold stage_total. simpl. lia.
    + rewrite Hleft. subst x. unfold steps_left, announced, stage_total. simpl. lia.
    + by subst x.
  - rewrite decide_True by (simpl; lia). subst x.
    eapply wp_mono; [eapply (start_walk_ok d _ T y p t ls i m e todo S Hlist Htot Halt); try done; simpl; by rewrite Halt|].
    intros [] d' (x' & y' & Hd' & S' & Hready & Hl & Ht). by eapply Hend.
Qed.

Lemma fuzz_count_ok d x T y p t ls i m :
  session productions d x T y p t ls i m → defaults_ok d → zlen (alternatives m ls) < 2 ^ 30 →
  (alternatives m ls ≠ [] ∨ 0 < default_random_mutation_steps d) →
  wp afl_custom_fuzz_count d (counted_up d T p t ls i m).
Proof.
  intros S Hdef Hlt Hsome. pose proof Hdef as (D1 & D2 & D3). pose proof (ss_target _ _ _ _ _ _ _ _ _ _ S) as Tg.
  assert (d_data d = Some x) as Hd by apply S. assert (tree_cur x = Some T) as Htc by apply S.
  pose proof (session_stored _ _ _ _ _ _ _ _ _ _ S) as [_ _ Hs Hnd]. set (h := w_heap (d_world d)) in *.
  assert (∀ q, q ∈ ls → nodes h !! q = m !! q) as Hkeep.
  { intros q Hq. destruct (shape_lookup _ _ _ _ _ _ q (tg_shape _ _ _ _ _ _ Tg) Hq) as [n Hn]. rewrite Hn.
    eapply lookup_weaken; [done|apply S]. }
  unfold afl_custom_fuzz_count. apply wp_bind. eapply wp_get_data; [done|]. rewrite Htc.
  apply wp_bind, wp_in_heap. eapply wp_mono; [eapply (tree_get_non_terminal_nodes_ok Hmem h T y p true None t ls); try done; apply S|].
  intros [] h1 Hst1. rewrite (non_terminals_frame m) in Hst1 by done. set (y1 := set_non_terminal_node_list _ y) in *.
  apply wp_bind, wp_in_heap. simpl.
  pose proof (ts_nodes _ _ _ _ _ Hst1) as Hn1.
  eapply wp_mono; [eapply (tree_get_recursion_edges_ok Hmem h1 T y1 p None t ls); [apply Hst1|apply S|by rewrite Hn1|done]|].
  intros [] h2 Hst2. set (y2 := set_recursion_edge_list _ y1) in *. pose proof (tree_step_trans _ _ _ _ _ _ _ Hst1 Hst2) as Hst.
  pose proof (ts_nodes _ _ _ _ _ Hst) as Hn2.
  apply wp_bind. eapply wp_upd; [done|]. apply wp_bind, wp_in_world. simpl.
  eapply wp_mono; [eapply (rules_mutation_count_ok _ T y2 true None p t ls); simpl; rewrite ?Hn2; [apply Hst|apply S|done|done|]|].
  { rewrite (non_terminals_frame m) by done. eapply Forall_impl; [apply Tg|]. intros q (n & num & Hq & ?).
    exists n, num. split; [|done]. eapply lookup_weaken; [done|apply S]. }
  simpl. rewrite Hn2, (alternatives_frame m) by done. intros ? ? [-> ->]. rewrite (wrap_small 64) by lia.
  apply wp_bind, wp_get. apply wp_bind, wp_in_heap. simpl. eapply wp_load_tree; [apply Hst|].
  apply wp_bind, wp_in_heap. simpl. apply wp_ret. rewrite Hn1, (length_recursion_edges _ t None p ls) by done.
  apply wp_bind. eapply wp_upd; [done|]. simpl. set (x1 := set_total_rules_mutation_steps _ _).
  set (d1 := set_data (Some x1) _).
  assert (session productions d1 x1 T y2 p t ls i m) as S1 by (by apply (session_listed d x T y)).
  pose proof (count_tail_ok d d1 x1 x T y2 p t ls i m S1 eq_refl eq_refl Hdef Hlt Hsome) as Htail.
  change (tree_cur x1) with (tree_cur x) in Htail. by rewrite Htc in Htail.
Qed.

(** C2. After [afl_custom_fuzz_count] has announced [n] calls, [n] calls of
    [afl_custom_fuzz] go through all stages: at the end the last stage is left, the
    session is intact, and the first stage has tried, one per call and without
    repetition, exactly the pairs of a non-terminal node of the current tree and a
    rule of its type that it does not use.  Without random recursive steps all
    these calls return. *)
Theorem fuzz_count_exhausts {builds : Z → gtree → Prop} `{!GeneratorLaw (λ _, True) builds} fuel d x T y p t ls i m max_size :
  (∀ i u, builds i u → fits productions i u) →
  session productions d x T y p t ls i m → defaults_ok d → zlen (alternatives m ls) < 2 ^ 30 →
  (alternatives m ls ≠ [] ∨ 0 < default_random_mutation_steps d) → 0 ≤ max_size →
  ∃ n d1, afl_custom_fuzz_count d = Ret (n, d1) ∧ n = announced d t (zlen (alternatives m ls)) ∧
    (fuzz_rounds fuel max_size (Z.to_nat n) d1 = NoFuel ∧ 0 < default_random_recursive_mutation_steps d ∨
     ∃ rs d2 x2 y2, fuzz_rounds fuel max_size (Z.to_nat n) d1 = Ret (rs, d2) ∧
       session productions d2 x2 T y2 p t ls i m ∧ finished x2 ∧
       NoDup (omap fst rs) ∧ ∀ q r, (q, r) ∈ omap fst rs ↔ q ∈ non_terminals m ls ∧ usable m q r).
Proof.
  intros Hbuilds S Hdef Hlt Hsome Hmax.
  pose proof (fuzz_count_ok d x T y p t ls i m S Hdef Hlt Hsome) as Hw. apply wp_Ret in Hw as (n & d1 & Hrun & -> & x1 & y1 & S1 & Hr & Hl & Ht2).
  eexists _, d1. split; [exact Hrun|]. split; [done|]. pose proof (ready_left _ _ _ _ _ Hr) as Hpos.
  pose proof (fuzz_rounds_ok Hmem productions Hbuilds fuel max_size T p t ls i m (Z.to_nat (announced d t (zlen (alternatives m ls))))
    d1 x1 y1 (alternatives m ls) S1 Hmax ltac:(left; split; [done|lia])) as Hw.
  assert (∀ (rs : list (option (loc * Z) * (Z * bool))) d2, (∃ x' y', session productions d2 x' T y' p t ls i m ∧ finished x' ∧ omap fst rs = alternatives m ls) →
    ∃ x2 y2, session productions d2 x2 T y2 p t ls i m ∧ finished x2 ∧
       NoDup (omap fst rs) ∧ ∀ q r, (q, r) ∈ omap fst rs ↔ q ∈ non_terminals m ls ∧ usable m q r) as Hend.
  { intros rs d2 (x2 & y2 & S2 & Hf & ->). exists x2, y2. split; [done|]. split; [done|].
    split; [apply NoDup_alternatives, S|]. apply elem_of_alternatives. }
  rewrite Ht2 in Hw. case_decide as Hz.
  - apply wp_Ret in Hw as (rs & d2 & Hrs & (x2 & y2 & ?)%Hend). right. by exists rs, d2, x2, y2.
  - apply wlp_Ret in Hw as [Hw|(rs & d2 & Hrs & (x2 & y2 & ?)%Hend)]; [|right; by exists rs, d2, x2, y2].
    left. split; [done|]. destruct Hdef as (_ & ? & _). case_decide; lia.
Qed.
End Count.

(** ** Witness *)

Lemma fuzz_count_exhausts_witness :
  ∃ n d1, afl_custom_fuzz_count (H := obliging) (Grammar0 := toy_grammar (H := obliging)) toy_driver = Ret (n, d1) ∧ n = 8 ∧
    ∃ rs d2 x2 y2, fuzz_rounds (H := obliging) (Random0 := least) (Grammar0 := toy_grammar (H := obliging)) 0 100 (Z.to_nat n) d1 = Ret (rs, d2) ∧
      session (Grammar0 := toy_grammar (H := obliging)) toy_productions d2 x2 9 y2 1 sample_tree sample_locs 1 (nodes sample_heap) ∧ finished x2 ∧
      NoDup (omap fst rs) ∧ ∀ q r, (q, r) ∈ omap fst rs ↔
        q ∈ non_terminals (nodes sample_heap) sample_locs ∧ usable (Grammar0 := toy_grammar (H := obliging)) (nodes sample_heap) q r.
Proof.
  destruct (fuzz_count_exhausts (H := obliging) (λ _, eq_refl) (Random0 := least) (Grammar0 := toy_grammar (H := obliging))
    toy_productions (GeneratorLaw0 := toy_law (H := obliging) (λ _, eq_refl)) 0 toy_driver toy_mutator 9 (tree_at 1) 1
    sample_tree sample_locs 1 (nodes sample_heap) 100 toy_builds_fit) as (n & d1 & Hrun & Hn & Hrest).
  - apply toy_session.
  - unfold defaults_ok. simpl. lia.
  - vm_compute. reflexivity.
  - right. reflexivity.
  - lia.
  - exists n, d1. split; [exact Hrun|]. split; [rewrite Hn; vm_compute; reflexivity|].
    destruct Hrest as [[_ Hz]|Hrest]; [discriminate Hz|exact Hrest].
Defined.
