(* ===== verification/TrimRound.v ===== *)
(** * TrimRound: the trimming of a test case

    [afl_custom_trim] tries the non-terminals of the current tree and then its
    recursion edges, one per call; [afl_custom_post_trim] counts the attempt, or
    makes the trimmed tree the current one. *)

From S2P Require Import Prelude Buffer Utils Tree TreeSpec TreeNodes TreeSizes TreeText TreePaths GrammarTypes TreeLists TreePicks StrMap World TreeGrafts TreeLife ChunkStore TreeMutation MutationSpec RecursionSpec SplicingSpec Language MutatorState GrammarMutator RulesPlan FuzzRound FuzzStages ToyGrammar ToySession FuzzOutput FuzzCount.

(** What is left to try. *)
Definition nts_left (m : gmap loc node) (ls : list loc) (x : my_mutator) : list loc :=
  drop (Z.to_nat (finished_subtree_trimming_nodes x)) (non_terminals m ls).
Definition edges_left (m : gmap loc node) (ls : list loc) (x : my_mutator) : list edge :=
  drop (Z.to_nat (finished_recursive_trimming_edges x)) (recursion_edges m ls).

(** The counters of the trimming agree with what is left. *)
Record progress (m : gmap loc node) (ls : list loc) (x : my_mutator) : Prop := {
  pg_step : 0 ≤ cur_subtree_trimming_step x;
  pg_step_r : 0 ≤ cur_recursive_trimming_step x;
  pg_total : total_subtree_trimming_steps x < 2 ^ 30;
  pg_total_r : total_recursive_trimming_steps x < 2 ^ 30;
  pg_done : 0 ≤ finished_subtree_trimming_nodes x ≤ 2 ^ 31 + cur_subtree_trimming_step x;
  pg_done_r : 0 ≤ finished_recursive_trimming_edges x ≤ 2 ^ 31 + cur_recursive_trimming_step x;
  pg_left : total_subtree_trimming_steps x - cur_subtree_trimming_step x = zlen (nts_left m ls x);
  pg_left_r : total_recursive_trimming_steps x - cur_recursive_trimming_step x = zlen (edges_left m ls x) }.

(** The stage that goes with what is left. *)
Definition trim_stage_ok (m : gmap loc node) (ls : list loc) (x : my_mutator) : Prop :=
  cur_trimming_stage x =
    if decide (nts_left m ls x ≠ []) then 0 else if decide (edges_left m ls x ≠ []) then 1 else 2.

(** The lists of the current tree before a call of [afl_custom_trim]. *)
Definition lists_ready (m : gmap loc node) (ls : list loc) (x : my_mutator) (y : tree) : Prop :=
  non_terminal_node_list y = Some (nts_left m ls x) ∧ recursion_edge_list y = Some (edges_left m ls x).

(** Every edge of the list is one that [recursive_trimming] can take. *)
Lemma elem_of_recursion_edges m p t ls e :
  shape true m None p t ls → NoDup ls → e ∈ recursion_edges m ls → is_recursion_edge m ls e.
Proof.
  intros Hs Hnd. unfold recursion_edges. rewrite list_elem_of_omap. intros (q & Hq & He).
  pose proof Hs as (_ & _ & lss & _ & _ & Hls & _)%shape_unfold.
  assert (q ∈ ls) as Hqls by (rewrite Hls in Hq |- *; by right).
  assert (q ≠ p) as Hne by (intros ->; rewrite Hls in Hnd, Hq; by apply NoDup_cons in Hnd as [? _]).
  destruct (shape_focus true m t None p ls q Hs Hnd Hqls Hne) as (π & pp & npp & ps & i & v & lq & rest & F).
  pose proof (f_shape F) as (n & ? & ? & Hn & His & _ & _)%shape_unfold.
  unfold edge_to in He. rewrite Hn in He. simpl in He. rewrite (is_parent _ _ _ _ _ His eq_refl) in He. simpl in He.
  rewrite (f_node F) in He. simpl in He. case_decide as Hid; [|done]. rewrite (f_subs F) in He. simpl in He.
  destruct (list_find _ _) as [[k o]|] eqn:Hfind; simpl in He; [|done]. injection He as <-.
  apply list_find_Some in Hfind as (Hk & <- & _). rewrite list_lookup_fmap in Hk.
  destruct (ps !! k) as [o|] eqn:Hpk; [|done]. injection Hk as ->.
  exists pp, q, npp, n, ps, k. split; [done|]. split; [rewrite (focus_split F); right; apply F|]. split; [done|].
  split; [apply F|]. split; [apply F|]. split; [apply F|]. split; [done|]. split; [done|]. split; [done|apply F].
Qed.

Section Trim.
Context `{Host} (Hmem : never_refuses) {R : Type} `{!Random R, !Grammar R, !Digest}.
Context (productions : Z → list (list symbol)) {builds} `{!GeneratorLaw (λ n, n = 0) builds}.
Context (Hbuilds : ∀ i u, builds i u → fits productions i u).

Lemma fits_trim i t π va k vb :
  fits productions i t → gget t π = Some va → gsubs va !! k = Some (Some vb) → gid va = gid vb →
  typed productions (NT i) (gput t π vb) ∧ zlen (yield (gput t π vb)) < 2 ^ 41.
Proof.
  intros [Ht Hl] Hg Hk Hid. split; [by apply (typed_repeat productions _ t π va k vb 0)|].
  rewrite (yield_gput t π va _ Hg). pose proof (yield_gget t π va Hg).
  pose proof (yield_gget va [k] vb ltac:(simpl; by rewrite Hk)). lia.
Qed.

(** The popped lists. *)
Lemma wp_pop_nt h T y q nts (Q : ptr → heap → Prop) :
  trees h !! T = Some y → non_terminal_node_list y = Some (q :: nts) →
  Q (Some q) (set_trees (<[T := set_non_terminal_node_list (Some nts) y]> (trees h)) h) →
  wp (pop_non_terminal (Some T)) h Q.
Proof.
  intros Hy Hl HQ. unfold pop_non_terminal. apply wp_bind. eapply wp_load_tree; [done|]. rewrite Hl.
  apply wp_bind. eapply wp_store_tree; [done|]. by apply wp_ret.
Qed.

Lemma wp_pop_edge h T y e es (Q : option edge → heap → Prop) :
  trees h !! T = Some y → recursion_edge_list y = Some (e :: es) →
  Q (Some e) (set_trees (<[T := set_recursion_edge_list (Some es) y]> (trees h)) h) →
  wp (pop_recursion_edge (Some T)) h Q.
Proof.
  intros Hy Hl HQ. unfold pop_recursion_edge. apply wp_bind. eapply wp_load_tree; [done|]. rewrite Hl.
  apply wp_bind. eapply wp_store_tree; [done|]. by apply wp_ret.
Qed.

(** A new tree beside the core of a session. *)
Lemma core_new d x T y p t ls i m t' T' h' r :
  core productions d x T y p t ls i m → new_tree t' T' (w_heap (d_world d)) h' →
  ∃ T1, T' = Some T1 ∧ let d' := set_world (set_rng r (set_heap h' (d_world d))) d in
    core productions d' x T y p t ls i m ∧ beside m h' T T1 t' ∧ trees (w_heap (d_world d)) !! T1 = None ∧
    ∀ T2, T2 ≠ T1 → trees h' !! T2 = trees (w_heap (d_world d)) !! T2.
Proof.
  intros S (T1 & p1 & ls1 & -> & Hm & Hnd & Hs). set (h := w_heap (d_world d)) in *.
  assert (T1 ≠ T) as Hne.
  { intros ->. pose proof (md_fresh _ _ _ _ _ Hm) as Hf. pose proof (ss_tree _ _ _ _ _ _ _ _ _ _ S) as Ht. unfold h in Hf. congruence. }
  assert (∀ q n, m !! q = Some n → nodes h' !! q = Some n ∧ q ∉ ls1) as Hkeep.
  { intros q n Hq. assert (nodes h !! q = Some n) as Hn by (eapply lookup_weaken; [done|apply S]).
    assert (q ∉ ls1) by (eapply made_old; [done|apply S|by eexists]). split; [|done]. by rewrite (md_same _ _ _ _ _ Hm). }
  exists T1. split; [done|]. simpl. split; [|split; [|split; [apply Hm|]]].
  - split; simpl; try apply S; try apply Hm.
    + apply map_subseteq_spec. intros q n Hq. by apply Hkeep.
    + rewrite (md_tree _ _ _ _ _ Hm), lookup_insert_ne by done. apply S.
  - split; [done|]. exists (tree_at p1), p1, ls1. split; [|split; [done|]].
    + split; [rewrite (md_tree _ _ _ _ _ Hm); apply lookup_insert_eq|done..].
    + intros q Hq. destruct (m !! q) as [n|] eqn:Hmq; [|done]. by destruct (Hkeep q n Hmq).
  - intros T2 HT2. by rewrite (md_tree _ _ _ _ _ Hm), lookup_insert_ne.
Qed.

(** The lists after the attempt of this stage. *)
Definition after_attempt (m : gmap loc node) ls x (y : tree) : tree :=
  if decide (cur_trimming_stage x = 0) then set_non_terminal_node_list (Some (tail (nts_left m ls x))) y
  else set_recursion_edge_list (Some (tail (edges_left m ls x))) y.

(** One attempt: at a node, or at an edge. *)
Definition attempt (m : gmap loc node) p t ls x (t' : gtree) : Prop := ∃ π v u,
  gget t π = Some v ∧ t' = gput t π u ∧
  if decide (cur_trimming_stage x = 0) then head (nts_left m ls x) = loc_at m p π ∧ builds (gid v) u
  else ∃ e k, head (edges_left m ls x) = Some e ∧ e_parent e = loc_at m p π ∧ gsubs v !! k = Some (Some u) ∧ gid v = gid u.

Lemma core_popped d x T y p t ls i m y' :
  core productions d x T y p t ls i m → root y' = root y → data_buf y' = data_buf y → data_size y' = data_size y →
  core productions (set_world (set_heap (set_trees (<[T := y']> (trees (w_heap (d_world d)))) (w_heap (d_world d))) (d_world d)) d)
    x T y' p t ls i m.
Proof.
  intros S Hr Hb Hsz. split; simpl; try apply S.
  - pose proof (ss_ok _ _ _ _ _ _ _ _ _ _ S) as [O1 O2]. split; [done|]. simpl. intros T2 y2.
    intros [[<- _]|[_ Hy2]]%lookup_insert_Some; [|by eapply O2]. eapply O2, S.
  - apply lookup_insert_eq.
  - rewrite Hr. apply S.
  - rewrite Hb, Hsz. apply S.
Qed.

Lemma core_stored d x T y p t ls i m : core productions d x T y p t ls i m → stored (w_heap (d_world d)) T p t ls.
Proof.
  intros S. split; [apply S|exists y; split; apply S| |apply S]. eapply target_frame; apply S.
Qed.

Lemma core_loc_at d x T y p t ls i m π :
  core productions d x T y p t ls i m → loc_at (nodes (w_heap (d_world d))) p π = loc_at m p π.
Proof.
  intros S. eapply loc_at_frame; [apply (ss_target _ _ _ _ _ _ _ _ _ _ S)|]. intros z Hz.
  destruct (shape_lookup _ _ _ _ _ _ z (tg_shape _ _ _ _ _ _ (ss_target _ _ _ _ _ _ _ _ _ _ S)) Hz) as [n Hn].
  rewrite Hn. eapply lookup_weaken; [done|apply S].
Qed.

(** The new tree of an attempt. *)
Lemma attempt_ok d x T y p t ls i m :
  core productions d x T y p t ls i m → lists_ready m ls x y → trim_stage_ok m ls x → cur_trimming_stage x < 2 →
  wp (if decide (cur_trimming_stage x = 0) then
        node ← in_heap (pop_non_terminal (tree_cur x));
        t ← in_world (subtree_trimming (tree_cur x) node);
        mret (Some t)
      else if decide (cur_trimming_stage x = 1) then
        e ← in_heap (pop_recursion_edge (tree_cur x));
        match e with
        | None => fail NullDeref
        | Some e => t ← in_world (recursive_trimming (tree_cur x) e); mret (Some t)
        end
      else mret None) d (λ o d', ∃ T1 t', o = Some (Some T1) ∧
        core productions d' x T (after_attempt m ls x y) p t ls i m ∧ beside m (w_heap (d_world d')) T T1 t' ∧
        typed productions (NT i) t' ∧ zlen (yield t') < 2 ^ 41 ∧ attempt m p t ls x t').
Proof.
  intros S [Hnts Hes] Hst Hlt. assert (tree_cur x = Some T) as Htc by apply S. rewrite Htc.
  pose proof (ss_target _ _ _ _ _ _ _ _ _ _ S) as Tg. unfold trim_stage_ok in Hst. unfold after_attempt, attempt.
  destruct (nts_left m ls x) as [|q nts] eqn:Hn; [destruct (edges_left m ls x) as [|e es] eqn:He|].
  - rewrite decide_False in Hst by auto. rewrite decide_False in Hst by auto. lia.
  - rewrite decide_False in Hst by auto. rewrite decide_True in Hst by done. rewrite Hst. simpl.
    apply wp_bind, wp_in_heap. eapply wp_pop_edge; [apply S|done|].
    pose proof (core_popped d x T y p t ls i m (set_recursion_edge_list (Some es) y) S eq_refl eq_refl eq_refl) as S1.
    set (d1 := set_world _ _) in *. assert (is_recursion_edge m ls e) as Hedge.
    { eapply elem_of_recursion_edges; [apply Tg|apply Tg|]. eapply (subseteq_drop (Z.to_nat (finished_recursive_trimming_edges x))).
      unfold edges_left in He. rewrite He. left. }
    pose proof Hedge as (a & b & na & nb & ps & k & Heq & _). assert (e_parent e = Some a) as Hea by by rewrite Heq.
    apply wp_bind, wp_in_world.
    eapply wp_mono; [eapply (recursive_trimming_ok Hmem (d_world d1) T p t ls e a); [by eapply core_stored| |done]|].
    { destruct Hedge as (a' & b' & na' & nb' & ps' & k' & E0 & E1 & E2 & E3 & E4 & E5 & E6 & E7 & E8).
      exists a', b', na', nb', ps', k'. split_and!; try done; try apply E8; eapply lookup_weaken; first [done|apply S1]. }
    intros T' w' (h' & π & k' & b0 & va & vb & -> & _ & Hloc & _ & Hget & Hk & Hgid & Hnew). apply wp_ret.
    destruct (core_new _ _ _ _ _ _ _ _ _ _ _ _ (w_rng (d_world d1)) S1 Hnew) as (T1 & -> & S2 & Hb & _).
    destruct (fits_trim i t π va k' vb ltac:(apply Tg) Hget Hk Hgid) as [Ht' Hl'].
    exists T1, (gput t π vb). split; [done|]. split; [exact S2|]. split; [exact Hb|]. split; [done|]. split; [done|].
    exists π, va, vb. split; [done|]. split; [done|]. exists e, k'. split; [done|]. split; [|done].
    rewrite Hea, <- Hloc. by eapply core_loc_at.
  - rewrite decide_True in Hst by done. rewrite Hst. simpl.
    apply wp_bind, wp_in_heap. eapply wp_pop_nt; [apply S|done|].
    pose proof (core_popped d x T y p t ls i m (set_non_terminal_node_list (Some nts) y) S eq_refl eq_refl eq_refl) as S1.
    set (d1 := set_world _ _) in *. assert (q ∈ non_terminals m ls) as (Hq & n & Hmq & Hnt)%elem_of_non_terminals.
    { eapply (subseteq_drop (Z.to_nat (finished_subtree_trimming_nodes x))). unfold nts_left in Hn. rewrite Hn. left. }
    destruct (node_gid_path _ _ _ _ _ _ _ (tg_shape _ _ _ _ _ _ Tg) (tg_NoDup _ _ _ _ _ _ Tg) Hq Hmq) as (π0 & v0 & Hg0 & Hv0).
    destruct (tg_covered _ _ _ _ _ _ Tg π0 v0 Hg0) as (Hpos & f & Hf); [congruence|]. rewrite Hv0 in Hf, Hpos.
    apply wp_bind, wp_in_world.
    eapply wp_mono; [eapply (subtree_trimming_ok Hmem (d_world d1) T p t ls q n f); [by eapply core_stored|done| |done|done|done]|].
    { eapply lookup_weaken; [done|apply S1]. }
    intros T' w' (h' & r & π & v & u & -> & Hloc & Hget & Hgid & Hbu & Hnew). apply wp_ret.
    destruct (core_new _ _ _ _ _ _ _ _ _ _ _ _ r S1 Hnew) as (T1 & -> & S2 & Hb & _).
    destruct (fits_exchange productions i t π v u ltac:(apply Tg) Hget ltac:(congruence) ltac:(by apply Hbuilds)) as [Ht' Hl'].
    exists T1, (gput t π u). split; [done|]. split; [exact S2|]. split; [exact Hb|]. split; [done|]. split; [done|].
    exists π, v, u. split; [done|]. split; [done|]. split; [|done]. simpl. rewrite <- Hloc. by eapply core_loc_at.
Qed.

(** A call of [afl_custom_trim]: a tree of the language is made, printed and kept. *)
Lemma trim_ok d x T y p t ls i m :
  core productions d x T y p t ls i m → lists_ready m ls x y → trim_stage_ok m ls x → cur_trimming_stage x < 2 →
  wp afl_custom_trim d (λ res d', ∃ b s T1 t', let x' := set_fuzz_buf (Some b) (set_fuzz_size s (set_trimmed_tree (Some T1) x)) in
    res = (zlen (yield t'), true) ∧ core productions d' x' T (after_attempt m ls x y) p t ls i m ∧
    beside m (w_heap (d_world d')) T T1 (recount t') ∧ typed productions (NT i) t' ∧
    (Some <$> yield t') `prefix_of` b ∧ attempt m p t ls x t').
Proof.
  intros S Hl Hst Hlt. unfold afl_custom_trim. apply wp_bind. eapply wp_get_data; [apply S|].
  apply wp_bind. eapply wp_mono; [by eapply attempt_ok|].
  intros ? d1 (T1 & t' & -> & S1 & Hb & Ht & Hlen & Hatt). pose proof (typed_gid _ _ _ Ht) as [Hg Hi].
  pose proof (hand_out_core Hmem productions (set_trimmed_tree (Some T1)) (λ n, n) d1 x T _ p t ls i m T1 t' S1
    eq_refl eq_refl eq_refl Hb Hlen ltac:(congruence) ltac:(lia)) as Hw.
  eapply wp_mono; [exact Hw|]. intros res d' (b & s & -> & S2 & Hb2 & Hpre). exists b, s, T1, t'.
  rewrite take_ge in Hpre by lia. done.
Qed.

(** *** A failed attempt *)

Definition after_failure (x : my_mutator) : my_mutator := trim_stage (set_trimmed_tree None (trim_failed x)).

Lemma tail_drop {A} (l : list A) n : tail (drop n l) = drop (S n) l.
Proof. revert l. induction n as [|n IH]; intros [|a l]; try done. simpl. by destruct l. Qed.

Lemma failed_left m ls x :
  progress m ls x → cur_trimming_stage x = 0 ∨ cur_trimming_stage x = 1 →
  nts_left m ls (after_failure x) = (if decide (cur_trimming_stage x = 0) then tail (nts_left m ls x) else nts_left m ls x) ∧
  edges_left m ls (after_failure x) = (if decide (cur_trimming_stage x = 0) then edges_left m ls x else tail (edges_left m ls x)) ∧
  cur_subtree_trimming_step (after_failure x) = cur_subtree_trimming_step x + (if decide (cur_trimming_stage x = 0) then 1 else 0) ∧
  cur_recursive_trimming_step (after_failure x) = cur_recursive_trimming_step x + (if decide (cur_trimming_stage x = 0) then 0 else 1) ∧
  finished_subtree_trimming_nodes (after_failure x) = finished_subtree_trimming_nodes x + (if decide (cur_trimming_stage x = 0) then 1 else 0) ∧
  finished_recursive_trimming_edges (after_failure x) = finished_recursive_trimming_edges x + (if decide (cur_trimming_stage x = 0) then 0 else 1).
Proof.
  intros [P1 P2 P3 P4 P5 P6 P7 P8] Hs. unfold nts_left, edges_left, after_failure, trim_failed, trim_stage in *. destruct x; simpl in *.
  destruct Hs as [-> | ->]; simpl; rewrite ?(wrap_small 64) by lia; repeat (case_decide; simpl; try lia);
    rewrite ?tail_drop; split_and!; try lia; try done; f_equal; lia.
Qed.

Lemma failed_totals x :
  total_subtree_trimming_steps (after_failure x) = total_subtree_trimming_steps x ∧
  total_recursive_trimming_steps (after_failure x) = total_recursive_trimming_steps x ∧
  trim_was_effective (after_failure x) = trim_was_effective x ∧ tree_cur (after_failure x) = tree_cur x ∧
  fuzz_buf (after_failure x) = fuzz_buf x ∧ fuzz_size (after_failure x) = fuzz_size x ∧ trimmed_tree (after_failure x) = None.
Proof. destruct x. unfold after_failure, trim_failed, trim_stage. simpl. repeat (case_decide; simpl); done. Qed.

Lemma failed_stage x : cur_trimming_stage x = 0 ∨ cur_trimming_stage x = 1 →
  cur_trimming_stage (after_failure x) =
    if decide (cur_trimming_stage x = 0 ∧ cur_subtree_trimming_step (after_failure x) < total_subtree_trimming_steps x) then 0
    else if decide (cur_recursive_trimming_step (after_failure x) < total_recursive_trimming_steps x) then 1 else 2.
Proof.
  intros Hs. destruct x. unfold after_failure, trim_failed, trim_stage. simpl in *.
  destruct Hs as [-> | ->]; repeat (case_decide; simpl in *; try lia); done.
Qed.

Lemma zlen_tail {A} (l : list A) : l ≠ [] → zlen (tail l) = zlen l - 1.
Proof. destruct l; simpl; [done|lia]. Qed.

Lemma trim_stage_cases m ls x : trim_stage_ok m ls x →
  cur_trimming_stage x = 0 ∧ nts_left m ls x ≠ [] ∨
  cur_trimming_stage x = 1 ∧ nts_left m ls x = [] ∧ edges_left m ls x ≠ [] ∨
  cur_trimming_stage x = 2 ∧ nts_left m ls x = [] ∧ edges_left m ls x = [].
Proof.
  unfold trim_stage_ok. intros ->. destruct (nts_left m ls x), (edges_left m ls x); repeat case_decide; naive_solver.
Qed.

Lemma failed_progress m ls x :
  progress m ls x → trim_stage_ok m ls x → cur_trimming_stage x < 2 →
  progress m ls (after_failure x) ∧ trim_stage_ok m ls (after_failure x).
Proof.
  intros P Hst Hlt. pose proof P as [P1 P2 P3 P4 P5 P6 P7 P8]. destruct (failed_totals x) as (T1 & T2 & _).
  apply trim_stage_cases in Hst as [[Hs Hn]|[(Hs & Hn & He)|(Hs & _)]]; [| |lia].
  - destruct (failed_left m ls x P ltac:(by left)) as (L1 & L2 & L3 & L4 & L5 & L6). pose proof (failed_stage x ltac:(by left)) as Hstage.
    rewrite Hs in *. rewrite decide_True in L1 by done. rewrite decide_True in L2 by done. rewrite decide_True in L3 by done. rewrite decide_True in L4 by done. rewrite decide_True in L5 by done. rewrite decide_True in L6 by done. pose proof (zlen_tail _ Hn) as Htl. split.
    + split; rewrite ?T1, ?T2, ?L1, ?L2, ?L3, ?L4, ?L5, ?L6; lia.
    + unfold trim_stage_ok. rewrite Hstage, L1, L2, L3, L4.
      destruct (tail (nts_left m ls x)), (edges_left m ls x); simpl in Htl, P8; repeat case_decide; first [done|lia|exfalso; lia|naive_solver].
  - destruct (failed_left m ls x P ltac:(by right)) as (L1 & L2 & L3 & L4 & L5 & L6). pose proof (failed_stage x ltac:(by right)) as Hstage.
    rewrite Hs in *. rewrite decide_False in L1 by done. rewrite decide_False in L2 by done. rewrite decide_False in L3 by done. rewrite decide_False in L4 by done. rewrite decide_False in L5 by done. rewrite decide_False in L6 by done. pose proof (zlen_tail _ He) as Htl. split.
    + split; rewrite ?T1, ?T2, ?L1, ?L2, ?L3, ?L4, ?L5, ?L6; lia.
    + unfold trim_stage_ok. rewrite Hstage, L1, L2, L3, L4, Hn. 
      destruct (tail (edges_left m ls x)); simpl in Htl; repeat case_decide; first [done|lia|exfalso; lia|naive_solver].
Qed.

(** *** The handler *)

Lemma post_fail_ok d x T y p t ls i m T1 t1 :
  core productions d x T y p t ls i m → trimmed_tree x = Some T1 → beside m (w_heap (d_world d)) T T1 t1 →
  trim_was_effective x = false →
  wp (afl_custom_post_trim false) d (λ n d', core productions d' (after_failure x) T y p t ls i m ∧
    n = i32 (u64 (cur_subtree_trimming_step (after_failure x) + cur_recursive_trimming_step (after_failure x)))).
Proof.
  intros S Htr (Hne & y1 & p1 & ls1 & Hin & _ & Hap) Heff. destruct (failed_totals x) as (_ & _ & F3 & F4 & F5 & F6 & _).
  unfold afl_custom_post_trim. apply wp_bind, wp_bind. eapply wp_get_data; [apply S|]. rewrite Htr.
  apply wp_bind, wp_in_heap. eapply wp_mono; [by eapply tree_free_ok|]. intros [] h' D.
  eapply wp_upd; [apply S|]. apply wp_bind. eapply wp_upd; [done|]. apply wp_bind. eapply wp_get_data; [done|].
  replace (trim_stage (set_trimmed_tree None (trim_failed x))) with (after_failure x) by reflexivity.
  rewrite decide_False by (rewrite F3, Heff; by intros [? _]). apply wp_bind, wp_ret, wp_ret. split; [|done].
  split; simpl; try apply S; try done.
  - rewrite F4. apply S.
  - eapply dropped_ok; [done|apply S].
  - apply map_subseteq_spec. intros q n Hq. rewrite (dr_same _ _ _ _ D); [eapply lookup_weaken; [done|apply S]|].
    intros Hq2. by rewrite Hap in Hq.
  - rewrite (dr_trees _ _ _ _ D), lookup_delete_ne by done. apply S.
  - rewrite F5, F6. apply S.
Qed.

(** What is the same of two mutators for the trimming. *)
Definition same_trim (x x' : my_mutator) : Prop :=
  cur_trimming_stage x' = cur_trimming_stage x ∧ trim_was_effective x' = trim_was_effective x ∧
  cur_subtree_trimming_step x' = cur_subtree_trimming_step x ∧ finished_subtree_trimming_nodes x' = finished_subtree_trimming_nodes x ∧
  total_subtree_trimming_steps x' = total_subtree_trimming_steps x ∧ cur_recursive_trimming_step x' = cur_recursive_trimming_step x ∧
  finished_recursive_trimming_edges x' = finished_recursive_trimming_edges x ∧ total_recursive_trimming_steps x' = total_recursive_trimming_steps x.

Lemma same_progress m ls x x' : same_trim x x' → progress m ls x → trim_stage_ok m ls x → progress m ls x' ∧ trim_stage_ok m ls x'.
Proof.
  intros (E1 & E2 & E3 & E4 & E5 & E6 & E7 & E8) [P1 P2 P3 P4 P5 P6 P7 P8] Hst.
  unfold trim_stage_ok, nts_left, edges_left in *. split; [split|]; unfold nts_left, edges_left; rewrite ?E1, ?E2, ?E3, ?E4, ?E5, ?E6, ?E7, ?E8; done.
Qed.

(** The trimming between two attempts. *)
Record trimming (d : driver R) (x : my_mutator) T y p t ls i (m : gmap loc node) : Prop := {
  tm_core : core productions d x T y p t ls i m;
  tm_progress : progress m ls x;
  tm_stage : trim_stage_ok m ls x;
  tm_lists : lists_ready m ls x y;
  tm_effective : trim_was_effective x = false }.

(** What is tried next. *)
Definition next_try (m : gmap loc node) (ls : list loc) (x : my_mutator) : option (loc + edge) :=
  if decide (cur_trimming_stage x = 0) then inl <$> head (nts_left m ls x) else inr <$> head (edges_left m ls x).

Definition tries_left (m : gmap loc node) (ls : list loc) (x : my_mutator) : list (loc + edge) :=
  (inl <$> nts_left m ls x) ++ (inr <$> edges_left m ls x).

Lemma tries_left_length m ls x : progress m ls x →
  zlen (tries_left m ls x) = total_subtree_trimming_steps x + total_recursive_trimming_steps x
    - (cur_subtree_trimming_step x + cur_recursive_trimming_step x).
Proof. intros [_ _ _ _ _ _ P7 P8]. unfold tries_left. rewrite length_app, !length_fmap. lia. Qed.

Lemma tries_step m ls x : progress m ls x → trim_stage_ok m ls x → tries_left m ls x ≠ [] →
  cur_trimming_stage x < 2 ∧ ∃ a, next_try m ls x = Some a ∧ tries_left m ls x = a :: tries_left m ls (after_failure x).
Proof.
  intros P Hst Hne. unfold next_try.
  destruct (trim_stage_cases _ _ _ Hst) as [[Hs Hn]|[(Hs & Hn & He)|(Hs & Hn & He)]].
  - split; [lia|]. destruct (failed_left m ls x P ltac:(by left)) as (L1 & L2 & _). unfold tries_left. rewrite L1, L2, Hs.
    destruct (nts_left m ls x) as [|q nts]; [done|]. exists (inl q). done.
  - split; [lia|]. destruct (failed_left m ls x P ltac:(by right)) as (L1 & L2 & _). unfold tries_left. rewrite L1, L2, Hs, Hn.
    destruct (edges_left m ls x) as [|e es]; [done|]. exists (inr e). done.
  - unfold tries_left in Hne. by rewrite Hn, He in Hne.
Qed.

Lemma same_tries m ls x x' : same_trim x x' → tries_left m ls x' = tries_left m ls x ∧ next_try m ls x' = next_try m ls x.
Proof.
  intros (E1 & E2 & E3 & E4 & E5 & E6 & E7 & E8). unfold tries_left, next_try, nts_left, edges_left. by rewrite E1, E4, E7.
Qed.

Lemma i32_small x : 0 ≤ x < 2 ^ 31 → i32 x = x.
Proof. intros. unfold i32. rewrite wrap_small by lia. lia. Qed.

Definition trim_total (x : my_mutator) : Z := total_subtree_trimming_steps x + total_recursive_trimming_steps x.
Definition trim_steps (x : my_mutator) : Z := cur_subtree_trimming_step x + cur_recursive_trimming_step x.

Lemma lists_after_failure m ls x x1 y :
  same_trim x x1 → progress m ls x → trim_stage_ok m ls x → cur_trimming_stage x < 2 → lists_ready m ls x y →
  lists_ready m ls (after_failure x1) (after_attempt m ls x y).
Proof.
  intros Hsame P Hst Hlt [Hn He]. destruct (same_progress m ls x x1 Hsame P Hst) as [P1 Hst1].
  pose proof Hsame as (E1 & _ & _ & E4 & _ & _ & E7 & _).
  assert (cur_trimming_stage x = 0 ∨ cur_trimming_stage x = 1) as Hs by (apply trim_stage_cases in Hst as [[]|[[]|[]]]; lia).
  destruct (failed_left m ls x1 P1 ltac:(by rewrite E1)) as (L1 & L2 & _).
  assert (nts_left m ls x1 = nts_left m ls x) as EN by (unfold nts_left; by rewrite E4).
  assert (edges_left m ls x1 = edges_left m ls x) as EE by (unfold edges_left; by rewrite E7).
  unfold lists_ready, after_attempt. rewrite L1, L2, E1, EN, EE. destruct (decide (cur_trimming_stage x = 0)); by split.
Qed.

(** The attempt of this call: at a node with a new subtree, or at an edge with the
    subtree below it. *)
Definition attempt_at (m : gmap loc node) p t (a : loc + edge) (t' : gtree) : Prop := ∃ π v u,
  gget t π = Some v ∧ t' = gput t π u ∧
  match a with
  | inl q => loc_at m p π = Some q ∧ builds (gid v) u
  | inr e => e_parent e = loc_at m p π ∧ ∃ k, gsubs v !! k = Some (Some u) ∧ gid v = gid u
  end.

Lemma attempt_next m p t ls x t' a : attempt m p t ls x t' → next_try m ls x = Some a → attempt_at m p t a t'.
Proof.
  unfold next_try. intros (π & v & u & Hg & Ht & Hrest) Hn. exists π, v, u. split; [done|]. split; [done|].
  destruct (decide (cur_trimming_stage x = 0)).
  - destruct Hrest as [Hh Hb]. apply fmap_Some in Hn as (q & Hq & ->). split; [congruence|done].
  - destruct Hrest as (e & k & He & Hp & Hk & Hid). rewrite He in Hn. injection Hn as <-. split; [done|by exists k].
Qed.

(** The report of a failed attempt. *)
Lemma failed_post_ok d x x1 T y p t ls i m T1 t1 a rest :
  progress m ls x → trim_stage_ok m ls x → cur_trimming_stage x < 2 → lists_ready m ls x y → trim_was_effective x = false →
  same_trim x x1 → core productions d x1 T (after_attempt m ls x y) p t ls i m → trimmed_tree x1 = Some T1 →
  beside m (w_heap (d_world d)) T T1 t1 → tries_left m ls x = a :: rest →
  wp (afl_custom_post_trim false) d (λ n d', ∃ x' y', trimming d' x' T y' p t ls i m ∧
    tries_left m ls x' = rest ∧ n = trim_steps x' ∧ trim_total x' = trim_total x).
Proof.
  intros P Hst Hlt Hl Heff Hsame S1 Htr Hb Htries.
  destruct (same_progress m ls x x1 Hsame P Hst) as [P1 Hst1]. destruct (same_tries m ls x x1 Hsame) as [Et En].
  destruct (tries_step m ls x1 P1 Hst1 ltac:(by rewrite Et, Htries)) as (Hlt1 & a' & _ & Hstep1).
  rewrite Et, Htries in Hstep1. injection Hstep1 as _ Hrest.
  destruct (failed_progress m ls x1 P1 Hst1 Hlt1) as [P2 Hst2]. destruct (failed_totals x1) as (F1 & F2 & F3 & _).
  pose proof Hsame as (_ & E2 & _ & _ & E5 & _ & _ & E8).
  eapply wp_mono; [apply (post_fail_ok d x1 T (after_attempt m ls x y) p t ls i m T1 t1); try done; by rewrite E2|].
  intros n d2 [S2 ->]. exists (after_failure x1), (after_attempt m ls x y).
  split; [split; try done; [by eapply lists_after_failure|by rewrite F3, E2]|]. split; [done|].
  pose proof (tries_left_length m ls _ P2) as Hlen. destruct P2 as [Q1 Q2 Q3 Q4 _ _ Q7 Q8]. unfold trim_steps, trim_total.
  rewrite F1, F2, E5, E8. split; [|done]. rewrite F1 in Q3, Q7. rewrite F2 in Q4, Q8.
  rewrite (wrap_small 64), i32_small by lia. done.
Qed.

Lemma recursion_edges_frame m m' p t ls :
  m ⊆ m' → shape true m None p t ls → NoDup ls → recursion_edges m' ls = recursion_edges m ls.
Proof.
  intros Hm Hs Hnd. unfold recursion_edges. pose proof Hs as (_ & _ & lss & _ & _ & Hls & _)%shape_unfold.
  assert (∀ q, q ∈ tail ls → edge_to m' q = edge_to m q) as He.
  { intros q Hq. assert (q ∈ ls) as Hqls by (rewrite Hls in Hq |- *; by right).
    assert (q ≠ p) as Hne by (intros ->; rewrite Hls in Hnd, Hq; by apply NoDup_cons in Hnd as [? _]).
    destruct (shape_focus true m t None p ls q Hs Hnd Hqls Hne) as (π & pp & npp & ps & k & v & lq & rest & F).
    pose proof (f_shape F) as (n & ? & ? & Hn & His & _ & _)%shape_unfold.
    unfold edge_to. rewrite Hn, (lookup_weaken _ _ _ _ Hn Hm). simpl. rewrite (is_parent _ _ _ _ _ His eq_refl). simpl.
    by rewrite (f_node F), (lookup_weaken _ _ _ _ (f_node F) Hm). }
  apply list_omap_ext, Forall2_same_length_lookup_2; [done|]. intros k q q' Hq Hq'. simplify_eq. by apply He, list_elem_of_lookup_2 with k.
Qed.

(** The start: everything is to be tried. *)
Lemma init_trim_ok d x T y p t ls i m :
  core productions d x T y p t ls i m → count_nt t < 2 ^ 30 → count_edges t < 2 ^ 30 →
  wp afl_custom_init_trim d (λ n d', n = count_nt t + count_edges t ∧ ∃ x' y', trimming d' x' T y' p t ls i m ∧
    tries_left m ls x' = (inl <$> non_terminals m ls) ++ (inr <$> recursion_edges m ls) ∧ trim_steps x' = 0 ∧ trim_total x' = n).
Proof.
  intros S Hnt He. pose proof (ss_target _ _ _ _ _ _ _ _ _ _ S) as Tg. pose proof (target_gid _ _ _ _ _ _ Tg) as Hid.
  assert (d_data d = Some x) as Hd by apply S. assert (tree_cur x = Some T) as Htc by apply S.
  pose proof (core_stored _ _ _ _ _ _ _ _ _ S) as [_ _ Hs Hnd]. set (h := w_heap (d_world d)) in *.
  pose proof (count_nt_nonneg t). pose proof (count_edges_nonneg t).
  assert (∀ q, q ∈ ls → nodes h !! q = m !! q) as Hkeep.
  { intros q Hq. destruct (shape_lookup _ _ _ _ _ _ q (tg_shape _ _ _ _ _ _ Tg) Hq) as [n Hn]. rewrite Hn.
    eapply lookup_weaken; [done|apply S]. }
  unfold afl_custom_init_trim. apply wp_bind. eapply wp_get_data; [done|]. rewrite Htc.
  apply wp_bind, wp_in_heap. eapply wp_mono; [eapply (tree_get_non_terminal_nodes_ok Hmem h T y p true None t ls); try done; apply S|].
  intros [] h1 Hst1. rewrite (non_terminals_frame m) in Hst1 by done. set (y1 := set_non_terminal_node_list _ y) in *.
  apply wp_bind, wp_in_heap. simpl. pose proof (ts_nodes _ _ _ _ _ Hst1) as Hn1.
  eapply wp_mono; [eapply (tree_get_recursion_edges_ok Hmem h1 T y1 p None t ls); [apply Hst1|apply S|by rewrite Hn1|done]|].
  intros [] h2 Hst2. rewrite Hn1, (recursion_edges_frame m _ p t) in Hst2 by apply S || apply Tg.
  set (y2 := set_recursion_edge_list _ y1) in *. pose proof (tree_step_trans _ _ _ _ _ _ _ Hst1 Hst2) as Hst.
  pose proof (ts_nodes _ _ _ _ _ Hst) as Hn2.
  apply wp_bind, wp_in_heap. eapply wp_load_tree; [apply Hst|].
  pose proof Hs as (n & ? & ? & Hp & His & _ & _)%shape_unfold. destruct (counted_sizes t (tg_counted _ _ _ _ _ _ Tg)) as [Z1 Z2]; [lia..|].
  apply wp_bind, wp_in_heap. replace (root y2) with (Some p) by (symmetry; apply S).
  eapply wp_load; [simpl; by rewrite Hn2|]. apply wp_bind. eapply wp_upd; [done|]. apply wp_ret.
  rewrite (is_nts _ _ _ _ _ His), (is_res _ _ _ _ _ His), Z1, Z2. rewrite (wrap_small 64), i32_small by lia.
  split; [done|]. set (xt := set_cur_trimming_stage 0 _). exists xt, y2.
  assert (core productions (set_data (Some xt) (set_world (set_heap h2 (d_world d)) d)) xt T y2 p t ls i m) as S1.
  { by apply (core_listed productions d x T y). }
  split; [|split; [|split; [done|]]].
  - split; [exact S1| | |split; done|done].
    + split; simpl; try lia.
      * unfold nts_left. simpl. rewrite drop_0, Z.sub_0_r. symmetry.
        eapply (length_non_terminals true m t); apply Tg.
      * unfold edges_left. simpl. rewrite drop_0, Z.sub_0_r. symmetry. eapply (length_recursion_edges m t); apply Tg.
    + unfold trim_stage_ok. rewrite decide_True; [done|]. unfold nts_left. simpl. rewrite drop_0. intros Hnil.
      pose proof (length_non_terminals true m t None p ls ltac:(apply Tg)) as Hlen. rewrite Hnil in Hlen. simpl in Hlen.
      pose proof (count_nt_pos t Hid). lia.
  - unfold tries_left, nts_left, edges_left. simpl. by rewrite !drop_0.
  - done.
Qed.
End Trim.
