(* ===== verification/Cuckoo.v ===== *)
(** * Cuckoo: the plan-injection extension, pg_cuckoo/PgExtension/src/cuckoo.c

    The extension diverts PostgreSQL's planner through [planner_hook]: a plan
    cache in front of the standard planner, and entry points that run a given
    serialised plan by preparing a dummy query while [injection_planner] is
    installed.  PostgreSQL is the class [Postgres]; the variables the extension
    assigns are the [session].  [elog(ERROR)] and [ereport(ERROR)] leave through
    [longjmp]: the assignments made before them stay, so an error is a result
    that keeps the session.  Connecting to SPI and preparing a statement may fail
    at any call. *)

From S2P Require Import Prelude.

(** ** PostgreSQL *)

(** What [SPI_execute_plan] reports: an error raised by the executor, or the
    return code, the number of rows and whether there is a tuple table. *)
Inductive exec_result := ExecError | ExecDone (ret : Z) (processed : Z) (rows : option (list string)).

Definition SPI_OK_SELECT : Z := 5.
Definition SPI_ERROR_ARGUMENT : Z := -6.

(** What [SPI_prepare] does: it returns a plan or NULL, or raises an error. *)
Inductive prepare_result := Prepared | NotPrepared | PrepareError.

(** [spi_connects] and [spi_prepares] are the outcome of the [n]-th of these calls. *)
Class Postgres := {
  raw_stmt : Type; query : Type; node : Type;
  raw_parser : string → option (list raw_stmt);
  analyze_and_rewrite : raw_stmt → option (list query);
  source_text : query → string;
  utility_plan : query → option node;
  target_exprs : query → list (option node);
  standard_planner : query → option node;
  stringToNode : string → option (option node);
  nodeToString : node → string;
  pretty_format_node_dump : string → string;
  is_PlannedStmt : node → bool;
  hash_any : string → Z;
  plan_hash : string → Z;
  execute : node → exec_result;
  explain : node → bool → option string;
  spi_connects : nat → bool;
  spi_prepares : nat → prepare_result;
  select_1 : query }.

(** ** The session *)

(** The values [planner_hook] takes; [NULL] stands for the standard planner. *)
Inductive hook := NoHook | CachePlanner | InjectionPlanner.
#[export] Instance hook_eq_dec : EqDecision hook.
Proof. solve_decision. Defined.

(** A row of the table [plan_cache]. *)
Record cache_row := CacheRow { row_query : Z; row_hash : Z; row_plan : string; row_force : bool }.

(** [plan_cache] is [None] when the table does not exist; [spi_depth] counts
    the open SPI connections and [spi_calls] the calls so far that could fail; [hash_hook]
    says that [query_hash_hook] is installed.  [saved_cache] is the value of the
    setting [pg_cuckoo.cache] before [GUC_ACTION_SAVE] changed it in this transaction. *)
Record session `{Postgres} := Session {
  planner_hook : hook;
  myPlan : option node;
  pg_cuckoo_cache_enabled : bool;
  plan_cache : option (list cache_row);
  spi_depth : nat;
  hash_hook : bool;
  saved_cache : option bool;
  spi_calls : nat }.

Section PG.
Context `{Postgres}.

(** Code that may raise an error: [None], with the session at that point. *)
Definition PG (A : Type) : Type := session → option A * session.

#[export] Instance PG_ret : MRet PG := λ A a s, (Some a, s).
#[export] Instance PG_bind : MBind PG := λ A B k m s,
  match m s with
  | (Some a, s') => k a s'
  | (None, s') => (None, s')
  end.

Definition raise {A} : PG A := λ s, (None, s).
Definition get_session : PG session := λ s, (Some s, s).
Definition lift_opt {A} (o : option A) : PG A := λ s, (o, s).

Definition set_planner_hook (x : hook) : PG unit := λ s, (Some tt, Session _ x (myPlan s)
  (pg_cuckoo_cache_enabled s) (plan_cache s) (spi_depth s) (hash_hook s) (saved_cache s) (spi_calls s)).
Definition set_myPlan (x : option node) : PG unit := λ s, (Some tt, Session _ (planner_hook s) x
  (pg_cuckoo_cache_enabled s) (plan_cache s) (spi_depth s) (hash_hook s) (saved_cache s) (spi_calls s)).
Definition set_plan_cache (x : option (list cache_row)) : PG unit := λ s, (Some tt, Session _ (planner_hook s) (myPlan s)
  (pg_cuckoo_cache_enabled s) x (spi_depth s) (hash_hook s) (saved_cache s) (spi_calls s)).
Definition set_spi_depth (d : nat) : PG unit := λ s, (Some tt, Session _ (planner_hook s) (myPlan s)
  (pg_cuckoo_cache_enabled s) (plan_cache s) d (hash_hook s) (saved_cache s) (spi_calls s)).


(** [set_config_option] with [GUC_ACTION_SAVE]: the old value comes back when the transaction ends. *)
Definition set_cache_enabled (x : bool) : PG unit := λ s, (Some tt, Session _ (planner_hook s) (myPlan s)
  x (plan_cache s) (spi_depth s) (hash_hook s) (Some (default (pg_cuckoo_cache_enabled s) (saved_cache s))) (spi_calls s)).

(** One more call that may fail. *)
Definition count_call : PG nat := λ s, (Some (spi_calls s), Session _ (planner_hook s) (myPlan s)
  (pg_cuckoo_cache_enabled s) (plan_cache s) (spi_depth s) (hash_hook s) (saved_cache s) (S (spi_calls s))).

(** Whether the connection is open. *)
Definition SPI_connect : PG bool :=
  n ← count_call;
  if spi_connects n then s ← get_session; _ ← set_spi_depth (S (spi_depth s)); mret true else mret false.

(** [if ((ret = SPI_connect()) < 0) elog(ERROR, ...)]. *)
Definition SPI_connect_checked : PG unit :=
  ok ← SPI_connect;
  if (ok : bool) then mret tt else raise.

Definition SPI_finish : PG unit := s ← get_session; set_spi_depth (pred (spi_depth s)).

(** Whether there is a plan; without a connection there is none. *)
Definition SPI_prepare : PG bool :=
  n ← count_call;
  s ← get_session;
  if decide (spi_depth s = 0%nat) then mret false else
  match spi_prepares n with
  | Prepared => mret true
  | NotPrepared => mret false
  | PrepareError => raise
  end.

End PG.
Arguments PG {_} A.

(** Runs the monad one step. *)
Ltac pg_run := unfold mbind, PG_bind, mret, PG_ret, get_session, lift_opt, raise; simpl.

(** ** The extension *)

Section Extension.
Context `{Postgres}.


Definition pg_cuckoo_enable_cache : PG unit := set_cache_enabled true.
Definition pg_cuckoo_disable_cache : PG unit := set_cache_enabled false.

(** [query_hash_hook]: the [queryId] of an analysed query. *)
Definition query_hash_hook (q : query) : Z := u32 (hash_any (source_text q)).

Definition query_id (s : session) (q : query) : Z := if hash_hook s then query_hash_hook q else 0.

Definition format_node (n : option node) (pretty : bool) : PG string :=
  match n with
  | None => raise
  | Some n => let out := nodeToString n in
              mret (if pretty then pretty_format_node_dump out else out)
  end.

(** [SPI_execute_with_args("select * from plan_cache where query_id = $1")]
    with a row limit of one. *)
Definition select_cached (id : Z) : PG (list cache_row) :=
  s ← get_session;
  match plan_cache s with
  | None => raise
  | Some rows => mret (take 1 (filter (λ r, row_query r = id) rows))
  end.

Definition insert_cached (r : cache_row) : PG unit :=
  s ← get_session;
  match plan_cache s with
  | None => raise
  | Some rows => set_plan_cache (Some (rows ++ [r]))
  end.

(** [IsA(n, PlannedStmt)] reads the tag of [n]: a NULL crashes the backend. *)
Definition isa_PlannedStmt (n : option node) : PG bool :=
  match n with None => raise | Some n => mret (is_PlannedStmt n) end.

(** The loop over the cached rows: the first row with [force_plan] decides. *)
Fixpoint forced_plan (rows : list cache_row) : PG (option node) :=
  match rows with
  | [] => mret None
  | r :: rows =>
      if row_force r then
        n ← lift_opt (stringToNode (row_plan r));
        ok ← isa_PlannedStmt n;
        mret (if (ok : bool) then n else None)
      else forced_plan rows
  end.

Definition cache_planner (q : query) : PG node :=
  s ← get_session;
  match myPlan s with
  | Some p => mret p
  | None =>
      if negb (pg_cuckoo_cache_enabled s) then lift_opt (standard_planner q) else
      _ ← SPI_connect_checked;
      _ ← set_planner_hook NoHook;
      rows ← select_cached (query_id s q);
      match rows with
      | [] =>
          _ ← SPI_finish;
          plan ← lift_opt (standard_planner q);
          plantext ← format_node (Some plan) false;
          _ ← SPI_connect_checked;
          _ ← insert_cached (CacheRow (query_id s q) (plan_hash plantext) plantext false);
          _ ← set_planner_hook CachePlanner;
          _ ← SPI_finish;
          mret plan
      | _ =>
          planToForce ← forced_plan rows;
          _ ← set_planner_hook CachePlanner;
          _ ← SPI_finish;
          match planToForce with
          | None => lift_opt (standard_planner q)
          | Some p => mret p
          end
      end
  end.

(** [injection_planner]; a NULL [myPlan] makes the executor fail. *)
Definition injection_planner (q : query) : PG node :=
  _ ← set_planner_hook NoHook;
  s ← get_session;
  lift_opt (myPlan s).

(** [planner()] of PostgreSQL: the hook when there is one. *)
Definition planner (q : query) : PG node :=
  s ← get_session;
  match planner_hook s with
  | NoHook => lift_opt (standard_planner q)
  | CachePlanner => cache_planner q
  | InjectionPlanner => injection_planner q
  end.

(** [SPI_execute_plan] of the prepared [select 1]: plan, then execute; without a prepared
    statement nothing happens. *)
Definition SPI_execute_plan (res : bool) : PG (Z * Z * option (list string)) :=
  if negb res then mret (SPI_ERROR_ARGUMENT, 0, None) else
  p ← planner select_1;
  match execute p with
  | ExecError => raise
  | ExecDone ret processed rows => mret (ret, processed, rows)
  end.

(** [pg_plan_queries]. *)
Fixpoint pg_plan_queries (qs : list query) : PG (list node) :=
  match qs with
  | [] => mret []
  | q :: qs =>
      p ← (match utility_plan q with Some p => mret p | None => planner q end);
      ps ← pg_plan_queries qs;
      mret (p :: ps)
  end.

(** [linitial] of an empty list crashes the backend; the model raises. *)
Definition linitial {A} (l : list A) : PG A := lift_opt (head l).

Definition pg_plan_serialize (query_string : string) (pretty : bool) : PG string :=
  parsetree_list ← lift_opt (raw_parser query_string);
  parsetree ← linitial parsetree_list;
  querytree ← lift_opt (analyze_and_rewrite parsetree);
  plans ← pg_plan_queries querytree;
  p ← linitial plans;
  format_node (Some p) pretty.

(** [pg_plan_execute]: [materialize] is the check of the caller's result mode;
    the result is the set of rows, or NULL. *)
Definition pg_plan_execute (materialize : bool) (nodeText : string) : PG (option (list string)) :=
  if negb materialize then raise else
  result ← lift_opt (stringToNode nodeText);
  ok ← isa_PlannedStmt result;
  if negb ok then raise else
  _ ← format_node result false;
  _ ← set_myPlan result;
  _ ← set_planner_hook InjectionPlanner;
  _ ← SPI_connect_checked;
  res ← SPI_prepare;
  r ← SPI_execute_plan res;
  let '(ret, proc, rows) := r in
  if decide (ret ≠ SPI_OK_SELECT ∨ proc = 0) then
    _ ← SPI_finish; mret None
  else
    _ ← SPI_finish;
    _ ← set_planner_hook NoHook;
    mret (take (Z.to_nat proc) <$> rows).

Definition pg_plan_execute_print (nodeText : string) : PG string :=
  result ← lift_opt (stringToNode nodeText);
  outputstr ← format_node result false;
  _ ← set_myPlan result;
  _ ← set_planner_hook InjectionPlanner;
  _ ← SPI_connect;
  res ← SPI_prepare;
  _ ← SPI_execute_plan res;
  _ ← SPI_finish;
  _ ← set_planner_hook NoHook;
  mret outputstr.

Definition pg_plan_explain (nodeText : string) (analyze : bool) : PG string :=
  plan ← lift_opt (stringToNode nodeText);
  match plan with
  | None => raise
  | Some p =>
      if is_PlannedStmt p
      then mret (match explain p analyze with Some out => out | None => "Invalid plan" end)
      else mret "Input is not a plan"
  end.

Definition string_to_const (query_string : string) : PG string :=
  parsetree_list ← lift_opt (raw_parser query_string);
  parsetree ← linitial parsetree_list;
  querytree ← lift_opt (analyze_and_rewrite parsetree);
  q ← linitial querytree;
  match target_exprs q with
  | Some e :: _ => format_node (Some e) false
  | _ => raise
  end.

(** ** Commands of a client

    A transaction is a sequence of commands.  When it ends PostgreSQL closes the SPI connections and brings
    saved settings back; an error ends it and undoes its changes to tables, but
    not the assignments to C variables. *)
Inductive command :=
| EnableCache | DisableCache
| RunQuery (q : query)
| Serialize (text : string) (pretty : bool)
| Execute (materialize : bool) (text : string)
| ExecutePrint (text : string)
| Explain (text : string) (analyze : bool)
| StringToConst (text : string).

Definition discard {A} (m : PG A) : PG unit := _ ← m; mret tt.

Definition exec_command (c : command) : PG unit :=
  match c with
  | EnableCache => pg_cuckoo_enable_cache
  | DisableCache => pg_cuckoo_disable_cache
  | RunQuery q => discard (planner q)
  | Serialize t p => discard (pg_plan_serialize t p)
  | Execute m t => discard (pg_plan_execute m t)
  | ExecutePrint t => discard (pg_plan_execute_print t)
  | Explain t a => discard (pg_plan_explain t a)
  | StringToConst t => discard (string_to_const t)
  end.

Fixpoint exec_commands (cs : list command) : PG unit :=
  match cs with
  | [] => mret tt
  | c :: cs => _ ← exec_command c; exec_commands cs
  end.

Definition end_transaction (commit : bool) (old s : session) : session :=
  Session _ (planner_hook s) (myPlan s) (default (pg_cuckoo_cache_enabled s) (saved_cache s))
    (if commit then plan_cache s else plan_cache old) 0 (hash_hook s) None (spi_calls s).

(** [SET pg_cuckoo.cache] is a transaction of its own. *)
Inductive action := Transaction (cs : list command) | SetCache (b : bool).

Definition run_action (a : action) (s : session) : session :=
  match a with
  | Transaction cs => let '(r, s') := exec_commands cs s in end_transaction (bool_decide (is_Some r)) s s'
  | SetCache b => Session _ (planner_hook s) (myPlan s) b (plan_cache s) (spi_depth s) (hash_hook s) (saved_cache s) (spi_calls s)
  end.


(** SPI never fails. *)
Definition spi_reliable : Prop := ∀ n, spi_connects n = true ∧ spi_prepares n = Prepared.







(** Properties of the session that every use of the planner keeps. *)
Lemma pg_plan_queries_keep (P : session → Prop) : (∀ q s, P s → P (planner q s).2) → ∀ qs s, P s → P (pg_plan_queries qs s).2.
Proof.
  intros HP. induction qs as [|q qs IH]; intros s Hs; [done|]. simpl. pg_run.
  assert (∀ (p : node) s1, P s1 → P (match pg_plan_queries qs s1 with
    | (Some ps, s2) => (Some (p :: ps), s2) | (None, s2) => (None, s2) end).2) as Hrest.
  { intros p s1 Hs1. specialize (IH s1 Hs1). by destruct (pg_plan_queries qs s1) as [[ps|] s2]. }
  destruct (utility_plan q) as [p|]; [by apply Hrest|].
  pose proof (HP q s Hs) as Hq. destruct (planner q s) as [[p|] s1]; [by apply Hrest|done].
Qed.

(** The session with [p] set up by an injection: the hook, the depth, and [k] more calls. *)
Definition injected (h : hook) (s : session) (p : node) (depth k : nat) : session :=
  Session _ h (Some p) (pg_cuckoo_cache_enabled s) (plan_cache s) depth (hash_hook s) (saved_cache s) (k + spi_calls s).

(** What an injection of [p] gives: connecting, preparing and executing the dummy query; [res] is the
    result of the executor, or nothing when no statement was prepared. *)
Lemma pg_plan_execute_eq materialize text s :
  pg_plan_execute materialize text s =
  match stringToNode text with
  | Some (Some p) =>
      if materialize && is_PlannedStmt p then
        if spi_connects (spi_calls s) then
          match spi_prepares (S (spi_calls s)) with
          | Prepared =>
              match execute p with
              | ExecError => (None, injected NoHook s p (S (spi_depth s)) 2)
              | ExecDone ret proc rows =>
                  (Some (if decide (ret ≠ SPI_OK_SELECT ∨ proc = 0) then None else take (Z.to_nat proc) <$> rows),
                   injected NoHook s p (spi_depth s) 2)
              end
          | NotPrepared => (Some None, injected InjectionPlanner s p (spi_depth s) 2)
          | PrepareError => (None, injected InjectionPlanner s p (S (spi_depth s)) 2)
          end
        else (None, injected InjectionPlanner s p (spi_depth s) 1)
      else (None, s)
  | _ => (None, s)
  end.
Proof.
  unfold pg_plan_execute, isa_PlannedStmt. destruct materialize; simpl; [|by destruct (stringToNode text) as [[p|]|]].
  pg_run. destruct (stringToNode text) as [[p|]|]; simpl; [|done|done]. destruct (is_PlannedStmt p); simpl; [|done].
  unfold SPI_connect_checked, SPI_connect, SPI_prepare, SPI_finish, SPI_execute_plan, planner, injection_planner, count_call. pg_run.
  destruct (spi_connects _); simpl; [|done]. destruct (spi_prepares _); simpl; [|done|done].
  destruct (execute p) as [|ret proc rows]; simpl; [done|]. case_decide; done.
Qed.

(** [pg_plan_execute_print] does not look at the results of these calls. *)
Lemma pg_plan_execute_print_eq text s :
  pg_plan_execute_print text s =
  match stringToNode text with
  | Some (Some p) =>
      let d := if spi_connects (spi_calls s) then S (spi_depth s) else spi_depth s in
      match (if decide (d = 0%nat) then NotPrepared else spi_prepares (S (spi_calls s))) with
      | Prepared =>
          match execute p with
          | ExecError => (None, injected NoHook s p d 2)
          | ExecDone _ _ _ => (Some (nodeToString p), injected NoHook s p (pred d) 2)
          end
      | NotPrepared => (Some (nodeToString p), injected NoHook s p (pred d) 2)
      | PrepareError => (None, injected InjectionPlanner s p d 2)
      end
  | _ => (None, s)
  end.
Proof.
  unfold pg_plan_execute_print. pg_run. destruct (stringToNode text) as [[p|]|]; simpl; [|done|done].
  unfold SPI_connect, SPI_prepare, SPI_finish, SPI_execute_plan, planner, injection_planner, count_call. pg_run.
  destruct (spi_connects _); simpl; [destruct (spi_prepares _)|destruct (decide (spi_depth s = 0%nat)); [done|destruct (spi_prepares _)]]; simpl; try done;
    by destruct (execute p).
Qed.

(** A command keeps what the planner and the injections keep. *)
Lemma exec_command_keep (P : session → Prop) c s : (∀ q s, P s → P (planner q s).2) →
  (∀ b, P s → P (set_cache_enabled b s).2) → (∀ m t, P s → P (pg_plan_execute m t s).2) → (∀ t, P s → P (pg_plan_execute_print t s).2) →
  P s → P (exec_command c s).2.
Proof.
  intros Hpl Hset Hex Hpr Hs. assert (∀ A (m : PG A), P (m s).2 → P (discard m s).2) as Hd.
  { intros A m Hm. unfold discard. pg_run. by destruct (m s) as [[a|] s']. }
  destruct c; try apply Hd; auto.
  - by apply (Hset true).
  - by apply (Hset false).
  - unfold pg_plan_serialize. pg_run. destruct (raw_parser _) as [[|r rs]|]; simpl; try done.
    destruct (analyze_and_rewrite r) as [qs|]; simpl; [|done].
    pose proof (pg_plan_queries_keep P Hpl qs s Hs) as Hq. destruct (pg_plan_queries qs s) as [[[|p ps]|] s']; done.
  - unfold pg_plan_explain. pg_run. destruct (stringToNode _) as [[p|]|]; simpl; try done. by destruct (is_PlannedStmt p).
  - unfold string_to_const. pg_run. destruct (raw_parser _) as [[|r rs]|]; simpl; try done.
    destruct (analyze_and_rewrite r) as [[|q qs]|]; simpl; try done. by destruct (target_exprs q) as [|[e|] es].
Qed.

Lemma exec_commands_keep (P : session → Prop) cs : (∀ c s, P s → P (exec_command c s).2) → ∀ s, P s → P (exec_commands cs s).2.
Proof.
  intros HP. induction cs as [|c cs IH]; intros s Hs; [done|]. simpl. pg_run. specialize (HP c s Hs).
  destruct (exec_command c s) as [[[]|] s1]; [by apply IH|done].
Qed.




Lemma run_action_keep (P : session → Prop) a s : (∀ c s, P s → P (exec_command c s).2) →
  (∀ s s', P s → planner_hook s' = planner_hook s → myPlan s' = myPlan s → P s') → P s → P (run_action a s).
Proof.
  intros Hc Hsame Hs. destruct a as [cs|b]; simpl; [|by eapply Hsame].
  pose proof (exec_commands_keep P cs Hc s Hs) as Hcs. destruct (exec_commands cs s) as [r s']. by eapply Hsame.
Qed.







(** C33. What [pg_plan_execute] does with the text of a plan, in any session. When SPI connects and prepares the dummy query, it
    executes exactly the given plan in place of the dummy query, returns its rows (or
    NULL when it is not a SELECT or has none), closes its SPI connection and
    leaves no hook behind. When connecting or preparing fails, it returns NULL or raises an error with the
    injection hook still installed: after the transaction the plan is handed to whatever query is planned
    next, and only then the hook is gone. A text that is not a plan is refused without a trace. *)
Theorem pg_plan_execute_correct text s p :
  stringToNode text = Some (Some p) →
  let ready := spi_connects (spi_calls s) = true ∧ spi_prepares (S (spi_calls s)) = Prepared in
  (is_PlannedStmt p = true → ready → ∀ ret proc rows, execute p = ExecDone ret proc rows →
     pg_plan_execute true text s =
       (Some (if decide (ret ≠ SPI_OK_SELECT ∨ proc = 0) then None else take (Z.to_nat proc) <$> rows),
        injected NoHook s p (spi_depth s) 2)) ∧
  (is_PlannedStmt p = true → ¬ ready →
     ((pg_plan_execute true text s).1 = None ∨ (pg_plan_execute true text s).1 = Some None) ∧
     ∀ q, let '(r, s') := planner q (run_action (Transaction [Execute true text]) s) in r = Some p ∧ planner_hook s' = NoHook) ∧
  (is_PlannedStmt p = false → pg_plan_execute true text s = (None, s)).
Proof.
  intros Ht ready. simpl. unfold discard. pg_run. rewrite pg_plan_execute_eq, Ht. split; [|split].
  - intros -> [-> ->] ret proc rows ->. done.
  - intros -> Hready. simpl. destruct (spi_connects _) eqn:Hc; [|split; [by left|done]].
    destruct (spi_prepares _) eqn:Hp; [by destruct Hready|split; [by right|done]|split; [by left|done]].
  - by intros ->.
Qed.

(** Without the caching hook the cache table stays as it is. *)
Definition no_cache (rows : option (list cache_row)) (s : session) : Prop := planner_hook s ≠ CachePlanner ∧ plan_cache s = rows.

Lemma exec_command_no_cache rows c s : no_cache rows s → no_cache rows (exec_command c s).2.
Proof.
  apply exec_command_keep; [|done|intros m t Hs|intros t Hs].
  - intros q s0 [Hh Hc]. unfold planner. pg_run. destruct (planner_hook s0) eqn:E; [split; [simpl; congruence|done]|done|by split].
  - rewrite pg_plan_execute_eq. destruct (stringToNode t) as [[p|]|]; [|done..]. destruct (m && is_PlannedStmt p); [|done]. destruct Hs as [_ Hc].
    destruct (spi_connects _); [destruct (spi_prepares _); [destruct (execute p)|..]|]; by split.
  - rewrite pg_plan_execute_print_eq. destruct (stringToNode t) as [[p|]|]; [|done..]. destruct Hs as [_ Hc].
    simpl. destruct (if decide _ then _ else _); [destruct (execute p)|..]; by split.
Qed.

Lemma run_action_no_cache rows a s : no_cache rows s → no_cache rows (run_action a s).
Proof.
  intros Hs. destruct a as [cs|b]; [|done]. simpl.
  pose proof (exec_commands_keep (no_cache rows) cs (exec_command_no_cache rows) s Hs) as Hcs.
  destruct (exec_commands cs s) as [r s']. destruct Hcs, Hs. split; [done|]. simpl. by case_bool_decide.
Qed.

(** A session without hook keeps none, if SPI works. *)
Lemma run_action_NoHook a s : spi_reliable → planner_hook s = NoHook → planner_hook (run_action a s) = NoHook.
Proof.
  intros Hr. apply (run_action_keep (λ s, planner_hook s = NoHook)); [|congruence]. intros c s0.
  apply (exec_command_keep (λ s, planner_hook s = NoHook)); [|done|intros m t Hh|intros t Hh].
  - intros q s1 Hh. unfold planner. pg_run. by rewrite Hh.
  - rewrite pg_plan_execute_eq. destruct (stringToNode t) as [[p|]|]; [|done..]. destruct (m && is_PlannedStmt p); [|done].
    rewrite (proj1 (Hr _)), (proj2 (Hr _)). by destruct (execute p).
  - rewrite pg_plan_execute_print_eq. destruct (stringToNode t) as [[p|]|]; [|done..]. rewrite (proj1 (Hr _)), (proj2 (Hr _)). by destruct (execute p).
Qed.

(** C34. Once a plan has been injected, the plan cache is out of the session for
    good: after a transaction with [pg_plan_execute] of a plan, no sequence of transactions and settings (enabling
    the cache included) brings the caching hook back or changes the cache
    table, although the comment in the code speaks of reactivating the planner. As long as SPI works there is then
    no hook at all. *)
Theorem cache_lost_after_injection text p acts s :
  stringToNode text = Some (Some p) → is_PlannedStmt p = true →
  let s' := foldl (λ s a, run_action a s) (run_action (Transaction [Execute true text]) s) acts in
  planner_hook s' ≠ CachePlanner ∧ plan_cache s' = plan_cache s ∧ (spi_reliable → planner_hook s' = NoHook).
Proof.
  intros Ht Hp. set (s1 := run_action _ s).
  assert (no_cache (plan_cache s) s1 ∧ (spi_reliable → planner_hook s1 = NoHook)) as [H1 H2].
  { unfold s1. simpl. unfold discard. pg_run. rewrite pg_plan_execute_eq, Ht, Hp. simpl. unfold no_cache, spi_reliable.
    destruct (spi_connects _) eqn:Hc; [destruct (spi_prepares _) eqn:Hpr; [destruct (execute p)|..]|]; simpl; (split; [done|]);
      intros Hr; try done; destruct (Hr (spi_calls s)) as [? _], (Hr (S (spi_calls s))) as [_ ?]; congruence. }
  clearbody s1. revert s1 H1 H2. induction acts as [|a acts IH]; intros s1 H1 H2; simpl.
  - by destruct H1.
  - apply IH; [by apply run_action_no_cache|]. intros Hr. by apply run_action_NoHook; [|apply H2].
Qed.

(** The cached row of a query. *)
Definition fresh_row (s : session) (q : query) (p : node) : cache_row :=
  CacheRow (query_id s q) (plan_hash (nodeToString p)) (nodeToString p) false.

(** The identifier of a query depends on [hash_hook] only. *)
Ltac same_query_id s q :=
  repeat match goal with |- context [query_id (Session ?p ?a ?b ?c ?d ?e ?f ?g ?h) q] =>
    change (query_id (Session p a b c d e f g h) q) with (query_id s q) end.

(** A cache miss plans the query with the standard planner, adds exactly
    one unforced row for it and keeps the hook and the SPI depth; planning the
    same query again finds that row and changes nothing but the number of calls. *)
Theorem cache_miss_then_hit s q p rows :
  spi_reliable → planner_hook s = CachePlanner → myPlan s = None → pg_cuckoo_cache_enabled s = true →
  plan_cache s = Some rows → filter (λ r, row_query r = query_id s q) rows = [] →
  standard_planner q = Some p →
  let s' n := Session _ CachePlanner None true (Some (rows ++ [fresh_row s q p])) (spi_depth s) (hash_hook s) (saved_cache s) (n + spi_calls s) in
  planner q s = (Some p, s' 2%nat) ∧ planner q (s' 2%nat) = (Some p, s' 3%nat).
Proof.
  intros Hr Hh Hm He Hc Hf Hp s'.
  unfold planner, cache_planner, SPI_connect_checked, SPI_connect, SPI_finish, select_cached, insert_cached, count_call. pg_run.
  rewrite Hh, Hm, He. simpl. rewrite !(proj1 (Hr _)). simpl. rewrite Hc. simpl. same_query_id s q. rewrite Hf. simpl.
  rewrite Hp. simpl. rewrite !(proj1 (Hr _)). simpl. split.
  - unfold s'. by rewrite Hm, He.
  - change (query_id (s' 2%nat) q) with (query_id s q). rewrite filter_app, Hf. simpl. rewrite filter_cons_True by done. simpl. done.
Qed.

(** When the cache table is missing, the query fails and the error leaves
    the hook cleared: from then on the session no longer caches. *)
Theorem missing_table_drops_hook s q :
  spi_reliable → planner_hook s = CachePlanner → myPlan s = None → pg_cuckoo_cache_enabled s = true → plan_cache s = None →
  (planner q s).1 = None ∧ planner_hook (run_action (Transaction [RunQuery q]) s) = NoHook.
Proof.
  intros Hr Hh Hm He Hc. simpl. unfold discard, planner, cache_planner, SPI_connect_checked, SPI_connect, select_cached, count_call. pg_run.
  rewrite Hh, Hm, He. simpl. rewrite (proj1 (Hr _)). simpl. by rewrite Hc.
Qed.
End Extension.

(** ** A small server for the witnesses

    A query is its text; the text of a plan starts with a brace, any other
    non-empty text is a node that is not a plan. *)
Definition toy_node (t : string) : option (option (bool * string)) :=
  match t with
  | EmptyString => None
  | String c _ => Some (Some (bool_decide (c = Ascii.ascii_of_nat 123), t))
  end.

Definition toy_server : Postgres := {|
  raw_stmt := string; query := string; node := bool * string;
  raw_parser := λ t, Some [t];
  analyze_and_rewrite := λ t, Some [t];
  source_text := λ t, t;
  utility_plan := λ _, None;
  target_exprs := λ t, [Some (false, t)];
  standard_planner := λ t, Some (true, "{STD}" +:+ t);
  stringToNode := toy_node;
  nodeToString := snd;
  pretty_format_node_dump := λ t, t;
  is_PlannedStmt := fst;
  hash_any := λ t, Z.of_nat (String.length t);
  plan_hash := λ t, Z.of_nat (String.length t);
  execute := λ n, if n.1 then ExecDone SPI_OK_SELECT 1 (Some [n.2]) else ExecError;
  explain := λ n _, Some n.2;
  spi_connects := λ _, true;
  spi_prepares := λ _, Prepared;
  select_1 := "select 1" |}.

Lemma toy_reliable : spi_reliable (H := toy_server).
Proof. done. Qed.

Definition toy_session : session (H := toy_server) :=
  Session toy_server CachePlanner None false (Some []) 0 true None 0.



Lemma pg_plan_execute_correct_witness :
  stringToNode (Postgres := toy_server) "{P}" = Some (Some (true, "{P}")) ∧
  pg_plan_execute (H := toy_server) true "{P}" toy_session =
    (Some (Some ["{P}"]), injected (H := toy_server) NoHook toy_session (true, "{P}") 0 2).
Proof.
  split; [reflexivity|].
  exact (proj1 (pg_plan_execute_correct (H := toy_server) "{P}" toy_session (true, "{P}") eq_refl) eq_refl (conj eq_refl eq_refl)
    SPI_OK_SELECT 1 (Some ["{P}"]) eq_refl).
Defined.

(** The same server, on which no statement can be prepared: the next query gets the injected plan. *)
Definition broken_server : Postgres := {|
  raw_stmt := string; query := string; node := bool * string;
  raw_parser := λ t, Some [t];
  analyze_and_rewrite := λ t, Some [t];
  source_text := λ t, t;
  utility_plan := λ _, None;
  target_exprs := λ t, [Some (false, t)];
  standard_planner := λ t, Some (true, "{STD}" +:+ t);
  stringToNode := toy_node;
  nodeToString := snd;
  pretty_format_node_dump := λ t, t;
  is_PlannedStmt := fst;
  hash_any := λ t, Z.of_nat (String.length t);
  plan_hash := λ t, Z.of_nat (String.length t);
  execute := λ n, if n.1 then ExecDone SPI_OK_SELECT 1 (Some [n.2]) else ExecError;
  explain := λ n _, Some n.2;
  spi_connects := λ _, true;
  spi_prepares := λ _, NotPrepared;
  select_1 := "select 1" |}.

Example plan_handed_to_next_query :
  let s := Session broken_server CachePlanner None false (Some []) 0 true None 0 in
  (planner (H := broken_server) "q" (run_action (H := broken_server) (Transaction [Execute (H := broken_server) true "{P}"]) s)).1 = Some (true, "{P}").
Proof. reflexivity. Qed.

Lemma cache_lost_after_injection_witness :
  let s' := foldl (λ s a, run_action (H := toy_server) a s)
              (run_action (H := toy_server) (Transaction [Execute (H := toy_server) true "{P}"]) toy_session)
              [SetCache (H := toy_server) true; Transaction [RunQuery (H := toy_server) "q"]] in
  planner_hook s' ≠ CachePlanner ∧ plan_cache s' = plan_cache toy_session ∧ (spi_reliable (H := toy_server) → planner_hook s' = NoHook).
Proof.
  apply (cache_lost_after_injection (H := toy_server) "{P}" (true, "{P}")
           [SetCache (H := toy_server) true; Transaction [RunQuery (H := toy_server) "q"]] toy_session); reflexivity.
Defined.

Definition caching_session (n : nat) : session (H := toy_server) :=
  Session toy_server CachePlanner None true (Some []) 0 true None n.

Lemma cache_miss_then_hit_witness :
  let s' n := Session toy_server CachePlanner None true
              (Some ([] ++ [fresh_row (H := toy_server) (caching_session 0) "q" (true, "{STD}q")])) 0 true None (n + 0) in
  planner (H := toy_server) "q" (caching_session 0) = (Some (true, "{STD}q"), s' 2%nat) ∧
  planner (H := toy_server) "q" (s' 2%nat) = (Some (true, "{STD}q"), s' 3%nat).
Proof.
  apply (cache_miss_then_hit (H := toy_server) (caching_session 0) "q" (true, "{STD}q") [] toy_reliable); reflexivity.
Defined.

Lemma missing_table_drops_hook_witness :
  let s := Session toy_server CachePlanner None true None 0 true None 0 in
  (planner (H := toy_server) "q" s).1 = None ∧
  planner_hook (run_action (H := toy_server) (Transaction [RunQuery (H := toy_server) "q"]) s) = NoHook.
Proof.
  apply (missing_table_drops_hook (H := toy_server) (Session toy_server CachePlanner None true None 0 true None 0) "q" toy_reliable); reflexivity.
Defined.

(** [pg_plan_execute_print] has no such check: it hands any node to the
    executor as a plan. *)
Example execute_print_unchecked :
  (pg_plan_execute_print (H := toy_server) "not a plan" toy_session).2
  = injected (H := toy_server) NoHook toy_session (false, "not a plan") 1 2.
Proof. reflexivity. Qed.

(** [pg_cuckoo_enable_cache] holds until the end of its transaction only. *)
Example enable_cache_undone :
  pg_cuckoo_cache_enabled (run_action (H := toy_server) (Transaction [EnableCache (H := toy_server)]) toy_session) = false.
Proof. reflexivity. Qed.
