(* ===== verification/Planfuzzer.v ===== *)
(** * Planfuzzer: the executor-only extension, src/dbextension/planfuzzer.c

    The extension the fuzzing harness loads: one SQL function that runs a
    serialised plan through the planner hook.  It has its own copies of
    [format_node] and [injection_planner] and no plan cache. *)

From S2P Require Import Prelude Cuckoo.

Module Planfuzzer.
Section Planfuzzer.
Context `{Postgres}.

Definition PG_init : PG unit := mret tt.

Definition format_node (n : option node) (pretty : bool) : PG string :=
  match n with
  | None => raise
  | Some n => let out := nodeToString n in
              mret (if pretty then pretty_format_node_dump out else out)
  end.

Definition injection_planner (q : query) : PG node :=
  _ ← set_planner_hook NoHook;
  s ← get_session;
  lift_opt (myPlan s).

(** [planner()] with the hook of this extension, or none, installed. *)
Definition planner (q : query) : PG node :=
  s ← get_session;
  match planner_hook s with
  | InjectionPlanner => injection_planner q
  | _ => lift_opt (standard_planner q)
  end.

Definition SPI_execute_plan (res : bool) : PG (Z * Z * option (list string)) :=
  if negb res then mret (SPI_ERROR_ARGUMENT, 0, None) else
  p ← planner select_1;
  match execute p with
  | ExecError => raise
  | ExecDone ret processed rows => mret (ret, processed, rows)
  end.

(** The results of [SPI_connect] and [SPI_execute_plan] are not looked at. *)
Definition pg_plan_execute (nodeText : string) : PG string :=
  result ← lift_opt (stringToNode nodeText);
  outputstr ← format_node result false;
  ok ← isa_PlannedStmt result;
  if negb ok then raise else
  _ ← set_myPlan result;
  _ ← set_planner_hook InjectionPlanner;
  _ ← SPI_connect;
  res ← SPI_prepare;
  _ ← SPI_execute_plan res;
  _ ← SPI_finish;
  _ ← set_planner_hook NoHook;
  mret outputstr.

(** What a client does in this extension's session; a transaction ends at the first error. *)
Inductive call := RunQuery (q : query) | Execute (text : string).

Definition exec_call (c : call) : PG unit :=
  match c with
  | RunQuery q => discard (planner q)
  | Execute t => discard (pg_plan_execute t)
  end.

Fixpoint exec_calls (cs : list call) : PG unit :=
  match cs with
  | [] => mret tt
  | c :: cs => _ ← exec_call c; exec_calls cs
  end.

Definition run_transaction (s : session) (cs : list call) : session :=
  let '(r, s') := exec_calls cs s in end_transaction (bool_decide (is_Some r)) s s'.

(** The effect of a call that reaches the executor, and of those that do not. *)
Lemma planfuzzer_execute_eq text s :
  pg_plan_execute text s =
  match stringToNode text with
  | Some (Some p) =>
      if is_PlannedStmt p then
        let d := if spi_connects (spi_calls s) then S (spi_depth s) else spi_depth s in
        match (if decide (d = 0%nat) then NotPrepared else spi_prepares (S (spi_calls s))) with
        | Prepared =>
            match execute p with
            | ExecError => (None, injected NoHook s p d 2)
            | ExecDone _ _ _ => (Some (nodeToString p), injected NoHook s p (pred d) 2)
            end
        | NotPrepared => (Some (nodeToString p), injected NoHook s p (pred d) 2)
        | PrepareError => (None, injected InjectionPlanner s p d 2)
        end
      else (None, s)
  | _ => (None, s)
  end.
Proof.
  unfold pg_plan_execute, isa_PlannedStmt. pg_run. destruct (stringToNode text) as [[p|]|]; simpl; [|done|done].
  destruct (is_PlannedStmt p); simpl; [|done].
  unfold SPI_connect, SPI_prepare, SPI_finish, SPI_execute_plan, planner, injection_planner, count_call. pg_run.
  destruct (spi_connects _); simpl; [destruct (spi_prepares _)|destruct (decide (spi_depth s = 0%nat)); [done|destruct (spi_prepares _)]]; simpl; try done;
    by destruct (execute p).
Qed.

Section Hook.
Hypothesis no_prepare_error : ∀ n, spi_prepares n ≠ PrepareError.


End Hook.


(** An error while the dummy query is prepared leaves the plan to the next query. *)
Lemma prepare_error_hands_plan_over text p s q :
  stringToNode text = Some (Some p) → is_PlannedStmt p = true → spi_connects (spi_calls s) = true →
  spi_prepares (S (spi_calls s)) = PrepareError →
  (planner q (run_transaction s [Execute text])).1 = Some p.
Proof.
  intros Ht Hp Hc He. unfold run_transaction. simpl. unfold discard. pg_run. rewrite planfuzzer_execute_eq, Ht, Hp, Hc, He. done.
Qed.
End Planfuzzer.


(** On a server that works, a plan is executed and its text returned. *)
Example planfuzzer_executes :
  (pg_plan_execute (H := toy_server) "{P}" (Session toy_server NoHook None false None 0 false None 0)).1 = Some "{P}".
Proof. reflexivity. Qed.
End Planfuzzer.
