(* ===== verification/AflBitmap.v ===== *)
(** * AflBitmap: the coverage maps of AFL++, AFLplusplus/src/afl-fuzz-bitmap.c and
    include/coverage-64.h (64-bit build, portable [skim])

    A map is a list of 64-bit words; the byte and 32-bit views of the source are
    the little-endian parts of a word. *)

From S2P Require Import Prelude.

(** ** Views *)

(** Byte [k] of the word, [((u8 * )&w)[k]]. *)
Definition byte (w k : Z) : Z := Z.land (Z.shiftr w (8 * k)) 255.

(** The [u32] view of a map. *)
Definition dwords (m : list Z) : list Z := flat_map (λ w, [w mod 2 ^ 32; w / 2 ^ 32]) m.

(** The byte view. *)
Definition bytes (m : list Z) : list Z := flat_map (λ w, map (byte w) [0; 1; 2; 3; 4; 5; 6; 7]) m.

(** ** Counting *)

(** [(real_map_size + 3) >> 2] words of 32 bits. *)
Definition dword_count (real_map_size : Z) : Z := Z.shiftr (u32 (real_map_size + 3)) 2.

(** The population count of [count_bits] on one word. *)
Definition count_word (v : Z) : Z :=
  if decide (v = 0xffffffff) then 32 else
  let v := u32 (v - Z.land (Z.shiftr v 1) 0x55555555) in
  let v := u32 (Z.land v 0x33333333 + Z.land (Z.shiftr v 2) 0x33333333) in
  Z.shiftr (u32 (Z.land (u32 (v + Z.shiftr v 4)) 0xF0F0F0F * 0x01010101)) 24.

Definition count_bits (real_map_size : Z) (mem : list Z) : Z :=
  foldl (λ ret v, u32 (ret + count_word v)) 0 (take (Z.to_nat (dword_count real_map_size)) (dwords mem)).

(** The four tests of [count_bytes]. *)
Definition count_bytes_word (ret v : Z) : Z :=
  if decide (v = 0) then ret else
  let ret := if decide (Z.land v 0x000000ff ≠ 0) then u32 (ret + 1) else ret in
  let ret := if decide (Z.land v 0x0000ff00 ≠ 0) then u32 (ret + 1) else ret in
  let ret := if decide (Z.land v 0x00ff0000 ≠ 0) then u32 (ret + 1) else ret in
  if decide (Z.land v 0xff000000 ≠ 0) then u32 (ret + 1) else ret.

Definition count_bytes (real_map_size : Z) (mem : list Z) : Z :=
  foldl count_bytes_word 0 (take (Z.to_nat (dword_count real_map_size)) (dwords mem)).

(** The four tests of [count_non_255_bytes]. *)
Definition count_non_255_word (ret v : Z) : Z :=
  if decide (v = 0xffffffff) then ret else
  let ret := if decide (Z.land v 0x000000ff ≠ 0x000000ff) then u32 (ret + 1) else ret in
  let ret := if decide (Z.land v 0x0000ff00 ≠ 0x0000ff00) then u32 (ret + 1) else ret in
  let ret := if decide (Z.land v 0x00ff0000 ≠ 0x00ff0000) then u32 (ret + 1) else ret in
  if decide (Z.land v 0xff000000 ≠ 0xff000000) then u32 (ret + 1) else ret.

Definition count_non_255_bytes (real_map_size : Z) (mem : list Z) : Z :=
  foldl count_non_255_word 0 (take (Z.to_nat (dword_count real_map_size)) (dwords mem)).

(** ** Hit-count classes *)

Definition simplify_lookup (b : Z) : Z := if decide (b = 0) then 1 else 128.

Definition count_class_lookup8 (b : Z) : Z :=
  if decide (b = 0) then 0 else if decide (b = 1) then 1 else if decide (b = 2) then 2
  else if decide (b = 3) then 4 else if decide (b ≤ 7) then 8 else if decide (b ≤ 15) then 16
  else if decide (b ≤ 31) then 32 else if decide (b ≤ 127) then 64 else 128.

(** The table [init_count_class16] fills, row by row. *)
Definition init_count_class16 : list Z :=
  flat_map (λ b1, map (λ b2, Z.lor (Z.shiftl (count_class_lookup8 b1) 8) (count_class_lookup8 b2)) (seqZ 0 256))
    (seqZ 0 256).

Definition count_class_lookup16 (x : Z) : Z := default 0 (init_count_class16 !! Z.to_nat x).

(** [((u16 * )&w)[k]]. *)
Definition half (w k : Z) : Z := Z.land (Z.shiftr w (16 * k)) 65535.

Definition classify_word (w : Z) : Z :=
  Z.lor (count_class_lookup16 (half w 0))
    (Z.lor (Z.shiftl (count_class_lookup16 (half w 1)) 16)
      (Z.lor (Z.shiftl (count_class_lookup16 (half w 2)) 32)
        (Z.shiftl (count_class_lookup16 (half w 3)) 48))).

(** The word with the given eight bytes. *)
Definition of_bytes (bs : list Z) : Z := foldr (λ b acc, b + 256 * acc) 0 bs.

Definition simplify_word (w : Z) : Z :=
  if decide (w = 0) then 0x0101010101010101
  else of_bytes (map (λ k, simplify_lookup (byte w k)) [0; 1; 2; 3; 4; 5; 6; 7]).

(** [while (i--)] over the first [map_size >> 3] words. *)
Definition over_words (f : Z → Z) (map_size : Z) (mem : list Z) : list Z :=
  let n := Z.to_nat (Z.shiftr map_size 3) in map f (take n mem) ++ drop n mem.

Definition simplify_trace (map_size : Z) (mem : list Z) : list Z := over_words simplify_word map_size mem.

Definition classify_counts (map_size : Z) (mem : list Z) : list Z :=
  over_words (λ w, if decide (w = 0) then w else classify_word w) map_size mem.

(** ** New coverage *)

(** The test for a byte that is hit and still pristine. *)
Definition new_tuple (cur vir : Z) : bool :=
  existsb (λ k, negb (bool_decide (byte cur k = 0)) && bool_decide (byte vir k = 255)) [0; 1; 2; 3; 4; 5; 6; 7].

(** [discover_word(&ret, &cur, &vir)]: the new [ret] and the new virgin word. *)
Definition discover_word (ret cur vir : Z) : Z * Z :=
  if decide (Z.land cur vir = 0) then (ret, vir) else
  (if decide (ret < 2) then if new_tuple cur vir then 2 else 1 else ret,
   Z.land vir (Z.lxor cur (2 ^ 64 - 1))).

(** The loop of [has_new_bits] over [n] words. *)
Fixpoint new_bits_loop (n : nat) (ret : Z) (current virgin : list Z) : Z * list Z :=
  match n, current, virgin with
  | S n, c :: current, v :: virgin =>
      let '(ret, v') := if decide (c = 0) then (ret, v) else discover_word ret c v in
      let '(ret, virgin') := new_bits_loop n ret current virgin in
      (ret, v' :: virgin')
  | _, _, _ => (ret, virgin)
  end.

Definition qword_count (real_map_size : Z) : Z := Z.shiftr (u32 (real_map_size + 7)) 3.

(** [has_new_bits]: the result and the new virgin map. *)
Definition has_new_bits (real_map_size : Z) (trace virgin : list Z) : Z * list Z :=
  new_bits_loop (Z.to_nat (qword_count real_map_size)) 0 trace virgin.

(** [skim]: four words per round, from the start of the trace to its end. *)
Fixpoint skim (n : nat) (virgin current : list Z) : bool :=
  match n, current, virgin with
  | S n, c0 :: c1 :: c2 :: c3 :: current, v0 :: v1 :: v2 :: v3 :: virgin =>
      let hit c v := negb (bool_decide (c = 0)) && negb (bool_decide (Z.land (classify_word c) v = 0)) in
      hit c0 v0 || hit c1 v1 || hit c2 v2 || hit c3 v3 || skim n virgin current
  | _, _, _ => false
  end.

(** [has_new_bits_unclassified]: the result, the new trace and virgin maps. *)
Definition has_new_bits_unclassified (map_size real_map_size : Z) (trace virgin : list Z)
    : Z * list Z * list Z :=
  if skim (Z.to_nat ((map_size + 31) / 32)) virgin trace then
    let trace' := classify_counts map_size trace in
    let '(ret, virgin') := has_new_bits real_map_size trace' virgin in
    (ret, trace', virgin')
  else (0, trace, virgin).

(** [minimize_bits]: bit [i] of [dst] for every non-zero byte [i] of [src]. *)
Fixpoint minimize_loop (n : nat) (i : Z) (dst src : list Z) : list Z :=
  match n, src with
  | S n, b :: src =>
      let dst := if decide (b ≠ 0)
                 then alter (λ d, Z.lor d (Z.shiftl 1 (Z.land i 7))) (Z.to_nat (Z.shiftr i 3)) dst
                 else dst in
      minimize_loop n (i + 1) dst src
  | _, _ => dst
  end.

Definition minimize_bits (map_size : Z) (dst src : list Z) : list Z :=
  minimize_loop (Z.to_nat map_size) 0 dst src.

(** ** Bytes of words *)

Definition word_ok (w : Z) : Prop := 0 ≤ w < 2 ^ 64.
Definition byte_ok (b : Z) : Prop := 0 ≤ b < 256.

Lemma byte_div w k : 0 ≤ k → byte w k = (w / 2 ^ (8 * k)) mod 256.
Proof.
  intros Hk. unfold byte. rewrite Z.shiftr_div_pow2 by lia. change 255 with (Z.ones 8). by rewrite Z.land_ones.
Qed.

Lemma half_div w k : 0 ≤ k → half w k = (w / 2 ^ (16 * k)) mod 65536.
Proof.
  intros Hk. unfold half. rewrite Z.shiftr_div_pow2 by lia. change 65535 with (Z.ones 16). by rewrite Z.land_ones.
Qed.

Lemma byte_range w k : 0 ≤ k → byte_ok (byte w k).
Proof. intros. rewrite byte_div by done. apply Z.mod_pos_bound. lia. Qed.

Lemma lor_add a b n : 0 ≤ n → 0 ≤ a < 2 ^ n → Z.lor a (Z.shiftl b n) = a + b * 2 ^ n.
Proof.
  intros Hn Ha. rewrite <- (Z.shiftl_mul_pow2 b n Hn).
  assert (Z.land a (Z.shiftl b n) = 0) as Hz.
  { apply Z.bits_inj'. intros i Hi. rewrite Z.land_spec, Z.bits_0, Z.shiftl_spec by done.
    destruct (decide (i < n)) as [Hlt|Hge].
    - rewrite (Z.testbit_neg_r b) by lia. by rewrite andb_false_r.
    - destruct (decide (a = 0)) as [->|]; [by rewrite Z.bits_0|].
      assert (Z.log2 a < n) by (apply Z.log2_lt_pow2; lia). by rewrite (Z.bits_above_log2 a) by lia. }
  pose proof (Z.add_lor_land a (Z.shiftl b n)). lia.
Qed.

(** The eight bytes as integers, so that [lia] can take words apart. *)
Lemma word_split w : word_ok w →
  w = byte w 0 + 2^8 * byte w 1 + 2^16 * byte w 2 + 2^24 * byte w 3 + 2^32 * byte w 4
      + 2^40 * byte w 5 + 2^48 * byte w 6 + 2^56 * byte w 7.
Proof. intros [H1 H2]. rewrite !byte_div by lia. simpl Z.mul. Z.to_euclidean_division_equations. lia. Qed.

Lemma byte_combine b0 b1 b2 b3 b4 b5 b6 b7 w :
  byte_ok b0 → byte_ok b1 → byte_ok b2 → byte_ok b3 → byte_ok b4 → byte_ok b5 → byte_ok b6 → byte_ok b7 →
  w = b0 + 2^8 * b1 + 2^16 * b2 + 2^24 * b3 + 2^32 * b4 + 2^40 * b5 + 2^48 * b6 + 2^56 * b7 →
  map (byte w) [0; 1; 2; 3; 4; 5; 6; 7] = [b0; b1; b2; b3; b4; b5; b6; b7].
Proof.
  unfold byte_ok. intros ? ? ? ? ? ? ? ? ->. simpl map. rewrite !byte_div by lia. simpl Z.mul.
  repeat f_equal; Z.to_euclidean_division_equations; lia.
Qed.

(** ** Classification is bytewise *)

Lemma flat_map_lookup {A B C} (f : A → B → C) cols : ∀ rs i j a b,
  rs !! i = Some a → cols !! j = Some b →
  flat_map (λ a, map (f a) cols) rs !! (i * length cols + j)%nat = Some (f a b).
Proof.
  induction rs as [|r rs IH]; intros i j a b Hi Hj; [done|]. apply lookup_lt_Some in Hj as Hlt.
  destruct i as [|i]; simpl in *.
  - simplify_eq. rewrite lookup_app_l by (by rewrite length_map). by rewrite list_lookup_fmap, Hj.
  - rewrite lookup_app_r by (rewrite length_map; lia). rewrite length_map.
    replace (length cols + i * length cols + j - length cols)%nat with (i * length cols + j)%nat by lia. by apply IH.
Qed.

Lemma lookup8_range b : 0 ≤ count_class_lookup8 b ≤ 128.
Proof. unfold count_class_lookup8. repeat case_decide; lia. Qed.

Lemma lookup16_spec x : 0 ≤ x < 65536 →
  count_class_lookup16 x = count_class_lookup8 (x mod 256) + 256 * count_class_lookup8 (x / 256).
Proof.
  intros Hx. unfold count_class_lookup16, init_count_class16.
  assert (0 ≤ x / 256 < 256) by (Z.to_euclidean_division_equations; lia).
  assert (0 ≤ x mod 256 < 256) by (apply Z.mod_pos_bound; lia).
  replace (Z.to_nat x) with (Z.to_nat (x / 256) * length (seqZ 0 256) + Z.to_nat (x mod 256))%nat
    by (rewrite length_seqZ; Z.to_euclidean_division_equations; lia).
  rewrite (flat_map_lookup _ _ _ _ _ (x / 256) (x mod 256)).
  - simpl. pose proof (lookup8_range (x mod 256)). rewrite Z.lor_comm, lor_add; lia.
  - rewrite lookup_seqZ. lia.
  - rewrite lookup_seqZ. lia.
Qed.

Lemma half_bytes w k : 0 ≤ k → half w k = byte w (2 * k) + 256 * byte w (2 * k + 1).
Proof.
  intros Hk. rewrite half_div, !byte_div by lia.
  replace (8 * (2 * k)) with (16 * k) by lia. replace (8 * (2 * k + 1)) with (16 * k + 8) by lia.
  rewrite Z.pow_add_r by lia. rewrite <- Z.div_div by lia. generalize (w / 2 ^ (16 * k)) as y. intros y.
  change (2 ^ 8) with 256. Z.to_euclidean_division_equations. lia.
Qed.

Lemma classify_half w k : 0 ≤ k →
  count_class_lookup16 (half w k) = count_class_lookup8 (byte w (2 * k)) + 256 * count_class_lookup8 (byte w (2 * k + 1)).
Proof.
  intros Hk. pose proof (byte_range w (2 * k) ltac:(lia)) as H1. pose proof (byte_range w (2 * k + 1) ltac:(lia)) as H2.
  unfold byte_ok in *. rewrite lookup16_spec by (rewrite half_div by done; apply Z.mod_pos_bound; lia).
  rewrite half_bytes by done. f_equal; [|f_equal]; f_equal; Z.to_euclidean_division_equations; lia.
Qed.

Lemma lor_shifts a b n : 0 ≤ n → 0 ≤ a < 2 ^ 16 →
  Z.lor (Z.shiftl a n) (Z.shiftl b (n + 16)) = Z.shiftl (a + b * 2 ^ 16) n.
Proof.
  intros Hn Ha. rewrite Z.add_comm, <- Z.shiftl_shiftl, <- Z.shiftl_lor by lia. by rewrite lor_add by lia.
Qed.

Lemma classify_word_sum w :
  let c k := count_class_lookup8 (byte w k) in
  classify_word w = c 0 + 2^8 * c 1 + 2^16 * c 2 + 2^24 * c 3 + 2^32 * c 4 + 2^40 * c 5 + 2^48 * c 6 + 2^56 * c 7.
Proof.
  intros c. unfold classify_word. rewrite !classify_half by lia.
  change (2 * 0 + 1) with 1. change (2 * 1 + 1) with 3. change (2 * 2 + 1) with 5. change (2 * 3 + 1) with 7.
  change (2 * 0) with 0. change (2 * 1) with 2. change (2 * 2) with 4. change (2 * 3) with 6.
  pose proof (lookup8_range (byte w 0)). pose proof (lookup8_range (byte w 1)). pose proof (lookup8_range (byte w 2)).
  pose proof (lookup8_range (byte w 3)). pose proof (lookup8_range (byte w 4)). pose proof (lookup8_range (byte w 5)).
  fold (c 0) (c 1) (c 2) (c 3) (c 4) (c 5) (c 6) (c 7) in *.
  rewrite (lor_shifts (c 4 + 256 * c 5) _ 32), (lor_shifts (c 2 + 256 * c 3) _ 16), lor_add by lia. lia.
Qed.

(** The class of every byte, in place. *)
Lemma classify_word_bytes w :
  map (byte (classify_word w)) [0; 1; 2; 3; 4; 5; 6; 7] =
  map (λ k, count_class_lookup8 (byte w k)) [0; 1; 2; 3; 4; 5; 6; 7].
Proof.
  assert (∀ k, byte_ok (count_class_lookup8 (byte w k))) as Hok.
  { intros k. pose proof (lookup8_range (byte w k)). unfold byte_ok. lia. }
  etrans; [eapply byte_combine; try apply Hok; apply classify_word_sum|done].
Qed.

Lemma classify_word_ok w : word_ok (classify_word w).
Proof.
  rewrite classify_word_sum.
  pose proof (lookup8_range (byte w 0)). pose proof (lookup8_range (byte w 1)). pose proof (lookup8_range (byte w 2)).
  pose proof (lookup8_range (byte w 3)). pose proof (lookup8_range (byte w 4)). pose proof (lookup8_range (byte w 5)).
  pose proof (lookup8_range (byte w 6)). pose proof (lookup8_range (byte w 7)). unfold word_ok. lia.
Qed.

Lemma classify_word_0 : classify_word 0 = 0.
Proof. rewrite classify_word_sum. reflexivity. Qed.

(** [classify_counts] replaces every hit count in the words of the map by
    its class and leaves the rest of the memory alone. *)
Theorem classify_counts_bytewise map_size mem :
  let n := Z.to_nat (Z.shiftr map_size 3) in
  bytes (classify_counts map_size mem) =
  map count_class_lookup8 (bytes (take n mem)) ++ bytes (drop n mem).
Proof.
  intros n. unfold classify_counts, over_words, bytes. fold n. rewrite flat_map_app. f_equal.
  pose proof classify_word_bytes as Hc. revert Hc. set (ks := [0; 1; 2; 3; 4; 5; 6; 7]). clearbody ks. intros Hc.
  induction (take n mem) as [|w l IH]; [done|]. cbn [map flat_map]. rewrite IH, map_app. f_equal.
  assert ((if decide (w = 0) then w else classify_word w) = classify_word w) as ->.
  { case_decide as Hz; [|done]. subst. by rewrite classify_word_0. }
  rewrite Hc. by rewrite map_map.
Qed.

(** ** New coverage *)

(** The virgin word without the bits of [c]. *)
Definition clear (c v : Z) : Z := Z.land v (Z.lxor c (2 ^ 64 - 1)).

Lemma clear_bits c v i : word_ok v → 0 ≤ i → Z.testbit (clear c v) i = Z.testbit v i && negb (Z.testbit c i).
Proof.
  intros Hv Hi. unfold clear. rewrite Z.land_spec, Z.lxor_spec. change (2 ^ 64 - 1) with (Z.ones 64).
  destruct (decide (i < 64)); [rewrite Z.ones_spec_low by lia; by destruct (Z.testbit v i), (Z.testbit c i)|].
  assert (Z.testbit v i = false) as ->; [|done]. destruct (decide (v = 0)) as [->|]; [apply Z.bits_0|].
  apply Z.bits_above_log2; [apply Hv|]. assert (Z.log2 v < 64) by (apply Z.log2_lt_pow2; unfold word_ok in Hv; lia). lia.
Qed.

Lemma clear_no_hit c v : word_ok v → Z.land c v = 0 → clear c v = v.
Proof.
  intros Hv Hl. apply Z.bits_inj'. intros i Hi. rewrite clear_bits by done.
  assert (Z.testbit (Z.land c v) i = false) as Hb by (rewrite Hl; apply Z.bits_0). rewrite Z.land_spec in Hb.
  by destruct (Z.testbit v i), (Z.testbit c i).
Qed.

Lemma clear_again c v : word_ok v → Z.land c (clear c v) = 0.
Proof.
  intros Hv. apply Z.bits_inj'. intros i Hi. rewrite Z.land_spec, clear_bits, Z.bits_0 by done.
  by destruct (Z.testbit v i), (Z.testbit c i).
Qed.

Lemma byte_land c v k : byte (Z.land c v) k = Z.land (byte c k) (byte v k).
Proof.
  unfold byte. rewrite Z.shiftr_land. apply Z.bits_inj'. intros i Hi. rewrite !Z.land_spec.
  by destruct (Z.testbit (Z.shiftr c (8 * k)) i), (Z.testbit (Z.shiftr v (8 * k)) i), (Z.testbit 255 i).
Qed.

Lemma new_tuple_spec c v :
  new_tuple c v = true ↔ ∃ k, 0 ≤ k < 8 ∧ byte c k ≠ 0 ∧ byte v k = 255.
Proof.
  unfold new_tuple. rewrite existsb_exists. split.
  - intros (k & Hk & Hb). exists k. apply andb_true_iff in Hb as [H1%negb_true_iff H2].
    apply bool_decide_eq_false in H1. apply bool_decide_eq_true in H2. split; [|done]. simpl in Hk. lia.
  - intros (k & Hk & H1 & H2). exists k. rewrite bool_decide_eq_false_2, bool_decide_eq_true_2 by done.
    split; [|done]. simpl. lia.
Qed.

Lemma new_tuple_hit c v : new_tuple c v = true → Z.land c v ≠ 0.
Proof.
  rewrite new_tuple_spec. intros (k & Hk & H1 & H2) Hl. apply H1.
  assert (byte (Z.land c v) k = 0) as Hb by (rewrite Hl; by destruct Hk; unfold byte; rewrite Z.shiftr_0_l).
  rewrite byte_land, H2 in Hb. pose proof (byte_range c k ltac:(lia)) as Hr. unfold byte_ok in Hr.
  change 255 with (Z.ones 8) in Hb. rewrite Z.land_ones in Hb by lia. change (2 ^ 8) with 256 in Hb.
  by rewrite Z.mod_small in Hb.
Qed.

(** What one word contributes to the answer. *)
Definition verdict (c v : Z) : Z :=
  if decide (Z.land c v = 0) then 0 else if new_tuple c v then 2 else 1.

Definition verdicts (cs vs : list Z) : Z := foldr Z.max 0 (zip_with verdict cs vs).

Lemma verdict_range c v : 0 ≤ verdict c v ≤ 2.
Proof. unfold verdict. case_decide; [lia|]. destruct (new_tuple c v); lia. Qed.

Lemma verdicts_range cs vs : 0 ≤ verdicts cs vs ≤ 2.
Proof.
  unfold verdicts. revert vs. induction cs as [|c cs IH]; intros [|v vs]; simpl; try lia.
  pose proof (verdict_range c v). specialize (IH vs). lia.
Qed.

Lemma discover_word_eq ret c v : 0 ≤ ret ≤ 2 → word_ok v →
  (if decide (c = 0) then (ret, v) else discover_word ret c v) = (Z.max ret (verdict c v), clear c v).
Proof.
  intros Hr Hv. unfold discover_word, verdict. case_decide as Hc.
  - subst c. rewrite Z.land_0_l. simpl. rewrite clear_no_hit; [|done|apply Z.land_0_l]. f_equal. lia.
  - case_decide as Hl; [rewrite clear_no_hit by done; f_equal; lia|]. unfold clear. f_equal.
    destruct (new_tuple c v); case_decide; lia.
Qed.

Lemma new_bits_loop_eq n : ∀ ret cs vs,
  (n ≤ length cs)%nat → (n ≤ length vs)%nat → Forall word_ok vs → 0 ≤ ret ≤ 2 →
  new_bits_loop n ret cs vs =
  (Z.max ret (verdicts (take n cs) (take n vs)), zip_with clear (take n cs) (take n vs) ++ drop n vs).
Proof.
  induction n as [|n IH]; intros ret cs vs Hc Hv Hok Hr.
  { simpl. unfold verdicts. simpl. rewrite drop_0. f_equal. lia. }
  destruct cs as [|c cs]; [simpl in Hc; lia|]. destruct vs as [|v vs]; [simpl in Hv; lia|].
  apply Forall_cons in Hok as [Hok1 Hok]. cbn [new_bits_loop]. rewrite discover_word_eq by done.
  pose proof (verdict_range c v). simpl in Hc, Hv. rewrite IH by (done || lia).
  unfold verdicts. simpl. f_equal. lia.
Qed.

Lemma verdicts_2 cs vs : verdicts cs vs = 2 ↔
  ∃ i c v, cs !! i = Some c ∧ vs !! i = Some v ∧ new_tuple c v = true.
Proof.
  unfold verdicts. revert vs. induction cs as [|c cs IH]; intros [|v vs]; simpl.
  1,2,3: split; [lia|]; intros (i & ? & ? & H1 & H2 & _); by rewrite ?lookup_nil in *.
  pose proof (verdict_range c v). pose proof (verdicts_range cs vs) as Hr. unfold verdicts in Hr. split.
  - intros Hm. destruct (decide (verdict c v = 2)) as [Hv|Hv].
    + exists 0%nat, c, v. unfold verdict in Hv. case_decide; [lia|]. by destruct (new_tuple c v).
    + destruct (proj1 (IH vs)) as (i & c' & v' & ?); [lia|]. by exists (S i), c', v'.
  - intros ([|i] & c' & v' & H1 & H2 & H3); simpl in *.
    + simplify_eq. assert (verdict c' v' = 2); [|lia]. unfold verdict.
      rewrite decide_False by (by apply new_tuple_hit). by rewrite H3.
    + assert (foldr Z.max 0 (zip_with verdict cs vs) = 2); [|lia]. apply IH. by exists i, c', v'.
Qed.

Lemma verdicts_0 cs vs : verdicts cs vs = 0 ↔
  ∀ i c v, cs !! i = Some c → vs !! i = Some v → Z.land c v = 0.
Proof.
  unfold verdicts. revert vs. induction cs as [|c cs IH]; intros [|v vs]; simpl.
  1,2,3: split; [|done]; intros _ i ? ? H1 H2; by rewrite ?lookup_nil in *.
  pose proof (verdict_range c v). pose proof (verdicts_range cs vs) as Hr. unfold verdicts in Hr. split.
  - intros Hm [|i] c' v' H1 H2; simpl in *.
    + simplify_eq. assert (verdict c' v' = 0) as Hv by lia. unfold verdict in Hv. case_decide; [done|].
      by destruct (new_tuple c' v').
    + eapply (proj1 (IH vs)); [lia|done|done].
  - intros Hall. assert (verdict c v = 0). { unfold verdict. by rewrite decide_True by (by apply (Hall 0%nat)). }
    assert (foldr Z.max 0 (zip_with verdict cs vs) = 0); [|lia]. apply IH. intros i c' v' H1 H2. by apply (Hall (S i)).
Qed.

Lemma clear_word_ok c v : word_ok v → word_ok (clear c v).
Proof.
  intros Hv. unfold word_ok, clear in *. split; [apply Z.land_nonneg; left; lia|].
  pose proof (Z.add_lor_land (clear c v) (Z.land v c)) as Hs.
  assert (Z.lor (clear c v) (Z.land v c) = v) as E1.
  { apply Z.bits_inj'. intros i Hi. rewrite Z.lor_spec, clear_bits, Z.land_spec by done.
    by destruct (Z.testbit v i), (Z.testbit c i). }
  assert (Z.land (clear c v) (Z.land v c) = 0) as E2.
  { apply Z.bits_inj'. intros i Hi. rewrite Z.land_spec, clear_bits, Z.land_spec, Z.bits_0 by done.
    by destruct (Z.testbit v i), (Z.testbit c i). }
  assert (0 ≤ Z.land v c) by (apply Z.land_nonneg; left; lia). unfold clear in *. lia.
Qed.

Lemma clear_zip_idem cs : ∀ vs, Forall word_ok vs →
  zip_with clear cs (zip_with clear cs vs) = zip_with clear cs vs ∧ Forall word_ok (zip_with clear cs vs) ∧
  verdicts cs (zip_with clear cs vs) = 0.
Proof.
  unfold verdicts. induction cs as [|c cs IH]; intros [|v vs] Hok; simpl; try done.
  apply Forall_cons in Hok as [Hv Hok]. destruct (IH vs Hok) as (-> & Hf & ->).
  pose proof (clear_again c v Hv) as Hz. pose proof (clear_word_ok c v Hv) as Hw. split_and!.
  - f_equal. by apply clear_no_hit.
  - by constructor.
  - unfold verdict. by rewrite decide_True.
Qed.

Lemma lookup_take_iff {A} (l : list A) n i x : take n l !! i = Some x ↔ (i < n)%nat ∧ l !! i = Some x.
Proof.
  destruct (decide (i < n)%nat); [rewrite lookup_take_lt by done; naive_solver|].
  rewrite lookup_take_ge by lia. naive_solver lia.
Qed.

(** Asking again about the same trace. *)
Lemma new_bits_loop_again n cs vs :
  (n ≤ length cs)%nat → (n ≤ length vs)%nat → Forall word_ok vs →
  let vs' := zip_with clear (take n cs) (take n vs) ++ drop n vs in
  new_bits_loop n 0 cs vs' = (0, vs').
Proof.
  intros Hc Hv Hok vs'. destruct (clear_zip_idem (take n cs) (take n vs)) as (H1 & H2 & H3); [by apply Forall_take|].
  assert (length (zip_with clear (take n cs) (take n vs)) = n) as Hl by (rewrite length_zip_with, !length_take; lia).
  rewrite new_bits_loop_eq; [|done|unfold vs'; rewrite length_app; lia| |lia].
  - unfold vs' at 1 2 3. rewrite take_app_le, (take_ge (zip_with _ _ _)), drop_app_length' by lia.
    by rewrite H1, H3.
  - apply Forall_app. split; [done|by apply Forall_drop].
Qed.

(** C36. [has_new_bits] returns 2 exactly when the trace hits a byte that the
    virgin map has never seen hit, 0 exactly when it has no bit left in the
    virgin map, clears the bits of the trace in the virgin map and nothing else,
    and answers 0 when asked again about the same trace. *)
Theorem has_new_bits_correct real_map_size trace virgin :
  let n := Z.to_nat (qword_count real_map_size) in
  (n ≤ length trace)%nat → (n ≤ length virgin)%nat → Forall word_ok virgin →
  ∃ ret virgin', has_new_bits real_map_size trace virgin = (ret, virgin') ∧ 0 ≤ ret ≤ 2 ∧
    (ret = 2 ↔ ∃ i c v k, (i < n)%nat ∧ trace !! i = Some c ∧ virgin !! i = Some v ∧
                 0 ≤ k < 8 ∧ byte c k ≠ 0 ∧ byte v k = 255) ∧
    (ret = 0 ↔ ∀ i c v, (i < n)%nat → trace !! i = Some c → virgin !! i = Some v → Z.land c v = 0) ∧
    virgin' = zip_with clear (take n trace) (take n virgin) ++ drop n virgin ∧
    has_new_bits real_map_size trace virgin' = (0, virgin').
Proof.
  intros n Hc Hv Hok. unfold has_new_bits. fold n. rewrite new_bits_loop_eq by (done || lia).
  pose proof (verdicts_range (take n trace) (take n virgin)) as Hr. rewrite Z.max_r by lia.
  eexists _, _. split_and!; [done|lia|lia| | |done|by apply new_bits_loop_again].
  - rewrite verdicts_2. setoid_rewrite new_tuple_spec. setoid_rewrite lookup_take_iff. naive_solver.
  - rewrite verdicts_0. setoid_rewrite lookup_take_iff. naive_solver.
Qed.

Lemma has_new_bits_correct_witness :
  let trace := [0; 256; 0; 0] in let virgin := [2 ^ 64 - 1; 2 ^ 64 - 1; 5; 0] in
  let n := Z.to_nat (qword_count 32) in
  ∃ ret virgin', has_new_bits 32 trace virgin = (ret, virgin') ∧ 0 ≤ ret ≤ 2 ∧
    (ret = 2 ↔ ∃ i c v k, (i < n)%nat ∧ trace !! i = Some c ∧ virgin !! i = Some v ∧
                 0 ≤ k < 8 ∧ byte c k ≠ 0 ∧ byte v k = 255) ∧
    (ret = 0 ↔ ∀ i c v, (i < n)%nat → trace !! i = Some c → virgin !! i = Some v → Z.land c v = 0) ∧
    virgin' = zip_with clear (take n trace) (take n virgin) ++ drop n virgin ∧
    has_new_bits 32 trace virgin' = (0, virgin').
Proof.
  apply (has_new_bits_correct 32 [0; 256; 0; 0] [2 ^ 64 - 1; 2 ^ 64 - 1; 5; 0]).
  - vm_compute. lia.
  - vm_compute. lia.
  - unfold word_ok. repeat constructor; lia.
Defined.

(** ** The fast path *)

Definition hit (c v : Z) : bool := negb (bool_decide (c = 0)) && negb (bool_decide (Z.land (classify_word c) v = 0)).

Definition classify1 (w : Z) : Z := if decide (w = 0) then w else classify_word w.

Lemma hit_false c v : hit c v = false → Z.land (classify1 c) v = 0.
Proof.
  unfold hit, classify1. case_decide; [subst; by rewrite Z.land_0_l|].
  rewrite bool_decide_eq_false_2 by done. simpl. by rewrite negb_false_iff, bool_decide_eq_true.
Qed.

Lemma skim_false n : ∀ vs cs, skim n vs cs = false →
  ∀ i c v, (i < 4 * n)%nat → length cs = length vs → (4 * n ≤ length cs)%nat →
    cs !! i = Some c → vs !! i = Some v → Z.land (classify1 c) v = 0.
Proof.
  induction n as [|n IH]; intros vs cs Hs i c v Hi Hl Hlen Hc Hv; [lia|].
  destruct cs as [|c0 [|c1 [|c2 [|c3 cs]]]]; simpl in Hlen; try lia.
  destruct vs as [|v0 [|v1 [|v2 [|v3 vs]]]]; simpl in Hl; try lia.
  cbn [skim] in Hs. fold (hit c0 v0) (hit c1 v1) (hit c2 v2) (hit c3 v3) in Hs.
  rewrite !orb_false_iff in Hs. destruct Hs as [[[[H0 H1] H2] H3] Hs].
  destruct i as [|[|[|[|i]]]]; simpl in Hc, Hv; simplify_eq; try (by apply hit_false).
  eapply (IH vs cs Hs i); try done; lia.
Qed.

Lemma hit_true c v : hit c v = true ↔ Z.land (classify1 c) v ≠ 0.
Proof.
  split; [|intros Hl; destruct (hit c v) eqn:E; [done|by apply hit_false in E]].
  unfold hit, classify1. intros [Hc Hl]%andb_true_iff. rewrite negb_true_iff, bool_decide_eq_false in Hc, Hl. by rewrite decide_False.
Qed.

Lemma skim_true n : ∀ vs cs, length cs = length vs → skim n vs cs = true →
  ∃ i c v, cs !! i = Some c ∧ vs !! i = Some v ∧ Z.land (classify1 c) v ≠ 0.
Proof.
  induction n as [|n IH]; intros vs cs Hl Hs; [done|].
  destruct cs as [|c0 [|c1 [|c2 [|c3 cs]]]], vs as [|v0 [|v1 [|v2 [|v3 vs]]]]; simpl in Hl; try lia; try done.
  cbn [skim] in Hs. fold (hit c0 v0) (hit c1 v1) (hit c2 v2) (hit c3 v3) in Hs. rewrite !orb_true_iff, !hit_true in Hs.
  destruct Hs as [[[[H0|H1]|H2]|H3]|Hs]; [by exists 0%nat, c0, v0|by exists 1%nat, c1, v1|by exists 2%nat, c2, v2|by exists 3%nat, c3, v3|].
  destruct (IH vs cs) as (i & c & v & ?); [lia|done|]. by exists (S (S (S (S i)))), c, v.
Qed.

(** Some word of the trace, put into classes, has a bit in the virgin map. *)
Definition any_news (trace virgin : list Z) : Prop :=
  ∃ i c v, trace !! i = Some c ∧ virgin !! i = Some v ∧ Z.land (classify_word c) v ≠ 0.

Lemma classify1_word c : classify1 c = classify_word c.
Proof. unfold classify1. case_decide as Hc; [by rewrite Hc, classify_word_0|done]. Qed.

Lemma unclassified_ok map_size real_map_size trace virgin :
  map_size = 8 * zlen trace → map_size mod 32 = 0 → length virgin = length trace →
  qword_count real_map_size ≤ zlen trace → Forall word_ok virgin →
  ∃ ret trace' virgin',
    has_new_bits_unclassified map_size real_map_size trace virgin = (ret, trace', virgin') ∧
    has_new_bits real_map_size (classify_counts map_size trace) virgin = (ret, virgin') ∧
    (any_news trace virgin → trace' = classify_counts map_size trace) ∧
    (¬ any_news trace virgin → ret = 0 ∧ trace' = trace).
Proof.
  intros Hm Hmod Hl Hq Hok. unfold has_new_bits_unclassified.
  destruct (skim _ virgin trace) eqn:Hs.
  { destruct (has_new_bits real_map_size (classify_counts map_size trace) virgin) as [ret virgin'].
    exists ret, (classify_counts map_size trace), virgin'. do 3 (split; [done|]). intros Hno. exfalso. apply Hno.
    destruct (skim_true _ _ _ (eq_sym Hl) Hs) as (i & c & v & Hc & Hv & Hlv). rewrite classify1_word in Hlv. by exists i, c, v. }
  assert (4 * Z.to_nat ((map_size + 31) / 32) = length trace)%nat as H4 by (Z.to_euclidean_division_equations; lia).
  assert (∀ i c v, trace !! i = Some c → virgin !! i = Some v → Z.land (classify1 c) v = 0) as Hskim.
  { intros i c v Hc Hv. apply lookup_lt_Some in Hc as Hi. eapply skim_false; [exact Hs| | | |exact Hc|exact Hv]; lia. }
  exists 0, trace, virgin. split; [done|]. split; [|split; [|done]].
  2:{ intros (i & c & v & Hc & Hv & Hlv). exfalso. apply Hlv. rewrite <- classify1_word. by eapply Hskim. }
  set (n := Z.to_nat (qword_count real_map_size)).
  assert (Z.shiftr map_size 3 = zlen trace) as Hsh by (rewrite Z.shiftr_div_pow2 by lia; rewrite Hm, Z.mul_comm; by apply Z.div_mul).
  assert (classify_counts map_size trace = map classify1 trace) as Hcl.
  { unfold classify_counts, over_words. rewrite Hsh, Nat2Z.id, take_ge, drop_ge, app_nil_r by lia. done. }
  unfold has_new_bits. fold n. rewrite Hcl.
  assert (0 ≤ qword_count real_map_size) by (apply Z.shiftr_nonneg, wrap_range; lia).
  rewrite new_bits_loop_eq by (try rewrite length_map; try done; unfold n; lia).
  assert (∀ i c v, map classify1 trace !! i = Some c → virgin !! i = Some v → Z.land c v = 0) as Hno.
  { intros i c v Hc Hv. rewrite list_lookup_fmap in Hc. destruct (trace !! i) as [w|] eqn:Hw; [|done]. injection Hc as <-.
    by eapply Hskim. }
  f_equal.
  - rewrite Z.max_r by apply verdicts_range. apply verdicts_0. intros i c v Hc Hv.
    apply lookup_take_iff in Hc as [_ Hc]. apply lookup_take_iff in Hv as [_ Hv]. by eapply Hno.
  - rewrite <- (take_drop n virgin) at 3. f_equal. apply list_eq. intros i. rewrite lookup_zip_with.
    destruct (take n virgin !! i) as [v|] eqn:Hv.
    + apply lookup_take_iff in Hv as [Hi Hv].
      destruct (lookup_lt_is_Some_2 (map classify1 trace) i) as [c Hc]; [rewrite length_map; apply lookup_lt_Some in Hv; lia|].
      rewrite lookup_take_lt by done. rewrite Hc. simpl. f_equal. apply clear_no_hit; [by eapply Forall_lookup_1|by eapply Hno].
    + by destruct (take n (map classify1 trace) !! i).
Qed.

Lemma unclassified_trace map_size real_map_size trace virgin ret trace' virgin' :
  has_new_bits_unclassified map_size real_map_size trace virgin = (ret, trace', virgin') →
  (ret ≠ 0 → trace' = classify_counts map_size trace) ∧ (trace' = trace ∨ trace' = classify_counts map_size trace).
Proof.
  unfold has_new_bits_unclassified. destruct (skim _ _ _); [destruct (has_new_bits _ _ _)|]; intros [= <- <- <-]; [by split; [|right]|by split; [|left]].
Qed.

(** C37. On maps whose size is a multiple of 32, the one-pass
    [has_new_bits_unclassified] gives the answer and the virgin map of
    [classify_counts] followed by [has_new_bits]. It leaves the trace as it was, and reports nothing, when
    no word of it, put into classes, has a bit in the virgin map; otherwise the trace is put into classes. *)
Theorem has_new_bits_unclassified_equiv map_size real_map_size trace virgin :
  map_size = 8 * zlen trace → map_size mod 32 = 0 → length virgin = length trace →
  qword_count real_map_size ≤ zlen trace → Forall word_ok virgin →
  ∃ ret trace' virgin',
    has_new_bits_unclassified map_size real_map_size trace virgin = (ret, trace', virgin') ∧
    has_new_bits real_map_size (classify_counts map_size trace) virgin = (ret, virgin') ∧
    (any_news trace virgin → trace' = classify_counts map_size trace) ∧
    (¬ any_news trace virgin → ret = 0 ∧ trace' = trace).
Proof. apply unclassified_ok. Qed.

Lemma has_new_bits_unclassified_equiv_witness :
  ∃ ret trace' virgin',
    has_new_bits_unclassified 32 32 [0; 1024; 0; 0] [2 ^ 64 - 1; 2 ^ 64 - 1; 5; 0] = (ret, trace', virgin') ∧
    has_new_bits 32 (classify_counts 32 [0; 1024; 0; 0]) [2 ^ 64 - 1; 2 ^ 64 - 1; 5; 0] = (ret, virgin') ∧
    (any_news [0; 1024; 0; 0] [2 ^ 64 - 1; 2 ^ 64 - 1; 5; 0] → trace' = classify_counts 32 [0; 1024; 0; 0]) ∧
    (¬ any_news [0; 1024; 0; 0] [2 ^ 64 - 1; 2 ^ 64 - 1; 5; 0] → ret = 0 ∧ trace' = [0; 1024; 0; 0]).
Proof.
  apply (has_new_bits_unclassified_equiv 32 32 [0; 1024; 0; 0] [2 ^ 64 - 1; 2 ^ 64 - 1; 5; 0]).
  - reflexivity.
  - reflexivity.
  - reflexivity.
  - vm_compute. discriminate.
  - unfold word_ok. repeat constructor; lia.
Defined.

(** ** Population count *)

(** The number of set bits among the lowest [n]. *)
Fixpoint popcount (n : nat) (v : Z) : Z :=
  match n with
  | O => 0
  | S n => v mod 2 + popcount n (v / 2)
  end.

Lemma land_split a b m n : 0 ≤ a < 256 → 0 ≤ m < 256 →
  Z.land (a + 256 * b) (m + 256 * n) = Z.land a m + 256 * Z.land b n.
Proof.
  intros Ha Hm.
  assert (0 ≤ Z.land a m < 256) as Hl.
  { split; [apply Z.land_nonneg; lia|]. change 256 with (2 ^ 8). destruct (decide (Z.land a m = 0)) as [->|]; [lia|].
    apply Z.log2_lt_cancel. rewrite Z.log2_pow2 by lia. eapply Z.le_lt_trans; [apply Z.log2_land; lia|].
    apply Z.min_lt_iff. left. destruct (decide (a = 0)) as [->|]; [done|]. apply Z.log2_lt_pow2; lia. }
  rewrite (Z.mul_comm 256 b), (Z.mul_comm 256 n), (Z.mul_comm 256 (Z.land b n)).
  change 256 with (2 ^ 8) in *. rewrite <- !lor_add by lia. apply Z.bits_inj'. intros i Hi.
  rewrite !Z.land_spec, !Z.lor_spec, !Z.land_spec, !Z.shiftl_spec by lia.
  destruct (decide (i < 8)).
  - rewrite !(Z.testbit_neg_r _ (i - 8)) by lia. by rewrite !orb_false_r.
  - assert (∀ x, 0 ≤ x < 2 ^ 8 → Z.testbit x i = false) as Hhi.
    { intros x Hx. destruct (decide (x = 0)) as [->|]; [apply Z.bits_0|]. apply Z.bits_above_log2; [lia|].
      assert (Z.log2 x < 8) by (apply Z.log2_lt_pow2; lia). lia. }
    rewrite (Hhi a), (Hhi m) by done. simpl. by rewrite Z.land_spec.
Qed.

(** Shifting a byte sequence right by [s] brings [s] bits of the next byte in. *)
Lemma shiftr_split a b s : 0 ≤ a < 256 → 0 ≤ b → s = 1 ∨ s = 2 ∨ s = 4 →
  Z.shiftr (a + 256 * b) s = (a / 2 ^ s + 2 ^ (8 - s) * (b mod 2 ^ s)) + 256 * Z.shiftr b s.
Proof.
  intros Ha Hb Hs. rewrite !Z.shiftr_div_pow2 by lia.
  destruct Hs as [Es|[Es|Es]]; subst s; simpl Z.sub; change (2 ^ 1) with 2; change (2 ^ 2) with 4; change (2 ^ 4) with 16;
    change (2 ^ 7) with 128; change (2 ^ 6) with 64; Z.to_euclidean_division_equations; lia.
Qed.

(** The two masking steps on one byte. *)
Definition pairs8 (a : Z) : Z := a - Z.land (a / 2) 0x55.
Definition nibbles8 (a : Z) : Z := Z.land (pairs8 a) 0x33 + Z.land (pairs8 a / 4) 0x33.

Definition byte_facts (a : Z) : Prop :=
  (∀ t, t ∈ [0; 1] → Z.land (a / 2 + 128 * t) 0x55 = Z.land (a / 2) 0x55) ∧
  0 ≤ pairs8 a < 256 ∧
  (∀ t, t ∈ [0; 1; 2; 3] → Z.land (pairs8 a / 4 + 64 * t) 0x33 = Z.land (pairs8 a / 4) 0x33) ∧
  0 ≤ nibbles8 a mod 16 ≤ 4 ∧ 0 ≤ nibbles8 a / 16 ≤ 4 ∧ nibbles8 a mod 16 + nibbles8 a / 16 = popcount 8 a.

Definition byte_fact_check (a : Z) : bool :=
  forallb (λ t, bool_decide (Z.land (a / 2 + 128 * t) 0x55 = Z.land (a / 2) 0x55)) [0; 1] &&
  bool_decide (0 ≤ pairs8 a < 256) &&
  forallb (λ t, bool_decide (Z.land (pairs8 a / 4 + 64 * t) 0x33 = Z.land (pairs8 a / 4) 0x33)) [0; 1; 2; 3] &&
  bool_decide (0 ≤ nibbles8 a mod 16 ≤ 4) && bool_decide (0 ≤ nibbles8 a / 16 ≤ 4) &&
  bool_decide (nibbles8 a mod 16 + nibbles8 a / 16 = popcount 8 a).

Lemma byte_facts_ok a : 0 ≤ a < 256 → byte_facts a.
Proof.
  intros Ha. assert (forallb byte_fact_check (seqZ 0 256) = true) as Hall by (vm_compute; reflexivity).
  rewrite forallb_forall in Hall. specialize (Hall a).
  assert (byte_fact_check a = true) as Hc by (apply Hall, list_elem_of_In, elem_of_seqZ; lia). clear Hall.
  unfold byte_fact_check in Hc. rewrite !andb_true_iff, !forallb_forall, !bool_decide_eq_true in Hc.
  destruct Hc as (((((H1 & H2) & H3) & H4) & H5) & H6). split_and!; try lia.
  - intros t Ht. specialize (H1 t). rewrite bool_decide_eq_true in H1. by apply H1, list_elem_of_In.
  - intros t Ht. specialize (H3 t). rewrite bool_decide_eq_true in H3. by apply H3, list_elem_of_In.
Qed.

Lemma pairs_step a b m : 0 ≤ a < 256 → 0 ≤ b →
  (a + 256 * b) - Z.land (Z.shiftr (a + 256 * b) 1) (0x55 + 256 * m) = pairs8 a + 256 * (b - Z.land (Z.shiftr b 1) m).
Proof.
  intros Ha Hb. destruct (byte_facts_ok a Ha) as (H1 & _). rewrite shiftr_split by auto.
  change (2 ^ 1) with 2. change (2 ^ (8 - 1)) with 128.
  assert (0 ≤ b mod 2 < 2) by (apply Z.mod_pos_bound; lia).
  rewrite land_split, H1 by (try (Z.to_euclidean_division_equations; lia); rewrite !elem_of_cons; lia).
  unfold pairs8. lia.
Qed.

Lemma nibbles_step a b m : 0 ≤ a < 256 → 0 ≤ b →
  Z.land (pairs8 a + 256 * b) (0x33 + 256 * m) + Z.land (Z.shiftr (pairs8 a + 256 * b) 2) (0x33 + 256 * m) =
  nibbles8 a + 256 * (Z.land b m + Z.land (Z.shiftr b 2) m).
Proof.
  intros Ha Hb. destruct (byte_facts_ok a Ha) as (_ & H2 & H3 & _). rewrite shiftr_split by auto.
  change (2 ^ 2) with 4. change (2 ^ (8 - 2)) with 64.
  assert (0 ≤ b mod 4 < 4) by (apply Z.mod_pos_bound; lia).
  rewrite !land_split, H3 by (try (Z.to_euclidean_division_equations; lia); rewrite !elem_of_cons; lia).
  unfold nibbles8. lia.
Qed.

Lemma sums_step a b : 0 ≤ a < 256 → 0 ≤ b →
  let x := nibbles8 a + 256 * b in
  ∃ t, 0 ≤ t < 16 ∧ (x + Z.shiftr x 4 = (nibbles8 a + nibbles8 a / 16 + 16 * t) + 256 * (b + Z.shiftr b 4)) ∧ t = b mod 16.
Proof.
  intros Ha Hb x. destruct (byte_facts_ok a Ha) as (_ & _ & _ & H4 & H5 & _).
  assert (0 ≤ nibbles8 a < 256) by (Z.to_euclidean_division_equations; lia).
  exists (b mod 16). split; [apply Z.mod_pos_bound; lia|]. split; [|done].
  unfold x. rewrite shiftr_split by auto. change (2 ^ 4) with 16. change (2 ^ (8 - 4)) with 16. lia.
Qed.

Lemma land15 x : Z.land x 0x0F = x mod 16.
Proof. change 0x0F with (Z.ones 4). by rewrite Z.land_ones. Qed.

(** The third step on one byte: both nibble counts are added, whatever the next
    byte shifted in. *)
Lemma sums_mask a b m : 0 ≤ a < 256 → 0 ≤ b → b mod 16 ≤ 4 →
  Z.land ((nibbles8 a + 256 * b) + Z.shiftr (nibbles8 a + 256 * b) 4) (0x0F + 256 * m) =
  popcount 8 a + 256 * Z.land (b + Z.shiftr b 4) m.
Proof.
  intros Ha Hb Hb4. destruct (byte_facts_ok a Ha) as (_ & _ & _ & H4 & H5 & H6).
  destruct (sums_step a b Ha Hb) as (t & Ht & E & Et). rewrite E.
  rewrite land_split, land15 by (Z.to_euclidean_division_equations; lia). f_equal.
  rewrite <- H6. Z.to_euclidean_division_equations. lia.
Qed.

Lemma popcount_split k : ∀ a b n, 0 ≤ a < 2 ^ Z.of_nat k →
  popcount (k + n) (a + 2 ^ Z.of_nat k * b) = popcount k a + popcount n b.
Proof.
  induction k as [|k IH]; intros a b n Ha.
  { change (2 ^ Z.of_nat 0) with 1 in *. replace (a + 1 * b) with b by lia. done. }
  rewrite Nat2Z.inj_succ, Z.pow_succ_r in * by lia. cbn [Nat.add popcount].
  replace ((a + 2 * 2 ^ Z.of_nat k * b) / 2) with (a / 2 + 2 ^ Z.of_nat k * b)
    by (generalize (2 ^ Z.of_nat k * b) (2 * 2 ^ Z.of_nat k * b) (Z.mul_assoc 2 (2 ^ Z.of_nat k) b); intros ? ? <-;
        Z.to_euclidean_division_equations; lia).
  rewrite IH by (Z.to_euclidean_division_equations; lia).
  replace ((a + 2 * 2 ^ Z.of_nat k * b) mod 2) with (a mod 2); [lia|].
  rewrite <- Z.mul_assoc, Z.mul_comm, Z.mod_add; lia.
Qed.

Lemma popcount8_split a b n : 0 ≤ a < 256 → popcount (8 + n) (a + 256 * b) = popcount 8 a + popcount n b.
Proof. apply (popcount_split 8). Qed.

Lemma popcount8_range a : 0 ≤ a < 256 → 0 ≤ popcount 8 a ≤ 8.
Proof. intros Ha. destruct (byte_facts_ok a Ha) as (_ & _ & _ & H4 & H5 & <-). lia. Qed.

(** Multiplying by 0x01010101 adds the four bytes up in the top one. *)
Lemma sum_of_bytes p0 p1 p2 p3 :
  0 ≤ p0 ≤ 8 → 0 ≤ p1 ≤ 8 → 0 ≤ p2 ≤ 8 → 0 ≤ p3 ≤ 8 →
  Z.shiftr (u32 ((p0 + 256 * (p1 + 256 * (p2 + 256 * (p3 + 256 * 0)))) * 0x01010101)) 24 = p0 + (p1 + (p2 + (p3 + 0))).
Proof.
  intros. rewrite Z.shiftr_div_pow2 by lia. unfold wrap.
  replace ((p0 + 256 * (p1 + 256 * (p2 + 256 * (p3 + 256 * 0)))) * 0x01010101) with
    ((p0 + 256 * (p0 + p1) + 65536 * (p0 + p1 + p2)) + (p0 + p1 + p2 + p3) * 2 ^ 24 +
     (p1 + p2 + p3 + 256 * (p2 + p3) + 65536 * p3) * 2 ^ 32) by lia.
  rewrite Z.mod_add by lia. rewrite Z.mod_small by lia. rewrite Z.div_add, Z.div_small by lia. lia.
Qed.

(** The shift-and-mask arithmetic of [count_bits] counts the bits of a word. *)
Lemma count_word_ok v : 0 ≤ v < 2 ^ 32 → count_word v = popcount 32 v.
Proof.
  intros Hv. unfold count_word. case_decide as Hf; [by subst|]. clear Hf.
  set (a0 := v mod 256). set (a1 := v / 256 mod 256). set (a2 := v / 65536 mod 256). set (a3 := v / 16777216).
  assert (v = a0 + 256 * (a1 + 256 * (a2 + 256 * (a3 + 256 * 0)))) as E
    by (unfold a0, a1, a2, a3; Z.to_euclidean_division_equations; lia).
  assert (0 ≤ a0 < 256) as H0 by (apply Z.mod_pos_bound; lia). assert (0 ≤ a1 < 256) as H1 by (apply Z.mod_pos_bound; lia).
  assert (0 ≤ a2 < 256) as H2 by (apply Z.mod_pos_bound; lia).
  assert (0 ≤ a3 < 256) as H3 by (unfold a3; Z.to_euclidean_division_equations; lia).
  clearbody a0 a1 a2 a3. subst v.
  pose proof (byte_facts_ok a0 H0) as (_ & B0 & _ & C0 & D0 & _). pose proof (byte_facts_ok a1 H1) as (_ & B1 & _ & C1 & D1 & _).
  pose proof (byte_facts_ok a2 H2) as (_ & B2 & _ & C2 & D2 & _). pose proof (byte_facts_ok a3 H3) as (_ & B3 & _ & C3 & D3 & _).
  assert (∀ a, 0 ≤ nibbles8 a mod 16 ≤ 4 → 0 ≤ nibbles8 a / 16 ≤ 4 → 0 ≤ nibbles8 a < 256 ∧ nibbles8 a ≤ 68) as Hn
    by (intros a ? ?; Z.to_euclidean_division_equations; lia).
  destruct (Hn a0 C0 D0) as [N0 _], (Hn a1 C1 D1) as [N1 _], (Hn a2 C2 D2) as [N2 _], (Hn a3 C3 D3) as [N3 _]. clear Hn.
  change 0x55555555 with (0x55 + 256 * (0x55 + 256 * (0x55 + 256 * (0x55 + 256 * 0)))).
  rewrite !pairs_step by lia. change (0 - Z.land (Z.shiftr 0 1) 0) with 0.
  rewrite (wrap_small 32 (pairs8 a0 + _)) by lia.
  change 0x33333333 with (0x33 + 256 * (0x33 + 256 * (0x33 + 256 * (0x33 + 256 * 0)))).
  rewrite !nibbles_step by lia. change (Z.land 0 0 + Z.land (Z.shiftr 0 2) 0) with 0.
  rewrite (wrap_small 32 (nibbles8 a0 + _)) by lia.
  change 0xF0F0F0F with (0x0F + 256 * (0x0F + 256 * (0x0F + 256 * (0x0F + 256 * 0)))).
  set (x := nibbles8 a0 + 256 * (nibbles8 a1 + 256 * (nibbles8 a2 + 256 * (nibbles8 a3 + 256 * 0)))).
  assert (0 ≤ x < 2 ^ 31) as Hx by (unfold x; Z.to_euclidean_division_equations; lia).
  rewrite (wrap_small 32 (x + Z.shiftr x 4))
    by (rewrite Z.shiftr_div_pow2 by lia; change (2 ^ 4) with 16; Z.to_euclidean_division_equations; lia).
  unfold x. clear x Hx.
  assert (∀ a b, (nibbles8 a + 256 * b) mod 16 = nibbles8 a mod 16) as Hm.
  { intros a b. replace (256 * b) with (16 * b * 16) by lia. by rewrite Z.mod_add. }
  rewrite !sums_mask by (rewrite ?Hm; lia). rewrite (sums_mask a3 0 0) by done. change (Z.land (0 + Z.shiftr 0 4) 0) with 0.
  change 32%nat with (8 + (8 + (8 + (8 + 0))))%nat. rewrite !popcount8_split by done. simpl (popcount 0 0).
  pose proof (popcount8_range a0 H0). pose proof (popcount8_range a1 H1).
  pose proof (popcount8_range a2 H2). pose proof (popcount8_range a3 H3).
  apply sum_of_bytes; lia.
Qed.

(** ** The counters *)

Definition zsum (l : list Z) : Z := foldr Z.add 0 l.

(** How many of the four bytes of a dword satisfy [p]. *)
Definition bytes_such (p : Z → bool) (v : Z) : Z :=
  zsum (map (λ k, if p (byte v k) then 1 else 0) [0; 1; 2; 3]).

Lemma land_byte v k : 0 ≤ k → Z.land v (Z.shiftl 255 (8 * k)) = Z.shiftl (byte v k) (8 * k).
Proof.
  intros Hk. unfold byte. apply Z.bits_inj'. intros i Hi. rewrite Z.land_spec, !Z.shiftl_spec, Z.land_spec by lia.
  destruct (decide (i < 8 * k)).
  - rewrite !(Z.testbit_neg_r _ (i - 8 * k)) by lia. by rewrite !andb_false_r.
  - rewrite Z.shiftr_spec by lia. by replace (i - 8 * k + 8 * k) with i by lia.
Qed.

Lemma land_byte_zero v k : 0 ≤ k → Z.land v (Z.shiftl 255 (8 * k)) = 0 ↔ byte v k = 0.
Proof.
  intros Hk. rewrite land_byte by done. rewrite Z.shiftl_mul_pow2 by lia.
  assert (0 < 2 ^ (8 * k)) by (apply Z.pow_pos_nonneg; lia). split; [nia|by intros ->].
Qed.

Lemma land_byte_full v k : 0 ≤ k → Z.land v (Z.shiftl 255 (8 * k)) = Z.shiftl 255 (8 * k) ↔ byte v k = 255.
Proof.
  intros Hk. rewrite land_byte by done. rewrite !Z.shiftl_mul_pow2 by lia.
  assert (0 < 2 ^ (8 * k)) by (apply Z.pow_pos_nonneg; lia). split; [nia|by intros ->].
Qed.

(** One of the four conditional increments. *)
Lemma bump_ok (P : Prop) `{Decision P} (b : bool) ret :
  in_width 32 ret → (P ↔ b = true) → (if decide P then u32 (ret + 1) else ret) = u32 (ret + if b then 1 else 0).
Proof.
  intros Hr HP. case_decide as Hd; destruct b; try done; try naive_solver. by rewrite Z.add_0_r, wrap_small.
Qed.

Lemma u32_width x : in_width 32 (u32 x).
Proof. apply wrap_range. lia. Qed.

Lemma test_nonzero v k (m : Z) : 0 ≤ k → m = Z.shiftl 255 (8 * k) →
  Z.land v m ≠ 0 ↔ negb (bool_decide (byte v k = 0)) = true.
Proof. intros Hk ->. by rewrite negb_true_iff, bool_decide_eq_false, land_byte_zero. Qed.

Lemma test_not_full v k (m : Z) : 0 ≤ k → m = Z.shiftl 255 (8 * k) →
  Z.land v m ≠ m ↔ negb (bool_decide (byte v k = 255)) = true.
Proof. intros Hk ->. by rewrite negb_true_iff, bool_decide_eq_false, land_byte_full. Qed.

Lemma bytes_such_eq p v : bytes_such p v =
  (if p (byte v 0) then 1 else 0) + ((if p (byte v 1) then 1 else 0) +
    ((if p (byte v 2) then 1 else 0) + ((if p (byte v 3) then 1 else 0) + 0))).
Proof. reflexivity. Qed.

Lemma count_bytes_word_ok ret v :
  in_width 32 ret → count_bytes_word ret v = u32 (ret + bytes_such (λ b, negb (bool_decide (b = 0))) v).
Proof.
  intros Hr. rewrite bytes_such_eq. unfold count_bytes_word. destruct (decide (v = 0)) as [Hz|Hz].
  { subst v. change (byte 0 0) with 0. change (byte 0 1) with 0. change (byte 0 2) with 0. change (byte 0 3) with 0.
    rewrite bool_decide_eq_true_2 by done. cbn [negb Z.add]. rewrite Z.add_0_r. by rewrite wrap_small. }
  rewrite (bump_ok _ _ ret Hr (test_nonzero v 0 0x000000ff ltac:(lia) eq_refl)).
  rewrite (bump_ok _ _ _ (u32_width _) (test_nonzero v 1 0x0000ff00 ltac:(lia) eq_refl)).
  rewrite (bump_ok _ _ _ (u32_width _) (test_nonzero v 2 0x00ff0000 ltac:(lia) eq_refl)).
  rewrite (bump_ok _ _ _ (u32_width _) (test_nonzero v 3 0xff000000 ltac:(lia) eq_refl)).
  repeat (rewrite <- ?Z.add_assoc; rewrite wrap_add_l). f_equal. lia.
Qed.

Lemma count_non_255_word_ok ret v :
  in_width 32 ret → count_non_255_word ret v = u32 (ret + bytes_such (λ b, negb (bool_decide (b = 255))) v).
Proof.
  intros Hr. rewrite bytes_such_eq. unfold count_non_255_word. destruct (decide (v = 0xffffffff)) as [Hz|Hz].
  { subst v. change (byte 0xffffffff 0) with 255. change (byte 0xffffffff 1) with 255.
    change (byte 0xffffffff 2) with 255. change (byte 0xffffffff 3) with 255.
    rewrite bool_decide_eq_true_2 by done. cbn [negb Z.add]. rewrite Z.add_0_r. by rewrite wrap_small. }
  rewrite (bump_ok _ _ ret Hr (test_not_full v 0 0x000000ff ltac:(lia) eq_refl)).
  rewrite (bump_ok _ _ _ (u32_width _) (test_not_full v 1 0x0000ff00 ltac:(lia) eq_refl)).
  rewrite (bump_ok _ _ _ (u32_width _) (test_not_full v 2 0x00ff0000 ltac:(lia) eq_refl)).
  rewrite (bump_ok _ _ _ (u32_width _) (test_not_full v 3 0xff000000 ltac:(lia) eq_refl)).
  repeat (rewrite <- ?Z.add_assoc; rewrite wrap_add_l). f_equal. lia.
Qed.

Lemma foldl_count (f : Z → Z → Z) (g : Z → Z) : (∀ ret v, in_width 32 ret → f ret v = u32 (ret + g v)) →
  ∀ l ret, in_width 32 ret → foldl f ret l = u32 (ret + zsum (map g l)).
Proof.
  intros Hf. induction l as [|v l IH]; intros ret Hr; simpl.
  { rewrite Z.add_0_r, wrap_small by done. done. }
  rewrite Hf by done. rewrite IH by (apply wrap_range; lia). autorewrite with wrap. f_equal. lia.
Qed.

Lemma dwords_ok m : Forall word_ok m → Forall (in_width 32) (dwords m).
Proof.
  intros Hm. induction Hm as [|w m Hw _ IH]; simpl; [constructor|]. unfold word_ok, in_width in *.
  repeat constructor; try (apply Z.mod_pos_bound; lia); try done; Z.to_euclidean_division_equations; lia.
Qed.

(** The three counters of the status screen are exact (modulo 2^32): the
    bits set, the bytes that are not zero and the bytes that are not 255, in
    the 32-bit words that cover the map. *)
Theorem counters_correct real_map_size mem :
  Forall word_ok mem →
  let ds := take (Z.to_nat (dword_count real_map_size)) (dwords mem) in
  count_bits real_map_size mem = u32 (zsum (map (popcount 32) ds)) ∧
  count_bytes real_map_size mem = u32 (zsum (map (bytes_such (λ b, negb (bool_decide (b = 0)))) ds)) ∧
  count_non_255_bytes real_map_size mem = u32 (zsum (map (bytes_such (λ b, negb (bool_decide (b = 255)))) ds)).
Proof.
  intros Hok ds. assert (in_width 32 0) as H0 by (unfold in_width; lia). split_and!.
  - unfold count_bits. fold ds.
    rewrite (foldl_count (λ ret v, u32 (ret + count_word v)) count_word) by done.
    rewrite Z.add_0_l. do 2 f_equal. apply map_ext_in. intros v Hv%list_elem_of_In. apply count_word_ok.
    assert (Forall (in_width 32) ds) as Hds by (by apply Forall_take, dwords_ok).
    by eapply Forall_forall in Hds.
  - unfold count_bytes. fold ds. by rewrite (foldl_count _ _ count_bytes_word_ok).
  - unfold count_non_255_bytes. fold ds. by rewrite (foldl_count _ _ count_non_255_word_ok).
Qed.

Lemma counters_correct_witness :
  let ds := take (Z.to_nat (dword_count 16)) (dwords [0xff00ff00ff00fff0; 7]) in
  count_bits 16 [0xff00ff00ff00fff0; 7] = u32 (zsum (map (popcount 32) ds)) ∧
  count_bytes 16 [0xff00ff00ff00fff0; 7] = u32 (zsum (map (bytes_such (λ b, negb (bool_decide (b = 0)))) ds)) ∧
  count_non_255_bytes 16 [0xff00ff00ff00fff0; 7] = u32 (zsum (map (bytes_such (λ b, negb (bool_decide (b = 255)))) ds)).
Proof. apply (counters_correct 16 [0xff00ff00ff00fff0; 7]). unfold word_ok. repeat constructor; lia. Defined.

(** ** [minimize_bits] *)

Definition bit_at (m : list Z) (i : Z) : bool := Z.testbit (default 0 (m !! Z.to_nat (i / 8))) (i mod 8).

(** Setting bit [i] of a bitmap. *)
Lemma bit_at_set m i j : 0 ≤ i → 0 ≤ j < 8 * zlen m →
  bit_at (alter (λ d, Z.lor d (Z.shiftl 1 (Z.land i 7))) (Z.to_nat (Z.shiftr i 3)) m) j =
  bit_at m j || bool_decide (i = j).
Proof.
  intros Hi Hj. unfold bit_at. change 7 with (Z.ones 3). rewrite Z.land_ones, Z.shiftr_div_pow2 by lia.
  change (2 ^ 3) with 8. assert (0 ≤ j mod 8 < 8) by (apply Z.mod_pos_bound; lia).
  assert (0 ≤ i mod 8 < 8) by (apply Z.mod_pos_bound; lia).
  destruct (decide (i / 8 = j / 8)) as [E|Hne].
  - rewrite E, list_lookup_alter_eq.
    destruct (lookup_lt_is_Some_2 m (Z.to_nat (j / 8))) as [d Hd]; [Z.to_euclidean_division_equations; lia|].
    rewrite Hd. simpl. rewrite Z.lor_spec, Z.shiftl_spec by lia. f_equal.
    case_bool_decide as Hij; [subst; by rewrite Z.sub_diag|].
    destruct (decide (j mod 8 < i mod 8)); [by rewrite Z.testbit_neg_r by lia|].
    change 1 with (2 ^ 0). apply Z.pow2_bits_false. Z.to_euclidean_division_equations. lia.
  - rewrite list_lookup_alter_ne, bool_decide_eq_false_2, orb_false_r; [done| |].
    + intros ->. done.
    + Z.to_euclidean_division_equations. lia.
Qed.

Lemma minimize_loop_length n : ∀ i dst src, length (minimize_loop n i dst src) = length dst.
Proof.
  induction n as [|n IH]; intros i dst [|b src]; simpl; try done. rewrite IH.
  destruct (decide (b ≠ 0)); [by rewrite length_alter|done].
Qed.

Lemma minimize_loop_ok n : ∀ i dst src j, 0 ≤ i → 0 ≤ j < 8 * zlen dst → (n ≤ length src)%nat →
  bit_at (minimize_loop n i dst src) j =
  bit_at dst j || (bool_decide (i ≤ j < i + Z.of_nat n) && negb (bool_decide (default 0 (src !! Z.to_nat (j - i)) = 0))).
Proof.
  induction n as [|n IH]; intros i dst src j Hi Hj Hn.
  { cbn [minimize_loop]. rewrite bool_decide_eq_false_2 by lia. by rewrite orb_false_r. }
  destruct src as [|b src]; [simpl in Hn; lia|]. cbn [minimize_loop]. simpl in Hn.
  set (dst' := if decide (b ≠ 0) then _ else dst).
  assert (zlen dst' = zlen dst) as Hl by (unfold dst'; case_decide; [by rewrite length_alter|done]).
  rewrite IH by lia.
  assert (bit_at dst' j = bit_at dst j || (bool_decide (i = j) && negb (bool_decide (b = 0)))) as ->.
  { unfold dst'. destruct (decide (b ≠ 0)) as [Hb|Hb].
    - rewrite bit_at_set by done. rewrite (bool_decide_eq_false_2 (b = 0)) by done. by rewrite andb_true_r.
    - rewrite (bool_decide_eq_true_2 (b = 0)) by lia. by rewrite andb_false_r, orb_false_r. }
  rewrite <- orb_assoc. f_equal. destruct (decide (i = j)) as [<-|Hne].
  - rewrite Z.sub_diag. rewrite !(bool_decide_eq_true_2 (i = i)) by done.
    rewrite (bool_decide_eq_false_2 (i + 1 ≤ i < _)), (bool_decide_eq_true_2 (i ≤ i < _)) by lia. simpl.
    by rewrite orb_false_r.
  - rewrite (bool_decide_eq_false_2 (i = j)) by done. simpl.
    destruct (decide (i + 1 ≤ j)).
    + replace (Z.to_nat (j - i)) with (S (Z.to_nat (j - (i + 1)))) by lia. simpl. f_equal. apply bool_decide_ext. lia.
    + rewrite (bool_decide_eq_false_2 (i + 1 ≤ j < _)), (bool_decide_eq_false_2 (i ≤ j < _)) by lia. done.
Qed.

(** [minimize_bits] sets bit [i] of the compact map exactly when byte [i] of
    the trace is not zero, and keeps every bit that was already set. *)
Theorem minimize_bits_correct map_size dst src i :
  0 ≤ map_size ≤ zlen src → 0 ≤ i < 8 * zlen dst →
  bit_at (minimize_bits map_size dst src) i =
  bit_at dst i || (bool_decide (i < map_size) && negb (bool_decide (default 0 (src !! Z.to_nat i) = 0))).
Proof.
  intros Hm Hi. unfold minimize_bits. rewrite minimize_loop_ok by lia. rewrite Z.sub_0_r. do 2 f_equal.
  apply bool_decide_ext. lia.
Qed.

Lemma minimize_bits_correct_witness :
  bit_at (minimize_bits 10 [0; 0] [0; 3; 0; 0; 0; 0; 0; 0; 9; 0]) 8 =
  bit_at [0; 0] 8 || (bool_decide (8 < 10) &&
    negb (bool_decide (default 0 ([0; 3; 0; 0; 0; 0; 0; 0; 9; 0] !! Z.to_nat 8) = 0))).
Proof. apply (minimize_bits_correct 10 [0; 0] [0; 3; 0; 0; 0; 0; 0; 0; 9; 0] 8); simpl; lia. Defined.
