(* ===== verification/AflQueue.v ===== *)
(** * AflQueue: the favoured entries of the AFL++ queue, AFLplusplus/src/afl-fuzz-queue.c

    [update_bitmap_score] keeps, for every byte of the coverage map, the best
    entry that hits it, and counts how many bytes each entry holds; [cull_queue]
    marks as favoured a set of these entries that covers every held byte.

    [queue_entry] and [afl_state] are the fields of [struct queue_entry] and
    [struct afl_state] (include/afl-fuzz.h) that these functions use. Entries are
    shared: the queue and the slots hold locations in [entries]. *)

From Stdlib Require Import Ascii.
From S2P Require Import Prelude AflBitmap.

(** ** Data *)

Abbreviation loc := positive.

Record queue_entry := QueueEntry {
  fname : string;
  len : Z;
  was_fuzzed : bool;
  favored : bool;
  fs_redundant : bool;
  disabled : bool;
  fuzz_level : Z;
  n_fuzz_entry : Z;
  exec_us : Z;
  exec_cksum : Z;
  trace_mini : option (list Z);
  tc_ref : Z }.

Definition set_len (v : Z) (e : queue_entry) : queue_entry :=
  QueueEntry (fname e) v (was_fuzzed e) (favored e) (fs_redundant e) (disabled e) (fuzz_level e) (n_fuzz_entry e)
    (exec_us e) (exec_cksum e) (trace_mini e) (tc_ref e).
Definition set_favored (v : bool) (e : queue_entry) : queue_entry :=
  QueueEntry (fname e) (len e) (was_fuzzed e) v (fs_redundant e) (disabled e) (fuzz_level e) (n_fuzz_entry e)
    (exec_us e) (exec_cksum e) (trace_mini e) (tc_ref e).
Definition set_fs_redundant (v : bool) (e : queue_entry) : queue_entry :=
  QueueEntry (fname e) (len e) (was_fuzzed e) (favored e) v (disabled e) (fuzz_level e) (n_fuzz_entry e)
    (exec_us e) (exec_cksum e) (trace_mini e) (tc_ref e).
Definition set_trace_mini (v : option (list Z)) (e : queue_entry) : queue_entry :=
  QueueEntry (fname e) (len e) (was_fuzzed e) (favored e) (fs_redundant e) (disabled e) (fuzz_level e) (n_fuzz_entry e)
    (exec_us e) (exec_cksum e) v (tc_ref e).
Definition set_tc_ref (v : Z) (e : queue_entry) : queue_entry :=
  QueueEntry (fname e) (len e) (was_fuzzed e) (favored e) (fs_redundant e) (disabled e) (fuzz_level e) (n_fuzz_entry e)
    (exec_us e) (exec_cksum e) (trace_mini e) v.

(** The part of the state that the functions only read. *)
Record config := Config {
  schedule : Z;
  fixed_seed : bool;
  n_fuzz : list Z;
  map_size : Z;
  non_instrumented_mode : bool }.

(** [redundant_edges] is the directory [out_dir/queue/.state/redundant_edges];
    [requests] numbers the system calls (see [Host]). *)
Record afl_state := AflState {
  settings : config;
  trace_bits : list Z;
  top_rated : list (option loc);
  queue_buf : list loc;
  entries : gmap loc queue_entry;
  score_changed : bool;
  queued_favored : Z;
  pending_favored : Z;
  map_tmp_buf : list Z;
  redundant_edges : gset string;
  requests : positive }.

Definition set_trace_bits (v : list Z) (s : afl_state) : afl_state :=
  AflState (settings s) v (top_rated s) (queue_buf s) (entries s) (score_changed s) (queued_favored s)
    (pending_favored s) (map_tmp_buf s) (redundant_edges s) (requests s).
Definition set_top_rated (v : list (option loc)) (s : afl_state) : afl_state :=
  AflState (settings s) (trace_bits s) v (queue_buf s) (entries s) (score_changed s) (queued_favored s)
    (pending_favored s) (map_tmp_buf s) (redundant_edges s) (requests s).
Definition set_entries (v : gmap loc queue_entry) (s : afl_state) : afl_state :=
  AflState (settings s) (trace_bits s) (top_rated s) (queue_buf s) v (score_changed s) (queued_favored s)
    (pending_favored s) (map_tmp_buf s) (redundant_edges s) (requests s).
Definition set_score_changed (v : bool) (s : afl_state) : afl_state :=
  AflState (settings s) (trace_bits s) (top_rated s) (queue_buf s) (entries s) v (queued_favored s)
    (pending_favored s) (map_tmp_buf s) (redundant_edges s) (requests s).
Definition set_queued_favored (v : Z) (s : afl_state) : afl_state :=
  AflState (settings s) (trace_bits s) (top_rated s) (queue_buf s) (entries s) (score_changed s) v
    (pending_favored s) (map_tmp_buf s) (redundant_edges s) (requests s).
Definition set_pending_favored (v : Z) (s : afl_state) : afl_state :=
  AflState (settings s) (trace_bits s) (top_rated s) (queue_buf s) (entries s) (score_changed s) (queued_favored s)
    v (map_tmp_buf s) (redundant_edges s) (requests s).
Definition set_map_tmp_buf (v : list Z) (s : afl_state) : afl_state :=
  AflState (settings s) (trace_bits s) (top_rated s) (queue_buf s) (entries s) (score_changed s) (queued_favored s)
    (pending_favored s) v (redundant_edges s) (requests s).
Definition set_redundant_edges (v : gset string) (s : afl_state) : afl_state :=
  AflState (settings s) (trace_bits s) (top_rated s) (queue_buf s) (entries s) (score_changed s) (queued_favored s)
    (pending_favored s) (map_tmp_buf s) v (requests s).
Definition set_requests (v : positive) (s : afl_state) : afl_state :=
  AflState (settings s) (trace_bits s) (top_rated s) (queue_buf s) (entries s) (score_changed s) (queued_favored s)
    (pending_favored s) (map_tmp_buf s) (redundant_edges s) v.

(** The power schedules, in the order of the enumeration. *)
Definition EXPLORE : Z := 0.
Definition FAST : Z := 3.
Definition RARE : Z := 7.

(** ** Accesses *)

Definition upd (f : afl_state → afl_state) : M afl_state unit := s ← get_state; put_state (f s).

(** [a[i]]. *)
Definition at_index {A} (a : list A) (i : Z) : M afl_state A :=
  match a !! Z.to_nat i with Some x => mret x | None => fail OutOfBounds end.

Definition load (p : loc) : M afl_state queue_entry :=
  s ← get_state; match entries s !! p with Some e => mret e | None => fail Dangling end.

Definition modify (p : loc) (f : queue_entry → queue_entry) : M afl_state unit :=
  e ← load p; upd (λ s, set_entries (<[p := f e]> (entries s)) s).

(** ** [update_bitmap_score] *)

(** [next_pow2] of include/alloc-inl.h. *)
Definition next_pow2 (x : Z) : Z :=
  let out := u64 (x - 1) in
  let out := Z.lor out (Z.shiftr out 1) in
  let out := Z.lor out (Z.shiftr out 2) in
  let out := Z.lor out (Z.shiftr out 4) in
  let out := Z.lor out (Z.shiftr out 8) in
  let out := Z.lor out (Z.shiftr out 16) in
  u64 (out + 1).

(** [fuzz_p2] of the entry that is scored. *)
Definition fuzz_p2 (c : config) (e : queue_entry) : M afl_state Z :=
  if decide (FAST ≤ schedule c < RARE) then mret 0
  else if decide (schedule c = RARE) then n ← at_index (n_fuzz c) (n_fuzz_entry e); mret (next_pow2 n)
  else mret (fuzz_level e).

Definition top_rated_fuzz_p2 (c : config) (e : queue_entry) : M afl_state Z :=
  if decide (FAST ≤ schedule c ≤ RARE) then n ← at_index (n_fuzz c) (n_fuzz_entry e); mret (next_pow2 n)
  else mret (fuzz_level e).

(** [q->len << 2], in 32 bits, or [q->exec_us * q->len]. *)
Definition fav_factor (c : config) (e : queue_entry) : Z :=
  if decide (RARE ≤ schedule c ∨ fixed_seed c = true) then u32 (len e * 4) else u64 (exec_us e * len e).

(** The comparisons that end in [continue], in their order; the last one repeats
    the factors of the second. *)
Definition loses (p2 fav top_p2 top_fav : Z) : bool :=
  if decide (top_p2 < p2) then true
  else if decide (p2 = top_p2 ∧ top_fav < fav) then true
  else bool_decide (top_fav < fav).

(** [if (!--top->tc_ref)]: the compact trace goes with the last slot. *)
Definition release (p : loc) : M afl_state unit :=
  _ ← modify p (λ e, set_tc_ref (u32 (tc_ref e - 1)) e);
  e ← load p;
  if decide (tc_ref e = 0) then modify p (set_trace_mini None) else mret tt.

(** [afl->top_rated[i] = q] and what follows. *)
Definition hold (q : loc) (i : Z) : M afl_state unit :=
  _ ← upd (λ s, set_top_rated (<[Z.to_nat i := Some q]> (top_rated s)) s);
  _ ← modify q (λ e, set_tc_ref (u32 (tc_ref e + 1)) e);
  e ← load q;
  _ ← (match trace_mini e with
       | Some _ => mret tt
       | None =>
           s ← get_state;
           let len := Z.shiftr (map_size (settings s)) 3 in
           modify q (set_trace_mini (Some (minimize_bits (map_size (settings s)) (replicate (Z.to_nat len) 0) (trace_bits s))))
       end);
  upd (set_score_changed true).

(** The body of the loop, for byte [i]. *)
Definition score_byte (q : loc) (p2 fav : Z) (i : Z) : M afl_state unit :=
  s ← get_state;
  b ← at_index (trace_bits s) i;
  if decide (b = 0) then mret tt else
  top ← at_index (top_rated s) i;
  keep ← (match top with
          | None => mret false
          | Some t =>
              e ← load t;
              top_p2 ← top_rated_fuzz_p2 (settings s) e;
              if loses p2 fav top_p2 (fav_factor (settings s) e) then mret true
              else _ ← release t; mret false
          end);
  if (keep : bool) then mret tt else hold q i.

Definition update_bitmap_score (q : loc) : M afl_state unit :=
  s ← get_state;
  e ← load q;
  p2 ← fuzz_p2 (settings s) e;
  for_loop (Z.to_nat (map_size (settings s))) 0 (score_byte q p2 (fav_factor (settings s) e)).

(** ** [cull_queue] *)

(** [strrchr(fname, '/') + 1]; NULL + 1 when there is no slash. *)
Fixpoint base_name (s : string) : option string :=
  match s with
  | EmptyString => None
  | String c s =>
      match base_name s with
      | Some b => Some b
      | None => if decide (c = "/"%char) then Some s else None
      end
  end.

Section Cull.
Context `{Host}.

(** A system call is made: whether it succeeds. *)
Definition request : M afl_state bool :=
  s ← get_state; _ ← put_state (set_requests (Pos.succ (requests s)) s); mret (negb (refuses (requests s))).

(** [open] with [O_EXCL] fails on a file that exists, [unlink] on one that does
    not; [PFATAL] ends the process. *)
Definition mark_as_redundant (q : loc) (state : bool) : M afl_state unit :=
  e ← load q;
  if decide (state = fs_redundant e) then mret tt else
  _ ← modify q (set_fs_redundant state);
  match base_name (fname e) with
  | None => fail NullDeref
  | Some fn =>
      ok ← request;
      s ← get_state;
      if state then
        if decide (ok = true ∧ fn ∉ redundant_edges s)
        then upd (λ s, set_redundant_edges ({[fn]} ∪ redundant_edges s) s) else fail ProcessExit
      else
        if decide (ok = true ∧ fn ∈ redundant_edges s)
        then upd (λ s, set_redundant_edges (redundant_edges s ∖ {[fn]}) s) else fail ProcessExit
  end.

(** The body of [while (j--)]: the bits of byte [j] of the compact trace leave [temp_v]. *)
Definition clear_byte (t : loc) (j : Z) : M afl_state unit :=
  e ← load t;
  match trace_mini e with
  | None => fail NullDeref
  | Some mini =>
      b ← at_index mini j;
      if decide (b = 0) then mret tt else
      s ← get_state;
      v ← at_index (map_tmp_buf s) j;
      upd (λ s, set_map_tmp_buf (<[Z.to_nat j := Z.land v (Z.lxor b 255)]> (map_tmp_buf s)) s)
  end.

(** The loop [while (j--)] from [j = n]. *)
Fixpoint clear_loop (t : loc) (n : nat) : M afl_state unit :=
  match n with
  | O => mret tt
  | S n => _ ← clear_byte t (Z.of_nat n); clear_loop t n
  end.

(** The choice for byte [i]. *)
Definition cull_byte (i : Z) : M afl_state unit :=
  s ← get_state;
  top ← at_index (top_rated s) i;
  match top with
  | None => mret tt
  | Some t =>
      v ← at_index (map_tmp_buf s) (Z.shiftr i 3);
      if decide (Z.land v (Z.shiftl 1 (Z.land i 7)) = 0) then mret tt else
      _ ← clear_loop t (Z.to_nat (Z.shiftr (map_size (settings s)) 3));
      e ← load t;
      if favored e then mret tt else
      _ ← modify t (set_favored true);
      _ ← upd (λ s, set_queued_favored (u32 (queued_favored s + 1)) s);
      if was_fuzzed e then mret tt else upd (λ s, set_pending_favored (u32 (pending_favored s + 1)) s)
  end.

(** A loop over the queue. *)
Definition over_queue (f : loc → M afl_state unit) : M afl_state unit :=
  s ← get_state;
  for_loop (length (queue_buf s)) 0 (λ i, s ← get_state; q ← at_index (queue_buf s) i; f q).

Definition cull_queue : M afl_state unit :=
  s ← get_state;
  if decide (score_changed s = false ∨ non_instrumented_mode (settings s) = true) then mret tt else
  let len := Z.shiftr (map_size (settings s)) 3 in
  _ ← upd (set_score_changed false);
  (* memset(temp_v, 255, len) *)
  _ ← (if decide (len ≤ zlen (map_tmp_buf s))
       then upd (set_map_tmp_buf (replicate (Z.to_nat len) 255 ++ drop (Z.to_nat len) (map_tmp_buf s)))
       else fail OutOfBounds);
  _ ← upd (λ s, set_pending_favored 0 (set_queued_favored 0 s));
  _ ← over_queue (λ q, modify q (set_favored false));
  _ ← for_loop (Z.to_nat (map_size (settings s))) 0 cull_byte;
  over_queue (λ q, e ← load q; if disabled e then mret tt else mark_as_redundant q (negb (favored e))).
End Cull.
