(* ===== verification/AflScore.v ===== *)
(** * AflScore: [update_bitmap_score] keeps the table of the best entries

    [scored] is the invariant of the table: the reference count of an entry is
    the number of bytes it holds, an entry has a compact trace exactly when it
    holds a byte, and the compact trace has the bits of the bytes it holds. *)

From S2P Require Import Prelude AflBitmap AflQueue.

(** ** Primitive steps *)

Lemma wp_update f s (Q : unit → afl_state → Prop) : Q tt (f s) → wp (upd f) s Q.
Proof. done. Qed.

Lemma wp_at_index {A} (a : list A) i x s (Q : A → afl_state → Prop) : a !! Z.to_nat i = Some x → Q x s → wp (at_index a i) s Q.
Proof. unfold at_index. by intros ->. Qed.

Lemma wp_load_entry p e s (Q : queue_entry → afl_state → Prop) : entries s !! p = Some e → Q e s → wp (load p) s Q.
Proof. intros He HQ. unfold load. apply wp_bind, wp_get. by rewrite He. Qed.

Lemma wp_modify_entry p f e s (Q : unit → afl_state → Prop) :
  entries s !! p = Some e → Q tt (set_entries (<[p := f e]> (entries s)) s) → wp (modify p f) s Q.
Proof. intros He HQ. unfold modify. apply wp_bind. eapply wp_load_entry; [done|]. by apply wp_update. Qed.

(** ** Reference counts *)

(** The number of bytes that [p] holds. *)
Definition count (p : loc) (tops : list (option loc)) : Z := zlen (filter (λ x, x = Some p) tops).

Lemma count_range p tops : 0 ≤ count p tops ≤ zlen tops.
Proof. unfold count. pose proof (length_filter (λ x, x = Some p) tops). lia. Qed.

Lemma count_insert p tops i (x y : option loc) : tops !! i = Some y →
  count p (<[i := x]> tops) + (if decide (y = Some p) then 1 else 0) = count p tops + (if decide (x = Some p) then 1 else 0).
Proof.
  unfold count. revert i. induction tops as [|z tops IH]; intros [|i] Hi; simplify_eq/=; rewrite !filter_cons.
  - repeat case_decide; simpl; lia.
  - specialize (IH i Hi). repeat case_decide; simpl in *; lia.
Qed.

Lemma count_pos p tops i : tops !! i = Some (Some p) → 0 < count p tops.
Proof.
  intros Hi. pose proof (count_insert p tops i None (Some p) Hi) as Hc. rewrite decide_True in Hc by done.
  rewrite decide_False in Hc by done. pose proof (count_range p (<[i := None]> tops)). lia.
Qed.

(** ** The invariant *)

(** [n] is the length of a compact trace. *)
Definition entry_ok (tops : list (option loc)) (n : Z) (p : loc) (e : queue_entry) : Prop :=
  tc_ref e = count p tops ∧
  match trace_mini e with
  | None => tc_ref e = 0
  | Some mini => tc_ref e ≠ 0 ∧ zlen mini = n ∧ ∀ i, tops !! i = Some (Some p) → bit_at mini (Z.of_nat i) = true
  end.

(** [n_fuzz] is there for the schedules that read it. *)
Definition counted_fuzz (c : config) (e : queue_entry) : Prop :=
  FAST ≤ schedule c ≤ RARE → is_Some (n_fuzz c !! Z.to_nat (n_fuzz_entry e)).

Record scored (s : afl_state) : Prop := {
  sc_size : map_size (settings s) = 8 * (map_size (settings s) / 8) ∧ 0 ≤ map_size (settings s) < 2 ^ 32;
  sc_trace : map_size (settings s) ≤ zlen (trace_bits s);
  sc_tops : zlen (top_rated s) = map_size (settings s);
  sc_entry : ∀ p e, entries s !! p = Some e →
    entry_ok (top_rated s) (map_size (settings s) / 8) p e ∧ counted_fuzz (settings s) e;
  sc_slot : ∀ (i : nat) p, top_rated s !! i = Some (Some p) → is_Some (entries s !! p) }.

(** [release] and [hold] on one entry. *)
Definition released (e : queue_entry) : queue_entry :=
  let e := set_tc_ref (u32 (tc_ref e - 1)) e in if decide (tc_ref e = 0) then set_trace_mini None e else e.

Definition held (mini : list Z) (e : queue_entry) : queue_entry :=
  let e := set_tc_ref (u32 (tc_ref e + 1)) e in if trace_mini e then e else set_trace_mini (Some mini) e.

(** The compact trace of the last run. *)
Definition compact (s : afl_state) : list Z :=
  minimize_bits (map_size (settings s)) (replicate (Z.to_nat (Z.shiftr (map_size (settings s)) 3)) 0) (trace_bits s).

Lemma wp_release p e s (Q : unit → afl_state → Prop) :
  entries s !! p = Some e → Q tt (set_entries (<[p := released e]> (entries s)) s) → wp (release p) s Q.
Proof.
  intros He HQ. unfold release. apply wp_bind. eapply wp_modify_entry; [done|]. apply wp_bind.
  eapply wp_load_entry; [apply lookup_insert_eq|]. unfold released in HQ. case_decide as Hd.
  - eapply wp_modify_entry; [apply lookup_insert_eq|]. simpl. by rewrite insert_insert_eq.
  - by apply wp_ret.
Qed.

Lemma wp_hold q i e s (Q : unit → afl_state → Prop) :
  entries s !! q = Some e →
  Q tt (set_score_changed true (set_entries (<[q := held (compact s) e]> (entries s))
         (set_top_rated (<[Z.to_nat i := Some q]> (top_rated s)) s))) → wp (hold q i) s Q.
Proof.
  intros He HQ. unfold hold. apply wp_bind, wp_update. apply wp_bind. eapply wp_modify_entry; [done|]. apply wp_bind.
  eapply wp_load_entry; [apply lookup_insert_eq|]. unfold held in HQ. simpl in *. apply wp_bind. destruct (trace_mini e).
  - by apply wp_ret, wp_update.
  - apply wp_bind, wp_get. eapply wp_modify_entry; [apply lookup_insert_eq|]. simpl. rewrite insert_insert_eq. by apply wp_update.
Qed.

Section Entry.
Context (tops : list (option loc)) (n : Z) (Hsmall : zlen tops < 2 ^ 32).

(** A byte is given up, or taken, by an entry; the others keep theirs. *)
Lemma released_ok p i e : entry_ok tops n p e → tops !! i = Some (Some p) → entry_ok (<[i := None]> tops) n p (released e).
Proof.
  intros [Hc Hm] Hi. pose proof (count_insert p tops i None _ Hi) as Hins. pose proof (count_range p tops).
  pose proof (count_pos p tops i Hi). rewrite decide_True, decide_False in Hins by done.
  assert (u32 (tc_ref e - 1) = count p (<[i := None]> tops)) as Hu by (rewrite wrap_small; lia).
  unfold released. simpl. rewrite Hu. case_decide as Hz; (split; [done|]); simpl; [done|].
  destruct (trace_mini e) as [mini|]; [|lia]. destruct Hm as (_ & Hl & Hb). split; [done|]. split; [done|].
  intros j [[-> ?]|[_ Hj]]%list_lookup_insert_Some; [naive_solver|by apply Hb].
Qed.

Lemma held_ok q i e mini :
  entry_ok tops n q e → tops !! i = Some None → zlen mini = n → bit_at mini (Z.of_nat i) = true →
  trace_mini e = None ∨ trace_mini e = Some mini → entry_ok (<[i := Some q]> tops) n q (held mini e).
Proof.
  intros [Hc Hm] Hi Hl Hb Hor. pose proof (count_insert q tops i (Some q) _ Hi) as Hins. pose proof (count_range q tops).
  rewrite decide_False in Hins by done. rewrite decide_True in Hins by done.
  pose proof (count_range q (<[i := Some q]> tops)) as Hr. rewrite length_insert in Hr.
  assert (u32 (tc_ref e + 1) = count q (<[i := Some q]> tops)) as Hu by (rewrite wrap_small; lia).
  assert (∀ j, <[i := Some q]> tops !! j = Some (Some q) → tops !! j = Some (Some q) ∨ j = i) as Hj.
  { intros j [[-> _]|[_ Hj]]%list_lookup_insert_Some; auto. }
  unfold held. simpl. destruct Hor as [Hn|Hn]; rewrite Hn in Hm |- *; (split; [done|]); simpl; rewrite ?Hn, Hu.
  - split; [lia|]. split; [done|]. intros j [Hj'| ->]%Hj; [|done]. pose proof (count_pos _ _ _ Hj'). lia.
  - destruct Hm as (_ & _ & Hm). split; [lia|]. split; [done|]. intros j [Hj'| ->]%Hj; [by apply Hm|done].
Qed.

Lemma other_ok p i x y e :
  entry_ok tops n p e → tops !! i = Some y → x ≠ Some p → y ≠ Some p → entry_ok (<[i := x]> tops) n p e.
Proof.
  intros [Hc Hm] Hi Hx Hy. pose proof (count_insert p tops i x y Hi) as Hins. rewrite !decide_False in Hins by done.
  split; [lia|]. destruct (trace_mini e) as [mini|]; [|done]. destruct Hm as (? & ? & Hb). split; [done|]. split; [done|].
  intros j [[_ [? _]]|[_ Hj]]%list_lookup_insert_Some; [done|by apply Hb].
Qed.
End Entry.

(** The byte [i] of the last run. *)
Definition trace_at (s : afl_state) (i : Z) : Z := default 0 (trace_bits s !! Z.to_nat i).

Lemma compact_length s : 0 ≤ map_size (settings s) → zlen (compact s) = map_size (settings s) / 8.
Proof.
  intros. unfold compact, minimize_bits. rewrite minimize_loop_length, length_replicate, Z.shiftr_div_pow2 by done.
  change (2 ^ 3) with 8. rewrite Z2Nat.id; [done|]. by apply Z.div_pos.
Qed.

Lemma bit_at_zeros n i : bit_at (replicate n 0) i = false.
Proof.
  unfold bit_at. destruct (replicate n 0 !! Z.to_nat (i / 8)) as [x|] eqn:Hx; simpl; [|by apply Z.testbit_0_l].
  apply lookup_replicate in Hx as [-> _]. by apply Z.testbit_0_l.
Qed.

Lemma compact_bit s i : scored s → 0 ≤ i < map_size (settings s) → bit_at (compact s) i = negb (bool_decide (trace_at s i = 0)).
Proof.
  intros [[E Hm] Ht _ _ _] Hi. pose proof (compact_length s ltac:(lia)) as Hl. unfold compact, minimize_bits in *.
  rewrite minimize_loop_length in Hl. rewrite minimize_loop_ok by (rewrite ?Hl; lia).
  rewrite bit_at_zeros, (bool_decide_eq_true_2 (0 ≤ i < _)), Z.sub_0_r by lia. done.
Qed.

(** ** One byte *)

(** The sort keys of an entry: they do not depend on what the loop changes. *)
Definition top_p2 (c : config) (e : queue_entry) : Z :=
  if decide (FAST ≤ schedule c ≤ RARE) then next_pow2 (default 0 (n_fuzz c !! Z.to_nat (n_fuzz_entry e))) else fuzz_level e.
Definition new_p2 (c : config) (e : queue_entry) : Z :=
  if decide (FAST ≤ schedule c < RARE) then 0 else top_p2 c e.

(** The new entry takes the slot of [t] when neither key is larger. *)
Definition beats (c : config) (p2 fav : Z) (t : queue_entry) : Prop := p2 ≤ top_p2 c t ∧ fav ≤ fav_factor c t.

#[export] Instance beats_dec c p2 fav t : Decision (beats c p2 fav t).
Proof. unfold beats. apply _. Defined.

Lemma loses_iff p2 fav a b : loses p2 fav a b = negb (bool_decide (p2 ≤ a ∧ fav ≤ b)).
Proof. unfold loses. repeat case_decide; repeat case_bool_decide; simpl; try done; lia. Qed.

(** What [update_bitmap_score] changes in an entry. *)
Definition key (e : queue_entry) : queue_entry := set_trace_mini None (set_tc_ref 0 e).

Lemma key_released e : key (released e) = key e.
Proof. unfold released. destruct e. simpl. by case_decide. Qed.

Lemma key_held mini e : key (held mini e) = key e.
Proof. unfold held. destruct e as [? ? ? ? ? ? ? ? ? ? [|] ?]; done. Qed.

Lemma key_keys c e e' : key e = key e' → top_p2 c e = top_p2 c e' ∧ fav_factor c e = fav_factor c e' ∧ n_fuzz_entry e = n_fuzz_entry e'.
Proof. destruct e, e'. unfold key. simpl. by intros [= <- <- <- <- <- <- <- <- <- <-]. Qed.

(** The slot of a byte after the call, from the entries before it. *)
Definition slot_after (c : config) (es : gmap loc queue_entry) (q : loc) (p2 fav b : Z) (top : option loc) : option loc :=
  if decide (b = 0) then top else
  match top ≫= (es !!.) with
  | None => Some q
  | Some t => if decide (beats c p2 fav t) then Some q else top
  end.

Lemma wp_top_p2 c e s (Q : Z → afl_state → Prop) : counted_fuzz c e → Q (top_p2 c e) s → wp (top_rated_fuzz_p2 c e) s Q.
Proof.
  unfold top_rated_fuzz_p2, top_p2, counted_fuzz. intros Hc HQ. case_decide as Hd; [|by apply wp_ret].
  destruct (Hc Hd) as [n Hn]. apply wp_bind. eapply wp_at_index; [done|]. apply wp_ret. by rewrite Hn in HQ.
Qed.

Lemma wp_new_p2 c e s (Q : Z → afl_state → Prop) : counted_fuzz c e → Q (new_p2 c e) s → wp (fuzz_p2 c e) s Q.
Proof.
  unfold fuzz_p2, new_p2, counted_fuzz. intros Hc HQ. destruct (decide (FAST ≤ schedule c < RARE)); [by apply wp_ret|].
  unfold top_p2 in HQ. destruct (decide (schedule c = RARE)) as [Hr|Hr].
  - rewrite decide_True in HQ by (unfold FAST, RARE in *; lia). destruct Hc as [n' Hn]; [unfold FAST, RARE in *; lia|].
    apply wp_bind. eapply wp_at_index; [done|]. apply wp_ret. by rewrite Hn in HQ.
  - rewrite decide_False in HQ by lia. by apply wp_ret.
Qed.

(** The compact trace of the entry is that of the last run, if it has one. *)
Definition fresh_trace (s : afl_state) (q : loc) : Prop :=
  ∃ e, entries s !! q = Some e ∧ (trace_mini e = None ∨ trace_mini e = Some (compact s)).

(** The state after the slot [i] goes to [q]. *)
Definition taken (q : loc) (i : nat) (s : afl_state) : afl_state :=
  let es := match top_rated s !! i with
            | Some (Some t) => alter released t (entries s)
            | _ => entries s
            end in
  set_score_changed true (set_entries (alter (held (compact s)) q es) (set_top_rated (<[i := Some q]> (top_rated s)) s)).

Lemma key_alter f p q (es : gmap loc queue_entry) : (∀ e, key (f e) = key e) → key <$> alter f q es !! p = key <$> es !! p.
Proof. intros Hf. rewrite lookup_alter. case_decide as Hq; [subst q|done]. destruct (es !! p); simpl; by rewrite ?Hf. Qed.

Lemma taken_keys q i s p : key <$> entries (taken q i s) !! p = key <$> entries s !! p.
Proof.
  unfold taken. simpl. rewrite key_alter by apply key_held.
  destruct (top_rated s !! i) as [[t|]|]; [|done..]. apply key_alter, key_released.
Qed.

Lemma released_trace e : trace_mini (released e) = None ∨ trace_mini (released e) = trace_mini e.
Proof. unfold released. simpl. case_decide; auto. Qed.

Lemma held_trace mini e : trace_mini e = None ∨ trace_mini e = Some mini → trace_mini (held mini e) = Some mini.
Proof. unfold held. intros [H|H]; simpl; rewrite H; [done|exact H]. Qed.

Lemma alter_present f p e (es : gmap loc queue_entry) : es !! p = Some e → alter f p es = <[p := f e]> es.
Proof.
  intros He. apply map_eq. intros j. rewrite lookup_alter, lookup_insert. case_decide; [subst j; by rewrite He|done].
Qed.

(** The slot of a byte that was hit goes to an entry with the trace of the run. *)
Lemma taken_scored q i s :
  scored s → (i < length (top_rated s))%nat → trace_at s (Z.of_nat i) ≠ 0 → fresh_trace s q →
  scored (taken q i s) ∧ fresh_trace (taken q i s) q.
Proof.
  intros Sc Hi Hb (e & He & Hor). pose proof Sc as [[E Hm] Ht Hl Hent Hslot].
  destruct (lookup_lt_is_Some_2 _ _ Hi) as [top Htop].
  assert (bit_at (compact s) (Z.of_nat i) = true) as Hbit.
  { rewrite compact_bit by (done || lia). by rewrite bool_decide_eq_false_2. }
  set (es1 := match top with Some t => alter released t (entries s) | None => entries s end).
  set (tops1 := <[i := None]> (top_rated s)).
  (* the slot is given up *)
  assert (∀ p e1, es1 !! p = Some e1 → entry_ok tops1 (map_size (settings s) / 8) p e1 ∧ counted_fuzz (settings s) e1 ∧
    ∃ e0, entries s !! p = Some e0 ∧ (e1 = e0 ∨ e1 = released e0)) as Hes1.
  { intros p e1 Hp. destruct top as [t|]; [|destruct (Hent p e1 Hp) as [H1 H2]; split; [|eauto]; by eapply other_ok].
    unfold es1 in Hp. rewrite lookup_alter in Hp. case_decide as Htp.
    - subst p. apply fmap_Some in Hp as (e0 & He0 & ->). destruct (Hent t e0 He0) as [H1 H2].
      split; [eapply released_ok; [lia|done|done]|]. split; [|eauto].
      unfold counted_fuzz in *. by rewrite (proj2 (proj2 (key_keys (settings s) _ _ (key_released e0)))).
    - destruct (Hent p e1 Hp) as [H1 H2]. split; [|eauto]. eapply other_ok; [done|done|done|]. by intros [= ->]. }
  assert (∃ e1, es1 !! q = Some e1 ∧ (trace_mini e1 = None ∨ trace_mini e1 = Some (compact s))) as (e1 & He1 & Hor1).
  { unfold es1. destruct top as [t|]; [|eauto]. rewrite lookup_alter. case_decide; [subst t; rewrite He; simpl|by eauto].
    exists (released e). split; [done|]. destruct (released_trace e) as [->| ->]; auto. }
  assert (taken q i s = set_score_changed true (set_entries (<[q := held (compact s) e1]> es1)
    (set_top_rated (<[i := Some q]> tops1) s))) as Heq.
  { unfold taken, tops1. rewrite Htop, list_insert_insert_eq. f_equal. f_equal. by apply alter_present. }
  rewrite Heq. assert (tops1 !! i = Some None) as Ht1 by (by apply list_lookup_insert_eq).
  assert (zlen tops1 < 2 ^ 32) by (unfold tops1; rewrite length_insert; lia).
  split.
  - split; simpl; [done|done|unfold tops1; by rewrite !length_insert| |].
    + intros p e2 [[<- <-]|[Hne Hp]]%lookup_insert_Some.
      * destruct (Hes1 q e1 He1) as (H1 & H2 & _). split.
        -- apply held_ok; try done. rewrite compact_length by lia. done.
        -- unfold counted_fuzz in *. by rewrite (proj2 (proj2 (key_keys (settings s) _ _ (key_held (compact s) e1)))).
      * destruct (Hes1 p e2 Hp) as (H1 & H2 & _). split; [|done]. eapply other_ok; [done|done|naive_solver|done].
    + intros j p Hj. apply list_lookup_insert_Some in Hj as [(_ & [= ->] & _)|[_ Hj]]; [rewrite lookup_insert_eq; by eexists|].
      unfold tops1 in Hj. apply list_lookup_insert_Some in Hj as [(_ & ? & _)|[_ Hj]]; [done|].
      destruct (Hslot j p Hj) as [e0 He0]. rewrite lookup_insert_is_Some. destruct (decide (q = p)); [by left|right; split; [done|]].
      unfold es1. destruct top; [|by eexists]. rewrite lookup_alter_is_Some. by eexists.
  - exists (held (compact s) e1). split; [apply lookup_insert_eq|]. right. unfold compact. simpl. by apply held_trace.
Qed.

(** ** The loop *)

(** The call after [n] bytes, from the state [s0]. *)
Record scoring (q : loc) (p2 fav : Z) (s0 : afl_state) (n : Z) (s : afl_state) : Prop := {
  sg_scored : scored s;
  sg_fresh : fresh_trace s q;
  sg_frame : ∃ tops es ch, s = set_score_changed ch (set_entries es (set_top_rated tops s0));
  sg_keys : ∀ p, key <$> entries s !! p = key <$> entries s0 !! p;
  sg_tops : ∀ i : nat, top_rated s !! i =
    if decide (Z.of_nat i < n)
    then slot_after (settings s0) (entries s0) q p2 fav (trace_at s0 (Z.of_nat i)) <$> top_rated s0 !! i
    else top_rated s0 !! i;
  sg_changed : score_changed s0 = true ∨ top_rated s ≠ top_rated s0 → score_changed s = true }.

Lemma score_byte_ok q p2 fav s0 i s :
  scored s0 → 0 ≤ i < map_size (settings s0) → scoring q p2 fav s0 i s →
  wp (score_byte q p2 fav i) s (λ _ s', scoring q p2 fav s0 (i + 1) s').
Proof.
  intros Sc0 Hi [Sc Hf (tops & es & ch & Hs) Hk Ht Hch]. pose proof Sc as [_ Hlt Hl Hent Hslot].
  assert (settings s = settings s0 ∧ trace_bits s = trace_bits s0) as [Hset Htr] by (by rewrite Hs).
  assert (Z.to_nat i < length (top_rated s))%nat as Hin by (rewrite Hset in Hl; lia).
  destruct (lookup_lt_is_Some_2 _ _ Hin) as [top Htop].
  assert (top_rated s0 !! Z.to_nat i = Some top) as Htop0.
  { pose proof (Ht (Z.to_nat i)) as Hti. rewrite decide_False in Hti by lia. by rewrite <- Hti. }
  assert (∃ b, trace_bits s0 !! Z.to_nat i = Some b) as [b Hb] by (apply lookup_lt_is_Some_2; rewrite <- Htr; rewrite Hset in Hlt; lia).
  assert (trace_at s0 i = b) as Hta by (unfold trace_at; by rewrite Hb).
  set (after := slot_after (settings s0) (entries s0) q p2 fav b top).
  (* the two ways a byte is left *)
  assert (after = top → scoring q p2 fav s0 (i + 1) s) as Hskip.
  { intros Ha. split; [done|done|by exists tops, es, ch|done| |done]. intros j. rewrite Ht.
    destruct (decide (Z.of_nat j < i)); [by rewrite decide_True by lia|]. case_decide; [|done].
    replace j with (Z.to_nat i) by lia. rewrite Htop0, Z2Nat.id, Hta by lia. simpl. by fold after; rewrite Ha. }
  assert (b ≠ 0 → after = Some q → scoring q p2 fav s0 (i + 1) (taken q (Z.to_nat i) s)) as Htake.
  { intros Hbz Ha. destruct (taken_scored q (Z.to_nat i) s Sc Hin) as [Sc' Hf']; [|done|].
    { unfold trace_at. rewrite Htr, Z2Nat.id by lia. rewrite Hb. done. }
    split; [done|done| | | |].
    - exists (top_rated (taken q (Z.to_nat i) s)), (entries (taken q (Z.to_nat i) s)), true. by rewrite Hs.
    - intros p. rewrite taken_keys. apply Hk.
    - intros j. unfold taken. simpl. destruct (decide (j = Z.to_nat i)) as [->|Hj].
      + rewrite list_lookup_insert_eq by done. rewrite decide_True by lia. rewrite Htop0, Z2Nat.id, Hta by lia. simpl. by fold after; rewrite Ha.
      + rewrite list_lookup_insert_ne by done. rewrite Ht. destruct (decide (Z.of_nat j < i)); [by rewrite decide_True by lia|by rewrite decide_False by lia].
    - done. }
  unfold score_byte. apply wp_bind, wp_get. apply wp_bind. eapply wp_at_index; [by rewrite Htr|].
  destruct (decide (b = 0)) as [Hbz|Hbz].
  { apply wp_ret, Hskip. unfold after, slot_after. by rewrite decide_True. }
  apply wp_bind. eapply wp_at_index; [done|]. destruct Hf as (eq & Heq & Hor). apply wp_bind.
  destruct top as [t|].
  - destruct (Hslot _ _ Htop) as [e He]. pose proof (Hk t) as Hkt. rewrite He in Hkt. simpl in Hkt.
    symmetry in Hkt. apply fmap_Some in Hkt as (e0 & He0 & Hke). destruct (key_keys (settings s0) _ _ Hke) as (K1 & K2 & _).
    assert (after = if decide (beats (settings s0) p2 fav e0) then Some q else Some t) as Ha.
    { unfold after, slot_after. rewrite decide_False by done. simpl. by rewrite He0. }
    apply wp_bind. eapply wp_load_entry; [done|]. apply wp_bind. apply wp_top_p2; [by apply Hent with t|].
    rewrite loses_iff, Hset, K1, K2. case_bool_decide as Hbeat; simpl.
    + apply wp_bind. eapply wp_release; [done|]. apply wp_ret. rewrite decide_True in Ha by done.
      assert (∃ e1, <[t := released e]> (entries s) !! q = Some e1) as [e1 He1].
      { destruct (decide (t = q)) as [->|]; [rewrite lookup_insert_eq; eauto|rewrite lookup_insert_ne by done; eauto]. }
      eapply wp_hold; [exact He1|]. specialize (Htake Hbz Ha). unfold taken in Htake. rewrite Htop in Htake.
      rewrite (alter_present _ _ _ _ He) in Htake. by rewrite (alter_present _ _ _ _ He1) in Htake.
    + apply wp_ret. rewrite decide_False in Ha by done. by apply wp_ret, Hskip.
  - apply wp_ret. eapply wp_hold; [exact Heq|]. assert (after = Some q) as Ha by (unfold after, slot_after; by rewrite decide_False).
    specialize (Htake Hbz Ha). unfold taken in Htake. rewrite Htop in Htake. by rewrite (alter_present _ _ _ _ Heq) in Htake.
Qed.

(** The loop, over all bytes. *)
Lemma update_bitmap_score_ok s q e :
  scored s → entries s !! q = Some e → trace_mini e = None ∨ trace_mini e = Some (compact s) →
  wp (update_bitmap_score q) s (λ _ s',
    scoring q (new_p2 (settings s) e) (fav_factor (settings s) e) s (0 + Z.of_nat (Z.to_nat (map_size (settings s)))) s').
Proof.
  intros Sc He Hor. pose proof Sc as [[_ Hm] _ Hl Hent _]. set (p2 := new_p2 _ _). set (fav := fav_factor _ _).
  unfold update_bitmap_score. apply wp_bind, wp_get. apply wp_bind. eapply wp_load_entry; [done|].
  apply wp_bind. apply wp_new_p2; [by apply Hent with q|].
  apply (wp_for_loop (scoring q p2 fav s)).
  - split; [done|by exists e|by exists (top_rated s), (entries s), (score_changed s); destruct s|done| |].
    + intros i. by rewrite decide_False by lia.
    + intros [?|?]; [done|congruence].
  - intros j s1 Hj Hs1. apply score_byte_ok; [done|lia|done].
Qed.

(** C5. After [update_bitmap_score] the table is again consistent (reference
    counts, compact traces) and every byte that the run hit belongs to the new
    entry, unless its earlier owner has a smaller key; no other byte changes its
    owner, no entry changes but in its count and its compact trace. *)
Theorem update_bitmap_score_correct s q e :
  scored s → entries s !! q = Some e → trace_mini e = None ∨ trace_mini e = Some (compact s) →
  ∃ s', update_bitmap_score q s = Ret (tt, s') ∧ scored s' ∧
    (∀ i : nat, top_rated s' !! i =
       slot_after (settings s) (entries s) q (new_p2 (settings s) e) (fav_factor (settings s) e) (trace_at s (Z.of_nat i))
         <$> top_rated s !! i) ∧
    (∀ p, key <$> entries s' !! p = key <$> entries s !! p) ∧
    (score_changed s' = false → top_rated s' = top_rated s) ∧
    settings s' = settings s ∧ trace_bits s' = trace_bits s ∧ queue_buf s' = queue_buf s.
Proof.
  intros Sc He Hor. pose proof Sc as [[_ Hm] _ Hl _ _].
  pose proof (update_bitmap_score_ok s q e Sc He Hor) as Hw.
  apply wp_Ret in Hw as ([] & s' & Hrun & [Sc' _ (tops & es & ch & Hs') Hk Ht Hch]).
  exists s'. split; [done|]. split; [done|]. split; [|split; [done|split; [|by rewrite Hs']]].
  - intros i. rewrite Ht. case_decide; [done|]. by rewrite lookup_ge_None_2 by lia.
  - intros Hsc. destruct (decide (top_rated s' = top_rated s)) as [|Hne]; [done|]. rewrite Hch in Hsc by auto. done.
Qed.

(** ** Witness *)

(** Two entries of sixteen bytes; the second, shorter one is scored and takes a byte. *)
Definition sample_entry (fn : string) (l : Z) (mini : option (list Z)) (refs : Z) : queue_entry :=
  QueueEntry fn l false false false false 0 0 5 0 mini refs.

Definition sample_entries : gmap loc queue_entry :=
  <[1%positive := sample_entry "queue/id:0" 10 (Some [3; 0]) 2]> {[2%positive := sample_entry "queue/id:1" 4 None 0]}.

Definition sample_state : afl_state :=
  AflState (Config EXPLORE false [] 16 false) [0; 3; 0; 0; 0; 0; 0; 0; 0; 1; 0; 0; 0; 0; 0; 0]
    [Some 1%positive; Some 1%positive; None; None; None; None; None; None; None; None; None; None; None; None; None; None]
    [1%positive; 2%positive]
    sample_entries
    false 0 0 (replicate 16 0) ∅ 1.

Lemma sample_scored : scored sample_state.
Proof.
  split; [split; [reflexivity|simpl; lia]|simpl; lia|reflexivity| |].
  - intros p e. change (entries sample_state) with sample_entries. unfold sample_entries.
    intros [[<- <-]|[_ [<- <-]%lookup_singleton_Some]]%lookup_insert_Some;
      (split; [split; [reflexivity|]|unfold counted_fuzz, FAST, RARE; simpl; unfold EXPLORE; lia]).
    + split; [done|]. split; [done|]. intros [|[|i]]; [done|done|]. intros Hi.
      do 14 (destruct i as [|i]; [done|]). done.
    + done.
  - intros [|[|i]] p Hi; [by injection Hi as <-; eexists|by injection Hi as <-; eexists|].
    do 14 (destruct i as [|i]; [done|]). done.
Qed.

Lemma update_bitmap_score_correct_witness :
  ∃ s', update_bitmap_score 2 sample_state = Ret (tt, s') ∧ scored s' ∧
    top_rated s' = [Some 1%positive; Some 2%positive; None; None; None; None; None; None; None; Some 2%positive; None; None; None;
                    None; None; None].
Proof.
  destruct (update_bitmap_score_correct sample_state 2 (sample_entry "queue/id:1" 4 None 0) sample_scored eq_refl (or_introl eq_refl))
    as (s' & Hrun & Sc & _). exists s'. split; [exact Hrun|]. split; [exact Sc|]. vm_compute in Hrun. by injection Hrun as <-.
Defined.
