(* ===== verification/AflCull.v ===== *)
(** * AflCull: [cull_queue] covers the map with few entries

    The favoured entries are chosen greedily, in the order of the bytes. *)

From S2P Require Import Prelude AflBitmap AflQueue AflScore.

(** ** Clearing the bits of a compact trace *)

Definition mini (s : afl_state) (p : loc) : list Z := default [] (entries s !! p ≫= trace_mini).

(** The bit of byte [i] as [cull_queue] tests it. *)
Lemma bit_test m i v : 0 ≤ i → m !! Z.to_nat (i / 8) = Some v →
  Z.land v (Z.shiftl 1 (Z.land i 7)) = 0 ↔ bit_at m i = false.
Proof.
  intros Hi Hv. unfold bit_at. rewrite Hv. simpl. change 7 with (Z.ones 3). rewrite Z.land_ones by done. change (2 ^ 3) with 8.
  assert (0 ≤ i mod 8) by (apply Z.mod_pos_bound; lia). rewrite Z.shiftl_1_l. split.
  - intros Hz. pose proof (Z.land_spec v (2 ^ (i mod 8)) (i mod 8)) as Hs. rewrite Hz, Z.testbit_0_l, Z.pow2_bits_true, andb_true_r in Hs by done. done.
  - intros Hb. apply Z.bits_inj'. intros k Hk. rewrite Z.land_spec, Z.pow2_bits_eqb, Z.testbit_0_l by done.
    destruct (Z.eqb_spec (i mod 8) k) as [<-|]; [by rewrite Hb|apply andb_false_r].
Qed.

Lemma bit_at_insert m (k : nat) x i : 0 ≤ i → (k < length m)%nat →
  bit_at (<[k := x]> m) i = if decide (i / 8 = Z.of_nat k) then Z.testbit x (i mod 8) else bit_at m i.
Proof.
  intros Hi Hk. unfold bit_at. pose proof (Z.div_pos i 8 Hi ltac:(lia)). case_decide as Hd.
  - rewrite Hd, Nat2Z.id, list_lookup_insert_eq by done. done.
  - rewrite list_lookup_insert_ne by lia. done.
Qed.

(** The state after [clear_loop t n]. *)
Definition cleared (t : loc) (n : nat) (s s' : afl_state) : Prop :=
  ∃ buf, s' = set_map_tmp_buf buf s ∧ length buf = length (map_tmp_buf s) ∧
    ∀ i, 0 ≤ i → bit_at buf i = bit_at (map_tmp_buf s) i && negb (bool_decide (i / 8 < Z.of_nat n) && bit_at (mini s t) i).

Lemma clear_loop_ok t n : ∀ s e m,
  entries s !! t = Some e → trace_mini e = Some m → (n ≤ length m)%nat → (n ≤ length (map_tmp_buf s))%nat →
  wp (clear_loop t n) s (λ _ s', cleared t n s s').
Proof.
  induction n as [|n IH]; intros s e m He Hm Hl Hb; simpl.
  { apply wp_ret. exists (map_tmp_buf s). split; [by destruct s|]. split; [done|]. intros i Hi.
    rewrite bool_decide_eq_false_2; [by rewrite andb_true_r|]. pose proof (Z.div_pos i 8 Hi). lia. }
  assert (mini s t = m) as Hmini by (unfold mini; rewrite He; simpl; by rewrite Hm).
  destruct (lookup_lt_is_Some_2 m n ltac:(lia)) as [b Hbn]. destruct (lookup_lt_is_Some_2 (map_tmp_buf s) n ltac:(lia)) as [v Hv].
  assert (wp (clear_byte t (Z.of_nat n)) s (λ _ s1, ∃ buf, s1 = set_map_tmp_buf buf s ∧ length buf = length (map_tmp_buf s) ∧
    ∀ i, 0 ≤ i → bit_at buf i = bit_at (map_tmp_buf s) i && negb (bool_decide (i / 8 = Z.of_nat n) && bit_at m i))) as Hone.
  { unfold clear_byte. apply wp_bind. eapply wp_load_entry; [done|]. rewrite Hm. apply wp_bind.
    eapply wp_at_index; [by rewrite Nat2Z.id|]. case_decide as Hz.
    - apply wp_ret. exists (map_tmp_buf s). split; [by destruct s|]. split; [done|]. intros i Hi.
      case_bool_decide as Hd; simpl; [|by rewrite andb_true_r]. unfold bit_at at 3. rewrite Hd, Nat2Z.id, Hbn, Hz. simpl.
      by rewrite Z.testbit_0_l, andb_true_r.
    - apply wp_bind, wp_get. apply wp_bind. eapply wp_at_index; [by rewrite Nat2Z.id|]. apply wp_update.
      eexists. split; [done|]. rewrite Nat2Z.id. split; [by rewrite length_insert|]. intros i Hi.
      rewrite bit_at_insert by (done || lia). case_decide as Hd.
      + rewrite bool_decide_eq_true_2 by done. unfold bit_at. rewrite Hd, Nat2Z.id, Hbn, Hv. simpl.
        rewrite Z.land_spec, Z.lxor_spec. change 255 with (Z.ones 8). assert (0 ≤ i mod 8 < 8) by (apply Z.mod_pos_bound; lia).
        rewrite Z.ones_spec_low by lia. by rewrite xorb_true_r.
      + rewrite bool_decide_eq_false_2 by done. by rewrite andb_true_r. }
  apply wp_bind. eapply wp_mono; [exact Hone|]. intros [] s1 (buf & -> & Hlb & Hbit).
  eapply wp_mono; [apply (IH (set_map_tmp_buf buf s) e m); try done; simpl; lia|].
  intros [] s2 (buf2 & -> & Hlb2 & Hbit2). simpl in *. exists buf2. split; [done|]. split; [congruence|]. intros i Hi.
  rewrite Hbit2, Hbit by done. change (mini (set_map_tmp_buf buf s) t) with (mini s t). rewrite Hmini, <- andb_assoc. f_equal.
  repeat case_bool_decide; try lia; by destruct (bit_at m i).
Qed.

(** ** Loops over the queue *)

Lemma wp_over_queue (I : nat → afl_state → Prop) f s :
  I 0%nat s → (∀ k q s', queue_buf s !! k = Some q → I k s' → queue_buf s' = queue_buf s ∧ wp (f q) s' (λ _ s'', I (S k) s'')) →
  wp (over_queue f) s (λ _ s', I (length (queue_buf s)) s').
Proof.
  intros H0 Hstep. unfold over_queue. apply wp_bind, wp_get. set (J := λ (i : Z) s', I (Z.to_nat i) s').
  eapply wp_mono; [apply (wp_for_loop J (length (queue_buf s)) 0)|].
  - exact H0.
  - intros j s' Hj HI. destruct (lookup_lt_is_Some_2 (queue_buf s) (Z.to_nat j) ltac:(lia)) as [q Hq].
    destruct (Hstep _ _ _ Hq HI) as [Hqb Hw]. apply wp_bind, wp_get. apply wp_bind.
    eapply wp_at_index; [by rewrite Hqb|]. eapply wp_mono; [exact Hw|]. intros [] s''. unfold J.
    by replace (Z.to_nat (j + 1)) with (S (Z.to_nat j)) by lia.
  - intros [] s'. unfold J. by rewrite Z.add_0_l, Nat2Z.id.
Qed.

(** An entry of the queue that [f] changes. *)
Definition on_queue (f : queue_entry → queue_entry) (qs : list loc) (es : gmap loc queue_entry) : gmap loc queue_entry :=
  foldl (λ es q, alter f q es) es qs.

Lemma lookup_on_queue f qs : ∀ es p, NoDup qs →
  on_queue f qs es !! p = if decide (p ∈ qs) then f <$> es !! p else es !! p.
Proof.
  induction qs as [|q qs IH]; intros es p Hnd; simpl.
  { done. }
  apply NoDup_cons in Hnd as [Hq Hnd]. rewrite IH, lookup_alter by done.
  repeat case_decide; subst; try done; set_solver.
Qed.

Lemma reset_favored_ok s :
  (∀ p, p ∈ queue_buf s → is_Some (entries s !! p)) →
  wp (over_queue (λ q, modify q (set_favored false))) s
    (λ _ s', s' = set_entries (on_queue (set_favored false) (queue_buf s) (entries s)) s).
Proof.
  intros Hin. set (I := λ k s', s' = set_entries (on_queue (set_favored false) (take k (queue_buf s)) (entries s)) s).
  eapply wp_mono; [apply (wp_over_queue I)|].
  - unfold I. simpl. by destruct s.
  - intros k q s' Hq ->. split; [done|]. assert (q ∈ queue_buf s) as [e He]%Hin by (by eapply list_elem_of_lookup_2).
    assert (∀ qs es, is_Some (es !! q) → is_Some (on_queue (set_favored false) qs es !! q)) as Hsome.
    { induction qs as [|q' qs IH]; intros es Hes; simpl; [done|]. apply IH. by apply lookup_alter_is_Some. }
    destruct (Hsome (take k (queue_buf s)) (entries s)) as [e' He']; [by eexists|].
    eapply wp_modify_entry; [exact He'|]. unfold I. simpl.
    transitivity (set_entries (alter (set_favored false) q (on_queue (set_favored false) (take k (queue_buf s)) (entries s))) s).
    { by rewrite (alter_present _ _ _ _ He'). }
    unfold on_queue. erewrite take_S_r by done. by rewrite foldl_app.
  - intros [] s' ->. by rewrite firstn_all.
Qed.

(** ** The choice *)

(** What [cull_queue] changes in an entry. *)
Definition ekey (e : queue_entry) : queue_entry := set_fs_redundant false (set_favored false e).

(** The queue has every entry once, and the owners of the bytes are in it. *)
Record queue_ok (s : afl_state) : Prop := {
  qo_NoDup : NoDup (queue_buf s);
  qo_entries : ∀ p, p ∈ queue_buf s → is_Some (entries s !! p);
  qo_slots : ∀ (i : nat) p, top_rated s !! i = Some (Some p) → p ∈ queue_buf s;
  qo_small : zlen (queue_buf s) < 2 ^ 32;
  qo_tmp : map_size (settings s) / 8 ≤ zlen (map_tmp_buf s) }.

Definition has_bit (s : afl_state) (i : Z) (p : loc) : bool := bit_at (mini s p) i.

(** Entries that [cull_queue] has not fuzzed yet. *)
Definition unfuzzed (s : afl_state) (p : loc) : Prop := (was_fuzzed <$> entries s !! p) ≠ Some true.

#[export] Instance unfuzzed_dec s p : Decision (unfuzzed s p).
Proof. unfold unfuzzed. apply _. Defined.

(** [chosen] covers the bytes before [i], each of its entries for a byte that the
    earlier ones leave out. *)
Record cover (s : afl_state) (i : Z) (chosen : list loc) : Prop := {
  cv_NoDup : NoDup chosen;
  cv_covers : ∀ (j : nat) p, Z.of_nat j < i → top_rated s !! j = Some (Some p) → ∃ r, r ∈ chosen ∧ has_bit s (Z.of_nat j) r = true;
  cv_needed : ∀ l1 p l2, chosen = l1 ++ p :: l2 →
    ∃ j : nat, Z.of_nat j < i ∧ top_rated s !! j = Some (Some p) ∧ ∀ r, r ∈ l1 → has_bit s (Z.of_nat j) r = false }.

(** The state [s] after the bytes before [i], from [s0]. *)
Record culling (s0 : afl_state) (i : Z) (chosen : list loc) (s : afl_state) : Prop := {
  cu_cover : cover s0 i chosen;
  cu_temp : ∀ j, 0 ≤ j < map_size (settings s0) →
    bit_at (map_tmp_buf s) j = negb (existsb (has_bit s0 j) chosen);
  cu_queued : queued_favored s = zlen chosen;
  cu_pending : pending_favored s = zlen (filter (unfuzzed s0) chosen);
  cu_entries : ∀ p, entries s !! p = (if decide (p ∈ chosen) then set_favored true else id) <$> entries s0 !! p;
  cu_frame : ∃ buf es nq np, s = set_pending_favored np (set_queued_favored nq (set_map_tmp_buf buf (set_entries es s0))) ∧
    length buf = length (map_tmp_buf s0) }.

Lemma existsb_false {A} (f : A → bool) l : existsb f l = false ↔ ∀ x, x ∈ l → f x = false.
Proof.
  induction l as [|y l IH]; simpl; [split; [intros _ x Hx; by apply not_elem_of_nil in Hx|done]|].
  rewrite orb_false_iff, IH. split.
  - intros [Hy Hl] x [->|Hx]%elem_of_cons; auto.
  - intros H. split; [apply H; left|intros x Hx; apply H; by right].
Qed.

Lemma existsb_true {A} (f : A → bool) l : existsb f l = true ↔ ∃ x, x ∈ l ∧ f x = true.
Proof. rewrite existsb_exists. split; intros (x & Hx & Hf); exists x; (split; [by apply list_elem_of_In|done]). Qed.

(** A chosen entry holds a byte: it is in the queue. *)
Lemma cover_elem s i chosen p : cover s i chosen → p ∈ chosen → ∃ j : nat, top_rated s !! j = Some (Some p).
Proof.
  intros C Hp. apply list_elem_of_split in Hp as (l1 & l2 & ->). destruct (cv_needed _ _ _ C l1 p l2 eq_refl) as (j & _ & Hj & _). by exists j.
Qed.

Lemma cover_length s i chosen : queue_ok s → cover s i chosen → (length chosen ≤ length (queue_buf s))%nat.
Proof.
  intros Q C. apply submseteq_length, NoDup_submseteq; [apply C|]. intros p Hp.
  destruct (cover_elem _ _ _ _ C Hp) as [j Hj]. by eapply qo_slots.
Qed.

(** The next byte: it is covered already, or its owner is chosen. *)
Lemma cover_skip s i chosen : cover s (Z.of_nat i) chosen →
  (∀ p, top_rated s !! i = Some (Some p) → existsb (has_bit s (Z.of_nat i)) chosen = true) → cover s (Z.of_nat i + 1) chosen.
Proof.
  intros [C1 C2 C3] Hi. split; [done| |].
  - intros j p Hj Hp. destruct (decide (j = i)) as [->|]; [by apply existsb_true, (Hi p)|]. apply (C2 j p); [lia|done].
  - intros l1 p l2 E. destruct (C3 l1 p l2 E) as (j & Hj & ?). exists j. split; [lia|done].
Qed.

Lemma cover_add s i chosen p : cover s (Z.of_nat i) chosen → top_rated s !! i = Some (Some p) →
  has_bit s (Z.of_nat i) p = true → existsb (has_bit s (Z.of_nat i)) chosen = false → cover s (Z.of_nat i + 1) (chosen ++ [p]).
Proof.
  intros [C1 C2 C3] Hp Hbit Hne. rewrite existsb_false in Hne. split.
  - apply NoDup_app. split; [done|]. split; [|apply NoDup_singleton]. intros r Hr ->%list_elem_of_singleton. specialize (Hne p Hr). congruence.
  - intros j p' Hj Hp'. destruct (decide (j = i)) as [->|].
    + exists p. split; [apply elem_of_app; right; by apply list_elem_of_singleton|done].
    + destruct (C2 j p') as (r & Hr & ?); [lia|done|]. exists r. split; [apply elem_of_app; by left|done].
  - intros l1 p' l2 E. destruct l2 as [|x l2 _] using rev_ind.
    + apply app_inj_tail in E as [<- <-]. exists i. split; [lia|]. by split.
    + rewrite app_comm_cons, app_assoc in E. apply app_inj_tail in E as [-> _].
      destruct (C3 l1 p' l2 eq_refl) as (j & Hj & ?). exists j. split; [lia|done].
Qed.

Lemma owner_ok s (i : nat) p : scored s → top_rated s !! i = Some (Some p) →
  ∃ e m, entries s !! p = Some e ∧ trace_mini e = Some m ∧ zlen m = map_size (settings s) / 8 ∧ has_bit s (Z.of_nat i) p = true.
Proof.
  intros Sc Hp. destruct (sc_slot _ Sc i p Hp) as [e He]. destruct (sc_entry _ Sc p e He) as [[Hc Hm] _].
  pose proof (count_pos _ _ _ Hp). destruct (trace_mini e) as [m|] eqn:Em; [|lia]. destruct Hm as (_ & Hl & Hb).
  exists e, m. split; [done|]. split; [done|]. split; [done|]. unfold has_bit, mini. rewrite He. simpl. rewrite Em. by apply Hb.
Qed.

(** Nothing is left to cover at [i]. *)
Lemma culling_skip s0 i chosen s :
  culling s0 i chosen s → 0 ≤ i →
  (∀ p, top_rated s0 !! Z.to_nat i = Some (Some p) → existsb (has_bit s0 i) chosen = true) → culling s0 (i + 1) chosen s.
Proof.
  intros [C1 C2 C3 C4 C5 C6] Hi Hp. assert (∃ k, i = Z.of_nat k) as [k ->] by (exists (Z.to_nat i); lia).
  rewrite Nat2Z.id in Hp. split; try done. by apply cover_skip.
Qed.

(** The owner of byte [i] is chosen. *)
Lemma culling_add s0 i chosen s s1 p e n :
  scored s0 → queue_ok s0 → culling s0 i chosen s → 0 ≤ i → top_rated s0 !! Z.to_nat i = Some (Some p) →
  existsb (has_bit s0 i) chosen = false → entries s0 !! p = Some e → cleared p n s s1 → Z.of_nat n = map_size (settings s0) / 8 →
  culling s0 (i + 1) (chosen ++ [p])
    (let s2 := set_queued_favored (u32 (queued_favored s + 1)) (set_entries (<[p := set_favored true e]> (entries s)) s1) in
     if was_fuzzed e then s2 else set_pending_favored (u32 (pending_favored s + 1)) s2).
Proof.
  intros Sc Q C Hi Hp Hno He (buf & -> & Hlb & Hbit) Hn.
  pose proof C as [C1 C2 C3 C4 C5 (buf0 & es & nq & np & Hs & Hl0)].
  destruct (owner_ok _ _ _ Sc Hp) as (e' & m & He' & Hm & Hlm & Hhas).
  assert (e' = e) as -> by congruence. rewrite Z2Nat.id in Hhas by done.
  assert (cover s0 (i + 1) (chosen ++ [p])) as C1'.
  { assert (∃ k, i = Z.of_nat k) as [k ->] by (exists (Z.to_nat i); lia). rewrite Nat2Z.id in Hp. by apply cover_add. }
  pose proof (cover_length _ _ _ Q C1') as Hlen. rewrite length_app in Hlen. simpl in Hlen. pose proof (qo_small _ Q) as Hsm.
  pose proof (length_filter (unfuzzed s0) chosen) as Hfl.
  assert (p ∉ chosen) as Hnew.
  { intros Hin. rewrite existsb_false in Hno. specialize (Hno p Hin). congruence. }
  assert (mini s p = mini s0 p) as Hmini by (unfold mini; rewrite C5, decide_False by done; by rewrite He).
  cbv zeta. split.
  - done.
  - intros j Hj. rewrite existsb_app. simpl. rewrite orb_false_r, negb_orb, <- C2 by done.
    assert (bit_at buf j = bit_at (map_tmp_buf s) j && negb (has_bit s0 j p)) as <-; [|by destruct (was_fuzzed e)].
    rewrite Hbit by lia. rewrite bool_decide_eq_true_2; [by rewrite Hmini|]. rewrite Hn.
    destruct (sc_size _ Sc) as [E _]. apply Z.div_lt_upper_bound; lia.
  - transitivity (u32 (queued_favored s + 1)); [by destruct (was_fuzzed e)|]. rewrite C3, length_app, wrap_small; simpl; lia.
  - rewrite filter_app, length_app, Nat2Z.inj_add. assert (unfuzzed s0 p ↔ was_fuzzed e = false) as Hu.
    { unfold unfuzzed. rewrite He. simpl. destruct (was_fuzzed e); naive_solver. }
    destruct (was_fuzzed e) eqn:Hw.
    + rewrite filter_cons_False by naive_solver. simpl. lia.
    + rewrite filter_cons_True by (by apply Hu). simpl. rewrite C4, wrap_small; lia.
  - intros p'. transitivity (<[p := set_favored true e]> (entries s) !! p'); [by destruct (was_fuzzed e)|].
    rewrite lookup_insert. destruct (decide (p = p')) as [<-|Hne].
    + rewrite decide_True by (apply elem_of_app; right; by apply list_elem_of_singleton). by rewrite He.
    + rewrite C5. destruct (decide (p' ∈ chosen)).
      * rewrite decide_True; [done|]. apply elem_of_app. by left.
      * rewrite decide_False; [done|]. intros [?|?%list_elem_of_singleton]%elem_of_app; congruence.
  - subst s. destruct (was_fuzzed e).
    + exists buf, (<[p := set_favored true e]> es), (u32 (nq + 1)), np. split; [done|]. rewrite Hlb. exact Hl0.
    + exists buf, (<[p := set_favored true e]> es), (u32 (nq + 1)), (u32 (np + 1)). split; [done|]. rewrite Hlb. exact Hl0.
Qed.

Lemma cull_byte_ok s0 i chosen s :
  scored s0 → queue_ok s0 → (∀ p e, p ∈ queue_buf s0 → entries s0 !! p = Some e → favored e = false) →
  0 ≤ i < map_size (settings s0) → culling s0 i chosen s →
  wp (cull_byte i) s (λ _ s', ∃ chosen', culling s0 (i + 1) chosen' s').
Proof.
  intros Sc Q Hfav Hi C. pose proof C as [C1 C2 _ _ C5 (buf & es & nq & np & Hs & Hlb)].
  destruct (sc_size _ Sc) as [E Hm]. pose proof (qo_tmp _ Q) as Htmp.
  assert (settings s = settings s0 ∧ top_rated s = top_rated s0 ∧ length (map_tmp_buf s) = length (map_tmp_buf s0)) as (Hset & Htops & Hlen).
  { rewrite Hs. split_and!; done || exact Hlb. }
  destruct (lookup_lt_is_Some_2 (top_rated s0) (Z.to_nat i)) as [top Htop]; [pose proof (sc_tops _ Sc); lia|].
  unfold cull_byte. apply wp_bind, wp_get. apply wp_bind. eapply wp_at_index; [by rewrite Htops|].
  destruct top as [t|].
  2: { apply wp_ret. exists chosen. apply culling_skip; [done|lia|]. intros p Hp. congruence. }
  destruct (owner_ok _ _ _ Sc Htop) as (e & m & He & Hm' & Hlm & _).
  assert (0 ≤ i / 8 < map_size (settings s0) / 8) as Hd by (split; [apply Z.div_pos; lia|apply Z.div_lt_upper_bound; lia]).
  destruct (lookup_lt_is_Some_2 (map_tmp_buf s) (Z.to_nat (i / 8))) as [v Hv]; [lia|].
  assert (∀ x, Z.shiftr x 3 = x / 8) as Hshift by (intros x; by rewrite Z.shiftr_div_pow2).
  apply wp_bind. eapply wp_at_index; [by rewrite Hshift|]. pose proof (bit_test (map_tmp_buf s) i v ltac:(lia) Hv) as Hbt.
  rewrite C2 in Hbt by lia. destruct (decide (Z.land v (Z.shiftl 1 (Z.land i 7)) = 0)) as [Hz|Hz].
  { apply wp_ret. exists chosen. apply culling_skip; [done|lia|]. intros _ _. apply Hbt in Hz. by apply negb_false_iff in Hz. }
  assert (existsb (has_bit s0 i) chosen = false) as Hno.
  { destruct (existsb _ chosen); [|done]. exfalso. apply Hz. by apply Hbt. }
  assert (t ∉ chosen) as Hnew.
  { intros Hin. rewrite existsb_false in Hno. destruct (owner_ok _ _ _ Sc Htop) as (? & ? & _ & _ & _ & Hh).
    rewrite Z2Nat.id in Hh by lia. specialize (Hno t Hin). congruence. }
  assert (entries s !! t = Some e) as Hes by (rewrite C5, decide_False, He by done; done).
  rewrite Hset, Hshift. apply wp_bind. eapply wp_mono; [eapply clear_loop_ok; [exact Hes|exact Hm'|lia|lia]|].
  intros [] s1 Hcl. pose proof Hcl as (buf1 & -> & _). apply wp_bind. eapply wp_load_entry; [exact Hes|].
  rewrite (Hfav t e) by (done || by eapply qo_slots).
  apply wp_bind. eapply wp_modify_entry; [exact Hes|]. apply wp_bind, wp_update.
  pose proof (culling_add s0 i chosen s _ t e _ Sc Q C ltac:(lia) Htop Hno He Hcl ltac:(lia)) as Hadd. cbv zeta in Hadd.
  destruct (was_fuzzed e); [apply wp_ret|apply wp_update]; by exists (chosen ++ [t]).
Qed.

(** ** The marks in the file system *)

(** A mark file exists exactly for the enabled entries that are marked. *)
Record marks_ok (s : afl_state) : Prop := {
  mk_name : ∀ p e, p ∈ queue_buf s → entries s !! p = Some e → disabled e = false →
    ∃ fn, base_name (fname e) = Some fn ∧ (fs_redundant e = true ↔ fn ∈ redundant_edges s);
  mk_inj : ∀ p q e e', p ∈ queue_buf s → q ∈ queue_buf s → entries s !! p = Some e → entries s !! q = Some e' →
    disabled e = false → disabled e' = false → base_name (fname e) = base_name (fname e') → p = q }.

(** Marks depend on names only: [es] has the entries of [s], up to what is not a name or a mark. *)
Lemma marks_ok_entries s es red :
  marks_ok s →
  (∀ p e', es !! p = Some e' → ∃ e, entries s !! p = Some e ∧ fname e' = fname e ∧ disabled e' = disabled e ∧
     ∀ fn, p ∈ queue_buf s → disabled e = false → base_name (fname e) = Some fn → (fs_redundant e' = true ↔ fn ∈ red)) →
  ∀ s', queue_buf s' = queue_buf s → entries s' = es → redundant_edges s' = red → marks_ok s'.
Proof.
  intros [M1 M2] Hes s' Hq He Hr. split; rewrite Hq, He.
  - intros p e' Hp He' Hd. destruct (Hes p e' He') as (e & Hse & Hf & Hde & Hm). rewrite Hde in Hd.
    destruct (M1 p e Hp Hse Hd) as (fn & Hfn & _). exists fn. rewrite Hf, Hr. split; [done|]. by apply Hm.
  - intros p q e e' Hp Hq' Hpe Hqe Hd Hd' Hn. destruct (Hes p e Hpe) as (a & Ha & Hfa & Hda & _).
    destruct (Hes q e' Hqe) as (b & Hb & Hfb & Hdb & _). rewrite Hda in Hd. rewrite Hdb in Hd'. rewrite Hfa, Hfb in Hn. by eapply (M2 p q a b).
Qed.

Section Marks.
Context `{Host} (Hcalls : never_refuses).

Lemma mark_as_redundant_ok q b e s :
  marks_ok s → q ∈ queue_buf s → entries s !! q = Some e → disabled e = false →
  wp (mark_as_redundant q b) s (λ _ s', marks_ok s' ∧
    ∃ red req, s' = set_requests req (set_redundant_edges red (set_entries (<[q := set_fs_redundant b e]> (entries s)) s))).
Proof.
  intros Mk Hq He Hd. destruct (mk_name _ Mk q e Hq He Hd) as (fn & Hfn & Hiff).
  unfold mark_as_redundant. apply wp_bind. eapply wp_load_entry; [done|]. case_decide as Hb.
  { apply wp_ret. split; [done|]. exists (redundant_edges s), (requests s). rewrite insert_id; [by destruct s|].
    rewrite He. destruct e; simpl in *. by subst b. }
  apply wp_bind. eapply wp_modify_entry; [done|]. rewrite Hfn. apply wp_bind. unfold request. apply wp_bind, wp_get.
  apply wp_bind, wp_put, wp_ret. rewrite Hcalls. apply wp_bind, wp_get. simpl.
  assert (∀ red, (∀ p e', p ≠ q → p ∈ queue_buf s → entries s !! p = Some e' → disabled e' = false →
       ∀ f, base_name (fname e') = Some f → (f ∈ red ↔ f ∈ redundant_edges s)) → (b = true ↔ fn ∈ red) → 
     ∀ s', queue_buf s' = queue_buf s → entries s' = <[q := set_fs_redundant b e]> (entries s) → redundant_edges s' = red → marks_ok s') as Hmk.
  { intros red Hother Hself. eapply marks_ok_entries; [done|]. intros p e' [[<- <-]|[Hne Hp]]%lookup_insert_Some.
    - exists e. split; [done|]. split; [done|]. split; [done|]. intros f _ _ Hf. simpl. by replace f with fn by congruence.
    - exists e'. split; [done|]. split; [done|]. split; [done|]. intros f Hpq Hd' Hf. rewrite (Hother p e') by done.
      destruct (mk_name _ Mk p e' Hpq Hp Hd') as (f' & Hf' & Hi). by replace f with f' by congruence. }
  assert (∀ p e' f, p ≠ q → p ∈ queue_buf s → entries s !! p = Some e' → disabled e' = false → base_name (fname e') = Some f → f ≠ fn) as Hdiff.
  { intros p e' f Hne Hp Hpe Hpd Hf ->. apply Hne. eapply (mk_inj _ Mk p q e' e); congruence. }
  destruct b; simpl.
  - rewrite decide_True by (split; [done|]; intros Hin%Hiff; congruence). apply wp_update. split; [|by eexists _, _].
    eapply (Hmk ({[fn]} ∪ redundant_edges s)); [|set_solver|done|done|done]. intros p e' H1 H2 H3 H4 f Hf.
    pose proof (Hdiff p e' f H1 H2 H3 H4 Hf). set_solver.
  - rewrite decide_True by (split; [done|]; apply Hiff; by destruct (fs_redundant e)). apply wp_update. split; [|by eexists _, _].
    eapply (Hmk (redundant_edges s ∖ {[fn]})); [|set_solver|done|done|done]. intros p e' H1 H2 H3 H4 f Hf.
    pose proof (Hdiff p e' f H1 H2 H3 H4 Hf). set_solver.
Qed.

(** The mark that an entry gets. *)
Definition marked (e : queue_entry) : queue_entry := if disabled e then e else set_fs_redundant (negb (favored e)) e.

Lemma mark_all_ok s :
  marks_ok s → NoDup (queue_buf s) → (∀ p, p ∈ queue_buf s → is_Some (entries s !! p)) →
  wp (over_queue (λ q, e ← load q; if disabled e then mret tt else mark_as_redundant q (negb (favored e)))) s
    (λ _ s', marks_ok s' ∧ ∃ red req es, s' = set_requests req (set_redundant_edges red (set_entries es s)) ∧
      ∀ p, es !! p = (if decide (p ∈ queue_buf s) then marked else id) <$> entries s !! p).
Proof.
  intros Mk Hnd Hin.
  set (I := λ k s', marks_ok s' ∧ ∃ red req es, s' = set_requests req (set_redundant_edges red (set_entries es s)) ∧
      ∀ p, es !! p = (if decide (p ∈ take k (queue_buf s)) then marked else id) <$> entries s !! p).
  eapply wp_mono; [apply (wp_over_queue I)|].
  - split; [done|]. exists (redundant_edges s), (requests s), (entries s). split; [by destruct s|]. intros p. simpl. by rewrite option_fmap_id.
  - intros k q s' Hq (Mk' & red & req & es & -> & Hes). split; [done|].
    assert (q ∈ queue_buf s) as Hqin by (by eapply list_elem_of_lookup_2). destruct (Hin q Hqin) as [e He].
    assert (q ∉ take k (queue_buf s)) as Hnew.
    { intros (j & Hj & Hjk)%elem_of_take. pose proof (NoDup_lookup _ _ _ _ Hnd Hj Hq). lia. }
    assert (es !! q = Some e) as Heq by (rewrite Hes, decide_False, He by done; done).
    assert (∀ es' : gmap loc queue_entry, (∀ p, es' !! p = if decide (p = q) then Some (marked e) else es !! p) → ∀ p,
      es' !! p = (if decide (p ∈ take (S k) (queue_buf s)) then marked else id) <$> entries s !! p) as Hnext.
    { intros es' Hes' p. rewrite Hes'. erewrite take_S_r by done. case_decide as Hp.
      - subst p. rewrite decide_True by (apply elem_of_app; right; by apply list_elem_of_singleton). by rewrite He.
      - rewrite Hes. destruct (decide (p ∈ take k (queue_buf s))).
        + rewrite decide_True; [done|]. apply elem_of_app. by left.
        + rewrite decide_False; [done|]. by intros [?|?%list_elem_of_singleton]%elem_of_app. }
    apply wp_bind. eapply wp_load_entry; [exact Heq|]. unfold marked in Hnext. destruct (disabled e) eqn:Hd.
    + apply wp_ret. split; [done|]. exists red, req, es. split; [done|]. apply Hnext. intros p. case_decide as Hp; [by subst p|done].
    + eapply wp_mono; [eapply mark_as_redundant_ok; [exact Mk'|exact Hqin|exact Heq|done]|].
      intros [] s'' (Mk2 & red2 & req2 & ->). split; [done|].
      exists red2, req2, (<[q := set_fs_redundant (negb (favored e)) e]> es). split; [done|]. apply Hnext.
      intros p. rewrite lookup_insert. by repeat case_decide.
  - intros [] s' (Mk' & red & req & es & -> & Hes). rewrite firstn_all in Hes. split; [done|]. by exists red, req, es.
Qed.
End Marks.

(** ** The whole call *)

Definition same_entries (s s' : afl_state) : Prop := ∀ p, ekey <$> entries s' !! p = ekey <$> entries s !! p.

Lemma ekey_fields e e' : ekey e = ekey e' →
  fname e = fname e' ∧ disabled e = disabled e' ∧ was_fuzzed e = was_fuzzed e' ∧ n_fuzz_entry e = n_fuzz_entry e' ∧
  trace_mini e = trace_mini e' ∧ tc_ref e = tc_ref e'.
Proof. destruct e, e'. unfold ekey. simpl. by intros [= <- <- <- <- <- <- <- <- <- <-]. Qed.

Lemma same_entry s s' p e' : same_entries s s' → entries s' !! p = Some e' → ∃ e, entries s !! p = Some e ∧ ekey e' = ekey e.
Proof.
  intros Hs Hp. specialize (Hs p). rewrite Hp in Hs. simpl in Hs. symmetry in Hs. apply fmap_Some in Hs as (e & ? & ?). by exists e.
Qed.

Lemma same_is_Some s s' p : same_entries s s' → is_Some (entries s !! p) → is_Some (entries s' !! p).
Proof. intros Hs. specialize (Hs p). destruct (entries s' !! p), (entries s !! p); naive_solver. Qed.

Lemma same_mini s s' p : same_entries s s' → mini s' p = mini s p.
Proof.
  intros Hs. specialize (Hs p). unfold mini. destruct (entries s' !! p), (entries s !! p); try done. simpl in *. apply (inj Some) in Hs.
  by destruct (ekey_fields _ _ Hs) as (_ & _ & _ & _ & -> & _).
Qed.

Lemma same_unfuzzed s s' p : same_entries s s' → unfuzzed s' p ↔ unfuzzed s p.
Proof.
  intros Hs. specialize (Hs p). unfold unfuzzed. destruct (entries s' !! p), (entries s !! p); try done. simpl in *. apply (inj Some) in Hs.
  by destruct (ekey_fields _ _ Hs) as (_ & _ & -> & _).
Qed.

Lemma same_scored s s' :
  same_entries s s' → settings s' = settings s → trace_bits s' = trace_bits s → top_rated s' = top_rated s → scored s → scored s'.
Proof.
  intros Hs Hset Htr Htop [S1 S2 S3 S4 S5]. split; rewrite ?Hset, ?Htr, ?Htop; try done.
  - intros p e' He'. destruct (same_entry _ _ _ _ Hs He') as (e & He & Hk). destruct (S4 p e He) as [E1 E2].
    destruct (ekey_fields _ _ Hk) as (_ & _ & _ & K1 & K2 & K3). unfold entry_ok, counted_fuzz in *. by rewrite K1, K2, K3.
  - intros i p Hp. eapply same_is_Some; [done|by apply (S5 i)].
Qed.

Lemma same_queue s s' :
  same_entries s s' → settings s' = settings s → queue_buf s' = queue_buf s → top_rated s' = top_rated s →
  length (map_tmp_buf s') = length (map_tmp_buf s) → queue_ok s → queue_ok s'.
Proof.
  intros Hs Hset Hq Htop Hl [Q1 Q2 Q3 Q4 Q5]. split; rewrite ?Hset, ?Hq, ?Htop, ?Hl; try done.
  intros p Hp. eapply same_is_Some; [done|by apply Q2].
Qed.

Lemma same_cover s s' i chosen : same_entries s s' → top_rated s' = top_rated s → cover s i chosen → cover s' i chosen.
Proof.
  intros Hs Htop [C1 C2 C3]. split; [done| |].
  - intros j p. rewrite Htop. intros Hj Hp. destruct (C2 j p Hj Hp) as (r & Hr & Hb). exists r. split; [done|].
    unfold has_bit. by rewrite (same_mini s).
  - intros l1 p l2 E. rewrite Htop. destruct (C3 l1 p l2 E) as (j & Hj & Hp & Hb). exists j. split; [done|]. split; [done|].
    intros r Hr. unfold has_bit. rewrite (same_mini s) by done. by apply Hb.
Qed.

Lemma same_trans s1 s2 s3 : same_entries s1 s2 → same_entries s2 s3 → same_entries s1 s3.
Proof. intros H1 H2 p. by rewrite H2. Qed.

Lemma same_fmap s s' f g (P : loc → Prop) `{∀ p, Decision (P p)} :
  (∀ p, entries s' !! p = (if decide (P p) then f else g) <$> entries s !! p) →
  (∀ e, ekey (f e) = ekey e) → (∀ e, ekey (g e) = ekey e) → same_entries s s'.
Proof. intros Hs Hf Hg p. rewrite Hs. destruct (entries s !! p); simpl; [|done]. case_decide; by rewrite ?Hf, ?Hg. Qed.

Lemma bit_at_ones n rest i : 0 ≤ i < 8 * Z.of_nat n → bit_at (replicate n 255 ++ rest) i = true.
Proof.
  intros Hi. assert (0 ≤ i / 8 < Z.of_nat n) by (split; [apply Z.div_pos; lia|apply Z.div_lt_upper_bound; lia]).
  unfold bit_at. rewrite lookup_app_l by (rewrite length_replicate; lia). rewrite lookup_replicate_2 by lia. simpl.
  change 255 with (Z.ones 8). apply Z.ones_spec_low. apply Z.mod_pos_bound. lia.
Qed.

Section CullQueue.
Context `{Host} (Hcalls : never_refuses).

(** The state after the resets. *)
Definition reset_state (s : afl_state) : afl_state :=
  let len := Z.to_nat (map_size (settings s) / 8) in
  set_entries (on_queue (set_favored false) (queue_buf s) (entries s)) (set_pending_favored 0 (set_queued_favored 0
    (set_map_tmp_buf (replicate len 255 ++ drop len (map_tmp_buf s)) (set_score_changed false s)))).

Lemma reset_ok s : scored s → queue_ok s → let s0 := reset_state s in
  same_entries s s0 ∧ scored s0 ∧ queue_ok s0 ∧ culling s0 0 [] s0 ∧
  (∀ p e, p ∈ queue_buf s0 → entries s0 !! p = Some e → favored e = false).
Proof.
  intros Sc Q s0. pose proof (lookup_on_queue (set_favored false) (queue_buf s) (entries s)) as Hl.
  assert (same_entries s s0) as Hsame.
  { apply (same_fmap s s0 (set_favored false) id (λ p, p ∈ queue_buf s)); [|by intros []|done].
    intros p. change (entries s0) with (on_queue (set_favored false) (queue_buf s) (entries s)). rewrite Hl by apply Q.
    case_decide; [done|by rewrite option_fmap_id]. }
  pose proof (qo_tmp _ Q) as Htmp. destruct (sc_size _ Sc) as [E Hm].
  assert (0 ≤ map_size (settings s) / 8) by (apply Z.div_pos; lia).
  assert (length (map_tmp_buf s0) = length (map_tmp_buf s)) as Hlen.
  { unfold s0, reset_state. simpl. rewrite length_app, length_replicate, length_drop. lia. }
  split; [done|]. split; [by apply (same_scored s)|]. split; [by apply (same_queue s)|]. split.
  - split.
    + split; [constructor|lia|]. intros [|]; discriminate.
    + intros j Hj. simpl in Hj |- *. apply bit_at_ones. lia.
    + done.
    + done.
    + intros p. simpl. by rewrite option_fmap_id.
    + exists (map_tmp_buf s0), (entries s0), 0, 0. by split.
  - intros p e Hp. change (entries s0) with (on_queue (set_favored false) (queue_buf s) (entries s)). rewrite Hl by apply Q.
    rewrite decide_True by exact Hp. intros (e0 & _ & ->)%fmap_Some. done.
Qed.

(** The three passes. *)
Lemma cull_queue_ok s :
  scored s → queue_ok s → marks_ok s → score_changed s = true → non_instrumented_mode (settings s) = false →
  wp cull_queue s (λ _ s', ∃ chosen s1, culling (reset_state s) (map_size (settings s)) chosen s1 ∧ marks_ok s' ∧
    ∃ red req es, s' = set_requests req (set_redundant_edges red (set_entries es s1)) ∧
      ∀ p, es !! p = (if decide (p ∈ queue_buf s) then marked else id) <$> entries s1 !! p).
Proof.
  intros Sc Q Mk Hch Hni. destruct (reset_ok s Sc Q) as (Hsame & Sc0 & Q0 & C0 & Hfav). set (s0 := reset_state s) in *.
  assert (∀ x, Z.shiftr x 3 = x / 8) as Hshift by (intros x; by rewrite Z.shiftr_div_pow2).
  destruct (sc_size _ Sc) as [E Hm].
  unfold cull_queue. apply wp_bind, wp_get. rewrite decide_False by (rewrite Hch, Hni; by intros [|]).
  apply wp_bind, wp_update. rewrite Hshift. apply wp_bind. rewrite decide_True by apply Q. apply wp_update.
  apply wp_bind, wp_update. apply wp_bind. eapply wp_mono; [apply reset_favored_ok; apply Q|]. intros [] ? ->.
  match goal with |- wp _ ?x _ => change x with s0 end. apply wp_bind.
  eapply wp_mono; [apply (wp_for_loop (λ i s1, ∃ chosen, culling s0 i chosen s1))|].
  - by exists [].
  - intros j s1 Hj (chosen & C). apply (cull_byte_ok s0 j chosen); try done. change (settings s0) with (settings s). lia.
  - rewrite Z.add_0_l, Z2Nat.id by lia. intros [] s1 (chosen & C).
    pose proof C as [C1 C2 C3 C4 C5 (buf & es & nq & np & Hs1 & Hlb)].
    assert (queue_buf s1 = queue_buf s) as Hq by by rewrite Hs1.
    assert (same_entries s0 s1) as Hsame1.
    { apply (same_fmap s0 s1 (set_favored true) id (λ p, p ∈ chosen)); [done|by intros []|done]. }
    pose proof (same_trans _ _ _ Hsame Hsame1) as Hsame2.
    eapply wp_mono; [apply (mark_all_ok Hcalls s1)|].
    + eapply (marks_ok_entries s (entries s1) (redundant_edges s)); [done| |by rewrite Hs1..].
      intros p e' He'. destruct (same_entry _ _ _ _ Hsame2 He') as (e & He & Hk). exists e. split; [done|].
      destruct (ekey_fields _ _ Hk) as (K1 & K2 & _). split; [done|]. split; [done|]. intros fn Hp Hd Hfn.
      destruct (mk_name _ Mk p e Hp He Hd) as (fn' & Hfn' & Hiff). replace fn with fn' by congruence. rewrite <- Hiff.
      rewrite C5 in He'. change (entries s0) with (on_queue (set_favored false) (queue_buf s) (entries s)) in He'.
      rewrite lookup_on_queue, (decide_True (P := p ∈ queue_buf s)), He in He' by (done || apply Q).
      simpl in He'. injection He' as <-.
      destruct (decide (p ∈ chosen)); by destruct e.
    + rewrite Hq. apply Q.
    + rewrite Hq. intros p Hp. eapply same_is_Some; [exact Hsame2|by apply Q].
    + rewrite Hq. intros [] s' (Mk' & Hrest). exists chosen, s1. split; [done|]. by split.
Qed.

(** C4. [cull_queue] marks a set of entries that together hit every byte some
    entry is known to hit, and no entry of it can be left out in the order they
    were chosen; the two counters are the size of the set and of its part not
    fuzzed yet, and the mark files on disk are those of the other enabled entries. *)
Theorem cull_queue_correct s :
  scored s → queue_ok s → marks_ok s → score_changed s = true → non_instrumented_mode (settings s) = false →
  ∃ s' chosen, cull_queue s = Ret (tt, s') ∧ cover s (map_size (settings s)) chosen ∧
    (∀ p, p ∈ queue_buf s → ∃ e, entries s' !! p = Some e ∧ favored e = bool_decide (p ∈ chosen) ∧
       (disabled e = false → fs_redundant e = negb (favored e))) ∧
    queued_favored s' = zlen chosen ∧ pending_favored s' = zlen (filter (unfuzzed s) chosen) ∧
    scored s' ∧ queue_ok s' ∧ marks_ok s' ∧ score_changed s' = false ∧
    top_rated s' = top_rated s ∧ queue_buf s' = queue_buf s ∧ same_entries s s'.
Proof.
  intros Sc Q Mk Hch Hni. pose proof (cull_queue_ok s Sc Q Mk Hch Hni) as Hw. destruct (reset_ok s Sc Q) as (Hsame & Sc0 & Q0 & C0 & Hfav). set (s0 := reset_state s) in *.
  apply wp_Ret in Hw as ([] & s' & Hrun & chosen & s1 & C & Mk' & red & req & es & -> & Hes).
  pose proof C as [C1 C2 C3 C4 C5 (buf & es1 & nq & np & Hs1 & Hlb)].
  assert (same_entries s (set_requests req (set_redundant_edges red (set_entries es s1)))) as Hsame2.
  { eapply same_trans; [exact Hsame|]. eapply same_trans.
    - apply (same_fmap s0 s1 (set_favored true) id (λ p, p ∈ chosen)); [done|by intros []|done].
    - apply (same_fmap s1 _ marked id (λ p, p ∈ queue_buf s)); [exact Hes| |done]. intros e. unfold marked. destruct e. simpl. by case_match. }
  assert (settings s1 = settings s ∧ queue_buf s1 = queue_buf s ∧ top_rated s1 = top_rated s ∧ trace_bits s1 = trace_bits s ∧
    score_changed s1 = false ∧ length (map_tmp_buf s1) = length (map_tmp_buf s0)) as (F1 & F2 & F3 & F4 & F5 & F6).
  { rewrite Hs1. split_and!; done || exact Hlb. }
  exists (set_requests req (set_redundant_edges red (set_entries es s1))), chosen. split; [exact Hrun|].
  split. { apply (same_cover s0); [|done|exact C1]. intros p. by rewrite (Hsame p). }
  split.
  { intros p Hp. destruct (qo_entries _ Q0 p Hp) as [e0 He0]. simpl. rewrite Hes, decide_True, C5, He0 by done. simpl.
    pose proof (Hfav p e0 Hp He0) as Hf0. eexists. split; [done|]. unfold marked.
    destruct (decide (p ∈ chosen)).
    - rewrite bool_decide_eq_true_2 by done. destruct (disabled (set_favored true e0)) eqn:Hd; simpl in *; (split; [done|]); congruence.
    - rewrite bool_decide_eq_false_2 by done. unfold id. destruct (disabled e0) eqn:Hd; simpl; (split; [done|]); congruence. }
  split; [exact C3|]. split.
  { simpl. rewrite C4. f_equal. f_equal. apply list_filter_iff. intros p. by apply same_unfuzzed. }
  split. { by apply (same_scored s). }
  split. { apply (same_queue s); try done. simpl. rewrite F6. unfold s0, reset_state. simpl.
    rewrite length_app, length_replicate, length_drop. pose proof (qo_tmp _ Q). pose proof (Z.div_pos (map_size (settings s)) 8). lia. }
  split; [exact Mk'|]. by split_and!.
Qed.
End CullQueue.

(** ** Witness *)

Definition sample_changed : afl_state := set_score_changed true sample_state.

Lemma sample_queue : queue_ok sample_changed.
Proof.
  split.
  - repeat constructor; set_solver.
  - intros p Hp. unfold sample_changed, sample_state in Hp. simpl in Hp.
    apply elem_of_cons in Hp as [->|[->|Hp]%elem_of_cons]; [by eexists..|by apply not_elem_of_nil in Hp].
  - intros [|[|i]] p Hi; [injection Hi as <-; simpl; set_solver..|]. do 14 (destruct i as [|i]; [done|]). done.
  - simpl. lia.
  - by vm_compute.
Qed.

Lemma sample_marks : marks_ok sample_changed.
Proof.
  split.
  - intros p e _. change (entries sample_changed) with sample_entries. unfold sample_entries.
    intros [[<- <-]|[_ [<- <-]%lookup_singleton_Some]]%lookup_insert_Some _; (eexists; split; [reflexivity|]); split; simpl; [done|set_solver|done|set_solver].
  - intros p q e e' _ _. change (entries sample_changed) with sample_entries. unfold sample_entries.
    intros [[<- <-]|[_ [<- <-]%lookup_singleton_Some]]%lookup_insert_Some [[<- <-]|[_ [<- <-]%lookup_singleton_Some]]%lookup_insert_Some _ _ Hn;
      first [done|by vm_compute in Hn].
Qed.

Lemma cull_queue_correct_witness :
  ∃ s' chosen, cull_queue (H := obliging) sample_changed = Ret (tt, s') ∧ cover sample_changed 16 chosen ∧
    queued_favored s' = 1 ∧ queued_favored s' = zlen chosen ∧ marks_ok s'.
Proof.
  destruct (cull_queue_correct (H := obliging) (λ _, eq_refl) sample_changed)
    as (s' & chosen & Hrun & Hcov & _ & Hq & _ & _ & _ & Mk & _).
  - exact (same_scored sample_state sample_changed (λ _, eq_refl) eq_refl eq_refl eq_refl sample_scored).
  - exact sample_queue.
  - exact sample_marks.
  - reflexivity.
  - reflexivity.
  - exists s', chosen. split; [exact Hrun|]. split; [exact Hcov|]. split; [|split; [exact Hq|exact Mk]].
    vm_compute in Hrun. by injection Hrun as <-.
Defined.
