(* ===== verification/AflTrim.v ===== *)
(** * AflTrim: trimming with a custom mutator, [trim_case_custom] of
    AFLplusplus/src/afl-fuzz-mutators.c and [write_to_testcase] of afl-fuzz-run.c

    The custom mutator is an interface, [CustomTrim]; the program under test is
    [Target]: what it does with an input may depend on the inputs before it.
    Messages to the terminal are left out. *)

From S2P Require Import Prelude AflBitmap AflQueue AflScore.

(** ** Interfaces *)

(** [run_target] is [fuzz_run_target]: the result and the words of the coverage
    map; [stop_soon] is set by a signal during that run. *)
Class Target := {
  run_target : list (list Z) → list Z → Z * list Z;
  stop_soon : list (list Z) → bool;
  hash64 : list Z → Z }.

Definition FSRV_RUN_ERROR : Z := 3.

(** The trimming functions of a loaded mutator; [afl_custom_trim] hands out a
    length and a buffer of that many bytes, or NULL. *)
Class CustomTrim (S : Type) := {
  init_trim : list Z → Z → M S Z;
  trim : M S (Z * option (list Z));
  post_trim : bool → M S Z }.

(** The other functions of the loaded mutators that these routines call, in the
    order of the list: [afl_custom_post_process] returns a new buffer or fails,
    [afl_custom_fuzz_send] delivers the input itself. *)
Record hook := Hook { post_process : option (list Z → option (list Z)); fuzz_send : bool }.

(** ** State *)

(** [runs]: the inputs given to the target so far; [input]: the one that waits. *)
Record trimmer (S : Type) := Trimmer {
  tr_afl : afl_state;
  tr_mutator : S;
  stage_cur : Z;
  stage_max : Z;
  trim_execs : Z;
  bytes_trim_in : Z;
  bytes_trim_out : Z;
  clean_trace_custom : list Z;
  hooks : list hook;
  min_length : Z;
  max_length : Z;
  disk : gmap string (list Z);
  input : list Z;
  runs : list (list Z) }.
Arguments Trimmer {S}.
Arguments tr_afl {S} t.
Arguments tr_mutator {S} t.
Arguments stage_cur {S} t.
Arguments stage_max {S} t.
Arguments trim_execs {S} t.
Arguments bytes_trim_in {S} t.
Arguments bytes_trim_out {S} t.
Arguments clean_trace_custom {S} t.
Arguments hooks {S} t.
Arguments min_length {S} t.
Arguments max_length {S} t.
Arguments disk {S} t.
Arguments input {S} t.
Arguments runs {S} t.

Section Updates.
Context {S : Type}.
Implicit Types t : trimmer S.

Definition set_afl v t := Trimmer v (tr_mutator t) (stage_cur t) (stage_max t) (trim_execs t) (bytes_trim_in t)
  (bytes_trim_out t) (clean_trace_custom t) (hooks t) (min_length t) (max_length t) (disk t) (input t) (runs t).
Definition set_mutator (v : S) t := Trimmer (tr_afl t) v (stage_cur t) (stage_max t) (trim_execs t) (bytes_trim_in t)
  (bytes_trim_out t) (clean_trace_custom t) (hooks t) (min_length t) (max_length t) (disk t) (input t) (runs t).
Definition set_stage_cur v t := Trimmer (tr_afl t) (tr_mutator t) v (stage_max t) (trim_execs t) (bytes_trim_in t)
  (bytes_trim_out t) (clean_trace_custom t) (hooks t) (min_length t) (max_length t) (disk t) (input t) (runs t).
Definition set_stage_max v t := Trimmer (tr_afl t) (tr_mutator t) (stage_cur t) v (trim_execs t) (bytes_trim_in t)
  (bytes_trim_out t) (clean_trace_custom t) (hooks t) (min_length t) (max_length t) (disk t) (input t) (runs t).
Definition set_trim_execs v t := Trimmer (tr_afl t) (tr_mutator t) (stage_cur t) (stage_max t) v (bytes_trim_in t)
  (bytes_trim_out t) (clean_trace_custom t) (hooks t) (min_length t) (max_length t) (disk t) (input t) (runs t).
Definition set_bytes_trim_in v t := Trimmer (tr_afl t) (tr_mutator t) (stage_cur t) (stage_max t) (trim_execs t) v
  (bytes_trim_out t) (clean_trace_custom t) (hooks t) (min_length t) (max_length t) (disk t) (input t) (runs t).
Definition set_bytes_trim_out v t := Trimmer (tr_afl t) (tr_mutator t) (stage_cur t) (stage_max t) (trim_execs t)
  (bytes_trim_in t) v (clean_trace_custom t) (hooks t) (min_length t) (max_length t) (disk t) (input t) (runs t).
Definition set_clean_trace v t := Trimmer (tr_afl t) (tr_mutator t) (stage_cur t) (stage_max t) (trim_execs t)
  (bytes_trim_in t) (bytes_trim_out t) v (hooks t) (min_length t) (max_length t) (disk t) (input t) (runs t).
Definition set_disk v t := Trimmer (tr_afl t) (tr_mutator t) (stage_cur t) (stage_max t) (trim_execs t) (bytes_trim_in t)
  (bytes_trim_out t) (clean_trace_custom t) (hooks t) (min_length t) (max_length t) v (input t) (runs t).
Definition set_input v t := Trimmer (tr_afl t) (tr_mutator t) (stage_cur t) (stage_max t) (trim_execs t) (bytes_trim_in t)
  (bytes_trim_out t) (clean_trace_custom t) (hooks t) (min_length t) (max_length t) (disk t) v (runs t).
Definition set_runs v t := Trimmer (tr_afl t) (tr_mutator t) (stage_cur t) (stage_max t) (trim_execs t) (bytes_trim_in t)
  (bytes_trim_out t) (clean_trace_custom t) (hooks t) (min_length t) (max_length t) (disk t) (input t) v.
End Updates.

Section Trim.
Context `{Host} {target : Target} {S : Type} `{!CustomTrim S}.

Definition tupd (f : trimmer S → trimmer S) : M (trimmer S) unit := t ← get_state; put_state (f t).

(** A step of the rest of afl-fuzz, or of the mutator. *)
Definition in_afl {A} (m : M afl_state A) : M (trimmer S) A := λ t,
  match m (tr_afl t) with Ret (a, s) => Ret (a, set_afl s t) | Fault e => Fault e | NoFuel => NoFuel end.
Definition in_mutator {A} (m : M S A) : M (trimmer S) A := λ t,
  match m (tr_mutator t) with Ret (a, s) => Ret (a, set_mutator s t) | Fault e => Fault e | NoFuel => NoFuel end.

(** The process ends unless the request succeeds. *)
Definition must : M (trimmer S) unit :=
  ok ← in_afl request; if (ok : bool) then mret tt else fail ProcessExit.

(** The first [n] bytes of a buffer. *)
Definition first_bytes (n : Z) (mem : list Z) : M (trimmer S) (list Z) :=
  if decide (n ≤ zlen mem) then mret (take (Z.to_nat n) mem) else fail OutOfBounds.

(** ** [write_to_testcase] *)

(** One turn of the loop over the mutators: the buffer, its length, and whether it is a new one. *)
Definition post_step (acc : list Z * Z * bool) (el : hook) : list Z * Z * bool :=
  match post_process el with
  | None => acc
  | Some f =>
      match f (take (Z.to_nat acc.1.2) acc.1.1) with
      | Some b => if decide (b = []) then (acc.1.1, 0, acc.2) else (b, zlen b, true)
      | None => (acc.1.1, 0, acc.2)
      end
  end.

(** [len] below and above the configured limits. *)
Definition clamp_length (lo hi : Z) (fix_ : bool) (len : Z) : Z :=
  if decide (len < lo ∧ fix_ = false) then lo else if decide (hi < len) then hi else len.

(** The returned length, and [*mem] after the call. *)
Definition write_to_testcase (mem : list Z) (len : Z) (fix_ : bool) : M (trimmer S) (Z * list Z) :=
  t ← get_state;
  if decide (hooks t = []) then
    let len := clamp_length (min_length t) (max_length t) fix_ len in
    data ← first_bytes len mem;
    _ ← tupd (set_input data);
    mret (len, mem)
  else
    let '(new_mem, new_size, changed) := foldl post_step (mem, len, false) (hooks t) in
    if decide (new_size = 0 ∧ fix_ = false) then mret (0, mem) else
    let new_size := if decide (new_size = 0) then len else new_size in
    let new_size := clamp_length (min_length t) (max_length t) fix_ new_size in
    data ← first_bytes new_size new_mem;
    mem ← (if (changed : bool) && bool_decide (0 < new_size) then _ ← must; mret data else mret mem);
    _ ← tupd (set_input data);
    mret (if existsb fuzz_send (hooks t) then len else new_size, mem).

(** [fuzz_run_target]: the result, and the words of the map that the target wrote. *)
Definition fuzz_run_target : M (trimmer S) (Z * list Z) :=
  t ← get_state;
  let r := run_target (runs t) (input t) in
  _ ← put_state (set_runs (runs t ++ [input t]) t);
  _ ← in_afl (upd (set_trace_bits (bytes r.2)));
  mret r.

(** [classify_counts] on the map, and the checksum of the result. *)
Definition checksum (words : list Z) : M (trimmer S) Z :=
  t ← get_state;
  let size := map_size (settings (tr_afl t)) in
  _ ← in_afl (upd (set_trace_bits (bytes (classify_counts size words))));
  t ← get_state;
  mret (hash64 (take (Z.to_nat size) (trace_bits (tr_afl t)))).

(** ** [trim_case_custom] *)

(** One run of the trimmed input [buf] of [retlen] bytes: [None] when the
    trimming is abandoned; otherwise the length that was written, the buffer, the
    last [fault] and the checksum, if there was a run. *)
Definition try_case (retlen : Z) (buf : list Z) (fault : Z) : M (trimmer S) (Z * option (Z * list Z * option Z)) :=
  if decide (retlen = 0) then mret (fault, Some (0, buf, None)) else
  r ← write_to_testcase buf (u32 retlen) false;
  if decide (r.1 = 0) then
    _ ← tupd (λ t, set_trim_execs (u64 (trim_execs t + 1)) t);
    mret (fault, Some (0, r.2, None))
  else
    o ← fuzz_run_target;
    _ ← tupd (λ t, set_trim_execs (u64 (trim_execs t + 1)) t);
    t ← get_state;
    if decide (stop_soon (runs t) = true ∨ o.1 = FSRV_RUN_ERROR) then mret (o.1, None) else
    cksum ← checksum o.2;
    mret (o.1, Some (r.1, r.2, Some cksum)).

(** [if (likely(retlen && cksum == q->exec_cksum))] and the two reports to the
    mutator: the new [out_buf]. *)
Definition report (q : loc) (retlen : Z) (mem : list Z) (cksum : option Z) (out_buf : option (list Z)) :
    M (trimmer S) (option (list Z)) :=
  e ← in_afl (load q);
  if decide (retlen ≠ 0 ∧ cksum = Some (exec_cksum e)) then
    _ ← (match out_buf with
         | None => tupd (λ t, set_clean_trace (take (Z.to_nat (map_size (settings (tr_afl t)))) (trace_bits (tr_afl t))) t)
         | Some _ => mret tt
         end);
    _ ← must;
    data ← first_bytes retlen mem;
    n ← in_mutator (post_trim true);
    _ ← tupd (set_stage_cur (u32 n));
    mret (Some data)
  else
    n ← in_mutator (post_trim false);
    if decide (n < 0) then fail ProcessExit else
    _ ← tupd (set_stage_cur (u32 n));
    mret out_buf.

(** The loop: [None] in the second place when it was abandoned, else [out_buf]. *)
Fixpoint trim_loop (fuel : nat) (q : loc) (fault : Z) (out_buf : option (list Z)) :
    M (trimmer S) (Z * option (list Z) * bool) :=
  match fuel with
  | O => out_of_fuel
  | Datatypes.S fuel =>
      t ← get_state;
      if decide (stage_max t ≤ stage_cur t) then mret (fault, out_buf, true) else
      r ← in_mutator trim;
      match r.2 with
      | None => fail ProcessExit
      | Some buf =>
          _ ← (if decide (r.1 = 0) then tupd (λ t, set_trim_execs (u64 (trim_execs t + 1)) t) else mret tt);
          o ← try_case r.1 buf fault;
          match o.2 with
          | None => mret (o.1, out_buf, false)
          | Some (retlen, mem, cksum) =>
              out_buf ← report q retlen mem cksum out_buf;
              trim_loop fuel q o.1 out_buf
          end
      end
  end.

(** The trimmed input replaces the file of the entry. *)
Definition write_back (q : loc) (out : list Z) : M (trimmer S) unit :=
  e ← in_afl (load q);
  gone ← in_afl request;
  _ ← (if (gone : bool) then tupd (λ t, set_disk (delete (fname e) (disk t)) t) else mret tt);
  opened ← in_afl request;
  t ← get_state;
  if decide (opened = true ∧ disk t !! fname e = None) then
    _ ← must;
    _ ← tupd (λ t, set_disk (<[fname e := out]> (disk t)) t);
    _ ← in_afl (modify q (set_len (zlen out)));
    _ ← tupd (λ t, set_afl (set_trace_bits (clean_trace_custom t ++ drop (length (clean_trace_custom t)) (trace_bits (tr_afl t))) (tr_afl t)) t);
    in_afl (update_bitmap_score q)
  else fail ProcessExit.

(** [unlikely(retval) < 0] compares the truth value of [retval] and never holds:
    a negative result becomes the number of stages. *)
Definition trim_case_custom (fuel : nat) (q : loc) (in_buf : list Z) : M (trimmer S) Z :=
  e ← in_afl (load q);
  _ ← tupd (λ t, set_stage_cur 0 (set_bytes_trim_in (u64 (bytes_trim_in t + len e)) t));
  retval ← in_mutator (init_trim in_buf (len e));
  _ ← tupd (set_stage_max (u32 retval));
  r ← trim_loop fuel q 0 None;
  _ ← (match r.1.2 with
       | Some out => if (r.2 : bool) then write_back q out else mret tt
       | None => mret tt
       end);
  e ← in_afl (load q);
  _ ← tupd (λ t, set_bytes_trim_out (u64 (bytes_trim_out t + len e)) t);
  mret r.1.1.
End Trim.

(** ** A target that never confirms *)

(** What a mutator promises about attempts that fail: [inv l n s] says that the
    attempts [l] are left of [n]; each takes one step, and [tried a bs] relates an
    attempt to the input it makes. *)
Class TrimLaw (S : Type) `{!CustomTrim S} {A : Type} (tried : A → list Z → Prop) (inv : list A → Z → S → Prop) := {
  law_step : ∀ a l n s, inv (a :: l) n s →
    wp trim s (λ r s1, ∃ bs, r = (zlen bs, Some bs) ∧ tried a bs ∧
      wp (post_trim false) s1 (λ k s2, k = n - zlen l ∧ inv l n s2)) }.

Section Fails.
Context `{Host} {target : Target} {S : Type} `{!CustomTrim S}.

Lemma wp_tupd f (t : trimmer S) (Q : unit → trimmer S → Prop) : Q tt (f t) → wp (tupd f) t Q.
Proof. done. Qed.

Lemma wp_in_afl {A} (m : M afl_state A) (t : trimmer S) (Q : A → trimmer S → Prop) :
  wp m (tr_afl t) (λ a s, Q a (set_afl s t)) → wp (in_afl m) t Q.
Proof. unfold wp, in_afl. by destruct (m (tr_afl t)) as [[a s]| |]. Qed.

Lemma wp_in_mutator {A} (m : M S A) (t : trimmer S) (Q : A → trimmer S → Prop) :
  wp m (tr_mutator t) (λ a s, Q a (set_mutator s t)) → wp (in_mutator m) t Q.
Proof. unfold wp, in_mutator. by destruct (m (tr_mutator t)) as [[a s]| |]. Qed.

(** The mutators change nothing on the way to the target, and there is at least one. *)
Definition plain (t : trimmer S) : Prop :=
  hooks t ≠ [] ∧ Forall (λ h, post_process h = None ∧ fuzz_send h = false) (hooks t) ∧
  min_length t ≤ 1 ∧ 0 < max_length t.

(** The part of an input that reaches the target. *)
Definition delivered (hi : Z) (bs : list Z) : list Z := take (Z.to_nat (Z.min hi (u32 (zlen bs)))) bs.

(** Every run ends without a signal and with another coverage than the entry's. *)
Definition never_confirms (s : afl_state) (e : queue_entry) : Prop := ∀ past inp,
  (run_target past inp).1 ≠ FSRV_RUN_ERROR ∧ stop_soon past = false ∧
  let size := map_size (settings s) in
  hash64 (take (Z.to_nat size) (bytes (classify_counts size (run_target past inp).2))) ≠ exec_cksum e.

Lemma plain_fold hs acc : Forall (λ h, post_process h = None ∧ fuzz_send h = false) hs → foldl post_step acc hs = acc.
Proof. intros Hp. revert acc. induction Hp as [|h hs [Hh _] _ IH]; intros acc; simpl; [done|]. by rewrite IH; unfold post_step; rewrite Hh. Qed.

Lemma plain_send hs : Forall (λ h, post_process h = None ∧ fuzz_send h = false) hs → existsb fuzz_send hs = false.
Proof. induction 1 as [|h hs [_ Hh] _ IH]; simpl; [done|]. by rewrite Hh. Qed.

(** What every attempt leaves as it is: all of the queue but the last trace, and
    the files. *)
Definition kept (t t' : trimmer S) : Prop :=
  (∃ tb, tr_afl t' = set_trace_bits tb (tr_afl t)) ∧ stage_max t' = stage_max t ∧
  bytes_trim_in t' = bytes_trim_in t ∧ bytes_trim_out t' = bytes_trim_out t ∧
  hooks t' = hooks t ∧ min_length t' = min_length t ∧ max_length t' = max_length t ∧ disk t' = disk t.

Definition settled (t t' : trimmer S) : Prop :=
  kept t t' ∧ stage_cur t' = stage_cur t ∧ tr_mutator t' = tr_mutator t.

Lemma kept_refl t : kept t t.
Proof. split; [exists (trace_bits (tr_afl t)); by destruct (tr_afl t)|done]. Qed.

Lemma kept_trans t1 t2 t3 : kept t1 t2 → kept t2 t3 → kept t1 t3.
Proof.
  intros ((tb & E1) & H1) ((tb' & E2) & H2). split; [exists tb'; rewrite E2, E1; done|]. split_and!; etrans; apply H2 || apply H1.
Qed.

Lemma try_case_fails t e bs fault :
  plain t → never_confirms (tr_afl t) e →
  wp (try_case (zlen bs) bs fault) t (λ o t', ∃ mem cksum k, o.2 = Some (k, mem, cksum) ∧
    (k ≠ 0 → cksum ≠ Some (exec_cksum e)) ∧ settled t t' ∧
    trim_execs t' = (if decide (zlen bs = 0) then trim_execs t else u64 (trim_execs t + 1)) ∧
    runs t' = runs t ++ filter (λ l, l ≠ []) [delivered (max_length t) bs]).
Proof.
  intros (Hh & Hp & Hmin & Hmax) Hnc. unfold try_case.
  assert (settled t t) as Ht by (split; [apply kept_refl|done]).
  case_decide as Hz.
  { apply wp_ret. exists bs, None, 0. split; [done|]. split; [done|]. split; [done|]. split; [done|].
    destruct bs; [|done]. unfold delivered. rewrite take_nil, filter_cons_False by naive_solver. by rewrite app_nil_r. }
  pose proof (wrap_range 32 (zlen bs) ltac:(lia)) as Hu. assert (u32 (zlen bs) ≤ zlen bs) as Hle by (unfold wrap; apply Z.mod_le; lia).
  unfold write_to_testcase.  apply wp_bind, wp_bind, wp_get.
  rewrite decide_False by done. rewrite (plain_fold _ _ Hp).
  destruct (decide (u32 (zlen bs) = 0)) as [Hn|Hn].
  { rewrite decide_True by done. apply wp_ret. simpl. apply wp_bind, wp_tupd, wp_ret. exists bs, None, 0.
    split; [done|]. split; [done|]. split; [done|]. split; [done|]. unfold delivered. rewrite Hn, Z.min_r by lia. simpl.
    rewrite filter_cons_False by naive_solver. by rewrite app_nil_r. }
  rewrite decide_False by (by intros [? _]).
  assert (clamp_length (min_length t) (max_length t) false (u32 (zlen bs)) = Z.min (max_length t) (u32 (zlen bs))) as ->.
  { unfold clamp_length. rewrite decide_False by lia. case_decide; lia. }
  set (k := Z.min _ _). apply wp_bind. unfold first_bytes. rewrite decide_True by lia. apply wp_ret. simpl.
  apply wp_bind, wp_ret. apply wp_bind, wp_tupd, wp_ret. rewrite (plain_send _ Hp). simpl.
  rewrite decide_False by lia.
  assert (delivered (max_length t) bs ≠ []) as Hne.
  { unfold delivered. intros Hnil%(f_equal length). rewrite length_take in Hnil. simpl in Hnil. lia. }
  unfold fuzz_run_target. apply wp_bind, wp_bind, wp_get. apply wp_bind, wp_put. apply wp_bind, wp_in_afl, wp_update. apply wp_ret.
  apply wp_bind, wp_tupd. apply wp_bind, wp_get. simpl. change (take (Z.to_nat k) bs) with (delivered (max_length t) bs).
  destruct (Hnc (runs t) (delivered (max_length t) bs)) as (Herr & _ & Hck).
  destruct (Hnc (runs t ++ [delivered (max_length t) bs]) []) as (_ & Hstop & _).
  rewrite decide_False by (rewrite Hstop; by intros [?|?]).
  unfold checksum. apply wp_bind, wp_bind, wp_get. apply wp_bind, wp_in_afl, wp_update. apply wp_bind, wp_get, wp_ret, wp_ret. simpl.
  eexists _, _, _. split; [done|]. split; [by intros _ [= ?]|]. split; [split; [split; [by eexists|done]|done]|]. split; [done|].
  by rewrite filter_cons_True.
Qed.

Lemma report_fails q e (t : trimmer S) k mem cksum out (Q : option (list Z) → trimmer S → Prop) :
  entries (tr_afl t) !! q = Some e → (k ≠ 0 → cksum ≠ Some (exec_cksum e)) →
  wp (post_trim false) (tr_mutator t) (λ n s, 0 ≤ n < 2 ^ 31 ∧ Q out (set_stage_cur n (set_mutator s t))) →
  wp (report q k mem cksum out) t Q.
Proof.
  intros He Hk Hw. unfold report. apply wp_bind, wp_in_afl. eapply wp_load_entry; [done|]. rewrite decide_False by naive_solver.
  apply wp_bind, wp_in_mutator. eapply wp_mono; [exact Hw|]. intros n s [Hn HQ]. rewrite decide_False by lia.
  apply wp_bind, wp_tupd, wp_ret. rewrite wrap_small by lia. by destruct t as [[]].
Qed.

Context {A : Type} {tried : A → list Z → Prop} {inv : list A → Z → S → Prop} `{!TrimLaw S tried inv}.

(** The loop makes every attempt that is left, once, and ends. *)
Lemma trim_loop_fails q e N : 0 ≤ N < 2 ^ 31 → ∀ l fuel fault (t : trimmer S),
  inv l N (tr_mutator t) → stage_max t = N → stage_cur t = N - zlen l → zlen l ≤ N → (length l < fuel)%nat →
  entries (tr_afl t) !! q = Some e → plain t → never_confirms (tr_afl t) e → 0 ≤ trim_execs t < 2 ^ 64 →
  wp (trim_loop fuel q fault None) t (λ r t', r.1.2 = None ∧ ∃ outs,
    Forall2 tried l outs ∧ runs t' = runs t ++ filter (λ x, x ≠ []) (delivered (max_length t) <$> outs) ∧
    trim_execs t' = u64 (trim_execs t + zlen l) ∧ inv [] N (tr_mutator t') ∧ stage_cur t' = N ∧ kept t t').
Proof.
  intros HN. induction l as [|a l IH]; intros [|fuel] fault t Hinv Hmax Hcur Hl Hfuel He Hp Hnc Hx; simpl in Hfuel; try lia;
    cbn [trim_loop]; apply wp_bind, wp_get.
  { rewrite decide_True by (simpl in Hcur; lia). apply wp_ret. split; [done|]. exists []. split; [done|]. simpl.
    rewrite app_nil_r, Z.add_0_r, wrap_small by lia. simpl in Hcur. split; [done|]. split; [done|]. split; [done|].
    split; [lia|apply kept_refl]. }
  simpl in Hcur, Hl. rewrite decide_False by lia.
  apply wp_bind, wp_in_mutator. eapply wp_mono; [by apply law_step|]. intros ? s1 (bs & -> & Htried & Hpost). simpl.
  set (t1 := set_trim_execs (if decide (zlen bs = 0) then u64 (trim_execs t + 1) else trim_execs t) (set_mutator s1 t)).
  assert (∀ Q : unit → trimmer S → Prop, Q tt t1 → wp (if decide (zlen bs = 0) then tupd (λ t, set_trim_execs (u64 (trim_execs t + 1)) t) else mret tt) (set_mutator s1 t) Q) as Hx1.
  { intros Q HQ. unfold t1 in HQ. case_decide; [by apply wp_tupd|by apply wp_ret]. }
  apply wp_bind, Hx1. apply wp_bind. eapply wp_mono; [by apply (try_case_fails t1 e)|].
  intros o t2 (mem & cksum & k & -> & Hk & [K2 [Hc2 Hm2]] & Hx2 & Hr2).
  assert (trim_execs t2 = u64 (trim_execs t + 1)) as Hx2'.
  { rewrite Hx2. unfold t1. simpl. by destruct (decide (zlen bs = 0)). }
  assert (kept t t1) as K1 by (split; [exists (trace_bits (tr_afl t)); simpl; by destruct (tr_afl t)|done]).
  pose proof (kept_trans _ _ _ K1 K2) as ((tb & Ht2) & Kmax & Kin & Kout & Kh & Kmin & Khi & Kd).
  apply wp_bind. eapply report_fails; [by rewrite Ht2|exact Hk|]. rewrite Hm2. eapply wp_mono; [exact Hpost|].
  intros n s2 [-> Hinv2]. split; [lia|].
  set (t3 := set_stage_cur _ (set_mutator s2 t2)).
  assert (kept t t3) as K3 by (split; [by exists tb|done]).
  eapply wp_mono; [apply (IH fuel _ t3)|]; try done.
  - simpl. rewrite Kmax. exact Hmax.
  - lia.
  - lia.
  - simpl. by rewrite Ht2.
  - unfold plain. simpl. by rewrite Kh, Kmin, Khi.
  - simpl. by rewrite Ht2.
  - simpl. rewrite Hx2'. apply wrap_range. lia.
  - intros r t4 (Hr & outs & Ho & Hruns & Hx4 & Hi4 & Hc4 & K4). split; [done|]. exists (bs :: outs). split; [by constructor|].
    split; [|split; [|split; [done|split; [done|by eapply kept_trans]]]].
    + rewrite Hruns. simpl. rewrite Hr2, <- app_assoc, Khi. f_equal. symmetry. apply (filter_app _ [delivered (max_length t) bs]).
    + rewrite Hx4. simpl. rewrite Hx2', wrap_add_l. f_equal. lia.
Qed.

(** The whole call. *)
Lemma trim_case_fails q e l N in_buf fuel (t : trimmer S) :
  entries (tr_afl t) !! q = Some e → plain t → never_confirms (tr_afl t) e → 0 ≤ trim_execs t < 2 ^ 64 →
  wp (init_trim in_buf (len e)) (tr_mutator t) (λ n s, n = N ∧ inv l N s) → zlen l = N → N < 2 ^ 31 → (length l < fuel)%nat →
  wp (trim_case_custom fuel q in_buf) t (λ fault t', ∃ outs,
    Forall2 tried l outs ∧ runs t' = runs t ++ filter (λ x, x ≠ []) (delivered (max_length t) <$> outs) ∧
    trim_execs t' = u64 (trim_execs t + N) ∧ inv [] N (tr_mutator t') ∧ stage_cur t' = N ∧ stage_max t' = N ∧
    (∃ tb, tr_afl t' = set_trace_bits tb (tr_afl t)) ∧ disk t' = disk t).
Proof.
  intros He Hp Hnc Hx Hinit Hl HN Hfuel. unfold trim_case_custom. apply wp_bind, wp_in_afl. eapply wp_load_entry; [done|].
  apply wp_bind, wp_tupd. apply wp_bind, wp_in_mutator. eapply wp_mono; [exact Hinit|]. intros n s [-> Hinv].
  apply wp_bind, wp_tupd. rewrite wrap_small by lia. set (t1 := set_stage_max _ _).
  apply wp_bind. eapply wp_mono; [apply (trim_loop_fails q e N ltac:(lia) l fuel 0 t1); try done|].
  - simpl. lia.
  - lia.
  - intros r t2 (Hr & outs & Ho & Hruns & Hx2 & Hi2 & Hc2 & ((tb & Ht2) & Kmax & Kin & Kout & Kh & Kmin & Khi & Kd)).
    rewrite Hr. apply wp_bind, wp_ret. apply wp_bind, wp_in_afl. eapply wp_load_entry; [by rewrite Ht2|].
    apply wp_bind, wp_tupd, wp_ret. exists outs. simpl in *. rewrite Hl in Hx2.
    split_and!; try done. exists tb. by rewrite Ht2.
Qed.
End Fails.
