(* ===== verification/TrimCase.v ===== *)
(** * TrimCase: AFL++ trims a test case with the Grammar-Mutator

    The driver of the Grammar-Mutator is an instance of the interface of
    [trim_case_custom]. *)

From S2P Require Import Prelude Buffer Utils Tree TreeSpec TreeNodes TreeSizes TreeText TreePaths GrammarTypes TreeLists TreePicks StrMap World TreeGrafts TreeLife ChunkStore TreeMutation MutationSpec RecursionSpec SplicingSpec Language MutatorState GrammarMutator RulesPlan FuzzRound FuzzStages ToyGrammar ToySession FuzzOutput FuzzCount TrimRound AflTrim.

(** The first [n] bytes of the buffer that was handed out. *)
Definition handed_out (b : buf) (n : Z) : outcome (list Z) :=
  match b with
  | None => Fault NullDeref
  | Some bs =>
      if decide (n ≤ zlen bs)
      then match mapM (λ x : membyte, x) (take (Z.to_nat n) bs) with Some l => Ret l | None => Fault Uninit end
      else Fault OutOfBounds
  end.

Section Instance.
Context `{Host} {R : Type} `{!Random R, !Grammar R, !Digest}.

(** [*out_buf = data->fuzz_buf], or NULL. *)
Definition mutator_trim : M (driver R) (Z * option (list Z)) :=
  r ← afl_custom_trim;
  if (r.2 : bool) then
    x ← get_data;
    match handed_out (fuzz_buf x) r.1 with
    | Ret l => mret (r.1, Some l)
    | Fault e => fail e
    | NoFuel => out_of_fuel
    end
  else mret (r.1, None).

#[export] Instance grammar_mutator : CustomTrim (driver R) := {
  init_trim _ _ := afl_custom_init_trim;
  trim := mutator_trim;
  post_trim := afl_custom_post_trim }.
End Instance.

Lemma handed_out_prefix (b : list membyte) l : (Some <$> l) `prefix_of` b → handed_out (Some b) (zlen l) = Ret l.
Proof.
  intros [rest ->]. unfold handed_out. rewrite length_app, length_fmap, decide_True by lia.
  rewrite Nat2Z.id, take_app_le, take_ge by (rewrite ?length_fmap; lia).
  assert (mapM (λ x : membyte, x) (Some <$> l) = Some l) as ->; [|done].
  apply mapM_Some_2. induction l; by constructor.
Qed.

Section TrimCase.
Context `{Host} (Hmem : never_refuses) {target : Target} {R : Type} `{!Random R, !Grammar R, !Digest}.
Context (productions : Z → list (list symbol)) {builds} `{!GeneratorLaw (λ n, n = 0) builds}.
Context (Hbuilds : ∀ i u, builds i u → fits productions i u).
Context (T : loc) (p : loc) (t : gtree) (ls : list loc) (i : Z) (m : gmap loc node).

(** The input of an attempt: the text of a tree of the language, which the attempt
    makes from the tree that is trimmed. *)
Definition attempted (a : loc + edge) (bs : list Z) : Prop :=
  ∃ t', attempt_at (builds := builds) m p t a t' ∧ typed productions (NT i) t' ∧ bs = yield t'.

(** The attempts [l] are left of [n]. *)
Definition left_to_try (l : list (loc + edge)) (n : Z) (d : driver R) : Prop :=
  ∃ x y, trimming productions d x T y p t ls i m ∧ tries_left m ls x = l ∧ trim_total x = n.

#[local] Instance grammar_trim_law : TrimLaw (driver R) attempted left_to_try.
Proof.
  split. intros a l n d (x & y & [S P Hst Hl Heff] & Htries & <-).
  destruct (tries_step m ls x P Hst ltac:(by rewrite Htries)) as (Hlt & a' & Hnext & Hstep).
  assert (a' = a) as -> by congruence. change trim with (mutator_trim (R := R)). unfold mutator_trim.
  apply wp_bind. eapply wp_mono; [by eapply (trim_ok Hmem productions Hbuilds)|].
  intros ? d1 (b & s & T1 & t' & -> & S1 & Hb & Ht & Hpre & Hatt). simpl.
  apply wp_bind. eapply wp_get_data; [apply S1|]. cbn [fuzz_buf set_fuzz_buf fst snd]. rewrite (handed_out_prefix b (yield t') Hpre). apply wp_ret.
  exists (yield t'). split; [done|]. split; [exists t'; split; [by eapply attempt_next|done]|].
  change (post_trim false) with (afl_custom_post_trim (R := R) false).
  eapply wp_mono; [eapply (failed_post_ok productions d1 x (set_fuzz_buf (Some b) (set_fuzz_size s (set_trimmed_tree (Some T1) x))) T y p t ls i m T1 (recount t') a l); try done|].
  intros n d2 (x2 & y2 & Htm & Hl2 & -> & Htot). split; [|by exists x2, y2].
  rewrite <- Hl2, (tries_left_length m ls x2) by apply Htm. unfold trim_total, trim_steps in *. lia.
Qed.

(** C3. When no trimmed input keeps the coverage of the entry, the trimming of a
    test case ends: it tries every non-terminal of the tree and then every
    recursion edge, once each, and sends to the target the text of a tree of the
    language made by that attempt (cut at the length limit, skipped when empty); the
    current tree, the queue entry and its file stay as they are. *)
Theorem trim_case_exhausts (τ : trimmer (driver R)) q e x y in_buf fuel :
  core productions (tr_mutator τ) x T y p t ls i m → count_nt t < 2 ^ 30 → count_edges t < 2 ^ 30 →
  AflQueue.entries (tr_afl τ) !! q = Some e → plain τ → never_confirms (tr_afl τ) e → 0 ≤ trim_execs τ < 2 ^ 64 →
  (Z.to_nat (count_nt t + count_edges t) < fuel)%nat →
  ∃ fault τ' outs, trim_case_custom fuel q in_buf τ = Ret (fault, τ') ∧
    Forall2 attempted ((inl <$> non_terminals m ls) ++ (inr <$> recursion_edges m ls)) outs ∧
    runs τ' = runs τ ++ filter (λ l, l ≠ []) (delivered (max_length τ) <$> outs) ∧
    trim_execs τ' = u64 (trim_execs τ + (count_nt t + count_edges t)) ∧
    (∃ x' y', core productions (tr_mutator τ') x' T y' p t ls i m) ∧
    (∃ tb, tr_afl τ' = AflQueue.set_trace_bits tb (tr_afl τ)) ∧ disk τ' = disk τ.
Proof.
  intros S Hnt Hed He Hp Hnc Hx Hfuel. set (l := (inl <$> non_terminals m ls) ++ (inr <$> recursion_edges m ls) : list (loc + edge)).
  pose proof (ss_target _ _ _ _ _ _ _ _ _ _ S) as Tg.
  assert (zlen l = count_nt t + count_edges t) as Hl.
  { unfold l. rewrite length_app, !length_fmap, Nat2Z.inj_add. f_equal.
    - eapply (length_non_terminals true m t); apply Tg.
    - eapply (length_recursion_edges m t); apply Tg. }
  assert (wp (trim_case_custom fuel q in_buf) τ (λ fault τ', ∃ outs, Forall2 attempted l outs ∧
    runs τ' = runs τ ++ filter (λ x, x ≠ []) (delivered (max_length τ) <$> outs) ∧
    trim_execs τ' = u64 (trim_execs τ + (count_nt t + count_edges t)) ∧
    left_to_try [] (count_nt t + count_edges t) (tr_mutator τ') ∧ stage_cur τ' = count_nt t + count_edges t ∧
    stage_max τ' = count_nt t + count_edges t ∧ (∃ tb, tr_afl τ' = AflQueue.set_trace_bits tb (tr_afl τ)) ∧ disk τ' = disk τ)) as Hw.
  { apply (trim_case_fails q e l _ in_buf fuel τ He Hp Hnc Hx); [|done|lia|lia].
    change (init_trim in_buf (AflQueue.len e)) with (afl_custom_init_trim (R := R)).
    eapply wp_mono; [by apply (init_trim_ok Hmem productions (tr_mutator τ) x T y p t ls i m)|].
    intros n d (-> & x' & y' & Htm & Htr & _ & Htot). split; [done|]. by exists x', y'. }
  apply wp_Ret in Hw as (fault & τ' & Hrun & outs & Ho & Hr & Hx' & (x' & y' & Htm & _) & _ & _ & Hafl & Hd).
  exists fault, τ', outs. split_and!; try done. exists x', y'. apply Htm.
Qed.
End TrimCase.

(** ** Witness *)

(** Targets that never hit the coverage of the sample entry. *)
Definition quiet_target : Target := {|
  run_target := λ _ _, (0, [0; 0]);
  stop_soon := λ _, false;
  hash64 := λ _, 1 |}.

#[local] Instance toy_digest : Digest := {| xxh3 := λ _, 0 |}.

Definition toy_trimmer : trimmer (driver unit) :=
  Trimmer AflScore.sample_state toy_driver 0 0 7 0 0 [] [Hook None false] 1 1000 ∅ [] [].

Lemma toy_law0 : GeneratorLaw (Grammar0 := toy_grammar (H := obliging)) (λ n, n = 0) toy_builds.
Proof.
  pose proof (toy_law (H := obliging) (λ _, eq_refl)) as [L1 L2]. split; [exact L1|].
  intros i f ml rule r h Hf _. by apply L2.
Qed.

Lemma trim_case_exhausts_witness :
  ∃ fault τ' outs, trim_case_custom (H := obliging) (target := quiet_target)
      (CustomTrim0 := grammar_mutator (H := obliging) (Grammar0 := toy_grammar (H := obliging)))
      100 1 [] toy_trimmer = Ret (fault, τ') ∧
    trim_execs τ' = 7 + zlen outs ∧ runs τ' = filter (λ l, l ≠ []) (delivered 1000 <$> outs) ∧ disk τ' = ∅.
Proof.
  destruct (trim_case_exhausts (H := obliging) (λ _, eq_refl) (target := quiet_target)
    (Grammar0 := toy_grammar (H := obliging)) toy_productions (GeneratorLaw0 := toy_law0) toy_builds_fit 9 1 sample_tree sample_locs 1
    (nodes sample_heap) toy_trimmer 1 (AflScore.sample_entry "queue/id:0" 10 (Some [3; 0]) 2) toy_mutator (tree_at 1) [] 100)
    as (fault & τ' & outs & Hrun & Ho & Hr & Hx & _ & _ & Hd).
  - apply toy_session.
  - vm_compute. reflexivity.
  - vm_compute. reflexivity.
  - reflexivity.
  - split; [done|]. split; [by repeat constructor|]. vm_compute. by split.
  - intros past inp. split; [done|]. split; [done|]. by vm_compute.
  - simpl. lia.
  - apply Nat.ltb_lt. vm_compute. reflexivity.
  - exists fault, τ', outs. split; [exact Hrun|]. split; [|split; [exact Hr|exact Hd]].
    rewrite Hx. apply Forall2_length in Ho. rewrite <- Ho. vm_compute. reflexivity.
Defined.
