(* ===== verification/AflDet.v ===== *)
(** * AflDet: the deterministic stages of [fuzz_one_original],
    AFLplusplus/src/afl-fuzz-one.c

    Walking bit and byte flips, arithmetic and interesting values, with the tests
    that skip an input another stage makes. A run of the target is an interface
    ([Runner]); the statistics of the stages are left out. *)

From S2P Require Import Prelude.

(** ** What a stage could have made *)

Definition ARITH_MAX : Z := 35.

(** The loop of [could_be_bitflip]: the number of trailing zeros and the rest. *)
Fixpoint trailing (fuel : nat) (sh xor_val : Z) : Z * Z :=
  match fuel with
  | O => (sh, xor_val)
  | S fuel => if decide (Z.land xor_val 1 = 0) then trailing fuel (sh + 1) (Z.shiftr xor_val 1) else (sh, xor_val)
  end.

Definition could_be_bitflip (xor_val : Z) : bool :=
  if decide (xor_val = 0) then true else
  let '(sh, v) := trailing 32 0 xor_val in
  if decide (v = 1 ∨ v = 3 ∨ v = 15) then true else
  if decide (Z.land sh 7 ≠ 0) then false else
  bool_decide (v = 0xff ∨ v = 0xffff ∨ v = 0xffffffff).

Definition SWAP16 (x : Z) : Z := u16 (Z.lor (Z.shiftl x 8) (Z.shiftr x 8)).
Definition SWAP32 (x : Z) : Z :=
  u32 (Z.lor (Z.lor (Z.shiftl x 24) (Z.shiftr x 24))
    (Z.lor (Z.land (Z.shiftl x 8) 0x00FF0000) (Z.land (Z.shiftr x 8) 0x0000FF00))).

(** The comparison loop over [n] units of [w] bits: [diffs], [ov] and [nv]. *)
Fixpoint unit_diffs (n : nat) (w old_val new_val : Z) : Z * Z * Z :=
  match n with
  | O => (0, 0, 0)
  | S n =>
      let '(diffs, ov, nv) := unit_diffs n w old_val new_val in
      let a := wrap w (Z.shiftr old_val (w * Z.of_nat n)) in
      let b := wrap w (Z.shiftr new_val (w * Z.of_nat n)) in
      if decide (a ≠ b) then (diffs + 1, a, b) else (diffs, ov, nv)
  end.

(** [(uw)(ov - nv) <= ARITH_MAX || (uw)(nv - ov) <= ARITH_MAX] *)
Definition near (w ov nv : Z) : bool :=
  bool_decide (wrap w (ov - nv) ≤ ARITH_MAX) || bool_decide (wrap w (nv - ov) ≤ ARITH_MAX).

Definition could_be_arith (old_val new_val blen : Z) : bool :=
  if decide (old_val = new_val) then true else
  let '(diffs, ov, nv) := unit_diffs (Z.to_nat blen) 8 old_val new_val in
  if bool_decide (diffs = 1) && near 8 ov nv then true else
  if decide (blen = 1) then false else
  let '(diffs, ov, nv) := unit_diffs (Z.to_nat (blen / 2)) 16 old_val new_val in
  if bool_decide (diffs = 1) && (near 16 ov nv || near 16 (SWAP16 ov) (SWAP16 nv)) then true else
  bool_decide (blen = 4) && (near 32 old_val new_val || near 32 (SWAP32 new_val) (SWAP32 old_val)).

Definition interesting_8 : list Z := [-128; -1; 0; 1; 16; 32; 64; 100; 127].
Definition interesting_16 : list Z :=
  interesting_8 ++ [-32768; -129; 128; 255; 256; 512; 1000; 1024; 4096; 32767].
Definition interesting_32 : list Z :=
  interesting_16 ++ [-2147483648; -100663046; -32769; 32768; 65535; 65536; 100663045; 2147483647].

(** [old_val] with [v], of [w] bits, put at byte [i]. *)
Definition insert_at (old_val w i v : Z) : Z :=
  u32 (Z.lor (Z.land old_val (2 ^ 32 - 1 - Z.shiftl (2 ^ w - 1) (8 * i))) (Z.shiftl v (8 * i))).

Definition could_be_interest (old_val new_val blen : Z) (check_le : bool) : bool :=
  if decide (old_val = new_val) then true else
  if existsb (λ i, existsb (λ v, bool_decide (new_val = insert_at old_val 8 i (u8 v))) interesting_8) (seqZ 0 blen) then true else
  if decide (blen = 2 ∧ check_le = false) then false else
  if existsb (λ i, existsb (λ v, bool_decide (new_val = insert_at old_val 16 i (u16 v)) ||
       (bool_decide (2 < blen) && bool_decide (new_val = insert_at old_val 16 i (SWAP16 (u16 v))))) interesting_16)
       (seqZ 0 (blen - 1)) then true else
  bool_decide (blen = 4) && check_le && existsb (λ v, bool_decide (new_val = u32 v)) interesting_32.

(** ** State *)

(** What the stages see of the world: whether [common_fuzz_stuff] asks to abandon
    the entry, the checksum of the coverage of a run (both may depend on the inputs
    tested before), and what a freshly grown buffer holds. *)
Class Runner := {
  abandons : list (list Z) → list Z → bool;
  trace_cksum : list (list Z) → list Z → Z;
  heap_byte : nat → Z }.

(** [tested]: the inputs that were run; [autos]: the arguments of [maybe_add_auto]. *)
Record det := Det {
  out_buf : list Z;
  eff_map : list Z;
  eff_cnt : Z;
  stage_cur : Z;
  stage_max : Z;
  a_collect : list Z;
  a_len : Z;
  prev_cksum : Z;
  first_cksum : Z;
  last_cksum : Z;
  autos : list (list Z);
  tested : list (list Z) }.

Definition set_out_buf v s := Det v (eff_map s) (eff_cnt s) (stage_cur s) (stage_max s) (a_collect s) (a_len s)
  (prev_cksum s) (first_cksum s) (last_cksum s) (autos s) (tested s).
Definition set_eff_map v s := Det (out_buf s) v (eff_cnt s) (stage_cur s) (stage_max s) (a_collect s) (a_len s)
  (prev_cksum s) (first_cksum s) (last_cksum s) (autos s) (tested s).
Definition set_eff_cnt v s := Det (out_buf s) (eff_map s) v (stage_cur s) (stage_max s) (a_collect s) (a_len s)
  (prev_cksum s) (first_cksum s) (last_cksum s) (autos s) (tested s).
Definition set_stage_cur v s := Det (out_buf s) (eff_map s) (eff_cnt s) v (stage_max s) (a_collect s) (a_len s)
  (prev_cksum s) (first_cksum s) (last_cksum s) (autos s) (tested s).
Definition set_stage_max v s := Det (out_buf s) (eff_map s) (eff_cnt s) (stage_cur s) v (a_collect s) (a_len s)
  (prev_cksum s) (first_cksum s) (last_cksum s) (autos s) (tested s).
Definition set_collect v n s := Det (out_buf s) (eff_map s) (eff_cnt s) (stage_cur s) (stage_max s) v n
  (prev_cksum s) (first_cksum s) (last_cksum s) (autos s) (tested s).
Definition set_prev_cksum v s := Det (out_buf s) (eff_map s) (eff_cnt s) (stage_cur s) (stage_max s) (a_collect s) (a_len s)
  v (first_cksum s) (last_cksum s) (autos s) (tested s).
Definition set_first_cksum v s := Det (out_buf s) (eff_map s) (eff_cnt s) (stage_cur s) (stage_max s) (a_collect s) (a_len s)
  (prev_cksum s) v (last_cksum s) (autos s) (tested s).
Definition set_autos v s := Det (out_buf s) (eff_map s) (eff_cnt s) (stage_cur s) (stage_max s) (a_collect s) (a_len s)
  (prev_cksum s) (first_cksum s) (last_cksum s) v (tested s).
Definition set_tested v ck s := Det (out_buf s) (eff_map s) (eff_cnt s) (stage_cur s) (stage_max s) (a_collect s) (a_len s)
  (prev_cksum s) (first_cksum s) ck (autos s) v.

(** The switches that the stages read. *)
Record switches := Switches { non_instrumented_mode : bool; no_arith : bool }.

Section Stages.
Context {runner : Runner} (sw : switches).

Definition dupd (f : det → det) : M det unit := s ← get_state; put_state (f s).
Definition byte_at (a : list Z) (i : Z) : M det Z :=
  match a !! Z.to_nat i with Some x => mret x | None => fail OutOfBounds end.

(** [common_fuzz_stuff] on the buffer: [false] when the entry is abandoned. *)
Definition common_fuzz_stuff : M det bool :=
  s ← get_state;
  _ ← put_state (set_tested (tested s ++ [out_buf s]) (trace_cksum (tested s) (out_buf s)) s);
  mret (negb (abandons (tested s) (out_buf s))).

(** [w] bytes of the buffer at [i], as a little-endian number, and back. *)
Definition get_le (w : nat) (i : Z) : M det Z :=
  s ← get_state;
  if decide (i + Z.of_nat w ≤ zlen (out_buf s)) then mret (le_value (take w (drop (Z.to_nat i) (out_buf s)))) else fail OutOfBounds.
Definition put_le (w : nat) (i v : Z) : M det unit :=
  s ← get_state;
  if decide (i + Z.of_nat w ≤ zlen (out_buf s))
  then put_state (set_out_buf (take (Z.to_nat i) (out_buf s) ++ le_bytes w v ++ drop (Z.to_nat i + w) (out_buf s)) s)
  else fail OutOfBounds.

(** ** Walking bits *)

Definition FLIP_BIT (b : Z) : M det unit :=
  s ← get_state;
  v ← byte_at (out_buf s) (Z.shiftr b 3);
  dupd (set_out_buf (<[Z.to_nat (Z.shiftr b 3) := Z.lxor v (Z.shiftr 128 (Z.land b 7))]> (out_buf s))).

(** [FLIP_BIT] on [n] bits from [b]. *)
Definition flip_bits (n : nat) (b : Z) : M det unit := for_loop n b FLIP_BIT.

Definition MIN_AUTO_EXTRA : Z := 3.
Definition MAX_AUTO_EXTRA : Z := 32.

Definition maybe_add_auto : M det unit :=
  dupd (λ s, set_autos (autos s ++ [take (Z.to_nat (a_len s)) (a_collect s)]) s).

Definition flush_auto : M det unit :=
  s ← get_state;
  if decide (MIN_AUTO_EXTRA ≤ a_len s ≤ MAX_AUTO_EXTRA) then maybe_add_auto else mret tt.

(** [a_collect[a_len] = out_buf[i]; ++a_len] *)
Definition collect (i : Z) : M det unit :=
  s ← get_state;
  v ← byte_at (out_buf s) i;
  dupd (set_collect (if decide (a_len s < MAX_AUTO_EXTRA) then <[Z.to_nat (a_len s) := v]> (a_collect s) else a_collect s)
          (u32 (a_len s + 1))).

(** The search for syntax tokens, at the last bit of a byte. *)
Definition token_step (cur : Z) : M det unit :=
  s ← get_state;
  let cksum := last_cksum s in
  _ ← (if decide (cur = u32 (stage_max s - 1) ∧ cksum = prev_cksum s) then
         _ ← collect (Z.shiftr cur 3); flush_auto
       else if decide (cksum ≠ prev_cksum s) then
         _ ← flush_auto; dupd (λ s, set_prev_cksum cksum (set_collect (a_collect s) 0 s))
       else mret tt);
  if decide (cksum ≠ first_cksum s) then collect (Z.shiftr cur 3) else mret tt.

(** A walking flip of [n] bits, and back. *)
Definition flip_step (n : nat) (cur : Z) : M det bool :=
  _ ← dupd (set_stage_cur cur);
  _ ← flip_bits n cur;
  ok ← common_fuzz_stuff;
  if negb ok then mret false else
  _ ← flip_bits n cur;
  mret true.

(** [for (stage_cur = 0; stage_cur < stage_max; ++stage_cur)], with [stage_max] set to [n]. *)
Definition walking (n : Z) (body : Z → M det bool) : M det bool :=
  _ ← dupd (set_stage_max (u32 n));
  ok ← all_loop (Z.to_nat (u32 n)) 0 body;
  if (ok : bool) then _ ← dupd (set_stage_cur (u32 n)); mret true else mret false.

Definition flip1_stage (len : Z) : M det bool :=
  walking (Z.shiftl len 3) (λ cur,
    ok ← flip_step 1 cur;
    if negb ok then mret false else
    _ ← (if decide (non_instrumented_mode sw = false ∧ Z.land cur 7 = 7) then token_step cur else mret tt);
    mret true).

Definition flip2_stage (len : Z) : M det bool := walking (Z.shiftl len 3 - 1) (flip_step 2).
Definition flip4_stage (len : Z) : M det bool := walking (Z.shiftl len 3 - 3) (flip_step 4).

(** ** Walking bytes and the effector map *)

Definition EFF_APOS (p : Z) : Z := Z.shiftr p 3.
Definition EFF_ALEN (l : Z) : Z := EFF_APOS l + (if decide (Z.land l 7 = 0) then 0 else 1).
Definition EFF_MIN_LEN : Z := 128.
Definition EFF_MAX_PERC : Z := 90.

Definition put_eff (i v : Z) : M det unit :=
  s ← get_state;
  if decide (0 ≤ i < zlen (eff_map s)) then put_state (set_eff_map (<[Z.to_nat i := v]> (eff_map s)) s) else fail OutOfBounds.

(** [afl_realloc] keeps the bytes that are there, of an earlier entry or not. *)
Definition eff_setup (len : Z) : M det unit :=
  _ ← dupd (λ s, set_eff_map (eff_map s ++ (heap_byte <$> seq (length (eff_map s)) (Z.to_nat (EFF_ALEN len) - length (eff_map s)))) s);
  _ ← dupd (set_eff_cnt 1);
  _ ← put_eff 0 1;
  if decide (EFF_APOS (len - 1) ≠ 0) then
    _ ← put_eff (EFF_APOS (len - 1)) 1; dupd (λ s, set_eff_cnt (u32 (eff_cnt s + 1)) s)
  else mret tt.

(** [out_buf[cur] ^= 0xFF] *)
Definition flip_byte (cur : Z) : M det unit :=
  s ← get_state; v ← byte_at (out_buf s) cur;
  dupd (set_out_buf (<[Z.to_nat cur := Z.lxor v 0xFF]> (out_buf s))).

(** The complete flip of a byte tells whether the byte matters. *)
Definition flip8_step (len cur : Z) : M det bool :=
  _ ← dupd (set_stage_cur cur);
  _ ← flip_byte cur;
  ok ← common_fuzz_stuff;
  if negb ok then mret false else
  s ← get_state;
  e ← byte_at (eff_map s) (EFF_APOS cur);
  _ ← (if decide (e = 0) then
         let cksum := if decide (non_instrumented_mode sw = false ∧ EFF_MIN_LEN ≤ len) then last_cksum s
                      else 2 ^ 64 - 1 - prev_cksum s in
         if decide (cksum ≠ prev_cksum s) then
           _ ← put_eff (EFF_APOS cur) 1; dupd (λ s, set_eff_cnt (u32 (eff_cnt s + 1)) s)
         else mret tt
       else mret tt);
  _ ← flip_byte cur;
  mret true.

(** [memset(eff_map, 1, EFF_ALEN(len))] on a map that is dense. *)
Definition eff_fill (len : Z) : M det unit :=
  s ← get_state;
  if decide (eff_cnt s ≠ u32 (EFF_ALEN len) ∧ EFF_MAX_PERC < u32 (eff_cnt s * 100) / EFF_ALEN len) then
    if decide (EFF_ALEN len ≤ zlen (eff_map s))
    then dupd (set_eff_map (replicate (Z.to_nat (EFF_ALEN len)) 1 ++ drop (Z.to_nat (EFF_ALEN len)) (eff_map s)))
    else fail OutOfBounds
  else mret tt.

Definition flip8_stage (len : Z) : M det bool :=
  _ ← eff_setup len;
  _ ← dupd (λ s, set_prev_cksum (first_cksum s) s);
  ok ← walking len (flip8_step len);
  if negb ok then mret false else _ ← eff_fill len; mret true.

(** Whether one of the [w] bytes from [i] is flagged. *)
Definition effective (w : nat) (i : Z) : M det bool :=
  s ← get_state;
  l ← mapM (λ k, byte_at (eff_map s) (EFF_APOS (i + Z.of_nat k))) (seq 0 w);
  mret (existsb (λ e, negb (bool_decide (e = 0))) l).

(** The loop over the positions of a stage on [w] bytes with [per] attempts at each. *)
Definition positions (w : nat) (len per : Z) (body : Z → M det bool) : M det bool :=
  _ ← dupd (λ s, set_stage_cur 0 (set_stage_max (u32 (per * (len - (Z.of_nat w - 1)))) s));
  all_loop (Z.to_nat (len - (Z.of_nat w - 1))) 0 (λ i,
    eff ← effective w i;
    if negb eff then _ ← dupd (λ s, set_stage_max (u32 (stage_max s - per)) s); mret true
    else body i).

(** One attempt: [v] at [i] when [cond] holds. *)
Definition attempt (cond : bool) (w : nat) (i v : Z) : M det bool :=
  if cond then
    _ ← put_le w i v;
    ok ← common_fuzz_stuff;
    if negb ok then mret false else
    _ ← dupd (λ s, set_stage_cur (u32 (stage_cur s + 1)) s); mret true
  else _ ← dupd (λ s, set_stage_max (u32 (stage_max s - 1)) s); mret true.

(** A walking flip of [w] bytes. *)
Definition flip_bytes_stage (w : nat) (len : Z) : M det bool :=
  positions w len 1 (λ i,
    v ← get_le w i;
    ok ← attempt true w i (Z.lxor v (2 ^ (8 * Z.of_nat w) - 1));
    if negb ok then mret false else
    _ ← put_le w i v; mret true).

(** The stages up to [skip_bitflip]. *)
Definition bitflip_stages (len : Z) : M det bool :=
  ok ← common_fuzz_stuff;
  if negb ok then mret false else
  _ ← dupd (λ s, set_first_cksum (last_cksum s) (set_prev_cksum (last_cksum s) s));
  ok ← flip1_stage len;
  if negb ok then mret false else
  ok ← flip2_stage len;
  if negb ok then mret false else
  ok ← flip4_stage len;
  if negb ok then mret false else
  ok ← flip8_stage len;
  if negb ok then mret false else
  if decide (len < 2) then mret true else
  ok ← flip_bytes_stage 2 len;
  if negb ok then mret false else
  if decide (len < 4) then mret true else
  flip_bytes_stage 4 len.

(** ** Arithmetic *)

Definition arith8_step (i orig j : Z) : M det bool :=
  ok ← attempt (negb (could_be_bitflip (u8 (Z.lxor orig (orig + j))))) 1 i (u8 (orig + j));
  if negb ok then mret false else
  ok ← attempt (negb (could_be_bitflip (u8 (Z.lxor orig (orig - j))))) 1 i (u8 (orig - j));
  if negb ok then mret false else
  _ ← put_le 1 i orig; mret true.

Definition arith8_stage (len : Z) : M det bool :=
  positions 1 len (2 * ARITH_MAX) (λ i, orig ← get_le 1 i; all_loop (Z.to_nat ARITH_MAX) 1 (arith8_step i orig)).

Definition arith16_step (i orig j : Z) : M det bool :=
  let v3 := SWAP16 (u16 (SWAP16 orig + j)) in
  let v4 := SWAP16 (u16 (SWAP16 orig - j)) in
  let r1 := u16 (Z.lxor orig (orig + j)) in
  let r2 := u16 (Z.lxor orig (orig - j)) in
  ok ← attempt (bool_decide (0xff < Z.land orig 0xff + j) && negb (could_be_bitflip r1)) 2 i (u16 (orig + j));
  if negb ok then mret false else
  ok ← attempt (bool_decide (Z.land orig 0xff < j) && negb (could_be_bitflip r2)) 2 i (u16 (orig - j));
  if negb ok then mret false else
  ok ← attempt (bool_decide (0xff < Z.shiftr orig 8 + j) && negb (could_be_bitflip (Z.lxor orig v3))) 2 i v3;
  if negb ok then mret false else
  ok ← attempt (bool_decide (Z.shiftr orig 8 < j) && negb (could_be_bitflip (Z.lxor orig v4))) 2 i v4;
  if negb ok then mret false else
  _ ← put_le 2 i orig; mret true.

Definition arith16_stage (len : Z) : M det bool :=
  positions 2 len (4 * ARITH_MAX) (λ i, orig ← get_le 2 i; all_loop (Z.to_nat ARITH_MAX) 1 (arith16_step i orig)).

Definition arith32_step (i orig j : Z) : M det bool :=
  let v3 := SWAP32 (u32 (SWAP32 orig + j)) in
  let v4 := SWAP32 (u32 (SWAP32 orig - j)) in
  let r1 := u32 (Z.lxor orig (orig + j)) in
  let r2 := u32 (Z.lxor orig (orig - j)) in
  ok ← attempt (bool_decide (0xffff < Z.land orig 0xffff + j) && negb (could_be_bitflip r1)) 4 i (u32 (orig + j));
  if negb ok then mret false else
  ok ← attempt (bool_decide (Z.land orig 0xffff < j) && negb (could_be_bitflip r2)) 4 i (u32 (orig - j));
  if negb ok then mret false else
  ok ← attempt (bool_decide (0xffff < Z.land (SWAP32 orig) 0xffff + j) && negb (could_be_bitflip (Z.lxor orig v3))) 4 i v3;
  if negb ok then mret false else
  ok ← attempt (bool_decide (Z.land (SWAP32 orig) 0xffff < j) && negb (could_be_bitflip (Z.lxor orig v4))) 4 i v4;
  if negb ok then mret false else
  _ ← put_le 4 i orig; mret true.

Definition arith32_stage (len : Z) : M det bool :=
  positions 4 len (4 * ARITH_MAX) (λ i, orig ← get_le 4 i; all_loop (Z.to_nat ARITH_MAX) 1 (arith32_step i orig)).

(** The stages up to [skip_arith]. *)
Definition arith_stages (len : Z) : M det bool :=
  if no_arith sw then mret true else
  ok ← arith8_stage len;
  if negb ok then mret false else
  if decide (len < 2) then mret true else
  ok ← arith16_stage len;
  if negb ok then mret false else
  if decide (len < 4) then mret true else
  arith32_stage len.

(** ** Interesting values *)

(** A loop over the values of a table. *)
Fixpoint over_values (vs : list Z) (body : Z → M det bool) : M det bool :=
  match vs with
  | [] => mret true
  | v :: vs => ok ← body v; if (ok : bool) then over_values vs body else mret false
  end.

Definition interest8_step (i orig v : Z) : M det bool :=
  if could_be_bitflip (Z.lxor orig (u8 v)) || could_be_arith orig (u8 v) 1 then
    _ ← dupd (λ s, set_stage_max (u32 (stage_max s - 1)) s); mret true
  else
    _ ← put_le 1 i (u8 v);
    ok ← common_fuzz_stuff;
    if negb ok then mret false else
    _ ← put_le 1 i orig;
    _ ← dupd (λ s, set_stage_cur (u32 (stage_cur s + 1)) s); mret true.

Definition interest8_stage (len : Z) : M det bool :=
  positions 1 len (zlen interesting_8) (λ i, orig ← get_le 1 i; over_values interesting_8 (interest8_step i orig)).

Definition interest16_step (i orig v : Z) : M det bool :=
  let be := SWAP16 (u16 v) in
  ok ← attempt (negb (could_be_bitflip (Z.lxor orig (u16 v))) && negb (could_be_arith orig (u16 v) 2) &&
                negb (could_be_interest orig (u16 v) 2 false)) 2 i (u16 v);
  if negb ok then mret false else
  attempt (negb (bool_decide (u16 v = be)) && negb (could_be_bitflip (Z.lxor orig be)) &&
           negb (could_be_arith orig be 2) && negb (could_be_interest orig be 2 true)) 2 i be.

Definition interest16_stage (len : Z) : M det bool :=
  positions 2 len (2 * zlen interesting_16) (λ i,
    orig ← get_le 2 i;
    ok ← over_values interesting_16 (interest16_step i orig);
    if negb ok then mret false else _ ← put_le 2 i orig; mret true).

Definition interest32_step (i orig v : Z) : M det bool :=
  let be := SWAP32 (u32 v) in
  ok ← attempt (negb (could_be_bitflip (Z.lxor orig (u32 v))) && negb (could_be_arith orig (u32 v) 4) &&
                negb (could_be_interest orig (u32 v) 4 false)) 4 i (u32 v);
  if negb ok then mret false else
  attempt (negb (bool_decide (u32 v = be)) && negb (could_be_bitflip (Z.lxor orig be)) &&
           negb (could_be_arith orig be 4) && negb (could_be_interest orig be 4 true)) 4 i be.

Definition interest32_stage (len : Z) : M det bool :=
  positions 4 len (2 * zlen interesting_32) (λ i,
    orig ← get_le 4 i;
    ok ← over_values interesting_32 (interest32_step i orig);
    if negb ok then mret false else _ ← put_le 4 i orig; mret true).

(** The stages up to [skip_interest]. *)
Definition interest_stages (len : Z) : M det bool :=
  ok ← interest8_stage len;
  if negb ok then mret false else
  if decide (no_arith sw = true ∨ len < 2) then mret true else
  ok ← interest16_stage len;
  if negb ok then mret false else
  if decide (len < 4) then mret true else
  interest32_stage len.

(** From the start of the bit flips to the dictionary stages; [false] when the entry is abandoned. *)
Definition deterministic (len : Z) : M det bool :=
  ok ← bitflip_stages len;
  if negb ok then mret false else
  ok ← arith_stages len;
  if negb ok then mret false else
  interest_stages len.
End Stages.
