(* ===== verification/AflDetSpec.v ===== *)
(** * AflDetSpec: the deterministic stages lose no change of a single byte

    Skipping the inputs that an earlier stage makes is sound for one byte: the
    flips, the arithmetic and the interesting values of each effective byte are all
    run. For two bytes it is not ([arith16_loses_case]). *)

From S2P Require Import Prelude AflDet.

(** ** Runs that are not abandoned *)

Definition does {S} (m : M S bool) (s : S) (P : S → Prop) : Prop := wp m s (λ ok s', ok = true → P s').

Section Does.
Context {S : Type}.

Lemma does_bind_unit (m : M S unit) (k : unit → M S bool) s P : wp m s (λ _ s', does (k tt) s' P) → does (m ≫= k) s P.
Proof. intros Hm. apply wp_bind. eapply wp_mono; [exact Hm|]. by intros []. Qed.

Lemma does_bind {A} (m : M S A) (k : A → M S bool) s P : wp m s (λ a s', does (k a) s' P) → does (m ≫= k) s P.
Proof. apply wp_bind. Qed.

(** A stage and the rest, when the stage is not abandoned. *)
Lemma does_seq (m : M S bool) (k : M S bool) s (P Q : S → Prop) :
  does m s P → (∀ s', P s' → does k s' Q) → does (ok ← m; if negb ok then mret false else k) s Q.
Proof. intros Hm Hk. apply wp_bind. eapply wp_mono; [exact Hm|]. intros [] s' Hs; [by apply Hk, Hs|by apply wp_ret]. Qed.

Lemma does_ret (s : S) (P : S → Prop) : P s → does (mret true) s P.
Proof. by intros ? _. Qed.

Lemma does_mono (m : M S bool) s (P Q : S → Prop) : does m s P → (∀ s', P s' → Q s') → does m s Q.
Proof. intros Hm HPQ. eapply wp_mono; [exact Hm|]. auto. Qed.

Lemma does_all_loop (I : Z → S → Prop) n : ∀ i (body : Z → M S bool) s,
  I i s → (∀ j s, i ≤ j < i + Z.of_nat n → I j s → does (body j) s (I (j + 1))) → does (all_loop n i body) s (I (i + Z.of_nat n)).
Proof.
  induction n as [|n IH]; intros i body s HI Hbody; cbn [all_loop].
  { rewrite Z.add_0_r. by apply does_ret. }
  apply wp_bind. eapply wp_mono; [apply Hbody; [lia|done]|]. intros [] s' Hs; [|by apply wp_ret].
  replace (i + Z.of_nat (Datatypes.S n)) with (i + 1 + Z.of_nat n) by lia. apply IH; [by apply Hs|].
  intros j s'' Hj. apply Hbody. lia.
Qed.

End Does.

Lemma does_over_values (I : list Z → det → Prop) (body : Z → M det bool) vs : ∀ done s,
  I done s → (∀ l v s, v ∈ vs → I l s → does (body v) s (I (l ++ [v]))) → does (over_values vs body) s (I (done ++ vs)).
Proof.
  induction vs as [|v vs IH]; intros done s HI Hbody; cbn [over_values].
  { rewrite app_nil_r. by apply does_ret. }
  apply wp_bind. eapply wp_mono; [apply Hbody; [by left|done]|]. intros [] s' Hs; [|by apply wp_ret].
  replace (done ++ v :: vs) with ((done ++ [v]) ++ vs) by (by rewrite <- app_assoc). apply IH; [by apply Hs|].
  intros l v' s'' Hv. apply Hbody. by right.
Qed.

(** ** The buffer *)

Definition bytes_ok (l : list Z) : Prop := Forall (in_width 8) l.

(** [w] bytes of [l] at [i] replaced by those of [v]. *)
Definition splice (l : list Z) (w : nat) (i v : Z) : list Z :=
  take (Z.to_nat i) l ++ le_bytes w v ++ drop (Z.to_nat i + w) l.
Definition field (l : list Z) (w : nat) (i : Z) : Z := le_value (take w (drop (Z.to_nat i) l)).

Lemma length_le_word w : ∀ v, length (le_bytes w v) = w.
Proof. induction w as [|w IH]; intros v; simpl; [done|]. by rewrite IH. Qed.

Lemma splice_length l w i v : 0 ≤ i → i + Z.of_nat w ≤ zlen l → length (splice l w i v) = length l.
Proof. intros. unfold splice. rewrite !length_app, length_take, length_drop, length_le_word. lia. Qed.

Lemma splice_splice l w i u v : 0 ≤ i → i + Z.of_nat w ≤ zlen l → splice (splice l w i u) w i v = splice l w i v.
Proof.
  intros. unfold splice at 1 3. f_equal; [|f_equal].
  - unfold splice. rewrite take_app_le by (rewrite length_take; lia). by rewrite take_take, Nat.min_id.
  - unfold splice. rewrite app_assoc. rewrite drop_app_ge; rewrite length_app, length_take, length_le_word; [|lia].
    by replace (Z.to_nat i + w - (Z.to_nat i `min` length l + w))%nat with 0%nat by lia.
Qed.

Lemma le_bytes_value bs : bytes_ok bs → le_bytes (length bs) (le_value bs) = bs.
Proof.
  induction 1 as [|b bs Hb _ IH]; [done|]. cbn [length le_bytes le_value]. unfold in_width in Hb. change (2 ^ 8) with 256 in Hb.
  f_equal; [rewrite Z.mul_comm, Z_mod_plus_full; by apply Z.mod_small|].
  rewrite Z.mul_comm, Z_div_plus_full, Z.div_small by lia. by rewrite Z.add_0_l.
Qed.

Lemma splice_field l w i : bytes_ok l → 0 ≤ i → i + Z.of_nat w ≤ zlen l → splice l w i (field l w i) = l.
Proof.
  intros Hl Hi Hw. unfold splice, field. set (t := take w (drop (Z.to_nat i) l)).
  assert (length t = w) as Ht by (unfold t; rewrite length_take, length_drop; lia).
  assert (le_bytes w (le_value t) = t) as ->.
  { rewrite <- Ht at 1. apply le_bytes_value. unfold t. by apply Forall_take, Forall_drop. }
  unfold t. rewrite <- drop_drop. by rewrite !take_drop.
Qed.

Lemma splice_1 l i v : 0 ≤ i < zlen l → splice l 1 i v = <[Z.to_nat i := u8 v]> l.
Proof.
  intros Hi. unfold splice. simpl. symmetry. rewrite insert_take_drop by lia. by rewrite Nat.add_1_r.
Qed.

Lemma field_1 l i b : l !! Z.to_nat i = Some b → field l 1 i = b.
Proof. intros Hb. unfold field. rewrite (drop_S _ _ _ Hb). simpl. lia. Qed.

(** ** Walking bits *)

(** What flips of [n] bits from [b] do to byte [k]. *)
Fixpoint mask (n : nat) (b k : Z) : Z :=
  match n with
  | O => 0
  | S n => Z.lxor (if decide (b / 8 = k) then Z.shiftr 128 (b mod 8) else 0) (mask n (b + 1) k)
  end.

Definition xor_bytes (f : Z → Z) (l : list Z) : list Z := imap (λ k b, Z.lxor b (f (Z.of_nat k))) l.

Lemma xor_bytes_comp f g l : xor_bytes f (xor_bytes g l) = xor_bytes (λ k, Z.lxor (g k) (f k)) l.
Proof.
  apply list_eq. intros k. unfold xor_bytes. rewrite !list_lookup_imap. destruct (l !! k); simpl; [|done].
  by rewrite Z.lxor_assoc.
Qed.

Lemma xor_bytes_ext f g l : (∀ k, 0 ≤ k < zlen l → f k = g k) → xor_bytes f l = xor_bytes g l.
Proof.
  intros Hfg. apply list_eq. intros k. unfold xor_bytes. rewrite !list_lookup_imap. destruct (l !! k) as [b|] eqn:Hb; simpl; [|done].
  apply lookup_lt_Some in Hb. by rewrite Hfg by lia.
Qed.

Lemma xor_bytes_0 l : xor_bytes (λ _, 0) l = l.
Proof.
  apply list_eq. intros k. unfold xor_bytes. rewrite list_lookup_imap. destruct (l !! k); simpl; [by rewrite Z.lxor_0_r|done].
Qed.

Lemma xor_bytes_twice f l : xor_bytes f (xor_bytes f l) = l.
Proof. rewrite xor_bytes_comp. rewrite <- (xor_bytes_0 l) at 2. apply xor_bytes_ext. intros k _. apply Z.lxor_nilpotent. Qed.

Lemma xor_bytes_at f l i b : l !! i = Some b → (∀ k, 0 ≤ k → k ≠ Z.of_nat i → f k = 0) →
  xor_bytes f l = <[i := Z.lxor b (f (Z.of_nat i))]> l.
Proof.
  intros Hb Hf. apply list_eq. intros k. unfold xor_bytes. rewrite list_lookup_imap. destruct (decide (k = i)) as [->|Hk].
  - rewrite Hb, list_lookup_insert_eq; [done|]. by eapply lookup_lt_Some.
  - rewrite list_lookup_insert_ne by done. destruct (l !! k); simpl; [|done]. by rewrite Hf, Z.lxor_0_r by lia.
Qed.

Section Flips.
Context {runner : Runner}.

Lemma wp_dupd f s (Q : unit → det → Prop) : Q tt (f s) → wp (dupd f) s Q.
Proof. done. Qed.

Lemma wp_byte_at a i x s (Q : Z → det → Prop) : a !! Z.to_nat i = Some x → Q x s → wp (byte_at a i) s Q.
Proof. unfold byte_at. by intros ->. Qed.

Lemma FLIP_BIT_ok b s (Q : unit → det → Prop) : 0 ≤ b < 8 * zlen (out_buf s) →
  Q tt (set_out_buf (xor_bytes (mask 1 b) (out_buf s)) s) → wp (FLIP_BIT b) s Q.
Proof.
  intros Hb HQ. unfold FLIP_BIT. apply wp_bind, wp_get.
  assert (0 ≤ b / 8 < zlen (out_buf s)) as Hd by (split; [apply Z.div_pos; lia|apply Z.div_lt_upper_bound; lia]).
  rewrite Z.shiftr_div_pow2 by lia. change (2 ^ 3) with 8.
  destruct (lookup_lt_is_Some_2 (out_buf s) (Z.to_nat (b / 8)) ltac:(lia)) as [v Hv].
  apply wp_bind. eapply wp_byte_at; [done|]. apply wp_dupd. change 7 with (Z.ones 3). rewrite Z.land_ones by lia. change (2 ^ 3) with 8.
  rewrite (xor_bytes_at (mask 1 b) _ _ _ Hv) in HQ.
  - simpl mask in HQ. rewrite decide_True, Z.lxor_0_r in HQ by lia. exact HQ.
  - intros k Hk Hne. simpl. rewrite decide_False; [done|]. intros <-. apply Hne. lia.
Qed.

Lemma flip_bits_ok n : ∀ b s (Q : unit → det → Prop), 0 ≤ b → b + Z.of_nat n ≤ 8 * zlen (out_buf s) →
  Q tt (set_out_buf (xor_bytes (mask n b) (out_buf s)) s) → wp (flip_bits n b) s Q.
Proof.
  unfold flip_bits. induction n as [|n IH]; intros b s Q Hb Hn HQ; cbn [for_loop].
  { apply wp_ret. simpl mask in HQ. rewrite xor_bytes_0 in HQ. by destruct s. }
  apply wp_bind, FLIP_BIT_ok; [lia|]. apply IH; [lia| |].
  - simpl. unfold xor_bytes. rewrite length_imap. lia.
  - simpl. rewrite xor_bytes_comp. erewrite xor_bytes_ext; [exact HQ|]. intros k _. simpl. by rewrite Z.lxor_0_r.
Qed.

(** ** Frames *)

(** The state after some attempts: the same buffers, and all earlier runs. *)
Record keeps (s0 s : det) : Prop := {
  ke_out : out_buf s = out_buf s0;
  ke_eff : eff_map s = eff_map s0;
  ke_tested : ∀ l, l ∈ tested s0 → l ∈ tested s;
  ke_collect : length (a_collect s) = length (a_collect s0) }.

Lemma keeps_refl s : keeps s s.
Proof. by split. Qed.

Lemma keeps_trans s1 s2 s3 : keeps s1 s2 → keeps s2 s3 → keeps s1 s3.
Proof. intros [] []. split; try congruence. auto. Qed.

Lemma wp_run s (P : bool → det → Prop) :
  (∀ ok, P ok (set_tested (tested s ++ [out_buf s]) (trace_cksum (tested s) (out_buf s)) s)) → wp common_fuzz_stuff s P.
Proof. intros HP. apply wp_bind, wp_get. apply wp_bind, wp_put, wp_ret, HP. Qed.

Lemma elem_of_run (l l0 : list Z) ls : l ∈ ls → l ∈ ls ++ [l0].
Proof. intros. apply elem_of_app. by left. Qed.

Lemma elem_of_run_last (l : list Z) ls : l ∈ ls ++ [l].
Proof. apply elem_of_app. right. by left. Qed.

(** One walking flip: the flipped buffer is run, and flipped back. *)
Lemma flip_step_ok n cur s : 0 ≤ cur → cur + Z.of_nat n ≤ 8 * zlen (out_buf s) →
  does (flip_step n cur) s (λ s', keeps s s' ∧ stage_max s' = stage_max s ∧ xor_bytes (mask n cur) (out_buf s) ∈ tested s').
Proof.
  intros Hc Hn. unfold flip_step. apply does_bind_unit, wp_dupd. apply does_bind_unit, flip_bits_ok; [done|done|].
  apply does_bind, wp_run. intros [|]; simpl; [|by apply wp_ret].
  apply does_bind_unit, flip_bits_ok; simpl; [done|unfold xor_bytes; rewrite length_imap; done|].
  apply does_ret. simpl. split; [|split; [done|apply elem_of_run_last]]. split; simpl; [apply xor_bytes_twice|done| |done].
  intros l. apply elem_of_run.
Qed.

Lemma walking_ok n body (I : Z → det → Prop) s : 0 ≤ n < 2 ^ 32 →
  I 0 (set_stage_max n s) → (∀ i s, 0 ≤ i < n → I i s → does (body i) s (I (i + 1))) →
  does (walking n body) s (λ s', ∃ s1, I n s1 ∧ s' = set_stage_cur n s1).
Proof.
  intros Hn H0 Hstep. unfold walking. rewrite wrap_small by lia. apply does_bind_unit, wp_dupd.
  apply wp_bind. eapply wp_mono; [apply (does_all_loop I); [exact H0|]|].
  - intros j s' Hj. apply Hstep. lia.
  - rewrite Z.add_0_l, Z2Nat.id by lia. intros [|] s' Hs; [|by apply wp_ret]. apply wp_bind, wp_dupd, wp_ret. intros _. exists s'. by split; [apply Hs|].
Qed.

(** A stage of walking bits: every flip is run. *)
Lemma walking_flips n (k : nat) body s :
  n = 8 * zlen (out_buf s) - Z.of_nat k + 1 → 0 ≤ n < 2 ^ 32 →
  (∀ cur s', 0 ≤ cur < n → keeps s s' →
     does (body cur) s' (λ s2, keeps s' s2 ∧ xor_bytes (mask k cur) (out_buf s) ∈ tested s2)) →
  does (walking n body) s (λ s', keeps s s' ∧ ∀ cur, 0 ≤ cur < n → xor_bytes (mask k cur) (out_buf s) ∈ tested s').
Proof.
  intros Hn Hr Hbody.
  eapply does_mono; [apply (walking_ok n body (λ i s', keeps s s' ∧ ∀ cur, 0 ≤ cur < i → xor_bytes (mask k cur) (out_buf s) ∈ tested s'))|].
  - done.
  - split; [by split|]. lia.
  - intros i s' Hi [K Hf]. eapply does_mono; [by apply Hbody|]. intros s2 [K2 Hin]. split; [by eapply keeps_trans|].
    intros cur Hcur. destruct (decide (cur = i)) as [->|]; [done|]. apply (ke_tested _ _ K2), Hf. lia.
  - intros s' (s1 & [[K1 K2 K3 K4] Hf] & ->). split; [by split|done].
Qed.
End Flips.

Section Token.
Context {runner : Runner} (sw : switches).

Lemma collect_ok i s (Q : unit → det → Prop) : 0 ≤ i < zlen (out_buf s) →
  (∀ s', keeps s s' → Q tt s') → wp (collect i) s Q.
Proof.
  intros Hi HQ. unfold collect. apply wp_bind, wp_get. destruct (lookup_lt_is_Some_2 (out_buf s) (Z.to_nat i) ltac:(lia)) as [v Hv].
  apply wp_bind. eapply wp_byte_at; [done|]. apply wp_dupd, HQ. split; simpl; try done. case_decide; [by rewrite length_insert|done].
Qed.

Lemma flush_auto_ok s (Q : unit → det → Prop) : (∀ s', keeps s s' → Q tt s') → wp flush_auto s Q.
Proof. intros HQ. unfold flush_auto. apply wp_bind, wp_get. case_decide; [apply wp_dupd|apply wp_ret]; apply HQ; by split. Qed.

Lemma token_step_ok cur s (Q : unit → det → Prop) : 0 ≤ cur < 8 * zlen (out_buf s) →
  (∀ s', keeps s s' → Q tt s') → wp (token_step cur) s Q.
Proof.
  intros Hc HQ. assert (0 ≤ Z.shiftr cur 3 < zlen (out_buf s)) as Hs.
  { rewrite Z.shiftr_div_pow2 by lia. change (2 ^ 3) with 8. split; [apply Z.div_pos; lia|apply Z.div_lt_upper_bound; lia]. }
  unfold token_step. apply wp_bind, wp_get.
  assert (∀ s', keeps s s' → wp (if decide (last_cksum s ≠ first_cksum s) then collect (Z.shiftr cur 3) else mret tt) s' Q) as Hend.
  { intros s' K. case_decide; [|by apply wp_ret, HQ]. apply collect_ok; [by rewrite (ke_out _ _ K)|].
    intros s'' K2. apply HQ. by eapply keeps_trans. }
  apply wp_bind. destruct (decide (cur = _ ∧ _)); [|destruct (decide (last_cksum s ≠ prev_cksum s))].
  - apply wp_bind, collect_ok; [done|]. intros s1 K1. apply flush_auto_ok. intros s2 K2. apply Hend. by eapply keeps_trans.
  - apply wp_bind, flush_auto_ok. intros s1 [E1 E2 E3 E4]. apply wp_dupd, Hend. by split.
  - apply wp_ret, Hend, keeps_refl.
Qed.

(** ** The three stages of walking bits *)

Lemma flip1_stage_ok len s : len = zlen (out_buf s) → 0 < len < 2 ^ 28 →
  does (flip1_stage sw len) s (λ s', keeps s s' ∧ ∀ cur, 0 ≤ cur < 8 * len → xor_bytes (mask 1 cur) (out_buf s) ∈ tested s').
Proof.
  intros Hl Hr. unfold flip1_stage. rewrite Z.shiftl_mul_pow2 by lia. change (2 ^ 3) with 8. rewrite (Z.mul_comm len).
  apply (walking_flips (8 * len) 1); [lia|lia|]. intros cur s' Hc K. apply does_seq with (λ s2, keeps s' s2 ∧ xor_bytes (mask 1 cur) (out_buf s) ∈ tested s2).
  - eapply does_mono; [apply flip_step_ok; [lia|rewrite (ke_out _ _ K); lia]|]. rewrite (ke_out _ _ K). naive_solver.
  - intros s2 [K2 Hin]. apply does_bind_unit. case_decide.
    + apply token_step_ok; [rewrite (ke_out _ _ K2), (ke_out _ _ K); lia|]. intros s3 K3. apply does_ret.
      split; [by eapply keeps_trans|by apply (ke_tested _ _ K3)].
    + by apply wp_ret, does_ret.
Qed.

Lemma flipn_stage_ok k len s : len = zlen (out_buf s) → 0 < len < 2 ^ 28 → (1 ≤ k ≤ 8)%nat →
  does (walking (Z.shiftl len 3 - (Z.of_nat k - 1)) (flip_step k)) s
    (λ s', keeps s s' ∧ ∀ cur, 0 ≤ cur ≤ 8 * len - Z.of_nat k → xor_bytes (mask k cur) (out_buf s) ∈ tested s').
Proof.
  intros Hl Hr Hk. rewrite Z.shiftl_mul_pow2 by lia. change (2 ^ 3) with 8.
  eapply does_mono; [apply (walking_flips _ k); [lia|lia|]|].
  - intros cur s' Hc K. eapply does_mono; [apply flip_step_ok; [lia|rewrite (ke_out _ _ K); lia]|]. rewrite (ke_out _ _ K). naive_solver.
  - intros s' [K Hf]. split; [done|]. intros cur Hc. apply Hf. lia.
Qed.
End Token.

(** ** Flips inside one byte *)

(** The change of a byte by a flip of [n] bits from its bit [c], first bit highest. *)
Definition pattern (n : nat) (c : Z) : Z := mask n c 0.

Lemma mask_in_byte n : ∀ i c k, 0 ≤ c → c + Z.of_nat n ≤ 8 → mask n (8 * i + c) k = if decide (k = i) then pattern n c else 0.
Proof.
  unfold pattern. induction n as [|n IH]; intros i c k Hc Hn; simpl mask; [by case_decide|].
  replace (8 * i + c + 1) with (8 * i + (c + 1)) by lia. rewrite IH by lia.
  assert ((8 * i + c) / 8 = i) as -> by (rewrite Z.mul_comm, Z.div_add_l, Z.div_small by lia; lia).
  assert ((8 * i + c) mod 8 = c) as -> by (rewrite Z.mul_comm, Z.add_comm, Z_mod_plus_full; apply Z.mod_small; lia).
  rewrite Z.div_small, Z.mod_small by lia. simpl.
  destruct (decide (k = i)) as [->|]; [by rewrite decide_True|by rewrite decide_False, Z.lxor_0_r by done].
Qed.

(** A change that [could_be_bitflip] accepts is one of these, or of the whole byte. *)
Definition flip_pattern (r : Z) : bool :=
  bool_decide (r = 255) ||
  existsb (λ n, existsb (λ c, bool_decide (c + Z.of_nat n ≤ 8) && bool_decide (pattern n c = r)) [0; 1; 2; 3; 4; 5; 6; 7]) [1; 2; 4]%nat.

Definition flips_agree (r : Z) : bool := negb (could_be_bitflip r) || bool_decide (r = 0) || flip_pattern r.

Lemma flips_agree_all : forallb flips_agree (seqZ 0 256) = true.
Proof. vm_compute. reflexivity. Qed.

Lemma could_be_bitflip_byte r : 0 < r < 256 → could_be_bitflip r = true →
  r = 255 ∨ ∃ n c, (n = 1 ∨ n = 2 ∨ n = 4)%nat ∧ 0 ≤ c ∧ c + Z.of_nat n ≤ 8 ∧ pattern n c = r.
Proof.
  intros Hr Hf. pose proof flips_agree_all as Hall. rewrite forallb_forall in Hall.
  specialize (Hall r ltac:(apply list_elem_of_In, elem_of_seqZ; lia)). unfold flips_agree in Hall. rewrite Hf in Hall. simpl in Hall.
  rewrite bool_decide_eq_false_2 in Hall by lia. simpl in Hall. unfold flip_pattern in Hall.
  apply orb_prop in Hall as [H255%bool_decide_eq_true|Hex]; [by left|right].
  apply existsb_exists in Hex as (n & Hn & Hex). apply existsb_exists in Hex as (c & Hc & Hex).
  apply andb_prop in Hex as [H1%bool_decide_eq_true H2%bool_decide_eq_true]. exists n, c.
  split; [simpl in Hn; naive_solver|]. split; [simpl in Hc; lia|done].
Qed.

(** ** Attempts at one position *)

Section Attempts.
Context {runner : Runner} (sw : switches).

(** The buffer differs from that of [s0] in the [w] bytes at [i] at most. *)
Record within (s0 : det) (w : nat) (i : Z) (s : det) : Prop := {
  wi_out : ∃ u, out_buf s = splice (out_buf s0) w i u;
  wi_eff : eff_map s = eff_map s0;
  wi_tested : ∀ l, l ∈ tested s0 → l ∈ tested s;
  wi_collect : length (a_collect s) = length (a_collect s0) }.

Definition fits (s : det) (w : nat) (i : Z) : Prop := bytes_ok (out_buf s) ∧ 0 ≤ i ∧ i + Z.of_nat w ≤ zlen (out_buf s).

Lemma keeps_within s0 w i s : fits s0 w i → keeps s0 s → within s0 w i s.
Proof. intros (Hb & Hi & Hw) [K1 K2 K3 K4]. split; try done. exists (field (out_buf s0) w i). by rewrite K1, splice_field. Qed.

Lemma put_le_ok s0 w i v s (Q : unit → det → Prop) : fits s0 w i → within s0 w i s →
  Q tt (set_out_buf (splice (out_buf s0) w i v) s) → wp (put_le w i v) s Q.
Proof.
  intros (Hb & Hi & Hw) [(u & Hu) _ _ _] HQ. unfold put_le. apply wp_bind, wp_get.
  rewrite decide_True by (rewrite Hu, splice_length by done; done). apply wp_put.
  change (take _ _ ++ _ ++ _) with (splice (out_buf s) w i v). by rewrite Hu, splice_splice.
Qed.

(** The last step: the bytes are put back. *)
Lemma put_back_ok s0 w i s (Q : unit → det → Prop) : fits s0 w i → within s0 w i s →
  (∀ s', keeps s0 s' → (∀ l, l ∈ tested s → l ∈ tested s') → Q tt s') → wp (put_le w i (field (out_buf s0) w i)) s Q.
Proof.
  intros Hf Hw HQ. eapply put_le_ok; [done|done|]. destruct Hf as (Hb & Hi & Hl), Hw as [_ W2 W3 W4]. apply HQ; [|done].
  split; simpl; try done. by apply splice_field.
Qed.

Lemma det_attempt_ok s0 w i c v s : fits s0 w i → within s0 w i s →
  does (attempt c w i v) s (λ s', within s0 w i s' ∧ (∀ l, l ∈ tested s → l ∈ tested s') ∧
    (c = true → splice (out_buf s0) w i v ∈ tested s')).
Proof.
  intros Hf Hw. unfold attempt. destruct c.
  - apply does_bind_unit. eapply put_le_ok; [done|done|]. apply does_bind, wp_run. intros [|]; simpl; [|by apply wp_ret].
    apply does_bind_unit, wp_dupd, does_ret. destruct Hw as [_ W2 W3 W4].
    split; [|split; [intros l; simpl; apply elem_of_run|intros _; simpl; apply elem_of_run_last]].
    split; simpl; [by eexists|done| |done]. intros l Hl. by apply elem_of_run, W3.
  - apply does_bind_unit, wp_dupd, does_ret. destruct Hw as [W1 W2 W3 W4]. by split.
Qed.

Lemma get_le_ok s w i (Q : Z → det → Prop) : i + Z.of_nat w ≤ zlen (out_buf s) → Q (field (out_buf s) w i) s → wp (get_le w i) s Q.
Proof. intros Hi HQ. unfold get_le. apply wp_bind, wp_get. by rewrite decide_True. Qed.

(** ** Positions *)

(** A byte of [w] from [i] is flagged in the effector map. *)
Definition flagged (e : list Z) (w : nat) (i : Z) : Prop :=
  ∃ k v, (k < w)%nat ∧ e !! Z.to_nat (EFF_APOS (i + Z.of_nat k)) = Some v ∧ v ≠ 0.

Lemma eff_apos p : EFF_APOS p = p / 8.
Proof. unfold EFF_APOS. by rewrite Z.shiftr_div_pow2. Qed.

Lemma eff_alen_bound len i : 0 ≤ i < len → 0 ≤ EFF_APOS i < EFF_ALEN len.
Proof.
  intros Hi. unfold EFF_ALEN. rewrite !eff_apos. change 7 with (Z.ones 3). rewrite Z.land_ones by lia. change (2 ^ 3) with 8.
  split; [apply Z.div_pos; lia|]. case_decide; Z.to_euclidean_division_equations; lia.
Qed.

Lemma effective_ok w i s : 0 ≤ i → (∀ k, (k < w)%nat → is_Some (eff_map s !! Z.to_nat (EFF_APOS (i + Z.of_nat k)))) →
  wp (effective w i) s (λ b s', s' = s ∧ (b = true ↔ flagged (eff_map s) w i)).
Proof.
  intros Hi Hin. unfold effective. apply wp_bind, wp_get. apply wp_bind.
  assert (∀ ks, Forall (λ k, is_Some (eff_map s !! Z.to_nat (EFF_APOS (i + Z.of_nat k)))) ks →
    wp (mapM (λ k, byte_at (eff_map s) (EFF_APOS (i + Z.of_nat k))) ks) s
      (λ l s', s' = s ∧ Forall2 (λ k v, eff_map s !! Z.to_nat (EFF_APOS (i + Z.of_nat k)) = Some v) ks l)) as Hmap.
  { induction 1 as [|k ks [v Hv] _ IH]; simpl; [by apply wp_ret|]. apply wp_bind. eapply wp_byte_at; [done|].
    apply wp_bind. eapply wp_mono; [exact IH|]. intros l s' [-> Hl]. apply wp_ret. split; [done|by constructor]. }
  eapply wp_mono; [apply Hmap, Forall_forall; intros k [_ Hk]%elem_of_seq; apply Hin; lia|].
  intros l s' [-> Hl]. apply wp_ret. split; [done|]. rewrite existsb_exists. split.
  - intros (v & Hv%list_elem_of_In & Hne). apply list_elem_of_lookup_1 in Hv as [k Hk].
    destruct (Forall2_lookup_r _ _ _ _ _ Hl Hk) as (k' & Hk' & Hlk). apply lookup_seq in Hk' as [-> Hlt].
    exists k, v. split; [done|]. split; [done|]. by apply negb_true_iff, bool_decide_eq_false in Hne.
  - intros (k & v & Hk & Hv & Hne). destruct (Forall2_lookup_l _ _ _ k k Hl) as (v' & Hv' & Hlk); [by apply lookup_seq|].
    exists v'. split; [apply list_elem_of_In; by eapply list_elem_of_lookup_2|]. apply negb_true_iff, bool_decide_eq_false. congruence.
Qed.

(** A stage on [w] bytes: what the body achieves at a position holds of every flagged one. *)
Lemma positions_ok w len per body s0 (F : Z → list (list Z) → Prop) :
  len = zlen (out_buf s0) → bytes_ok (out_buf s0) → EFF_ALEN len ≤ zlen (eff_map s0) → (1 ≤ w)%nat → Z.of_nat w ≤ len →
  (∀ i ls ls', F i ls → (∀ l, l ∈ ls → l ∈ ls') → F i ls') →
  (∀ i s, fits s0 w i → flagged (eff_map s0) w i → keeps s0 s → does (body i) s (λ s', keeps s0 s' ∧ (∀ l, l ∈ tested s → l ∈ tested s') ∧ F i (tested s'))) →
  does (positions w len per body) s0 (λ s', keeps s0 s' ∧
    ∀ i, 0 ≤ i ≤ len - Z.of_nat w → flagged (eff_map s0) w i → F i (tested s')).
Proof.
  intros Hlen Hb He Hw1 Hw HF Hbody. unfold positions. apply does_bind_unit, wp_dupd. set (s1 := set_stage_cur _ _).
  assert (keeps s0 s1) as K1 by by split.
  eapply does_mono; [apply (does_all_loop (λ j s, keeps s0 s ∧ ∀ i, 0 ≤ i < j → flagged (eff_map s0) w i → F i (tested s)))|].
  - split; [done|]. lia.
  - intros i s Hi [K Hf]. assert (fits s0 w i) as Hfit by (split; [done|lia]).
    apply does_bind. eapply wp_mono; [apply effective_ok; [lia|]|].
    { intros k Hk. rewrite (ke_eff _ _ K). apply lookup_lt_is_Some_2. pose proof (eff_alen_bound len (i + Z.of_nat k) ltac:(lia)). lia. }
    rewrite (ke_eff _ _ K). intros eff s' [-> Heff].
    assert (∀ s', (∀ l, l ∈ tested s → l ∈ tested s') → (flagged (eff_map s0) w i → F i (tested s')) →
      ∀ i0, 0 ≤ i0 < i + 1 → flagged (eff_map s0) w i0 → F i0 (tested s')) as Hnext.
    { intros s' Hmono Hnew i0 Hi0 Hfl. destruct (decide (i0 = i)) as [->|]; [by apply Hnew|]. eapply HF; [apply Hf; [lia|done]|done]. }
    destruct eff; simpl.
    + eapply does_mono; [apply Hbody; [done|by apply Heff|done]|]. intros s' (K' & Hmono & Hi'). split; [done|]. by apply Hnext.
    + apply does_bind_unit, wp_dupd, does_ret. split; [destruct K; by split|]. apply Hnext; [done|]. intros Hfl%Heff. done.
  - intros s [K Hf]. split; [done|]. intros i Hi. apply Hf. lia.
Qed.
End Attempts.

(** ** All stages of bit flips *)

Section Bitflips.
Context {runner : Runner} (sw : switches).

(** As [keeps], while the effector map is made: it covers the whole input. *)
Record grows (s0 : det) (s : det) : Prop := {
  gr_out : out_buf s = out_buf s0;
  gr_eff : EFF_ALEN (zlen (out_buf s0)) ≤ zlen (eff_map s);
  gr_tested : ∀ l, l ∈ tested s0 → l ∈ tested s }.

Lemma grows_keeps s0 s s' : grows s0 s → keeps s s' → grows s0 s'.
Proof. intros [G1 G2 G3] [K1 K2 K3 _]. split; [congruence|by rewrite K2|auto]. Qed.

Lemma put_eff_ok i v s (Q : unit → det → Prop) : 0 ≤ i < zlen (eff_map s) →
  Q tt (set_eff_map (<[Z.to_nat i := v]> (eff_map s)) s) → wp (put_eff i v) s Q.
Proof. intros Hi HQ. unfold put_eff. apply wp_bind, wp_get. rewrite decide_True by done. by apply wp_put. Qed.

Lemma eff_setup_ok len s : len = zlen (out_buf s) → 0 < len →
  wp (eff_setup len) s (λ _ s', grows s s').
Proof.
  intros Hl Hp. unfold eff_setup. apply wp_bind, wp_dupd. apply wp_bind, wp_dupd.
  pose proof (eff_alen_bound len 0 ltac:(lia)). pose proof (eff_alen_bound len (len - 1) ltac:(lia)).
  set (s1 := set_eff_cnt _ _).
  assert (EFF_ALEN len ≤ zlen (eff_map s1)) as He.
  { unfold s1. simpl. rewrite length_app, length_fmap, length_seq. lia. }
  apply wp_bind, put_eff_ok; [lia|]. case_decide.
  - apply wp_bind, put_eff_ok; [cbn [eff_map set_eff_map]; rewrite length_insert; lia|]. apply wp_dupd. split; cbn [out_buf eff_map tested set_eff_map set_eff_cnt]; [done| |done].
    rewrite !length_insert, <- Hl. exact He.
  - apply wp_ret. split; cbn [out_buf eff_map tested set_eff_map set_eff_cnt]; [done| |done]. rewrite length_insert, <- Hl. exact He.
Qed.

Lemma flip_byte_ok cur b s (Q : unit → det → Prop) : out_buf s !! Z.to_nat cur = Some b →
  Q tt (set_out_buf (<[Z.to_nat cur := Z.lxor b 255]> (out_buf s)) s) → wp (flip_byte cur) s Q.
Proof. intros Hb HQ. unfold flip_byte. apply wp_bind, wp_get. apply wp_bind. eapply wp_byte_at; [done|]. by apply wp_dupd. Qed.

Lemma flip8_step_ok s0 cur b s : 0 ≤ cur → out_buf s0 !! Z.to_nat cur = Some b → grows s0 s →
  does (flip8_step sw (zlen (out_buf s0)) cur) s (λ s', grows s0 s' ∧ (∀ l, l ∈ tested s → l ∈ tested s') ∧
    <[Z.to_nat cur := Z.lxor b 255]> (out_buf s0) ∈ tested s').
Proof.
  intros Hc Hb [G1 G2 G3]. unfold flip8_step. apply does_bind_unit, wp_dupd.
  apply does_bind_unit. eapply flip_byte_ok; [simpl; by rewrite G1|]. apply does_bind, wp_run. intros [|]; simpl; [|by apply wp_ret].
  apply does_bind, wp_get. pose proof (lookup_lt_Some _ _ _ Hb). pose proof (eff_alen_bound (zlen (out_buf s0)) cur ltac:(lia)) as Hapos.
  destruct (lookup_lt_is_Some_2 (eff_map s) (Z.to_nat (EFF_APOS cur)) ltac:(lia)) as [e He].
  apply does_bind. eapply wp_byte_at; [exact He|]. simpl. rewrite G1.
  set (s1 := set_tested _ _ _). set (l1 := <[Z.to_nat cur := Z.lxor b 255]> (out_buf s0)) in *.
  assert (∀ s2, out_buf s2 = l1 → EFF_ALEN (zlen (out_buf s0)) ≤ zlen (eff_map s2) → tested s2 = tested s ++ [l1] →
    does (_ ← flip_byte cur; mret true) s2 (λ s', grows s0 s' ∧ (∀ l, l ∈ tested s → l ∈ tested s') ∧ l1 ∈ tested s')) as Hend.
  { intros s2 Ho He2 Ht. apply does_bind_unit. eapply flip_byte_ok; [rewrite Ho; unfold l1; apply list_lookup_insert_eq; lia|].
    apply does_ret. simpl. rewrite Ht. split; [|split; [intros l; apply elem_of_run|apply elem_of_run_last]].
    split; simpl; [|done|rewrite Ht; intros l Hl; by apply elem_of_run, G3].
    rewrite Ho. unfold l1. rewrite list_insert_insert_eq, Z.lxor_assoc, Z.lxor_nilpotent, Z.lxor_0_r. by apply list_insert_id. }
  apply does_bind_unit. case_decide; [case_decide|].
  - apply wp_bind, put_eff_ok; [simpl; lia|]. apply wp_dupd, Hend; simpl; [by rewrite ?G1|by rewrite length_insert|by rewrite ?G1].
  - apply wp_ret, Hend; simpl; [by rewrite ?G1|done|by rewrite ?G1].
  - apply wp_ret, Hend; simpl; [by rewrite ?G1|done|by rewrite ?G1].
Qed.

Lemma eff_fill_ok s0 s : grows s0 s → wp (eff_fill (zlen (out_buf s0))) s (λ _ s', grows s0 s' ∧ tested s' = tested s).
Proof.
  intros [G1 G2 G3]. unfold eff_fill. apply wp_bind, wp_get. case_decide; [|by apply wp_ret].
  rewrite decide_True by done. apply wp_dupd. split; [|done]. split; simpl; [done| |done].
  rewrite length_app, length_replicate, length_drop. lia.
Qed.

Lemma flip8_stage_ok len s : len = zlen (out_buf s) → 0 < len < 2 ^ 28 →
  does (flip8_stage sw len) s (λ s', grows s s' ∧
    ∀ (i : nat) b, out_buf s !! i = Some b → <[i := Z.lxor b 255]> (out_buf s) ∈ tested s').
Proof.
  intros Hl Hr. unfold flip8_stage. apply does_bind_unit. eapply wp_mono; [apply eff_setup_ok; [done|lia]|]. intros [] s1 G1.
  apply does_bind_unit, wp_dupd.
  eapply does_seq with (P := λ s', grows s s' ∧ ∀ (i : nat) b, out_buf s !! i = Some b → <[i := Z.lxor b 255]> (out_buf s) ∈ tested s').
  - eapply does_mono; [apply (walking_ok len _ (λ j s', grows s s' ∧ ∀ (i : nat) b, Z.of_nat i < j → out_buf s !! i = Some b →
      <[i := Z.lxor b 255]> (out_buf s) ∈ tested s')); [lia| |]|].
    + split; [destruct G1; by split|]. lia.
    + intros j s' Hj [G Hf]. destruct (lookup_lt_is_Some_2 (out_buf s) (Z.to_nat j) ltac:(lia)) as [b Hb].
      rewrite Hl. eapply does_mono; [apply (flip8_step_ok s j b s'); [lia|done|done]|].
      intros s'' (G' & Hmono & Hin). split; [done|]. intros i b' Hi Hb'.
      destruct (decide (i = Z.to_nat j)) as [->|]; [by replace b' with b by congruence|]. apply Hmono, Hf; [lia|done].
    + intros s' (s2 & [G Hf] & ->). split; [destruct G; by split|]. intros i b Hb. simpl. apply Hf; [|done].
      apply lookup_lt_Some in Hb. lia.
  - intros s' [G Hf]. apply does_bind_unit. rewrite Hl. eapply wp_mono; [by apply eff_fill_ok|].
    intros [] s'' [G' Ht]. apply does_ret. split; [done|]. by rewrite Ht.
Qed.

(** The flips inside bytes that are run. *)
Definition flips_done (l : list Z) (ls : list (list Z)) : Prop :=
  ∀ (i : nat) b r, l !! i = Some b → 0 ≤ r < 256 → could_be_bitflip r = true → <[i := Z.lxor b r]> l ∈ ls.

Lemma flips_in_byte (l : list Z) (ls : list (list Z)) (i : nat) b n c : l !! i = Some b →
  (∀ cur, 0 ≤ cur ≤ 8 * zlen l - Z.of_nat n → xor_bytes (mask n cur) l ∈ ls) →
  0 ≤ c → c + Z.of_nat n ≤ 8 → <[i := Z.lxor b (pattern n c)]> l ∈ ls.
Proof.
  intros Hb Hf Hc Hn. pose proof (lookup_lt_Some _ _ _ Hb).
  assert (xor_bytes (mask n (8 * Z.of_nat i + c)) l = <[i := Z.lxor b (pattern n c)]> l) as <-; [|apply Hf; lia].
  erewrite xor_bytes_at; [|exact Hb|].
  - by rewrite mask_in_byte, decide_True by lia.
  - intros k _ Hk. by rewrite mask_in_byte, decide_False by lia.
Qed.

Lemma flip_bytes_ok w len s0 : len = zlen (out_buf s0) → bytes_ok (out_buf s0) → EFF_ALEN len ≤ zlen (eff_map s0) →
  (1 ≤ w)%nat → Z.of_nat w ≤ len → does (flip_bytes_stage w len) s0 (λ s', keeps s0 s').
Proof.
  intros Hl Hb He Hw Hle. eapply does_mono; [apply (positions_ok w len 1 _ s0 (λ _ _, True)); try done|by intros s' [? _]].
  intros i s Hfit _ K. pose proof Hfit as (_ & Hi & Hiw). apply does_bind. eapply get_le_ok; [by rewrite (ke_out _ _ K)|].
  eapply does_seq; [apply (det_attempt_ok s0); [done|by apply keeps_within]|]. intros s1 (W1 & Hm1 & _).
  apply does_bind_unit. rewrite (ke_out _ _ K). apply put_back_ok; [done|done|]. intros s2 K2 Hm2. apply does_ret.
  split; [done|]. split; [auto|done].
Qed.

Lemma bitflip_stages_ok len s : len = zlen (out_buf s) → 0 < len < 2 ^ 28 → bytes_ok (out_buf s) →
  does (bitflip_stages sw len) s (λ s', grows s s' ∧ out_buf s ∈ tested s' ∧ flips_done (out_buf s) (tested s')).
Proof.
  intros Hl Hr Hb. unfold bitflip_stages. apply does_bind, wp_run. intros [|]; simpl; [|by apply wp_ret].
  apply does_bind_unit, wp_dupd. set (s1 := set_first_cksum _ _).
  assert (∀ l, l ∈ tested s → l ∈ tested s1) as Ht1 by (intros l; simpl; apply elem_of_run).
  assert (out_buf s ∈ tested s1) as Hself by (simpl; apply elem_of_run_last).
  eapply does_seq; [by apply (flip1_stage_ok sw len s1)|]. intros s2 [K2 F1].
  eapply does_seq; [apply (flipn_stage_ok 2 len s2); [by rewrite (ke_out _ _ K2)|done|lia]|]. intros s3 [K3 F2].
  eapply does_seq; [apply (flipn_stage_ok 4 len s3); [by rewrite (ke_out _ _ K3), (ke_out _ _ K2)|done|lia]|]. intros s4 [K4 F4].
  pose proof (keeps_trans _ _ _ K3 K4) as K34. pose proof (keeps_trans _ _ _ K2 K34) as K14.
  eapply does_seq; [apply (flip8_stage_ok len s4); [by rewrite (ke_out _ _ K14)|done]|]. intros s5 [G F8].
  rewrite (ke_out _ _ K2) in F2. rewrite (ke_out _ _ K3), (ke_out _ _ K2) in F4. rewrite (ke_out _ _ K14) in F8.
  change (out_buf s1) with (out_buf s) in F1, F2, F4, F8.
  assert (∀ s', grows s4 s' → (∀ l, l ∈ tested s5 → l ∈ tested s') →
    grows s s' ∧ out_buf s ∈ tested s' ∧ flips_done (out_buf s) (tested s')) as Hend.
  { intros s' [G1 G2 G3] H5. rewrite (ke_out _ _ K14) in G1, G2. simpl in G1, G2.
    assert (∀ l, l ∈ tested s2 → l ∈ tested s') as H2 by (intros l Hin; by apply G3, (ke_tested _ _ K34)).
    assert (∀ l, l ∈ tested s3 → l ∈ tested s') as H3 by (intros l Hin; by apply G3, (ke_tested _ _ K4)).
    split; [split; [done|done|intros l Hin; by apply H2, (ke_tested _ _ K2), Ht1]|].
    split; [by apply H2, (ke_tested _ _ K2)|]. intros i b r Hi Hr' Hflip.
    destruct (decide (r = 0)) as [->|]; [rewrite Z.lxor_0_r, list_insert_id by done; by apply H2, (ke_tested _ _ K2)|].
    destruct (could_be_bitflip_byte r ltac:(lia) Hflip) as [->|(k & c & Hk & Hc & Hkc & <-)]; [by apply H5, F8|].
    destruct Hk as [->|[->| ->]]; eapply flips_in_byte; try done; intros cur Hcur; rewrite <- Hl in Hcur.
    - apply H2, F1. lia.
    - apply H3, F2. lia.
    - apply G3, F4. lia. }
  assert (out_buf s5 = out_buf s) as Ho5 by (rewrite (gr_out _ _ G), (ke_out _ _ K14); done).
  assert (EFF_ALEN len ≤ zlen (eff_map s5)) as He5 by (rewrite Hl; pose proof (gr_eff _ _ G) as Hg; by rewrite (ke_out _ _ K14) in Hg).
  case_decide; [by apply does_ret, Hend|].
  eapply does_seq; [apply (flip_bytes_ok 2 len s5); [by rewrite Ho5|by rewrite Ho5|done|lia|lia]|]. intros s6 K6.
  case_decide; [apply does_ret, Hend; [by eapply grows_keeps|apply K6]|].
  eapply does_mono; [apply (flip_bytes_ok 4 len s6)|].
  - by rewrite (ke_out _ _ K6), Ho5.
  - by rewrite (ke_out _ _ K6), Ho5.
  - by rewrite (ke_eff _ _ K6).
  - lia.
  - lia.
  - intros s7 K7. apply Hend; [by eapply grows_keeps; [|done]; eapply grows_keeps|]. intros l Hin. by apply (ke_tested _ _ K7), (ke_tested _ _ K6).
Qed.
End Bitflips.

(** ** Arithmetic and interesting values *)

Section Values.
Context {runner : Runner} (sw : switches).

Lemma lxor_u8 b x : in_width 8 b → Z.lxor b (u8 (Z.lxor b x)) = u8 x.
Proof.
  intros Hb. unfold wrap. rewrite <- !Z.land_ones by lia. apply Z.bits_inj'. intros k Hk.
  rewrite Z.lxor_spec, !Z.land_spec, Z.lxor_spec. destruct (decide (k < 8)).
  - rewrite Z.ones_spec_low by lia. rewrite !andb_true_r. by destruct (Z.testbit b k), (Z.testbit x k).
  - rewrite Z.ones_spec_high by lia. rewrite !andb_false_r, xorb_false_r. unfold in_width in Hb.
    rewrite Z.bits_above_log2; [done|lia|]. destruct (decide (b = 0)) as [->|]; [simpl; lia|].
    assert (Z.log2 b < 8) by (apply Z.log2_lt_pow2; lia). lia.
Qed.

Lemma lxor_twice b x : Z.lxor b (Z.lxor b x) = x.
Proof. by rewrite <- Z.lxor_assoc, Z.lxor_nilpotent, Z.lxor_0_l. Qed.

Lemma lxor_range b x : in_width 8 b → in_width 8 x → 0 ≤ Z.lxor b x < 256.
Proof.
  intros Hb Hx. pose proof (lxor_u8 b (Z.lxor b x) Hb) as E. rewrite lxor_twice in E. unfold in_width in *.
  rewrite (wrap_small 8 x) in E by done. rewrite E. apply (wrap_range 8). lia.
Qed.

(** All runs of arithmetic at byte [i]. *)
Definition arith_done (l : list Z) (i : Z) (ls : list (list Z)) : Prop :=
  ∀ j, 1 ≤ j ≤ ARITH_MAX → let b := field l 1 i in
    <[Z.to_nat i := u8 (b + j)]> l ∈ ls ∧ <[Z.to_nat i := u8 (b - j)]> l ∈ ls.

Lemma field_byte s i : fits s 1 i → out_buf s !! Z.to_nat i = Some (field (out_buf s) 1 i) ∧ in_width 8 (field (out_buf s) 1 i).
Proof.
  intros (Hb & Hi & Hl). destruct (lookup_lt_is_Some_2 (out_buf s) (Z.to_nat i) ltac:(lia)) as [b Hlb].
  rewrite (field_1 _ _ _ Hlb). split; [done|]. by eapply Forall_lookup_1 in Hb.
Qed.

(** One attempt of [arith8]: it is run, or a flip has run it. *)
Lemma arith8_attempt_ok s0 i x s : fits s0 1 i → within s0 1 i s → flips_done (out_buf s0) (tested s0) →
  let b := field (out_buf s0) 1 i in
  does (attempt (negb (could_be_bitflip (u8 (Z.lxor b x)))) 1 i (u8 x)) s (λ s', within s0 1 i s' ∧
    (∀ l, l ∈ tested s → l ∈ tested s') ∧ <[Z.to_nat i := u8 x]> (out_buf s0) ∈ tested s').
Proof.
  intros Hf Hw Hfl b. destruct (field_byte s0 i Hf) as [Hb Hbr]. pose proof Hf as (_ & Hi & Hl).
  eapply does_mono; [by apply (det_attempt_ok s0)|]. intros s' (W & Hm & Hc). split; [done|]. split; [done|].
  destruct (could_be_bitflip (u8 (Z.lxor b x))) eqn:Hcb.
  - specialize (Hfl (Z.to_nat i) _ (u8 (Z.lxor b x)) Hb ltac:(apply (wrap_range 8); lia) Hcb). unfold b in Hfl.
    rewrite lxor_u8 in Hfl by done. by apply (wi_tested _ _ _ _ W).
  - specialize (Hc eq_refl). rewrite splice_1 in Hc by lia. rewrite wrap_wrap in Hc. done.
Qed.

Lemma arith8_stage_ok len s0 : len = zlen (out_buf s0) → 0 < len → bytes_ok (out_buf s0) → EFF_ALEN len ≤ zlen (eff_map s0) →
  flips_done (out_buf s0) (tested s0) →
  does (arith8_stage len) s0 (λ s', keeps s0 s' ∧
    ∀ i, 0 ≤ i ≤ len - 1 → flagged (eff_map s0) 1 i → arith_done (out_buf s0) i (tested s')).
Proof.
  intros Hl Hp Hb He Hfl. apply (positions_ok 1 len _ _ s0 (arith_done (out_buf s0))); try done; [lia| |].
  { intros i ls ls' Ha Hm j Hj. destruct (Ha j Hj) as [H1 H2]. split; by apply Hm. }
  intros i s Hfit _ K. pose proof Hfit as (_ & Hi & Hiw). apply does_bind. eapply get_le_ok; [by rewrite (ke_out _ _ K)|].
  rewrite (ke_out _ _ K). set (b := field (out_buf s0) 1 i).
  eapply does_mono; [apply (does_all_loop (λ j s', keeps s0 s' ∧ (∀ l, l ∈ tested s → l ∈ tested s') ∧ ∀ j', 1 ≤ j' < j →
    <[Z.to_nat i := u8 (b + j')]> (out_buf s0) ∈ tested s' ∧ <[Z.to_nat i := u8 (b - j')]> (out_buf s0) ∈ tested s'))|].
  - split; [done|]. split; [done|]. lia.
  - intros j s1 Hj (K1 & Hm1 & Hd). unfold arith8_step.
    eapply does_seq; [apply arith8_attempt_ok; [done|by apply keeps_within|done]|]. intros s2 (W2 & Hm2 & Hin2).
    eapply does_seq; [by apply arith8_attempt_ok|]. intros s3 (W3 & Hm3 & Hin3).
    apply does_bind_unit. apply put_back_ok; [done|done|]. intros s4 K4 Hm4. apply does_ret. split; [done|]. split; [auto|].
    intros j' Hj'. destruct (decide (j' = j)) as [->|]; [split; auto|]. destruct (Hd j' ltac:(lia)). split; auto.
  - intros s' (K' & Hm & Hd). split; [done|]. split; [done|]. intros j Hj. apply Hd. unfold ARITH_MAX in *. lia.
Qed.

(** Attempts in a row. *)
Lemma attempt_then s0 w i c v s (k : M det bool) Q : fits s0 w i → within s0 w i s →
  (∀ s', within s0 w i s' → (∀ l, l ∈ tested s → l ∈ tested s') → does k s' Q) →
  does (ok ← attempt c w i v; if negb ok then mret false else k) s Q.
Proof. intros Hf Hw Hk. eapply does_seq; [by apply (det_attempt_ok s0)|]. intros s' (W & Hm & _). by apply Hk. Qed.

Lemma back_then s0 w i s Q : fits s0 w i → within s0 w i s →
  (∀ s', keeps s0 s' → (∀ l, l ∈ tested s → l ∈ tested s') → Q s') →
  does (_ ← put_le w i (field (out_buf s0) w i); mret true) s Q.
Proof. intros Hf Hw HQ. apply does_bind_unit, put_back_ok; [done|done|]. intros s' K Hm. by apply does_ret, HQ. Qed.

(** A stage on [w] bytes leaves the buffers as they were. *)
Lemma positions_keep w len per body s0 :
  len = zlen (out_buf s0) → bytes_ok (out_buf s0) → EFF_ALEN len ≤ zlen (eff_map s0) → (1 ≤ w)%nat → Z.of_nat w ≤ len →
  (∀ i s, fits s0 w i → keeps s0 s → does (body i (field (out_buf s0) w i)) s (λ s', keeps s0 s' ∧ ∀ l, l ∈ tested s → l ∈ tested s')) →
  does (positions w len per (λ i, orig ← get_le w i; body i orig)) s0 (keeps s0).
Proof.
  intros Hl Hb He H1 Hw Hbody. eapply does_mono; [apply (positions_ok w len _ _ s0 (λ _ _, True)); try done|by intros s' [? _]].
  intros i s Hfit _ K. pose proof Hfit as (_ & Hi & Hiw). apply does_bind. eapply get_le_ok; [by rewrite (ke_out _ _ K)|].
  rewrite (ke_out _ _ K). eapply does_mono; [by apply Hbody|]. naive_solver.
Qed.

Lemma loop_keep n s0 s (body : Z → M det bool) : keeps s0 s →
  (∀ j s, keeps s0 s → does (body j) s (λ s', keeps s0 s' ∧ ∀ l, l ∈ tested s → l ∈ tested s')) →
  does (all_loop n 1 body) s (λ s', keeps s0 s' ∧ ∀ l, l ∈ tested s → l ∈ tested s').
Proof.
  intros K Hbody. apply (does_all_loop (λ _ s', keeps s0 s' ∧ ∀ l, l ∈ tested s → l ∈ tested s')); [by split|].
  intros j s1 _ [K1 Hm1]. eapply does_mono; [by apply Hbody|]. intros s2 [K2 Hm2]. split; [done|auto].
Qed.

Ltac attempts := repeat (first [ eapply attempt_then | eapply back_then ]; [done|first [done|by apply keeps_within]|intros ? ? ?]).

Lemma arith16_stage_ok len s0 : len = zlen (out_buf s0) → 2 ≤ len → bytes_ok (out_buf s0) → EFF_ALEN len ≤ zlen (eff_map s0) →
  does (arith16_stage len) s0 (keeps s0).
Proof.
  intros Hl Hp Hb He. apply (positions_keep 2); try done; [lia|]. intros i s Hfit K. apply loop_keep; [done|].
  intros j s1 K1. unfold arith16_step. attempts. split; [done|]. eauto 10.
Qed.

Lemma arith32_stage_ok len s0 : len = zlen (out_buf s0) → 4 ≤ len → bytes_ok (out_buf s0) → EFF_ALEN len ≤ zlen (eff_map s0) →
  does (arith32_stage len) s0 (keeps s0).
Proof.
  intros Hl Hp Hb He. apply (positions_keep 4); try done; [lia|]. intros i s Hfit K. apply loop_keep; [done|].
  intros j s1 K1. unfold arith32_step. attempts. split; [done|]. eauto 10.
Qed.

(** The interesting values: the buffer stays within the window. *)
Lemma values_within s0 w i vs body s : within s0 w i s →
  (∀ v s, within s0 w i s → does (body v) s (λ s', within s0 w i s' ∧ ∀ l, l ∈ tested s → l ∈ tested s')) →
  does (over_values vs body) s (λ s', within s0 w i s' ∧ ∀ l, l ∈ tested s → l ∈ tested s').
Proof.
  intros W Hbody. apply (does_over_values (λ _ s', within s0 w i s' ∧ ∀ l, l ∈ tested s → l ∈ tested s') body vs []); [by split|].
  intros l v s1 _ [W1 Hm1]. eapply does_mono; [by apply Hbody|]. intros s2 [W2 Hm2]. split; [done|auto].
Qed.

Lemma interest16_stage_ok len s0 : len = zlen (out_buf s0) → 2 ≤ len → bytes_ok (out_buf s0) → EFF_ALEN len ≤ zlen (eff_map s0) →
  does (interest16_stage len) s0 (keeps s0).
Proof.
  intros Hl Hp Hb He. apply (positions_keep 2); try done; [lia|]. intros i s Hfit K.
  eapply does_seq; [apply (values_within s0 2 i); [by apply keeps_within|]|].
  - intros v s1 W1. unfold interest16_step. eapply attempt_then; [done|done|]. intros s2 W2 Hm2.
    eapply does_mono; [by apply (det_attempt_ok s0)|]. intros s3 (W3 & Hm3 & _). split; [done|auto].
  - intros s1 [W1 Hm1]. attempts. split; [done|]. eauto 10.
Qed.

Lemma interest32_stage_ok len s0 : len = zlen (out_buf s0) → 4 ≤ len → bytes_ok (out_buf s0) → EFF_ALEN len ≤ zlen (eff_map s0) →
  does (interest32_stage len) s0 (keeps s0).
Proof.
  intros Hl Hp Hb He. apply (positions_keep 4); try done; [lia|]. intros i s Hfit K.
  eapply does_seq; [apply (values_within s0 4 i); [by apply keeps_within|]|].
  - intros v s1 W1. unfold interest32_step. eapply attempt_then; [done|done|]. intros s2 W2 Hm2.
    eapply does_mono; [by apply (det_attempt_ok s0)|]. intros s3 (W3 & Hm3 & _). split; [done|auto].
  - intros s1 [W1 Hm1]. attempts. split; [done|]. eauto 10.
Qed.

Lemma could_be_arith_byte b v : in_width 8 b → in_width 8 v → could_be_arith b v 1 = true →
  b = v ∨ ∃ j, 1 ≤ j ≤ ARITH_MAX ∧ (v = u8 (b + j) ∨ v = u8 (b - j)).
Proof.
  unfold in_width. intros Hb Hv. unfold could_be_arith. destruct (decide (b = v)) as [|Hne]; [by left|intros H; right].
  change (Z.to_nat 1) with 1%nat in H. cbn [unit_diffs] in H. change (8 * Z.of_nat 0) with 0 in H. rewrite !Z.shiftr_0_r in H.
  rewrite (wrap_small 8 b), (wrap_small 8 v) in H by lia. rewrite (decide_True (P := b ≠ v)) in H by done.
  simpl in H. unfold near in H. destruct (bool_decide (u8 (b - v) ≤ ARITH_MAX) || bool_decide (u8 (v - b) ≤ ARITH_MAX)) eqn:Hn; [|done].
  clear H. unfold wrap in *. change (2 ^ 8) with 256 in *. apply orb_prop in Hn as [Hn%bool_decide_eq_true|Hn%bool_decide_eq_true].
  - exists ((b - v) mod 256). split; [split; [|done]; Z.to_euclidean_division_equations; lia|]. right.
    rewrite Zminus_mod_idemp_r. replace (b - (b - v)) with v by lia. by rewrite Z.mod_small.
  - exists ((v - b) mod 256). split; [split; [|done]; Z.to_euclidean_division_equations; lia|]. left.
    rewrite Zplus_mod_idemp_r. replace (b + (v - b)) with v by lia. by rewrite Z.mod_small.
Qed.

Lemma interest8_step_ok s0 i v s : fits s0 1 i → keeps s0 s → out_buf s0 ∈ tested s0 →
  flips_done (out_buf s0) (tested s0) → arith_done (out_buf s0) i (tested s0) →
  does (interest8_step i (field (out_buf s0) 1 i) v) s (λ s', keeps s0 s' ∧ (∀ l, l ∈ tested s → l ∈ tested s') ∧
    <[Z.to_nat i := u8 v]> (out_buf s0) ∈ tested s').
Proof.
  intros Hf K Hself Hfl Har. destruct (field_byte s0 i Hf) as [Hb Hbr]. pose proof Hf as (_ & Hi & Hl).
  assert (in_width 8 (u8 v)) as Hv by (apply (wrap_range 8); lia). set (b := field (out_buf s0) 1 i) in *.
  unfold interest8_step. destruct (could_be_bitflip _ || could_be_arith _ _ _) eqn:Hskip.
  - apply does_bind_unit, wp_dupd, does_ret. split; [destruct K; by split|]. split; [done|]. simpl. apply (ke_tested _ _ K).
    apply orb_prop in Hskip as [Hc|Hc].
    + specialize (Hfl _ _ (Z.lxor b (u8 v)) Hb ltac:(by apply lxor_range) Hc). by rewrite lxor_twice in Hfl.
    + destruct (could_be_arith_byte b (u8 v) Hbr Hv Hc) as [<-|(j & Hj & [->| ->])]; [by rewrite list_insert_id|by apply Har..].
  - apply does_bind_unit. eapply put_le_ok; [done|by apply keeps_within|]. apply does_bind, wp_run. intros [|]; simpl; [|by apply wp_ret].
    rewrite splice_1, wrap_wrap by lia.
    apply does_bind_unit. eapply (put_back_ok s0); [done| |].
    { destruct K as [K1 K2 K3 K4]. split; simpl; [|done|intros l Hin; by apply elem_of_run, K3|done].
      exists (u8 v). by rewrite splice_1, wrap_wrap by lia. }
    intros s2 K2 Hm2. apply does_bind_unit, wp_dupd, does_ret. split; [destruct K2; by split|]. simpl in *.
    split; [intros l Hin; by apply Hm2, elem_of_run|apply Hm2, elem_of_run_last].
Qed.

Lemma interest8_stage_ok len s0 : len = zlen (out_buf s0) → 0 < len → bytes_ok (out_buf s0) → EFF_ALEN len ≤ zlen (eff_map s0) →
  out_buf s0 ∈ tested s0 → flips_done (out_buf s0) (tested s0) →
  (∀ i, 0 ≤ i ≤ len - 1 → flagged (eff_map s0) 1 i → arith_done (out_buf s0) i (tested s0)) →
  does (interest8_stage len) s0 (λ s', keeps s0 s' ∧
    ∀ i, 0 ≤ i ≤ len - 1 → flagged (eff_map s0) 1 i → ∀ v, v ∈ interesting_8 → <[Z.to_nat i := u8 v]> (out_buf s0) ∈ tested s').
Proof.
  intros Hl Hp Hb He Hself Hfl Har.
  apply (positions_ok 1 len _ _ s0 (λ i ls, ∀ v, v ∈ interesting_8 → <[Z.to_nat i := u8 v]> (out_buf s0) ∈ ls)); try done; [lia|auto|].
  intros i s Hfit Hflag K. pose proof Hfit as (_ & Hi & Hiw). apply does_bind. eapply get_le_ok; [by rewrite (ke_out _ _ K)|].
  rewrite (ke_out _ _ K).
  eapply does_mono; [apply (does_over_values (λ vs s', keeps s0 s' ∧ (∀ l, l ∈ tested s → l ∈ tested s') ∧
    ∀ v, v ∈ vs → <[Z.to_nat i := u8 v]> (out_buf s0) ∈ tested s') _ interesting_8 [])|by intros s' H].
  - split; [done|]. split; [done|]. intros v Hv. by apply not_elem_of_nil in Hv.
  - intros vs v s1 _ (K1 & Hm1 & Hd). eapply does_mono; [apply interest8_step_ok; try done; apply Har; [lia|done]|].
    intros s2 (K2 & Hm2 & Hin). split; [done|]. split; [auto|]. intros v' [Hv'| ->%list_elem_of_singleton]%elem_of_app; auto.
Qed.
End Values.

(** ** The whole run *)

(** The changes of a byte that the stages make. *)
Definition flip_of (b v : Z) : Prop :=
  v = Z.lxor b 255 ∨ ∃ n c, (n = 1 ∨ n = 2 ∨ n = 4)%nat ∧ 0 ≤ c ∧ c + Z.of_nat n ≤ 8 ∧ v = Z.lxor b (pattern n c).
Definition arith_of (b v : Z) : Prop := ∃ j, 1 ≤ j ≤ ARITH_MAX ∧ (v = u8 (b + j) ∨ v = u8 (b - j)).
Definition interest_of (v : Z) : Prop := ∃ x, x ∈ interesting_8 ∧ v = u8 x.

Lemma patterns_accepted : forallb (λ n, forallb (λ c, bool_decide (8 < c + Z.of_nat n) ||
  (could_be_bitflip (pattern n c) && bool_decide (0 ≤ pattern n c < 256))) [0; 1; 2; 3; 4; 5; 6; 7]) [1; 2; 4]%nat = true.
Proof. vm_compute. reflexivity. Qed.

Lemma pattern_accepted n c : (n = 1 ∨ n = 2 ∨ n = 4)%nat → 0 ≤ c → c + Z.of_nat n ≤ 8 →
  could_be_bitflip (pattern n c) = true ∧ 0 ≤ pattern n c < 256.
Proof.
  intros Hn Hc Hcn. pose proof patterns_accepted as Hall. rewrite forallb_forall in Hall.
  specialize (Hall n ltac:(simpl; naive_solver)). rewrite forallb_forall in Hall. specialize (Hall c ltac:(simpl; lia)).
  rewrite bool_decide_eq_false_2 in Hall by lia. simpl in Hall. by apply andb_prop in Hall as [? ?%bool_decide_eq_true].
Qed.

Section Whole.
Context {runner : Runner} (sw : switches).

Definition byte_changes (s0 s : det) : Prop := ∀ (i : nat) b, out_buf s0 !! i = Some b →
  (∀ v, flip_of b v → <[i := v]> (out_buf s0) ∈ tested s) ∧
  (flagged (eff_map s) 1 (Z.of_nat i) → ∀ v, arith_of b v ∨ interest_of v → <[i := v]> (out_buf s0) ∈ tested s).

Lemma deterministic_ok len s : len = zlen (out_buf s) → 0 < len < 2 ^ 28 → bytes_ok (out_buf s) → no_arith sw = false →
  does (deterministic sw len) s (λ s', out_buf s' = out_buf s ∧ byte_changes s s').
Proof.
  intros Hl Hr Hb Hna. unfold deterministic. eapply does_seq; [by apply bitflip_stages_ok|].
  intros s1 ([G1 G2 G3] & Hself & Hfl). rewrite <- Hl in G2.
  assert (len = zlen (out_buf s1) ∧ bytes_ok (out_buf s1)) as [Hl1 Hb1] by (by rewrite G1). rewrite <- G1 in Hfl.
  (* arithmetic *)
  assert (does (arith_stages sw len) s1 (λ s', keeps s1 s' ∧
    ∀ i, 0 ≤ i ≤ len - 1 → flagged (eff_map s1) 1 i → arith_done (out_buf s1) i (tested s'))) as Har.
  { unfold arith_stages. rewrite Hna. eapply does_seq; [apply arith8_stage_ok; done || lia|]. intros s2 [K2 F2].
    assert (∀ s', keeps s2 s' → keeps s1 s' ∧ ∀ i, 0 ≤ i ≤ len - 1 → flagged (eff_map s1) 1 i → arith_done (out_buf s1) i (tested s')) as Hend.
    { intros s' K'. split; [by eapply keeps_trans|]. intros i Hi Hfi j Hj. destruct (F2 i Hi Hfi j Hj). split; by apply (ke_tested _ _ K'). }
    case_decide; [apply does_ret, Hend, keeps_refl|].
    eapply does_seq; [apply arith16_stage_ok; rewrite ?(ke_out _ _ K2), ?(ke_eff _ _ K2); done || lia|]. intros s3 K3.
    case_decide; [by apply does_ret, Hend|].
    eapply does_mono; [apply arith32_stage_ok; rewrite ?(ke_out _ _ K3), ?(ke_eff _ _ K3), ?(ke_out _ _ K2), ?(ke_eff _ _ K2); done || lia|].
    intros s4 K4. apply Hend. by eapply keeps_trans. }
  eapply does_seq; [exact Har|]. intros s2 [K2 F2].
  assert (len = zlen (out_buf s2) ∧ bytes_ok (out_buf s2)) as [Hl2 Hb2] by (by rewrite (ke_out _ _ K2)).
  rewrite <- (ke_out _ _ K2), <- (ke_eff _ _ K2) in F2.
  unfold interest_stages. eapply does_seq.
  { apply (interest8_stage_ok len s2); try done; [lia|by rewrite (ke_eff _ _ K2)| |].
    - rewrite (ke_out _ _ K2), G1. by apply (ke_tested _ _ K2).
    - rewrite (ke_out _ _ K2). intros i b r Hi Hr' Hc. apply (ke_tested _ _ K2). by eapply Hfl. }
  intros s3 [K3 F3].
  assert (∀ s', keeps s3 s' → out_buf s' = out_buf s ∧ byte_changes s s') as Hend.
  { intros s' K'. pose proof (keeps_trans _ _ _ K3 K') as K23. pose proof (keeps_trans _ _ _ K2 K23) as K1.
    split; [by rewrite (ke_out _ _ K1)|]. intros i b Hib. pose proof (lookup_lt_Some _ _ _ Hib). rewrite <- G1 in Hib |- *. split.
    - intros v Hv. apply (ke_tested _ _ K1). destruct Hv as [->|(n & c & Hn & Hc & Hcn & ->)].
      + apply Hfl; [done|lia|]. vm_compute. reflexivity.
      + destruct (pattern_accepted n c Hn Hc Hcn). by apply Hfl.
    - rewrite (ke_eff _ _ K'), (ke_eff _ _ K3). intros Hflag v Hv.
      assert (field (out_buf s2) 1 (Z.of_nat i) = b) as Hfb by (apply field_1; by rewrite Nat2Z.id, (ke_out _ _ K2)).
      destruct Hv as [(j & Hj & Hv)|(x & Hx & ->)].
      + apply (ke_tested _ _ K23). destruct (F2 (Z.of_nat i) ltac:(lia) Hflag j Hj) as [H1 H2].
        rewrite Hfb, (ke_out _ _ K2), Nat2Z.id in H1, H2. by destruct Hv as [->| ->].
      + apply (ke_tested _ _ K'). specialize (F3 (Z.of_nat i) ltac:(lia) Hflag x Hx). by rewrite (ke_out _ _ K2), Nat2Z.id in F3. }
  assert (len = zlen (out_buf s3) ∧ bytes_ok (out_buf s3) ∧ EFF_ALEN len ≤ zlen (eff_map s3)) as (Hl3 & Hb3 & He3).
  { by rewrite (ke_out _ _ K3), (ke_eff _ _ K3), (ke_eff _ _ K2). }
  case_decide; [apply does_ret, Hend, keeps_refl|].
  eapply does_seq; [apply interest16_stage_ok; done || lia|]. intros s4 K4.
  case_decide; [by apply does_ret, Hend|].
  eapply does_mono; [apply interest32_stage_ok; rewrite ?(ke_out _ _ K4), ?(ke_eff _ _ K4); done || lia|].
  intros s5 K5. apply Hend. by eapply keeps_trans.
Qed.

(** C12. The deterministic stages never fault, and unless the entry is abandoned
    they restore the input and run every change of one byte: all flips of 1, 2, 4 or 8
    neighbouring bits inside it, and, for a byte the effector map flags, all values up
    to 35 above or below and all interesting values; no such case is lost by the
    tests that skip what another stage makes. *)
Theorem byte_changes_complete len s :
  len = zlen (out_buf s) → 0 < len < 2 ^ 28 → bytes_ok (out_buf s) → no_arith sw = false →
  ∃ ok s', deterministic sw len s = Ret (ok, s') ∧ (ok = true → out_buf s' = out_buf s ∧ byte_changes s s').
Proof.
  intros Hl Hr Hb Hna. pose proof (deterministic_ok len s Hl Hr Hb Hna) as Hw. apply wp_Ret in Hw as (ok & s' & Hrun & Hs).
  by exists ok, s'.
Qed.
End Whole.

(** ** Witness, and what is lost *)

(** Runs are never abandoned; every run has its own coverage. *)
Definition busy_runner : Runner := {|
  abandons := λ _ _, false; trace_cksum := λ past _, zlen past; heap_byte := λ _, 0 |}.

Definition start (l : list Z) : det := Det l [] 0 0 0 (replicate 32 0) 0 0 0 0 [] [].

Lemma byte_changes_complete_witness :
  ∃ s', deterministic (runner := busy_runner) (Switches false false) 2 (start [0xE0; 0]) = Ret (true, s') ∧
    out_buf s' = [0xE0; 0] ∧ byte_changes (start [0xE0; 0]) s'.
Proof.
  destruct (byte_changes_complete (runner := busy_runner) (Switches false false) 2 (start [0xE0; 0])) as (ok & s' & Hrun & Hs).
  - reflexivity.
  - lia.
  - repeat constructor; unfold in_width; lia.
  - reflexivity.
  - exists s'. assert (ok = true) as Hok.
    { assert (match deterministic (runner := busy_runner) (Switches false false) 2 (start [0xE0; 0]) with Ret (b, _) => b | _ => false end = true)
        as Hb by (vm_compute; reflexivity). by rewrite Hrun in Hb. }
    rewrite Hok in Hrun. split; [exact Hrun|by apply Hs].
Defined.

(** C40. For two bytes a case is lost: 0x00E0 + 32 = 0x0100 carries into the second
    byte, [could_be_bitflip] takes the change 0x01E0 for a flip of four walking bits,
    but the walking bits of a buffer run from the highest bit of each byte, so none of
    the stages runs the input. *)
Theorem arith16_loses_case :
  could_be_bitflip (Z.lxor 0xE0 (0xE0 + 32)) = true ∧ le_bytes 2 (0xE0 + 32) = [0; 1] ∧
  ∃ s', deterministic (runner := busy_runner) (Switches false false) 2 (start (le_bytes 2 0xE0)) = Ret (true, s') ∧
    [0; 1] ∉ tested s'.
Proof.
  split; [vm_compute; reflexivity|]. split; [reflexivity|].
  destruct (deterministic (runner := busy_runner) (Switches false false) 2 (start (le_bytes 2 0xE0))) as [[ok s']|e|] eqn:Hrun.
  - assert (match deterministic (runner := busy_runner) (Switches false false) 2 (start (le_bytes 2 0xE0)) with
      | Ret (b, s) => b && forallb (λ l, negb (bool_decide (l = [0; 1]))) (tested s) | _ => false end = true) as Hb by (vm_compute; reflexivity).
    rewrite Hrun in Hb. apply andb_prop in Hb as [-> Hb]. exists s'. split; [done|]. intros Hin%list_elem_of_In.
    rewrite forallb_forall in Hb. specialize (Hb _ Hin). by rewrite bool_decide_eq_true_2 in Hb.
  - exfalso. by vm_compute in Hrun.
  - exfalso. by vm_compute in Hrun.
Qed.
