(* ===== verification/AflDict.v ===== *)
(** * AflDict: the dictionary of AFL++, AFLplusplus/src/afl-fuzz-extras.c

    The user's tokens ([extras], in blocks of their own) and those found while
    fuzzing ([a_extras], in place), with the random numbers of include/afl-fuzz.h
    and afl-performance.c and the growing arrays of include/alloc-inl.h.  The C
    library's sort and the random device are interfaces; names of files are values,
    and messages to the terminal are left out. *)

From Stdlib Require Import Ascii.
From stdpp Require Import pretty.
From S2P Require Import Prelude AflBitmap AflQueue AflDet.

(** ** Interfaces *)

(** [qsort(base, n, size, compar)]; the comparison tells the order by its sign. *)
Class QSort := { qsort : ∀ {A : Type}, (A → A → Z) → list A → list A }.

(** What a read of [rand_seed] from /dev/urandom gives, by the number of the request. *)
Class Entropy := { urandom : positive → Z * Z }.

(** ** State *)

Definition MAX_DICT_FILE : Z := 128.
Definition USE_AUTO_EXTRAS : Z := 4096.
Definition MAX_AUTO_EXTRAS : Z := USE_AUTO_EXTRAS * 8.
Definition MAX_LINE : Z := 8192.
Definition MAX_ALLOC : Z := 0x40000000.
Definition RESEED_RNG : Z := 2500000.

(** [struct extra_data] without [hit_cnt], which nothing reads. *)
Record extra_data := Extra { data : option loc; len : Z }.

Record auto_extra_data := AutoExtra { a_data : list Z; a_extra_len : Z; hit_cnt : Z }.

(** A directory has the names that [readdir] gives, in that order. *)
Inductive file := Regular (bytes : list Z) | Directory (names : list string).

(** [extras] holds the first [extras_cnt] elements of the array ([None] is NULL) and
    [extras_size] the size in the header of the array; [a_extras] the first
    [a_extras_cnt] elements of its array, whose other elements are still zero.
    [blocks] is the heap, [requests] numbers the requests to the host. *)
Record dict := Dict {
  extras : option (list extra_data);
  extras_cnt : Z;
  extras_size : Z;
  a_extras : list auto_extra_data;
  auto_changed : bool;
  blocks : gmap loc (list Z);
  rand_seed : Z * Z;
  rand_cnt : Z;
  fixed_seed : bool;
  in_dir : string;
  out_dir : string;
  disk : gmap string file;
  requests : positive }.

Definition set_extras (l : option (list extra_data)) (cnt size : Z) (s : dict) : dict :=
  Dict l cnt size (a_extras s) (auto_changed s) (blocks s) (rand_seed s) (rand_cnt s) (fixed_seed s)
    (in_dir s) (out_dir s) (disk s) (requests s).
Definition set_a_extras (v : list auto_extra_data) (s : dict) : dict :=
  Dict (extras s) (extras_cnt s) (extras_size s) v (auto_changed s) (blocks s) (rand_seed s) (rand_cnt s)
    (fixed_seed s) (in_dir s) (out_dir s) (disk s) (requests s).
Definition set_auto_changed (v : bool) (s : dict) : dict :=
  Dict (extras s) (extras_cnt s) (extras_size s) (a_extras s) v (blocks s) (rand_seed s) (rand_cnt s)
    (fixed_seed s) (in_dir s) (out_dir s) (disk s) (requests s).
Definition set_blocks (v : gmap loc (list Z)) (s : dict) : dict :=
  Dict (extras s) (extras_cnt s) (extras_size s) (a_extras s) (auto_changed s) v (rand_seed s) (rand_cnt s)
    (fixed_seed s) (in_dir s) (out_dir s) (disk s) (requests s).
Definition set_rand (v : Z * Z) (cnt : Z) (s : dict) : dict :=
  Dict (extras s) (extras_cnt s) (extras_size s) (a_extras s) (auto_changed s) (blocks s) v cnt
    (fixed_seed s) (in_dir s) (out_dir s) (disk s) (requests s).
Definition set_disk (v : gmap string file) (s : dict) : dict :=
  Dict (extras s) (extras_cnt s) (extras_size s) (a_extras s) (auto_changed s) (blocks s) (rand_seed s) (rand_cnt s)
    (fixed_seed s) (in_dir s) (out_dir s) v (requests s).
Definition set_requests (v : positive) (s : dict) : dict :=
  Dict (extras s) (extras_cnt s) (extras_size s) (a_extras s) (auto_changed s) (blocks s) (rand_seed s) (rand_cnt s)
    (fixed_seed s) (in_dir s) (out_dir s) (disk s) v.

Definition upd (f : dict → dict) : M dict unit := s ← get_state; put_state (f s).

(** ** Characters and numbers, in the C locale *)

Definition isspace (c : Z) : bool := bool_decide (9 ≤ c ≤ 13 ∨ c = 32).
Definition isdigit (c : Z) : bool := bool_decide (48 ≤ c ≤ 57).
Definition isalnum (c : Z) : bool := isdigit c || bool_decide (65 ≤ c ≤ 90 ∨ 97 ≤ c ≤ 122).
Definition isxdigit (c : Z) : bool := isdigit c || bool_decide (65 ≤ c ≤ 70 ∨ 97 ≤ c ≤ 102).
Definition tolower (c : Z) : Z := if decide (65 ≤ c ≤ 90) then c + 32 else c.

(** [strchr(hexdigits, tolower(c)) - hexdigits] *)
Definition hex_value (c : Z) : Z := if isdigit c then c - 48 else tolower c - 87.

(** A pointer into a string is the rest of the string, without the final zero. *)
Fixpoint skip (p : Z → bool) (l : list Z) : list Z :=
  match l with
  | c :: l' => if p c then skip p l' else l
  | [] => []
  end.

(** The string in a buffer: the bytes before the first zero. *)
Fixpoint cstring (l : list Z) : list Z :=
  match l with
  | c :: l => if decide (c = 0) then [] else c :: cstring l
  | [] => []
  end.

Fixpoint digits_value (acc : Z) (l : list Z) : Z :=
  match l with
  | c :: l' => if isdigit c then digits_value (10 * acc + (c - 48)) l' else acc
  | [] => acc
  end.

(** [atoi] is [strtol], which stops at the ends of [long], cut to an [int]. *)
Definition atoi (l : list Z) : Z :=
  let clamp v := Z.max (- 2 ^ 63) (Z.min (2 ^ 63 - 1) v) in
  match skip isspace l with
  | 45 :: l => i32 (clamp (- digits_value 0 l))
  | 43 :: l => i32 (clamp (digits_value 0 l))
  | l => i32 (clamp (digits_value 0 l))
  end.

Section Dictionary.
Context `{Host, QSort, Entropy}.

(** ** Memory *)

(** The next request to the host; does it grant it? *)
Definition request : M dict bool :=
  s ← get_state; _ ← put_state (set_requests (Pos.succ (requests s)) s); mret (negb (refuses (requests s))).

Definition or_exit (m : M dict bool) : M dict unit := b ← m; if (b : bool) then mret tt else fail ProcessExit.

Definition ck_alloc (size : Z) : M dict (option loc) :=
  if decide (size = 0) then mret None else
  if decide (MAX_ALLOC < size) then fail ProcessExit else
  _ ← or_exit request;
  s ← get_state;
  let p := fresh (dom (blocks s)) in
  _ ← put_state (set_blocks (<[p := replicate (Z.to_nat size) 0]> (blocks s)) s);
  mret (Some p).

Definition ck_free (p : option loc) : M dict unit :=
  match p with
  | None => mret tt
  | Some p =>
      s ← get_state;
      match blocks s !! p with
      | Some _ => put_state (set_blocks (delete p (blocks s)) s)
      | None => fail Dangling
      end
  end.

(** The first [n] bytes at [p]. *)
Definition read_block (p : option loc) (n : Z) : M dict (list Z) :=
  match p with
  | None => if decide (n = 0) then mret [] else fail NullDeref
  | Some p =>
      s ← get_state;
      match blocks s !! p with
      | Some bs => if decide (n ≤ zlen bs) then mret (take (Z.to_nat n) bs) else fail OutOfBounds
      | None => fail Dangling
      end
  end.

(** Stores [mem] at the start of [p]. *)
Definition write_block (p : option loc) (mem : list Z) : M dict unit :=
  match p with
  | None => if decide (mem = []) then mret tt else fail NullDeref
  | Some p =>
      s ← get_state;
      match blocks s !! p with
      | Some bs =>
          if decide (zlen mem ≤ zlen bs) then put_state (set_blocks (<[p := mem ++ drop (length mem) bs]> (blocks s)) s)
          else fail OutOfBounds
      | None => fail Dangling
      end
  end.

(** The first [n] bytes of a caller's buffer. *)
Definition bytes_of (mem : list Z) (n : Z) : M dict (list Z) :=
  if decide (n ≤ zlen mem) then mret (take (Z.to_nat n) mem) else fail OutOfBounds.

Definition AFL_ALLOC_SIZE_OFFSET : Z := 8.
Definition INITIAL_GROWTH_SIZE : Z := 64.
Definition sizeof_extra_data : Z := 16.

(** [afl_realloc(&afl->extras, size_needed)]; the answer is whether it is not NULL. *)
Definition afl_realloc (size_needed : Z) : M dict bool :=
  s ← get_state;
  let current_size := if extras s then extras_size s else 0 in
  let size_needed := u64 (size_needed + AFL_ALLOC_SIZE_OFFSET) in
  if decide (size_needed ≤ current_size) then mret true else
  let next_size :=
    if decide (size_needed < INITIAL_GROWTH_SIZE) then INITIAL_GROWTH_SIZE else
    if decide (AflQueue.next_pow2 size_needed = 0) then size_needed else AflQueue.next_pow2 size_needed in
  ok ← request;
  _ ← upd (λ s, if (ok : bool) then set_extras (Some (default [] (extras s))) (extras_cnt s) next_size s
                else set_extras None (extras_cnt s) (extras_size s) s);
  mret ok.

Definition afl_realloc_exact (size_needed : Z) : M dict bool :=
  s ← get_state;
  let current_size := if extras s then extras_size s else 0 in
  let size_needed := u64 (size_needed + AFL_ALLOC_SIZE_OFFSET) in
  if decide (current_size = size_needed) then mret true else
  ok ← request;
  _ ← upd (λ s, if (ok : bool) then set_extras (Some (default [] (extras s))) (extras_cnt s) size_needed s
                else set_extras None (extras_cnt s) (extras_size s) s);
  mret ok.

(** [afl->extras[i]] *)
Definition extra_at (i : Z) : M dict extra_data :=
  s ← get_state;
  match extras s with
  | None => fail NullDeref
  | Some l => match l !! Z.to_nat i with Some e => mret e | None => fail OutOfBounds end
  end.

(** Room for one more element; then [afl->extras[afl->extras_cnt] = e; ++afl->extras_cnt]. *)
Definition grow_extras : M dict unit :=
  s ← get_state; or_exit (afl_realloc ((extras_cnt s + 1) * sizeof_extra_data)).

Definition push_extra (e : extra_data) : M dict unit :=
  s ← get_state;
  match extras s with
  | None => fail NullDeref
  | Some l => put_state (set_extras (Some (l ++ [e])) (u32 (extras_cnt s + 1)) (extras_size s) s)
  end.

(** ** The orders of the arrays *)

Definition compare_auto_extras_len (ae1 ae2 : auto_extra_data) : Z := i32 (a_extra_len ae1 - a_extra_len ae2).
Definition compare_auto_extras_use_d (ae1 ae2 : auto_extra_data) : Z := i32 (hit_cnt ae2 - hit_cnt ae1).
Definition compare_extras_len (e1 e2 : extra_data) : Z := i32 (len e1 - len e2).

Definition sort_extras : M dict unit :=
  s ← get_state;
  match extras s with
  | None => if decide (extras_cnt s = 0) then mret tt else fail NullDeref
  | Some l => put_state (set_extras (Some (qsort compare_extras_len l)) (extras_cnt s) (extras_size s) s)
  end.

(** ** Loading a file *)

(** [fgets(buf, size, f)]: the line, up to the zero that ends it, and the rest. *)
Fixpoint fgets (size : nat) (f : list Z) : list Z * list Z :=
  match size, f with
  | S size, c :: f =>
      if decide (c = 10) then ([c], f) else let '(l, f) := fgets size f in (c :: l, f)
  | _, _ => ([], f)
  end.

(** Trims the string on the right: the number of bytes that are left of [n]. *)
Fixpoint trim_right (l : list Z) (n : nat) : nat :=
  match n with
  | O => O
  | S n' => if isspace (l !!! n') then trim_right l n' else n
  end.

(** After the label: [@number] ends the line when the level is too high. *)
Definition skip_level (dict_level : Z) (l : list Z) : option (list Z) :=
  match l with
  | 64 :: l => if decide (i32 dict_level < atoi l) then None else Some (skip isdigit l)
  | _ => Some l
  end.

Definition skip_number (l : list Z) : list Z :=
  match l with
  | 91 :: l => match skip isdigit l with 93 :: l => l | l => l end
  | _ => l
  end.

(** The text between the quotes of a line, or nothing when the loop goes on with
    the next line. *)
Definition keyword_of (dict_level : Z) (buf : list Z) : option (list Z) :=
  let l := skip isspace (cstring buf) in
  let n := trim_right l (length l) in
  let l := take n l in
  if decide (head l = None ∨ head l = Some 35) then None else
  if decide (l !! (n - 1)%nat ≠ Some 34) then None else
  let l := take (n - 1) l in
  let l := skip (λ c, isalnum c || bool_decide (c = 95)) l in
  l ← skip_level dict_level l;
  let l := skip_number l in
  let l := skip (λ c, isspace c || bool_decide (c = 61)) l in
  match l with
  | 34 :: c :: l => Some (c :: l)
  | _ => None
  end.

(** Copies the keyword into the block [buf] from index [klen] on.  A byte that is not
    printable is not consumed: the [continue] of the source goes on with the same byte. *)
Fixpoint unescape (fuel : nat) (l buf : list Z) (klen : Z) : outcome (list Z * Z) :=
  match fuel with
  | O => NoFuel
  | S fuel =>
      let put c l := if decide (klen < zlen buf) then unescape fuel l (<[Z.to_nat klen := c]> buf) (klen + 1)
                     else Fault OutOfBounds in
      match l with
      | [] => Ret (buf, klen)
      | c :: rest =>
          if decide (1 ≤ c ≤ 31 ∨ 128 ≤ c ≤ 255) then unescape fuel l buf klen else
          if decide (c ≠ 92) then put c rest else
          match rest with
          | d :: tail =>
              if decide (d = 92 ∨ d = 34) then put d tail else
              match tail with
              | h1 :: h2 :: next =>
                  if decide (d = 120 ∧ isxdigit h1 = true ∧ isxdigit h2 = true)
                  then put (u8 (Z.lor (Z.shiftl (hex_value h1) 4) (hex_value h2))) next
                  else unescape fuel rest buf klen
              | _ => unescape fuel rest buf klen
              end
          | [] => unescape fuel rest buf klen
          end
      end
  end.

(** One line of the file; [min_len] and [max_len] are passed on.  A keyword that is too
    long leaves its block behind. *)
Definition load_line (dict_level : Z) (buf : list Z) (bounds : Z * Z) : M dict (Z * Z) :=
  match keyword_of dict_level buf with
  | None => mret bounds
  | Some l =>
      _ ← grow_extras;
      p ← ck_alloc (zlen l);
      bs ← read_block p (zlen l);
      match unescape (S (length l)) l bs 0 with
      | Ret (bs, klen) =>
          _ ← write_block p bs;
          if decide (MAX_DICT_FILE < klen) then mret bounds else
          _ ← push_extra (Extra p klen);
          mret (Z.min bounds.1 klen, Z.max bounds.2 klen)
      | Fault e => fail e
      | NoFuel => out_of_fuel
      end
  end.

(** The loop over the lines. *)
Fixpoint load_lines (fuel : nat) (dict_level : Z) (f : list Z) (bounds : Z * Z) : M dict (Z * Z) :=
  match f, fuel with
  | [], _ => mret bounds
  | _, O => out_of_fuel
  | _, S fuel =>
      let '(buf, f) := fgets (Z.to_nat (MAX_LINE - 1)) f in
      bounds ← load_line dict_level buf bounds;
      load_lines fuel dict_level f bounds
  end.

(** The bytes of a file that is opened for reading. *)
Definition open_file (fname : string) : M dict (list Z) :=
  ok ← request;
  s ← get_state;
  match disk s !! fname with
  | Some (Regular bs) => if (ok : bool) then mret bs else fail ProcessExit
  | _ => fail ProcessExit
  end.

Definition load_extras_file (fname : string) (dict_level : Z) (bounds : Z * Z) : M dict (Z * Z) :=
  f ← open_file fname;
  load_lines (length f) dict_level f bounds.

Definition extras_check_and_sort : M dict unit :=
  s ← get_state; if decide (extras_cnt s = 0) then mret tt else sort_extras.

(** Before and after the first [@]. *)
Fixpoint split_level (dir : string) : string * option string :=
  match dir with
  | EmptyString => (EmptyString, None)
  | String c dir =>
      if Ascii.eqb c "@"%char then (EmptyString, Some dir)
      else let '(d, x) := split_level dir in (String c d, x)
  end.

Definition string_bytes (s : string) : list Z := (λ c, Z.of_nat (nat_of_ascii c)) <$> String.list_ascii_of_string s.

(** One name of the directory.  [lstat] gives the size of the file. *)
Definition load_name (dir name : string) (bounds : Z * Z) : M dict (Z * Z) :=
  let fn := (dir +:+ "/" +:+ name)%string in
  ok ← request;
  s ← get_state;
  match disk s !! fn with
  | None => fail ProcessExit
  | Some f =>
      if negb ok then fail ProcessExit else
      match f with
      | Directory _ => mret bounds
      | Regular bs =>
          let size := zlen bs in
          if decide (size = 0 ∨ MAX_DICT_FILE < size) then mret bounds else
          _ ← grow_extras;
          p ← ck_alloc size;
          bs ← open_file fn;
          _ ← or_exit request;
          _ ← write_block p bs;
          _ ← push_extra (Extra p size);
          mret (Z.min bounds.1 size, Z.max bounds.2 size)
      end
  end.

Fixpoint load_names (dir : string) (names : list string) (bounds : Z * Z) : M dict (Z * Z) :=
  match names with
  | [] => mret bounds
  | name :: names => bounds ← load_name dir name bounds; load_names dir names bounds
  end.

Definition load_extras (dir : string) : M dict unit :=
  let '(dir, x) := split_level dir in
  let dict_level := match x with Some x => u32 (atoi (string_bytes x)) | None => 0 end in
  ok ← request;
  s ← get_state;
  match disk s !! dir with
  | None => fail ProcessExit
  | Some f =>
      if negb ok then fail ProcessExit else
      match f with
      | Regular _ => _ ← load_extras_file dir dict_level (MAX_DICT_FILE, 0); extras_check_and_sort
      | Directory names =>
          if x then fail ProcessExit else
          _ ← load_names dir names (MAX_DICT_FILE, 0); extras_check_and_sort
      end
  end.

(** ** The user's tokens *)

Definition add_extra_nocheck (mem : list Z) (len : Z) : M dict unit :=
  _ ← grow_extras;
  p ← ck_alloc len;
  bs ← bytes_of mem len;
  _ ← write_block p bs;
  push_extra (Extra p len).

(** The zeros [z1], [z2], [z3] and [z4] among [data], whose first byte has index [j]. *)
Fixpoint count_zeros (j : Z) (data : list Z) : Z * Z * Z * Z :=
  match data with
  | [] => (0, 0, 0, 0)
  | c :: data =>
      let '(z1, z2, z3, z4) := count_zeros (j + 1) data in
      if decide (c ≠ 0) then (z1, z2, z3, z4) else
      if decide (j `mod` 4 = 2) then (z1 + 1, z2, z3 + 1, z4) else
      if decide (j `mod` 4 = 0) then (z1 + 1, z2, z3, z4) else
      if decide (j `mod` 4 = 3) then (z1, z2 + 1, z3, z4 + 1) else (z1, z2 + 1, z3, z4)
  end.

(** The bytes whose index is [r] modulo [m]: what is stored in [buf]. *)
Fixpoint pick (m r j : Z) (data : list Z) : list Z :=
  match data with
  | [] => []
  | c :: data => if decide (j `mod` m = r) then c :: pick m r (j + 1) data else pick m r (j + 1) data
  end.

(** [buf] has 64 bytes. *)
Definition add_picked (k : list Z) : M dict unit :=
  if decide (64 < zlen k) then fail OutOfBounds else add_extra_nocheck k (zlen k).

Definition deunicode_entry (i : Z) : M dict unit :=
  e ← extra_at i;
  if decide (len e < 6 ∨ 64 < len e ∨ len e `mod` 2 ≠ 0) then mret tt else
  let half := Z.shiftr (len e) 1 in
  let quarter := Z.shiftr half 1 in
  bs ← read_block (data e) (len e);
  let '(z1, z2, z3, z4) := count_zeros 0 bs in
  if decide ((z1 < half ∧ z2 < half) ∨ z1 + z2 = len e) then mret tt else
  _ ← (if decide (len e `mod` 4 = 0 ∧ 12 ≤ len e ∧ (z3 = quarter ∨ z4 = quarter) ∧ z1 + z2 = quarter * 3) then
         add_picked (pick 4 (if decide (z4 < quarter) then 3 else if decide (z3 < quarter) then 2 else
                             if decide (z2 < half) then 1 else 0) 0 bs)
       else mret tt);
  add_picked (pick 2 (if decide (z1 < half) then 0 else 1) 0 bs).

Definition deunicode_extras : M dict unit :=
  s ← get_state;
  if decide (extras_cnt s = 0) then mret tt else
  _ ← for_loop (Z.to_nat (extras_cnt s)) 0 deunicode_entry;
  sort_extras.

(** Takes element [j] out of the array. *)
Definition remove_extra (j : Z) : M dict unit :=
  s ← get_state;
  match extras s with
  | None => fail NullDeref
  | Some l => put_state (set_extras (Some (delete (Z.to_nat j) l)) (u32 (extras_cnt s - 1)) (extras_size s) s)
  end.

(** The inner loop of [dedup_extras], from [j]; [restart_dedup] goes round with the same
    [j]. *)
Fixpoint dedup_after (fuel : nat) (i j : Z) : M dict unit :=
  match fuel with
  | O => out_of_fuel
  | S fuel =>
      s ← get_state;
      if decide (extras_cnt s ≤ j) then mret tt else
      a ← extra_at i;
      b ← extra_at j;
      if decide (len a ≠ len b) then mret tt else
      da ← read_block (data a) (len a);
      db ← read_block (data b) (len a);
      if decide (da = db) then _ ← ck_free (data b); _ ← remove_extra j; dedup_after fuel i j
      else dedup_after fuel i (j + 1)
  end.

Fixpoint dedup_loop (fuel : nat) (i : Z) : M dict unit :=
  match fuel with
  | O => out_of_fuel
  | S fuel =>
      s ← get_state;
      if decide (extras_cnt s - 1 ≤ i) then mret tt else
      _ ← dedup_after (S (Z.to_nat (extras_cnt s))) i (i + 1);
      dedup_loop fuel (i + 1)
  end.

Definition dedup_extras : M dict unit :=
  s ← get_state;
  if decide (extras_cnt s < 2) then mret tt else
  _ ← dedup_loop (S (Z.to_nat (extras_cnt s))) 0;
  s' ← get_state;
  if decide (extras_cnt s' ≠ extras_cnt s) then _ ← afl_realloc_exact (extras_cnt s' * sizeof_extra_data); mret tt
  else mret tt.

(** The loop of [add_extra]: is the token there?  It ends after the tokens of its length. *)
Fixpoint has_token (n : nat) (i : Z) (found : bool) (mem : list Z) (mem_len : Z) : M dict bool :=
  match n with
  | O => mret false
  | S n =>
      e ← extra_at i;
      if decide (len e = mem_len) then
        a ← read_block (data e) mem_len;
        b ← bytes_of mem mem_len;
        if decide (a = b) then mret true else has_token n (i + 1) true mem mem_len
      else if found then mret false else has_token n (i + 1) found mem mem_len
  end.

Definition add_extra (mem : list Z) (len : Z) : M dict unit :=
  s ← get_state;
  there ← has_token (Z.to_nat (extras_cnt s)) 0 false mem len;
  if (there : bool) then mret tt else
  if decide (MAX_DICT_FILE < len) then mret tt else
  _ ← add_extra_nocheck mem len;
  sort_extras.

Definition destroy_extras : M dict unit :=
  s ← get_state;
  _ ← for_loop (Z.to_nat (extras_cnt s)) 0 (λ i, e ← extra_at i; ck_free (data e));
  upd (λ s, set_extras None (extras_cnt s) (extras_size s) s).

(** ** Random numbers *)

(** [rand_next], the 64-bit variant. *)
Definition rand_next : M dict Z :=
  s ← get_state;
  let '(s0, s1) := rand_seed s in
  let d := u64 (s1 - s0) in
  _ ← put_state (set_rand (u64 (15241094284759029579 * s1), Z.lor (u64 (Z.shiftl d 27)) (Z.shiftr d 37)) (rand_cnt s) s);
  mret s0.

Fixpoint rand_below_loop (fuel : nat) (limit : Z) : M dict Z :=
  match fuel with
  | O => out_of_fuel
  | S fuel =>
      unbiased_rnd ← rand_next;
      if decide (2 ^ 64 - 1 - (2 ^ 64 - 1) `mod` limit ≤ unbiased_rnd) then rand_below_loop fuel limit
      else mret (unbiased_rnd `mod` limit)
  end.

Definition rand_below (fuel : nat) (limit : Z) : M dict Z :=
  if decide (limit ≤ 1) then mret 0 else
  s ← get_state;
  let cnt := rand_cnt s in
  _ ← put_state (set_rand (rand_seed s) (u32 (cnt - 1)) s);
  _ ← (if decide (cnt = 0 ∧ fixed_seed s = false) then
         _ ← or_exit request;
         let '(s0, s1) := urandom (requests s) in
         upd (set_rand (s0, s1) (u32 (RESEED_RNG / 2 + s1 `mod` RESEED_RNG)))
       else mret tt);
  rand_below_loop fuel limit.

(** ** The tokens found while fuzzing *)

(** [memcmp_nocase]; the lengths agree. *)
Fixpoint memcmp_nocase (m1 m2 : list Z) : bool :=
  match m1, m2 with
  | a :: m1, b :: m2 => bool_decide (Z.lxor (tolower a) (tolower b) ≠ 0) || memcmp_nocase m1 m2
  | _, _ => false
  end.

(** The index at which the loop over runs of identical bytes ends, from [i] with [n]
    steps to go. *)
Fixpoint run_end (n : nat) (i : Z) (mem : list Z) : Z :=
  match n with
  | O => i
  | S n => if decide (Z.lxor (mem !!! 0%nat) (mem !!! Z.to_nat i) ≠ 0) then i else run_end n (i + 1) mem
  end.

(** One of the built-in interesting values?  In [interesting_16] the value of two bytes
    is compared with a signed number. *)
Definition builtin_token (mem : list Z) (len : Z) : bool :=
  let v := le_value mem in
  if decide (len = 2) then existsb (λ i, bool_decide (v = i) || bool_decide (v = SWAP16 (u16 i))) interesting_16 else
  if decide (len = 4) then existsb (λ i, bool_decide (v = u32 i) || bool_decide (v = SWAP32 (u32 i))) interesting_32
  else false.

(** The two loops over [extras]: the shorter tokens are skipped. *)
Fixpoint skip_shorter (n : nat) (i : Z) (mem_len : Z) : M dict (nat * Z) :=
  match n with
  | O => mret (O, i)
  | S n' => e ← extra_at i; if decide (mem_len ≤ len e) then mret (n, i) else skip_shorter n' (i + 1) mem_len
  end.

Fixpoint has_extra (n : nat) (i : Z) (mem : list Z) (mem_len : Z) : M dict bool :=
  match n with
  | O => mret false
  | S n =>
      e ← extra_at i;
      if decide (len e ≠ mem_len) then mret false else
      bs ← read_block (data e) mem_len;
      if memcmp_nocase bs mem then has_extra n (i + 1) mem mem_len else mret true
  end.

(** The entry of [a_extras] for a token. *)
Definition same_auto (mem : list Z) (mem_len : Z) (e : auto_extra_data) : bool :=
  bool_decide (a_extra_len e = mem_len) && negb (memcmp_nocase (take (Z.to_nat mem_len) (a_data e)) mem).

Fixpoint find_auto (i : nat) (mem : list Z) (mem_len : Z) (es : list auto_extra_data) : option nat :=
  match es with
  | [] => None
  | e :: es => if same_auto mem mem_len e then Some i else find_auto (S i) mem mem_len es
  end.

(** [memcpy(e.data, mem, len)] into the array of an entry. *)
Definition put_data (mem : list Z) (old : list Z) : list Z := mem ++ drop (length mem) old.

Definition sort_a_extras : M dict unit :=
  upd (λ s,
    let l := qsort compare_auto_extras_use_d (a_extras s) in
    let n := Z.to_nat (Z.min USE_AUTO_EXTRAS (zlen l)) in
    set_a_extras (qsort compare_auto_extras_len (take n l) ++ drop n l) s).

(** Appends the token, or puts it in place of one of the lower half. *)
Definition insert_auto (fuel : nat) (mem : list Z) (mem_len : Z) : M dict unit :=
  s ← get_state;
  if decide (zlen (a_extras s) < MAX_AUTO_EXTRAS) then
    put_state (set_a_extras (a_extras s ++ [AutoExtra (put_data mem (replicate (Z.to_nat MAX_AUTO_EXTRA) 0)) mem_len 0]) s)
  else
    r ← rand_below fuel ((MAX_AUTO_EXTRAS + 1) / 2);
    upd (λ s, set_a_extras
      (alter (λ e, AutoExtra (put_data mem (a_data e)) mem_len 0) (Z.to_nat (MAX_AUTO_EXTRAS / 2 + r)) (a_extras s)) s).

Definition maybe_add_auto (fuel : nat) (mem : list Z) (mem_len : Z) : M dict unit :=
  mem ← bytes_of mem mem_len;
  if decide (run_end (Z.to_nat (mem_len - 1)) 1 mem = mem_len ∨ MAX_AUTO_EXTRA < mem_len) then mret tt else
  if builtin_token mem mem_len then mret tt else
  s ← get_state;
  '(n, i) ← skip_shorter (Z.to_nat (extras_cnt s)) 0 mem_len;
  known ← has_extra n i mem mem_len;
  if (known : bool) then mret tt else
  _ ← upd (set_auto_changed true);
  _ ← match find_auto 0 mem mem_len (a_extras s) with
      | Some i =>
          upd (λ s, set_a_extras
            (alter (λ e, AutoExtra (a_data e) (a_extra_len e) (u32 (hit_cnt e + 1))) i (a_extras s)) s)
      | None => insert_auto fuel mem mem_len
      end;
  sort_a_extras.

(** ** Saving and loading them *)

(** ["%06u"] *)
Definition six_digits (i : Z) : string :=
  let d := pretty (Z.to_N i) in
  (String.concat "" (replicate (6 - String.length d) "0"%string) +:+ d)%string.

Definition auto_name (dir : string) (i : Z) : string := (dir +:+ "/.state/auto_extras/auto_" +:+ six_digits i)%string.

(** One file: it is created or truncated, then written. *)
Definition save_token (i : Z) : M dict unit :=
  s ← get_state;
  let fn := auto_name (out_dir s +:+ "/queue") i in
  _ ← or_exit request;
  _ ← upd (λ s, set_disk (<[fn := Regular []]> (disk s)) s);
  match a_extras s !! Z.to_nat i with
  | None => fail OutOfBounds
  | Some e =>
      bs ← bytes_of (a_data e) (a_extra_len e);
      _ ← or_exit request;
      upd (λ s, set_disk (<[fn := Regular bs]> (disk s)) s)
  end.

Definition save_auto : M dict unit :=
  s ← get_state;
  if auto_changed s then
    _ ← put_state (set_auto_changed false s);
    for_loop (Z.to_nat (Z.min USE_AUTO_EXTRAS (zlen (a_extras s)))) 0 save_token
  else mret tt.

(** One round of the loop of [load_auto]; [false] when the file is not there. *)
Definition load_token (fuel : nat) (i : Z) : M dict bool :=
  s ← get_state;
  let fn := auto_name (in_dir s) i in
  ok ← request;
  if negb ok then fail ProcessExit else
  match disk s !! fn with
  | None => mret false
  | Some (Directory _) => fail ProcessExit
  | Some (Regular bs) =>
      _ ← or_exit request;
      let tmp := take (Z.to_nat (MAX_AUTO_EXTRA + 1)) bs in
      _ ← (if decide (MIN_AUTO_EXTRA ≤ zlen tmp ≤ MAX_AUTO_EXTRA) then maybe_add_auto fuel tmp (zlen tmp) else mret tt);
      mret true
  end.

Definition load_auto (fuel : nat) : M dict bool := all_loop (Z.to_nat USE_AUTO_EXTRAS) 0 (load_token fuel).
End Dictionary.

(** ** An instance of the sort *)

(** An insertion sort. *)
Fixpoint insert_by {A} (cmp : A → A → Z) (x : A) (l : list A) : list A :=
  match l with
  | [] => [x]
  | y :: l' => if decide (cmp x y ≤ 0) then x :: l else y :: insert_by cmp x l'
  end.

Definition sort_by {A} (cmp : A → A → Z) (l : list A) : list A := foldr (insert_by cmp) [] l.

#[export] Instance stable_sort : QSort := {| qsort := @sort_by |}.
