(* ===== verification/AflDictSpec.v ===== *)
(** * AflDictSpec: what the dictionary holds

    [dictionary s ts]: the tokens of [extras] are [ts], every token in a block of its
    own, and there are no other blocks.  The operations are described by what they do
    to the list of tokens. *)

From stdpp Require Import sorting.
From S2P Require Import Prelude AflBitmap AflQueue AflDet AflDict.

(** Linear arithmetic with remainders. *)
Ltac zmod := Z.to_euclidean_division_equations; lia.

(** ** The law of [qsort] *)

(** A comparison by the sign of a difference of keys sorts by the keys; elements with
    equal keys may come in any order. *)
Class QSortLaw `{!QSort} : Prop := {
  qsort_perm : ∀ {A} (cmp : A → A → Z) l, qsort cmp l ≡ₚ l;
  qsort_sorted : ∀ {A} (cmp : A → A → Z) (key : A → Z) l,
    (∀ x y, x ∈ l → y ∈ l → Z.sgn (cmp x y) = Z.sgn (key x - key y)) →
    StronglySorted (λ x y, key x ≤ key y) (qsort cmp l) }.

Lemma insert_by_perm {A} (cmp : A → A → Z) x l : insert_by cmp x l ≡ₚ x :: l.
Proof. induction l as [|y l IH]; simpl; [done|]. case_decide; [done|]. rewrite IH. constructor. Qed.

Lemma insert_by_sorted {A} (cmp : A → A → Z) (key : A → Z) x l :
  (∀ y, y ∈ l → Z.sgn (cmp x y) = Z.sgn (key x - key y)) →
  StronglySorted (λ x y, key x ≤ key y) l → StronglySorted (λ x y, key x ≤ key y) (insert_by cmp x l).
Proof.
  induction l as [|y l IH]; intros Hc Hs; simpl; [by repeat constructor|].
  inversion Hs as [|?? Hl Hy]; subst. pose proof (Hc y (list_elem_of_here _ _)) as Hxy.
  case_decide as Hle; constructor; [done| |apply IH; [intros; apply Hc; by right|done]|].
  - constructor; [lia|]. eapply Forall_impl; [exact Hy|]. simpl. lia.
  - rewrite insert_by_perm. constructor; [lia|done].
Qed.

#[export] Instance stable_sort_law : QSortLaw.
Proof.
  split.
  - intros A cmp l. induction l as [|x l IH]; simpl; [done|]. rewrite insert_by_perm. by apply perm_skip.
  - intros A cmp key l Hc. induction l as [|x l IH]; simpl; [constructor|].
    assert (sort_by cmp l ≡ₚ l) as Hp.
    { clear. induction l as [|x l IH]; simpl; [done|]. rewrite insert_by_perm. by apply perm_skip. }
    apply insert_by_sorted.
    + intros y Hy. apply Hc; [by left|right]. by rewrite <- Hp.
    + apply IH. intros. apply Hc; by right.
Qed.

(** ** What is stored *)

(** The tokens [t] of one entry. *)
Definition owns (B : gmap loc (list Z)) (e : extra_data) (t : list Z) : Prop :=
  len e = zlen t ∧ zlen t ≤ MAX_DICT_FILE ∧
  match data e with
  | Some p => ∃ bs, B !! p = Some bs ∧ t = take (length t) bs
  | None => t = []
  end.

Abbreviation pointers l := (omap data l).

Record stores (s : dict) (l : list extra_data) (ts : list (list Z)) : Prop := {
  st_array : extras s = Some l ∨ (extras s = None ∧ l = []);
  st_cnt : extras_cnt s = zlen l;
  st_owns : Forall2 (owns (blocks s)) l ts;
  st_nodup : NoDup (pointers l);
  st_dom : dom (blocks s) = list_to_set (pointers l) }.

Definition dictionary (s : dict) (ts : list (list Z)) : Prop := ∃ l, stores s l ts.

(** In the order that the searches rely on. *)
Definition by_length (ts : list (list Z)) : Prop := StronglySorted Z.le ((λ t, zlen t) <$> ts).

Lemma by_length_le ts i j t u : by_length ts → ts !! i = Some t → ts !! j = Some u → (i ≤ j)%nat → zlen t ≤ zlen u.
Proof.
  intros Hs Hi Hj Hij. destruct (decide (i = j)) as [->|]; [simplify_eq; lia|]. unfold by_length in Hs.
  rewrite <- (take_drop (S i) ts), fmap_app in Hs.
  apply (StronglySorted_app_1_elem_of _ _ _ (zlen t) (zlen u)) in Hs; [done|..]; apply (list_elem_of_fmap_2 (λ t, zlen t)).
  - apply list_elem_of_lookup. exists i. rewrite lookup_take_lt by lia. done.
  - apply list_elem_of_lookup. exists (j - S i)%nat. rewrite lookup_drop. by replace (S i + (j - S i))%nat with j by lia.
Qed.

(** What the operations on the tokens leave alone. *)
Record same_rest (s s' : dict) : Prop := {
  sr_a_extras : a_extras s' = a_extras s;
  sr_auto_changed : auto_changed s' = auto_changed s;
  sr_rand : rand_seed s' = rand_seed s ∧ rand_cnt s' = rand_cnt s ∧ fixed_seed s' = fixed_seed s;
  sr_dirs : in_dir s' = in_dir s ∧ out_dir s' = out_dir s ∧ disk s' = disk s }.

#[export] Instance same_rest_preorder : PreOrder same_rest.
Proof.
  split; [by repeat split|]. intros s1 s2 s3 [H1 H2 H3 H4] [G1 G2 G3 G4].
  split; [congruence|congruence|intuition congruence..].
Qed.

Lemma stores_length s l ts : stores s l ts → length l = length ts.
Proof. intros [_ _ Ho _ _]. by eapply Forall2_length. Qed.

Lemma owns_nonneg B e t : owns B e t → 0 ≤ len e ≤ 128.
Proof. intros (-> & Ht & _). unfold MAX_DICT_FILE in Ht. lia. Qed.

Lemma stores_lookup s l ts i : stores s l ts → (i < length ts)%nat →
  ∃ e t, extras s = Some l ∧ l !! i = Some e ∧ ts !! i = Some t ∧ owns (blocks s) e t.
Proof.
  intros Hs Hi. pose proof (stores_length _ _ _ Hs) as Hl. destruct Hs as [Ha _ Ho _ _].
  destruct (lookup_lt_is_Some_2 l i) as [e He]; [lia|]. destruct (Forall2_lookup_l _ _ _ _ _ Ho He) as (t & Ht & Het).
  exists e, t. split; [|done]. destruct Ha as [|[? ->]]; done.
Qed.

(** ** Accesses *)

Section Spec.
Context `{Host, QSort, Entropy}.

Lemma wp_dict_upd f s (Q : unit → dict → Prop) : Q tt (f s) → wp (upd f) s Q.
Proof. done. Qed.

Lemma wp_extra_at i l e s (Q : extra_data → dict → Prop) :
  extras s = Some l → l !! Z.to_nat i = Some e → Q e s → wp (extra_at i) s Q.
Proof. intros He Hl HQ. unfold extra_at. apply wp_bind, wp_get. by rewrite He, Hl. Qed.

(** A block is read as the token it stores. *)
Lemma wp_read_owned e t s n (Q : list Z → dict → Prop) :
  owns (blocks s) e t → n = zlen t → Q t s → wp (read_block (data e) n) s Q.
Proof.
  intros (Hl & _ & Hd) -> HQ. unfold read_block. destruct (data e) as [p|].
  - destruct Hd as (bs & Hp & Ht). apply wp_bind, wp_get. rewrite Hp.
    assert (length t ≤ length bs)%nat. { apply (f_equal length) in Ht. rewrite length_take in Ht. lia. }
    rewrite decide_True by lia. rewrite Nat2Z.id, <- Ht. done.
  - by subst.
Qed.

Lemma wp_bytes_of mem n s (Q : list Z → dict → Prop) : n = zlen mem → Q mem s → wp (bytes_of mem n) s Q.
Proof. intros -> HQ. unfold bytes_of. rewrite decide_True, Nat2Z.id, take_ge by lia. done. Qed.

Lemma wp_dict_request s (Q : bool → dict → Prop) :
  never_refuses → Q true (set_requests (Pos.succ (requests s)) s) → wp request s Q.
Proof. intros Hn HQ. unfold request. do 2 apply wp_bind. simpl. by rewrite Hn. Qed.

Lemma stores_same s s' l ts : extras s' = extras s → extras_cnt s' = extras_cnt s → blocks s' = blocks s →
  stores s l ts → stores s' l ts.
Proof. intros He Hc Hb [? ? ? ? ?]. split; congruence. Qed.

Lemma wp_grow_extras s l ts : never_refuses → stores s l ts →
  wp grow_extras s (λ _ s', stores s' l ts ∧ extras s' = Some l ∧ blocks s' = blocks s ∧ same_rest s s').
Proof.
  intros Hn Hs. unfold grow_extras, or_exit, afl_realloc. apply wp_bind, wp_get. do 2 apply wp_bind. apply wp_get.
  assert (default [] (extras s) = l) as Hd by (destruct (st_array _ _ _ Hs) as [->|[-> ->]]; done).
  case_decide as Hroom.
  - apply wp_ret. repeat split; try done; try apply Hs.
    destruct (st_array _ _ _ Hs) as [|[Hnull ->]]; [done|]. exfalso. rewrite Hnull, (st_cnt _ _ _ Hs) in Hroom.
    vm_compute in Hroom. by apply Hroom.
  - apply wp_bind, wp_dict_request; [done|]. apply wp_bind, wp_dict_upd. apply wp_ret. simpl.
    rewrite Hd. repeat split; try apply Hs; try done. by left.
Qed.

Lemma wp_ck_alloc n s (Q : option loc → dict → Prop) : never_refuses → 0 < n ≤ MAX_ALLOC →
  (∀ p s', p ∉ dom (blocks s) → blocks s' = <[p := replicate (Z.to_nat n) 0]> (blocks s) → same_rest s s' →
    extras s' = extras s → extras_cnt s' = extras_cnt s → Q (Some p) s') →
  wp (ck_alloc n) s Q.
Proof.
  intros Hn Hr HQ. unfold ck_alloc. rewrite decide_False, decide_False by lia.
  apply wp_bind. unfold or_exit. apply wp_bind, wp_dict_request; [done|]. apply wp_ret.
  apply wp_bind, wp_get. apply wp_bind, wp_put. apply wp_ret. apply HQ; try done.
  simpl. apply (is_fresh (dom (blocks s))).
Qed.

Lemma wp_write_block p mem bs s (Q : unit → dict → Prop) :
  blocks s !! p = Some bs → zlen mem ≤ zlen bs →
  Q tt (set_blocks (<[p := mem ++ drop (length mem) bs]> (blocks s)) s) → wp (write_block (Some p) mem) s Q.
Proof. intros Hp Hl HQ. unfold write_block. apply wp_bind, wp_get. rewrite Hp, decide_True by done. by apply wp_put. Qed.

(** A new block with a token becomes an entry. *)
Lemma push_ok s0 s l ts p bs mem : stores s0 l ts → p ∉ dom (blocks s0) → extras s = Some l →
  extras_cnt s = extras_cnt s0 → blocks s = <[p := bs]> (blocks s0) → same_rest s0 s →
  mem = take (length mem) bs → zlen mem ≤ MAX_DICT_FILE → zlen l < 2 ^ 28 →
  wp (push_extra (Extra (Some p) (zlen mem))) s
     (λ _ s', stores s' (l ++ [Extra (Some p) (zlen mem)]) (ts ++ [mem]) ∧ same_rest s0 s').
Proof.
  intros Hs Hp He Hc Hb Hr Hm Hlen Hfew. unfold push_extra. apply wp_bind, wp_get. rewrite He. apply wp_put.
  assert (p ∉ pointers l) as Hpl.
  { rewrite (st_dom _ _ _ Hs), elem_of_list_to_set in Hp. done. }
  split; [|destruct Hr as [? ? ? ?]; split; done]. split; simpl.
  - by left.
  - rewrite Hc, (st_cnt _ _ _ Hs), length_app. simpl. rewrite wrap_small by lia. lia.
  - rewrite Hb. apply Forall2_app.
    + eapply Forall2_impl; [apply Hs|]. intros e t (Hle & Ht & Hd). split; [done|]. split; [done|].
      destruct (data e) as [q|]; [|done]. destruct Hd as (bs' & Hq & Hbs). exists bs'. split; [|done].
      apply lookup_insert_Some. right. split; [|done]. intros ->. apply Hp. by apply elem_of_dom_2 in Hq.
    + repeat constructor; simpl; try done. exists bs. by rewrite lookup_insert_eq.
  - rewrite omap_app. simpl. apply NoDup_app. split; [apply Hs|]. split; [|by apply NoDup_singleton].
    intros x Hx Hx'. apply list_elem_of_singleton in Hx'. by subst.
  - rewrite Hb, dom_insert_L, (st_dom _ _ _ Hs), omap_app, list_to_set_app_L. simpl. set_solver.
Qed.

Lemma wp_add_extra_nocheck s l ts mem : never_refuses → stores s l ts → zlen l < 2 ^ 28 →
  0 < zlen mem ≤ MAX_DICT_FILE →
  wp (add_extra_nocheck mem (zlen mem)) s (λ _ s', ∃ e, stores s' (l ++ [e]) (ts ++ [mem]) ∧ same_rest s s').
Proof.
  intros Hn Hs Hfew Hm. unfold MAX_DICT_FILE in Hm. unfold add_extra_nocheck. apply wp_bind.
  eapply wp_mono; [by eapply wp_grow_extras|]. intros [] s1 (Hs1 & He1 & Hb1 & Hr1).
  apply wp_bind, wp_ck_alloc; [done|unfold MAX_ALLOC; lia|]. intros p s2 Hp Hb2 Hr2 He2 Hc2.
  apply wp_bind, wp_bytes_of; [done|]. apply wp_bind. eapply wp_write_block.
  { by rewrite Hb2, lookup_insert_eq. }
  { rewrite length_replicate. lia. }
  rewrite Hb2, insert_insert_eq, drop_ge, app_nil_r by (rewrite length_replicate; lia).
  eapply wp_mono.
  - apply (push_ok s1 _ l ts p mem mem); simpl; try done; try congruence.
    + destruct Hr2 as [? ? ? ?]. by split.
    + by rewrite firstn_all.
    + unfold MAX_DICT_FILE. lia.
  - intros [] s' [Hs' Hr']. eexists. split; [exact Hs'|]. by etrans.
Qed.

(** ** Sorting *)


Lemma owned_lengths B l ts : Forall2 (owns B) l ts → len <$> l = (λ t, zlen t) <$> ts.
Proof. induction 1 as [|e t l ts (He & _ & _) _ IH]; [done|]. by rewrite !fmap_cons, He, IH. Qed.

Lemma wp_sort_extras `{!QSortLaw} s l ts : stores s l ts →
  wp sort_extras s (λ _ s', ∃ ts', dictionary s' ts' ∧ ts' ≡ₚ ts ∧ by_length ts' ∧ same_rest s s').
Proof.
  intros Hs. unfold sort_extras. apply wp_bind, wp_get. destruct (st_array _ _ _ Hs) as [He|[He ->]]; rewrite He.
  2:{ rewrite decide_True by (by rewrite (st_cnt _ _ _ Hs)). apply wp_ret. exists ts.
      split; [by exists []|]. split; [done|]. split; [|done]. pose proof (st_owns _ _ _ Hs) as Ho. inversion Ho. constructor. }
  apply wp_put. pose proof (qsort_perm compare_extras_len l) as Hp.
  destruct (Permutation_Forall2 (symmetry Hp) (st_owns _ _ _ Hs)) as (ts' & Hts & Ho').
  exists ts'. split; [|split; [done|split; [|done]]].
  - exists (qsort compare_extras_len l). split; simpl; [by left|by rewrite Hp; apply Hs|done|..].
    + rewrite Hp. apply Hs.
    + rewrite (st_dom _ _ _ Hs). apply list_to_set_perm_L, omap_Permutation. done.
  - unfold by_length. rewrite <- (owned_lengths _ _ _ Ho'). apply (StronglySorted_fmap len (λ x y, len x ≤ len y)); [done|apply qsort_sorted].
    assert (∀ x, x ∈ l → 0 ≤ len x ≤ 128) as Hb.
    { intros x Hx. apply list_elem_of_lookup in Hx as [i Hi].
      destruct (Forall2_lookup_l _ _ _ _ _ (st_owns _ _ _ Hs) Hi) as (t & _ & Ht). by eapply owns_nonneg. }
    intros x y Hx Hy. specialize (Hb x Hx) as Hbx. specialize (Hb y Hy) as Hby.
    unfold compare_extras_len, i32. rewrite wrap_small by lia. f_equal. lia.
Qed.

(** ** [add_extra] *)

(** The search finds the token among the sorted ones from [i] on. *)
Lemma wp_has_token s l ts mem n : stores s l ts → by_length ts → ∀ i found, (i + n)%nat = length ts →
  (found = true → ∃ j t, (j < i)%nat ∧ ts !! j = Some t ∧ zlen t = zlen mem) →
  wp (has_token n (Z.of_nat i) found mem (zlen mem)) s (λ b s', s' = s ∧ b = bool_decide (mem ∈ drop i ts)).
Proof.
  intros Hs Hsort. induction n as [|n IH]; intros i found Hi Hf; simpl.
  { apply wp_ret. split; [done|]. rewrite drop_ge by lia. symmetry. by apply bool_decide_eq_false, not_elem_of_nil. }
  destruct (stores_lookup s l ts i) as (e & t & He & Hl & Ht & Ho); [done|lia|].
  rewrite (drop_S _ t i) by done. replace (Z.of_nat i + 1) with (Z.of_nat (S i)) by lia.
  apply wp_bind. eapply wp_extra_at; [done|by rewrite Nat2Z.id|]. pose proof Ho as (Hlen & _). case_decide as Hl1.
  - apply wp_bind. eapply wp_read_owned; [exact Ho|congruence|]. apply wp_bind, wp_bytes_of; [done|].
    case_decide as Heq.
    { apply wp_ret. split; [done|]. symmetry. apply bool_decide_eq_true. subst. by left. }
    eapply wp_mono; [apply IH; [lia|]|].
    + intros _. exists i, t. split; [lia|]. split; [done|congruence].
    + intros b s' [-> ->]. split; [done|]. apply bool_decide_ext. rewrite elem_of_cons. naive_solver.
  - assert (mem ≠ t) as Hne by (intros ->; done). destruct found.
    + apply wp_ret. split; [done|]. symmetry. apply bool_decide_eq_false. rewrite elem_of_cons. intros [?|Hin]; [done|].
      destruct (Hf eq_refl) as (j & u & Hj & Hu & Hul).
      assert (zlen u ≤ zlen t) by (eapply by_length_le; [done|exact Hu|exact Ht|lia]).
      apply list_elem_of_lookup in Hin as [k Hk]. rewrite lookup_drop in Hk.
      assert (zlen t ≤ zlen mem) by (eapply by_length_le; [done|exact Ht|exact Hk|lia]). lia.
    + eapply wp_mono; [apply IH; [lia|done]|]. intros b s' [-> ->]. split; [done|]. apply bool_decide_ext.
      rewrite elem_of_cons. naive_solver.
Qed.

(** [add_extra] on a sorted dictionary adds a token that is not there and not
    too long, once, and keeps the dictionary sorted, in blocks of its own and without
    a leak; otherwise the tokens stay as they are. *)
Theorem add_extra_correct `{!QSortLaw} s ts mem :
  never_refuses → dictionary s ts → by_length ts → zlen ts < 2 ^ 28 → 0 < zlen mem →
  ∃ s' ts', add_extra mem (zlen mem) s = Ret (tt, s') ∧ dictionary s' ts' ∧ by_length ts' ∧ same_rest s s' ∧
    (ts' ≡ₚ if decide (mem ∈ ts ∨ MAX_DICT_FILE < zlen mem) then ts else mem :: ts) ∧ (NoDup ts → NoDup ts').
Proof.
  intros Hn [l Hs] Hsort Hfew Hm. pose proof (stores_length _ _ _ Hs) as Hl.
  cut (wp (add_extra mem (zlen mem)) s (λ _ s', ∃ ts', dictionary s' ts' ∧ by_length ts' ∧ same_rest s s' ∧
    (ts' ≡ₚ if decide (mem ∈ ts ∨ MAX_DICT_FILE < zlen mem) then ts else mem :: ts))).
  { intros ([] & s' & Hrun & ts' & Hd & Hb & Hr & Hp)%wp_Ret. exists s', ts'. do 5 (split; [done|]).
    intros Hnd. rewrite Hp. case_decide as Hc; [done|]. constructor; [|done]. tauto. }
  unfold add_extra. apply wp_bind, wp_get. apply wp_bind. rewrite (st_cnt _ _ _ Hs), Nat2Z.id.
  eapply wp_mono; [by apply (wp_has_token s l ts mem _ Hs Hsort 0 false); [lia|]|].
  intros b s' [-> ->]. rewrite drop_0. case_bool_decide as Hin.
  { apply wp_ret. exists ts. rewrite decide_True by (by left). split; [by exists l|done]. }
  case_decide as Hbig; [apply wp_ret; exists ts; rewrite decide_True by (by right); split; [by exists l|done]|].
  rewrite decide_False by naive_solver. apply wp_bind. eapply wp_mono; [by apply (wp_add_extra_nocheck s l ts); [| |lia|lia]|].
  intros [] s1 (e & Hs1 & Hr1). eapply wp_mono; [by eapply wp_sort_extras|].
  intros [] s2 (ts' & Hd & Hp & Hb & Hr2). exists ts'. split; [done|]. split; [done|]. split; [by etrans|].
  rewrite Hp. by rewrite Permutation_app_comm.
Qed.

(** ** [deunicode_extras] *)

(** The tokens that are added for [t]. *)
Definition decoded (t : list Z) : list (list Z) :=
  if decide (zlen t < 6 ∨ 64 < zlen t ∨ zlen t `mod` 2 ≠ 0) then [] else
  let half := Z.shiftr (zlen t) 1 in
  let quarter := Z.shiftr half 1 in
  let '(z1, z2, z3, z4) := count_zeros 0 t in
  if decide ((z1 < half ∧ z2 < half) ∨ z1 + z2 = zlen t) then [] else
  (if decide (zlen t `mod` 4 = 0 ∧ 12 ≤ zlen t ∧ (z3 = quarter ∨ z4 = quarter) ∧ z1 + z2 = quarter * 3) then
     [pick 4 (if decide (z4 < quarter) then 3 else if decide (z3 < quarter) then 2 else
              if decide (z2 < half) then 1 else 0) 0 t]
   else []) ++ [pick 2 (if decide (z1 < half) then 0 else 1) 0 t].

Lemma length_pick m r t : ∀ j, (length (pick m r j t) ≤ length t)%nat.
Proof. induction t as [|c t IH]; intros j; simpl; [lia|]. specialize (IH (j + 1)). case_decide; simpl; lia. Qed.

(** Something is picked where the index is reached. *)
Lemma pick_some m r t : ∀ j i, j ≤ i < j + zlen t → i `mod` m = r → pick m r j t ≠ [].
Proof.
  induction t as [|c t IH]; intros j i Hi Hr; simpl in *; [lia|]. case_decide as Hj; [done|].
  apply (IH (j + 1) i); [|done]. assert (i ≠ j) by congruence. lia.
Qed.

Lemma pick_length m r t : 0 ≤ r < m → m ≤ zlen t → 0 < zlen (pick m r 0 t) ≤ zlen t.
Proof.
  intros Hr Hm. pose proof (length_pick m r t 0). assert (pick m r 0 t ≠ []) as Hne.
  { apply (pick_some m r t 0 r); [lia|]. by apply Z.mod_small. }
  destruct (pick m r 0 t); [done|]. simpl in *. lia.
Qed.

Lemma wp_add_picked s l ts m r t : never_refuses → stores s l ts → zlen l < 2 ^ 28 → 0 ≤ r < m → m ≤ zlen t ≤ 64 →
  wp (add_picked (pick m r 0 t)) s (λ _ s', ∃ e, stores s' (l ++ [e]) (ts ++ [pick m r 0 t]) ∧ same_rest s s').
Proof.
  intros Hn Hs Hfew Hr Ht. pose proof (pick_length m r t Hr ltac:(lia)) as Hk. unfold add_picked.
  rewrite decide_False by lia. apply (wp_add_extra_nocheck s l ts); [done..|]. unfold MAX_DICT_FILE. lia.
Qed.

Lemma wp_deunicode_entry s l ts i t : never_refuses → stores s l ts → zlen l < 2 ^ 28 - 1 → ts !! i = Some t →
  wp (deunicode_entry (Z.of_nat i)) s (λ _ s', ∃ l', stores s' l' (ts ++ decoded t) ∧ same_rest s s').
Proof.
  intros Hn Hs Hfew Ht. destruct (stores_lookup s l ts i) as (e & t' & He & Hl & Ht' & Ho); [done|by eapply lookup_lt_Some|].
  simplify_eq. pose proof Ho as (Hlen & _). unfold deunicode_entry, decoded. apply wp_bind.
  eapply wp_extra_at; [done|by rewrite Nat2Z.id|]. rewrite Hlen. case_decide as Hshape.
  { apply wp_ret. exists l. by rewrite app_nil_r. }
  apply wp_bind. eapply wp_read_owned; [done|done|]. destruct (count_zeros 0 t) as [[[z1 z2] z3] z4].
  case_decide as Hz; [apply wp_ret; exists l; by rewrite app_nil_r|].
  apply wp_bind. case_decide as H4.
  - eapply wp_mono; [eapply (wp_add_picked s l ts 4); [done|done|lia| |lia]|].
    { repeat case_decide; lia. }
    intros [] s1 (e1 & Hs1 & Hr1). eapply wp_mono; [eapply (wp_add_picked s1 (l ++ [e1])); [done|done| | |lia]|].
    { rewrite length_app. simpl. lia. }
    { destruct (decide (z1 < _)); lia. }
    intros [] s2 (e2 & Hs2 & Hr2). eexists. rewrite app_assoc. split; [exact Hs2|by etrans].
  - apply wp_ret. eapply wp_mono; [eapply (wp_add_picked s l ts 2); [done|done|lia| |lia]|].
    { case_decide; lia. }
    intros [] s2 (e2 & Hs2 & Hr2). eexists. split; [exact Hs2|done].
Qed.

(** A character in a wider unit, with [pre] zero bytes before it and [post] after it:
    UTF-16 and UTF-32 of ASCII text, in both byte orders. *)
Fixpoint widened (pre post : nat) (w : list Z) : list Z :=
  match w with
  | [] => []
  | c :: w => replicate pre 0 ++ c :: replicate post 0 ++ widened pre post w
  end.

Lemma length_widened pre post w : length (widened pre post w) = ((pre + post + 1) * length w)%nat.
Proof. induction w as [|c w IH]; simpl; [lia|]. rewrite length_app, length_replicate. simpl. rewrite length_app, length_replicate. lia. Qed.

(** One unit of [widened]: every test on the index is decided. *)
Ltac count_unit :=
  repeat first [rewrite decide_False by zmod | rewrite decide_True by (done || zmod)]; try eexists; repeat f_equal; lia.

Lemma count_zeros_le16 w : Forall (λ c, c ≠ 0) w → ∀ j, j `mod` 2 = 0 →
  ∃ z4, count_zeros j (widened 0 1 w) = (0, zlen w, 0, z4).
Proof.
  induction 1 as [|c w Hc _ IH]; intros j Hj; simpl; [by exists 0|]. destruct (IH (j + 1 + 1)) as [z4 ->]; [zmod|].
  assert (j `mod` 4 = 0 ∨ j `mod` 4 = 2) as [E|E] by zmod; count_unit.
Qed.

Lemma count_zeros_be16 w : Forall (λ c, c ≠ 0) w → ∀ j, j `mod` 2 = 0 →
  ∃ z3, count_zeros j (widened 1 0 w) = (zlen w, 0, z3, 0).
Proof.
  induction 1 as [|c w Hc _ IH]; intros j Hj; simpl; [by exists 0|]. destruct (IH (j + 1 + 1)) as [z3 ->]; [zmod|].
  assert (j `mod` 4 = 0 ∨ j `mod` 4 = 2) as [E|E] by zmod; count_unit.
Qed.

Lemma count_zeros_le32 w : Forall (λ c, c ≠ 0) w → ∀ j, j `mod` 4 = 0 →
  count_zeros j (widened 0 3 w) = (zlen w, 2 * zlen w, zlen w, zlen w).
Proof. induction 1 as [|c w Hc _ IH]; intros j Hj; simpl; [done|]. rewrite IH by zmod. count_unit. Qed.

Lemma count_zeros_be32 w : Forall (λ c, c ≠ 0) w → ∀ j, j `mod` 4 = 0 →
  count_zeros j (widened 3 0 w) = (2 * zlen w, zlen w, zlen w, 0).
Proof. induction 1 as [|c w Hc _ IH]; intros j Hj; simpl; [done|]. rewrite IH by zmod. count_unit. Qed.

(** Picking the characters again. *)
Lemma pick_widened pre post w : ∀ j, j `mod` Z.of_nat (pre + post + 1) = 0 →
  pick (Z.of_nat (pre + post + 1)) (Z.of_nat pre) j (widened pre post w) = w.
Proof.
  assert (∀ n m r j t, (∀ k, j ≤ k < j + Z.of_nat n → k `mod` m ≠ r) →
    pick m r j (replicate n 0 ++ t) = pick m r (j + Z.of_nat n) t) as Hskip.
  { induction n as [|n IH]; intros m r j t Hk; simpl; [by rewrite Z.add_0_r|].
    rewrite decide_False by (apply Hk; lia). rewrite IH by (intros; apply Hk; lia). f_equal. lia. }
  induction w as [|c w IH]; intros j Hj; simpl; [done|].
  assert (∀ k, j ≤ k < j + Z.of_nat (pre + post + 1) → k `mod` Z.of_nat (pre + post + 1) = k - j) as Hk.
  { intros k Hk. replace k with (j + (k - j)) at 1 by lia. rewrite Zplus_mod, Hj, Z.add_0_l, Zmod_mod.
    apply Z.mod_small. lia. }
  rewrite Hskip by (intros k Hkj; rewrite Hk; lia). simpl. rewrite decide_True by (rewrite Hk; lia). f_equal.
  rewrite Hskip by (intros k Hkj; rewrite Hk; lia). apply IH.
  replace (j + Z.of_nat pre + 1 + Z.of_nat post) with (j + 1 * Z.of_nat (pre + post + 1)) by lia.
  by rewrite Z_mod_plus_full.
Qed.

Lemma decoded_utf16 pre post w : (pre + post = 1)%nat → Forall (λ c, c ≠ 0) w → 3 ≤ zlen w ≤ 32 →
  w ∈ decoded (widened pre post w).
Proof.
  intros Hn Hw Hl. pose proof (length_widened pre post w) as Hlen.
  assert (zlen (widened pre post w) = 2 * zlen w) as E by lia. unfold decoded. rewrite E, decide_False by zmod.
  assert (Z.shiftr (2 * zlen w) 1 = zlen w) as -> by (rewrite Z.shiftr_div_pow2 by lia; zmod).
  pose proof (pick_widened pre post w 0 (Zmod_0_l _)) as Hp.
  destruct (Nat.eq_dec pre 0%nat) as [->|]; [assert (post = 1%nat) as -> by lia|assert (pre = 1%nat ∧ post = 0%nat) as [-> ->] by lia].
  - change (pick 2 0 0 (widened 0 1 w) = w) in Hp. destruct (count_zeros_le16 w Hw 0 eq_refl) as [z4 ->]. rewrite (decide_False (P := _ ∨ _)) by lia.
    apply elem_of_app. right. rewrite (decide_True (P := 0 < zlen w)) by lia. by rewrite Hp, list_elem_of_singleton.
  - change (pick 2 1 0 (widened 1 0 w) = w) in Hp. destruct (count_zeros_be16 w Hw 0 eq_refl) as [z4 ->]. rewrite (decide_False (P := _ ∨ _)) by lia.
    apply elem_of_app. right. rewrite (decide_False (P := zlen w < zlen w)) by lia. by rewrite Hp, list_elem_of_singleton.
Qed.

Lemma decoded_utf32 pre post w : (pre = 0 ∧ post = 3 ∨ pre = 3 ∧ post = 0)%nat → Forall (λ c, c ≠ 0) w → 3 ≤ zlen w ≤ 16 →
  w ∈ decoded (widened pre post w).
Proof.
  intros Hn Hw Hl. pose proof (length_widened pre post w) as Hlen.
  assert (zlen (widened pre post w) = 4 * zlen w) as E by (destruct Hn as [[-> ->]|[-> ->]]; lia). unfold decoded. rewrite E, decide_False by zmod.
  assert (Z.shiftr (4 * zlen w) 1 = 2 * zlen w) as -> by (rewrite Z.shiftr_div_pow2 by lia; zmod).
  assert (Z.shiftr (2 * zlen w) 1 = zlen w) as -> by (rewrite Z.shiftr_div_pow2 by lia; zmod).
  pose proof (pick_widened pre post w 0 (Zmod_0_l _)) as Hp.
  destruct Hn as [[-> ->]|[-> ->]]; [rewrite count_zeros_le32 by done|rewrite count_zeros_be32 by done];
    rewrite (decide_False (P := _ ∨ _)) by lia; rewrite (decide_True (P := _ ∧ _ ∧ _)) by (split; [zmod|lia]);
    apply elem_of_app; left.
  - change (pick 4 0 0 (widened 0 3 w) = w) in Hp. rewrite !decide_False by lia. by rewrite Hp, list_elem_of_singleton.
  - change (pick 4 3 0 (widened 3 0 w) = w) in Hp. rewrite decide_True by lia. by rewrite Hp, list_elem_of_singleton.
Qed.

Lemma length_all_decoded ts : (length (ts ≫= decoded) ≤ 2 * length ts)%nat.
Proof.
  induction ts as [|t ts IH]; [done|]. rewrite bind_cons, length_app.
  assert (length (decoded t) ≤ 2)%nat; [|simpl; lia]. unfold decoded.
  destruct (count_zeros 0 t) as [[[? ?] ?] ?]. repeat case_decide; simpl; lia.
Qed.

(** The loop over the tokens that were there at the start. *)
Lemma wp_deunicode_loop s l ts : never_refuses → stores s l ts → zlen ts < 2 ^ 26 →
  wp (for_loop (length ts) 0 deunicode_entry) s
    (λ _ s', ∃ l', stores s' l' (ts ++ (ts ≫= decoded)) ∧ same_rest s s').
Proof.
  intros Hn Hs Hfew.
  pose (I := λ i s', ∃ l', stores s' l' (ts ++ (take (Z.to_nat i) ts ≫= decoded)) ∧ same_rest s s').
  eapply wp_mono; [apply (wp_for_loop I (length ts) 0)|].
  - exists l. simpl. rewrite app_nil_r. by split.
  - intros j s1 Hj (l1 & Hs1 & Hr1). destruct (lookup_lt_is_Some_2 ts (Z.to_nat j)) as [t Ht]; [lia|].
    eapply wp_mono; [replace j with (Z.of_nat (Z.to_nat j)) at 1 by lia; eapply (wp_deunicode_entry s1 l1); [done|exact Hs1| |by apply lookup_app_l_Some]|].
    + rewrite (stores_length _ _ _ Hs1), length_app. pose proof (length_all_decoded (take (Z.to_nat j) ts)) as Hd. rewrite length_take in Hd. lia.
    + intros [] s2 (l2 & Hs2 & Hr2). exists l2. split; [|by etrans]. replace (Z.to_nat (j + 1)) with (S (Z.to_nat j)) by lia.
      rewrite (take_S_r _ _ t), bind_app, app_assoc by done. simpl. by rewrite app_nil_r.
  - intros [] s' (l' & Hs' & Hr'). exists l'. rewrite Z.add_0_l, Nat2Z.id, firstn_all in Hs'. done.
Qed.

(** [deunicode_extras] keeps all tokens and adds decoded ones, without a leak and
    sorted again: every word of 3 to 32 characters that a token holds in UTF-16, and of 3
    to 16 characters in UTF-32, in either byte order, is then a token. *)
Theorem deunicode_extras_correct `{!QSortLaw} s ts :
  never_refuses → dictionary s ts → by_length ts → zlen ts < 2 ^ 26 →
  ∃ s' ts' added, deunicode_extras s = Ret (tt, s') ∧ dictionary s' ts' ∧ by_length ts' ∧ same_rest s s' ∧ ts' ≡ₚ ts ++ added ∧
    ∀ pre post w, widened pre post w ∈ ts → Forall (λ c, c ≠ 0) w →
      (pre + post = 1)%nat ∧ 3 ≤ zlen w ≤ 32 ∨ (pre = 0 ∧ post = 3 ∨ pre = 3 ∧ post = 0)%nat ∧ 3 ≤ zlen w ≤ 16 →
      w ∈ added.
Proof.
  intros Hn [l Hs] Hsort Hfew.
  cut (wp deunicode_extras s (λ _ s', ∃ ts', dictionary s' ts' ∧ by_length ts' ∧ same_rest s s' ∧ ts' ≡ₚ ts ++ (ts ≫= decoded))).
  { intros ([] & s' & Hrun & ts' & Hd & Hb & Hr & Hp)%wp_Ret. exists s', ts', (ts ≫= decoded). do 5 (split; [done|]).
    intros pre post w Hin Hw Hshape. apply list_elem_of_bind. exists (widened pre post w). split; [|done].
    destruct Hshape as [[? ?]|[? ?]]; [by apply decoded_utf16|by apply decoded_utf32]. }
  unfold deunicode_extras. apply wp_bind, wp_get. rewrite (st_cnt _ _ _ Hs), (stores_length _ _ _ Hs). case_decide as Hz.
  { apply wp_ret. destruct ts; [|done]. exists []. split; [by exists l|done]. }
  rewrite Nat2Z.id. apply wp_bind. eapply wp_mono; [by eapply wp_deunicode_loop|]. intros [] s1 (l1 & Hs1 & Hr1).
  eapply wp_mono; [by eapply wp_sort_extras|]. intros [] s2 (ts' & Hd & Hp & Hb & Hr2). exists ts'.
  do 2 (split; [done|]). split; [by etrans|done].
Qed.

(** ** [dedup_extras] and [destroy_extras] *)

(** Freeing the block of an entry and taking the entry out. *)
Lemma wp_drop_entry s l1 e l2 ts1 t ts2 : stores s (l1 ++ e :: l2) (ts1 ++ t :: ts2) → length l1 = length ts1 →
  zlen (l1 ++ e :: l2) < 2 ^ 32 →
  wp (_ ← ck_free (data e); remove_extra (zlen l1)) s (λ _ s', stores s' (l1 ++ l2) (ts1 ++ ts2) ∧ same_rest s s').
Proof.
  intros [Ha Hc Ho Hnd Hdom] Hlen Hfew.
  assert (extras s = Some (l1 ++ e :: l2)) as He by (destruct Ha as [|[_ Hnil]]; [done|by destruct l1]).
  apply Forall2_app_inv in Ho as [Ho1 Ho2]; [|done]. inversion Ho2 as [|? ? ? ? (_ & _ & Hd) Ho3]; subst.
  rewrite length_app in Hc, Hfew. simpl in Hc, Hfew.
  apply wp_bind. destruct (data e) as [p|] eqn:Hp; simpl.
  - destruct Hd as (bs & Hb & _). apply wp_bind, wp_get. rewrite Hb. apply wp_put. unfold remove_extra.
    apply wp_bind, wp_get. simpl. rewrite He. apply wp_put. rewrite omap_app in Hnd, Hdom. simpl in Hnd, Hdom. rewrite Hp in Hnd, Hdom.
    assert (p ∉ pointers l1 ∧ p ∉ pointers l2) as [Hn1 Hn2].
    { apply NoDup_app in Hnd as (_ & Hdisj & Hnd2). apply NoDup_cons in Hnd2 as [Hn2 _]. split; [|done].
      intros Hin. apply (Hdisj p Hin). by left. }
    assert (∀ l ts, p ∉ pointers l → Forall2 (owns (blocks s)) l ts → Forall2 (owns (delete p (blocks s))) l ts) as Hkeep.
    { intros l ts Hn. induction 1 as [|x u l ts (Hx1 & Hx2 & Hx3) _ IH]; constructor.
      - split; [done|]. split; [done|]. destruct (data x) as [q|] eqn:Hq; [|done]. destruct Hx3 as (bs' & Hq' & Hu).
        exists bs'. split; [|done]. rewrite lookup_delete_ne; [done|]. intros ->. apply Hn. simpl. rewrite Hq. by left.
      - apply IH. intros Hin. apply Hn. simpl. destruct (data x); [by right|done]. }
    split; [|done]. rewrite Nat2Z.id, delete_middle. split; simpl.
    + by left.
    + rewrite length_app, Hc, wrap_small; lia.
    + apply Forall2_app; by apply Hkeep.
    + rewrite omap_app. apply NoDup_app in Hnd as (? & Hdisj & [_ ?]%NoDup_cons). apply NoDup_app. split; [done|]. split; [|done].
      intros x Hx Hx2. apply (Hdisj x Hx). by right.
    + rewrite dom_delete_L, Hdom, omap_app, !list_to_set_app_L. simpl. set_solver.
  - apply wp_ret. unfold remove_extra. apply wp_bind, wp_get. simpl. rewrite He. apply wp_put.
    split; [|done]. rewrite omap_app in Hnd, Hdom. simpl in Hnd, Hdom. rewrite Hp in Hnd, Hdom.
    rewrite Nat2Z.id, delete_middle. split; simpl; [by left| |by apply Forall2_app|by rewrite omap_app|by rewrite omap_app].
    rewrite length_app, Hc, wrap_small; lia.
Qed.

Lemma wp_bind2 {A B C} (a : M dict A) (b : A → M dict B) (k : B → M dict C) s Q :
  wp (x ← a; b x) s (λ y s', wp (k y) s' Q) → wp (x ← a; y ← b x; k y) s Q.
Proof. unfold wp, mbind, M_bind. destruct (a s) as [[x s1]| |]; [|done..]. by destruct (b x s1) as [[y s2]| |]. Qed.

(** The tokens after a token, without further copies of it. *)
Abbreviation without t ts := (filter (λ u : list Z, u ≠ t) ts).

Lemma longer_differ t (ts : list (list Z)) : (∀ u, u ∈ ts → u ≠ t) → without t ts = ts.
Proof.
  induction ts as [|u ts IH]; intros Hu; [done|]. rewrite filter_cons_True by (apply Hu; by left).
  by rewrite IH by (intros; apply Hu; by right).
Qed.

Lemma by_length_drop pre (t : list Z) mid post : by_length (pre ++ mid ++ t :: post) → by_length (pre ++ mid ++ post).
Proof.
  unfold by_length. rewrite !fmap_app, !fmap_cons, !StronglySorted_app, !StronglySorted_cons. set_solver.
Qed.

Lemma wp_dedup_after pre a : ∀ rest mid l s fuel, stores s l (pre ++ a :: mid ++ rest) → by_length (pre ++ a :: mid ++ rest) →
  zlen l < 2 ^ 32 → (length rest < fuel)%nat →
  wp (dedup_after fuel (zlen pre) (zlen pre + 1 + zlen mid)) s
     (λ _ s', ∃ l', stores s' l' (pre ++ a :: mid ++ without a rest) ∧ same_rest s s').
Proof.
  induction rest as [|t rest IH]; intros mid l s [|fuel] Hs Hsort Hfew Hfuel; simpl in Hfuel; try lia; simpl;
    apply wp_bind, wp_get; pose proof (stores_length _ _ _ Hs) as Hlen; rewrite (st_cnt _ _ _ Hs), Hlen;
    rewrite !length_app in *; simpl in *; rewrite length_app in *; simpl in *.
  { rewrite decide_True by lia. apply wp_ret. by exists l. }
  rewrite decide_False by lia.
  destruct (stores_lookup s l _ (length pre) Hs) as (e & a' & He & Hl & Ha & Ho).
  { rewrite length_app. simpl. lia. }
  assert (a' = a) as ->. { rewrite list_lookup_middle in Ha by done. congruence. }
  destruct (stores_lookup s l _ (length pre + 1 + length mid) Hs) as (e2 & t' & _ & Hl2 & Ht & Ho2).
  { rewrite length_app. simpl. rewrite length_app. simpl. lia. }
  replace (pre ++ a :: mid ++ t :: rest) with ((pre ++ a :: mid) ++ t :: rest) in * by (by rewrite <- app_assoc).
  assert (t' = t) as ->. { rewrite list_lookup_middle in Ht by (rewrite length_app; simpl; lia). congruence. }
  pose proof Ho as (Hle & _). pose proof Ho2 as (Hle2 & _).
  apply wp_bind. eapply wp_extra_at; [done|by rewrite Nat2Z.id|]. apply wp_bind.
  eapply wp_extra_at; [done|by replace (Z.to_nat (zlen pre + 1 + zlen mid)) with (length pre + 1 + length mid)%nat by lia|].
  case_decide as Hdiff.
  - apply wp_ret. exists l. split; [|done]. rewrite longer_differ; [by rewrite <- app_assoc in Hs|].
    intros u [i Hi]%list_elem_of_lookup_1 ->.
    assert (zlen t ≤ zlen a).
    { eapply (by_length_le _ (length (pre ++ a :: mid)) (length (pre ++ a :: mid) + i)); [exact Hsort|by apply list_lookup_middle| |lia].
      rewrite lookup_app_r by lia. by replace (length (pre ++ a :: mid) + i - length (pre ++ a :: mid))%nat with i by lia. }
    assert (zlen a ≤ zlen t).
    { eapply (by_length_le _ (length pre) (length (pre ++ a :: mid))); [exact Hsort| |by apply list_lookup_middle|rewrite length_app; lia].
      rewrite <- app_assoc. by apply list_lookup_middle. }
    lia.
  - apply wp_bind. eapply wp_read_owned; [exact Ho|done|]. apply wp_bind. eapply wp_read_owned; [exact Ho2|congruence|].
    case_decide as Heq.
    + subst t. rewrite filter_cons_False by tauto.
      assert (∃ l1 l2, l = l1 ++ e2 :: l2 ∧ length l1 = length (pre ++ a :: mid)) as (l1 & l2 & -> & Hl1).
      { exists (take (length pre + 1 + length mid) l), (drop (S (length pre + 1 + length mid)) l). split; [by rewrite take_drop_middle|].
        rewrite length_take, length_app. simpl. lia. }
      apply wp_bind2. replace (zlen pre + 1 + zlen mid) with (zlen l1) by (rewrite Hl1, length_app; simpl; lia).
      eapply wp_mono; [eapply wp_drop_entry; [exact Hs|done|lia]|]. intros [] s1 [Hs1 Hr1].
      replace (zlen l1) with (zlen pre + 1 + zlen mid) by (rewrite Hl1, length_app; simpl; lia).
      rewrite <- app_assoc in Hs1, Hsort. eapply wp_mono; [eapply (IH mid _ s1); [exact Hs1| | |lia]|].
      * apply (by_length_drop pre a (a :: mid) rest). exact Hsort.
      * rewrite !length_app in *. simpl in *. lia.
      * intros [] s2 (l' & Hs2 & Hr2). exists l'. split; [done|by etrans].
    + rewrite filter_cons_True by congruence.
      replace (zlen pre + 1 + zlen mid + 1) with (zlen pre + 1 + zlen (mid ++ [t])) by (rewrite length_app; simpl; lia).
      assert ((pre ++ a :: mid) ++ t :: rest = pre ++ a :: (mid ++ [t]) ++ rest) as Hre by (by rewrite <- !app_assoc).
      rewrite Hre in Hs, Hsort. eapply wp_mono; [eapply (IH (mid ++ [t]) l s fuel Hs Hsort); lia|].
      intros [] s2 (l' & Hs2 & Hr2). exists l'. split; [|done]. by rewrite <- app_assoc in Hs2.
Qed.

(** The first occurrence of every token. *)
Fixpoint distinct (ts : list (list Z)) : list (list Z) :=
  match ts with
  | [] => []
  | t :: ts => t :: without t (distinct ts)
  end.

Lemma distinct_without t ts : distinct (without t ts) = without t (distinct ts).
Proof.
  induction ts as [|u ts IH]; simpl; [done|]. rewrite !filter_cons. case_decide as Hu; simpl; rewrite IH.
  - f_equal. rewrite !list_filter_filter. apply list_filter_iff. tauto.
  - subst u. rewrite list_filter_filter. apply list_filter_iff. tauto.
Qed.

Lemma distinct_elem ts t : t ∈ distinct ts ↔ t ∈ ts.
Proof.
  induction ts as [|u ts IH]; simpl; [done|]. rewrite !elem_of_cons, list_elem_of_filter, IH. destruct (decide (t = u)); naive_solver.
Qed.

Lemma distinct_NoDup ts : NoDup (distinct ts).
Proof. induction ts as [|t ts IH]; simpl; constructor; [rewrite list_elem_of_filter; tauto|by apply NoDup_filter]. Qed.

Lemma filter_sublist (P : list Z → Prop) `{∀ t, Decision (P t)} (ts : list (list Z)) : filter P ts `sublist_of` ts.
Proof. induction ts as [|t ts IH]; [done|]. rewrite filter_cons. case_decide; by constructor. Qed.

Lemma distinct_sublist ts : distinct ts `sublist_of` ts.
Proof. induction ts as [|t ts IH]; simpl; [done|]. constructor. etrans; [apply filter_sublist|done]. Qed.

(** What comes first in [ts] comes first in [distinct ts]. *)
Lemma distinct_take ts : ∀ k, distinct (take k ts) `prefix_of` distinct ts.
Proof.
  induction ts as [|t ts IH]; intros [|k]; simpl; [done..|by apply prefix_nil|]. apply prefix_cons. destruct (IH k) as [rest ->].
  rewrite filter_app. by apply prefix_app_r.
Qed.

Lemma distinct_first ts k : ∃ n, ∀ t, t ∈ take n (distinct ts) ↔ t ∈ take k ts.
Proof.
  destruct (distinct_take ts k) as [rest Hr]. exists (length (distinct (take k ts))). intros t. rewrite Hr, take_app_length. apply distinct_elem.
Qed.

Lemma by_length_sublist ts ts' : ts' `sublist_of` ts → by_length ts → by_length ts'.
Proof.
  unfold by_length. induction 1 as [|t l1 l2 Hl IH|t l1 l2 Hl IH]; rewrite ?fmap_cons, ?StronglySorted_cons; [done| |naive_solver].
  intros [Hf Hs]. split; [|by apply IH]. rewrite Forall_fmap in *. eapply Forall_forall. intros u Hu. eapply Forall_forall in Hf; [exact Hf|]. by eapply elem_of_sublist.
Qed.

Lemma wp_dedup_loop : ∀ fuel pre rest l s, stores s l (pre ++ rest) → by_length (pre ++ rest) →
  zlen l < 2 ^ 32 → (length rest < fuel)%nat →
  wp (dedup_loop fuel (zlen pre)) s (λ _ s', ∃ l', stores s' l' (pre ++ distinct rest) ∧ same_rest s s').
Proof.
  induction fuel as [|fuel IH]; intros pre rest l s Hs Hsort Hfew Hfuel; [lia|]. cbn [dedup_loop]. apply wp_bind, wp_get.
  pose proof (stores_length _ _ _ Hs) as Hlen. rewrite (st_cnt _ _ _ Hs). rewrite length_app in Hlen.
  destruct rest as [|t rest]; simpl in Hlen, Hfuel.
  { rewrite decide_True by lia. apply wp_ret. by exists l. }
  case_decide as Hlast.
  { apply wp_ret. exists l. assert (rest = []) as -> by (destruct rest; simpl in *; [done|lia]). by split. }
  apply wp_bind. replace (zlen pre + 1) with (zlen pre + 1 + zlen (@nil (list Z))) at 1 by (simpl; lia).
  eapply wp_mono; [apply (wp_dedup_after pre t rest [] l s); [done|done|done|lia]|].
  intros [] s1 (l1 & Hs1 & Hr1). simpl in Hs1. pose proof (stores_length _ _ _ Hs1) as Hlen1.
  pose proof (sublist_length _ _ (filter_sublist (λ u, u ≠ t) rest)) as Hshort. rewrite length_app in Hlen1. simpl in Hlen1.
  assert (pre ++ t :: without t rest = (pre ++ [t]) ++ without t rest) as Hre by (by rewrite <- app_assoc).
  replace (zlen pre + 1) with (zlen (pre ++ [t])) by (rewrite length_app; simpl; lia).
  eapply wp_mono; [eapply (IH (pre ++ [t]) (without t rest) l1 s1)|].
  - by rewrite <- Hre.
  - rewrite <- Hre. eapply by_length_sublist; [|exact Hsort]. apply sublist_app; [done|]. constructor. apply filter_sublist.
  - lia.
  - lia.
  - intros [] s2 (l2 & Hs2 & Hr2). exists l2. split; [|by etrans]. by rewrite distinct_without, <- app_assoc in Hs2.
Qed.

(** C22. [dedup_extras] on a sorted dictionary leaves every token exactly once, in the
    order of their first occurrences (the tokens of any prefix of the old dictionary are those of a
    prefix of the new one), and frees the blocks of the others. *)
Theorem dedup_extras_correct s ts :
  never_refuses → dictionary s ts → by_length ts → zlen ts < 2 ^ 32 →
  ∃ s' ts', dedup_extras s = Ret (tt, s') ∧ dictionary s' ts' ∧ by_length ts' ∧ same_rest s s' ∧
    NoDup ts' ∧ ts' `sublist_of` ts ∧ (∀ t, t ∈ ts' ↔ t ∈ ts) ∧ ∀ k, ∃ n, ∀ t, t ∈ take n ts' ↔ t ∈ take k ts.
Proof.
  intros Hn [l Hs] Hsort Hfew. pose proof (stores_length _ _ _ Hs) as Hlen.
  cut (wp (dedup_extras) s (λ _ s', dictionary s' (distinct ts) ∧ same_rest s s')).
  { intros ([] & s' & Hrun & Hd & Hr)%wp_Ret. exists s', (distinct ts). split; [done|]. split; [done|].
    split; [apply (by_length_sublist ts); [apply distinct_sublist|done]|]. split; [done|]. split; [apply distinct_NoDup|].
    split; [apply distinct_sublist|]. split; [apply distinct_elem|apply distinct_first]. }
  unfold dedup_extras. apply wp_bind, wp_get. rewrite (st_cnt _ _ _ Hs), Hlen. case_decide as Hsmall.
  { apply wp_ret. split; [|done]. exists l. destruct ts as [|t [|]]; simpl in *; [done..|lia]. }
  apply wp_bind. eapply wp_mono; [eapply (wp_dedup_loop _ [] ts l s); [done..|lia|lia]|].
  intros [] s1 (l1 & Hs1 & Hr1). apply wp_bind, wp_get. case_decide as Hsize; [|apply wp_ret; split; [by exists l1|done]].
  apply wp_bind. unfold afl_realloc_exact. apply wp_bind, wp_get. case_decide; [do 2 apply wp_ret; split; [by exists l1|done]|].
  apply wp_bind, wp_dict_request; [done|]. apply wp_bind, wp_dict_upd. do 2 apply wp_ret. split.
  - exists l1. destruct Hs1 as [Ha ? ? ? ?]. split; simpl; try done. left. destruct Ha as [->|[-> ->]]; done.
  - by destruct Hr1.
Qed.

(** [destroy_extras] frees every token once and leaves no block behind. *)
Theorem destroy_extras_correct s ts :
  dictionary s ts → ∃ s', destroy_extras s = Ret (tt, s') ∧ blocks s' = ∅ ∧ extras s' = None ∧ same_rest s s'.
Proof.
  intros [l Hs]. cut (wp destroy_extras s (λ _ s', blocks s' = ∅ ∧ extras s' = None ∧ same_rest s s')).
  { intros ([] & s' & ?)%wp_Ret. by exists s'. }
  pose (I := λ i s', extras s' = extras s ∧ dom (blocks s') = list_to_set (pointers (drop (Z.to_nat i) l)) ∧ same_rest s s').
  unfold destroy_extras. apply wp_bind, wp_get. rewrite (st_cnt _ _ _ Hs), Nat2Z.id. apply wp_bind.
  eapply wp_mono; [apply (wp_for_loop I (length l) 0)|].
  - split; [done|]. split; [apply Hs|done].
  - intros j s1 Hj (He & Hdom & Hr). destruct (lookup_lt_is_Some_2 l (Z.to_nat j)) as [e Hl]; [lia|].
    apply wp_bind. eapply wp_extra_at; [|done|].
    { rewrite He. destruct (st_array _ _ _ Hs) as [|[_ ->]]; done. }
    replace (Z.to_nat (j + 1)) with (S (Z.to_nat j)) in * by lia.
    rewrite (drop_S _ _ _ Hl) in Hdom. simpl in Hdom.
    assert (NoDup (pointers (e :: drop (S (Z.to_nat j)) l))) as Hnd.
    { pose proof (st_nodup _ _ _ Hs) as Hnd. rewrite <- (take_drop_middle _ _ _ Hl), omap_app in Hnd. by apply NoDup_app in Hnd as (_ & _ & ?). }
    simpl in Hnd. unfold ck_free. destruct (data e) as [p|].
    + apply wp_bind, wp_get. simpl in Hdom. apply NoDup_cons in Hnd as [Hnp _].
      assert (p ∈ dom (blocks s1)) as [bs Hb]%elem_of_dom by (rewrite Hdom; set_solver).
      rewrite Hb. apply wp_put. split; [done|]. split; [|by destruct Hr]. simpl.
      replace (Z.to_nat (j + 1)) with (S (Z.to_nat j)) by lia. rewrite dom_delete_L, Hdom. set_solver.
    + apply wp_ret. split; [done|]. replace (Z.to_nat (j + 1)) with (S (Z.to_nat j)) by lia. done.
  - intros [] s1 (_ & Hdom & Hr). apply wp_dict_upd. simpl. rewrite Z.add_0_l, Nat2Z.id, drop_all in Hdom.
    split; [|split; [done|by destruct Hr]]. apply dom_empty_inv_L. exact Hdom.
Qed.
End Spec.

(** ** A dictionary for the witnesses *)

#[export] Instance still_entropy : Entropy := {| urandom := λ _, (1, 2) |}.

(** The tokens 7 and "ABC" in UTF-16, the second one twice. *)
Definition sample_tokens : list (list Z) := [[7]; widened 0 1 [65; 66; 67]; widened 0 1 [65; 66; 67]].

Definition sample_extras : list extra_data := [Extra (Some 1%positive) 1; Extra (Some 3%positive) 6; Extra (Some 2%positive) 6].

Definition sample_dict : dict :=
  Dict (Some sample_extras) 3 64 [] false
    (<[1%positive := [7; 0]]> (<[2%positive := widened 0 1 [65; 66; 67]]> {[3%positive := widened 0 1 [65; 66; 67] ++ [0]]}))
    (1, 2) 5 true "in" "out" ∅ 1.

Lemma sample_dictionary : dictionary sample_dict sample_tokens.
Proof.
  exists sample_extras. split; [by left|done| | |].
  - repeat (constructor; [split; [reflexivity|split; [by vm_compute|eexists; split; [vm_compute; reflexivity|reflexivity]]]|]).
    constructor.
  - apply (bool_decide_unpack _). vm_compute. done.
  - apply (bool_decide_unpack _). vm_compute. done.
Qed.

Lemma sample_by_length : by_length sample_tokens.
Proof. apply (bool_decide_unpack _). vm_compute. done. Qed.

Lemma add_extra_correct_witness :
  dictionary sample_dict sample_tokens ∧
  ∃ s' ts', add_extra (H := obliging) [1; 2] 2 sample_dict = Ret (tt, s') ∧ dictionary s' ts' ∧ by_length ts' ∧
    same_rest sample_dict s' ∧ (ts' ≡ₚ [1; 2] :: sample_tokens) ∧ (NoDup sample_tokens → NoDup ts').
Proof.
  split; [exact sample_dictionary|].
  destruct (add_extra_correct (H := obliging) sample_dict sample_tokens [1; 2] (λ _, eq_refl) sample_dictionary sample_by_length
    ltac:(by vm_compute) ltac:(by vm_compute)) as (s' & ts' & H1 & H2 & H3 & H4 & H5 & H6).
  rewrite decide_False in H5 by (intros [Hin|Hin]; [set_solver|by vm_compute in Hin]).
  exists s', ts'. do 5 (split; [assumption|]). assumption.
Defined.

Lemma deunicode_extras_correct_witness :
  dictionary sample_dict sample_tokens ∧
  ∃ s' ts' added, deunicode_extras (H := obliging) sample_dict = Ret (tt, s') ∧ dictionary s' ts' ∧ by_length ts' ∧
    same_rest sample_dict s' ∧ ts' ≡ₚ sample_tokens ++ added ∧ [65; 66; 67] ∈ added.
Proof.
  split; [exact sample_dictionary|].
  destruct (deunicode_extras_correct (H := obliging) sample_dict sample_tokens (λ _, eq_refl) sample_dictionary sample_by_length
    ltac:(by vm_compute)) as (s' & ts' & added & H1 & H2 & H3 & H4 & H5 & H6).
  exists s', ts', added. do 5 (split; [assumption|]). apply (H6 0%nat 1%nat [65; 66; 67]).
  - right. left.
  - repeat constructor; done.
  - left. split; [reflexivity|]. split; by vm_compute.
Defined.

Lemma dedup_extras_correct_witness :
  dictionary sample_dict sample_tokens ∧
  ∃ s' ts', dedup_extras (H := obliging) sample_dict = Ret (tt, s') ∧ dictionary s' ts' ∧ by_length ts' ∧
    same_rest sample_dict s' ∧ NoDup ts' ∧ ts' `sublist_of` sample_tokens ∧ (∀ t, t ∈ ts' ↔ t ∈ sample_tokens) ∧
    ∀ k, ∃ n, ∀ t, t ∈ take n ts' ↔ t ∈ take k sample_tokens.
Proof.
  split; [exact sample_dictionary|].
  exact (dedup_extras_correct (H := obliging) sample_dict sample_tokens (λ _, eq_refl) sample_dictionary sample_by_length
    ltac:(by vm_compute)).
Defined.

Lemma destroy_extras_correct_witness :
  dictionary sample_dict sample_tokens ∧
  ∃ s', destroy_extras sample_dict = Ret (tt, s') ∧ blocks s' = ∅ ∧ extras s' = None ∧ same_rest sample_dict s'.
Proof. split; [exact sample_dictionary|exact (destroy_extras_correct sample_dict sample_tokens sample_dictionary)]. Defined.
