(* ===== verification/AflDictText.v ===== *)
(** * AflDictText: the text of a dictionary file

    A file in which every token is written between quotes, with the escapes of the
    format, is read back as these tokens; a byte that is not printable must be escaped,
    since the loader never gets past it. *)

From stdpp Require Import sorting.
From S2P Require Import Prelude AflBitmap AflQueue AflDet AflDict AflDictSpec.

(** ** The loop over a keyword *)

Definition printable (c : Z) : Prop := 32 ≤ c ≤ 127.

Lemma isxdigit_printable c : isxdigit c = true → printable c.
Proof. unfold isxdigit, isdigit, printable. rewrite orb_true_iff, !bool_decide_eq_true. lia. Qed.

(** What the loop does with its first bytes: the rest is shorter and has the same
    unprintable bytes, and at most one byte is stored. *)
Lemma unescape_step fuel l buf klen : Forall (λ c, 1 ≤ c ≤ 255) l → 0 ≤ klen → klen + zlen l ≤ zlen buf →
  match l with
  | [] => unescape (S fuel) l buf klen = Ret (buf, klen)
  | c :: _ =>
      if decide (printable c) then
        ∃ rest buf' klen', unescape (S fuel) l buf klen = unescape fuel rest buf' klen' ∧ (length rest < length l)%nat ∧
          (∃ eaten, l = eaten ++ rest ∧ Forall printable eaten) ∧ length buf' = length buf ∧ 0 ≤ klen' ∧ klen' + zlen rest ≤ zlen buf'
      else unescape (S fuel) l buf klen = unescape fuel l buf klen
  end.
Proof.
  intros Hl Hk Hroom. destruct l as [|c rest]; [done|]. inversion Hl as [|? ? Hc Hrest]; subst. unfold printable. simpl in *.
  case_decide as Hp.
  2:{ by rewrite decide_True by lia. }
  rewrite decide_False by lia. case_decide as Hesc.
  { rewrite decide_True by lia. exists rest. eexists _, _. split; [done|]. split; [lia|].
    split; [exists [c]; split; [done|repeat constructor; lia]|]. rewrite length_insert. lia. }
  assert (c = 92) as -> by lia.
  assert (∃ rest' buf' klen', unescape fuel rest buf klen = unescape fuel rest' buf' klen' ∧ (length rest' < S (length rest))%nat ∧
     (∃ eaten, 92 :: rest = eaten ++ rest' ∧ Forall (λ c, 32 ≤ c ≤ 127) eaten) ∧ length buf' = length buf ∧ 0 ≤ klen' ∧ klen' + zlen rest' ≤ zlen buf') as Hskip.
  { exists rest, buf, klen. split; [done|]. split; [lia|]. split; [exists [92]; split; [done|repeat constructor; lia]|lia]. }
  destruct rest as [|d tail]; [exact Hskip|]. simpl in *. case_decide as Hd.
  { rewrite decide_True by lia. exists tail. eexists _, _. split; [done|]. split; [lia|].
    split; [exists [92; d]; split; [done|repeat constructor; lia]|]. rewrite length_insert. lia. }
  destruct tail as [|h1 [|h2 next]]; [exact Hskip..|]. simpl in *. case_decide as Hx; [|exact Hskip].
  destruct Hx as (-> & H1 & H2). rewrite decide_True by lia. exists next. eexists _, _. split; [done|]. split; [lia|].
  split; [exists [92; 120; h1; h2]; split; [done|apply isxdigit_printable in H1, H2; unfold printable in *; repeat constructor; lia]|]. rewrite length_insert. lia.
Qed.

(** C18. Copying a keyword between quotes ends exactly when all its bytes are printable:
    then it needs one round per byte at most and stays within the block that was
    allocated; otherwise it goes on for ever, whatever the number of rounds. *)
Theorem keyword_loop_ends l :
  Forall (λ c, 1 ≤ c ≤ 255) l →
  let loop fuel := unescape fuel l (replicate (length l) 0) 0 in
  (Forall printable l → ∃ buf klen, loop (S (length l)) = Ret (buf, klen) ∧ length buf = length l ∧ 0 ≤ klen ≤ zlen l) ∧
  (¬ Forall printable l → ∀ fuel, loop fuel = NoFuel).
Proof.
  intros Hl. split.
  - intros Hp.
    assert (∀ n l fuel buf klen, (length l ≤ n)%nat → (n < fuel)%nat → Forall (λ c, 1 ≤ c ≤ 255) l → Forall printable l →
      0 ≤ klen → klen + zlen l ≤ zlen buf →
      ∃ buf' klen', unescape fuel l buf klen = Ret (buf', klen') ∧ length buf' = length buf ∧ 0 ≤ klen' ≤ zlen buf) as Hgen.
    { clear. induction n as [|n IH]; intros l [|fuel] buf klen Hn Hf Hl Hp Hk Hroom; try lia;
        pose proof (unescape_step fuel l buf klen Hl Hk Hroom) as Hstep; destruct l as [|c l]; simpl in Hn; try lia.
      - exists buf, klen. split; [done|]. split; [done|]. simpl in Hroom. lia.
      - exists buf, klen. split; [done|]. split; [done|]. simpl in Hroom. lia.
      - rewrite decide_True in Hstep by (by inversion Hp). destruct Hstep as (rest & buf' & klen' & -> & Hlen & (eaten & Heq & _) & Hb & Hk' & Hroom').
        simpl in Hlen. rewrite Heq in Hl, Hp. apply Forall_app in Hl as [_ Hl]. apply Forall_app in Hp as [_ Hp].
        rewrite <- Hb. apply IH; [lia|lia|done..]. }
    destruct (Hgen (length l) l (S (length l)) (replicate (length l) 0) 0) as (buf & klen & Hr & Hb & Hk); rewrite ?length_replicate; try lia; try done.
    rewrite length_replicate in Hb, Hk. by exists buf, klen.
  - intros Hp fuel.
    assert (∀ fuel l buf klen, Forall (λ c, 1 ≤ c ≤ 255) l → ¬ Forall printable l → 0 ≤ klen → klen + zlen l ≤ zlen buf →
      unescape fuel l buf klen = NoFuel) as Hgen.
    { clear. induction fuel as [|fuel IH]; intros l buf klen Hl Hp Hk Hroom; [done|].
      pose proof (unescape_step fuel l buf klen Hl Hk Hroom) as Hstep. destruct l as [|c l]; [by destruct Hp; constructor|].
      case_decide as Hc; [|rewrite Hstep; by apply IH].
      destruct Hstep as (rest & buf' & klen' & -> & _ & (eaten & Heq & He) & _ & Hk' & Hroom').
      rewrite Heq in Hl, Hp. apply Forall_app in Hl as [_ Hl]. apply IH; [done| |done|done].
      intros Hr. apply Hp. by apply Forall_app. }
    apply Hgen; [done|done|lia|]. rewrite length_replicate. lia.
Qed.

Lemma keyword_loop_ends_witness :
  Forall (λ c, 1 ≤ c ≤ 255) [97; 9; 98] ∧ ∀ fuel, unescape fuel [97; 9; 98] (replicate 3 0) 0 = NoFuel.
Proof.
  assert (Forall (λ c, 1 ≤ c ≤ 255) [97; 9; 98]) as Hl by (repeat constructor; lia). split; [exact Hl|].
  apply (keyword_loop_ends [97; 9; 98] Hl). intros Hp. inversion Hp as [|? ? _ Hp']. inversion Hp' as [|? ? Ht _].
  unfold printable in Ht. lia.
Defined.

(** ** Writing tokens *)

Definition hex_char (n : Z) : Z := if decide (n < 10) then 48 + n else 87 + n.

Definition escaped (c : Z) : list Z :=
  if decide (c = 92 ∨ c = 34) then [92; c] else
  if decide (32 ≤ c ≤ 127) then [c] else [92; 120; hex_char (c / 16); hex_char (c `mod` 16)].

(** [label="token"] *)
Definition entry_line (entry : list Z * list Z) : list Z := entry.1 ++ [61; 34] ++ (entry.2 ≫= escaped) ++ [34; 10].

Definition is_byte (c : Z) : Prop := 0 ≤ c < 256.

Lemma escaped_bytes c : is_byte c → Forall (λ d, 32 ≤ d ≤ 127) (escaped c) ∧ escaped c ≠ [].
Proof.
  intros Hc. unfold is_byte in Hc. unfold escaped. repeat case_decide; split; try done; repeat constructor; try lia;
    unfold hex_char; case_decide; zmod.
Qed.

Lemma hex_escape c : is_byte c → isxdigit (hex_char (c / 16)) = true ∧ isxdigit (hex_char (c `mod` 16)) = true ∧
  u8 (Z.lor (Z.shiftl (hex_value (hex_char (c / 16))) 4) (hex_value (hex_char (c `mod` 16)))) = c.
Proof.
  intros Hc. assert (Forall (λ c, isxdigit (hex_char (c / 16)) = true ∧ isxdigit (hex_char (c `mod` 16)) = true ∧
    u8 (Z.lor (Z.shiftl (hex_value (hex_char (c / 16))) 4) (hex_value (hex_char (c `mod` 16)))) = c) (seqZ 0 256)) as Hall.
  { apply (bool_decide_unpack _). vm_compute. done. }
  eapply Forall_forall in Hall; [exact Hall|]. apply elem_of_seqZ. unfold is_byte in Hc. lia.
Qed.

Lemma unescape_byte c fuel tail buf klen : is_byte c → klen < zlen buf →
  unescape (S fuel) (escaped c ++ tail) buf klen = unescape fuel tail (<[Z.to_nat klen := c]> buf) (klen + 1).
Proof.
  intros Hc Hk. pose proof (hex_escape c Hc) as (H1 & H2 & H3). unfold is_byte in Hc. unfold escaped.
  case_decide as Hq; [|case_decide as Hp]; cbn [app unescape].
  - rewrite decide_False by lia. rewrite (decide_False (P := 92 ≠ 92)) by tauto. rewrite decide_True by lia. by rewrite decide_True by lia.
  - rewrite decide_False by lia. rewrite decide_True by lia. by rewrite decide_True by lia.
  - rewrite (decide_False (P := 1 ≤ 92 ≤ 31 ∨ _)) by lia. rewrite (decide_False (P := 92 ≠ 92)) by tauto.
    rewrite (decide_False (P := 120 = 92 ∨ _)) by lia. rewrite (decide_True (P := 120 = 120 ∧ _)) by done.
    rewrite H3. by rewrite decide_True by lia.
Qed.

Lemma unescape_token tok : ∀ fuel buf klen, Forall is_byte tok → (length tok < fuel)%nat → 0 ≤ klen → klen + zlen tok ≤ zlen buf →
  unescape fuel (tok ≫= escaped) buf klen =
    Ret (take (Z.to_nat klen) buf ++ tok ++ drop (Z.to_nat klen + length tok) buf, klen + zlen tok).
Proof.
  induction tok as [|c tok IH]; intros [|fuel] buf klen Hb Hf Hk Hroom; simpl in Hf, Hroom; try lia.
  - simpl. rewrite Nat.add_0_r, take_drop. by rewrite Z.add_0_r.
  - inversion Hb as [|? ? Hc Htok]; subst. rewrite bind_cons, unescape_byte by (done || lia).
    rewrite IH; [|done|lia|lia|rewrite length_insert; lia].
    replace (Z.to_nat (klen + 1)) with (S (Z.to_nat klen)) by lia.
    rewrite (take_S_r _ _ c) by (apply list_lookup_insert_eq; lia). rewrite take_insert_ge by lia.
    rewrite drop_insert_lt by lia. rewrite <- app_assoc. simpl. do 2 f_equal; [|lia]. do 3 f_equal. f_equal. lia.
Qed.

(** ** Reading a line *)

Definition label_ok (label : list Z) : Prop := Forall (λ c, isalnum c = true ∨ c = 95) label.

Definition entry_ok (entry : list Z * list Z) : Prop :=
  label_ok entry.1 ∧ zlen entry.1 ≤ 1000 ∧ Forall is_byte entry.2 ∧ 0 < zlen entry.2 ≤ MAX_DICT_FILE.

Lemma isalnum_range c : isalnum c = true → 48 ≤ c ≤ 122.
Proof. unfold isalnum, isdigit. rewrite orb_true_iff, !bool_decide_eq_true. lia. Qed.

Lemma label_range label : label_ok label → Forall (λ c, 48 ≤ c ≤ 122) label.
Proof. intros Hl. eapply Forall_impl; [exact Hl|]. intros c [Hc%isalnum_range| ->]; lia. Qed.

Lemma skip_app p l rest : Forall (λ c, p c = true) l → (∀ c, head rest = Some c → p c = false) → skip p (l ++ rest) = rest.
Proof.
  intros Hl Hr. induction Hl as [|c l Hc _ IH]; simpl.
  - destruct rest as [|c rest]; [done|]. simpl. by rewrite (Hr c eq_refl).
  - by rewrite Hc.
Qed.

Lemma cstring_id l : Forall (λ c, c ≠ 0) l → cstring l = l.
Proof. induction 1 as [|c l Hc _ IH]; simpl; [done|]. by rewrite decide_False, IH. Qed.

Lemma all_escaped tok : Forall is_byte tok → Forall (λ d, 32 ≤ d ≤ 127) (tok ≫= escaped) ∧ (length tok ≤ length (tok ≫= escaped) ≤ 4 * length tok)%nat.
Proof.
  induction 1 as [|c tok Hc _ [IH1 IH2]]; [split; [constructor|done]|]. rewrite bind_cons, length_app. destruct (escaped_bytes c Hc) as [He Hne].
  split; [by apply Forall_app|]. assert (1 ≤ length (escaped c) ≤ 4)%nat; [|simpl; lia].
  unfold escaped. repeat case_decide; simpl; lia.
Qed.

(** The bytes of a line before its end. *)
Lemma line_body entry : entry_ok entry → Forall (λ c, 32 ≤ c ≤ 127) (entry.1 ++ [61; 34] ++ (entry.2 ≫= escaped)).
Proof.
  intros (Hl & _ & Hb & _). apply Forall_app. split; [eapply Forall_impl; [by apply label_range|]; simpl; lia|].
  repeat constructor; try lia. by apply all_escaped.
Qed.

Lemma keyword_of_line lvl entry : entry_ok entry → keyword_of lvl (entry_line entry) = Some (entry.2 ≫= escaped).
Proof.
  intros Hok. pose proof (line_body entry Hok) as Hbody. destruct Hok as (Hl & _ & Hb & Hlen). destruct entry as [label tok]; simpl in *.
  pose proof (all_escaped tok Hb) as [_ Hesc]. pose proof (label_range _ Hl) as Hlr.
  set (body := label ++ 61 :: 34 :: (tok ≫= escaped)) in *.
  assert (entry_line (label, tok) = body ++ [34; 10]) as -> by (unfold entry_line, body; simpl; by rewrite <- app_assoc).
  assert (∃ c body', body = c :: body' ∧ 48 ≤ c ≤ 122) as (c & body' & Hc & Hcr).
  { unfold body. destruct label as [|c label]; simpl; [by eexists 61, _|]. eexists _, _. split; [done|]. by inversion Hlr. }
  unfold keyword_of. rewrite cstring_id.
  2:{ apply Forall_app. split; [eapply Forall_impl; [exact Hbody|]; simpl; lia|repeat constructor; lia]. }
  assert (skip isspace (body ++ [34; 10]) = body ++ [34; 10]) as ->.
  { rewrite Hc. simpl. unfold isspace. by rewrite bool_decide_eq_false_2 by lia. }
  assert (trim_right (body ++ [34; 10]) (length (body ++ [34; 10])) = S (length body)) as ->.
  { rewrite length_app, Nat.add_comm. simpl. rewrite !list_lookup_total_alt, !lookup_app_r by lia.
    replace (S (length body) - length body)%nat with 1%nat by lia. rewrite Nat.sub_diag. done. }
  assert (take (S (length body)) (body ++ [34; 10]) = body ++ [34]) as ->.
  { rewrite take_app, take_ge by lia. by replace (S (length body) - length body)%nat with 1%nat by lia. }
  rewrite decide_False by (rewrite Hc; simpl; intros [?|[= ->]]; [done|lia]).
  replace (S (length body) - 1)%nat with (length body) by lia.
  rewrite list_lookup_middle by done. rewrite decide_False by tauto. rewrite take_app_length. unfold body.
  rewrite skip_app; [|eapply Forall_impl; [exact Hl|]|]; cbn beta.
  2:{ intros d [-> | ->]; [done|]. by rewrite orb_true_r. }
  2:{ intros d [= <-]. done. }
  simpl. destruct (tok ≫= escaped) as [|e es] eqn:He; [simpl in Hesc; lia|done].
Qed.

Lemma fgets_line l f : ∀ n, Forall (λ c, c ≠ 10) l → (length l < n)%nat → fgets n (l ++ 10 :: f) = (l ++ [10], f).
Proof.
  induction l as [|c l IH]; intros [|n] Hl Hn; simpl in *; try lia; [done|]. inversion Hl; subst.
  rewrite decide_False by done. by rewrite IH by (done || lia).
Qed.

Lemma entry_line_end entry : entry_ok entry →
  ∃ line, entry_line entry = line ++ [10] ∧ Forall (λ c, c ≠ 10) line ∧ (length line < Z.to_nat (MAX_LINE - 1))%nat.
Proof.
  intros He. pose proof (line_body entry He) as Hbody. exists ((entry.1 ++ [61; 34] ++ (entry.2 ≫= escaped)) ++ [34]).
  split; [unfold entry_line; by rewrite <- !app_assoc|]. split.
  - apply Forall_app. split; [eapply Forall_impl; [exact Hbody|]; simpl; lia|by repeat constructor].
  - destruct He as (_ & Hll & Hb & Hlen). pose proof (all_escaped _ Hb) as [_ Hesc]. unfold MAX_DICT_FILE in Hlen.
    rewrite !length_app. unfold MAX_LINE. simpl. lia.
Qed.

(** ** Loading a file *)

Section Load.
Context `{Host, QSort, Entropy}.

Lemma wp_load_line s l ts lvl entry bounds : never_refuses → stores s l ts → zlen l < 2 ^ 28 → entry_ok entry →
  wp (load_line lvl (entry_line entry) bounds) s (λ _ s', ∃ l', stores s' l' (ts ++ [entry.2]) ∧ same_rest s s').
Proof.
  intros Hn Hs Hfew Hok. pose proof Hok as (_ & _ & Hb & Hlen). unfold MAX_DICT_FILE in Hlen.
  pose proof (all_escaped _ Hb) as [_ Hesc]. unfold load_line. rewrite keyword_of_line by done.
  set (esc := entry.2 ≫= escaped) in *. apply wp_bind. eapply wp_mono; [by eapply wp_grow_extras|]. intros [] s1 (Hs1 & He1 & Hb1 & Hr1).
  apply wp_bind, wp_ck_alloc; [done|unfold MAX_ALLOC; lia|]. intros p s2 Hp Hb2 Hr2 He2 Hc2. rewrite Nat2Z.id in Hb2.
  apply wp_bind. unfold read_block. apply wp_bind, wp_get. rewrite Hb2, lookup_insert_eq, decide_True by (rewrite length_replicate; lia).
  apply wp_ret. rewrite Nat2Z.id, take_ge by (by rewrite length_replicate). unfold esc at 1 2.
  rewrite unescape_token; [|done|fold esc; lia|lia|fold esc; rewrite length_replicate; lia]. fold esc. simpl.
  set (buf := entry.2 ++ _). assert (length buf = length esc) as Hbuf.
  { unfold buf. rewrite length_app, length_drop, length_replicate. lia. }
  apply wp_bind. eapply wp_write_block; [by rewrite Hb2, lookup_insert_eq|rewrite length_replicate; lia|].
  rewrite Hb2, insert_insert_eq, drop_ge, app_nil_r by (rewrite length_replicate; lia).
  rewrite decide_False by (unfold MAX_DICT_FILE; lia). apply wp_bind. eapply wp_mono.
  - apply (push_ok s1 _ l ts p buf entry.2); simpl; try done; try congruence.
    + destruct Hr2 as [? ? ? ?]. by split.
    + unfold buf. by rewrite take_app_length.
    + unfold MAX_DICT_FILE. lia.
  - intros [] s' [Hs' Hr']. apply wp_ret. eexists. split; [exact Hs'|]. by etrans.
Qed.

Lemma wp_load_lines lvl entries : ∀ fuel s l ts bounds, never_refuses → stores s l ts → zlen l + zlen entries < 2 ^ 28 →
  Forall entry_ok entries → (length entries ≤ fuel)%nat →
  wp (load_lines fuel lvl (entries ≫= entry_line) bounds) s (λ _ s', ∃ l', stores s' l' (ts ++ entries.*2) ∧ same_rest s s').
Proof.
  induction entries as [|entry entries IH]; intros [|fuel] s l ts bounds Hn Hs Hfew Hok Hf; simpl in Hf, Hfew; try lia.
  1,2: exists l; by rewrite app_nil_r.
  inversion Hok as [|? ? He Hes]; subst. destruct (entry_line_end entry He) as (line & Hline & H10 & Hlen).
  assert (∃ c f, line ++ 10 :: (entries ≫= entry_line) = c :: f) as (c & f & Hcf) by (destruct line; simpl; eauto).
  rewrite bind_cons, Hline, <- app_assoc. cbn [app]. rewrite Hcf. cbn [load_lines].
  rewrite <- Hcf, fgets_line by done. rewrite <- Hline. apply wp_bind.
  eapply wp_mono; [by apply (wp_load_line s l ts); [| |lia|]|]. intros bounds' s1 (l1 & Hs1 & Hr1).
  eapply wp_mono; [apply (IH fuel s1 l1 (ts ++ [entry.2]) bounds'); try done; try lia|].
  - rewrite (stores_length _ _ _ Hs1), length_app. rewrite (stores_length _ _ _ Hs) in Hfew. simpl. lia.
  - intros b2 s2 (l2 & Hs2 & Hr2). exists l2. rewrite <- app_assoc in Hs2. split; [done|by etrans].
Qed.

(** C17. A dictionary file in which every token (1 to 128 arbitrary bytes) is written
    as [label="token"], with the bytes outside the printable range and the quotes
    escaped, is loaded as exactly these tokens: they are added to those already there,
    in blocks of their own, sorted by length, and without a leak. *)
Theorem load_extras_roundtrip `{!QSortLaw} s ts dir entries :
  never_refuses → dictionary s ts → by_length ts → zlen ts + zlen entries < 2 ^ 28 →
  split_level dir = (dir, None) → disk s !! dir = Some (Regular (entries ≫= entry_line)) → Forall entry_ok entries →
  ∃ s' ts', load_extras dir s = Ret (tt, s') ∧ dictionary s' ts' ∧ by_length ts' ∧ same_rest s s' ∧ ts' ≡ₚ ts ++ entries.*2.
Proof.
  intros Hn [l Hs] Hsort Hfew Hdir Hdisk Hok.
  cut (wp (load_extras dir) s (λ _ s', ∃ ts', dictionary s' ts' ∧ by_length ts' ∧ same_rest s s' ∧ ts' ≡ₚ ts ++ entries.*2)).
  { intros ([] & s' & Hrun & ts' & ?)%wp_Ret. by exists s', ts'. }
  unfold load_extras. rewrite Hdir. apply wp_bind, wp_dict_request; [done|]. apply wp_bind, wp_get. simpl. rewrite Hdisk. simpl.
  apply wp_bind. unfold load_extras_file, open_file. apply wp_bind, wp_bind, wp_dict_request; [done|]. apply wp_bind, wp_get.
  simpl. rewrite Hdisk. apply wp_ret. set (s1 := set_requests _ _).
  assert (stores s1 l ts) as Hs1 by (by eapply stores_same; [..|exact Hs]).
  assert (same_rest s s1) as Hr1 by done. pose proof (stores_length _ _ _ Hs) as Hlen.
  eapply wp_mono; [apply (wp_load_lines 0 entries _ s1 l ts); try done; try lia|].
  { clear -Hok. induction entries as [|entry entries IH]; [done|]. inversion Hok; subst. rewrite bind_cons, length_app. simpl.
    specialize (IH ltac:(done)). unfold entry_line at 1. rewrite !length_app. simpl. lia. }
  intros bounds s2 (l2 & Hs2 & Hr2). unfold extras_check_and_sort. apply wp_bind, wp_get.
  rewrite (st_cnt _ _ _ Hs2), (stores_length _ _ _ Hs2). case_decide as Hz.
  - apply wp_ret. exists (ts ++ entries.*2). split; [by exists l2|]. destruct (ts ++ entries.*2); [|done].
    split; [constructor|]. split; [by etrans|done].
  - eapply wp_mono; [by eapply wp_sort_extras|]. intros [] s3 (ts' & Hd & Hp & Hb & Hr3). exists ts'.
    split; [done|]. split; [done|]. split; [|done]. etrans; [exact Hr1|]. by etrans.
Qed.
End Load.

(** A file with the tokens [00 22 41] and [GET]. *)
Definition sample_entries : list (list Z * list Z) := [([107; 49], [0; 34; 65]); ([], [71; 69; 84])].

Definition sample_disk : dict :=
  Dict None 0 0 [] false ∅ (1, 2) 5 true "in" "out" {["a.dict"%string := Regular (sample_entries ≫= entry_line)]} 1.

Lemma load_extras_roundtrip_witness :
  disk sample_disk !! "a.dict"%string =
    Some (Regular [107; 49; 61; 34; 92; 120; 48; 48; 92; 34; 65; 34; 10; 61; 34; 71; 69; 84; 34; 10]) ∧
  ∃ s' ts', load_extras (H := obliging) "a.dict" sample_disk = Ret (tt, s') ∧ dictionary s' ts' ∧ by_length ts' ∧
    same_rest sample_disk s' ∧ ts' ≡ₚ [] ++ [[0; 34; 65]; [71; 69; 84]].
Proof.
  split; [reflexivity|]. apply (load_extras_roundtrip (H := obliging) sample_disk [] "a.dict" sample_entries).
  - intros n. reflexivity.
  - exists []. split; [by right|done|constructor|constructor|done].
  - constructor.
  - by vm_compute.
  - reflexivity.
  - reflexivity.
  - repeat constructor; try (left; reflexivity); try by vm_compute.
Defined.
