(* ===== verification/AflDictAuto.v ===== *)
(** * AflDictAuto: the tokens found while fuzzing

    [maybe_add_auto] keeps a bounded table of tokens that differ by more than case,
    with the most used ones in front; what [save_auto] writes, [load_auto] reads back. *)

From Stdlib Require Import Ascii.
From stdpp Require Import pretty sorting.
From S2P Require Import Prelude AflBitmap AflQueue AflDet AflDetSpec AflDict AflDictSpec.

(** ** Tokens up to case *)

Definition folded (m : list Z) : list Z := tolower <$> m.

Definition token (e : auto_extra_data) : list Z := take (Z.to_nat (a_extra_len e)) (a_data e).

Lemma folded_length m1 m2 : folded m1 = folded m2 → length m1 = length m2.
Proof. unfold folded. intros Hf%(f_equal length). by rewrite !length_fmap in Hf. Qed.

Lemma memcmp_nocase_spec m1 : ∀ m2, length m1 = length m2 → memcmp_nocase m1 m2 = bool_decide (folded m1 ≠ folded m2).
Proof.
  induction m1 as [|a m1 IH]; intros [|b m2] Hl; simplify_eq/=; [done|]. rewrite IH by done.
  destruct (decide (tolower a = tolower b)) as [Hab|Hab].
  - rewrite Hab, Z.lxor_nilpotent. simpl. apply bool_decide_ext. unfold folded. split; congruence.
  - rewrite bool_decide_eq_true_2 by (by intros ?%Z.lxor_eq). symmetry. apply bool_decide_eq_true.
    unfold folded. csimpl. congruence.
Qed.

(** A run of one byte. *)
Definition uniform (m : list Z) : Prop := ∃ c, m ≠ [] ∧ m = replicate (length m) c.

Lemma run_end_spec n : ∀ i m, 0 ≤ i →
  run_end n i m ≤ i + Z.of_nat n ∧
  (run_end n i m = i + Z.of_nat n ↔ ∀ k, (Z.to_nat i ≤ k < Z.to_nat i + n)%nat → m !!! k = m !!! 0%nat).
Proof.
  induction n as [|n IH]; intros i m Hi; simpl.
  { split; [lia|]. split; [intros _ k Hk; lia|intros _; lia]. }
  destruct (IH (i + 1) m ltac:(lia)) as [IH1 IH2]. case_decide as Hd.
  - split; [lia|]. split; [lia|]. intros Hall. exfalso. apply Hd. rewrite (Hall (Z.to_nat i)) by lia. apply Z.lxor_nilpotent.
  - apply Z.lxor_eq in Hd. split; [lia|].
    replace (i + Z.of_nat (S n)) with (i + 1 + Z.of_nat n) by lia. rewrite IH2. split; intros Hall k Hk.
    + destruct (decide (k = Z.to_nat i)) as [->|]; [done|]. apply Hall. lia.
    + apply Hall. lia.
Qed.

Lemma run_end_uniform m : run_end (Z.to_nat (zlen m - 1)) 1 m = zlen m ↔ uniform m.
Proof.
  destruct m as [|c m]; [split; [done|by intros (c & ? & _)]|]. set (l := c :: m).
  destruct (run_end_spec (Z.to_nat (zlen l - 1)) 1 l ltac:(lia)) as [_ Hr].
  replace (1 + Z.of_nat (Z.to_nat (zlen l - 1))) with (zlen l) in Hr by (simpl; lia). rewrite Hr. split.
  - intros Hall. exists c. split; [done|]. apply list_eq_same_length with (length l); [by rewrite length_replicate|done|].
    intros i x y Hi Hx Hy. apply lookup_replicate in Hy as [-> _]. apply list_lookup_total_correct in Hx as <-.
    destruct i as [|i]; [done|]. rewrite (Hall (S i)); [done|]. simpl in *. lia.
  - intros (d & _ & Heq) k Hk. rewrite Heq. rewrite !lookup_total_replicate_2 by (simpl in *; lia). done.
Qed.

(** ** The table *)

(** A built-in value in [w] bytes, in either byte order. *)
Definition encodes (w : nat) (v : Z) (m : list Z) : Prop :=
  let bs := le_bytes w (v mod 2 ^ (8 * Z.of_nat w)) in m = bs ∨ m = rev bs.

(** The values that the deterministic stages try anyway. *)
Definition builtin (m : list Z) : Prop :=
  Exists (λ v, encodes 2 v m) interesting_16 ∨ Exists (λ v, encodes 4 v m) interesting_32.

(** What [maybe_add_auto] lets into the table: no built-in value, but for -128 in two bytes, the low one first. *)
Definition acceptable (m : list Z) : Prop :=
  bytes_ok m ∧ ¬ uniform m ∧ zlen m ≤ MAX_AUTO_EXTRA ∧ (¬ builtin m ∨ m = [0x80; 0xFF]).

#[local] Instance builtin_dec m : Decision (builtin m).
Proof. unfold builtin, encodes. apply _. Defined.

Lemma le_value_nonneg bs : bytes_ok bs → 0 ≤ le_value bs.
Proof. induction 1 as [|b bs Hb _ IH]; simpl; [done|]. unfold in_width in Hb. lia. Qed.

Lemma existsb_compared (f g : Z → Z) l v :
  existsb (λ i, bool_decide (v = f i) || bool_decide (v = g i)) l = true ↔ v ∈ (f <$> l) ++ (g <$> l).
Proof.
  rewrite existsb_exists, elem_of_app, !list_elem_of_fmap. setoid_rewrite orb_true_iff. setoid_rewrite bool_decide_eq_true.
  setoid_rewrite <- list_elem_of_In. naive_solver.
Qed.

(** One of the two widths: what the source compares with is what [builtin] lists, but for [missed]. *)
Lemma compared_builtin w l (f g : Z → Z) (missed : list Z → Prop) `{∀ m, Decision (missed m)} m :
  length m = w → bytes_ok m →
  Forall (λ x, 0 ≤ x → Exists (λ v, encodes w v (le_bytes w x)) l ∧ ¬ missed (le_bytes w x)) ((f <$> l) ++ (g <$> l)) →
  Forall (λ v, Forall (λ b, missed b ∨ le_value b ∈ (f <$> l) ++ (g <$> l))
    [le_bytes w (v mod 2 ^ (8 * Z.of_nat w)); rev (le_bytes w (v mod 2 ^ (8 * Z.of_nat w)))]) l →
  le_value m ∈ (f <$> l) ++ (g <$> l) ↔ Exists (λ v, encodes w v m) l ∧ ¬ missed m.
Proof.
  intros Hl Hm Hin Hout. rewrite Forall_forall in Hin, Hout. split.
  - intros Hx. destruct (Hin _ Hx) as [He Hms]; [by apply le_value_nonneg|]. rewrite <- Hl, le_bytes_value in He, Hms by done. by rewrite Hl in He.
  - intros [(v & Hv & He)%Exists_exists Hms]. specialize (Hout v Hv). simpl in Hout. rewrite !Forall_cons in Hout.
    destruct Hout as ([?|Ho1] & [?|Ho2] & _), He as [-> | ->]; done.
Qed.

Lemma builtin_token_spec m : bytes_ok m → builtin_token m (zlen m) = true ↔ builtin m ∧ m ≠ [0x80; 0xFF].
Proof.
  intros Hm. assert (∀ w l, length m ≠ w → ¬ Exists (λ v, encodes w v m) l) as Hwidth.
  { intros w l Hl (v & _ & He)%Exists_exists. apply Hl. destruct He as [-> | ->]; rewrite ?length_rev; apply length_le_word. }
  unfold builtin_token, builtin. case_decide as H2'; [|case_decide as H4'].
  - rewrite (existsb_compared (λ i, i)). rewrite (compared_builtin 2 interesting_16 _ _ (λ b, b = [0x80; 0xFF]));
      [|lia|done|apply (bool_decide_unpack _); by vm_compute|apply (bool_decide_unpack _); by vm_compute].
    assert (¬ Exists (λ v, encodes 4 v m) interesting_32) by (apply Hwidth; lia). tauto.
  - rewrite (existsb_compared u32). rewrite (compared_builtin 4 interesting_32 _ _ (λ _, False));
      [|lia|done|apply (bool_decide_unpack _); by vm_compute|apply (bool_decide_unpack _); by vm_compute].
    assert (¬ Exists (λ v, encodes 2 v m) interesting_16) by (apply Hwidth; lia). assert (m ≠ [0x80; 0xFF]) by (by intros ->). tauto.
  - split; [done|]. intros [[He|He] _]; by apply Hwidth in He; [|lia].
Qed.

Lemma acceptable_spec m : acceptable m ↔ bytes_ok m ∧ ¬ uniform m ∧ zlen m ≤ MAX_AUTO_EXTRA ∧ builtin_token m (zlen m) = false.
Proof.
  unfold acceptable. split; intros (Hm & Hu & Hl & Hb); (split; [done|]; split; [done|]; split; [done|]); pose proof (builtin_token_spec m Hm) as Hspec.
  - destruct (builtin_token m (zlen m)); [|done]. destruct (proj1 Hspec eq_refl). tauto.
  - destruct (decide (m = [0x80; 0xFF])); [by right|left]. intros Hbi. rewrite (proj2 Hspec) in Hb by done. done.
Qed.

Definition auto_ok (e : auto_extra_data) : Prop :=
  zlen (a_data e) = MAX_AUTO_EXTRA ∧ 0 ≤ a_extra_len e ≤ MAX_AUTO_EXTRA ∧ 0 ≤ hit_cnt e < 2 ^ 31 ∧ acceptable (token e).

Record table (l : list auto_extra_data) : Prop := {
  tb_entries : Forall auto_ok l;
  tb_room : zlen l ≤ MAX_AUTO_EXTRAS;
  tb_distinct : NoDup ((λ e, folded (token e)) <$> l) }.

(** The most used entries come first, and among them the shorter ones. *)
Definition used_first (l : list auto_extra_data) : Prop :=
  let n := Z.to_nat USE_AUTO_EXTRAS in
  StronglySorted (λ x y, a_extra_len x ≤ a_extra_len y) (take n l) ∧
  ∀ x y, x ∈ take n l → y ∈ drop n l → hit_cnt y ≤ hit_cnt x.

Lemma token_length e : auto_ok e → zlen (token e) = a_extra_len e.
Proof. intros (Hd & Hl & _). unfold token. rewrite length_take. lia. Qed.

Lemma same_auto_spec e m : auto_ok e → zlen m ≤ MAX_AUTO_EXTRA →
  same_auto m (zlen m) e = bool_decide (folded (token e) = folded m).
Proof.
  intros He Hm. pose proof (token_length e He) as Hl. unfold same_auto. destruct (decide (a_extra_len e = zlen m)) as [Heq|Heq].
  - rewrite bool_decide_eq_true_2 by done. unfold token in *. rewrite Heq in *.
    rewrite memcmp_nocase_spec by lia. simpl. rewrite <- bool_decide_not. apply bool_decide_ext. destruct (decide (folded (take (Z.to_nat (zlen m)) (a_data e)) = folded m)); tauto.
  - rewrite bool_decide_eq_false_2 by done. symmetry. apply bool_decide_eq_false. intros Hf%folded_length. lia.
Qed.

Lemma find_auto_spec m l : Forall auto_ok l → zlen m ≤ MAX_AUTO_EXTRA → ∀ k,
  match find_auto k m (zlen m) l with
  | Some i => ∃ j e, i = (k + j)%nat ∧ l !! j = Some e ∧ folded (token e) = folded m
  | None => ∀ e, e ∈ l → folded (token e) ≠ folded m
  end.
Proof.
  intros Hl Hm. induction Hl as [|e l He Hl IH]; intros k; simpl; [intros e He; by apply elem_of_nil in He|].
  rewrite same_auto_spec by done. case_bool_decide as Hf.
  - exists 0%nat, e. split; [lia|done].
  - specialize (IH (S k)). destruct (find_auto (S k) m (zlen m) l) as [i|].
    + destruct IH as (j & e' & -> & Hj & Hf'). exists (S j), e'. split; [lia|done].
    + intros e' [->|He']%elem_of_cons; [done|by apply IH].
Qed.

(** Storing a token in the array of an entry. *)
Lemma token_put m old n : zlen old = MAX_AUTO_EXTRA → zlen m ≤ MAX_AUTO_EXTRA →
  zlen (put_data m old) = MAX_AUTO_EXTRA ∧ token (AutoExtra (put_data m old) (zlen m) n) = m.
Proof.
  intros Ho Hm. unfold put_data, token. simpl. rewrite Nat2Z.id, take_app_length, length_app, length_drop. split; [lia|done].
Qed.

(** ** Steps of [maybe_add_auto] *)

Lemma alter_insert {A} (f : A → A) (l : list A) i x : l !! i = Some x → alter f i l = <[i:=f x]> l.
Proof. revert i. induction l as [|y l IH]; intros [|i] Hi; simplify_eq/=; [done|]. f_equal. by apply IH. Qed.

Lemma NoDup_insert {A} (l : list A) i x : NoDup l → x ∉ l ∨ l !! i = Some x → NoDup (<[i:=x]> l).
Proof.
  intros Hl [Hx|Hx]; [|by rewrite list_insert_id]. apply NoDup_alt. intros j k y Hj Hk.
  apply list_lookup_insert_Some in Hj as [(-> & -> & Hi)|[Hij Hj]]; apply list_lookup_insert_Some in Hk as [(-> & Hyx & _)|[Hik Hk]]; try done.
  - exfalso. apply Hx. by eapply list_elem_of_lookup_2.
  - exfalso. subst. apply Hx. by eapply list_elem_of_lookup_2.
  - by eapply NoDup_alt.
Qed.

Lemma table_perm l l' : l' ≡ₚ l → table l → table l'.
Proof. intros Hp [He Hr Hd]. split; by rewrite Hp. Qed.

(** The table with a new token in some place, or the same token in its place. *)
Lemma table_insert l i e : table l → auto_ok e →
  (∀ x, x ∈ l → folded (token x) ≠ folded (token e)) ∨ (∃ x, l !! i = Some x ∧ folded (token x) = folded (token e)) → table (<[i:=e]> l).
Proof.
  intros [He Hr Hd] Hok Hnew. split; [by apply Forall_insert|by rewrite length_insert|].
  rewrite list_fmap_insert. apply NoDup_insert; [done|]. destruct Hnew as [Hnew|(x & Hx & Hf)].
  - left. intros (x & Hf & Hx)%list_elem_of_fmap. by apply (Hnew x).
  - right. by rewrite list_lookup_fmap, Hx, <- Hf.
Qed.

Lemma table_snoc l e : table l → auto_ok e → zlen l < MAX_AUTO_EXTRAS →
  (∀ x, x ∈ l → folded (token x) ≠ folded (token e)) → table (l ++ [e]).
Proof.
  intros [He Hr Hd] Hok Hroom Hnew. split; [apply Forall_app; split; [done|by apply Forall_singleton]|rewrite length_app; simpl; lia|].
  rewrite fmap_app. apply NoDup_app. split; [done|]. split; [|apply NoDup_singleton].
  intros f (x & -> & Hx)%list_elem_of_fmap Hin. apply list_elem_of_singleton in Hin. by apply (Hnew x).
Qed.

Section Auto.
Context `{Host, QSort, Entropy, !QSortLaw}.

Lemma wp_sort_a_extras s : Forall auto_ok (a_extras s) →
  wp sort_a_extras s (λ _ s', ∃ l, s' = set_a_extras l s ∧ l ≡ₚ a_extras s ∧ used_first l).
Proof.
  intros Hok. unfold sort_a_extras. apply wp_dict_upd. eexists. split; [done|].
  set (l2 := qsort compare_auto_extras_use_d (a_extras s)). assert (l2 ≡ₚ a_extras s) as Hp2 by apply qsort_perm.
  assert (StronglySorted (λ x y, - hit_cnt x ≤ - hit_cnt y) l2) as Hs2.
  { apply qsort_sorted. intros x y Hx Hy. eapply Forall_forall in Hx, Hy; [|exact Hok..]. destruct Hx as (_ & _ & Hx & _), Hy as (_ & _ & Hy & _).
    unfold compare_auto_extras_use_d, i32. rewrite wrap_small by lia. f_equal. lia. }
  set (n := Z.to_nat (Z.min USE_AUTO_EXTRAS (zlen l2))). set (top := qsort compare_auto_extras_len (take n l2)).
  assert (top ≡ₚ take n l2) as Htop by apply qsort_perm. pose proof (Permutation_length Htop) as Hlen. rewrite length_take in Hlen.
  split; [by rewrite Htop, take_drop|].
  assert (take (Z.to_nat USE_AUTO_EXTRAS) (top ++ drop n l2) = top ∧ drop (Z.to_nat USE_AUTO_EXTRAS) (top ++ drop n l2) = drop n l2) as [Et Ed].
  { unfold USE_AUTO_EXTRAS in *. destruct (decide (4096 ≤ zlen l2)).
    - assert (length top = Z.to_nat 4096) as <- by lia. split; [apply take_app_length|apply drop_app_length].
    - assert (drop n l2 = []) as -> by (apply drop_ge; lia). rewrite app_nil_r. split; [apply take_ge|apply drop_ge]; lia. }
  unfold used_first. rewrite Et, Ed. split.
  - apply qsort_sorted. intros x y Hx Hy. assert (∀ z, z ∈ take n l2 → 0 ≤ a_extra_len z ≤ 32) as Hb.
    { intros z Hz. assert (z ∈ a_extras s) as Hz' by (rewrite <- Hp2, <- (take_drop n l2); apply elem_of_app; by left).
      eapply Forall_forall in Hz'; [|exact Hok]. unfold auto_ok, MAX_AUTO_EXTRA in Hz'. tauto. }
    apply Hb in Hx, Hy. unfold compare_auto_extras_len, i32. rewrite wrap_small by lia. f_equal. lia.
  - intros x y Hx Hy. rewrite Htop in Hx. rewrite <- (take_drop n l2) in Hs2.
    pose proof (StronglySorted_app_1_elem_of _ _ _ x y Hs2 Hx Hy) as Hle. simpl in Hle. lia.
Qed.

(** ** The search among the user's tokens *)

Lemma wp_skip_shorter s l ts (m : list Z) n : stores s l ts → ∀ i, (i + n)%nat = length ts →
  (∀ k t, (k < i)%nat → ts !! k = Some t → zlen t < zlen m) →
  wp (skip_shorter n (Z.of_nat i) (zlen m)) s (λ r s', s' = s ∧ ∃ k, r.2 = Z.of_nat k ∧ (k + r.1)%nat = length ts ∧
    (∀ j t, (j < k)%nat → ts !! j = Some t → zlen t < zlen m) ∧ ∀ t, ts !! k = Some t → zlen m ≤ zlen t).
Proof.
  intros Hs. induction n as [|n IH]; intros i Hi Hlt; simpl.
  { apply wp_ret. split; [done|]. exists i. simpl. repeat split; [lia|done|]. intros t Ht%lookup_lt_Some. lia. }
  destruct (stores_lookup s l ts i) as (e & t & He & Hl & Ht & Ho); [done|lia|]. destruct Ho as (Hlen & _).
  apply wp_bind. eapply wp_extra_at; [done|by rewrite Nat2Z.id|]. case_decide as Hge.
  - apply wp_ret. split; [done|]. exists i. simpl. repeat split; [lia|done|]. intros u Hu. simplify_eq. lia.
  - replace (Z.of_nat i + 1) with (Z.of_nat (S i)) by lia. apply IH; [lia|]. intros k u Hk Hu.
    destruct (decide (k = i)) as [->|]; [simplify_eq; lia|]. apply (Hlt k); [lia|done].
Qed.

Lemma wp_has_extra s l ts m n : stores s l ts → by_length ts → ∀ i, (i + n)%nat = length ts →
  wp (has_extra n (Z.of_nat i) m (zlen m)) s (λ b s', s' = s ∧
    ((∀ t, ts !! i = Some t → zlen m ≤ zlen t) → b = bool_decide (Exists (λ t, folded t = folded m) (drop i ts)))).
Proof.
  intros Hs Hsort. induction n as [|n IH]; intros i Hi; simpl.
  { apply wp_ret. split; [done|]. intros _. rewrite drop_ge by lia. symmetry. apply bool_decide_eq_false. by intros ?%Exists_nil. }
  destruct (stores_lookup s l ts i) as (e & t & He & Hl & Ht & Ho); [done|lia|]. pose proof Ho as (Hlen & _).
  rewrite (drop_S _ t i) by done. replace (Z.of_nat i + 1) with (Z.of_nat (S i)) by lia.
  apply wp_bind. eapply wp_extra_at; [done|by rewrite Nat2Z.id|]. case_decide as Hdiff.
  - apply wp_ret. split; [done|]. intros Hge. specialize (Hge t Ht). symmetry. apply bool_decide_eq_false.
    intros [Hf|(u & Hu & Hf)%Exists_exists]%Exists_cons; [apply folded_length in Hf; lia|].
    apply list_elem_of_lookup in Hu as [k Hk]. rewrite lookup_drop in Hk.
    pose proof (by_length_le ts i (S i + k) t u Hsort Ht Hk ltac:(lia)). apply folded_length in Hf. lia.
  - apply wp_bind. eapply wp_read_owned; [exact Ho|congruence|]. rewrite memcmp_nocase_spec by lia. case_bool_decide as Hf.
    + eapply wp_mono; [apply IH; lia|]. intros b s' [-> Hb]. split; [done|]. intros _. rewrite Hb.
      * apply bool_decide_ext. rewrite Exists_cons. tauto.
      * intros u Hu. pose proof (by_length_le ts i (S i) t u Hsort Ht Hu ltac:(lia)). lia.
    + apply wp_ret. split; [done|]. intros _. symmetry. apply bool_decide_eq_true. apply Exists_cons. left. by destruct (decide (folded t = folded m)).
Qed.

(** ** Random numbers *)

Lemma bind_inv {A B} (m : M dict A) (k : A → M dict B) s b s'' :
  (m ≫= k) s = Ret (b, s'') → ∃ a s', m s = Ret (a, s') ∧ k a s' = Ret (b, s'').
Proof. unfold mbind, M_bind. destruct (m s) as [[a s']| |]; [|done..]. by exists a, s'. Qed.

Definition only_rand (s s' : dict) : Prop := ∃ v c n, s' = set_requests n (set_rand v c s).

Lemma only_rand_trans s1 s2 s3 : only_rand s1 s2 → only_rand s2 s3 → only_rand s1 s3.
Proof. intros (v & c & n & ->) (v' & c' & n' & ->). by exists v', c', n'. Qed.

Lemma rand_next_only s : ∃ u s', rand_next s = Ret (u, s') ∧ only_rand s s'.
Proof.
  unfold rand_next, mbind, M_bind, get_state, put_state, mret, M_ret. destruct (rand_seed s) as [s0 s1].
  eexists _, _. split; [done|]. by eexists _, _, (requests s).
Qed.

(** What a random number is, when the rejection sampling gives one. *)
Lemma rand_below_ok fuel limit s r s' : 1 < limit → rand_below fuel limit s = Ret (r, s') → 0 ≤ r < limit ∧ only_rand s s'.
Proof.
  intros Hl. assert (∀ fuel s r s', rand_below_loop fuel limit s = Ret (r, s') → 0 ≤ r < limit ∧ only_rand s s') as Hloop.
  { intros n. induction n as [|n IH]; intros s1 r1 s1' Hr; simpl in Hr; [done|]. destruct (rand_next_only s1) as (u & s2 & Hu & Ho).
    rewrite (bind_Ret _ _ _ _ _ Hu) in Hr. case_decide.
    - apply IH in Hr as [? ?]. split; [done|by eapply only_rand_trans].
    - injection Hr as <- <-. split; [apply Z.mod_pos_bound; lia|done]. }
  unfold rand_below. rewrite decide_False by lia. intros Hr.
  apply bind_inv in Hr as (s0 & s0' & [= <- <-] & Hr). apply bind_inv in Hr as ([] & s1 & [= <-] & Hr).
  apply bind_inv in Hr as ([] & s2 & Hseed & [Hrange Ho]%Hloop). split; [done|]. eapply only_rand_trans; [|exact Ho].
  case_decide; [|injection Hseed as <-; by eexists _, _, (requests s)].
  apply bind_inv in Hseed as ([] & s3 & Hreq & Hseed). destruct (urandom (requests s)) as [u0 u1]. injection Hseed as <-.
  unfold or_exit in Hreq. apply bind_inv in Hreq as (b & s4 & [= <- <-] & Hreq). destruct (negb _); [|done].
  injection Hreq as <-. by eexists _, _, _.
Qed.

(** Rejection sampling gives a number for the table [s]. *)
Definition draws (fuel : nat) (s : dict) : Prop := ∃ r s', rand_below fuel ((MAX_AUTO_EXTRAS + 1) / 2) (set_auto_changed true s) = Ret (r, s').

(** ** One call *)

(** The new table, before it is sorted: one use more of the entry for the token, or a
    new entry at the end, or in the lower half of a full table. *)
Inductive recorded (m : list Z) (l : list auto_extra_data) : list auto_extra_data → Prop :=
| used_again i e : l !! i = Some e → folded (token e) = folded m →
    recorded m l (<[i := AutoExtra (a_data e) (a_extra_len e) (hit_cnt e + 1)]> l)
| appended e : (∀ x, x ∈ l → folded (token x) ≠ folded m) → token e = m → hit_cnt e = 0 → zlen l < MAX_AUTO_EXTRAS →
    recorded m l (l ++ [e])
| evicted i e : (∀ x, x ∈ l → folded (token x) ≠ folded m) → token e = m → hit_cnt e = 0 → zlen l = MAX_AUTO_EXTRAS →
    MAX_AUTO_EXTRAS / 2 ≤ Z.of_nat i < MAX_AUTO_EXTRAS → recorded m l (<[i := e]> l).

(** The tokens that are turned away: one byte repeated, too long, built in (but for 80 FF), or one of
    the user's, up to case. *)
Definition refused (ts : list (list Z)) (m : list Z) : Prop :=
  ¬ acceptable m ∨ Exists (λ t, folded t = folded m) ts.

Record auto_only (s s' : dict) : Prop := {
  ao_extras : extras s' = extras s ∧ extras_cnt s' = extras_cnt s ∧ extras_size s' = extras_size s ∧ blocks s' = blocks s;
  ao_dirs : in_dir s' = in_dir s ∧ out_dir s' = out_dir s ∧ disk s' = disk s }.

Definition auto_step (ts : list (list Z)) (m : list Z) (s s' : dict) : Prop :=
  auto_only s s' ∧ table (a_extras s') ∧
  (refused ts m ∧ s' = s ∨
   ¬ refused ts m ∧ auto_changed s' = true ∧ used_first (a_extras s') ∧ ∃ l, recorded m (a_extras s) l ∧ a_extras s' ≡ₚ l).

Lemma wp_insert_auto fuel s m : table (a_extras s) → acceptable m → (∀ x, x ∈ a_extras s → folded (token x) ≠ folded m) →
  (zlen (a_extras s) < MAX_AUTO_EXTRAS ∨ ∃ r s', rand_below fuel ((MAX_AUTO_EXTRAS + 1) / 2) s = Ret (r, s')) →
  wp (insert_auto fuel m (zlen m)) s (λ _ s', ∃ l s1, s' = set_a_extras l s1 ∧ only_rand s s1 ∧ recorded m (a_extras s) l ∧ table l).
Proof.
  intros Ht Hm Hnew Hroom. unfold insert_auto. apply wp_bind, wp_get.
  assert (∀ old, zlen old = MAX_AUTO_EXTRA → let e := AutoExtra (put_data m old) (zlen m) 0 in
    auto_ok e ∧ token e = m) as Hput.
  { intros old Hold. destruct (token_put m old 0 Hold) as [H3 H4]; [apply Hm|]. split; [|done].
    split; [done|]. split; [simpl; destruct Hm as (_ & _ & ? & _); lia|]. split; [simpl; lia|by rewrite H4]. }
  case_decide as Hfull.
  - apply wp_put. destruct (Hput (replicate (Z.to_nat MAX_AUTO_EXTRA) 0)) as [Hok Htok]; [by rewrite length_replicate|].
    eexists _, s. split; [done|]. split; [by exists (rand_seed s), (rand_cnt s), (requests s); destruct s|]. split; [by apply appended|].
    apply table_snoc; [done..|]. by rewrite Htok.
  - destruct Hroom as [|(r & s1 & Hr)]; [lia|]. apply wp_bind. unfold wp at 1. rewrite Hr.
    apply rand_below_ok in Hr as [Hr Ho]; [|vm_compute; reflexivity]. apply wp_dict_upd.
    assert (zlen (a_extras s) = MAX_AUTO_EXTRAS) as Hlen by (pose proof (tb_room _ Ht); lia).
    assert (a_extras s1 = a_extras s) as -> by (by destruct Ho as (? & ? & ? & ->)).
    set (i := Z.to_nat (MAX_AUTO_EXTRAS / 2 + r)).
    assert ((MAX_AUTO_EXTRAS + 1) / 2 = 16384 ∧ MAX_AUTO_EXTRAS / 2 = 16384 ∧ MAX_AUTO_EXTRAS = 32768) as (Eh & Eh2 & Em) by done.
    destruct (lookup_lt_is_Some_2 (a_extras s) i) as [e He]; [lia|].
    pose proof (tb_entries _ Ht) as Hall. eapply Forall_lookup in Hall; [|exact He]. destruct (Hput (a_data e) (proj1 Hall)) as [Hok Htok].
    eexists _, s1. split; [done|]. split; [done|]. rewrite (alter_insert _ _ _ _ He). split.
    + apply evicted; try done. lia.
    + apply table_insert; [done..|]. left. by rewrite Htok.
Qed.

Lemma maybe_add_auto_ok fuel s ts m : bytes_ok m → dictionary s ts → by_length ts → table (a_extras s) →
  Forall (λ e, hit_cnt e < 2 ^ 31 - 1) (a_extras s) → (zlen (a_extras s) < MAX_AUTO_EXTRAS ∨ draws fuel s) →
  wp (maybe_add_auto fuel m (zlen m)) s (λ _ s', auto_step ts m s s').
Proof.
  intros Hbytes [l Hs] Hsort Ht Hhits Hroom. unfold maybe_add_auto.
  assert (¬ acceptable m → auto_step ts m s s) as Hrefuse by (intros Hm; split; [done|]; split; [done|]; left; split; [by left|done]).
  apply wp_bind, wp_bytes_of; [done|]. case_decide as Hu; rewrite run_end_uniform in Hu.
  { apply wp_ret, Hrefuse. intros (_ & ? & ? & _). destruct Hu; [done|lia]. }
  destruct (builtin_token m (zlen m)) eqn:Hbuiltin; [apply wp_ret, Hrefuse; intros (_ & _ & _ & ?)%acceptable_spec; congruence|].
  assert (acceptable m) as Hm by (apply acceptable_spec; split; [done|split; [tauto|split; [lia|done]]]).
  apply wp_bind, wp_get. rewrite (st_cnt _ _ _ Hs), (stores_length _ _ _ Hs), Nat2Z.id.
  apply wp_bind. eapply wp_mono; [apply (wp_skip_shorter s l ts m (length ts) Hs 0); [lia|intros; lia]|].
  intros [n i'] s1 (-> & k & Hk & Hn & Hshort & Hge). simpl in Hk, Hn. subst i'.
  apply wp_bind. eapply wp_mono; [by apply (wp_has_extra s l ts m n Hs Hsort k)|]. intros b s1 (-> & Hb).
  rewrite (Hb Hge). case_bool_decide as Hknown.
  { apply wp_ret. split; [done|]. split; [done|]. left. split; [|done]. right. rewrite <- (take_drop k ts). apply Exists_app. by right. }
  assert (¬ refused ts m) as Hok.
  { intros [?|Hex]; [done|]. apply Hknown. rewrite <- (take_drop k ts), Exists_app in Hex. destruct Hex as [Hex|]; [|done]. exfalso.
    apply Exists_exists in Hex as (t & Htk & Hf). apply list_elem_of_lookup in Htk as [j Hj]. apply lookup_take_Some in Hj as [Hj Hjk].
    pose proof (Hshort j t Hjk Hj). apply folded_length in Hf. lia. }
  apply wp_bind, wp_dict_upd. apply wp_bind.
  eapply wp_mono with (λ _ s', ∃ l2 s2, s' = set_a_extras l2 s2 ∧ only_rand (set_auto_changed true s) s2 ∧
    recorded m (a_extras s) l2 ∧ table l2).
  - pose proof (find_auto_spec m (a_extras s) (tb_entries _ Ht) (proj1 (proj2 (proj2 Hm))) 0) as Hfind.
    destruct (find_auto 0 m (zlen m) (a_extras s)) as [i|].
    + destruct Hfind as (j & e & -> & He & Hf). apply wp_dict_upd. simpl.
      pose proof (tb_entries _ Ht) as Hall. eapply Forall_lookup in Hall; [|exact He]. eapply Forall_lookup in Hhits; [|exact He].
      destruct Hall as (Hd & Hl & Hh & Hacc). simpl in Hhits.
      eexists _, (set_auto_changed true s). split; [done|]. split; [by exists (rand_seed s), (rand_cnt s), (requests s)|].
      rewrite (alter_insert _ _ _ _ He), wrap_small by lia. split; [by apply used_again|].
      apply table_insert; [done| |right; by exists e]. split; [done|]. split; [done|]. split; [simpl; lia|done].
    + eapply wp_mono; [by apply (wp_insert_auto fuel (set_auto_changed true s) m)|]. intros [] s' (l2 & s2 & ? & ? & ? & ?). by exists l2, s2.
  - intros [] s' (l2 & s2 & -> & (v & c & n' & ->) & Hrec & Htab). eapply wp_mono; [apply wp_sort_a_extras; simpl; apply Htab|].
    intros [] s3 (l3 & -> & Hp & Hused). split; [done|]. simpl. split; [by eapply table_perm|]. right. split; [done|]. split; [done|].
    split; [done|]. by exists l2.
Qed.

(** C19. [maybe_add_auto] keeps its table: no two tokens equal up to case, none of them
    uniform or too long, none a built-in value in either byte order with one exception, at most
    32768 of them, the most used 4096 in front and those by length. The exception is the
    value -128 in two bytes, low byte first (80 FF): the source compares an unsigned number with a
    signed one, and lets it in, although its comment says that built-in values are rejected. A
    token is turned away exactly for these reasons or because the user
    gave it; otherwise its use is counted, or it is appended, or, when the table is full,
    replaces one of the lower half. *)
Theorem maybe_add_auto_correct fuel s ts m :
  bytes_ok m → dictionary s ts → by_length ts → table (a_extras s) → Forall (λ e, hit_cnt e < 2 ^ 31 - 1) (a_extras s) →
  (zlen (a_extras s) < MAX_AUTO_EXTRAS ∨ draws fuel s) →
  ∃ s', maybe_add_auto fuel m (zlen m) s = Ret (tt, s') ∧ auto_only s s' ∧ table (a_extras s') ∧
    (refused ts m ∧ s' = s ∨
     ¬ refused ts m ∧ auto_changed s' = true ∧ used_first (a_extras s') ∧ ∃ l, recorded m (a_extras s) l ∧ a_extras s' ≡ₚ l).
Proof. intros Hm Hd Hb Ht Hh Hr. destruct (proj1 (wp_Ret _ _ _) (maybe_add_auto_ok fuel s ts m Hm Hd Hb Ht Hh Hr)) as ([] & s' & ? & ?). by exists s'. Qed.
End Auto.

(** ** The values that are built in *)

Definition empty_dict : dict := Dict None 0 0 [] false ∅ (1, 2) 5 true "in" "out" ∅ 1.

(** All interesting values of four bytes are turned away, but one of two bytes is
    not: [interesting_16] holds signed numbers, which the unsigned value of the token
    never equals, and -128 has no swapped counterpart in the list. Its bytes 80 FF
    enter the table. *)
Theorem builtin_16_missed :
  Forall (λ v, builtin_token (le_bytes 4 (u32 v)) 4 = true) interesting_32 ∧
  Forall (λ v, builtin_token (le_bytes 2 (u16 v)) 2 = bool_decide (v ≠ -128)) interesting_16 ∧
  -128 ∈ interesting_16 ∧ le_bytes 2 (u16 (-128)) = [0x80; 0xFF] ∧
  ∃ s', maybe_add_auto (H := obliging) 1 [0x80; 0xFF] 2 empty_dict = Ret (tt, s') ∧ token <$> a_extras s' = [[0x80; 0xFF]].
Proof.
  split; [apply (bool_decide_unpack _); vm_compute; done|]. split; [apply (bool_decide_unpack _); vm_compute; done|].
  split; [by left|]. split; [done|]. eexists. split; vm_compute; reflexivity.
Qed.

(** ** Saving and loading *)

Lemma six_digits_inj i j : 0 ≤ i < USE_AUTO_EXTRAS → 0 ≤ j < USE_AUTO_EXTRAS → six_digits i = six_digits j → i = j.
Proof.
  assert (Forall (λ i, digits_value 0 (string_bytes (six_digits i)) = i) (seqZ 0 USE_AUTO_EXTRAS)) as Hall.
  { apply (bool_decide_unpack _). vm_compute. done. }
  intros Hi Hj Heq. rewrite Forall_forall in Hall. rewrite <- (Hall i), <- (Hall j) by (apply elem_of_seqZ; lia). by rewrite Heq.
Qed.

Lemma auto_name_inj d i j : 0 ≤ i < USE_AUTO_EXTRAS → 0 ≤ j < USE_AUTO_EXTRAS → auto_name d i = auto_name d j → i = j.
Proof. intros Hi Hj Heq. unfold auto_name in Heq. simplify_eq. by apply six_digits_inj. Qed.

(** A loop that may stop early. *)
Lemma wp_loop_until {S} (I : Z → S → Prop) (Q : S → Prop) n : ∀ i (body : Z → M S bool) s,
  I i s → (∀ j s, i ≤ j < i + Z.of_nat n → I j s → wp (body j) s (λ (b : bool) s', if b then I (j + 1) s' else Q s')) →
  (∀ s, I (i + Z.of_nat n) s → Q s) → wp (all_loop n i body) s (λ _ s', Q s').
Proof.
  induction n as [|n IH]; intros i body s HI Hbody Hend; simpl.
  { apply wp_ret, Hend. by rewrite Z.add_0_r. }
  apply wp_bind. eapply wp_mono; [apply Hbody; [lia|done]|]. intros [] s' HI'; [|by apply wp_ret].
  apply IH; [done|intros j s2 Hj; apply Hbody; lia|]. intros s2 Hs2. apply Hend. by replace (i + Z.of_nat (Datatypes.S n)) with (i + 1 + Z.of_nat n) by lia.
Qed.

Section Files.
Context `{Host, QSort, Entropy, !QSortLaw}.

Definition saved_dir (s : dict) : string := (out_dir s +:+ "/queue")%string.

(** The number of tokens that are saved. *)
Definition saved (s : dict) : Z := Z.min USE_AUTO_EXTRAS (zlen (a_extras s)).

Lemma wp_save_auto s : never_refuses → table (a_extras s) → auto_changed s = true →
  wp save_auto s (λ _ s', a_extras s' = a_extras s ∧ auto_changed s' = false ∧
    (∀ i e, Z.of_nat i < USE_AUTO_EXTRAS → a_extras s !! i = Some e → disk s' !! auto_name (saved_dir s) (Z.of_nat i) = Some (Regular (token e))) ∧
    (∀ fn, (∀ i, 0 ≤ i < saved s → fn ≠ auto_name (saved_dir s) i) → disk s' !! fn = disk s !! fn)).
Proof.
  intros Hn Ht Hc. unfold save_auto. apply wp_bind, wp_get. rewrite Hc. apply wp_bind, wp_put.
  pose (I := λ k s', a_extras s' = a_extras s ∧ auto_changed s' = false ∧ out_dir s' = out_dir s ∧
    (∀ i e, Z.of_nat i < k → a_extras s !! i = Some e → disk s' !! auto_name (saved_dir s) (Z.of_nat i) = Some (Regular (token e))) ∧
    (∀ fn, (∀ i, 0 ≤ i < k → fn ≠ auto_name (saved_dir s) i) → disk s' !! fn = disk s !! fn)).
  eapply wp_mono; [apply (wp_for_loop I _ 0)|].
  - split; [done|]. split; [done|]. split; [done|]. split; [intros; lia|done].
  - intros k s1 Hk (Ha & Hch & Ho & Hfiles & Hrest). fold (saved s) in Hk. unfold save_token. apply wp_bind, wp_get.
    assert (0 ≤ saved s ≤ USE_AUTO_EXTRAS ∧ saved s ≤ zlen (a_extras s)) as Hsaved by (unfold saved, USE_AUTO_EXTRAS; lia).
    rewrite Ho. fold (saved_dir s). set (fn := auto_name (saved_dir s) k).
    apply wp_bind. unfold or_exit. apply wp_bind, wp_dict_request; [done|]. apply wp_ret. apply wp_bind, wp_dict_upd. rewrite Ha.
    destruct (lookup_lt_is_Some_2 (a_extras s) (Z.to_nat k)) as [e He]; [lia|]. rewrite He.
    pose proof (tb_entries _ Ht) as Hall. eapply Forall_lookup in Hall; [|exact He]. destruct Hall as (Hd & Hl & _).
    apply wp_bind. unfold bytes_of. rewrite decide_True by lia. apply wp_ret.
    apply wp_bind, wp_bind, wp_dict_request; [done|]. apply wp_ret, wp_dict_upd. simpl. rewrite insert_insert_eq. unfold fn. clear fn.
    split; [done|]. split; [done|]. split; [done|]. split.
    + intros i e' Hi He'. cbn [disk set_disk set_requests]. destruct (decide (Z.of_nat i = k)) as [<-|Hne].
      * rewrite lookup_insert_eq. rewrite Nat2Z.id in He. by simplify_eq.
      * rewrite lookup_insert_ne; [apply Hfiles; [lia|done]|]. intros Heq%auto_name_inj; lia.
    + intros fn' Hfn. cbn [disk set_disk set_requests]. rewrite lookup_insert_ne; [apply Hrest; intros i Hi; apply Hfn; lia|]. intros Heq. apply (Hfn k); [lia|done].
  - intros [] s' (Ha & Hch & _ & Hfiles & Hrest). fold (saved s) in Hfiles, Hrest.
    assert (0 ≤ saved s) as Hs by (unfold saved, USE_AUTO_EXTRAS; lia). rewrite Z.add_0_l, Z2Nat.id in Hfiles, Hrest by done.
    split; [done|]. split; [done|]. split; [|done]. intros i e Hi He. apply Hfiles; [|done]. apply lookup_lt_Some in He as Hlt. unfold saved. lia.
Qed.

#[local] Instance auto_only_trans : Transitive auto_only.
Proof. intros s1 s2 s3 [? ?] [? ?]. split; intuition congruence. Qed.

Lemma dictionary_auto s s' ts : auto_only s s' → dictionary s ts → dictionary s' ts.
Proof. intros [(He & Hc & _ & Hb) _] [l Hs]. exists l. by eapply stores_same. Qed.

(** What [load_auto] keeps of the tokens in the files, beside the user's tokens [ts]. *)
Definition loaded (ts : list (list Z)) (m : list Z) : Prop := MIN_AUTO_EXTRA ≤ zlen m ∧ ¬ Exists (λ t, folded t = folded m) ts.

#[local] Instance loaded_dec ts m : Decision (loaded ts m).
Proof. unfold loaded. apply _. Defined.

(** The table after some files are read, for the tokens [us] in them. *)
Definition fresh_table (ts us : list (list Z)) (l : list auto_extra_data) : Prop :=
  table l ∧ Forall (λ e, hit_cnt e = 0) l ∧ token <$> l ≡ₚ filter (loaded ts) us.

Lemma fresh_table_length ts us l : fresh_table ts us l → (length l ≤ length us)%nat.
Proof.
  intros (_ & _ & Hp). apply Permutation_length in Hp. rewrite length_fmap in Hp. rewrite Hp. apply length_filter.
Qed.

Lemma wp_load_one fuel s ts us m : dictionary s ts → by_length ts → fresh_table ts us (a_extras s) → zlen us < USE_AUTO_EXTRAS →
  acceptable m → (∀ u, u ∈ us → folded u ≠ folded m) →
  wp (if decide (MIN_AUTO_EXTRA ≤ zlen m ≤ MAX_AUTO_EXTRA) then maybe_add_auto fuel m (zlen m) else mret tt) s
     (λ _ s', auto_only s s' ∧ fresh_table ts (us ++ [m]) (a_extras s')).
Proof.
  intros Hd Hsort Hfresh Hfew Hm Hnew. pose proof (fresh_table_length _ _ _ Hfresh) as Hlen. destruct Hfresh as (Ht & Hh & Hp).
  unfold fresh_table. rewrite filter_app, filter_cons. case_decide as Hmin.
  2:{ apply wp_ret. split; [done|]. rewrite decide_False, app_nil_r by (intros [? _]; destruct Hm as (_ & _ & ? & _); lia). done. }
  eapply wp_mono; [eapply (maybe_add_auto_ok fuel s ts m (proj1 Hm) Hd Hsort Ht)|].
  - eapply Forall_impl; [exact Hh|]. simpl. lia.
  - left. unfold MAX_AUTO_EXTRAS, USE_AUTO_EXTRAS in *. lia.
  - intros [] s' (Ho & Ht' & Hstep). split; [done|]. split; [done|].
    destruct Hstep as [[[?|Hex] ->]|(Hok & _ & _ & l & Hrec & Hpl)]; [done| |].
    { split; [done|]. rewrite decide_False, app_nil_r by (intros [_ ?]; done). done. }
    assert (∀ x, x ∈ a_extras s → folded (token x) ≠ folded m) as Hfresh.
    { intros x Hx. apply Hnew. assert (token x ∈ filter (loaded ts) us) as Hin by (rewrite <- Hp; by apply list_elem_of_fmap_2).
      by apply list_elem_of_filter in Hin as [_ Hin]. }
    destruct Hrec as [i e He Hf|e _ Htok Hhit _|i e _ _ _ Hfull _].
    + exfalso. eapply Hfresh; [by eapply list_elem_of_lookup_2|done].
    + rewrite Hpl. split; [by apply Forall_app; split; [|by apply Forall_singleton]|].
      rewrite fmap_app, Hp, decide_True; [simpl; by rewrite Htok|]. split; [lia|]. intros Hex. apply Hok. by right.
    + exfalso. unfold MAX_AUTO_EXTRAS, USE_AUTO_EXTRAS in *. lia.
Qed.

Lemma wp_load_auto fuel s ts us : never_refuses → dictionary s ts → by_length ts → a_extras s = [] → zlen us ≤ USE_AUTO_EXTRAS →
  (∀ i u, us !! i = Some u → disk s !! auto_name (in_dir s) (Z.of_nat i) = Some (Regular u)) →
  (zlen us < USE_AUTO_EXTRAS → disk s !! auto_name (in_dir s) (zlen us) = None) →
  Forall acceptable us → NoDup (folded <$> us) →
  wp (load_auto fuel) s (λ _ s', auto_only s s' ∧ fresh_table ts us (a_extras s')).
Proof.
  intros Hn Hd Hsort Hempty Hfew Hfiles Hend Hacc Hnd. unfold load_auto.
  pose (I := λ k s', 0 ≤ k ≤ zlen us ∧ auto_only s s' ∧ fresh_table ts (take (Z.to_nat k) us) (a_extras s')).
  apply (wp_loop_until I).
  - split; [lia|]. split; [done|]. rewrite Hempty. split; [split; [constructor|done|constructor]|]. split; [constructor|done].
  - intros k s1 Hk (Hkr & Ho & Hfresh). destruct Ho as [Hex (Hin & Hout & Hdisk)] eqn:Eo. clear Eo. assert (auto_only s s1) as Ho1 by done.
    unfold load_token. apply wp_bind, wp_get. apply wp_bind, wp_dict_request; [done|]. simpl. rewrite Hin, Hdisk.
    destruct (decide (k = zlen us)) as [->|Hlt].
    { rewrite Hend by (unfold USE_AUTO_EXTRAS in *; lia). apply wp_ret. split; [by split|]. by rewrite Nat2Z.id, firstn_all in Hfresh. }
    destruct (lookup_lt_is_Some_2 us (Z.to_nat k)) as [u Hu]; [lia|]. replace k with (Z.of_nat (Z.to_nat k)) at 1 by lia.
    rewrite (Hfiles _ _ Hu). assert (acceptable u) as Hau by (by eapply Forall_lookup in Hacc).
    apply wp_bind, wp_bind, wp_dict_request; [done|]. apply wp_ret. rewrite take_ge by (destruct Hau as (_ & _ & ? & _); lia).
    apply wp_bind. eapply wp_mono; [apply (wp_load_one fuel _ ts (take (Z.to_nat k) us) u)|].
    + eapply dictionary_auto; [|exact Hd]. by split.
    + done.
    + done.
    + rewrite length_take. unfold USE_AUTO_EXTRAS in *. lia.
    + done.
    + intros v Hv Hf. apply list_elem_of_lookup in Hv as [j Hj]. apply lookup_take_Some in Hj as [Hj Hjk].
      assert (j = Z.to_nat k); [|lia]. eapply NoDup_lookup; [exact Hnd|..]; rewrite list_lookup_fmap; [by rewrite Hj|by rewrite Hu, Hf].
    + intros [] s2 [Ho2 Hf2]. apply wp_ret. split; [lia|]. split; [etrans; [exact Ho1|]; by destruct Ho2; split|].
      replace (Z.to_nat (k + 1)) with (S (Z.to_nat k)) by lia. by rewrite (take_S_r _ _ u).
  - intros s1 (Hkr & Ho & Hfresh). split; [done|]. rewrite take_ge in Hfresh by (unfold USE_AUTO_EXTRAS in *; lia). done.
Qed.

(** C20. What [save_auto] writes, [load_auto] reads back in a later session that finds
    these files: its table then holds exactly the 4096 first tokens of the old one,
    unused so far, but for those shorter than three bytes and those the user gave, up to
    case. *)
Theorem auto_extras_roundtrip s :
  never_refuses → table (a_extras s) → auto_changed s = true →
  (∀ i, saved s ≤ i < USE_AUTO_EXTRAS → disk s !! auto_name (saved_dir s) i = None) →
  ∃ s1, save_auto s = Ret (tt, s1) ∧ a_extras s1 = a_extras s ∧ auto_changed s1 = false ∧
    ∀ fuel s2 ts, in_dir s2 = saved_dir s → disk s2 = disk s1 → a_extras s2 = [] → dictionary s2 ts → by_length ts →
      ∃ b s3, load_auto fuel s2 = Ret (b, s3) ∧ auto_only s2 s3 ∧ table (a_extras s3) ∧ Forall (λ e, hit_cnt e = 0) (a_extras s3) ∧
        ∃ us, token <$> a_extras s3 ≡ₚ us ∧ us `sublist_of` (token <$> take (Z.to_nat USE_AUTO_EXTRAS) (a_extras s)) ∧
          ∀ m, m ∈ us ↔ m ∈ token <$> take (Z.to_nat USE_AUTO_EXTRAS) (a_extras s) ∧ loaded ts m.
Proof.
  intros Hn Ht Hc Hnone. destruct (proj1 (wp_Ret _ _ _) (wp_save_auto s Hn Ht Hc)) as ([] & s1 & Hsave & Ha & Hc1 & Hfiles & Hrest).
  exists s1. do 3 (split; [done|]). intros fuel s2 ts Hin Hdisk Hempty Hd Hsort.
  set (top := take (Z.to_nat USE_AUTO_EXTRAS) (a_extras s)).
  assert (zlen top = saved s) as Htop by (unfold top, saved; rewrite length_take; unfold USE_AUTO_EXTRAS; lia).
  assert (saved s ≤ USE_AUTO_EXTRAS) as Hsv by (unfold saved; lia). destruct Ht as [Hall _ Hdist].
  destruct (proj1 (wp_Ret _ _ _) (wp_load_auto fuel s2 ts (token <$> top) Hn Hd Hsort Hempty ltac:(rewrite length_fmap; lia)
    ltac:(intros i u Hu; rewrite list_lookup_fmap in Hu; apply fmap_Some in Hu as (e & He & ->); apply lookup_take_Some in He as [He Hi];
          rewrite Hin, Hdisk; apply Hfiles; [unfold USE_AUTO_EXTRAS in *; lia|done])
    ltac:(rewrite length_fmap, Htop; intros Hlt; rewrite Hin, Hdisk, Hrest; [apply Hnone; unfold saved, USE_AUTO_EXTRAS in *; lia|];
          intros i Hi Heq; apply auto_name_inj in Heq; unfold saved, USE_AUTO_EXTRAS in *; lia)
    ltac:(apply Forall_fmap, Forall_take; eapply Forall_impl; [exact Hall|]; by intros e (_ & _ & _ & ?))
    ltac:(unfold top; rewrite <- list_fmap_compose, fmap_take; pose proof Hdist as Hx;
          rewrite <- (take_drop (Z.to_nat USE_AUTO_EXTRAS) (_ <$> a_extras s)) in Hx; by apply NoDup_app in Hx as [? _])))
    as (b & s3 & Hload & Ho & Ht3 & Hh & Hp).
  exists b, s3. do 4 (split; [done|]). exists (filter (loaded ts) (token <$> top)). split; [done|]. split.
  - apply (filter_sublist (loaded ts)).
  - intros m. rewrite list_elem_of_filter. tauto.
Qed.
End Files.

(** ** Witnesses *)

Lemma maybe_add_auto_correct_witness :
  dictionary sample_dict sample_tokens ∧
  ∃ s', maybe_add_auto (H := obliging) 0 [1; 2; 3] 3 sample_dict = Ret (tt, s') ∧ auto_only sample_dict s' ∧ table (a_extras s') ∧
    (refused sample_tokens [1; 2; 3] ∧ s' = sample_dict ∨
     ¬ refused sample_tokens [1; 2; 3] ∧ auto_changed s' = true ∧ used_first (a_extras s') ∧
     ∃ l, recorded [1; 2; 3] [] l ∧ a_extras s' ≡ₚ l).
Proof.
  split; [exact sample_dictionary|].
  apply (maybe_add_auto_correct (H := obliging) 0 sample_dict sample_tokens [1; 2; 3]).
  - by repeat constructor.
  - exact sample_dictionary.
  - exact sample_by_length.
  - split; [constructor|by vm_compute|constructor].
  - constructor.
  - left. by vm_compute.
Defined.

(** A table with the tokens [1 2 3] and [1 2], and the session that finds it saved. *)
Definition sample_table : list auto_extra_data :=
  [AutoExtra ([1; 2; 3] ++ replicate 29 0) 3 4; AutoExtra ([1; 2] ++ replicate 30 0) 2 0].

Definition sample_session : dict := Dict None 0 0 sample_table true ∅ (1, 2) 5 true "in" "out" ∅ 1.

Lemma not_uniform a b m : a ≠ b → ¬ uniform (a :: b :: m).
Proof. intros Hab (c & _ & Heq). simplify_eq/=. Qed.

Lemma sample_table_ok : table sample_table.
Proof.
  split.
  - apply (Forall_cons_2 auto_ok); [|apply (Forall_cons_2 auto_ok); [|constructor]];
      (split; [done|]; split; [by vm_compute|]; split; [by vm_compute|]; apply acceptable_spec;
       split; [by repeat constructor|]; split; [by apply not_uniform|by vm_compute]).
  - by vm_compute.
  - apply (bool_decide_unpack _). vm_compute. done.
Qed.

Lemma auto_extras_roundtrip_witness :
  table sample_table ∧
  ∃ s1, save_auto (H := obliging) sample_session = Ret (tt, s1) ∧
    ∀ fuel, let s2 := Dict None 0 0 [] false ∅ (1, 2) 5 true "out/queue" "out" (disk s1) 1 in
      ∃ b s3, load_auto (H := obliging) fuel s2 = Ret (b, s3) ∧ token <$> a_extras s3 ≡ₚ [[1; 2; 3]].
Proof.
  split; [exact sample_table_ok|].
  destruct (auto_extras_roundtrip (H := obliging) sample_session (λ _, eq_refl) sample_table_ok eq_refl (λ _ _, eq_refl))
    as (s1 & Hsave & _ & _ & Hload). exists s1. split; [exact Hsave|]. intros fuel s2.
  assert (dictionary s2 []) as Hd by (exists []; split; [by right|done|constructor|constructor|done]).
  destruct (Hload fuel s2 [] eq_refl eq_refl eq_refl Hd ltac:(constructor)) as (b & s3 & Hrun & _ & Ht & _ & us & Hp & Hsub & Hmem).
  exists b, s3. split; [exact Hrun|]. rewrite Hp.
  assert (∀ m, m ∈ us ↔ m = [1; 2; 3]) as Hus.
  { intros m. rewrite Hmem. change (token <$> take _ _) with [[1; 2; 3]; [1; 2]]. unfold loaded, MIN_AUTO_EXTRA. split.
    - intros [[->|[->|[]%elem_of_nil]%elem_of_cons]%elem_of_cons [Hl _]]; [done|by vm_compute in Hl].
    - intros ->. split; [by left|]. split; [by vm_compute|]. by intros ?%Exists_nil. }
  apply NoDup_Permutation.
  - pose proof (tb_distinct _ Ht) as Hnd. rewrite (list_fmap_compose token folded) in Hnd. apply NoDup_fmap_1 in Hnd. by rewrite <- Hp.
  - repeat constructor; set_solver.
  - intros m. rewrite Hus. set_solver.
Defined.
