(* ===== verification/AflHavoc.v ===== *)
(** * AflHavoc: the random stages of [fuzz_one_original],
    AFLplusplus/src/afl-fuzz-one.c

    Stacked random changes of the input, with blocks of itself, tokens of the
    dictionary and parts of other test cases, and the splicing of two test cases.  The
    random source is the interface [Random]; a run of the target is [Runner].  Custom
    mutators that take part in the stacking are left out: the Grammar-Mutator does
    not. *)

From S2P Require Import Prelude Utils AflBitmap AflQueue AflDet AflDict.

(** ** State *)

Definition HAVOC_BLK_SMALL : Z := 32.
Definition HAVOC_BLK_MEDIUM : Z := 128.
Definition HAVOC_BLK_LARGE : Z := 1500.
Definition HAVOC_BLK_XL : Z := 32768.
Definition MAX_FILE : Z := 1 * 1024 * 1024.
Definition MAX_HAVOC_ENTRY : Z := 64.
Definition MUTATE_ASCII_DICT : Z := 64.

(** A buffer of [afl_realloc]: the bytes it has room for, or NULL. *)
Abbreviation afl_buf := (option (list Z)).

(** [tokens] is the dictionary; [out_buf] is also [afl->out_buf]. *)
Record havoc (R : Type) := Havoc {
  gen : R;
  tokens : dict;
  out_buf : afl_buf;
  out_scratch : afl_buf;
  temp_len : Z }.
Arguments Havoc {R}.
Arguments gen {R} h.
Arguments tokens {R} h.
Arguments out_buf {R} h.
Arguments out_scratch {R} h.
Arguments temp_len {R} h.

(** What the stage only reads: [ascii] is [cmplog_binary && queue_cur->is_ascii],
    [queue] the contents of the test cases in the queue. *)
Record setup := Setup {
  queue_cycle : Z;
  run_over10m : bool;
  ascii : bool;
  queue : list (list Z);
  current_entry : Z }.

Section Havoc.
Context {R : Type} `{!Random R, !Host, !Runner} (st : setup).

Definition set_gen (g : R) (s : havoc R) : havoc R := Havoc g (tokens s) (out_buf s) (out_scratch s) (temp_len s).
Definition set_tokens (d : dict) (s : havoc R) : havoc R := Havoc (gen s) d (out_buf s) (out_scratch s) (temp_len s).
Definition set_out (b : afl_buf) (s : havoc R) : havoc R := Havoc (gen s) (tokens s) b (out_scratch s) (temp_len s).
Definition set_scratch (b : afl_buf) (s : havoc R) : havoc R := Havoc (gen s) (tokens s) (out_buf s) b (temp_len s).
Definition set_temp_len (n : Z) (s : havoc R) : havoc R := Havoc (gen s) (tokens s) (out_buf s) (out_scratch s) n.

Definition hupd (f : havoc R → havoc R) : M (havoc R) unit := s ← get_state; put_state (f s).

(** An operation on the dictionary. *)
Definition in_dict {A} (m : M dict A) : M (havoc R) A := λ s,
  match m (tokens s) with
  | Ret (a, d) => Ret (a, set_tokens d s)
  | Fault e => Fault e
  | NoFuel => NoFuel
  end.

(** The limit is a 32-bit argument. *)
Definition rand_below (limit : Z) : M (havoc R) Z :=
  s ← get_state;
  let '(r, g) := below (u32 limit) (gen s) in
  _ ← put_state (set_gen g s);
  mret r.

(** ** Buffers *)

(** [afl_realloc] on a buffer; without the memory the process ends. *)
Definition afl_grow (b : afl_buf) (size_needed : Z) : M (havoc R) (list Z) :=
  let current_size := match b with Some l => zlen l + AFL_ALLOC_SIZE_OFFSET | None => 0 end in
  let size_needed := u64 (size_needed + AFL_ALLOC_SIZE_OFFSET) in
  if decide (size_needed ≤ current_size) then mret (default [] b) else
  let next_size :=
    if decide (size_needed < INITIAL_GROWTH_SIZE) then INITIAL_GROWTH_SIZE else
    if decide (AflQueue.next_pow2 size_needed = 0) then size_needed else AflQueue.next_pow2 size_needed in
  ok ← in_dict request;
  if negb ok then fail ProcessExit else
  let old := default [] b in
  mret (old ++ (heap_byte <$> seq (length old) (Z.to_nat (next_size - AFL_ALLOC_SIZE_OFFSET) - length old))).

(** [n] bytes of [l] from [off], and [bs] over the bytes of [l] from [off]. *)
Definition slice (l : list Z) (off n : Z) : M (havoc R) (list Z) :=
  if decide (0 ≤ off ∧ 0 ≤ n ∧ off + n ≤ zlen l) then mret (take (Z.to_nat n) (drop (Z.to_nat off) l)) else fail OutOfBounds.

Definition patch (l : list Z) (off : Z) (bs : list Z) : list Z :=
  take (Z.to_nat off) l ++ bs ++ drop (Z.to_nat off + length bs) l.

Definition blit (l : list Z) (off : Z) (bs : list Z) : M (havoc R) (list Z) :=
  if decide (0 ≤ off ∧ off + zlen bs ≤ zlen l) then mret (patch l off bs) else fail OutOfBounds.

(** The bytes of [out_buf]. *)
Definition out_block : M (havoc R) (list Z) :=
  s ← get_state; match out_buf s with Some l => mret l | None => fail NullDeref end.

(** A read of [n] bytes at [out_buf + off], and a write. *)
Definition read_out (off n : Z) : M (havoc R) (list Z) := l ← out_block; slice l off n.
Definition write_out (off : Z) (bs : list Z) : M (havoc R) unit :=
  l ← out_block; l ← blit l off bs; hupd (set_out (Some l)).

(** [new_buf] becomes [out_buf], which becomes the scratch buffer. *)
Definition swap_in (new_buf : list Z) (len : Z) : M (havoc R) unit :=
  hupd (λ s, set_temp_len (u32 len) (set_out (Some new_buf) (set_scratch (out_buf s) s))).

(** ** The length of a block *)

Definition choose_block_len (limit : Z) : M (havoc R) Z :=
  let rlim := if run_over10m st then Z.min (queue_cycle st) 3 else 1 in
  c ← rand_below rlim;
  '(min_value, max_value) ← (
    if decide (c = 0) then mret (1, HAVOC_BLK_SMALL) else
    if decide (c = 1) then mret (HAVOC_BLK_SMALL, HAVOC_BLK_MEDIUM) else
    d ← rand_below 10;
    mret (if decide (d ≠ 0) then (HAVOC_BLK_MEDIUM, HAVOC_BLK_LARGE) else (HAVOC_BLK_LARGE, HAVOC_BLK_XL)));
  let min_value := if decide (limit ≤ min_value) then 1 else min_value in
  r ← rand_below (Z.min max_value limit - min_value + 1);
  mret (u32 (min_value + r)).

(** ** Changes in place

    Where C leaves the order of two random draws open, the position comes first. *)

(** [v] in [w] bytes in the byte order of the host, or swapped. *)
Definition swap_bytes (w : nat) (be : bool) (v : Z) : Z :=
  if be then (if decide (w = 2%nat) then SWAP16 v else SWAP32 v) else v.

(** [FLIP_BIT(out_buf, rand_below(temp_len << 3))] *)
Definition havoc_flip_bit : M (havoc R) unit :=
  s ← get_state;
  b ← rand_below (Z.shiftl (temp_len s) 3);
  bs ← read_out (Z.shiftr b 3) 1;
  write_out (Z.shiftr b 3) ((λ v, Z.lxor v (Z.shiftr 128 (Z.land b 7))) <$> bs).

(** A change [f] of a random byte, with a random operand below [limit]. *)
Definition havoc_byte (limit : Z) (f : Z → Z → Z) : M (havoc R) unit :=
  s ← get_state;
  pos ← rand_below (temp_len s);
  x ← (if decide (0 < limit) then rand_below limit else mret 0);
  bs ← read_out pos 1;
  write_out pos ((λ v, u8 (f v x)) <$> bs).

(** An interesting value in one byte, or in [w] bytes. *)
Definition havoc_interesting8 : M (havoc R) unit :=
  havoc_byte (zlen interesting_8) (λ _ k, nth (Z.to_nat k) interesting_8 0).

Definition havoc_interesting (w : nat) (be : bool) (vs : list Z) : M (havoc R) unit :=
  s ← get_state;
  if decide (temp_len s < Z.of_nat w) then mret tt else
  pos ← rand_below (temp_len s - (Z.of_nat w - 1));
  k ← rand_below (zlen vs);
  write_out pos (le_bytes w (swap_bytes w be (wrap (8 * Z.of_nat w) (nth (Z.to_nat k) vs 0)))).

(** A small number added to [w] bytes, or subtracted. *)
Definition havoc_arith (w : nat) (be sub : bool) : M (havoc R) unit :=
  s ← get_state;
  if decide (temp_len s < Z.of_nat w) then mret tt else
  pos ← rand_below (temp_len s - (Z.of_nat w - 1));
  r ← rand_below ARITH_MAX;
  bs ← read_out pos (Z.of_nat w);
  let v := swap_bytes w be (le_value bs) in
  let v := wrap (8 * Z.of_nat w) (if sub then v - (1 + r) else v + (1 + r)) in
  write_out pos (le_bytes w (swap_bytes w be v)).

(** ** Blocks *)

(** The block [part] of [clone_len] bytes inserted at [clone_to], in a new buffer. *)
Definition insert_block (room : Z) (clone_to : Z) (part : list Z) : M (havoc R) unit :=
  s ← get_state;
  new_buf ← afl_grow (out_scratch s) (temp_len s + room);
  head ← read_out 0 clone_to;
  new_buf ← blit new_buf 0 head;
  new_buf ← blit new_buf clone_to part;
  tail ← read_out clone_to (u32 (temp_len s - clone_to));
  new_buf ← blit new_buf (clone_to + zlen part) tail;
  swap_in new_buf (temp_len s + zlen part).

Definition havoc_clone : M (havoc R) unit :=
  s ← get_state;
  if decide (MAX_FILE ≤ temp_len s + HAVOC_BLK_XL) then mret tt else
  clone_len ← choose_block_len (temp_len s);
  clone_from ← rand_below (temp_len s - clone_len + 1);
  clone_to ← rand_below (temp_len s);
  part ← read_out clone_from clone_len;
  insert_block clone_len clone_to part.

(** [rand_below(2) ? rand_below(256) : out_buf[rand_below(temp_len)]] *)
Definition random_filler : M (havoc R) Z :=
  s ← get_state;
  c ← rand_below 2;
  if decide (c ≠ 0) then rand_below 256 else
  pos ← rand_below (temp_len s);
  bs ← read_out pos 1;
  mret (hd 0 bs).

Definition havoc_insert : M (havoc R) unit :=
  s ← get_state;
  if decide (MAX_FILE ≤ temp_len s + HAVOC_BLK_XL) then mret tt else
  clone_len ← choose_block_len HAVOC_BLK_XL;
  clone_to ← rand_below (temp_len s);
  c ← random_filler;
  insert_block clone_len clone_to (replicate (Z.to_nat clone_len) c).

Definition havoc_overwrite_copy : M (havoc R) unit :=
  s ← get_state;
  if decide (temp_len s < 2) then mret tt else
  copy_len ← choose_block_len (temp_len s - 1);
  copy_from ← rand_below (temp_len s - copy_len + 1);
  copy_to ← rand_below (temp_len s - copy_len + 1);
  if decide (copy_from ≠ copy_to) then bs ← read_out copy_from copy_len; write_out copy_to bs else mret tt.

Definition havoc_overwrite_fixed : M (havoc R) unit :=
  s ← get_state;
  if decide (temp_len s < 2) then mret tt else
  copy_len ← choose_block_len (temp_len s - 1);
  copy_to ← rand_below (temp_len s - copy_len + 1);
  c ← random_filler;
  write_out copy_to (replicate (Z.to_nat copy_len) c).

(** [do switch_to = rand_below(temp_len) while (switch_from == switch_to)] *)
Fixpoint other_position (fuel : nat) (switch_from : Z) : M (havoc R) Z :=
  match fuel with
  | O => out_of_fuel
  | S fuel =>
      s ← get_state;
      switch_to ← rand_below (temp_len s);
      if decide (switch_from = switch_to) then other_position fuel switch_from else mret switch_to
  end.

(** Two [memcpy]s exchange the blocks; a [memcpy] of overlapping blocks is undefined. *)
Definition havoc_switch (fuel : nat) : M (havoc R) unit :=
  s ← get_state;
  if decide (temp_len s < 4) then mret tt else
  switch_from ← rand_below (temp_len s);
  switch_to ← other_position fuel switch_from;
  let '(switch_len, to_end) :=
    if decide (switch_from < switch_to) then (switch_to - switch_from, temp_len s - switch_to)
    else (switch_from - switch_to, temp_len s - switch_from) in
  switch_len ← choose_block_len (Z.min switch_len to_end);
  new_buf ← afl_grow (out_scratch s) switch_len;
  _ ← hupd (set_scratch (Some new_buf));
  backup ← read_out switch_from switch_len;
  new_buf ← blit new_buf 0 backup;
  _ ← hupd (set_scratch (Some new_buf));
  if decide (Z.abs (switch_from - switch_to) < switch_len) then fail OutOfBounds else
  bs ← read_out switch_to switch_len;
  _ ← write_out switch_from bs;
  backup ← slice new_buf 0 switch_len;
  write_out switch_to backup.

Definition havoc_delete : M (havoc R) unit :=
  s ← get_state;
  if decide (temp_len s < 2) then mret tt else
  del_len ← choose_block_len (temp_len s - 1);
  del_from ← rand_below (temp_len s - del_len + 1);
  bs ← read_out (del_from + del_len) (u32 (temp_len s - del_from - del_len));
  _ ← write_out del_from bs;
  hupd (λ s, set_temp_len (u32 (temp_len s - del_len)) s).

(** ** Tokens of the dictionary *)

(** The token [token] of [extra_len] bytes over a random place, or inserted at one. *)
Definition token_overwrite (extra_len : Z) (token : M (havoc R) (list Z)) : M (havoc R) unit :=
  s ← get_state;
  if decide (temp_len s < extra_len) then mret tt else
  insert_at ← rand_below (temp_len s - extra_len + 1);
  bs ← token;
  write_out insert_at bs.

Definition token_insert (extra_len : Z) (token : M (havoc R) (list Z)) : M (havoc R) unit :=
  s ← get_state;
  if decide (MAX_FILE ≤ temp_len s + extra_len) then mret tt else
  insert_at ← rand_below (temp_len s + 1);
  block ← afl_grow (out_buf s) (temp_len s + extra_len);
  _ ← hupd (set_out (Some block));
  tail ← read_out insert_at (u32 (temp_len s - insert_at));
  _ ← write_out (insert_at + extra_len) tail;
  bs ← token;
  _ ← write_out insert_at bs;
  hupd (λ s, set_temp_len (u32 (temp_len s + extra_len)) s).

(** A random token: its length, and how it is read. *)
Definition random_extra : M (havoc R) (Z * M (havoc R) (list Z)) :=
  s ← get_state;
  use_extra ← rand_below (extras_cnt (tokens s));
  e ← in_dict (extra_at use_extra);
  mret (len e, in_dict (read_block (data e) (len e))).

Definition random_a_extra : M (havoc R) (Z * M (havoc R) (list Z)) :=
  s ← get_state;
  use_extra ← rand_below (zlen (a_extras (tokens s)));
  match a_extras (tokens s) !! Z.to_nat use_extra with
  | None => fail OutOfBounds
  | Some e => mret (a_extra_len e, slice (a_data e) 0 (a_extra_len e))
  end.

(** ** Other test cases *)

(** Another entry of the queue that is long enough. *)
Fixpoint splice_target (fuel : nat) : M (havoc R) (list Z) :=
  match fuel with
  | O => out_of_fuel
  | S fuel =>
      tid ← rand_below (zlen (queue st));
      match queue st !! Z.to_nat tid with
      | None => fail OutOfBounds
      | Some new_buf => if decide (tid = current_entry st ∨ zlen new_buf < 4) then splice_target fuel else mret new_buf
      end
  end.

Definition splice_overwrite (new_buf : list Z) : M (havoc R) unit :=
  s ← get_state;
  copy_len ← choose_block_len (zlen new_buf - 1);
  let copy_len := if decide (temp_len s < copy_len) then temp_len s else copy_len in
  copy_from ← rand_below (zlen new_buf - copy_len + 1);
  copy_to ← rand_below (temp_len s - copy_len + 1);
  bs ← slice new_buf copy_from copy_len;
  write_out copy_to bs.

Definition splice_insert (new_buf : list Z) : M (havoc R) unit :=
  s ← get_state;
  clone_len ← choose_block_len (zlen new_buf);
  clone_from ← rand_below (zlen new_buf - clone_len + 1);
  clone_to ← rand_below (temp_len s + 1);
  part ← slice new_buf clone_from clone_len;
  insert_block (clone_len + 1) clone_to part.

Definition havoc_splice (fuel : nat) (r : Z) : M (havoc R) unit :=
  new_buf ← splice_target fuel;
  s ← get_state;
  if decide ((2 ≤ temp_len s ∧ r `mod` 2 ≠ 0) ∨ MAX_FILE ≤ temp_len s + HAVOC_BLK_XL) then splice_overwrite new_buf
  else splice_insert new_buf.

(** ** One change *)

(** The default case of the switch. *)
Definition havoc_default (fuel : nat) (r : Z) : M (havoc R) unit :=
  s ← get_state;
  let has_extras := bool_decide (extras_cnt (tokens s) ≠ 0) in
  let has_auto := bool_decide (a_extras (tokens s) ≠ []) in
  if has_extras && bool_decide (r < 2) then '(n, token) ← random_extra; token_overwrite n token else
  if has_extras && bool_decide (r < 4) then '(n, token) ← random_extra; token_insert n token else
  let r := if has_extras then r - 4 else r in
  let r_cmp := if ascii st then Z.shiftr MUTATE_ASCII_DICT 1 else 2 in
  if has_auto && bool_decide (r < r_cmp) then '(n, token) ← random_a_extra; token_overwrite n token else
  if has_auto && bool_decide (r < Z.shiftl r_cmp 1) then '(n, token) ← random_a_extra; token_insert n token else
  havoc_splice fuel (if has_auto then r - Z.shiftl r_cmp 1 else r).

Definition havoc_mutation (fuel : nat) (r : Z) : M (havoc R) unit :=
  if decide (r ≤ 3) then havoc_flip_bit else
  if decide (r ≤ 7) then havoc_interesting8 else
  if decide (r ≤ 9) then havoc_interesting 2 false interesting_16 else
  if decide (r ≤ 11) then havoc_interesting 2 true interesting_16 else
  if decide (r ≤ 13) then havoc_interesting 4 false interesting_32 else
  if decide (r ≤ 15) then havoc_interesting 4 true interesting_32 else
  if decide (r ≤ 19) then havoc_byte ARITH_MAX (λ v x, v - (1 + x)) else
  if decide (r ≤ 23) then havoc_byte ARITH_MAX (λ v x, v + (1 + x)) else
  if decide (r ≤ 25) then havoc_arith 2 false true else
  if decide (r ≤ 27) then havoc_arith 2 true true else
  if decide (r ≤ 29) then havoc_arith 2 false false else
  if decide (r ≤ 31) then havoc_arith 2 true false else
  if decide (r ≤ 33) then havoc_arith 4 false true else
  if decide (r ≤ 35) then havoc_arith 4 true true else
  if decide (r ≤ 37) then havoc_arith 4 false false else
  if decide (r ≤ 39) then havoc_arith 4 true false else
  if decide (r ≤ 43) then havoc_byte 255 (λ v x, Z.lxor v (1 + x)) else
  if decide (r ≤ 46) then havoc_clone else
  if decide (r ≤ 47) then havoc_insert else
  if decide (r ≤ 50) then havoc_overwrite_copy else
  if decide (r ≤ 51) then havoc_overwrite_fixed else
  if decide (r ≤ 52) then havoc_byte 0 (λ v _, v + 1) else
  if decide (r ≤ 53) then havoc_byte 0 (λ v _, v - 1) else
  if decide (r ≤ 54) then havoc_byte 0 (λ v _, Z.lxor v 0xff) else
  if decide (r ≤ 56) then havoc_switch fuel else
  if decide (r ≤ MAX_HAVOC_ENTRY) then havoc_delete else
  havoc_default fuel (r - (MAX_HAVOC_ENTRY + 1)).
End Havoc.
