(* ===== verification/AflHavocSpec.v ===== *)
(** * AflHavocSpec: what one random change does to the input

    [tweak] is the specification of a change of the havoc stage, on the input alone;
    every case of the switch implements it within the bounds of its buffers. *)

From S2P Require Import Prelude Buffer Utils AflBitmap AflQueue AflDet AflDict AflDictSpec AflDictAuto AflHavoc.

(** ** The specification *)

Section Tweaks.
Context (ts others : list (list Z)).

(** Where the bytes come from that a change puts into the input [c]: one, two or four new
    bytes, a part of the input or of another test case, one byte repeated, a token. *)
Inductive source (c : list Z) : list Z → Prop :=
| few_bytes bs : zlen bs = 1 ∨ zlen bs = 2 ∨ zlen bs = 4 → source c bs
| own_part i n : source c (take n (drop i c))
| filler n x : source c (replicate n x)
| dictionary_token t : t ∈ ts → source c t
| other_part o i n : o ∈ others → source c (take n (drop i o)).

Inductive tweak (c : list Z) : list Z → Prop :=
| tweak_none : tweak c c
| tweak_overwrite i bs : 0 ≤ i → i + zlen bs ≤ zlen c → source c bs → tweak c (patch c i bs)
| tweak_insert i bs : (i ≤ length c)%nat → source c bs → tweak c (take i c ++ bs ++ drop i c)
| tweak_delete i n : (0 < n < length c)%nat → (i + n ≤ length c)%nat → tweak c (take i c ++ drop (i + n) c)
| tweak_switch i j n : (i + n ≤ j ∨ j + n ≤ i)%nat → (i + n ≤ length c)%nat → (j + n ≤ length c)%nat →
    tweak c (patch (patch c (Z.of_nat i) (take n (drop j c))) (Z.of_nat j) (take n (drop i c))).
End Tweaks.

Lemma tweak_mono ts os os' c x : (∀ o, o ∈ os → o ∈ os') → tweak ts os c x → tweak ts os' c x.
Proof.
  assert (∀ bs, (∀ o, o ∈ os → o ∈ os') → source ts os c bs → source ts os' c bs) as Hsrc by (intros bs Ho []; econstructor; eauto).
  intros Ho []; econstructor; eauto.
Qed.

(** ** Bytes of a prefix *)

Lemma length_patch l i bs : 0 ≤ i → i + zlen bs ≤ zlen l → length (patch l i bs) = length l.
Proof. intros. unfold patch. rewrite !length_app, length_take, length_drop. lia. Qed.

Lemma patch_app c rest i bs : 0 ≤ i → i + zlen bs ≤ zlen c → patch (c ++ rest) i bs = patch c i bs ++ rest.
Proof.
  intros. unfold patch. rewrite take_app_le, drop_app_le by lia. by rewrite <- !app_assoc.
Qed.

Lemma slice_app (c rest : list Z) i n : (i + n ≤ length c)%nat → take n (drop i (c ++ rest)) = take n (drop i c).
Proof. intros. rewrite drop_app_le by lia. rewrite take_app_le by (rewrite length_drop; lia). done. Qed.

Lemma patch_app_r l1 l2 i bs : zlen l1 ≤ i → patch (l1 ++ l2) i bs = l1 ++ patch l2 (i - zlen l1) bs.
Proof.
  intros. unfold patch. rewrite take_app_ge, drop_app_ge by lia. rewrite <- app_assoc. repeat f_equal; lia.
Qed.

Lemma patch_start l bs : patch l 0 bs = bs ++ drop (length bs) l.
Proof. done. Qed.

(** ** States *)

Create HintDb havoc.

Section Spec.
Context {R : Type} `{!Random R, !Host, !Runner} (st : setup) (ts : list (list Z)) (d0 : dict).

(** The dictionary [d0] is well formed and [ts] are its tokens. *)
Definition tokens_ok : Prop :=
  table (a_extras d0) ∧ ∃ us, dictionary d0 us ∧ zlen us < 2 ^ 28 ∧ ts = us ++ (token <$> a_extras d0).

(** The input is [c], at the start of the buffer, and the dictionary is [d0]. *)
Record holds (s : havoc R) (c : list Z) : Prop := {
  ho_out : ∃ rest, AflHavoc.out_buf s = Some (c ++ rest);
  ho_len : temp_len s = zlen c;
  ho_size : 1 ≤ zlen c ≤ MAX_FILE;
  ho_tokens : ∃ q, tokens s = AflDict.set_requests q d0 }.

Lemma holds_gen g s c : holds s c → holds (set_gen g s) c.
Proof. intros [? ? ? ?]. by split. Qed.

Lemma holds_scratch b s c : holds s c → holds (set_scratch b s) c.
Proof. intros [? ? ? ?]. by split. Qed.

#[local] Hint Resolve holds_gen holds_scratch : havoc.

Lemma holds_set_out s c c' rest : holds s c → length c' = length c → holds (set_out (Some (c' ++ rest)) s) c'.
Proof. intros [? ? ? ?] Hl. split; simpl; [by exists rest|by rewrite Hl|by rewrite Hl|done]. Qed.

(** ** Steps *)

Lemma wp_hupd f (s : havoc R) (Q : unit → havoc R → Prop) : Q tt (f s) → wp (hupd f) s Q.
Proof. done. Qed.

Lemma wp_rand limit (s : havoc R) (Q : Z → havoc R → Prop) : 0 < limit < 2 ^ 32 →
  (∀ r g, 0 ≤ r < limit → Q r (set_gen g s)) → wp (AflHavoc.rand_below limit) s Q.
Proof.
  intros Hl HQ. unfold AflHavoc.rand_below. apply wp_bind, wp_get. rewrite wrap_small by lia.
  pose proof (below_range limit (gen s)) as (H1 & H2 & H3). destruct (below limit (gen s)) as [r g]. simpl in *.
  apply wp_bind, wp_put. apply wp_ret. apply HQ. destruct (decide (1 < limit)); lia.
Qed.

Lemma wp_read_out s c off n (Q : list Z → havoc R → Prop) : holds s c → 0 ≤ off → 0 ≤ n → off + n ≤ zlen c →
  (∀ bs, bs = take (Z.to_nat n) (drop (Z.to_nat off) c) → zlen bs = n → Q bs s) → wp (read_out off n) s Q.
Proof.
  intros [[rest Ho] _ _ _] H1 H2 H3 HQ. unfold read_out, out_block. apply wp_bind, wp_bind, wp_get. rewrite Ho. apply wp_ret.
  unfold slice. rewrite decide_True by (rewrite length_app; lia). apply wp_ret. rewrite slice_app by lia.
  apply HQ; [done|]. rewrite length_take, length_drop. lia.
Qed.

Lemma wp_write_out s c off bs (Q : unit → havoc R → Prop) : holds s c → 0 ≤ off → off + zlen bs ≤ zlen c →
  (∀ s', holds s' (patch c off bs) → Q tt s') → wp (write_out off bs) s Q.
Proof.
  intros Hs H1 H2 HQ. pose proof Hs as [[rest Ho] _ _ _]. unfold write_out, out_block. apply wp_bind, wp_bind, wp_get. rewrite Ho. apply wp_ret.
  unfold blit. rewrite decide_True by (rewrite length_app; lia). apply wp_bind, wp_ret, wp_hupd.
  rewrite patch_app by done. apply HQ. eapply holds_set_out; [exact Hs|]. by apply length_patch.
Qed.

(** A change that overwrites. *)
Lemma wp_overwrite s c off bs : holds s c → 0 ≤ off → off + zlen bs ≤ zlen c → source ts (queue st) c bs →
  wp (write_out off bs) s (λ _ s', ∃ c', holds s' c' ∧ tweak ts (queue st) c c').
Proof. intros Hs H1 H2 Hsrc. eapply wp_write_out; [done..|]. intros s' Hs'. eexists. split; [exact Hs'|by constructor]. Qed.

Lemma wp_rand0 limit (s : havoc R) (Q : Z → havoc R → Prop) : 0 ≤ limit < 2 ^ 32 →
  (∀ r g, 0 ≤ r → Q r (set_gen g s)) → wp (AflHavoc.rand_below limit) s Q.
Proof.
  intros Hl HQ. unfold AflHavoc.rand_below. apply wp_bind, wp_get. rewrite wrap_small by lia.
  pose proof (below_range limit (gen s)) as (H1 & _). destruct (below limit (gen s)) as [r g]. simpl in *.
  apply wp_bind, wp_put. apply wp_ret. by apply HQ.
Qed.

(** A block is never empty and no longer than the limit. *)
Lemma wp_choose limit s (Q : Z → havoc R → Prop) : 0 ≤ queue_cycle st → 1 ≤ limit < 2 ^ 31 →
  (∀ n g, 1 ≤ n ≤ limit → n ≤ HAVOC_BLK_XL → Q n (set_gen g s)) → wp (choose_block_len st limit) s Q.
Proof.
  intros Hc Hl HQ. unfold choose_block_len. apply wp_bind, wp_rand0; [case_match; lia|]. intros c g _.
  assert (∀ lo hi g', 1 ≤ lo ≤ hi → hi ≤ HAVOC_BLK_XL →
    wp (r ← AflHavoc.rand_below (Z.min hi limit - (if decide (limit ≤ lo) then 1 else lo) + 1);
        mret (u32 ((if decide (limit ≤ lo) then 1 else lo) + r))) (set_gen g' s) Q) as Hlast.
  { intros lo hi g' Hlo Hhi. unfold HAVOC_BLK_XL in *. apply wp_bind. case_decide; (apply wp_rand; [lia|]); intros r g2 Hr;
      apply wp_ret; rewrite wrap_small by lia; apply HQ; unfold HAVOC_BLK_XL; lia. }
  apply wp_bind. case_decide; [apply wp_ret, Hlast; unfold HAVOC_BLK_SMALL, HAVOC_BLK_XL; lia|].
  case_decide; [apply wp_ret, Hlast; unfold HAVOC_BLK_SMALL, HAVOC_BLK_MEDIUM, HAVOC_BLK_XL; lia|].
  apply wp_bind, wp_rand; [lia|]. intros d g2 _. apply wp_ret.
  case_decide; apply Hlast; unfold HAVOC_BLK_MEDIUM, HAVOC_BLK_LARGE, HAVOC_BLK_XL; lia.
Qed.

(** What an allocation leaves as it was. *)
Record same_input (s s' : havoc R) : Prop := {
  si_out : AflHavoc.out_buf s' = AflHavoc.out_buf s;
  si_len : temp_len s' = temp_len s;
  si_tokens : ∃ q, tokens s' = AflDict.set_requests q (tokens s) }.

Lemma holds_same s s' c : same_input s s' → holds s c → holds s' c.
Proof. intros [Ho Hl [q Ht]] [? ? ? [q' Hq]]. split; [by rewrite Ho|by rewrite Hl|done|]. exists q. by rewrite Ht, Hq. Qed.

Lemma next_pow2_above n : 1 ≤ n ≤ 2 ^ 32 → n ≤ AflQueue.next_pow2 n < 2 * n.
Proof.
  intros Hn. assert (AflQueue.next_pow2 n = Buffer.next_pow2 n) as ->; [|by apply next_pow2_correct].
  unfold AflQueue.next_pow2, Buffer.next_pow2. rewrite decide_False by lia. unfold wrap. rewrite (Z.mod_small (n - 1)) by lia. done.
Qed.

Lemma wp_afl_grow b size s (Q : list Z → havoc R → Prop) : never_refuses → 0 < size < 2 ^ 31 →
  (∀ l s', size ≤ zlen l → (∃ rest, l = default [] b ++ rest) → same_input s s' → out_scratch s' = out_scratch s → Q l s') →
  wp (afl_grow b size) s Q.
Proof.
  intros Hn Hsize HQ. unfold afl_grow, AFL_ALLOC_SIZE_OFFSET, AflDict.INITIAL_GROWTH_SIZE. rewrite wrap_small by lia.
  case_decide as Hroom.
  - apply wp_ret. apply HQ; [destruct b; simpl in *; lia|exists []; by rewrite app_nil_r|split; [done|done|by exists (AflDict.requests (tokens s)); destruct s as [? [] ? ? ?]]|done].
  - apply wp_bind. unfold in_dict, wp, request, mbind, M_bind, get_state, put_state, mret, M_ret. rewrite Hn. simpl.
    set (n := Z.to_nat _). assert (size ≤ Z.of_nat n) as Hbig.
    { unfold n. pose proof (next_pow2_above (size + 8) ltac:(lia)). repeat case_decide; lia. }
    apply HQ; [|by eexists|split; [done|done|by eexists]|done].
    rewrite length_app, length_fmap, length_seq. lia.
Qed.

(** ** The cases of the switch *)

(** The change [m] implements the specification. *)
Definition changes (m : M (havoc R) unit) : Prop :=
  ∀ s c, holds s c → wp m s (λ _ s', ∃ c', holds s' c' ∧ tweak ts (queue st) c c').

Lemma wp_none s c : holds s c → wp (mret tt) s (λ _ s', ∃ c', holds s' c' ∧ tweak ts (queue st) c c').
Proof. intros Hs. apply wp_ret. exists c. split; [done|constructor]. Qed.

Lemma zlen_le_bytes w : ∀ v, zlen (le_bytes w v) = Z.of_nat w.
Proof. induction w as [|w IH]; intros v; simpl; [done|]. rewrite Nat2Z.inj_succ, IH. lia. Qed.

Lemma zlen_fmap {A B} (f : A → B) l : zlen (f <$> l) = zlen l.
Proof. by rewrite length_fmap. Qed.

(** The length that a case reads is that of the input. *)
Ltac start s c Hs :=
  intros s c Hs; pose proof (ho_size _ _ Hs) as Hsize; unfold MAX_FILE in Hsize;
  apply wp_bind, wp_get; rewrite ?(ho_len _ _ Hs).

Lemma havoc_flip_bit_ok : changes havoc_flip_bit.
Proof.
  start s c Hs. rewrite Z.shiftl_mul_pow2 by lia. change (2 ^ 3) with 8. apply wp_bind, wp_rand; [lia|]. intros b g Hb.
  assert (0 ≤ Z.shiftr b 3 < zlen c) by (rewrite Z.shiftr_div_pow2 by lia; zmod).
  apply wp_bind. apply (wp_read_out _ c); [by auto with havoc|lia..|]. intros bs _ Hbs.
  apply wp_overwrite; [by auto with havoc|lia|rewrite zlen_fmap; lia|]. apply few_bytes. left. by rewrite zlen_fmap.
Qed.

Lemma havoc_byte_ok limit f : 0 ≤ limit < 2 ^ 32 → changes (havoc_byte limit f).
Proof.
  intros Hl. start s c Hs. apply wp_bind, wp_rand; [lia|]. intros pos g Hpos. apply wp_bind.
  assert (∀ x g', wp (bs ← read_out pos 1; write_out pos ((λ v, u8 (f v x)) <$> bs)) (set_gen g' s)
            (λ _ s', ∃ c', holds s' c' ∧ tweak ts (queue st) c c')) as Hput.
  { intros x g'. apply wp_bind. apply (wp_read_out _ c); [by auto with havoc|lia..|]. intros bs _ Hbs.
    apply wp_overwrite; [by auto with havoc|lia|rewrite zlen_fmap; lia|]. apply few_bytes. left. by rewrite zlen_fmap. }
  case_decide; [apply wp_rand; [lia|]; intros x g' _; apply Hput|apply wp_ret, Hput].
Qed.

Lemma havoc_interesting_ok (w : nat) be vs : w = 2%nat ∨ w = 4%nat → 0 < zlen vs < 2 ^ 32 → changes (havoc_interesting w be vs).
Proof.
  intros Hw Hvs. start s c Hs. case_decide; [by apply wp_none|]. apply wp_bind, wp_rand; [lia|]. intros pos g Hpos.
  apply wp_bind, wp_rand; [lia|]. intros k g' _. apply wp_overwrite; [by auto with havoc|lia|rewrite zlen_le_bytes; lia|].
  apply few_bytes. rewrite zlen_le_bytes. lia.
Qed.

Lemma havoc_arith_ok (w : nat) be sub : w = 2%nat ∨ w = 4%nat → changes (havoc_arith w be sub).
Proof.
  intros Hw. start s c Hs. case_decide; [by apply wp_none|]. apply wp_bind, wp_rand; [lia|]. intros pos g Hpos.
  apply wp_bind, wp_rand; [by unfold ARITH_MAX|]. intros r g' _. apply wp_bind. apply (wp_read_out _ c); [by auto with havoc|lia..|].
  intros bs _ _. apply wp_overwrite; [by auto with havoc|lia|rewrite zlen_le_bytes; lia|].
  apply few_bytes. rewrite zlen_le_bytes. lia.
Qed.

(** ** Blocks *)

Lemma wp_blit l off bs s (Q : list Z → havoc R → Prop) : 0 ≤ off → off + zlen bs ≤ zlen l → Q (patch l off bs) s → wp (blit l off bs) s Q.
Proof. intros H1 H2 HQ. unfold blit. rewrite decide_True by done. by apply wp_ret. Qed.

Lemma wp_insert_block s c room (to : Z) part : never_refuses → holds s c → zlen part ≤ room < 2 ^ 30 → 0 ≤ to ≤ zlen c →
  zlen c + zlen part ≤ MAX_FILE → source ts (queue st) c part →
  wp (insert_block room to part) s (λ _ s', ∃ c', holds s' c' ∧ tweak ts (queue st) c c').
Proof.
  intros Hn Hs Hroom Hto Hmax Hsrc. pose proof (ho_size _ _ Hs) as Hsize. unfold MAX_FILE in *. unfold insert_block.
  apply wp_bind, wp_get. rewrite (ho_len _ _ Hs). apply wp_bind, wp_afl_grow; [done|lia|]. intros l s1 Hl _ Hsame _.
  pose proof (holds_same _ _ _ Hsame Hs) as Hs1. apply wp_bind. apply (wp_read_out _ c); [done|lia..|]. intros head -> Hhead.
  apply wp_bind, wp_blit; [lia|lia|]. apply wp_bind, wp_blit; [lia|rewrite length_patch by lia; lia|].
  apply wp_bind. rewrite wrap_small by lia. apply (wp_read_out _ c); [done|lia..|]. intros tail -> Htail.
  apply wp_bind, wp_blit; [lia|rewrite !length_patch by (rewrite ?length_patch by lia; lia); lia|]. unfold swap_in. apply wp_hupd.
  set (i := Z.to_nat to) in *. change (Z.to_nat 0) with 0%nat in *. rewrite drop_0 in *.
  exists (take i c ++ part ++ drop i c). split; [|apply tweak_insert; [lia|done]]. split; simpl.
  - exists (drop (length c + length part) l). f_equal.
    assert (drop i c = take (Z.to_nat (zlen c - to)) (drop i c)) as <-.
    { rewrite take_ge; [done|]. rewrite length_drop. lia. }
    unfold patch at 3. change (Z.to_nat 0) with 0%nat. simpl. rewrite patch_app_r, patch_app_r by lia.
    rewrite Hhead, Z.sub_diag. unfold patch at 2. simpl. rewrite patch_app_r by lia.
    replace (to + zlen part - to - zlen part) with 0 by lia. unfold patch. simpl. rewrite !drop_drop, <- !app_assoc. do 3 f_equal.
    rewrite !length_drop. unfold i. rewrite length_take. f_equal. lia.
  - rewrite wrap_small by lia. rewrite !length_app, length_take, length_drop. lia.
  - rewrite !length_app, length_take, length_drop. unfold MAX_FILE. lia.
  - apply Hs1.
Qed.

Context (Hn : never_refuses) (Hc : 0 ≤ queue_cycle st) (Hd0 : tokens_ok).

Lemma havoc_clone_ok : changes (havoc_clone st).
Proof using Hn Hc.
  start s c Hs. case_decide as Hroom; [by apply wp_none|]. unfold MAX_FILE, HAVOC_BLK_XL in Hroom.
  apply wp_bind, wp_choose; [done|lia|]. intros n g Hlen Hxl. unfold HAVOC_BLK_XL in Hxl.
  apply wp_bind, wp_rand; [lia|]. intros from g1 Hfrom. apply wp_bind, wp_rand; [lia|]. intros to g2 Hto.
  apply wp_bind. apply (wp_read_out _ c); [by auto with havoc|lia..|]. intros part -> Hpart.
  apply wp_insert_block; [done|by auto with havoc|unfold MAX_FILE; lia..|apply own_part].
Qed.

Lemma wp_filler s c (Q : Z → havoc R → Prop) : holds s c → (∀ x g, Q x (set_gen g s)) → wp random_filler s Q.
Proof.
  intros Hs HQ. pose proof (ho_size _ _ Hs) as Hsize. unfold MAX_FILE in Hsize. apply wp_bind, wp_get.
  apply wp_bind, wp_rand; [lia|]. intros coin g _. case_decide; [apply wp_rand; [lia|]; intros x g' _; apply HQ|].
  rewrite (ho_len _ _ Hs). apply wp_bind, wp_rand; [lia|]. intros pos g' Hpos.
  apply wp_bind. apply (wp_read_out _ c); [by auto with havoc|lia..|]. intros bs _ _. apply wp_ret, HQ.
Qed.

Lemma havoc_insert_ok : changes (havoc_insert st).
Proof using Hn Hc.
  start s c Hs. case_decide as Hroom; [by apply wp_none|]. unfold MAX_FILE, HAVOC_BLK_XL in Hroom.
  apply wp_bind, wp_choose; [done|by unfold HAVOC_BLK_XL|]. intros n g Hlen Hxl. unfold HAVOC_BLK_XL in Hxl.
  apply wp_bind, wp_rand; [lia|]. intros to g1 Hto. apply wp_bind. apply (wp_filler _ c); [by auto with havoc|]. intros x g2.
  apply wp_insert_block; [done|by auto with havoc|rewrite ?length_replicate; unfold MAX_FILE; lia..|apply filler].
Qed.

Lemma havoc_overwrite_copy_ok : changes (havoc_overwrite_copy st).
Proof using Hc.
  start s c Hs. case_decide as Hroom; [by apply wp_none|]. apply wp_bind, wp_choose; [done|lia|]. intros n g Hlen _.
  apply wp_bind, wp_rand; [lia|]. intros from g1 Hfrom. apply wp_bind, wp_rand; [lia|]. intros to g2 Hto.
  case_decide; [|apply wp_none; by auto with havoc]. apply wp_bind. apply (wp_read_out _ c); [by auto with havoc|lia..|].
  intros bs -> Hbs. apply wp_overwrite; [by auto with havoc|lia..|apply own_part].
Qed.

Lemma havoc_overwrite_fixed_ok : changes (havoc_overwrite_fixed st).
Proof using Hc.
  start s c Hs. case_decide as Hroom; [by apply wp_none|]. apply wp_bind, wp_choose; [done|lia|]. intros n g Hlen _.
  apply wp_bind, wp_rand; [lia|]. intros to g1 Hto. apply wp_bind. apply (wp_filler _ c); [by auto with havoc|]. intros x g2.
  apply wp_overwrite; [by auto with havoc|lia|rewrite length_replicate; lia|apply filler].
Qed.

Lemma havoc_delete_ok : changes (havoc_delete st).
Proof using Hc.
  start s c Hs. case_decide as Hroom; [by apply wp_none|]. apply wp_bind, wp_choose; [done|lia|]. intros n g Hlen _.
  apply wp_bind, wp_rand; [lia|]. intros from g1 Hfrom. apply wp_bind. rewrite wrap_small by lia.
  apply (wp_read_out _ c); [by auto with havoc|lia..|]. intros bs -> Hbs.
  apply wp_bind. apply (wp_write_out _ c); [by auto with havoc|lia|lia|]. intros s' [[rest Ho] Hl' _ Ht]. apply wp_hupd.
  set (i := Z.to_nat from) in *. set (k := Z.to_nat n).
  assert (take (Z.to_nat (zlen c - from - n)) (drop (Z.to_nat (from + n)) c) = drop (i + k) c) as Htail.
  { replace (Z.to_nat (from + n)) with (i + k)%nat by lia. rewrite take_ge; [done|]. rewrite length_drop. lia. }
  rewrite Htail in *. assert (zlen (take i c ++ drop (i + k) c) = zlen c - n) as Hnew by (rewrite length_app, length_take, length_drop; lia).
  exists (take i c ++ drop (i + k) c). split; [|apply tweak_delete; lia]. split; simpl.
  - exists (drop (i + length (drop (i + k) c)) c ++ rest). rewrite Ho. unfold patch. fold i. by rewrite <- !app_assoc.
  - rewrite Hnew, Hl', length_patch, wrap_small by (rewrite ?length_drop; lia). done.
  - rewrite Hnew. unfold MAX_FILE. lia.
  - done.
Qed.

(** ** Fair draws *)

(** Whatever the state of the generator, every value below [limit] comes up within [fuel] draws. *)
Definition fair (fuel : nat) (limit : Z) : Prop :=
  ∀ v (g : R), 0 ≤ v < limit → ∃ k, (k < fuel)%nat ∧ (below limit (Nat.iter k (λ g, (below limit g).2) g)).1 = v.

Lemma wp_draw limit (s : havoc R) (Q : Z → havoc R → Prop) : 0 < limit < 2 ^ 32 →
  Q (below limit (gen s)).1 (set_gen (below limit (gen s)).2 s) → wp (AflHavoc.rand_below limit) s Q.
Proof.
  intros Hl HQ. unfold AflHavoc.rand_below. apply wp_bind, wp_get. rewrite wrap_small by lia.
  destruct (below limit (gen s)) as [r g]. apply wp_bind, wp_put. by apply wp_ret.
Qed.

Lemma below_lt limit (g : R) : 0 < limit → 0 ≤ (below limit g).1 < limit.
Proof. intros Hl. pose proof (below_range limit g) as (H1 & H2 & H3). destruct (decide (1 < limit)); lia. Qed.

Lemma wp_other_position from c (Q : Z → havoc R → Prop) : ∀ fuel s k, holds s c → (k < fuel)%nat →
  (below (zlen c) (Nat.iter k (λ g, (below (zlen c) g).2) (gen s))).1 ≠ from →
  (∀ to g, 0 ≤ to < zlen c → to ≠ from → Q to (set_gen g s)) → wp (other_position fuel from) s Q.
Proof.
  induction fuel as [|fuel IH]; intros s k Hs Hk Hne HQ; [lia|]. simpl. pose proof (ho_size _ _ Hs) as Hsize. unfold MAX_FILE in Hsize.
  apply wp_bind, wp_get. rewrite (ho_len _ _ Hs). apply wp_bind, wp_draw; [lia|]. pose proof (below_lt (zlen c) (gen s)).
  case_decide as Hd; [|apply wp_ret; apply HQ; lia]. destruct k as [|k]; [simpl in Hne; lia|]. rewrite Nat.iter_succ_r in Hne.
  apply (IH _ k); [by auto with havoc|lia|done|]. intros to g Hto Hne'. by apply (HQ to g).
Qed.

Lemma wp_slice l off n (s : havoc R) (Q : list Z → havoc R → Prop) : 0 ≤ off → 0 ≤ n → off + n ≤ zlen l →
  Q (take (Z.to_nat n) (drop (Z.to_nat off) l)) s → wp (slice l off n) s Q.
Proof. intros H1 H2 H3 HQ. unfold slice. rewrite decide_True by done. by apply wp_ret. Qed.

Lemma havoc_switch_ok fuel s c : fair fuel (zlen c) → holds s c →
  wp (havoc_switch st fuel) s (λ _ s', ∃ c', holds s' c' ∧ tweak ts (queue st) c c').
Proof using Hn Hc.
  intros Hfair Hs. pose proof (ho_size _ _ Hs) as Hsize. unfold MAX_FILE in Hsize.
  apply wp_bind, wp_get. rewrite (ho_len _ _ Hs). case_decide as Hroom; [by apply wp_none|]. apply wp_bind, wp_rand; [lia|]. intros from g Hfrom.
  destruct (Hfair (if decide (from = 0) then 1 else 0) g) as (k & Hk & Hv); [case_decide; lia|].
  apply wp_bind. apply (wp_other_position from c _ fuel _ k); [by auto with havoc|done|simpl; rewrite Hv; case_decide; lia|].
  intros to g1 Hto Hne. destruct (if decide (from < to) then _ else _) as [switch_len to_end] eqn:Hspan.
  assert (switch_len = Z.abs (from - to) ∧ to_end = zlen c - Z.max from to) as [-> ->] by (case_decide; simplify_eq; lia).
  apply wp_bind, wp_choose; [done|lia|]. intros n g2 Hlen Hxl. unfold HAVOC_BLK_XL in Hxl.
  apply wp_bind, wp_afl_grow; [done|lia|]. intros l s1 Hl _ Hsame _.
  assert (holds (set_scratch (Some l) s1) c) as Hs1 by (apply holds_scratch; eapply holds_same; [done|by auto with havoc]).
  apply wp_bind, wp_hupd, wp_bind. apply (wp_read_out _ c); [done|lia..|]. intros backup -> Hbackup.
  apply wp_bind, wp_blit; [lia|lia|]. apply wp_bind, wp_hupd. rewrite decide_False by lia.
  apply wp_bind. apply (wp_read_out _ c); [by auto with havoc|lia..|]. intros bs -> Hbs.
  apply wp_bind. apply (wp_write_out _ c); [by auto with havoc|lia..|]. intros s2 Hs2.
  apply wp_bind, wp_slice; [lia|lia|rewrite length_patch by lia; lia|].
  rewrite patch_start, drop_0, take_app_length' by lia.
  eapply wp_write_out; [exact Hs2|lia|rewrite length_patch by lia; lia|]. intros s3 Hs3. eexists. split; [exact Hs3|].
  rewrite <- (Z2Nat.id from) at 1 by lia. rewrite <- (Z2Nat.id to) at 2 by lia. apply tweak_switch; lia.
Qed.

(** ** Tokens *)

(** The token [t] of [n] bytes is read by [m]. *)
Definition reads (n : Z) (m : M (havoc R) (list Z)) (t : list Z) : Prop :=
  n = zlen t ∧ ∀ s q (Q : list Z → havoc R → Prop), tokens s = AflDict.set_requests q d0 → Q t s → wp m s Q.

Lemma token_overwrite_ok s c n m t : holds s c → t ∈ ts → reads n m t →
  wp (token_overwrite n m) s (λ _ s', ∃ c', holds s' c' ∧ tweak ts (queue st) c c').
Proof.
  intros Hs Ht [-> Hm]. pose proof (ho_size _ _ Hs) as Hsize. unfold MAX_FILE in Hsize. apply wp_bind, wp_get. rewrite (ho_len _ _ Hs).
  case_decide; [by apply wp_none|]. apply wp_bind, wp_rand; [lia|]. intros at_ g Hat.
  destruct (ho_tokens _ _ Hs) as [q Hq]. apply wp_bind. apply (Hm _ q); [done|].
  apply wp_overwrite; [by auto with havoc|lia..|by apply dictionary_token].
Qed.

Lemma wp_read_raw l off n s (Q : list Z → havoc R → Prop) : AflHavoc.out_buf s = Some l → 0 ≤ off → 0 ≤ n → off + n ≤ zlen l →
  Q (take (Z.to_nat n) (drop (Z.to_nat off) l)) s → wp (read_out off n) s Q.
Proof. intros Ho H1 H2 H3 HQ. unfold read_out, out_block. apply wp_bind, wp_bind, wp_get. rewrite Ho. by apply wp_ret, wp_slice. Qed.

Lemma wp_write_raw l off bs s (Q : unit → havoc R → Prop) : AflHavoc.out_buf s = Some l → 0 ≤ off → off + zlen bs ≤ zlen l →
  Q tt (set_out (Some (patch l off bs)) s) → wp (write_out off bs) s Q.
Proof.
  intros Ho H1 H2 HQ. unfold write_out, out_block. apply wp_bind, wp_bind, wp_get. rewrite Ho. apply wp_ret, wp_bind.
  apply wp_blit; [done..|]. by apply wp_hupd.
Qed.

(** The bytes from [i] moved up, and a token in their place. *)
Lemma patch_gap c x t (i : Z) : 0 ≤ i ≤ zlen c → zlen t ≤ zlen x →
  ∃ rest, patch (patch (c ++ x) (i + zlen t) (drop (Z.to_nat i) c)) i t
          = (take (Z.to_nat i) c ++ t ++ drop (Z.to_nat i) c) ++ rest.
Proof.
  intros Hi Hx. unfold patch at 2. set (l := c ++ x). set (r := drop _ l). exists r. unfold patch.
  replace (Z.to_nat (i + zlen t)) with (Z.to_nat i + length t)%nat by lia.
  rewrite take_app_le by (rewrite length_take; unfold l; rewrite length_app; lia). rewrite take_take, Nat.min_l by lia.
  rewrite drop_app_length' by (rewrite length_take; unfold l; rewrite length_app; lia).
  unfold l at 1. rewrite take_app_le by lia. by rewrite <- !app_assoc.
Qed.

Lemma token_insert_ok s c n m t : holds s c → t ∈ ts → reads n m t →
  wp (token_insert n m) s (λ _ s', ∃ c', holds s' c' ∧ tweak ts (queue st) c c').
Proof using Hn.
  intros Hs Ht [-> Hm]. pose proof (ho_size _ _ Hs) as Hsize. unfold MAX_FILE in Hsize. apply wp_bind, wp_get. rewrite (ho_len _ _ Hs).
  case_decide as Hroom; [by apply wp_none|]. unfold MAX_FILE in Hroom. apply wp_bind, wp_rand; [lia|]. intros i g Hi.
  destruct (ho_out _ _ Hs) as [rest Ho]. apply wp_bind, wp_afl_grow; [done|lia|]. simpl. rewrite Ho. simpl. intros l s1 Hl [r ->] Hsame _.
  rewrite <- app_assoc in *. set (x := rest ++ r) in *. rewrite length_app in Hl.
  assert (holds s1 c) as Hs1 by (eapply holds_same; [done|by auto with havoc]).
  apply wp_bind, wp_hupd, wp_bind. rewrite wrap_small by lia. apply (wp_read_raw (c ++ x)); [done|lia|lia|rewrite length_app; lia|].
  rewrite slice_app by lia. rewrite take_ge by (rewrite length_drop; lia).
  apply wp_bind. apply (wp_write_raw (c ++ x)); [done|lia|rewrite length_app, length_drop; lia|].
  apply wp_bind. destruct (ho_tokens _ _ Hs1) as [q Hq]. apply (Hm _ q); [done|]. apply wp_bind.
  eapply wp_write_raw; [done|lia|rewrite length_patch by (rewrite ?length_app, ?length_drop; lia); rewrite length_app; lia|]. apply wp_hupd.
  destruct (patch_gap c x t i) as [rest' Hgap]; [lia|lia|]. rewrite Hgap.
  assert (zlen (take (Z.to_nat i) c ++ t ++ drop (Z.to_nat i) c) = zlen c + zlen t) as Hnew by (rewrite !length_app, length_take, length_drop; lia).
  exists (take (Z.to_nat i) c ++ t ++ drop (Z.to_nat i) c). split; [|apply tweak_insert; [lia|by apply dictionary_token]]. split; simpl.
  - by exists rest'.
  - rewrite Hnew, (ho_len _ _ Hs1), wrap_small by lia. done.
  - rewrite Hnew. unfold MAX_FILE. lia.
  - apply Hs1.
Qed.

Lemma wp_in_dict {A} (m : M dict A) s (Q : A → havoc R → Prop) :
  wp m (tokens s) (λ a d, Q a (set_tokens d s)) → wp (in_dict m) s Q.
Proof. unfold wp, in_dict. by destruct (m (tokens s)) as [[a d]|e|]. Qed.

Lemma set_tokens_same (s : havoc R) : set_tokens (tokens s) s = s.
Proof. by destruct s. Qed.

Lemma wp_random_extra s c (Q : Z * M (havoc R) (list Z) → havoc R → Prop) : holds s c → extras_cnt (tokens s) ≠ 0 →
  (∀ n m t g, t ∈ ts → reads n m t → Q (n, m) (set_gen g s)) → wp random_extra s Q.
Proof.
  intros Hs Hx HQ. destruct (ho_tokens _ _ Hs) as [q0 Hq0], Hd0 as (_ & us & [l Hst] & Hus & ->). pose proof (stores_length _ _ _ Hst) as Hl.
  apply wp_bind, wp_get. apply wp_bind. rewrite Hq0 in *. simpl in *. rewrite (st_cnt _ _ _ Hst) in *. apply wp_rand; [lia|]. intros k g Hk.
  destruct (stores_lookup _ _ _ (Z.to_nat k) Hst) as (e & t & Ha & He & Ht & Ho); [lia|].
  apply wp_bind, wp_in_dict. eapply wp_extra_at; [simpl; by rewrite Hq0|done|]. apply wp_ret. rewrite set_tokens_same.
  apply (HQ _ _ t). { apply elem_of_app. left. by eapply list_elem_of_lookup_2. } split; [apply Ho|].
  intros s1 q Q1 Hq HQ1. apply wp_in_dict. eapply wp_read_owned; [by rewrite Hq|apply Ho|]. by rewrite set_tokens_same.
Qed.

Lemma wp_random_a_extra s c (Q : Z * M (havoc R) (list Z) → havoc R → Prop) : holds s c → a_extras (tokens s) ≠ [] →
  (∀ n m t g, t ∈ ts → reads n m t → Q (n, m) (set_gen g s)) → wp random_a_extra s Q.
Proof.
  intros Hs Hx HQ. destruct (ho_tokens _ _ Hs) as [q0 Hq0], Hd0 as (Htab & us & _ & _ & ->). destruct Htab as [Hall Hroom _]. unfold MAX_AUTO_EXTRAS, USE_AUTO_EXTRAS in *.
  apply wp_bind, wp_get. rewrite Hq0 in *. simpl in *. assert (0 < zlen (a_extras d0)) by (destruct (a_extras _); simpl; [done|lia]).
  apply wp_bind, wp_rand; [lia|]. intros k g Hk. destruct (lookup_lt_is_Some_2 (a_extras d0) (Z.to_nat k)) as [e He]; [lia|].
  rewrite He. apply wp_ret. apply (HQ _ _ (token e)). { apply elem_of_app. right. apply list_elem_of_fmap_2. by eapply list_elem_of_lookup_2. }
  rewrite Forall_forall in Hall. destruct (Hall e) as (Hd & Hlen & _); [by eapply list_elem_of_lookup_2|].
  split; [unfold token; rewrite length_take; lia|]. intros s1 q Q1 _ HQ1. by apply wp_slice; [lia..|].
Qed.

(** ** Other test cases *)

(** Another entry of the queue can be spliced in. *)
Definition spliceable : Prop := ∃ i o, queue st !! i = Some o ∧ Z.of_nat i ≠ current_entry st ∧ 4 ≤ zlen o.

(** The test cases fit. *)
Definition queue_ok : Prop := zlen (queue st) < 2 ^ 32 ∧ Forall (λ o, zlen o ≤ MAX_FILE) (queue st).

Lemma wp_splice_target i (Q : list Z → havoc R → Prop) : zlen (queue st) < 2 ^ 32 → ∀ fuel s k, (k < fuel)%nat →
  (below (zlen (queue st)) (Nat.iter k (λ g, (below (zlen (queue st)) g).2) (gen s))).1 = Z.of_nat i →
  (∃ o, queue st !! i = Some o ∧ Z.of_nat i ≠ current_entry st ∧ 4 ≤ zlen o) →
  (∀ j o g, queue st !! j = Some o → Z.of_nat j ≠ current_entry st → 4 ≤ zlen o → Q o (set_gen g s)) → wp (splice_target st fuel) s Q.
Proof.
  intros Hq. induction fuel as [|fuel IH]; intros s k Hk Hv (o & Ho & Hcur & Hlong) HQ; [lia|]. simpl.
  pose proof (lookup_lt_Some _ _ _ Ho) as Hi. pose proof (below_lt (zlen (queue st)) (gen s)) as Hb.
  apply wp_bind, wp_draw; [lia|]. destruct (lookup_lt_is_Some_2 (queue st) (Z.to_nat (below (zlen (queue st)) (gen s)).1)) as [o' Ho']; [lia|].
  rewrite Ho'. case_decide as Hd; [|apply wp_ret; eapply HQ; [exact Ho'|lia|lia]].
  destruct k as [|k].
  - simpl in Hv. rewrite Hv, Nat2Z.id in *. simplify_eq. lia.
  - rewrite Nat.iter_succ_r in Hv. apply (IH _ k); [lia|done|by exists o|]. intros j o2 g Hj Hne Hlong2. by apply (HQ j o2 g).
Qed.

Lemma splice_overwrite_ok s c o : holds s c → o ∈ queue st → 4 ≤ zlen o ≤ MAX_FILE →
  wp (splice_overwrite st o) s (λ _ s', ∃ c', holds s' c' ∧ tweak ts (queue st) c c').
Proof using Hc.
  intros Hs Ho Hlong. pose proof (ho_size _ _ Hs) as Hsize. unfold MAX_FILE in *. apply wp_bind, wp_get. rewrite (ho_len _ _ Hs).
  apply wp_bind, wp_choose; [done|lia|]. intros n g Hlen _. set (n' := if decide (zlen c < n) then zlen c else n).
  assert (1 ≤ n' ≤ zlen c ∧ n' ≤ zlen o - 1) as [Hn1 Hn2] by (unfold n'; case_decide; lia).
  apply wp_bind, wp_rand; [lia|]. intros from g1 Hfrom. apply wp_bind, wp_rand; [lia|]. intros to g2 Hto.
  apply wp_bind, wp_slice; [lia..|]. apply wp_overwrite; [by auto with havoc|lia|rewrite length_take, length_drop; lia|by apply other_part].
Qed.

Lemma splice_insert_ok s c o : holds s c → o ∈ queue st → 4 ≤ zlen o ≤ MAX_FILE → zlen c + HAVOC_BLK_XL < MAX_FILE →
  wp (splice_insert st o) s (λ _ s', ∃ c', holds s' c' ∧ tweak ts (queue st) c c').
Proof using Hn Hc.
  intros Hs Ho Hlong Hroom. pose proof (ho_size _ _ Hs) as Hsize. unfold MAX_FILE, HAVOC_BLK_XL in *. apply wp_bind, wp_get. rewrite (ho_len _ _ Hs).
  apply wp_bind, wp_choose; [done|lia|]. intros n g Hlen Hxl. unfold HAVOC_BLK_XL in Hxl.
  apply wp_bind, wp_rand; [lia|]. intros from g1 Hfrom. apply wp_bind, wp_rand; [lia|]. intros to g2 Hto.
  apply wp_bind, wp_slice; [lia..|].
  apply wp_insert_block; [done|by auto with havoc|rewrite ?length_take, ?length_drop; unfold MAX_FILE; lia..|by apply other_part].
Qed.

Lemma havoc_splice_ok fuel r s c : queue_ok → spliceable → fair fuel (zlen (queue st)) → holds s c →
  wp (havoc_splice st fuel r) s (λ _ s', ∃ c', holds s' c' ∧ tweak ts (queue st) c c').
Proof using Hn Hc.
  intros [Hq Hall] (i & o & Hsp) Hfair Hs. pose proof (lookup_lt_Some _ _ _ (proj1 Hsp)) as Hi.
  destruct (Hfair (Z.of_nat i) (gen s)) as (k & Hk & Hv); [lia|].
  apply wp_bind. eapply wp_splice_target; [done|done|done|by exists o|]. intros j o' g Ho'%list_elem_of_lookup_2 _ Hlong.
  rewrite Forall_forall in Hall. pose proof (Hall _ Ho') as Hmax. apply wp_bind, wp_get.
  case_decide as Hd; [by apply splice_overwrite_ok; auto with havoc|].
  apply splice_insert_ok; [by auto with havoc|done|done|]. rewrite (ho_len _ _ (holds_gen g _ _ Hs)) in Hd. unfold MAX_FILE, HAVOC_BLK_XL in *. lia.
Qed.

(** ** The switch *)

(** The values of the switch that need no other test case. *)
Definition own_cases (d : dict) : Z :=
  (if decide (extras_cnt d = 0) then 0 else 4) +
  (if decide (a_extras d = []) then 0 else if ascii st then MUTATE_ASCII_DICT else 4).

Lemma havoc_default_ok fuel r s c : queue_ok → fair fuel (zlen (queue st)) → 0 ≤ r →
  (own_cases (tokens s) ≤ r → spliceable) → holds s c →
  wp (havoc_default st fuel r) s (λ _ s', ∃ c', holds s' c' ∧ tweak ts (queue st) c c').
Proof using Hn Hc Hd0.
  intros Hq Hfair Hr Hsp Hs. apply wp_bind, wp_get. unfold own_cases, MUTATE_ASCII_DICT in *.
  assert (∀ ins m, m = random_extra ∧ extras_cnt (tokens s) ≠ 0 ∨ m = random_a_extra ∧ a_extras (tokens s) ≠ [] →
    wp (m ≫= λ '(n, token), if (ins : bool) then token_insert n token else token_overwrite n token) s
       (λ _ s', ∃ c', holds s' c' ∧ tweak ts (queue st) c c')) as Htoken.
  { intros ins m Hm. apply wp_bind. assert (∀ n m' t g, t ∈ ts → reads n m' t →
      wp (if ins then token_insert n m' else token_overwrite n m') (set_gen g s) (λ _ s', ∃ c', holds s' c' ∧ tweak ts (queue st) c c')) as Hput.
    { intros n m' t g Ht Hr'. destruct ins; [apply (token_insert_ok _ _ _ _ t)|apply (token_overwrite_ok _ _ _ _ t)]; auto with havoc. }
    destruct Hm as [[-> Hx]|[-> Hx]]; [by eapply wp_random_extra|by eapply wp_random_a_extra]. }
  cbv zeta. destruct (bool_decide_reflect (extras_cnt (tokens s) ≠ 0)) as [He|He],
    (bool_decide_reflect (a_extras (tokens s) ≠ [])) as [Ha|Ha], (ascii st); simpl; repeat case_bool_decide;
    first [apply (Htoken false); tauto | apply (Htoken true); tauto | apply havoc_splice_ok; [done| |done|done]];
    (apply Hsp; repeat case_decide; try tauto; change (Z.shiftl 2 1) with 4 in *; change (Z.shiftl (Z.shiftr 64 1) 1) with 64 in *; lia).
Qed.

#[local] Hint Resolve havoc_flip_bit_ok havoc_clone_ok havoc_insert_ok havoc_overwrite_copy_ok havoc_overwrite_fixed_ok
  havoc_switch_ok havoc_delete_ok : havoc.

(** Every case of the switch runs within the bounds of its buffers, ends, and is a change of the specification. *)
Lemma havoc_mutation_ok fuel r s c : queue_ok → fair fuel (zlen c) → fair fuel (zlen (queue st)) → 0 ≤ r →
  (MAX_HAVOC_ENTRY + 1 + own_cases d0 ≤ r → spliceable) → holds s c →
  wp (havoc_mutation st fuel r) s (λ _ s', ∃ c', holds s' c' ∧ tweak ts (queue st) c c').
Proof using Hn Hc Hd0.
  intros Hq Hfair Hfair' Hr Hsp Hs. assert (∀ m, changes m → wp m s (λ _ s', ∃ c', holds s' c' ∧ tweak ts (queue st) c c')) as Hcase.
  { intros m Hm. by apply Hm. }
  unfold havoc_mutation. repeat (case_decide; [first
    [ apply Hcase; first [apply havoc_byte_ok; by vm_compute | apply havoc_interesting_ok; [lia|by vm_compute]
                         | apply havoc_arith_ok; lia | solve [auto with havoc] ]
    | by apply havoc_switch_ok ]|]).
  unfold MAX_HAVOC_ENTRY in *. apply havoc_default_ok; [done|done|lia| |done]. intros Hge. apply Hsp.
  destruct (ho_tokens _ _ Hs) as [q Hd]. rewrite Hd in Hge. change (own_cases (AflDict.set_requests q d0)) with (own_cases d0) in Hge. lia.
Qed.
End Spec.
