(* ===== verification/AflStage.v ===== *)
(** * AflStage: the custom, havoc and splicing stages of [fuzz_one_original],
    AFLplusplus/src/afl-fuzz-one.c

    The loops around the random changes: runs of the custom mutators, rounds of stacked
    changes, the input that a splice makes, and the budget of runs, which grows when an
    input joins the queue.  Statistics and names of stages are left out, and so are
    mutators that take part in the stacking. *)

From S2P Require Import Prelude Utils AflBitmap AflQueue AflDet AflDict AflHavoc.

Definition HAVOC_CYCLES : Z := 256.
Definition HAVOC_CYCLES_INIT : Z := 1024.
Definition HAVOC_MIN : Z := 12.
Definition SPLICE_CYCLES : Z := 15.
Definition SPLICE_HAVOC : Z := 32.

(** [finds past input]: [save_if_interesting] puts the input into the queue. *)
Class Finder := { finds : list (list Z) → list Z → bool }.

(** The functions of a custom mutator that the stage calls, on its data of type [P].
    [fuzz] is given the input and the test case to splice with. *)
Record fuzz_ops (P : Type) := FuzzOps {
  fuzz_count : option (list Z → M P Z);
  fuzz : option (list Z → option (list Z) → Z → M P (option (list Z))) }.
Arguments FuzzOps {P}.
Arguments fuzz_count {P} f.
Arguments fuzz {P} f.

(** What the stages only read. [idle]: nothing found for five seconds. *)
Record options := Options {
  base : setup;
  doing_det : bool;
  expand_havoc : bool;
  idle : bool;
  use_splicing : bool;
  custom_only : bool;
  custom_splice_optout : bool;
  orig_perf : Z;
  havoc_div : Z;
  havoc_stack_pow2 : Z;
  havoc_max_mult : Z }.

(** [in_bytes] are the [len] bytes of [in_buf]; [in_block] and [in_scratch] the buffers
    that splices are made in; [tested] the inputs that were run. *)
Record stage (R P : Type) := Stage {
  hv : havoc R;
  mutator_data : P;
  in_bytes : list Z;
  in_block : afl_buf;
  in_scratch : afl_buf;
  queue_buf : list (list Z);
  ready_for_splicing_count : Z;
  stage_cur : Z;
  stage_max : Z;
  perf_score : Z;
  havoc_queued : Z;
  splice_cycle : Z;
  tested : list (list Z) }.
Arguments Stage {R P}.
Arguments hv {R P} s.
Arguments mutator_data {R P} s.
Arguments in_bytes {R P} s.
Arguments in_block {R P} s.
Arguments in_scratch {R P} s.
Arguments queue_buf {R P} s.
Arguments ready_for_splicing_count {R P} s.
Arguments stage_cur {R P} s.
Arguments stage_max {R P} s.
Arguments perf_score {R P} s.
Arguments havoc_queued {R P} s.
Arguments splice_cycle {R P} s.
Arguments tested {R P} s.

Section Stages.
Context {R P : Type} `{!Random R, !Host, !Runner, !Finder} (op : options) (custom_mutator_list : list (fuzz_ops P)).

Definition set_hv (v : havoc R) (s : stage R P) : stage R P := Stage v (mutator_data s) (in_bytes s) (in_block s) (in_scratch s) (queue_buf s)
  (ready_for_splicing_count s) (stage_cur s) (stage_max s) (perf_score s) (havoc_queued s) (splice_cycle s) (tested s).
Definition set_mutator (v : P) (s : stage R P) : stage R P := Stage (hv s) v (in_bytes s) (in_block s) (in_scratch s) (queue_buf s)
  (ready_for_splicing_count s) (stage_cur s) (stage_max s) (perf_score s) (havoc_queued s) (splice_cycle s) (tested s).
Definition set_in (v : list Z) (b c : afl_buf) (s : stage R P) : stage R P := Stage (hv s) (mutator_data s) v b c (queue_buf s)
  (ready_for_splicing_count s) (stage_cur s) (stage_max s) (perf_score s) (havoc_queued s) (splice_cycle s) (tested s).
Definition set_queue (v : list (list Z)) (n : Z) (s : stage R P) : stage R P := Stage (hv s) (mutator_data s) (in_bytes s) (in_block s) (in_scratch s) v
  n (stage_cur s) (stage_max s) (perf_score s) (havoc_queued s) (splice_cycle s) (tested s).
Definition set_stage_cur (v : Z) (s : stage R P) : stage R P := Stage (hv s) (mutator_data s) (in_bytes s) (in_block s) (in_scratch s) (queue_buf s)
  (ready_for_splicing_count s) v (stage_max s) (perf_score s) (havoc_queued s) (splice_cycle s) (tested s).
Definition set_budget (v p : Z) (s : stage R P) : stage R P := Stage (hv s) (mutator_data s) (in_bytes s) (in_block s) (in_scratch s) (queue_buf s)
  (ready_for_splicing_count s) (stage_cur s) v p (havoc_queued s) (splice_cycle s) (tested s).
Definition set_havoc_queued (v : Z) (s : stage R P) : stage R P := Stage (hv s) (mutator_data s) (in_bytes s) (in_block s) (in_scratch s) (queue_buf s)
  (ready_for_splicing_count s) (stage_cur s) (stage_max s) (perf_score s) v (splice_cycle s) (tested s).
Definition set_splice_cycle (v : Z) (s : stage R P) : stage R P := Stage (hv s) (mutator_data s) (in_bytes s) (in_block s) (in_scratch s) (queue_buf s)
  (ready_for_splicing_count s) (stage_cur s) (stage_max s) (perf_score s) (havoc_queued s) v (tested s).
Definition set_tested (v : list (list Z)) (s : stage R P) : stage R P := Stage (hv s) (mutator_data s) (in_bytes s) (in_block s) (in_scratch s) (queue_buf s)
  (ready_for_splicing_count s) (stage_cur s) (stage_max s) (perf_score s) (havoc_queued s) (splice_cycle s) v.

Definition supd (f : stage R P → stage R P) : M (stage R P) unit := s ← get_state; put_state (f s).

(** An operation on the buffers, and a call of a mutator. *)
Definition in_hv {A} (m : M (havoc R) A) : M (stage R P) A := λ s,
  match m (hv s) with
  | Ret (a, h) => Ret (a, set_hv h s)
  | Fault e => Fault e
  | NoFuel => NoFuel
  end.

Definition in_mutator {A} (m : M P A) : M (stage R P) A := λ s,
  match m (mutator_data s) with
  | Ret (a, p) => Ret (a, set_mutator p s)
  | Fault e => Fault e
  | NoFuel => NoFuel
  end.

(** The test cases of this moment. *)
Definition now (s : stage R P) : setup :=
  Setup (queue_cycle (base op)) (run_over10m (base op)) (ascii (base op)) (queue_buf s) (current_entry (base op)).

(** ** A run of the target *)

(** [common_fuzz_stuff]: [true] when the entry is abandoned. *)
Definition common_fuzz (input : list Z) : M (stage R P) bool :=
  s ← get_state;
  _ ← put_state (set_tested (tested s ++ [input]) s);
  if abandons (tested s) input then mret true else
  _ ← (if finds (tested s) input then
         supd (λ s, set_queue (queue_buf s ++ [input]) (u32 (ready_for_splicing_count s + if decide (4 < zlen input) then 1 else 0)) s)
       else mret tt);
  mret false.

(** The budget doubles when the queue has grown. *)
Definition extend_budget : M (stage R P) unit :=
  s ← get_state;
  if decide (zlen (queue_buf s) = havoc_queued s) then mret tt else
  _ ← (if decide (perf_score s ≤ havoc_max_mult op * 100) then
         supd (λ s, set_budget (u32 (stage_max s * 2)) (u32 (perf_score s * 2)) s)
       else mret tt);
  supd (λ s, set_havoc_queued (zlen (queue_buf s)) s).

(** [(cycles * perf_score / havoc_div) >> shift], at least [HAVOC_MIN]. *)
Definition budget (cycles perf shift : Z) : M (stage R P) Z :=
  if decide (havoc_div op = 0) then fail DivByZero else
  mret (Z.max HAVOC_MIN (Z.shiftr (u32 (cycles * perf) / havoc_div op) shift)).
(** ** The custom stage *)

(** Whether the loop of the stage goes on, ends, or the entry is abandoned. *)
Inductive verdict := GoOn | Break | Abandon.

(** [for (stage_cur = 0; stage_cur < stage_max; ++stage_cur)]; [true] when the entry is abandoned. *)
Fixpoint stage_loop (runs : nat) (body : M (stage R P) verdict) : M (stage R P) bool :=
  match runs with
  | O => out_of_fuel
  | S runs =>
      s ← get_state;
      if decide (stage_max s ≤ stage_cur s) then mret false else
      v ← body;
      match v with
      | GoOn => _ ← supd (λ s, set_stage_cur (u32 (stage_cur s + 1)) s); stage_loop runs body
      | Break => mret false
      | Abandon => mret true
      end
  end.

(** The mutated input is run, and the buffer put back. *)
Definition run_mutated (counted : bool) (mutated : list Z) : M (stage R P) verdict :=
  abandoned ← (if decide (0 < zlen mutated) then
    a ← common_fuzz mutated;
    _ ← (if a || counted then mret tt else extend_budget);
    mret a
  else mret false);
  if (abandoned : bool) then mret Abandon else
  s ← get_state;
  _ ← in_hv (write_out 0 (in_bytes s));
  mret GoOn.

(** One run of a mutator, on the input and a test case to splice with. *)
Definition custom_run (draws : nat) (counted : bool) (custom_fuzz : list Z → option (list Z) → Z → M P (option (list Z))) :
    M (stage R P) verdict :=
  s ← get_state;
  new_buf ← (if negb (custom_splice_optout op) && bool_decide (1 < ready_for_splicing_count s)
             then t ← in_hv (splice_target (now s) draws); mret (Some t) else mret None);
  out ← in_hv (read_out 0 (zlen (in_bytes s)));
  mutated_buf ← in_mutator (custom_fuzz out new_buf MAX_FILE);
  match mutated_buf with
  | None => mret Break
  | Some mutated => run_mutated counted mutated
  end.

(** The loop over the mutators: [has_custom_fuzz], or [None] when the entry is abandoned. *)
Fixpoint over_mutators (runs draws : nat) (saved_max : Z) (ms : list (fuzz_ops P)) (has_custom_fuzz : bool) : M (stage R P) (option bool) :=
  match ms with
  | [] => mret (Some has_custom_fuzz)
  | el :: ms =>
      match fuzz el with
      | None => over_mutators runs draws saved_max ms has_custom_fuzz
      | Some f =>
          s ← get_state;
          max ← match fuzz_count el with
                | Some count => out ← in_hv (read_out 0 (zlen (in_bytes s))); in_mutator (count out)
                | None => mret saved_max
                end;
          _ ← supd (λ s, set_budget max (perf_score s) s);
          abandoned ← (if decide (max = 0) then mret false else
            _ ← supd (set_stage_cur 0);
            stage_loop runs (custom_run draws (bool_decide (fuzz_count el ≠ None)) f));
          if (abandoned : bool) then mret None else over_mutators runs draws saved_max ms true
      end
  end.

(** [Some r]: [fuzz_one_original] is left, with the result [r]. *)
Definition custom_mutator_stage (runs draws : nat) : M (stage R P) (option Z) :=
  if decide (custom_mutator_list = []) then mret None else
  s ← get_state;
  saved_max ← budget HAVOC_CYCLES (perf_score s) (if custom_only op then 7 else 8);
  _ ← supd (set_budget saved_max (perf_score s));
  has_custom_fuzz ← over_mutators runs draws saved_max custom_mutator_list false;
  mret (match has_custom_fuzz with
        | None => Some 1
        | Some has_custom_fuzz => if has_custom_fuzz && custom_only op then Some 0 else None
        end).

(** ** The havoc stage *)

(** The limit of the switch. *)
Definition havoc_r_max (s : stage R P) : Z :=
  let d := tokens (hv s) in
  (MAX_HAVOC_ENTRY + 1) + (if decide (extras_cnt d ≠ 0) then 4 else 0) +
  (if decide (a_extras d ≠ []) then (if ascii (base op) then MUTATE_ASCII_DICT else 4) else 0) +
  (if expand_havoc op && bool_decide (1 < ready_for_splicing_count s) then 4 else 0) +
  (if idle op && bool_decide (1 < ready_for_splicing_count s) then 4 else 0).

(** The [len] bytes of [in_buf] put back into [out_buf]. *)
Definition restore (in_buf : list Z) : M (havoc R) unit :=
  h ← get_state;
  block ← afl_grow (out_buf h) (zlen in_buf);
  _ ← hupd (λ h, set_temp_len (zlen in_buf) (set_out (Some block) h));
  write_out 0 in_buf.

Definition havoc_round (draws : nat) (r_max : Z) : M (stage R P) verdict :=
  k ← in_hv (rand_below (havoc_stack_pow2 op));
  s ← get_state;
  _ ← in_hv (for_loop (Z.to_nat (u32 (Z.shiftl 1 (1 + k)))) 0 (λ _, r ← rand_below r_max; havoc_mutation (now s) draws r));
  s ← get_state;
  out ← in_hv (read_out 0 (temp_len (hv s)));
  abandoned ← common_fuzz out;
  if (abandoned : bool) then mret Abandon else
  _ ← in_hv (restore (in_bytes s));
  _ ← extend_budget;
  mret GoOn.

Definition havoc_stage (runs draws : nat) : M (stage R P) bool :=
  s ← get_state;
  let '(perf, cycles) :=
    if decide (splice_cycle s = 0) then (perf_score s, if doing_det op then HAVOC_CYCLES_INIT else HAVOC_CYCLES)
    else (orig_perf op, SPLICE_HAVOC) in
  max ← budget cycles perf 8;
  _ ← supd (set_budget max perf);
  _ ← in_hv (hupd (set_temp_len (zlen (in_bytes s))));
  _ ← supd (set_havoc_queued (zlen (queue_buf s)));
  _ ← supd (set_stage_cur 0);
  stage_loop runs (havoc_round draws (havoc_r_max s)).

(** ** Splicing *)

(** The loop of [locate_diffs] from [pos] on: [f_loc] and [l_loc]. *)
Fixpoint diff_loop (pos : Z) (l1 l2 : list Z) (f_loc l_loc : Z) : Z * Z :=
  match l1, l2 with
  | x :: l1, y :: l2 =>
      if decide (x ≠ y) then diff_loop (pos + 1) l1 l2 (if decide (f_loc = -1) then pos else f_loc) pos
      else diff_loop (pos + 1) l1 l2 f_loc l_loc
  | _, _ => (f_loc, l_loc)
  end.

(** On two buffers of [len] bytes at least. *)
Definition locate_diffs (l1 l2 : list Z) (len : Z) : Z * Z :=
  diff_loop 0 (take (Z.to_nat len) l1) (take (Z.to_nat len) l2) (-1) (-1).

(** The spliced input, in the scratch buffer, which becomes [in_buf].  (The code does
    not test the reallocation, and the copy faults without the memory.) *)
Definition splice_into (new_buf : list Z) (split_at : Z) : M (stage R P) unit :=
  s ← get_state;
  let len := zlen new_buf in
  block ← in_hv (afl_grow (in_scratch s) len);
  head ← in_hv (slice (in_bytes s) 0 split_at);
  block ← in_hv (blit block 0 head);
  part ← in_hv (slice new_buf 0 (len - split_at));
  block ← in_hv (blit block split_at part);
  in_buf ← in_hv (slice block 0 len);
  _ ← supd (set_in in_buf (Some block) (in_block s));
  in_hv (restore in_buf).

(** [true]: there is a new input, for the custom stage. *)
Fixpoint splicing (tries draws : nat) : M (stage R P) bool :=
  match tries with
  | O => out_of_fuel
  | S tries =>
      s ← get_state;
      if negb (use_splicing op) then mret false else
      _ ← supd (set_splice_cycle (u32 (splice_cycle s + 1)));
      if decide (SPLICE_CYCLES ≤ splice_cycle s ∨ ready_for_splicing_count s ≤ 1) then mret false else
      match queue_buf s !! Z.to_nat (current_entry (base op)) with
      | None => fail OutOfBounds
      | Some orig_in =>
          if decide (zlen orig_in < 4) then mret false else
          _ ← supd (set_in orig_in (in_block s) (in_scratch s));
          new_buf ← in_hv (splice_target (now s) draws);
          let '(f_diff, l_diff) := locate_diffs orig_in new_buf (Z.min (zlen orig_in) (zlen new_buf)) in
          if decide (f_diff < 0 ∨ l_diff < 2 ∨ f_diff = l_diff) then splicing tries draws else
          r ← in_hv (rand_below (l_diff - f_diff));
          _ ← splice_into new_buf (f_diff + r);
          mret true
      end
  end.

(** ** Together *)

(** From the label [custom_mutator_stage] to the end: the result of [fuzz_one_original]. *)
Fixpoint random_stages (cycles runs draws : nat) : M (stage R P) Z :=
  match cycles with
  | O => out_of_fuel
  | S cycles =>
      r ← custom_mutator_stage runs draws;
      match r with
      | Some ret_val => mret ret_val
      | None =>
          abandoned ← havoc_stage runs draws;
          if (abandoned : bool) then mret 1 else
          again ← splicing cycles draws;
          if (again : bool) then random_stages cycles runs draws else mret 0
      end
  end.
End Stages.
