(* ===== verification/AflStageSpec.v ===== *)
(** * AflStageSpec: the random stages end and run only changes of the input

    Every round of the havoc stage runs a few stacked changes ([tweak]) of the input and
    puts the input back; the number of rounds is bounded although the budget grows. *)

From S2P Require Import Prelude Utils AflBitmap AflQueue AflDet AflDict AflDictSpec AflDictAuto AflHavoc AflHavocSpec AflStage.

(** ** The queue *)

(** The entries that [ready_for_splicing_count] counts. *)
Definition longs (q : list (list Z)) : Z := zlen (filter (λ o, 4 < zlen o) q).

#[local] Arguments longs : simpl never.

Lemma longs_app q q' : longs (q ++ q') = longs q + longs q'.
Proof. unfold longs. rewrite filter_app, length_app. lia. Qed.

Lemma longs_le q : 0 ≤ longs q ≤ zlen q.
Proof. unfold longs. pose proof (length_filter (λ o, 4 < zlen o) q). lia. Qed.

(** Of two entries one is not the current one. *)
Lemma two_long q : ∀ cur, 1 < longs q → ∃ i o, q !! i = Some o ∧ Z.of_nat i ≠ cur ∧ 4 ≤ zlen o.
Proof.
  induction q as [|x q IH]; intros cur; [done|]. unfold longs. rewrite filter_cons. case_decide as Hx; intros Hl.
  - destruct (decide (cur = 0)) as [->|]; [|exists 0%nat, x; split; [done|lia]]. simpl in Hl.
    destruct (filter (λ o : list Z, 4 < zlen o) q) as [|o l] eqn:E; [simpl in Hl; lia|].
    assert (o ∈ filter (λ o : list Z, 4 < zlen o) q) as Ho by (rewrite E; apply list_elem_of_here).
    apply list_elem_of_filter in Ho as [Ho [i Hi]%list_elem_of_lookup]. exists (S i), o. split; [done|lia].
  - destruct (IH (cur - 1) Hl) as (i & o & Hi & Hne & Ho). exists (S i), o. split; [done|lia].
Qed.

Section Joins.
Context `{!Runner, !Finder}.

(** The inputs that join the queue, of the inputs [new] that are run after [past]. *)
Fixpoint joins (past new : list (list Z)) : list (list Z) :=
  match new with
  | [] => []
  | x :: new => (if negb (abandons past x) && finds past x then [x] else []) ++ joins (past ++ [x]) new
  end.

Lemma joins_app new1 : ∀ past new2, joins past (new1 ++ new2) = joins past new1 ++ joins (past ++ new1) new2.
Proof.
  induction new1 as [|x new1 IH]; intros past new2; simpl; [by rewrite app_nil_r|].
  by rewrite IH, <- !app_assoc.
Qed.

Lemma joins_length new : ∀ past, (length (joins past new) ≤ length new)%nat.
Proof. induction new as [|x new IH]; intros past; simpl; [lia|]. rewrite length_app. specialize (IH (past ++ [x])). case_match; simpl; lia. Qed.

Lemma joins_elem x new : ∀ past, x ∈ joins past new → x ∈ new.
Proof.
  induction new as [|y new IH]; intros past; simpl; [done|]. rewrite elem_of_app, elem_of_cons. intros [Hx|Hx]; [|by right; eapply IH].
  left. destruct (_ && _) in Hx; [by apply list_elem_of_singleton in Hx|by apply not_elem_of_nil in Hx].
Qed.
End Joins.

(** ** Steps *)

Section Spec.
Context {R P : Type} `{!Random R, !Host, !Runner, !Finder} (op : options).

Lemma wp_supd f (s : stage R P) (Q : unit → stage R P → Prop) : Q tt (f s) → wp (supd f) s Q.
Proof. done. Qed.

Lemma wp_in_hv {A} (m : M (havoc R) A) (s : stage R P) (Q : A → stage R P → Prop) :
  wp m (hv s) (λ a h, Q a (set_hv h s)) → wp (in_hv m) s Q.
Proof. unfold wp, in_hv. by destruct (m (hv s)) as [[a h]|e|]. Qed.

Lemma wp_call_mutator {A} (m : M P A) (s : stage R P) (Q : A → stage R P → Prop) :
  wp m (mutator_data s) (λ a p, Q a (set_mutator p s)) → wp (in_mutator m) s Q.
Proof. unfold wp, in_mutator. by destruct (m (mutator_data s)) as [[a h]|e|]. Qed.

(** The input is run, and joins the queue when it is interesting. *)
Lemma wp_common_fuzz x (s : stage R P) (Q : bool → stage R P → Prop) :
  ready_for_splicing_count s = longs (queue_buf s) → zlen (queue_buf s) < 2 ^ 32 - 1 →
  (∀ q', q' = queue_buf s ++ joins (tested s) [x] →
     Q (abandons (tested s) x) (set_queue q' (longs q') (set_tested (tested s ++ [x]) s))) →
  wp (common_fuzz x) s Q.
Proof.
  intros Hr Hq HQ. unfold common_fuzz. apply wp_bind, wp_get, wp_bind, wp_put. simpl in HQ. destruct (abandons (tested s) x) eqn:E.
  - apply wp_ret. specialize (HQ _ eq_refl). simpl in HQ. rewrite app_nil_r, <- Hr in HQ. by destruct s.
  - apply wp_bind. destruct (finds (tested s) x).
    + apply wp_supd, wp_ret. specialize (HQ _ eq_refl). simpl in *. rewrite Hr.
      rewrite longs_app in HQ. unfold longs in HQ at 2. pose proof (longs_le (queue_buf s)). simpl in HQ.
      replace (zlen (filter (λ o : list Z, 4 < zlen o) [x])) with (if decide (4 < zlen x) then 1 else 0) in HQ
        by (rewrite filter_cons; by case_decide).
      rewrite wrap_small by (case_decide; lia). done.
    + apply wp_ret, wp_ret. specialize (HQ _ eq_refl). simpl in HQ. rewrite !app_nil_r, <- Hr in HQ. by destruct s.
Qed.

Context (ts : list (list Z)) (d0 : dict).
Context (Hn : never_refuses) (Hc : 0 ≤ queue_cycle (base op)) (Hd0 : tokens_ok ts d0).

(** ** Stacked changes *)

Lemma bsteps_mono {A} (R1 R2 : relation A) n x y : (∀ a b, R1 a b → R2 a b) → bsteps R1 n x y → bsteps R2 n x y.
Proof. intros HR. induction 1; econstructor; eauto. Qed.

Abbreviation changed n others := (bsteps (tweak ts others) n).

(** Every limit up to [L] is drawn from fairly. *)
Definition fair_to (draws : nat) (L : Z) : Prop := ∀ limit, 0 < limit ≤ L → fair (R := R) draws limit.

Lemma wp_stack st draws r_max n c h : 0 ≤ queue_cycle st → queue_ok st → fair_to draws (Z.max MAX_FILE (zlen (queue st))) →
  0 < r_max < 2 ^ 32 → (MAX_HAVOC_ENTRY + 1 + own_cases st d0 < r_max → spliceable st) → queue st ≠ [] → holds d0 h c →
  wp (for_loop n 0 (λ _, r ← rand_below r_max; havoc_mutation st draws r)) h
    (λ _ h', ∃ c', holds d0 h' c' ∧ changed n (queue st) c c').
Proof using Hn Hd0.
  intros Hst Hq Hfair Hr Hsp Hne Hs.
  eapply wp_mono; [apply (wp_for_loop (λ j h, ∃ c', holds d0 h c' ∧ changed (Z.to_nat j) (queue st) c c'))|].
  - exists c. split; [done|constructor].
  - intros j h1 Hj (c1 & Hs1 & Hch). apply wp_bind, wp_rand; [lia|]. intros r g Hr'. pose proof (ho_size _ _ _ Hs1) as Hsize.
    eapply wp_mono; [apply (havoc_mutation_ok _ _ _ Hn Hst Hd0 _ _ _ c1); try done; [apply Hfair; lia| |lia| |by apply holds_gen]|].
    + apply Hfair. destruct (queue st); [done|simpl; lia].
    + intros Hge. apply Hsp. lia.
    + simpl. intros _ h' (c' & Hs' & Hch'). exists c'. split; [done|]. replace (Z.to_nat (j + 1)) with (S (Z.to_nat j)) by lia.
      by eapply bsteps_r.
  - simpl. intros _ h' (c' & Hs' & Hch'). exists c'. split; [done|]. by rewrite Z.add_0_l, Nat2Z.id in Hch'.
Qed.

(** The input is put back whatever the buffer has become. *)
Lemma wp_restore (h : havoc R) c : (∃ q, tokens h = AflDict.set_requests q d0) → 1 ≤ zlen c ≤ MAX_FILE → wp (restore c) h (λ _ h', holds d0 h' c).
Proof using Hn.
  intros Hs Hc'. unfold MAX_FILE in *. unfold restore. apply wp_bind, wp_get. apply wp_bind, wp_afl_grow; [done|lia|].
  intros l h1 Hl _ Hsame _. apply wp_bind, wp_hupd. eapply wp_write_raw; [done|lia|lia|]. rewrite patch_start.
  destruct Hsame as [_ _ [q Hq]], Hs as [q' Hq']. split; simpl; [by eexists|done|done|].
  exists q. by rewrite Hq, Hq'.
Qed.

(** ** The invariant of the stage *)

Section Running.
Context (s0 : stage R P) (m0 p0 : Z) (draws : nat).
Abbreviation c := (in_bytes s0).

(** The budget never exceeds [runs_bound]. *)
Definition perf_bound : Z := Z.max p0 (200 * havoc_max_mult op).
Definition runs_bound : Z := m0 * perf_bound / p0.

(** What was run and what joined the queue since [s0]. *)
Definition logged (s : stage R P) (n : Z) : Prop :=
  ∃ new, tested s = tested s0 ++ new ∧ zlen new = n ∧ queue_buf s = queue_buf s0 ++ joins (tested s0) new ∧
    ready_for_splicing_count s = longs (queue_buf s) ∧
    Forall (λ x, 1 ≤ zlen x ≤ MAX_FILE ∧ changed (Z.to_nat (2 ^ havoc_stack_pow2 op)) (queue_buf s) c x) new.

(** Inside the stage, after [n] runs. *)
Record running (n : Z) (s : stage R P) : Prop := {
  rn_holds : holds d0 (hv s) c;
  rn_in : in_bytes s = c;
  rn_cycle : splice_cycle s = splice_cycle s0 ∧ mutator_data s = mutator_data s0;
  rn_log : logged s n;
  rn_perf : p0 ≤ perf_score s ≤ perf_bound;
  rn_max : stage_max s * p0 = m0 * perf_score s }.

(** What the start of the stage needs. *)
Record start_ok : Prop := {
  so_queue : Forall (λ o, zlen o ≤ MAX_FILE) (queue_buf s0);
  so_nonempty : queue_buf s0 ≠ [];
  so_room : zlen (queue_buf s0) + runs_bound < 2 ^ 32 - 1;
  so_ready : ready_for_splicing_count s0 = longs (queue_buf s0);
  so_p0 : 1 ≤ p0;
  so_m0 : 1 ≤ m0;
  so_pow2 : 1 ≤ havoc_stack_pow2 op ≤ 30;
  so_mult : 0 ≤ havoc_max_mult op < 256;
  so_fair : fair_to draws (Z.max MAX_FILE (zlen (queue_buf s0) + runs_bound)) }.
Context (Hso : start_ok).

Lemma running_budget n s : running n s → m0 ≤ stage_max s ≤ runs_bound.
Proof using Hso.
  intros [_ _ _ _ Hp Hm]. destruct Hso. unfold runs_bound in *.
  assert (m0 * p0 ≤ m0 * perf_score s ≤ m0 * perf_bound) by nia.
  split; [apply (Z.mul_le_mono_pos_r _ _ p0); lia|]. apply Z.div_le_lower_bound; lia.
Qed.

Lemma logged_queue s n : logged s n → zlen (queue_buf s) ≤ zlen (queue_buf s0) + n ∧ 0 ≤ n.
Proof. intros (new & _ & <- & -> & _). rewrite length_app. pose proof (joins_length new (tested s0)). lia. Qed.

(** One more input in the log. *)
Lemma logged_next s n x q' s' : logged s n → 1 ≤ zlen x ≤ MAX_FILE →
  changed (Z.to_nat (2 ^ havoc_stack_pow2 op)) (queue_buf s) c x → q' = queue_buf s ++ joins (tested s) [x] →
  tested s' = tested s ++ [x] → queue_buf s' = q' → ready_for_splicing_count s' = longs q' → logged s' (n + 1).
Proof.
  intros (new & Ht & Hl & Hq & Hr & Hall) Hx Hch -> Ht' Hq' Hr'. exists (new ++ [x]).
  split; [by rewrite Ht', Ht, app_assoc|]. split; [rewrite length_app; simpl; lia|].
  split; [by rewrite Hq', joins_app, Hq, Ht, app_assoc|]. split; [by rewrite Hr', Hq'|].
  assert (∀ y, changed (Z.to_nat (2 ^ havoc_stack_pow2 op)) (queue_buf s) c y → changed (Z.to_nat (2 ^ havoc_stack_pow2 op)) (queue_buf s') c y) as Hmono.
  { intros y. apply bsteps_mono. intros a b. apply tweak_mono. intros o Ho. rewrite Hq'. apply elem_of_app. by left. }
  apply Forall_app. split; [|repeat constructor; [lia|lia|by apply Hmono]].
  eapply Forall_impl; [exact Hall|]. simpl. intros y [Hy Hy']. split; [done|by apply Hmono].
Qed.

Lemma running_queue n s : running n s → n ≤ runs_bound →
  Forall (λ o, zlen o ≤ MAX_FILE) (queue_buf s) ∧ queue_buf s ≠ [] ∧ zlen (queue_buf s) < 2 ^ 32 - 1 ∧
  longs (queue_buf s0) ≤ longs (queue_buf s) ∧ fair_to draws (Z.max MAX_FILE (zlen (queue_buf s))).
Proof using Hso.
  intros [_ _ _ Hlog _ _] Hb. pose proof (logged_queue _ _ Hlog) as [Hlen _]. destruct Hlog as (new & _ & _ & Hq & _ & Hall), Hso. split.
  { rewrite Hq. apply Forall_app. split; [done|]. apply Forall_forall. intros o Ho%joins_elem.
    rewrite Forall_forall in Hall. by apply Hall. }
  split; [rewrite Hq; by destruct (queue_buf s0)|]. split; [lia|]. split.
  { rewrite Hq, longs_app. pose proof (longs_le (joins (tested s0) new)). lia. }
  intros limit Hl. apply so_fair0. lia.
Qed.

Lemma wp_extend_budget n s : running n s → wp (extend_budget op) s (λ _ s', running n s' ∧ stage_cur s' = stage_cur s).
Proof using Hso.
  intros Hs. pose proof (running_budget _ _ Hs) as Hb. pose proof Hs as [Hh Hi Hcy Hl Hp Hm]. destruct Hso.
  unfold extend_budget. apply wp_bind, wp_get. case_decide; [by apply wp_ret|]. apply wp_bind. case_decide as Hperf; [|apply wp_ret, wp_supd; by split].
  assert (stage_max s * 2 ≤ runs_bound) by (unfold runs_bound, perf_bound in *; apply Z.div_le_lower_bound; nia).
  apply wp_supd, wp_supd. split; [|done]. unfold perf_bound in *.
  rewrite !wrap_small by lia. split; simpl; [done..|unfold perf_bound; lia|nia].
Qed.

Definition r_max_ok (r_max : Z) : Prop :=
  0 < r_max < 2 ^ 32 ∧ (MAX_HAVOC_ENTRY + 1 + own_cases (base op) d0 < r_max → 1 < longs (queue_buf s0)).

Lemma havoc_round_ok r_max n s : r_max_ok r_max → running n s → n < runs_bound →
  wp (havoc_round op draws r_max) s (λ v s',
    match v with
    | GoOn => running (n + 1) s' ∧ stage_cur s' = stage_cur s
    | Break => False
    | Abandon => logged s' (n + 1) ∧ splice_cycle s' = splice_cycle s0
    end).
Proof using Hn Hc Hd0 Hso.
  intros [Hr Hsp] Hs Hn1. pose proof Hs as [Hh Hi [Hcy Hmut] Hl Hp Hm]. destruct (running_queue _ _ Hs) as (Hall & Hne & Hq & Hlong & Hfair); [lia|].
  pose proof Hso as [_ _ _ _ _ _ Hpow _ _]. unfold havoc_round. apply wp_bind, wp_in_hv, wp_rand; [lia|]. intros k g Hk. apply wp_bind, wp_get.
  apply wp_bind, wp_in_hv. eapply wp_mono; [apply (wp_stack (now op s) draws r_max _ (in_bytes s0))|]; simpl; try done.
  { split; [simpl; lia|done]. }
  { intros Hge. apply Hsp in Hge. unfold spliceable. simpl. apply two_long. lia. }
  { by apply holds_gen. }
  intros _ h (c' & Hh' & Hch). apply wp_bind, wp_get, wp_bind, wp_in_hv. simpl.
  pose proof (ho_size _ _ _ Hh') as Hsize. rewrite (ho_len _ _ _ Hh'). apply (wp_read_out d0 _ c'); [done|lia..|]. intros out Hout _.
  change (Z.to_nat 0) with 0%nat in Hout. rewrite drop_0, take_ge in Hout by lia. subst out.
  apply wp_bind, wp_common_fuzz; [by destruct Hl as (?&?&?&?&?&?)|done|]. simpl. intros q' Hq'.
  match goal with |- wp _ ?s' _ => assert (logged s' (n + 1)) as Hl' end.
  { eapply logged_next; [exact Hl|exact Hsize| |exact Hq'|done..]. eapply bsteps_weaken; [|exact Hch].
    rewrite Z.shiftl_1_l, wrap_small by (split; [lia|apply Z.pow_lt_mono_r; lia]). apply Z2Nat.inj_le; [lia..|]. apply Z.pow_le_mono_r; lia. }
  destruct (abandons _ _); [by apply wp_ret|].
  apply wp_bind, wp_in_hv. simpl. rewrite Hi. eapply wp_mono; [apply (wp_restore _ _ (ho_tokens _ _ _ Hh')), Hh|]. simpl. intros _ h2 Hh2.
  apply wp_bind. eapply wp_mono; [apply (wp_extend_budget (n + 1)); by split|]. simpl. intros _ s2 [Hs2 Hcur]. by apply wp_ret.
Qed.

(** The loop runs [m0] rounds at least, unless the entry is abandoned, and [runs_bound] at most. *)
Lemma wp_havoc_loop r_max : r_max_ok r_max → ∀ runs s, running (stage_cur s) s → stage_cur s ≤ runs_bound →
  runs_bound - stage_cur s < Z.of_nat runs →
  wp (stage_loop runs (havoc_round op draws r_max)) s (λ abandoned s', ∃ n, n ≤ runs_bound ∧ logged s' n ∧ splice_cycle s' = splice_cycle s0 ∧
    (abandoned = false → m0 ≤ n ∧ running n s')).
Proof using Hn Hc Hd0 Hso.
  intros Hr. induction runs as [|runs IH]; intros s Hs Hle Hruns; [lia|]. simpl. pose proof (running_budget _ _ Hs) as Hb.
  apply wp_bind, wp_get. case_decide as Hend.
  { apply wp_ret. exists (stage_cur s). split; [done|]. split; [apply Hs|]. split; [apply Hs|]. intros _. split; [lia|done]. }
  apply wp_bind. eapply wp_mono; [apply (havoc_round_ok _ _ _ Hr Hs); lia|]. intros [| |] s' Hs'; [|done|].
  - destruct Hs' as [Hs' Hcur]. pose proof (logged_queue _ _ (rn_log _ _ Hs)) as [_ Hpos]. pose proof (so_room Hso).
    apply wp_bind, wp_supd. rewrite Hcur, wrap_small by lia. apply IH; simpl; [|lia|lia].
    destruct Hs' as [? ? ? ? ? ?]. by split.
  - destruct Hs' as [Hl Hcy]. apply wp_ret. exists (stage_cur s + 1). split; [lia|]. by split.
Qed.
End Running.

(** ** The havoc stage *)

(** The state between the stages: the input is in the buffer, and the dictionary is [d0]. *)
Record input_ok (s : stage R P) : Prop := {
  io_out : ∃ rest, AflHavoc.out_buf (hv s) = Some (in_bytes s ++ rest);
  io_size : 1 ≤ zlen (in_bytes s) ≤ MAX_FILE;
  io_tokens : ∃ q, tokens (hv s) = AflDict.set_requests q d0 }.

(** The score and the number of rounds that the stage starts with. *)
Definition first_perf (s : stage R P) : Z := if decide (splice_cycle s = 0) then perf_score s else orig_perf op.
Definition first_max (s : stage R P) : Z :=
  let cycles := if decide (splice_cycle s = 0) then (if doing_det op then HAVOC_CYCLES_INIT else HAVOC_CYCLES) else SPLICE_HAVOC in
  Z.max HAVOC_MIN (Z.shiftr (u32 (cycles * first_perf s) / havoc_div op) 8).

Lemma havoc_r_max_ok s m0 p0 draws : input_ok s → start_ok s m0 p0 draws → r_max_ok s (havoc_r_max op s).
Proof.
  intros [_ _ [q Hq]] Hso. unfold r_max_ok, havoc_r_max, own_cases, MAX_HAVOC_ENTRY, MUTATE_ASCII_DICT. rewrite Hq. simpl. rewrite (so_ready _ _ _ _ Hso).
  split; [repeat case_match; lia|]. repeat case_bool_decide; repeat case_match; try done; lia.
Qed.

Lemma havoc_stage_ok runs draws s : havoc_div op ≠ 0 → start_ok s (first_max s) (first_perf s) draws → input_ok s →
  runs_bound (first_max s) (first_perf s) < Z.of_nat runs →
  wp (havoc_stage op runs draws) s (λ abandoned s', ∃ n, n ≤ runs_bound (first_max s) (first_perf s) ∧ logged s s' n ∧
    splice_cycle s' = splice_cycle s ∧ (abandoned = false → first_max s ≤ n ∧ running s (first_max s) (first_perf s) n s')).
Proof using Hn Hc Hd0.
  intros Hdiv Hso Hio Hruns. pose proof (havoc_r_max_ok _ _ _ _ Hio Hso) as Hr. destruct Hio as [[rest Ho] Hsize Hq].
  unfold havoc_stage. apply wp_bind, wp_get.
  assert ((if decide (splice_cycle s = 0) then (perf_score s, if doing_det op then HAVOC_CYCLES_INIT else HAVOC_CYCLES)
           else (orig_perf op, SPLICE_HAVOC)) = (first_perf s,
           if decide (splice_cycle s = 0) then (if doing_det op then HAVOC_CYCLES_INIT else HAVOC_CYCLES) else SPLICE_HAVOC)) as ->.
  { unfold first_perf. by case_decide. }
  apply wp_bind. unfold budget. rewrite decide_False by done. apply wp_ret. fold (first_max s).
  apply wp_bind, wp_supd, wp_bind, wp_in_hv, wp_hupd, wp_bind, wp_supd, wp_bind, wp_supd.
  apply (wp_havoc_loop s (first_max s) (first_perf s) draws Hso); [done| |simpl..].
  - split; simpl; [split; simpl; eauto|done|done| |unfold perf_bound; lia|lia].
    exists []. rewrite !app_nil_r. split; [done|]. split; [done|]. split; [done|]. split; [apply Hso|constructor].
  - unfold runs_bound, perf_bound. destruct Hso. apply Z.div_pos; nia.
  - lia.
Qed.

(** ** Splicing *)

(** [f] and [l] are the first and the last position where the first [n] bytes differ. *)
Definition span_of_diffs (l1 l2 : list Z) (n f l : Z) : Prop :=
  0 ≤ f ≤ l ∧ l < n ∧ l1 !! Z.to_nat f ≠ l2 !! Z.to_nat f ∧ l1 !! Z.to_nat l ≠ l2 !! Z.to_nat l ∧
  ∀ i, (Z.of_nat i < n) → l1 !! i ≠ l2 !! i → f ≤ Z.of_nat i ≤ l.

Lemma diff_loop_app l1 x y : ∀ l2 pos f l, length l1 = length l2 →
  diff_loop pos (l1 ++ [x]) (l2 ++ [y]) f l =
  let '(f', l') := diff_loop pos l1 l2 f l in
  let here := pos + zlen l1 in
  if decide (x ≠ y) then (if decide (f' = -1) then here else f', here) else (f', l').
Proof.
  induction l1 as [|a l1 IH]; intros [|b l2] pos f l Hlen; try done; simpl.
  - rewrite Z.add_0_r. by case_decide.
  - injection Hlen as Hlen. destruct (decide (a ≠ b)); rewrite IH by done; destruct (diff_loop _ l1 l2 _ _);
      destruct (decide (x ≠ y)); f_equal; [case_decide; lia|lia|case_decide; lia|lia].
Qed.

Lemma locate_diffs_spec l1 l2 (k : nat) : (k ≤ length l1)%nat → (k ≤ length l2)%nat →
  (locate_diffs l1 l2 (Z.of_nat k) = (-1, -1) ∧ take k l1 = take k l2) ∨
  (∃ f l, locate_diffs l1 l2 (Z.of_nat k) = (f, l) ∧ span_of_diffs l1 l2 (Z.of_nat k) f l).
Proof.
  unfold locate_diffs. rewrite Nat2Z.id. induction k as [|k IH]; intros Hl1 Hl2; [by left|].
  destruct (lookup_lt_is_Some_2 l1 k) as [x Hx]; [lia|]. destruct (lookup_lt_is_Some_2 l2 k) as [y Hy]; [lia|].
  rewrite (take_S_r l1 k x), (take_S_r l2 k y) by done. rewrite diff_loop_app by (rewrite !length_take_le by lia; done).
  rewrite length_take_le by lia. rewrite Z.add_0_l. destruct IH as [[-> Heq]|(f & l & -> & Hf & Hl & Hdf & Hdl & Hspan)]; [lia|lia| |].
  - case_decide as Hne; [|left; split; [done|]; by rewrite Heq, Hne]. right. exists (Z.of_nat k), (Z.of_nat k). split; [done|].
    split; [lia|]. split; [lia|]. rewrite Nat2Z.id, Hx, Hy. split; [congruence|]. split; [congruence|].
    intros i Hi Hd. destruct (decide (i = k)) as [->|]; [lia|]. exfalso. apply Hd.
    rewrite <- (lookup_take_lt l1 k i), <- (lookup_take_lt l2 k i) by lia. by rewrite Heq.
  - right. destruct (decide (x ≠ y)) as [Hne|Hne%dec_stable].
    + cbv zeta. rewrite decide_False by lia. exists f, (Z.of_nat k). split; [done|]. split; [lia|]. split; [lia|]. split; [done|].
      rewrite Nat2Z.id, Hx, Hy. split; [congruence|]. intros i Hi Hd. destruct (decide (i = k)) as [->|]; [lia|].
      pose proof (Hspan i ltac:(lia) Hd). lia.
    + exists f, l. split; [done|]. split; [done|]. split; [lia|]. split; [done|]. split; [done|]. intros i Hi Hd.
      apply Hspan; [|done]. destruct (decide (i = k)) as [->|]; [|lia]. rewrite Hx, Hy, Hne in Hd. done.
Qed.

(** What a splice leaves alone. *)
Record untouched (s s' : stage R P) : Prop := {
  un_queue : queue_buf s' = queue_buf s;
  un_ready : ready_for_splicing_count s' = ready_for_splicing_count s;
  un_tested : tested s' = tested s;
  un_mutator : mutator_data s' = mutator_data s;
  un_perf : perf_score s' = perf_score s }.

Lemma wp_splice_into s target split : (∃ q, tokens (hv s) = AflDict.set_requests q d0) → 0 ≤ split ≤ zlen (in_bytes s) →
  split ≤ zlen target → 1 ≤ zlen target ≤ MAX_FILE →
  wp (splice_into target split) s (λ _ s', input_ok s' ∧ untouched s s' ∧ splice_cycle s' = splice_cycle s ∧
    in_bytes s' = take (Z.to_nat split) (in_bytes s) ++ take (Z.to_nat (zlen target - split)) target).
Proof using Hn.
  intros Hq Hs Ht Hmax. unfold MAX_FILE in *. unfold splice_into. apply wp_bind, wp_get. cbv zeta.
  apply wp_bind, wp_in_hv, wp_afl_grow; [done|lia|]. intros l h Hl _ Hsame _.
  apply wp_bind, wp_in_hv, wp_slice; [lia..|]. change (Z.to_nat 0) with 0%nat. rewrite drop_0.
  apply wp_bind, wp_in_hv, wp_blit; [lia|rewrite length_take; lia|]. rewrite patch_start.
  set (head := take (Z.to_nat split) (in_bytes s)). assert (zlen head = split) as Hhead by (unfold head; rewrite length_take; lia).
  set (l' := head ++ _). assert (zlen l' = zlen l) as Hl' by (unfold l'; rewrite length_app, length_drop; lia).
  apply wp_bind, wp_in_hv, wp_slice; [lia..|]. rewrite drop_0. set (part := take _ target).
  assert (zlen part = zlen target - split) as Hpart by (unfold part; rewrite length_take; lia).
  apply wp_bind, wp_in_hv, wp_blit; [lia|lia|]. unfold l'. rewrite patch_app_r, Hhead, Z.sub_diag, patch_start by lia.
  apply wp_bind, wp_in_hv, wp_slice; [lia|lia|rewrite app_assoc, !length_app, !length_drop; lia|]. change (Z.to_nat 0) with 0%nat. rewrite drop_0.
  rewrite app_assoc, take_app_length' by (rewrite length_app; lia). apply wp_bind, wp_supd, wp_in_hv. simpl.
  assert (1 ≤ zlen (head ++ part) ≤ MAX_FILE) as Hnew by (unfold MAX_FILE; rewrite length_app; lia).
  eapply wp_mono; [apply wp_restore; [|exact Hnew]|].
  { destruct Hsame as [_ _ [q Hq1]], Hq as [q' Hq2]. exists q. simpl in *. by rewrite Hq1, Hq2. }
  simpl. intros _ h' [Ho _ _ Hd]. split; [by split|]. split; [by split|done].
Qed.

(** The queue that splices are made from; [orig] is the current entry. *)
Record splice_ok (draws : nat) (orig : list Z) (s : stage R P) : Prop := {
  sp_queue : Forall (λ o, zlen o ≤ MAX_FILE) (queue_buf s);
  sp_room : zlen (queue_buf s) < 2 ^ 32;
  sp_ready : ready_for_splicing_count s = longs (queue_buf s);
  sp_orig : queue_buf s !! Z.to_nat (current_entry (base op)) = Some orig;
  sp_tokens : ∃ q, tokens (hv s) = AflDict.set_requests q d0;
  sp_fair : fair (R := R) draws (zlen (queue_buf s)) }.

(** [input] is made of [orig] up to a place where it differs from [target], and of the first
    bytes of [target] that fill the length of [target]. *)
Definition spliced (orig target input : list Z) : Prop :=
  ∃ f l split, span_of_diffs orig target (Z.min (zlen orig) (zlen target)) f l ∧ f ≤ split < l ∧
    input = take (Z.to_nat split) orig ++ take (Z.to_nat (zlen target - split)) target.

Lemma splicing_ok draws orig tries : ∀ s, splice_ok draws orig s → 0 ≤ splice_cycle s → SPLICE_CYCLES - splice_cycle s < Z.of_nat tries → 0 < Z.of_nat tries →
  wp (splicing op tries draws) s (λ again s', untouched s s' ∧ (again = true →
    splice_cycle s < splice_cycle s' ≤ SPLICE_CYCLES ∧ input_ok s' ∧
    ∃ i target, queue_buf s !! i = Some target ∧ Z.of_nat i ≠ current_entry (base op) ∧ spliced orig target (in_bytes s'))).
Proof using Hn.
  induction tries as [|tries IH]; intros s Hs Hcy Htries Htries0; [lia|]. pose proof Hs as [Hall Hroom Hready Horig Hq Hfair]. simpl.
  apply wp_bind, wp_get. destruct (use_splicing op); simpl; [|by apply wp_ret]. apply wp_bind, wp_supd.
  case_decide as Hstop; [by apply wp_ret|]. unfold SPLICE_CYCLES in *. rewrite wrap_small by lia. rewrite Horig.
  case_decide as Hlong; [by apply wp_ret|]. apply wp_bind, wp_supd, wp_bind, wp_in_hv.
  destruct (two_long (queue_buf s) (current_entry (base op))) as (i & o & Ho & Hne & Ho4); [lia|]. pose proof (lookup_lt_Some _ _ _ Ho) as Hi.
  destruct (Hfair (Z.of_nat i) (gen (hv s))) as (k & Hk & Hv); [lia|].
  eapply (wp_splice_target (now op _) i); [done|exact Hk|exact Hv|by exists o|]. intros j target g Hj Hjne Ht4. simpl in *.
  assert (zlen orig ≤ MAX_FILE ∧ zlen target ≤ MAX_FILE) as [Hom Htm].
  { rewrite Forall_forall in Hall. split; apply Hall; by eapply list_elem_of_lookup_2. }
  assert (∃ n : nat, Z.of_nat n = Z.min (zlen orig) (zlen target) ∧ (n ≤ length orig)%nat ∧ (n ≤ length target)%nat) as (n & Hmin & Hn1 & Hn2).
  { exists (Nat.min (length orig) (length target)). lia. }
  rewrite <- Hmin. pose proof (locate_diffs_spec orig target n Hn1 Hn2) as Hd. destruct (locate_diffs orig target (Z.of_nat n)) as [f l].
  case_decide as Hbad.
  - eapply wp_mono; [apply IH; simpl; [by split|lia..]|]. simpl. intros again s' [Hu Hagain]. split; [destruct Hu; by split|].
    intros Ha. destruct (Hagain Ha) as (Hlt & Hrest). split; [lia|done].
  - destruct Hd as [[Hd _]|(f' & l' & Hd & Hspan)]; simplify_eq; [lia|]. pose proof Hspan as (Hf & Hl & _). unfold MAX_FILE in *.
    apply wp_bind, wp_in_hv, wp_rand; [lia|]. intros r g' Hr. apply wp_bind.
    eapply wp_mono; [apply wp_splice_into; simpl; [done|lia|lia|unfold MAX_FILE; lia]|]. simpl. intros _ s' (Hin & Hu & Hcy' & Hb).
    apply wp_ret. split; [destruct Hu; by split|]. intros _. rewrite Hcy'. simpl. split; [lia|]. split; [done|].
    exists j, target. split; [done|]. split; [done|]. exists f', l', (f' + r). rewrite <- Hmin. split; [done|]. split; [lia|done].
Qed.
End Spec.

(** ** The theorems *)

(** C14. The havoc stage, started on an input of 1 to 1 MiB bytes with a generator that draws
    fairly, never faults and ends: it makes at least the planned number of runs (unless the
    target asks to abandon the entry) and at most that number times the growth of the score, even
    though the budget doubles with every find. Every input it runs is 1 to 1 MiB bytes long and
    made from the start input by at most [2^havoc_stack_pow2] changes, each of which overwrites,
    inserts, deletes or exchanges blocks with bytes of the input, of a test case of the queue,
    of the dictionary, a repeated byte or a new number; exactly the interesting ones join the queue,
    in order, and the buffer holds the start input again at the end. *)
Theorem havoc_stage_correct {R P : Type} `{!Random R, !Host, !Runner, !Finder} (op : options) ts d0 runs draws (s : stage R P) :
  never_refuses → 0 ≤ queue_cycle (base op) → tokens_ok ts d0 → havoc_div op ≠ 0 →
  start_ok op s (first_max op s) (first_perf op s) draws → input_ok d0 s →
  runs_bound op (first_max op s) (first_perf op s) < Z.of_nat runs →
  ∃ abandoned s' new, havoc_stage op runs draws s = Ret (abandoned, s') ∧ tested s' = tested s ++ new ∧
    zlen new ≤ runs_bound op (first_max op s) (first_perf op s) ∧ queue_buf s' = queue_buf s ++ joins (tested s) new ∧
    Forall (λ x, 1 ≤ zlen x ≤ MAX_FILE ∧ bsteps (tweak ts (queue_buf s')) (Z.to_nat (2 ^ havoc_stack_pow2 op)) (in_bytes s) x) new ∧
    (abandoned = false → first_max op s ≤ zlen new ∧ in_bytes s' = in_bytes s ∧ holds d0 (hv s') (in_bytes s)).
Proof.
  intros Hn Hc Hd0 Hdiv Hso Hio Hruns.
  apply (havoc_stage_ok op ts d0 Hn Hc Hd0 runs draws s Hdiv Hso Hio), wp_Ret in Hruns as (ab & s' & E & n & Hle & Hlog & _ & Hdone).
  destruct Hlog as (new & Ht & Hl & Hq & _ & Hall). exists ab, s', new. split; [exact E|]. split; [done|]. split; [lia|]. split; [done|].
  split; [done|]. intros Ha. destruct (Hdone Ha) as [Hmin Hrun]. split; [lia|]. split; apply Hrun.
Qed.

(** C16. A splice of the current entry with another test case ends within its tries and, when it
    makes an input, picks a place between the first and the last difference of the two, keeps
    the bytes of the entry up to there and goes on with the FIRST bytes of the other test case,
    as many as its length leaves room for; nothing is run and the queue stays as it was. *)
Theorem splicing_takes_head {R P : Type} `{!Random R, !Host, !Runner, !Finder} (op : options) d0 draws orig tries (s : stage R P) :
  never_refuses → splice_ok op d0 draws orig s → 0 ≤ splice_cycle s ≤ SPLICE_CYCLES → SPLICE_CYCLES < Z.of_nat tries →
  ∃ again s', splicing op tries draws s = Ret (again, s') ∧ untouched s s' ∧
    (again = true → splice_cycle s < splice_cycle s' ≤ SPLICE_CYCLES ∧ input_ok d0 s' ∧
      ∃ i target, queue_buf s !! i = Some target ∧ Z.of_nat i ≠ current_entry (base op) ∧ spliced orig target (in_bytes s')).
Proof.
  intros Hn Hs Hcy Htries. assert (wp (splicing op tries draws) s (λ again s', untouched s s' ∧ (again = true →
    splice_cycle s < splice_cycle s' ≤ SPLICE_CYCLES ∧ input_ok d0 s' ∧
    ∃ i target, queue_buf s !! i = Some target ∧ Z.of_nat i ≠ current_entry (base op) ∧ spliced orig target (in_bytes s')))) as Hwp.
  { apply (splicing_ok op d0 Hn draws orig tries s Hs); unfold SPLICE_CYCLES in *; lia. }
  apply wp_Ret in Hwp as (again & s' & E & Hu & Ha). by exists again, s'.
Qed.

(** ** Witnesses *)

(** A generator that counts: every value comes up in turn. *)
#[local] Instance counter : Random Z.
Proof.
  refine {| below := λ limit g, if decide (1 < limit) then (g mod limit, g + 1) else (0, g) |}.
  intros limit g. case_decide; simpl; [|lia]. pose proof (Z.mod_pos_bound g limit). lia.
Defined.

Lemma counter_iter limit k : ∀ g, 1 < limit → Nat.iter k (λ g : Z, (below limit g).2) g = g + Z.of_nat k.
Proof. induction k as [|k IH]; intros g Hl; simpl; [lia|]. rewrite IH, decide_True by done. simpl. lia. Qed.

Lemma counter_fair draws L : L ≤ Z.of_nat draws → fair_to (R := Z) draws L.
Proof.
  intros HL limit Hl v g Hv. destruct (decide (1 < limit)) as [H1|H1].
  - exists (Z.to_nat ((v - g) mod limit)). pose proof (Z.mod_pos_bound (v - g) limit ltac:(lia)). split; [lia|].
    rewrite counter_iter by done. simpl. rewrite decide_True by done. simpl. rewrite Z2Nat.id by lia.
    rewrite Zplus_mod_idemp_r. replace (g + (v - g)) with v by lia. by apply Z.mod_small.
  - exists 0%nat. split; [lia|]. simpl. rewrite decide_False by done. simpl. lia.
Qed.

#[local] Instance quiet_runner : Runner := {| abandons := λ _ _, false; trace_cksum := λ _ _, 0; heap_byte := λ _, 0 |}.
#[local] Instance tenth_found : Finder := {| finds := λ past _, bool_decide (zlen past = 10) |}.

Definition sample_options : options :=
  Options (Setup 3 true false [] 0) false true false true false false 100 1 4 64.

Definition sample_queue : list (list Z) := [[72; 101; 108; 108; 111]; [87; 111; 114; 108; 100; 33]].

Definition sample_stage : stage Z unit :=
  Stage (Havoc 1 sample_dict (Some [72; 101; 108; 108; 111]) None 5) tt [72; 101; 108; 108; 111] None None
    sample_queue 2 0 0 100 0 0 [].

(** "Hello" and "World!" make "HeWorl" instead of "Herld!". *)
Example splice_example : ∃ s', splicing (H := obliging) sample_options 16 10 sample_stage = Ret (true, s') ∧ in_bytes s' = [72; 101; 87; 111; 114; 108].
Proof. eexists. split; [vm_compute; reflexivity|reflexivity]. Qed.

Lemma sample_tokens_ok : tokens_ok sample_tokens sample_dict.
Proof.
  split; [split; [constructor|by vm_compute|constructor]|]. exists sample_tokens. split; [exact sample_dictionary|].
  split; [by vm_compute|]. by rewrite app_nil_r.
Qed.

Lemma sample_start : start_ok sample_options sample_stage 100 100 (Z.to_nat 2000000).
Proof.
  split; [repeat constructor; by vm_compute|done|by vm_compute..|]. apply counter_fair. rewrite Z2Nat.id by lia. by vm_compute.
Qed.

Lemma havoc_stage_correct_witness :
  start_ok sample_options sample_stage 100 100 (Z.to_nat 2000000) ∧
  ∃ abandoned s' new, havoc_stage (H := obliging) sample_options (Z.to_nat 2000000) (Z.to_nat 2000000) sample_stage = Ret (abandoned, s') ∧
    tested s' = new ∧ zlen new ≤ 12800 ∧ queue_buf s' = sample_queue ++ joins [] new ∧
    Forall (λ x, 1 ≤ zlen x ≤ MAX_FILE ∧ bsteps (tweak sample_tokens (queue_buf s')) 16 [72; 101; 108; 108; 111] x) new ∧
    (abandoned = false → 100 ≤ zlen new ∧ in_bytes s' = [72; 101; 108; 108; 111] ∧ holds sample_dict (hv s') [72; 101; 108; 108; 111]).
Proof.
  split; [exact sample_start|].
  apply (havoc_stage_correct (H := obliging) sample_options sample_tokens sample_dict (Z.to_nat 2000000) (Z.to_nat 2000000) sample_stage).
  - done.
  - by vm_compute.
  - exact sample_tokens_ok.
  - done.
  - exact sample_start.
  - split; [by exists []|by vm_compute|by exists 1%positive].
  - rewrite Z2Nat.id by lia. by vm_compute.
Defined.

Lemma splicing_takes_head_witness :
  splice_ok sample_options sample_dict 10 [72; 101; 108; 108; 111] sample_stage ∧
  ∃ again s', splicing (H := obliging) sample_options 16 10 sample_stage = Ret (again, s') ∧ untouched sample_stage s' ∧
    (again = true → 0 < splice_cycle s' ≤ SPLICE_CYCLES ∧ input_ok sample_dict s' ∧
      ∃ i target, sample_queue !! i = Some target ∧ Z.of_nat i ≠ 0 ∧ spliced [72; 101; 108; 108; 111] target (in_bytes s')).
Proof.
  assert (splice_ok sample_options sample_dict 10 [72; 101; 108; 108; 111] sample_stage) as Hs.
  { split; [repeat constructor; by vm_compute|by vm_compute..|by exists 1%positive|apply (counter_fair 10 10); [done|by vm_compute]]. }
  split; [exact Hs|]. apply (splicing_takes_head (H := obliging) sample_options sample_dict 10 [72; 101; 108; 108; 111] 16 sample_stage);
    [done|exact Hs|by vm_compute|by vm_compute].
Defined.
