(* ===== verification/AflExtras.v ===== *)
(** * AflExtras: the dictionary stages of [fuzz_one_original],
    AFLplusplus/src/afl-fuzz-one.c

    Every token is put over every position of the input where it fits and the effector map
    has a byte that matters, and inserted at every position: first the tokens of the user,
    then the automatic ones.  The stages share their code, which the source writes out twice. *)

From S2P Require Import Prelude Utils AflBitmap AflQueue AflDet AflDict AflHavoc.

(** [in_buf] has the [len] bytes of the test case, [ex_buf] is [afl->ex_buf]; of [buffers]
    the stages use the generator, the dictionary and [out_buf]. *)
Record extras_stage (R : Type) := ExtrasStage {
  buffers : havoc R;
  in_buf : list Z;
  ex_buf : afl_buf;
  eff_map : list Z;
  stage_cur : Z;
  stage_max : Z;
  tested : list (list Z) }.
Arguments ExtrasStage {R}.
Arguments buffers {R} e.
Arguments in_buf {R} e.
Arguments ex_buf {R} e.
Arguments eff_map {R} e.
Arguments stage_cur {R} e.
Arguments stage_max {R} e.
Arguments tested {R} e.

Section Extras.
Context {R : Type} `{!Random R, !Host, !Runner} (max_det_extras : Z).

Definition set_buffers (v : havoc R) (s : extras_stage R) : extras_stage R :=
  ExtrasStage v (in_buf s) (ex_buf s) (eff_map s) (stage_cur s) (stage_max s) (tested s).
Definition set_ex_buf (v : afl_buf) (s : extras_stage R) : extras_stage R :=
  ExtrasStage (buffers s) (in_buf s) v (eff_map s) (stage_cur s) (stage_max s) (tested s).
Definition set_progress (cur max : Z) (s : extras_stage R) : extras_stage R :=
  ExtrasStage (buffers s) (in_buf s) (ex_buf s) (eff_map s) cur max (tested s).
Definition set_tested (v : list (list Z)) (s : extras_stage R) : extras_stage R :=
  ExtrasStage (buffers s) (in_buf s) (ex_buf s) (eff_map s) (stage_cur s) (stage_max s) v.

Definition xupd (f : extras_stage R → extras_stage R) : M (extras_stage R) unit := s ← get_state; put_state (f s).

Definition on_buffers {A} (m : M (havoc R) A) : M (extras_stage R) A := λ s,
  match m (buffers s) with
  | Ret (a, h) => Ret (a, set_buffers h s)
  | Fault e => Fault e
  | NoFuel => NoFuel
  end.

(** [common_fuzz_stuff]: [false] when the entry is abandoned. *)
Definition run_input (input : list Z) : M (extras_stage R) bool :=
  s ← get_state;
  _ ← put_state (set_tested (tested s ++ [input]) s);
  mret (negb (abandons (tested s) input)).

(** The length of a token, and how it is read. *)
Abbreviation entry := (Z * M (havoc R) (list Z))%type.

Definition user_token (j : Z) : M (havoc R) entry :=
  e ← in_dict (extra_at j); mret (len e, in_dict (read_block (data e) (len e))).

Definition auto_token (j : Z) : M (havoc R) entry :=
  h ← get_state;
  match a_extras (tokens h) !! Z.to_nat j with
  | None => fail OutOfBounds
  | Some e => mret (a_extra_len e, slice (a_data e) 0 (a_extra_len e))
  end.

(** [extras_cnt > max_det_extras && rand_below(extras_cnt) >= max_det_extras] *)
Definition skip_user_token : M (havoc R) bool :=
  h ← get_state;
  let cnt := extras_cnt (tokens h) in
  if decide (cnt ≤ max_det_extras) then mret false else r ← rand_below cnt; mret (bool_decide (max_det_extras ≤ r)).

(** ** Tokens over the input *)

Definition EFF_SPAN_ALEN (p l : Z) : Z := EFF_APOS (p + l - 1) - EFF_APOS p + 1.

(** [memchr(eff_map + EFF_APOS(i), 1, EFF_SPAN_ALEN(i, n))] *)
Definition span_effective (i n : Z) : M (extras_stage R) bool :=
  s ← get_state;
  bs ← on_buffers (slice (eff_map s) (EFF_APOS i) (EFF_SPAN_ALEN i n));
  mret (bool_decide (1 ∈ bs)).

(** The tokens [j] to [j + n - 1] over position [i]: [last_len], or [None] when the entry is abandoned. *)
Fixpoint over_tokens (n : nat) (skip : M (havoc R) bool) (token_at : Z → M (havoc R) entry) (i j last_len : Z) : M (extras_stage R) (option Z) :=
  match n with
  | O => mret (Some last_len)
  | S n =>
      let skipped := _ ← xupd (λ s, set_progress (stage_cur s) (u32 (stage_max s - 1)) s); over_tokens n skip token_at i (j + 1) last_len in
      s ← get_state;
      dropped ← on_buffers skip;
      if (dropped : bool) then skipped else
      '(n_bytes, token) ← on_buffers (token_at j);
      if decide (u32 (zlen (in_buf s) - i) < n_bytes) then skipped else
      bs ← on_buffers token;
      old ← on_buffers (read_out i n_bytes);
      if decide (bs = old) then skipped else
      matters ← span_effective i n_bytes;
      if negb matters then skipped else
      _ ← on_buffers (write_out i bs);
      input ← on_buffers (read_out 0 (zlen (in_buf s)));
      ok ← run_input input;
      if negb ok then mret None else
      _ ← xupd (λ s, set_progress (u32 (stage_cur s + 1)) (stage_max s) s);
      over_tokens n skip token_at i (j + 1) n_bytes
  end.

(** The clobbered memory is restored after the last token. *)
Definition over_position (n : nat) (skip : M (havoc R) bool) (token_at : Z → M (havoc R) entry) (i : Z) : M (extras_stage R) bool :=
  last ← over_tokens n skip token_at i 0 0;
  match last with
  | None => mret false
  | Some last_len =>
      s ← get_state;
      bs ← on_buffers (slice (in_buf s) i last_len);
      _ ← on_buffers (write_out i bs);
      mret true
  end.

Definition overwrite_stage (n : Z) (skip : M (havoc R) bool) (token_at : Z → M (havoc R) entry) : M (extras_stage R) bool :=
  s ← get_state;
  let len := zlen (in_buf s) in
  _ ← xupd (set_progress 0 (u32 (n * len)));
  all_loop (Z.to_nat len) 0 (over_position (Z.to_nat n) skip token_at).

(** ** Tokens inserted *)

(** [ex_tmp], and a change of it. *)
Definition with_ex {A} (f : list Z → M (havoc R) A) : M (extras_stage R) A :=
  s ← get_state; match ex_buf s with Some l => on_buffers (f l) | None => fail NullDeref end.
Definition write_ex (off : Z) (bs : list Z) : M (extras_stage R) unit :=
  l ← with_ex (λ l, blit l off bs); xupd (set_ex_buf (Some l)).

Definition insert_token (token_at : Z → M (havoc R) entry) (i j : Z) : M (extras_stage R) bool :=
  s ← get_state;
  let len := zlen (in_buf s) in
  '(n_bytes, token) ← on_buffers (token_at j);
  if decide (MAX_FILE < len + n_bytes) then _ ← xupd (λ s, set_progress (stage_cur s) (u32 (stage_max s - 1)) s); mret true else
  bs ← on_buffers token;
  _ ← write_ex i bs;
  tail ← on_buffers (read_out i (len - i));
  _ ← write_ex (i + n_bytes) tail;
  input ← with_ex (λ l, slice l 0 (len + n_bytes));
  ok ← run_input input;
  if negb ok then mret false else
  _ ← xupd (λ s, set_progress (u32 (stage_cur s + 1)) (stage_max s) s);
  mret true.

(** [ex_tmp[i] = out_buf[i]] after the last token. *)
Definition insert_position (n : Z) (token_at : Z → M (havoc R) entry) (i : Z) : M (extras_stage R) bool :=
  ok ← all_loop (Z.to_nat n) 0 (insert_token token_at i);
  if negb ok then mret false else
  head ← on_buffers (read_out i 1);
  _ ← write_ex i head;
  mret true.

Definition insertion_stage (n : Z) (token_at : Z → M (havoc R) entry) : M (extras_stage R) bool :=
  s ← get_state;
  let len := zlen (in_buf s) in
  _ ← xupd (set_progress 0 (u32 (n * (len + 1))));
  ex_tmp ← on_buffers (afl_grow (ex_buf s) (len + MAX_DICT_FILE));
  _ ← xupd (set_ex_buf (Some ex_tmp));
  all_loop (Z.to_nat (len + 1)) 0 (insert_position n token_at).

(** ** The stages *)

Definition user_extras : M (extras_stage R) bool :=
  s ← get_state;
  let cnt := extras_cnt (tokens (buffers s)) in
  if decide (cnt = 0) then mret true else
  ok ← overwrite_stage cnt skip_user_token user_token;
  if negb ok then mret false else insertion_stage cnt user_token.

Definition auto_extras : M (extras_stage R) bool :=
  s ← get_state;
  let cnt := zlen (a_extras (tokens (buffers s))) in
  if decide (cnt = 0) then mret true else
  ok ← overwrite_stage (Z.min cnt USE_AUTO_EXTRAS) (mret false) auto_token;
  if negb ok then mret false else insertion_stage cnt auto_token.

(** [false] when the entry is abandoned. *)
Definition dictionary_stages : M (extras_stage R) bool :=
  ok ← user_extras;
  if negb ok then mret false else auto_extras.
End Extras.
