(* ===== verification/AflExtrasSpec.v ===== *)
(** * AflExtrasSpec: the dictionary stages run the input with one token

    Every input that is run is the test case with one token over it or inserted, every token
    is tried at every position that counts, and the test case is put back. *)

From S2P Require Import Prelude Utils AflBitmap AflQueue AflDet AflDict AflDictSpec AflDictAuto AflHavoc AflHavocSpec AflExtras.

(** ** Overwriting twice *)

Lemma patch_nil l i : patch l i [] = l.
Proof. unfold patch. simpl. rewrite Nat.add_0_r. apply take_drop. Qed.

Lemma patch_slice (l : list Z) (i n : nat) : (i + n ≤ length l)%nat → patch l (Z.of_nat i) (take n (drop i l)) = l.
Proof.
  intros. unfold patch. rewrite Nat2Z.id, length_take, length_drop, Nat.min_l by lia.
  rewrite <- drop_drop, take_drop. apply take_drop.
Qed.

Lemma patch_over l i bs bs' : 0 ≤ i → (length bs ≤ length bs')%nat → i + zlen bs' ≤ zlen l → patch (patch l i bs) i bs' = patch l i bs'.
Proof.
  intros Hi Hle Hfit. unfold patch at 1 3. rewrite <- (Z2Nat.id i) in Hfit by done. unfold patch. set (k := Z.to_nat i) in *.
  rewrite take_app_le, take_take, Nat.min_id by (rewrite length_take; lia). do 2 f_equal.
  rewrite app_assoc, drop_app_ge by (rewrite length_app, length_take; lia).
  rewrite drop_drop. f_equal. rewrite length_app, length_take. lia.
Qed.

Lemma slice_patch l i bs : 0 ≤ i → i + zlen bs ≤ zlen l → take (length bs) (drop (Z.to_nat i) (patch l i bs)) = bs.
Proof.
  intros. unfold patch. rewrite drop_app_length' by (rewrite length_take; lia). by rewrite take_app_length.
Qed.

Lemma elem_of_take_in {A} n (l : list A) x : x ∈ take n l → x ∈ l.
Proof. intros Hx. rewrite <- (take_drop n l). apply elem_of_app. by left. Qed.

(** ** Loops that may stop *)

Lemma wp_all_loop_inv {S} (I : Z → S → Prop) (F : S → Prop) n : ∀ i (body : Z → M S bool) s, I i s →
  (∀ j s, i ≤ j < i + Z.of_nat n → I j s → wp (body j) s (λ ok s', if (ok : bool) then I (j + 1) s' else F s')) →
  wp (all_loop n i body) s (λ ok s', if (ok : bool) then I (i + Z.of_nat n) s' else F s').
Proof.
  induction n as [|n IH]; intros i body s HI Hbody; cbn [all_loop]; [apply wp_ret; by rewrite Z.add_0_r|].
  apply wp_bind. eapply wp_mono; [apply Hbody; [lia|done]|]. intros [] s' Hs'; [|by apply wp_ret].
  replace (i + Z.of_nat (Datatypes.S n)) with (i + 1 + Z.of_nat n) by lia. apply IH; [done|]. intros j s2 Hj. apply Hbody. lia.
Qed.

(** ** Steps *)

Section Spec.
Context {R : Type} `{!Random R, !Host, !Runner} (max_det : Z) (d0 : dict).

Lemma wp_xupd f (s : extras_stage R) (Q : unit → extras_stage R → Prop) : Q tt (f s) → wp (xupd f) s Q.
Proof. done. Qed.

Lemma wp_on_buffers {A} (m : M (havoc R) A) (s : extras_stage R) (Q : A → extras_stage R → Prop) :
  wp m (buffers s) (λ a h, Q a (set_buffers h s)) → wp (on_buffers m) s Q.
Proof. unfold wp, on_buffers. by destruct (m (buffers s)) as [[a h]|e|]. Qed.

(** [b] is at the start of [out_buf], and [c] the test case. *)
Record works_on (c rest em b : list Z) (s : extras_stage R) : Prop := {
  wo_in : in_buf s = c;
  wo_out : AflHavoc.out_buf (buffers s) = Some (b ++ rest);
  wo_tokens : ∃ q, tokens (buffers s) = AflDict.set_requests q d0;
  wo_eff : eff_map s = em }.

(** [token_at] hands out the tokens [us]. *)
Definition hands_out (token_at : Z → M (havoc R) (Z * M (havoc R) (list Z))) (us : list (list Z)) : Prop :=
  ∀ (j : nat) t h q Q, us !! j = Some t → tokens h = AflDict.set_requests q d0 →
    (∀ m, reads d0 (zlen t) m t → Q (zlen t, m) h) → wp (token_at (Z.of_nat j)) h Q.

(** [skip] changes the generator only, and does not skip when [det] holds. *)
Definition may_skip (det : Prop) (skip : M (havoc R) bool) : Prop :=
  ∀ h q (Q : bool → havoc R → Prop), tokens h = AflDict.set_requests q d0 →
    (∀ b g, (det → b = false) → Q b (set_gen g h)) → wp skip h Q.

Lemma user_token_ok us : dictionary d0 us → hands_out user_token us.
Proof.
  intros [l Hst] j t h q Q Hj Hq HQ. destruct (stores_lookup _ _ _ j Hst) as (e & t' & Ha & He & Ht & Ho); [by eapply lookup_lt_Some|].
  rewrite Ht in Hj. simplify_eq. apply wp_bind, wp_in_dict. eapply wp_extra_at; [simpl; by rewrite Hq|by rewrite Nat2Z.id|].
  apply wp_ret. rewrite set_tokens_same. destruct Ho as [Hlen Ho]. rewrite Hlen. apply HQ. split; [done|].
  intros s1 q1 Q1 Hq1 HQ1. apply wp_in_dict. rewrite <- Hlen. eapply wp_read_owned; [rewrite Hq1; by split|done|]. by rewrite set_tokens_same.
Qed.

Lemma auto_token_ok : table (a_extras d0) → hands_out auto_token (token <$> a_extras d0).
Proof.
  intros [Hall _ _] j t h q Q Hj Hq HQ. apply list_lookup_fmap_Some in Hj as (e & -> & He). apply wp_bind, wp_get.
  rewrite Hq. simpl. rewrite Nat2Z.id, He. apply wp_ret. rewrite Forall_forall in Hall.
  destruct (Hall e) as (Hd & Hlen & _); [by eapply list_elem_of_lookup_2|].
  assert (a_extra_len e = zlen (token e)) as Hl by (unfold token; rewrite length_take; lia). rewrite Hl at 1. apply HQ. split; [done|].
  intros s1 q1 Q1 _ HQ1. by apply wp_slice; [lia..|].
Qed.

Lemma skip_user_ok us : dictionary d0 us → zlen us < 2 ^ 28 → 0 ≤ max_det → may_skip (extras_cnt d0 ≤ max_det) (skip_user_token max_det).
Proof.
  intros [l Hst] Hus Hmax h q Q Hq HQ. pose proof (stores_length _ _ _ Hst). pose proof (st_cnt _ _ _ Hst) as Hcnt.
  apply wp_bind, wp_get. rewrite Hq. simpl. case_decide as Hd.
  - apply wp_ret. specialize (HQ false (gen h) (λ _, eq_refl)). by destruct h.
  - apply wp_bind, wp_rand; [lia|]. intros r g Hr. apply wp_ret, HQ. lia.
Qed.

Lemma never_skips : may_skip True (mret false).
Proof. intros h q Q Hq HQ. apply wp_ret. specialize (HQ false (gen h) (λ _, eq_refl)). by destruct h. Qed.

(** ** Tokens over the input *)

Section Over.
Context (c rest em : list Z) (past : list (list Z)) (us : list (list Z)).
Context (Hc : 1 ≤ zlen c ≤ MAX_FILE) (Hem : EFF_ALEN (zlen c) ≤ zlen em) (Hsort : by_length us).
Context (det : Prop) (skip : M (havoc R) bool) (token_at : Z → M (havoc R) (Z * M (havoc R) (list Z))).
Context (Hskip : may_skip det skip) (Htok : hands_out token_at us).

(** The effector map has a byte that matters among those of [n] positions. *)
Definition effective (i n : Z) : Prop := 1 ∈ take (Z.to_nat (EFF_SPAN_ALEN i n)) (drop (Z.to_nat (EFF_APOS i)) em).

#[local] Instance effective_dec i n : Decision (effective i n).
Proof. unfold effective. apply _. Defined.

(** A token of [ts] over some position. *)
Definition overwritten (ts : list (list Z)) (x : list Z) : Prop :=
  ∃ i t, t ∈ ts ∧ 0 ≤ i ∧ i + zlen t ≤ zlen c ∧ x = patch c i t.

(** The token at [i] that counts was run, or it makes the test case itself. *)
Definition tried_over (new : list (list Z)) (i : Z) (t : list Z) : Prop :=
  i + zlen t ≤ zlen c → effective i (zlen t) → patch c i t = c ∨ patch c i t ∈ new.

(** At position [i], after the tokens [pre], with [b] in the buffer. *)
Record over_inv (i : Z) (pre : list (list Z)) (last : Z) (b : list Z) (new : list (list Z)) : Prop := {
  ov_last : last = 0 ∧ b = c ∨ ∃ t, t ∈ pre ∧ last = zlen t ∧ i + zlen t ≤ zlen c ∧ b = patch c i t;
  ov_seen : b = c ∨ b ∈ new;
  ov_tried : det → Forall (tried_over new i) pre }.

Lemma tried_more new x i t : tried_over new i t → tried_over (new ++ [x]) i t.
Proof. intros Ht H1' H2'. destruct (Ht H1' H2') as [|Hin]; [by left|right]. apply elem_of_app. by left. Qed.

Lemma over_skipped i pre t last b new : 0 ≤ i → over_inv i pre last b new → (det → tried_over new i t) → over_inv i (pre ++ [t]) last b new.
Proof.
  intros Hi [Hl Hs Ht] Hnew. split; [|done|].
  - destruct Hl as [|(t' & Hin & Hl)]; [by left|right]. exists t'. split; [|done]. apply elem_of_app. by left.
  - intros Hd. apply Forall_app. split; [by apply Ht|]. constructor; [by apply Hnew|constructor].
Qed.

(** Whatever token lies there, a token that is no shorter covers it. *)
Lemma over_patch i pre t last b new : 0 ≤ i → over_inv i pre last b new → (∀ u, u ∈ pre → zlen u ≤ zlen t) → i + zlen t ≤ zlen c →
  patch b i t = patch c i t ∧ length b = length c.
Proof.
  intros Hi [Hl _ _] Hle Hfit. destruct Hl as [[_ ->]|(u & Hin & _ & Hu & ->)]; [done|]. specialize (Hle _ Hin).
  split; [apply patch_over; lia|apply length_patch; lia].
Qed.

Lemma wp_span_effective i n s b (Q : bool → extras_stage R → Prop) : works_on c rest em b s → 0 ≤ i → 0 < n → i + n ≤ zlen c →
  Q (bool_decide (effective i n)) s → wp (span_effective i n) s Q.
Proof using Hem.
  intros Hs Hi Hn Hfit HQ. unfold span_effective. apply wp_bind, wp_get. rewrite (wo_eff _ _ _ _ _ Hs).
  assert (0 ≤ EFF_APOS i ∧ 0 ≤ EFF_SPAN_ALEN i n ∧ EFF_APOS i + EFF_SPAN_ALEN i n ≤ zlen em) as (H1' & H2' & H3').
  { unfold EFF_ALEN, EFF_SPAN_ALEN, EFF_APOS in *. rewrite !Z.shiftr_div_pow2 in * by lia. change 7 with (Z.ones 3) in Hem.
    rewrite Z.land_ones in Hem by lia. change (2 ^ 3) with 8 in *. case_decide; zmod. }
  apply wp_bind, wp_on_buffers, wp_slice; [done..|]. apply wp_ret. destruct s. exact HQ.
Qed.

Lemma fits_u32 i n : 0 ≤ i < zlen c → (u32 (zlen c - i) < n ↔ zlen c < i + n).
Proof using Hc. clear -Hc. intros Hi. unfold MAX_FILE in Hc. rewrite wrap_small by lia. lia. Qed.

Lemma wp_over_tokens i : 0 ≤ i < zlen c → ∀ post pre last b new s, us = pre ++ post → over_inv i pre last b new →
  works_on c rest em b s → tested s = past ++ new → Forall (overwritten us) new →
  wp (over_tokens (length post) skip token_at i (zlen pre) last) s (λ r s', ∃ b' new', tested s' = past ++ new ++ new' ∧
    Forall (overwritten us) (new ++ new') ∧ ∀ last', r = Some last' → over_inv i us last' b' (new ++ new') ∧ works_on c rest em b' s').
Proof using Hc Hem Hsort Hskip Htok.
  intros Hi. induction post as [|t post IH]; intros pre last b new s Hus Hinv Hs Hlog Hsound.
  { apply wp_ret. exists b, []. rewrite !app_nil_r in *. subst us. split; [done|]. split; [done|]. by intros ? [= <-]. }
  cbn [length over_tokens]. replace (zlen pre + 1) with (zlen (pre ++ [t])) by (rewrite length_app; simpl; lia).
  assert (∀ s1, (det → tried_over new i t) → works_on c rest em b s1 → tested s1 = tested s →
    wp (_ ← xupd (λ s, set_progress (stage_cur s) (u32 (stage_max s - 1)) s); over_tokens (length post) skip token_at i (zlen (pre ++ [t])) last) s1
      (λ r s', ∃ b' new', tested s' = past ++ new ++ new' ∧ Forall (overwritten us) (new ++ new') ∧
        ∀ last', r = Some last' → over_inv i us last' b' (new ++ new') ∧ works_on c rest em b' s')) as Hskipped.
  { intros s1 Htried Hs1 Ht1. apply wp_bind, wp_xupd. apply (IH _ _ b); [by rewrite Hus, <- app_assoc|by apply over_skipped; [lia|..]| |simpl; congruence|done].
    destruct Hs1. by split. }
  cbv zeta. apply wp_bind, wp_get. destruct (wo_tokens _ _ _ _ _ Hs) as [q Hq].
  apply wp_bind, wp_on_buffers. eapply Hskip; [exact Hq|]. intros dropped g Hdrop.
  assert (works_on c rest em b (set_buffers (set_gen g (buffers s)) s)) as Hs1 by (destruct Hs; split; eauto).
  destruct dropped; [apply Hskipped; [intros Hd; by specialize (Hdrop Hd)|done|done]|].
  assert (us !! length pre = Some t) as Ht by (rewrite Hus; by apply list_lookup_middle).
  apply wp_bind, wp_on_buffers. eapply Htok; [exact Ht|exact Hq|]. intros m [_ Hm]. simpl.
  change (set_buffers (set_gen g (buffers s)) (set_buffers (set_gen g (buffers s)) s)) with (set_buffers (set_gen g (buffers s)) s).
  set (s1 := set_buffers (set_gen g (buffers s)) s) in *. rewrite (wo_in _ _ _ _ _ Hs).
  case_decide as Hfit; [apply Hskipped; [intros _ Hfits; rewrite fits_u32 in Hfit by done; lia|done|done]|]. rewrite fits_u32 in Hfit by done. apply Z.nlt_ge in Hfit.
  assert (∀ u, u ∈ pre → zlen u ≤ zlen t) as Hle.
  { intros u [k Hk]%list_elem_of_lookup. pose proof (lookup_lt_Some _ _ _ Hk). eapply (by_length_le us k (length pre)); [exact Hsort| |exact Ht|].
    - rewrite Hus. by apply lookup_app_l_Some.
    - lia. }
  destruct (over_patch i pre t last b new) as [Hpatch Hlen]; [lia|done|done|done|].
  apply wp_bind, wp_on_buffers. eapply (Hm _ q); [exact Hq|]. change (set_buffers (buffers s1) s1) with s1.
  apply wp_bind, wp_on_buffers. apply (wp_read_raw (b ++ rest)); [apply Hs1|lia|lia|rewrite length_app; lia|].
  rewrite slice_app by lia. change (set_buffers (buffers s1) s1) with s1.
  case_decide as Hsame.
  { apply Hskipped; [|done|done]. intros _ _ _. assert (patch b i t = b) as Hb.
    { rewrite Hsame. rewrite <- (Z2Nat.id i) at 1 by lia. apply patch_slice. lia. }
    rewrite <- Hpatch, Hb. apply Hinv. }
  assert (0 < zlen t) as Hpos by (destruct t; [done|simpl; lia]).
  apply wp_bind. eapply wp_span_effective; [exact Hs1|lia|lia|done|]. case_bool_decide as Heff; simpl.
  2: { apply Hskipped; [by intros _ _ ?|done|done]. }
  apply wp_bind, wp_on_buffers. apply (wp_write_raw (b ++ rest)); [apply Hs1|lia|rewrite length_app; lia|].
  rewrite patch_app, Hpatch by lia. assert (length (patch c i t) = length c) as Hlen' by (apply length_patch; lia).
  apply wp_bind, wp_on_buffers. apply (wp_read_raw (patch c i t ++ rest)); [done|lia|lia|rewrite length_app; lia|].
  change (Z.to_nat 0) with 0%nat. rewrite drop_0, take_app_length' by lia.
  assert (Forall (overwritten us) (new ++ [patch c i t])) as Hsound'.
  { apply Forall_app. split; [done|]. constructor; [|constructor]. exists i, t. split; [by eapply list_elem_of_lookup_2|]. split; [lia|done]. }
  apply wp_bind. unfold run_input. apply wp_bind, wp_get, wp_bind, wp_put, wp_ret. destruct (abandons _ _).
  { apply wp_ret. exists b, [patch c i t]. split; [simpl; by rewrite Hlog, <- app_assoc|]. by split. }
  apply wp_bind, wp_xupd. eapply wp_mono; [apply (IH _ _ (patch c i t) (new ++ [patch c i t])); [by rewrite Hus, <- app_assoc| | |simpl; by rewrite Hlog, <- app_assoc|done]|].
  - split; [right; exists t; split; [apply elem_of_app; right; apply list_elem_of_here|done]|right; apply elem_of_app; right; apply list_elem_of_here|].
    intros Hd. apply Forall_app. split; [eapply Forall_impl; [by apply Hinv|intros u; apply tried_more]|].
    constructor; [|constructor]. intros _ _. right. apply elem_of_app. right. apply list_elem_of_here.
  - split; simpl; [apply Hs|done|eauto|apply Hs].
  - intros r s' (b' & new' & Ht' & Hall & Hrest). exists b', (patch c i t :: new'). rewrite <- !app_assoc in *. by split.
Qed.

Lemma over_position_ok i new s : 0 ≤ i < zlen c → works_on c rest em c s → tested s = past ++ new → Forall (overwritten us) new →
  wp (over_position (length us) skip token_at i) s (λ ok s', ∃ new', tested s' = past ++ new ++ new' ∧ Forall (overwritten us) (new ++ new') ∧
    (ok = true → works_on c rest em c s' ∧ (det → Forall (tried_over (new ++ new') i) us))).
Proof using Hc Hem Hsort Hskip Htok.
  intros Hi Hs Hlog Hsound. apply wp_bind. eapply wp_mono; [apply (wp_over_tokens i Hi us [] 0 c new); try done|].
  { split; [by left|by left|constructor]. }
  intros r s1 (b & new' & Hlog' & Hsound' & Hdone). destruct r as [last|]; [|apply wp_ret; by exists new'].
  destruct (Hdone _ eq_refl) as [[Hl _ Htried] Hs1]. apply wp_bind, wp_get. rewrite (wo_in _ _ _ _ _ Hs1).
  assert (0 ≤ last ∧ i + last ≤ zlen c ∧ patch b i (take (Z.to_nat last) (drop (Z.to_nat i) c)) = c ∧ length b = length c) as (Hl0 & Hl1 & Hback & Hb).
  { destruct Hl as [[-> ->]|(t & Hin & -> & Hfit & ->)].
    - split; [done|]. split; [lia|]. split; [apply patch_nil|done].
    - split; [lia|]. split; [lia|]. split; [|by apply length_patch; lia]. rewrite patch_over by (rewrite ?length_take, ?length_drop; lia).
      rewrite <- (Z2Nat.id i) at 1 by lia. apply patch_slice. lia. }
  apply wp_bind, wp_on_buffers, wp_slice; [lia..|]. apply wp_bind, wp_on_buffers. eapply wp_write_raw; [apply Hs1|lia|rewrite length_app, length_take, length_drop; lia|].
  rewrite patch_app by (rewrite ?length_take, ?length_drop; lia). rewrite Hback. apply wp_ret. exists new'. split; [done|]. split; [done|].
  intros _. split; [|done]. destruct Hs1. by split.
Qed.

Lemma overwrite_stage_ok new s : works_on c rest em c s → tested s = past ++ new → Forall (overwritten us) new →
  wp (overwrite_stage (zlen us) skip token_at) s (λ ok s', ∃ new', tested s' = past ++ new ++ new' ∧ Forall (overwritten us) (new ++ new') ∧
    (ok = true → works_on c rest em c s' ∧
      (det → ∀ i t, 0 ≤ i < zlen c → t ∈ us → tried_over (new ++ new') i t))).
Proof using Hc Hem Hsort Hskip Htok.
  intros Hs Hlog Hsound. apply wp_bind, wp_get, wp_bind, wp_xupd. rewrite (wo_in _ _ _ _ _ Hs), !Nat2Z.id.
  eapply wp_mono; [apply (wp_all_loop_inv (λ j s', ∃ new', tested s' = past ++ new ++ new' ∧ Forall (overwritten us) (new ++ new') ∧
    works_on c rest em c s' ∧ (det → ∀ i t, 0 ≤ i < j → t ∈ us → tried_over (new ++ new') i t))
    (λ s', ∃ new', tested s' = past ++ new ++ new' ∧ Forall (overwritten us) (new ++ new')))|].
  - exists []. rewrite app_nil_r. split; [done|]. split; [done|]. split; [destruct Hs; by split|]. intros _ i t Hi. lia.
  - intros j s1 Hj (new1 & Hlog1 & Hsound1 & Hs1 & Htr). eapply wp_mono; [apply (over_position_ok j (new ++ new1)); [lia|done|done|done]|].
    intros ok s2 (new2 & Hlog2 & Hsound2 & Hok). rewrite <- app_assoc in *. destruct ok; [|by exists (new1 ++ new2)].
    exists (new1 ++ new2). split; [done|]. split; [done|]. destruct (Hok eq_refl) as [Hs2 Htr2]. split; [done|]. intros Hd i t Hi Ht.
    destruct (decide (i = j)) as [->|]; [specialize (Htr2 Hd); rewrite Forall_forall in Htr2; by apply Htr2|].
    rewrite app_assoc. intros Hf He. destruct (Htr Hd i t ltac:(lia) Ht Hf He) as [|Hin]; [by left|right]. apply elem_of_app. by left.
  - intros ok s1 Hs1. destruct ok; [|destruct Hs1 as (new' & ? & ?); by exists new']. destruct Hs1 as (new' & Hl1 & Hs1' & Hw & Ht). exists new'.
    split; [done|]. split; [done|]. intros _. split; [done|]. intros Hd i t Hi. apply Ht; [done|]. lia.
Qed.
End Over.

(** ** Tokens inserted *)

Section Insert.
Context (c rest em : list Z) (past : list (list Z)) (us : list (list Z)).
Context (Hc : 1 ≤ zlen c ≤ MAX_FILE) (Hshort : Forall (λ t, zlen t ≤ MAX_DICT_FILE) us).
Context (token_at : Z → M (havoc R) (Z * M (havoc R) (list Z))) (Htok : hands_out token_at us).

(** A token of [ts] inserted somewhere. *)
Definition inserted (ts : list (list Z)) (x : list Z) : Prop :=
  ∃ (i : nat) t, t ∈ ts ∧ (i ≤ length c)%nat ∧ x = take i c ++ t ++ drop i c.

Definition tried_insert (new : list (list Z)) (i : nat) (t : list Z) : Prop :=
  zlen c + zlen t ≤ MAX_FILE → take i c ++ t ++ drop i c ∈ new.

(** The extra buffer starts with the first [i] bytes of the test case. *)
Definition ex_ready (i : nat) (s : extras_stage R) : Prop :=
  ∃ l, ex_buf s = Some l ∧ zlen c + MAX_DICT_FILE ≤ zlen l ∧ take i l = take i c.

Lemma wp_with_ex {A} (f : list Z → M (havoc R) A) l s (Q : A → extras_stage R → Prop) :
  ex_buf s = Some l → wp (f l) (buffers s) (λ a h, Q a (set_buffers h s)) → wp (with_ex f) s Q.
Proof. intros He Hf. unfold with_ex. apply wp_bind, wp_get. rewrite He. by apply wp_on_buffers. Qed.

Lemma wp_write_ex l off bs s (Q : unit → extras_stage R → Prop) : ex_buf s = Some l → 0 ≤ off → off + zlen bs ≤ zlen l →
  Q tt (set_ex_buf (Some (patch l off bs)) s) → wp (write_ex off bs) s Q.
Proof.
  intros He Ho Hl HQ. unfold write_ex. apply wp_bind. eapply wp_with_ex; [done|]. apply wp_blit; [done..|]. apply wp_xupd. by destruct s.
Qed.

(** The token and the tail of the test case behind the head that is there. *)
Lemma insert_built l (i : nat) t : (i ≤ length c)%nat → take i l = take i c → zlen c + zlen t ≤ zlen l →
  ∃ r, patch (patch l (Z.of_nat i) t) (Z.of_nat i + zlen t) (drop i c) = (take i c ++ t ++ drop i c) ++ r.
Proof.
  intros Hi Hhead Hroom. assert (length (take i c) = i) as Hti by (rewrite length_take; lia).
  assert (∃ r, l = take i c ++ r) as [r ->] by (exists (drop i l); by rewrite <- Hhead, take_drop).
  exists (drop (length (drop i c)) (drop (length t) r)).
  rewrite patch_app_r by lia. rewrite Hti, Z.sub_diag, patch_start. rewrite (app_assoc (take i c) t).
  rewrite patch_app_r by (rewrite length_app; lia). rewrite length_app, Hti.
  replace (Z.of_nat i + zlen t - Z.of_nat (i + length t)) with 0 by lia. by rewrite patch_start, <- !app_assoc.
Qed.

Lemma insert_token_ok (i j : nat) t new s : (i ≤ length c)%nat → us !! j = Some t → works_on c rest em c s → ex_ready i s →
  tested s = past ++ new → Forall (inserted us) new →
  wp (insert_token token_at (Z.of_nat i) (Z.of_nat j)) s (λ ok s', ∃ new', tested s' = past ++ new ++ new' ∧ Forall (inserted us) (new ++ new') ∧
    (ok = true → works_on c rest em c s' ∧ ex_ready i s' ∧ tried_insert (new ++ new') i t)).
Proof using Hc Hshort Htok.
  intros Hi Ht Hs (l & Hl & Hroom & Hhead) Hlog Hsound. destruct (wo_tokens _ _ _ _ _ Hs) as [q Hq].
  assert (zlen t ≤ MAX_DICT_FILE) as Htl. { rewrite Forall_forall in Hshort. apply Hshort. by eapply list_elem_of_lookup_2. }
  unfold insert_token. apply wp_bind, wp_get. rewrite (wo_in _ _ _ _ _ Hs). cbv zeta. apply wp_bind, wp_on_buffers.
  eapply Htok; [exact Ht|exact Hq|]. intros m [_ Hm]. replace (set_buffers (buffers s) s) with s by (by destruct s). case_decide as Hmax.
  { apply wp_bind, wp_xupd, wp_ret. exists []. rewrite !app_nil_r. split; [done|]. split; [done|]. intros _.
    split; [destruct Hs; by split|]. split; [by exists l|]. intros Hm'. lia. }
  apply wp_bind, wp_on_buffers. eapply (Hm _ q); [exact Hq|]. replace (set_buffers (buffers s) s) with s by (by destruct s).
  apply wp_bind. eapply wp_write_ex; [exact Hl|lia|lia|].
  apply wp_bind, wp_on_buffers. eapply (wp_read_raw (c ++ rest)); [apply Hs|lia|lia|rewrite length_app; lia|].
  rewrite Nat2Z.id, slice_app, take_ge by (rewrite ?length_drop; lia).
  apply wp_bind. eapply wp_write_ex; [done|lia|rewrite length_patch, length_drop by lia; lia|].
  destruct (insert_built l i t) as [r Hr]; [done|done|lia|]. rewrite Hr. set (x := take i c ++ t ++ drop i c) in *.
  assert (zlen x = zlen c + zlen t) as Hx by (unfold x; rewrite !length_app, length_take, length_drop; lia).
  assert (zlen (x ++ r) = zlen l) as Hxl by (rewrite <- Hr, !length_patch; rewrite ?length_patch, ?length_drop by lia; lia).
  apply wp_bind. eapply wp_with_ex; [done|]. apply wp_slice; [lia|lia|lia|]. change (Z.to_nat 0) with 0%nat. rewrite drop_0, take_app_length' by lia.
  assert (Forall (inserted us) (new ++ [x])) as Hsound'.
  { apply Forall_app. split; [done|]. constructor; [|constructor]. exists i, t. split; [by eapply list_elem_of_lookup_2|done]. }
  apply wp_bind. unfold run_input. apply wp_bind, wp_get, wp_bind, wp_put, wp_ret. destruct (abandons _ _).
  { apply wp_ret. exists [x]. split; [simpl; by rewrite Hlog, <- app_assoc|]. by split. }
  apply wp_bind, wp_xupd, wp_ret. exists [x]. split; [simpl; by rewrite Hlog, <- app_assoc|]. split; [done|]. intros _.
  split; [destruct Hs; split; simpl; eauto|]. split; [|intros _; apply elem_of_app; right; apply list_elem_of_here].
  exists (x ++ r). split; [done|]. split; [lia|]. unfold x. rewrite <- !app_assoc, take_app_length' by (rewrite length_take; lia). done.
Qed.

Lemma tried_insert_more new new' i t : tried_insert new i t → tried_insert (new ++ new') i t.
Proof. intros Ht Hm. apply elem_of_app. left. by apply Ht. Qed.

Lemma insert_tokens_ok (i : nat) new s : (i ≤ length c)%nat → works_on c rest em c s → ex_ready i s →
  tested s = past ++ new → Forall (inserted us) new →
  wp (all_loop (length us) 0 (insert_token token_at (Z.of_nat i))) s (λ ok s', ∃ new', tested s' = past ++ new ++ new' ∧
    Forall (inserted us) (new ++ new') ∧ (ok = true → works_on c rest em c s' ∧ ex_ready i s' ∧ Forall (tried_insert (new ++ new') i) us)).
Proof using Hc Hshort Htok.
  intros Hi Hs Hex Hlog Hsound.
  eapply wp_mono; [apply (wp_all_loop_inv (λ j s', ∃ new', tested s' = past ++ new ++ new' ∧ Forall (inserted us) (new ++ new') ∧
    works_on c rest em c s' ∧ ex_ready i s' ∧ Forall (tried_insert (new ++ new') i) (take (Z.to_nat j) us))
    (λ s', ∃ new', tested s' = past ++ new ++ new' ∧ Forall (inserted us) (new ++ new')))|].
  - exists []. rewrite app_nil_r. change (Z.to_nat 0) with 0%nat. rewrite take_0. repeat (split; [done|]). constructor.
  - intros j s1 Hj (new1 & Hlog1 & Hsound1 & Hs1 & Hex1 & Htr). destruct (lookup_lt_is_Some_2 us (Z.to_nat j)) as [t Ht]; [lia|].
    rewrite <- (Z2Nat.id j) at 1 by lia. eapply wp_mono; [by apply (insert_token_ok i (Z.to_nat j) t (new ++ new1))|].
    intros ok s2 (new2 & Hlog2 & Hsound2 & Hok). rewrite <- app_assoc in *. destruct ok; [|by exists (new1 ++ new2)].
    destruct (Hok eq_refl) as (Hs2 & Hex2 & Ht2). exists (new1 ++ new2). do 4 (split; [done|]).
    replace (Z.to_nat (j + 1)) with (S (Z.to_nat j)) by lia. rewrite (take_S_r _ _ _ Ht). apply Forall_app. split; [|by constructor].
    eapply Forall_impl; [exact Htr|]. intros u. rewrite app_assoc. apply tried_insert_more.
  - intros ok s1 Hs1. destruct ok; [|destruct Hs1 as (new' & ? & ?); by exists new']. destruct Hs1 as (new' & Hl1 & Hs1' & Hw & Hex1 & Ht).
    exists new'. do 2 (split; [done|]). intros _. do 2 (split; [done|]). by rewrite Z.add_0_l, Nat2Z.id, firstn_all in Ht.
Qed.

(** The next byte of the head: that behind the test case in the last round. *)
Lemma insert_position_ok (i : nat) new s : (i < length c ∨ i = length c ∧ rest ≠ [])%nat → works_on c rest em c s → ex_ready i s →
  tested s = past ++ new → Forall (inserted us) new →
  wp (insert_position (zlen us) token_at (Z.of_nat i)) s (λ ok s', ∃ new', tested s' = past ++ new ++ new' ∧ Forall (inserted us) (new ++ new') ∧
    (ok = true → works_on c rest em c s' ∧ ((i < length c)%nat → ex_ready (S i) s') ∧ Forall (tried_insert (new ++ new') i) us)).
Proof using Hc Hshort Htok.
  intros Hi Hs Hex Hlog Hsound. unfold insert_position. rewrite Nat2Z.id. apply wp_bind.
  eapply wp_mono; [by apply (insert_tokens_ok i new); [lia|..]|]. intros ok s1 (new' & Hlog' & Hsound' & Hok).
  destruct ok; simpl; [|apply wp_ret; by exists new']. destruct (Hok eq_refl) as (Hs1 & (l & Hl & Hroom & Hhead) & Htr).
  assert (Z.of_nat i + 1 ≤ zlen (c ++ rest)) as Hone.
  { rewrite length_app. destruct Hi as [|[-> Hne]]; [lia|]. destruct rest; [done|simpl; lia]. }
  apply wp_bind, wp_on_buffers. eapply wp_read_raw; [apply Hs1|lia|lia|exact Hone|]. replace (set_buffers (buffers s1) s1) with s1 by (by destruct s1).
  rewrite Nat2Z.id. change (Z.to_nat 1) with 1%nat. set (bs := take 1 _). assert (length bs = 1%nat) as Hbs by (unfold bs; rewrite length_take, length_drop; lia).
  unfold MAX_DICT_FILE in *. apply wp_bind. eapply wp_write_ex; [exact Hl|lia|lia|]. apply wp_ret. exists new'. do 2 (split; [done|]). intros _.
  split; [destruct Hs1; by split|]. split; [|done]. intros Hlt. exists (patch l (Z.of_nat i) bs). split; [done|].
  split; [unfold MAX_DICT_FILE; rewrite length_patch by lia; lia|]. unfold patch. rewrite Nat2Z.id, app_assoc, take_app_le, take_ge by (rewrite length_app, length_take; lia).
  destruct (lookup_lt_is_Some_2 c i Hlt) as [x Hx]. rewrite (take_S_r _ _ _ Hx), Hhead. f_equal. unfold bs.
  rewrite drop_app_le by lia. by rewrite (drop_S _ _ _ Hx).
Qed.

Lemma insertion_stage_ok new s : never_refuses → rest ≠ [] → works_on c rest em c s → tested s = past ++ new → Forall (inserted us) new →
  wp (insertion_stage (zlen us) token_at) s (λ ok s', ∃ new', tested s' = past ++ new ++ new' ∧ Forall (inserted us) (new ++ new') ∧
    (ok = true → works_on c rest em c s' ∧ ∀ (i : nat) t, (i ≤ length c)%nat → t ∈ us → tried_insert (new ++ new') i t)).
Proof using Hc Hshort Htok.
  intros Hn Hrest Hs Hlog Hsound. unfold insertion_stage, MAX_FILE in *. apply wp_bind, wp_get, wp_bind, wp_xupd. rewrite (wo_in _ _ _ _ _ Hs).
  apply wp_bind, wp_on_buffers, wp_afl_grow; [done|unfold MAX_DICT_FILE; lia|]. intros l h Hl _ [Ho Hlen [q Hq]] _. apply wp_bind, wp_xupd.
  eapply wp_mono; [apply (wp_all_loop_inv (λ z s', ∃ new', tested s' = past ++ new ++ new' ∧ Forall (inserted us) (new ++ new') ∧
    works_on c rest em c s' ∧ (z ≤ zlen c → ex_ready (Z.to_nat z) s') ∧
    ∀ (i : nat) t, (Z.of_nat i < z) → t ∈ us → tried_insert (new ++ new') i t)
    (λ s', ∃ new', tested s' = past ++ new ++ new' ∧ Forall (inserted us) (new ++ new')))|].
  - exists []. rewrite app_nil_r. do 2 (split; [done|]). split.
    { destruct Hs as [? Hso [q0 Hq0] ?]. simpl in *. split; simpl; [done|by rewrite Ho|exists q; by rewrite Hq, Hq0|done]. }
    split; [|intros; lia]. intros _. exists l. split; [done|]. split; [done|]. by rewrite !take_0.
  - intros z s1 Hz (new1 & Hlog1 & Hsound1 & Hs1 & Hex1 & Htr).
    rewrite <- (Z2Nat.id z) at 1 by lia. eapply wp_mono; [apply (insert_position_ok (Z.to_nat z) (new ++ new1)); try done|].
    { destruct (decide (z = zlen c)); [right|left]; lia || (split; [lia|done]). }
    { apply Hex1. lia. }
    intros ok s2 (new2 & Hlog2 & Hsound2 & Hok). rewrite <- app_assoc in *. destruct ok; [|by exists (new1 ++ new2)].
    destruct (Hok eq_refl) as (Hs2 & Hex2 & Ht2). exists (new1 ++ new2). do 3 (split; [done|]). split.
    { intros Hlt. replace (Z.to_nat (z + 1)) with (S (Z.to_nat z)) by lia. apply Hex2. lia. }
    intros i t Hi Ht. destruct (decide (i = Z.to_nat z)) as [->|]; [rewrite Forall_forall in Ht2; by apply Ht2|].
    rewrite app_assoc. apply tried_insert_more. apply Htr; [lia|done].
  - intros ok s1 Hs1. destruct ok; [|destruct Hs1 as (new' & ? & ?); by exists new']. destruct Hs1 as (new' & Hl1 & Hs1' & Hw & _ & Ht).
    exists new'. do 2 (split; [done|]). intros _. split; [done|]. intros i t Hi Hin. apply Ht; [lia|done].
Qed.
End Insert.

(** ** Both kinds of tokens *)

Lemma overwritten_mono c ts ts' x : (∀ t, t ∈ ts → t ∈ ts') → overwritten c ts x → overwritten c ts' x.
Proof. intros Hts (i & t & Ht & Hrest). exists i, t. split; [by apply Hts|done]. Qed.

Lemma inserted_mono c ts ts' x : (∀ t, t ∈ ts → t ∈ ts') → inserted c ts x → inserted c ts' x.
Proof. intros Hts (i & t & Ht & Hrest). exists i, t. split; [by apply Hts|done]. Qed.

Lemma hands_out_take n token_at us : hands_out token_at us → hands_out token_at (take n us).
Proof. intros Ho j t h q Q Hj. apply Ho. by apply lookup_take_Some in Hj as [Hj _]. Qed.

(** One kind of tokens: [ovs] are put over the input, [ins] inserted. *)
Record kind_done (c em : list Z) (det : Prop) (ovs ins new : list (list Z)) : Prop := {
  kd_over : det → ∀ i t, 0 ≤ i < zlen c → t ∈ ovs → tried_over c em new i t;
  kd_insert : ∀ (i : nat) t, (i ≤ length c)%nat → t ∈ ins → tried_insert c new i t }.

Lemma kind_done_more c em det ovs ins new1 new2 new3 : kind_done c em det ovs ins new2 → kind_done c em det ovs ins (new1 ++ new2 ++ new3).
Proof.
  intros [Ho Hi]. split.
  - intros Hd i t H1' H2' H3' H4'. destruct (Ho Hd i t H1' H2' H3' H4') as [|Hin]; [by left|right]. set_solver.
  - intros i t H1' H2' H3'. specialize (Hi i t H1' H2' H3'). set_solver.
Qed.

Lemma token_kind_ok c rest em det skip token_at n us s : never_refuses → 1 ≤ zlen c ≤ MAX_FILE → EFF_ALEN (zlen c) ≤ zlen em → rest ≠ [] →
  by_length (take n us) → Forall (λ t, zlen t ≤ MAX_DICT_FILE) us → may_skip det skip → hands_out token_at us → works_on c rest em c s →
  wp (ok ← overwrite_stage (zlen (take n us)) skip token_at; if negb ok then mret false else insertion_stage (zlen us) token_at) s
    (λ ok s', ∃ new, tested s' = tested s ++ new ∧ Forall (λ x, overwritten c (take n us) x ∨ inserted c us x) new ∧
      (ok = true → works_on c rest em c s' ∧ kind_done c em det (take n us) us new)).
Proof.
  intros Hn Hc Hem Hrest Hsort Hshort Hskip Htok Hs. apply wp_bind.
  eapply wp_mono; [apply (overwrite_stage_ok c rest em (tested s) (take n us) Hc Hem Hsort det skip token_at Hskip (hands_out_take _ _ _ Htok) [] s Hs);
    [by rewrite app_nil_r|constructor]|].
  intros ok s1 (new1 & Hlog1 & Hall1 & Hok1). simpl in Hlog1, Hall1.
  assert (∀ x, overwritten c (take n us) x → overwritten c (take n us) x ∨ inserted c us x) as Hov by tauto.
  destruct ok; simpl; [|apply wp_ret; exists new1; split; [done|split; [by eapply Forall_impl|done]]].
  destruct (Hok1 eq_refl) as [Hs1 Ht1].
  eapply wp_mono; [apply (insertion_stage_ok c rest em (tested s1) us Hc Hshort token_at Htok [] s1 Hn Hrest Hs1); [by rewrite app_nil_r|constructor]|].
  intros ok s2 (new2 & Hlog2 & Hall2 & Hok2). simpl in Hlog2, Hall2. exists (new1 ++ new2). split; [by rewrite Hlog2, Hlog1, app_assoc|].
  split; [apply Forall_app; split; [by eapply Forall_impl|eapply Forall_impl; [exact Hall2|tauto]]|]. intros ->. destruct (Hok2 eq_refl) as [Hs2 Ht2].
  split; [done|]. split.
  - intros Hd i t Hi Ht Hf He. destruct (Ht1 Hd i t Hi Ht Hf He) as [|Hin]; [by left|right]. set_solver.
  - intros i t Hi Ht Hf. specialize (Ht2 i t Hi Ht Hf). set_solver.
Qed.
End Spec.

(** ** The theorem *)

Section Stages.
Context {R : Type} `{!Random R, !Host, !Runner} (max_det : Z) (us : list (list Z)).

(** The dictionary holds the tokens [us], shortest first, and the automatic tokens that are put
    over the input come shortest first. *)
Record tokens_sorted (d : dict) : Prop := {
  ts_user : dictionary d us;
  ts_few : zlen us < 2 ^ 28;
  ts_sorted : by_length us;
  ts_table : table (a_extras d);
  ts_auto : by_length (take (Z.to_nat USE_AUTO_EXTRAS) (token <$> a_extras d)) }.

(** [rest] are the bytes that the buffer has behind the test case. *)
Record stage_ready (c rest : list Z) (s : extras_stage R) : Prop := {
  sr_in : in_buf s = c;
  sr_out : AflHavoc.out_buf (buffers s) = Some (c ++ rest);
  sr_size : 1 ≤ zlen c ≤ MAX_FILE;
  sr_eff : EFF_ALEN (zlen c) ≤ zlen (eff_map s);
  sr_tokens : tokens_sorted (tokens (buffers s)) }.

Lemma user_short d : dictionary d us → Forall (λ t, zlen t ≤ MAX_DICT_FILE) us.
Proof.
  intros [l [_ _ Ho _ _]]. clear -Ho. induction Ho as [|e t l ts (Hl & Ht & _) Ho IH]; constructor; [done|exact IH].
Qed.

Lemma auto_short d : table (a_extras d) → Forall (λ t, zlen t ≤ MAX_DICT_FILE) (token <$> a_extras d).
Proof.
  intros [Hall _ _]. apply Forall_fmap. eapply Forall_impl; [exact Hall|]. intros e (_ & Hl & _). unfold compose, token, MAX_DICT_FILE, MAX_AUTO_EXTRA in *.
  rewrite length_take. lia.
Qed.

Lemma user_extras_ok c rest em (s : extras_stage R) d0 : never_refuses → 0 ≤ max_det → tokens_sorted d0 → 1 ≤ zlen c ≤ MAX_FILE → EFF_ALEN (zlen c) ≤ zlen em →
  rest ≠ [] → works_on d0 c rest em c s →
  wp (user_extras max_det) s (λ ok s', ∃ new, tested s' = tested s ++ new ∧ Forall (λ x, overwritten c us x ∨ inserted c us x) new ∧
    (ok = true → works_on d0 c rest em c s' ∧ kind_done c em (zlen us ≤ max_det) us us new)).
Proof.
  intros Hn Hmax [Hdict Hfew Hsort _ _] Hc Hem Hrest Hs. destruct (wo_tokens _ _ _ _ _ _ Hs) as [q Hq].
  assert (extras_cnt d0 = zlen us) as Hcnt. { destruct Hdict as [l Hst]. rewrite (st_cnt _ _ _ Hst). by rewrite (stores_length _ _ _ Hst). }
  apply wp_bind, wp_get. rewrite Hq. simpl. rewrite Hcnt. case_decide as Hz.
  - apply wp_ret. exists []. rewrite app_nil_r. split; [done|]. split; [constructor|]. intros _. split; [done|].
    assert (us = []) as -> by (destruct us; [done|simpl in Hz; lia]). split; intros; by exfalso; eapply not_elem_of_nil.
  - pose proof (token_kind_ok d0 c rest em (zlen us ≤ max_det) (skip_user_token max_det) user_token (length us) us s Hn Hc Hem Hrest) as H1'.
    rewrite firstn_all in H1'. apply H1'; [done|by eapply user_short| |by apply user_token_ok|done].
    rewrite <- Hcnt. by eapply skip_user_ok.
Qed.

Lemma auto_extras_ok c rest em (s : extras_stage R) d0 : never_refuses → tokens_sorted d0 → 1 ≤ zlen c ≤ MAX_FILE → EFF_ALEN (zlen c) ≤ zlen em →
  rest ≠ [] → works_on d0 c rest em c s →
  let vs := token <$> a_extras d0 in
  wp auto_extras s (λ ok s', ∃ new, tested s' = tested s ++ new ∧ Forall (λ x, overwritten c (take (Z.to_nat USE_AUTO_EXTRAS) vs) x ∨ inserted c vs x) new ∧
    (ok = true → works_on d0 c rest em c s' ∧ kind_done c em True (take (Z.to_nat USE_AUTO_EXTRAS) vs) vs new)).
Proof.
  intros Hn [_ _ _ Htab Hsort] Hc Hem Hrest Hs vs. destruct (wo_tokens _ _ _ _ _ _ Hs) as [q Hq].
  apply wp_bind, wp_get. rewrite Hq. simpl. assert (zlen vs = zlen (a_extras d0)) as Hl by (unfold vs; by rewrite length_fmap). case_decide as Hz.
  - apply wp_ret. exists []. rewrite app_nil_r. split; [done|]. split; [constructor|]. intros _. split; [done|].
    assert (vs = []) as -> by (destruct vs; [done|simpl in Hl; lia]). rewrite take_nil. split; intros; by exfalso; eapply not_elem_of_nil.
  - assert (Z.min (zlen (a_extras d0)) USE_AUTO_EXTRAS = zlen (take (Z.to_nat USE_AUTO_EXTRAS) vs)) as ->.
    { rewrite length_take. unfold USE_AUTO_EXTRAS. lia. }
    rewrite <- Hl. apply (token_kind_ok d0 c rest em True (mret false) auto_token (Z.to_nat USE_AUTO_EXTRAS) vs s Hn Hc Hem Hrest);
      [done|by apply auto_short|apply never_skips|by apply auto_token_ok|done].
Qed.
End Stages.

(** C13. The dictionary stages, run in a buffer with room for one more byte behind the test case,
    never fault and end. Every input they run is the test case with one token over some position or
    inserted at one, and nothing else changed, although the buffer is only restored
    after the last token at a position: this needs the tokens sorted by length. The two ways use
    different tokens. Only the user's tokens and the first 4096 automatic ones ([USE_AUTO_EXTRAS])
    are ever put over the input; unless the target asks to abandon the entry, each of these is, at
    every position where it fits and touches a byte that matters (user tokens: when
    there are no more than [max_det_extras]). But whatever is in the table is inserted, the automatic
    tokens behind the first 4096 too, at every position (within the largest file), which the
    limit was to keep out of fuzzing. At the end the test case is back in the buffer. *)
Theorem dictionary_stages_correct {R : Type} `{!Random R, !Host, !Runner} max_det us c rest (s : extras_stage R) :
  never_refuses → 0 ≤ max_det → stage_ready us c rest s → rest ≠ [] →
  let vs := token <$> a_extras (tokens (buffers s)) in
  let top := take (Z.to_nat USE_AUTO_EXTRAS) vs in
  ∃ ok s' new, dictionary_stages max_det s = Ret (ok, s') ∧ tested s' = tested s ++ new ∧
    Forall (λ x, overwritten c (us ++ top) x ∨ inserted c (us ++ vs) x) new ∧
    (ok = true → AflHavoc.out_buf (buffers s') = Some (c ++ rest) ∧
      (∀ (i : nat) t, (i ≤ length c)%nat → t ∈ us ++ vs → tried_insert c new i t) ∧
      (∀ i t, 0 ≤ i < zlen c → (zlen us ≤ max_det ∧ t ∈ us) ∨ t ∈ top → tried_over c (eff_map s) new i t)).
Proof.
  intros Hn Hmax [Hin Hout Hc Hem Htok] Hrest vs top. set (d0 := tokens (buffers s)) in *.
  assert (works_on d0 c rest (eff_map s) c s) as Hs by (split; [done|done|exists (AflDict.requests d0); unfold d0; by destruct (tokens (buffers s))|done]).
  assert (∀ os ts x, (∀ t, t ∈ os → t ∈ us ++ top) → (∀ t, t ∈ ts → t ∈ us ++ vs) →
    overwritten c os x ∨ inserted c ts x → overwritten c (us ++ top) x ∨ inserted c (us ++ vs) x) as Hmono.
  { intros os ts x Hos Hts [Hx|Hx]; [left; by eapply overwritten_mono|right; by eapply inserted_mono]. }
  assert (wp (dictionary_stages max_det) s (λ ok s', ∃ new, tested s' = tested s ++ new ∧
    Forall (λ x, overwritten c (us ++ top) x ∨ inserted c (us ++ vs) x) new ∧ (ok = true → works_on d0 c rest (eff_map s) c s' ∧
      kind_done c (eff_map s) (zlen us ≤ max_det) us us new ∧ kind_done c (eff_map s) True top vs new))) as Hwp.
  { unfold dictionary_stages. apply wp_bind. eapply wp_mono; [by apply (user_extras_ok max_det us c rest (eff_map s) s d0)|].
    intros ok s1 (new1 & Hlog1 & Hall1 & Hok1). assert (Forall (λ x, overwritten c (us ++ top) x ∨ inserted c (us ++ vs) x) new1) as Hall1'.
    { eapply Forall_impl; [exact Hall1|]. intros x. apply Hmono; set_solver. }
    destruct ok; simpl; [|apply wp_ret; by exists new1]. destruct (Hok1 eq_refl) as [Hs1 Hd1].
    eapply wp_mono; [by apply (auto_extras_ok us c rest (eff_map s) s1 d0)|]. intros ok s2 (new2 & Hlog2 & Hall2 & Hok2).
    exists (new1 ++ new2). split; [by rewrite Hlog2, Hlog1, app_assoc|]. split.
    { apply Forall_app. split; [done|]. eapply Forall_impl; [exact Hall2|]. intros x. apply Hmono; set_solver. }
    intros ->. destruct (Hok2 eq_refl) as [Hs2 Hd2]. split; [done|]. split; [exact (kind_done_more _ _ _ _ _ [] _ new2 Hd1)|].
    pose proof (kind_done_more _ _ _ _ _ new1 _ [] Hd2) as Hd. by rewrite app_nil_r in Hd. }
  apply wp_Ret in Hwp as (ok & s' & E & new & Hlog & Hall & Hok). exists ok, s', new. do 3 (split; [done|]).
  intros Ho. destruct (Hok Ho) as (Hs' & [Ho1 Hi1] & [Ho2 Hi2]). split; [apply Hs'|]. split.
  - intros i t Hi [Ht|Ht]%elem_of_app; [by apply Hi1|by apply Hi2].
  - intros i t Hi [[Hm Ht]|Ht]; [by apply Ho1|by apply Ho2].
Qed.

(** ** Witnesses *)

#[local] Instance plain_runner : Runner := {| abandons := λ _ _, false; trace_cksum := λ _ _, 0; heap_byte := λ _, 0 |}.

#[local] Instance one_state : Random unit.
Proof. refine {| below := λ _ g, (0, g) |}. intros limit s. simpl. lia. Defined.

Definition extras_sample (c rest : list Z) : extras_stage unit :=
  ExtrasStage (Havoc tt sample_dict (Some (c ++ rest)) None (zlen c)) c None (replicate 7 1) 0 0 [].

Lemma extras_sample_ready : stage_ready sample_tokens [65; 0; 66; 0] [0] (extras_sample [65; 0; 66; 0] [0]).
Proof.
  split; [done|done|by vm_compute|by vm_compute|]. split; [exact sample_dictionary|by vm_compute|exact sample_by_length| |].
  - split; [constructor|by vm_compute|constructor].
  - change (token <$> _) with (@nil (list Z)). rewrite take_nil. constructor.
Qed.

Lemma dictionary_stages_correct_witness :
  stage_ready sample_tokens [65; 0; 66; 0] [0] (extras_sample [65; 0; 66; 0] [0]) ∧
  ∃ ok s' new, dictionary_stages (H := obliging) 200 (extras_sample [65; 0; 66; 0] [0]) = Ret (ok, s') ∧ tested s' = new ∧
    Forall (λ x, overwritten [65; 0; 66; 0] (sample_tokens ++ take (Z.to_nat USE_AUTO_EXTRAS) []) x ∨ inserted [65; 0; 66; 0] (sample_tokens ++ []) x) new ∧
    (ok = true → AflHavoc.out_buf (buffers s') = Some [65; 0; 66; 0; 0] ∧
      (∀ (i : nat) t, (i ≤ 4)%nat → t ∈ sample_tokens ++ [] → tried_insert [65; 0; 66; 0] new i t) ∧
      (∀ i t, 0 ≤ i < 4 → (3 ≤ 200 ∧ t ∈ sample_tokens) ∨ t ∈ take (Z.to_nat USE_AUTO_EXTRAS) [] → tried_over [65; 0; 66; 0] (replicate 7 1) new i t)).
Proof.
  split; [exact extras_sample_ready|].
  apply (dictionary_stages_correct (H := obliging) 200 sample_tokens [65; 0; 66; 0] [0] (extras_sample [65; 0; 66; 0] [0]));
    [done|done|exact extras_sample_ready|done].
Defined.

(** A test case of 56 bytes fills the buffer that [afl_realloc] gives it: the insertion of
    tokens reads the byte behind it. *)
Example insertion_overreads :
  dictionary_stages (H := obliging) 200 (extras_sample (replicate 56 65) []) = Fault OutOfBounds.
Proof. vm_compute. reflexivity. Qed.
