(* ===== verification/AflStageLife.v ===== *)
(** * AflStageLife: the random part of [fuzz_one_original] ends

    The custom, havoc and splicing stages together, on any custom mutators that return and
    keep to the size they are given: a bound on the number of runs of the target. *)

From S2P Require Import Prelude Utils AflBitmap AflQueue AflDet AflDict AflDictSpec AflDictAuto AflHavoc AflHavocSpec AflStage AflStageSpec.

(** What a custom mutator promises: [inv] holds of its data, [count_max] bounds its counts. *)
Record FuzzLaw {P : Type} (inv : P → Prop) (count_max : Z) (el : fuzz_ops P) : Prop := {
  count_law : ∀ f input p, fuzz_count el = Some f → inv p → wp (f input) p (λ n p', 0 ≤ n ≤ count_max ∧ inv p');
  fuzz_law : ∀ f input add p, fuzz el = Some f → inv p →
    wp (f input add MAX_FILE) p (λ out p', (∀ x, out = Some x → zlen x ≤ MAX_FILE) ∧ inv p') }.

Section Life.
Context {R P : Type} `{!Random R, !Host, !Runner, !Finder} (op : options) (ms : list (fuzz_ops P)).
Context (ts : list (list Z)) (d0 : dict) (inv : P → Prop) (count_max perf_max : Z) (orig : list Z) (draws : nat).
Context (Hn : never_refuses) (Hc : 0 ≤ queue_cycle (base op)) (Hd0 : tokens_ok ts d0).
Context (Hlaw : Forall (FuzzLaw inv count_max) ms) (Hcount : 0 ≤ count_max).
Context (Hdiv : 1 ≤ havoc_div op) (Hpow : 1 ≤ havoc_stack_pow2 op ≤ 30) (Hmult : 0 ≤ havoc_max_mult op < 256).
Context (Hperf : 200 * havoc_max_mult op ≤ perf_max < 2 ^ 20) (Horig : 1 ≤ orig_perf op ≤ perf_max).

(** The runs of one loop, and of one cycle of the stages. *)
Definition loop_bound : Z := 12 * perf_max + count_max.
Definition cycle_bound : Z := (zlen ms + 1) * loop_bound.

(** Since [s], [n] inputs at most were run. *)
Definition ran (s s' : stage R P) (n : Z) : Prop :=
  ∃ new, tested s' = tested s ++ new ∧ zlen new ≤ n ∧ queue_buf s' = queue_buf s ++ joins (tested s) new ∧
    Forall (λ x, zlen x ≤ MAX_FILE) new.

Lemma ran_refl s : ran s s 0.
Proof. exists []. rewrite !app_nil_r. split; [done|]. split; [done|]. split; [done|constructor]. Qed.

Lemma ran_trans s1 s2 s3 n m k : ran s1 s2 n → ran s2 s3 m → n + m ≤ k → ran s1 s3 k.
Proof.
  intros (new1 & Ht1 & Hl1 & Hq1 & Ha1) (new2 & Ht2 & Hl2 & Hq2 & Ha2) Hk. exists (new1 ++ new2).
  split; [by rewrite Ht2, Ht1, app_assoc|]. split; [rewrite length_app; lia|]. split; [|by apply Forall_app].
  by rewrite Hq2, Hq1, Ht1, joins_app, app_assoc.
Qed.

Lemma ran_same s1 s2 s3 n : ran s1 s2 n → tested s3 = tested s2 → queue_buf s3 = queue_buf s2 → ran s1 s3 n.
Proof. intros (new & Ht & Hl & Hq & Ha) H1' H2'. exists new. by rewrite H1', H2'. Qed.

Lemma ran_weaken s1 s2 n m : ran s1 s2 n → n ≤ m → ran s1 s2 m.
Proof. intros (new & Ht & Hl & Hq & Ha) Hm. exists new. split; [done|]. split; [lia|done]. Qed.

(** Between the stages, with room for [k] more test cases in the queue. *)
Record alive (k : Z) (s : stage R P) : Prop := {
  al_input : input_ok d0 s;
  al_queue : Forall (λ o, zlen o ≤ MAX_FILE) (queue_buf s);
  al_orig : queue_buf s !! Z.to_nat (current_entry (base op)) = Some orig;
  al_ready : ready_for_splicing_count s = longs (queue_buf s);
  al_mutator : inv (mutator_data s);
  al_perf : 1 ≤ perf_score s ≤ perf_max;
  al_room : zlen (queue_buf s) + k < 2 ^ 32 - 1;
  al_fair : fair_to (R := R) draws (Z.max MAX_FILE (zlen (queue_buf s) + k)) }.

Lemma alive_nonempty k s : alive k s → queue_buf s ≠ [].
Proof. intros [_ _ Ho _ _ _ _ _] He. by rewrite He in Ho. Qed.

(** What is in the queue stays there, and the room shrinks by the runs. *)
Lemma ran_queue s s' k n : 0 ≤ n → alive k s → ran s s' n → Forall (λ o, zlen o ≤ MAX_FILE) (queue_buf s') ∧
  queue_buf s' !! Z.to_nat (current_entry (base op)) = Some orig ∧ zlen (queue_buf s') ≤ zlen (queue_buf s) + n.
Proof.
  intros Hn0 [_ Hq Ho _ _ _ _ _] (new & _ & Hl & -> & Ha). split; [|split].
  - apply Forall_app. split; [done|]. apply Forall_forall. intros o Hin%joins_elem. rewrite Forall_forall in Ha. by apply Ha.
  - by apply lookup_app_l_Some.
  - rewrite length_app. pose proof (joins_length new (tested s)). lia.
Qed.

Lemma fair_less L L' : L ≤ L' → fair_to (R := R) draws L' → fair_to (R := R) draws L.
Proof. intros HL Hf limit Hl. apply Hf. lia. Qed.

(** ** One run of a mutator *)

(** The budget grows with the score. *)
Definition scaled (p m : Z) (s : stage R P) : Prop := p ≤ perf_score s ∧ stage_max s * p = m * perf_score s.

Lemma wp_extend_any p m s : 1 ≤ p → 0 ≤ m → scaled p m s → perf_score s ≤ perf_max → m * perf_max < 2 ^ 32 * p →
  wp (extend_budget op) s (λ _ s', scaled p m s' ∧ perf_score s' ≤ perf_max ∧ tested s' = tested s ∧ queue_buf s' = queue_buf s ∧
    ready_for_splicing_count s' = ready_for_splicing_count s ∧ hv s' = hv s ∧ in_bytes s' = in_bytes s ∧ mutator_data s' = mutator_data s ∧
    stage_cur s' = stage_cur s ∧ splice_cycle s' = splice_cycle s).
Proof using Hmult Horig Hperf.
  intros Hp Hm [Hge Hs] Hle Hmax. unfold extend_budget. apply wp_bind, wp_get. case_decide; [by apply wp_ret|]. apply wp_bind.
  case_decide as Hlow; [|by apply wp_ret, wp_supd]. apply wp_supd, wp_supd. simpl.
  assert (0 ≤ stage_max s) by (apply (Z.mul_le_mono_pos_r _ _ p); nia).
  assert (stage_max s * 2 * p ≤ m * perf_max) by nia. assert (stage_max s * 2 < 2 ^ 32) by (apply (Z.mul_lt_mono_pos_r p); lia).
  rewrite !wrap_small by lia. split; [split; simpl; [lia|nia]|]. split; [simpl; lia|done].
Qed.

Lemma input_kept (s s' : stage R P) : input_ok d0 s → hv s' = hv s → in_bytes s' = in_bytes s → input_ok d0 s'.
Proof. intros [Ho Hs Hq] Hh Hi. by split; rewrite ?Hh, ?Hi. Qed.

(** The target is run on an input that a mutator made. *)
Lemma wp_common_alive x s k : alive k s → 1 ≤ k → zlen x ≤ MAX_FILE →
  wp (common_fuzz x) s (λ _ s', alive (k - 1) s' ∧ ran s s' 1 ∧ in_bytes s' = in_bytes s ∧ hv s' = hv s ∧ splice_cycle s' = splice_cycle s ∧
    stage_cur s' = stage_cur s ∧ stage_max s' = stage_max s ∧ perf_score s' = perf_score s ∧ havoc_queued s' = havoc_queued s).
Proof.
  intros Hs Hk Hx. pose proof Hs as [Hin Hq Ho Hr Hm Hp Hroom Hf]. apply wp_common_fuzz; [done|lia|]. intros q' ->.
  match goal with |- alive _ ?s' ∧ _ => assert (ran s s' 1) as Hran end.
  { exists [x]. split; [done|]. split; [done|]. split; [done|]. by repeat constructor. }
  destruct (ran_queue s _ k 1 ltac:(lia) Hs Hran) as (Hq' & Ho' & Hl'). simpl in *.
  split; [|done]. split; simpl; [by eapply input_kept|done|done|done|done|done|lia|]. eapply fair_less; [|exact Hf]. lia.
Qed.

(** What a run of a mutator leaves: [k] is the room before it, [counted] that the budget is fixed. *)
Definition after_run (k p m : Z) (counted : bool) (s s' : stage R P) : Prop :=
  alive (k - 1) s' ∧ scaled p m s' ∧ (counted = true → stage_max s' = stage_max s ∧ perf_score s' = perf_score s) ∧
  stage_cur s' = stage_cur s ∧ in_bytes s' = in_bytes s.

Abbreviation run_post k p m counted s := (λ (v : verdict) s', ran s s' 1 ∧ splice_cycle s' = splice_cycle s ∧ (v ≠ Abandon → after_run k p m counted s s')).

Lemma alive_less k k' s : k' ≤ k → alive k s → alive k' s.
Proof. intros Hk [? ? ? ? ? ? ? Hf]. split; [done..|lia|]. eapply fair_less; [|exact Hf]. lia. Qed.

Lemma write_back_ok k p m counted s s3 : alive (k - 1) s3 → ran s s3 1 → splice_cycle s3 = splice_cycle s → after_run k p m counted s s3 →
  wp (s ← get_state; _ ← in_hv (write_out 0 (in_bytes s)); mret GoOn) s3 (run_post k p m counted s).
Proof.
  intros Hs3 Hr Hcy Haft. destruct (io_out _ _ (al_input _ _ Hs3)) as [rest Ho]. apply wp_bind, wp_get, wp_bind, wp_in_hv.
  apply (wp_write_raw (in_bytes s3 ++ rest)); [done|lia|rewrite length_app; lia|]. rewrite patch_start, drop_app_length. apply wp_ret.
  split; [by eapply ran_same|]. split; [done|]. intros _. destruct Haft as (_ & Hrest). split; [|done].
  destruct Hs3 as [[? ? ?] ? ? ? ? ? ? ?]. split; [split; simpl; eauto|done..].
Qed.

Lemma run_mutated_ok k counted p m x s : alive k s → 1 ≤ k → zlen x ≤ MAX_FILE → 1 ≤ p → 0 ≤ m → scaled p m s → (counted = false → m * perf_max < 2 ^ 32 * p) →
  wp (run_mutated op counted x) s (run_post k p m counted s).
Proof using Hmult Horig Hperf.
  intros Hs Hk Hx Hp Hm Hsc Hmax. unfold run_mutated. apply wp_bind. case_decide as Hpos.
  2: { apply wp_ret, write_back_ok; [by eapply alive_less; [|exact Hs]; lia|eapply ran_weaken; [apply ran_refl|lia]|done|].
       split; [by eapply alive_less; [|exact Hs]; lia|done]. }
  apply wp_bind. eapply wp_mono; [by apply (wp_common_alive x s k)|].
  intros a s3 (Hs3 & Hr3 & Hin3 & Hhv3 & Hcy3 & Hcur3 & Hmax3 & Hp3 & Hhq3). apply wp_bind. destruct a; simpl; [by apply wp_ret, wp_ret, wp_ret|].
  assert (scaled p m s3) as Hsc3 by (unfold scaled in *; by rewrite Hmax3, Hp3).
  destruct counted; simpl; [by apply wp_ret, wp_ret, write_back_ok|].
  eapply wp_mono; [apply (wp_extend_any p m); [done|done|done|apply Hs3|by apply Hmax]|].
  intros _ s4 (Hsc4 & Hp4 & Ht4 & Hq4 & Hr4 & Hhv4 & Hin4 & Hm4 & Hcur4 & Hcy4). apply wp_ret.
  assert (alive (k - 1) s4) as Hs4.
  { destruct Hs3 as [Hi3 ? ? ? ? ? ? ?]. split; rewrite ?Hq4, ?Hr4, ?Hm4; try done; [by eapply input_kept|]. destruct Hsc4. lia. }
  apply write_back_ok; [done|by eapply ran_same|congruence|]. split; [done|]. split; [done|]. split; [done|]. by split; congruence.
Qed.

Lemma custom_run_ok k counted custom_fuzz p m s : alive k s → 1 ≤ k →
  (∀ input add q, inv q → wp (custom_fuzz input add MAX_FILE) q (λ out q', (∀ x, out = Some x → zlen x ≤ MAX_FILE) ∧ inv q')) →
  1 ≤ p → 0 ≤ m → scaled p m s → (counted = false → m * perf_max < 2 ^ 32 * p) →
  wp (custom_run op draws counted custom_fuzz) s (run_post k p m counted s).
Proof using Hmult Horig Hperf.
  intros Hs Hk Hfuzz Hp Hm Hsc Hmax. unfold custom_run. apply wp_bind, wp_get.
  assert (∀ add g, wp (out ← in_hv (read_out 0 (zlen (in_bytes s))); mutated_buf ← in_mutator (custom_fuzz out add MAX_FILE);
    match mutated_buf with None => mret Break | Some mutated => run_mutated op counted mutated end)
    (set_hv (set_gen g (hv s)) s) (run_post k p m counted s)) as Hrest.
  { intros add g. destruct (io_out _ _ (al_input _ _ Hs)) as [rest Ho]. set (s1 := set_hv (set_gen g (hv s)) s).
    assert (alive k s1) as Hs1 by (destruct Hs as [[? ? ?] ? ? ? ? ? ? ?]; split; [split|..]; done).
    apply wp_bind, wp_in_hv. apply (wp_read_raw (in_bytes s ++ rest)); [done|lia|lia|rewrite length_app; lia|].
    change (set_hv (hv s1) s1) with s1. apply wp_bind, wp_call_mutator. eapply wp_mono; [apply Hfuzz, (al_mutator _ _ Hs)|].
    intros out q [Hout Hq]. set (s2 := set_mutator q s1). assert (alive k s2) as Hs2 by (destruct Hs1 as [[? ? ?] ? ? ? ? ? ? ?]; split; [split|..]; done).
    destruct out as [x|].
    - eapply wp_mono; [by apply (run_mutated_ok k counted p m x s2 Hs2 Hk (Hout x eq_refl) Hp Hm)|]. intros v s' (Hr & Hcy & Haft). by split.
    - apply wp_ret. split; [eapply ran_weaken; [eapply ran_same; [apply ran_refl|done|done]|lia]|]. split; [done|]. intros _.
      split; [by eapply alive_less; [|exact Hs2]; lia|done]. }
  apply wp_bind. destruct (_ && _) eqn:Hsp; [|apply wp_ret; specialize (Hrest None (gen (hv s))); by destruct s as [[] ? ? ? ? ? ? ? ? ? ? ? ?]].
  apply andb_true_iff in Hsp as [_ Hready%bool_decide_eq_true]. rewrite (al_ready _ _ Hs) in Hready.
  destruct (two_long (queue_buf s) (current_entry (base op)) Hready) as (i & o & Ho & Hne & Ho4). pose proof (lookup_lt_Some _ _ _ Ho) as Hi.
  pose proof (al_room _ _ Hs) as Hroom.
  destruct (al_fair _ _ Hs (zlen (queue_buf s)) ltac:(lia) (Z.of_nat i) (gen (hv s)) ltac:(lia)) as (j & Hj & Hv).
  apply wp_bind, wp_in_hv. eapply (wp_splice_target (now op s) i); [simpl; lia|exact Hj|exact Hv|by exists o|].
  intros j' target g _ _ _. by apply wp_ret.
Qed.

(** ** The custom stage *)

Lemma wp_custom_loop counted custom_fuzz p m :
  (∀ input add q, inv q → wp (custom_fuzz input add MAX_FILE) q (λ out q', (∀ x, out = Some x → zlen x ≤ MAX_FILE) ∧ inv q')) →
  1 ≤ p → 0 ≤ m → (counted = false → m * perf_max < 2 ^ 32 * p) → ∀ bound runs k s, scaled p m s → alive k s → 0 ≤ stage_cur s →
  (counted = true → stage_max s ≤ bound) → (counted = false → m * perf_max ≤ bound * p) → bound < 2 ^ 32 - 1 →
  0 ≤ bound - stage_cur s ≤ k → bound - stage_cur s < Z.of_nat runs →
  wp (stage_loop runs (custom_run op draws counted custom_fuzz)) s (λ abandoned s', ran s s' (bound - stage_cur s) ∧ splice_cycle s' = splice_cycle s ∧
    (abandoned = false → alive (k - (bound - stage_cur s)) s' ∧ p ≤ perf_score s' ∧ in_bytes s' = in_bytes s)).
Proof using Hmult Horig Hperf.
  intros Hfuzz Hp Hm Hmp bound. induction runs as [|runs IH]; intros k s Hsc Hs Hcur Hcnt Hun Hb Hk Hruns; [lia|]. cbn [stage_loop].
  assert (stage_max s ≤ bound) as Hmax.
  { destruct counted; [by apply Hcnt|]. specialize (Hun eq_refl). destruct Hsc as [_ Hsc]. pose proof (al_perf _ _ Hs).
    apply (Z.mul_le_mono_pos_r _ _ p); [lia|]. nia. }
  apply wp_bind, wp_get. case_decide as Hend.
  { apply wp_ret. split; [eapply ran_weaken; [apply ran_refl|lia]|]. split; [done|]. intros _. split; [|by split; [apply Hsc|]].
    eapply alive_less; [|exact Hs]. lia. }
  apply wp_bind. eapply wp_mono; [apply (custom_run_ok k counted custom_fuzz p m s); try done; lia|]. intros v s1 (Hr & Hcy & Haft).
  destruct v.
  - destruct Haft as (Hs1 & Hsc1 & Hfix & Hcur1 & Hin1); [done|]. apply wp_bind, wp_supd. rewrite Hcur1, wrap_small by lia.
    eapply wp_mono; [apply (IH (k - 1)); simpl; try done; try lia|].
    + destruct Hs1 as [[? ? ?] ? ? ? ? ? ? ?]; split; [split|..]; done.
    + intros Hc1. destruct (Hfix Hc1) as [-> _]. by apply Hcnt.
    + simpl. intros ab s2 (Hr2 & Hcy2 & Hrest). split; [eapply ran_trans; [exact Hr|exact Hr2|lia]|]. split; [congruence|]. intros Ha.
      destruct (Hrest Ha) as (Hs2 & Hp2 & Hin2). split; [eapply alive_less; [|exact Hs2]; lia|]. split; [done|congruence].
  - destruct Haft as (Hs1 & Hsc1 & Hfix & Hcur1 & Hin1); [done|]. apply wp_ret. split; [eapply ran_weaken; [exact Hr|lia]|]. split; [done|]. intros _.
    split; [eapply alive_less; [|exact Hs1]; lia|]. split; [apply Hsc1|done].
  - apply wp_ret. split; [eapply ran_weaken; [exact Hr|lia]|]. by split.
Qed.

Lemma over_mutators_ok runs saved_max p1 : loop_bound < Z.of_nat runs → 0 ≤ saved_max ≤ 12 * p1 → 1 ≤ p1 → ∀ l k s has,
  Forall (FuzzLaw inv count_max) l → alive k s → p1 ≤ perf_score s → zlen l * loop_bound ≤ k →
  wp (over_mutators op runs draws saved_max l has) s (λ r s', ran s s' (zlen l * loop_bound) ∧ splice_cycle s' = splice_cycle s ∧
    ∀ b, r = Some b → alive (k - zlen l * loop_bound) s' ∧ in_bytes s' = in_bytes s).
Proof using Hmult Horig Hperf Hcount.
  intros Hruns Hsaved Hp1. assert (0 ≤ loop_bound) as Hlb by (unfold loop_bound; lia).
  induction l as [|el l IH]; intros k s has Hl Hs Hp Hk; cbn [over_mutators].
  { apply wp_ret. split; [apply ran_refl|]. split; [done|]. intros b _. split; [|done]. eapply alive_less; [|exact Hs]. simpl. lia. }
  apply Forall_cons in Hl as [[Hcnt Hfz] Hl]. replace (zlen (el :: l) * loop_bound) with (loop_bound + zlen l * loop_bound) in * by (simpl; lia).
  assert (0 ≤ zlen l * loop_bound) by nia.
  destruct (fuzz el) as [f|] eqn:Ef.
  2: { eapply wp_mono; [apply (IH k s has Hl Hs Hp); lia|]. intros r s' (Hr & Hcy & Hrest). split; [eapply ran_weaken; [exact Hr|lia]|]. split; [done|].
       intros b Hb. destruct (Hrest b Hb) as [Hs' Hin]. split; [|done]. eapply alive_less; [|exact Hs']. lia. }
  apply wp_bind, wp_get, wp_bind.
  set (counted := bool_decide (fuzz_count el ≠ None)).
  assert (∀ q max, inv q → 0 ≤ max → (counted = true → max ≤ count_max) → (counted = false → max = saved_max) →
    wp (_ ← supd (λ s, set_budget max (perf_score s) s); abandoned ← (if decide (max = 0) then mret false else
          _ ← supd (set_stage_cur 0); stage_loop runs (custom_run op draws counted f));
        if (abandoned : bool) then mret None else over_mutators op runs draws saved_max l true) (set_mutator q s)
      (λ r s', ran s s' (loop_bound + zlen l * loop_bound) ∧ splice_cycle s' = splice_cycle s ∧
        ∀ b, r = Some b → alive (k - (loop_bound + zlen l * loop_bound)) s' ∧ in_bytes s' = in_bytes s)) as Hrun.
  { intros q max Hq Hmax Hct Hun. apply wp_bind, wp_supd, wp_bind. pose proof (al_perf _ _ Hs) as Hpm. pose proof (al_room _ _ Hs) as Hroom.
    assert (∀ s1, alive (k - loop_bound) s1 → ran s s1 loop_bound → splice_cycle s1 = splice_cycle s → p1 ≤ perf_score s1 → in_bytes s1 = in_bytes s →
      wp (over_mutators op runs draws saved_max l true) s1 (λ r s', ran s s' (loop_bound + zlen l * loop_bound) ∧ splice_cycle s' = splice_cycle s ∧
        ∀ b, r = Some b → alive (k - (loop_bound + zlen l * loop_bound)) s' ∧ in_bytes s' = in_bytes s)) as Hnext.
    { intros s1 Hs1 Hr1 Hcy1 Hp' Hin1. eapply wp_mono; [apply (IH (k - loop_bound) s1 true Hl Hs1 Hp'); lia|].
      intros r s' (Hr & Hcy & Hrest). split; [eapply ran_trans; [exact Hr1|exact Hr|lia]|]. split; [congruence|].
      intros b Hb. destruct (Hrest b Hb) as [Hs' Hin]. split; [|congruence]. eapply alive_less; [|exact Hs']. lia. }
    case_decide as Hz.
    - apply wp_ret, Hnext; try done; [|eapply ran_weaken; [by eapply ran_same; [apply ran_refl|..]|lia]].
      eapply (alive_less k); [lia|]. destruct Hs as [[? ? ?] ? ? ? ? ? ? ?]; split; [split|..]; done.
    - apply wp_bind, wp_supd. eapply wp_mono; [apply (wp_custom_loop counted f (perf_score s) max (λ i a q, Hfz f i a q eq_refl)) with (bound := loop_bound) (k := k)|];
        simpl; try done; try lia.
      + intros Hc1. rewrite (Hun Hc1). assert (saved_max * perf_max ≤ 12 * p1 * perf_max) by nia. unfold loop_bound in *. nia.
      + destruct Hs as [[? ? ?] ? ? ? ? ? ? ?]; split; [split|..]; done.
      + intros Hc1. specialize (Hct Hc1). unfold loop_bound. lia.
      + intros Hc1. rewrite (Hun Hc1). unfold loop_bound. nia.
      + simpl. intros ab s1 (Hr1 & Hcy1 & Hrest). rewrite Z.sub_0_r in *. destruct ab.
        * apply wp_ret. split; [eapply ran_weaken; [by eapply ran_same; [exact Hr1|..]|lia]|]. by split.
        * destruct (Hrest eq_refl) as (Hs1 & Hp2 & Hin1). apply Hnext; try done. lia. }
  destruct (fuzz_count el) as [count|] eqn:Ec.
  - destruct (io_out _ _ (al_input _ _ Hs)) as [rest Ho]. apply wp_bind, wp_in_hv. apply (wp_read_raw (in_bytes s ++ rest)); [done|lia|lia|rewrite length_app; lia|].
    apply wp_call_mutator. eapply wp_mono; [apply (Hcnt count _ _ eq_refl), (al_mutator _ _ Hs)|]. intros n q [Hn1 Hq].
    replace (set_mutator q (set_hv (hv s) s)) with (set_mutator q s) by (by destruct s). apply Hrun; [done|lia|intros _; lia|].
    unfold counted. by case_bool_decide.
  - apply wp_ret. specialize (Hrun (mutator_data s) saved_max (al_mutator _ _ Hs) ltac:(lia)).
    replace (set_mutator (mutator_data s) s) with s in Hrun by (by destruct s). apply Hrun; [|done]. unfold counted. by case_bool_decide.
Qed.

(** A budget is at most twelve times the score. *)
Lemma budget_le cycles p shift : 1 ≤ p < 2 ^ 20 → 0 ≤ cycles ≤ 1024 → 7 ≤ shift → cycles ≤ 8 * 2 ^ shift →
  1 ≤ Z.max HAVOC_MIN (Z.shiftr (u32 (cycles * p) / havoc_div op) shift) ≤ 12 * p.
Proof using Hdiv.
  intros Hp Hcy Hsh Hle. unfold HAVOC_MIN. rewrite wrap_small by nia. rewrite Z.shiftr_div_pow2 by lia.
  assert (cycles * p / havoc_div op ≤ cycles * p) by (apply Z.div_le_upper_bound; nia).
  assert (cycles * p / havoc_div op / 2 ^ shift ≤ 8 * p) by (apply Z.div_le_upper_bound; nia). lia.
Qed.

Lemma custom_stage_ok runs k s : loop_bound < Z.of_nat runs → alive k s → zlen ms * loop_bound ≤ k →
  wp (custom_mutator_stage op ms runs draws) s (λ r s', ran s s' (zlen ms * loop_bound) ∧ splice_cycle s' = splice_cycle s ∧
    (r = None → alive (k - zlen ms * loop_bound) s' ∧ in_bytes s' = in_bytes s) ∧ ∀ v, r = Some v → v = 0 ∨ v = 1).
Proof using Hmult Horig Hperf Hcount Hlaw Hdiv.
  intros Hruns Hs Hk. assert (0 ≤ zlen ms * loop_bound) by (unfold loop_bound; nia). pose proof (al_perf _ _ Hs) as Hp.
  unfold custom_mutator_stage. case_decide.
  { apply wp_ret. split; [eapply ran_weaken; [apply ran_refl|lia]|]. split; [done|]. split; [|done]. intros _. split; [|done]. eapply alive_less; [|exact Hs]. lia. }
  apply wp_bind, wp_get, wp_bind. unfold budget. rewrite decide_False by lia. apply wp_ret, wp_bind, wp_supd. set (m := Z.max _ _).
  assert (1 ≤ m ≤ 12 * perf_score s) as Hm by (apply budget_le; unfold HAVOC_CYCLES; destruct (custom_only op); lia).
  apply wp_bind. eapply wp_mono; [apply (over_mutators_ok runs m (perf_score s) Hruns) with (k := k); [lia|lia|exact Hlaw| |done|done]|].
  { destruct Hs as [[? ? ?] ? ? ? ? ? ? ?]; split; [split|..]; done. }
  simpl. intros r s' (Hr & Hcy & Hrest). apply wp_ret. split; [eapply ran_same; [exact Hr|done|done]|]. split; [done|]. split.
  - intros Hnone. destruct r as [b|]; [|done]. by apply (Hrest b).
  - intros v Hv. destruct r as [b|]; [|simplify_eq; by right]. destruct (b && custom_only op); simplify_eq. by left.
Qed.

(** ** The havoc stage among the others *)

Lemma havoc_alive_ok runs k s : loop_bound < Z.of_nat runs → alive k s → loop_bound ≤ k →
  wp (havoc_stage op runs draws) s (λ abandoned s', ran s s' loop_bound ∧ splice_cycle s' = splice_cycle s ∧
    (abandoned = false → alive (k - loop_bound) s')).
Proof using Hn Hc Hd0 Hmult Hpow Horig Hperf Hcount Hdiv.
  intros Hruns Hs Hk. pose proof Hs as [Hin Hq Ho Hr Hm Hp Hroom Hf].
  assert (1 ≤ first_perf op s ≤ perf_max) as Hfp by (unfold first_perf; case_decide; lia).
  assert (1 ≤ first_max op s ≤ 12 * first_perf op s) as Hfm.
  { apply budget_le; unfold HAVOC_CYCLES_INIT, HAVOC_CYCLES, SPLICE_HAVOC; repeat case_match; lia. }
  assert (perf_bound op (first_perf op s) ≤ perf_max) as Hpb by (unfold perf_bound; lia).
  assert (0 ≤ runs_bound op (first_max op s) (first_perf op s) ≤ loop_bound) as Hrb.
  { unfold runs_bound, loop_bound. split; [apply Z.div_pos; unfold perf_bound in *; nia|].
    transitivity (12 * perf_max); [|lia]. apply Z.div_le_upper_bound; [lia|]. unfold perf_bound in *. nia. }
  assert (start_ok op s (first_max op s) (first_perf op s) draws) as Hso.
  { split; try done; [by eapply alive_nonempty|lia|lia|lia|]. eapply fair_less; [|exact Hf]. lia. }
  eapply wp_mono; [apply (havoc_stage_ok op ts d0 Hn Hc Hd0 runs draws s); [lia|done|done|lia]|].
  intros ab s' (n & Hle & (new & Ht & Hl & Hqs & Hrs & Hall) & Hcy & Hdone).
  assert (ran s s' loop_bound) as Hran.
  { exists new. split; [done|]. split; [lia|]. split; [done|]. eapply Forall_impl; [exact Hall|]. simpl. lia. }
  split; [done|]. split; [done|]. intros Ha. destruct (Hdone Ha) as [_ [Hh Hi [_ Hmd] _ Hpf _]].
  destruct (ran_queue s s' k loop_bound ltac:(lia) Hs Hran) as (Hq' & Ho' & Hl'). split; try done.
  - split; [rewrite Hi; apply Hh|rewrite Hi; apply Hh|apply Hh].
  - by rewrite Hmd.
  - lia.
  - lia.
  - eapply fair_less; [|exact Hf]. lia.
Qed.

(** ** Together *)

Lemma random_stages_ok runs cycles : loop_bound < Z.of_nat runs → ∀ k s, alive k s → 0 ≤ splice_cycle s ≤ SPLICE_CYCLES →
  SPLICE_CYCLES - splice_cycle s + 1 < Z.of_nat cycles → (SPLICE_CYCLES - splice_cycle s + 1) * cycle_bound ≤ k →
  wp (random_stages op ms cycles runs draws) s (λ r s', (r = 0 ∨ r = 1) ∧ ran s s' ((SPLICE_CYCLES - splice_cycle s + 1) * cycle_bound)).
Proof using Hn Hc Hd0 Hmult Hpow Horig Hperf Hcount Hdiv Hlaw.
  intros Hruns. assert (0 ≤ loop_bound ∧ cycle_bound = zlen ms * loop_bound + loop_bound ∧ 0 ≤ zlen ms * loop_bound) as (Hlb & Hcb & Hml).
  { unfold cycle_bound, loop_bound. split; [lia|]. split; [lia|nia]. }
  unfold SPLICE_CYCLES. induction cycles as [|cycles IH]; intros k s Hs Hcy Hcycles Hk; [lia|]. cbn [random_stages].
  set (left := 15 - splice_cycle s + 1) in *. assert (cycle_bound ≤ left * cycle_bound) by (unfold left; nia).
  apply wp_bind. eapply wp_mono; [apply (custom_stage_ok runs k s Hruns Hs); lia|]. intros r s1 (Hr1 & Hcy1 & Hnone & Hsome).
  destruct r as [v|]; [apply wp_ret; split; [by apply Hsome|eapply ran_weaken; [exact Hr1|lia]]|]. destruct (Hnone eq_refl) as [Hs1 Hin1].
  apply wp_bind. eapply wp_mono; [apply (havoc_alive_ok runs _ s1 Hruns Hs1); lia|]. intros ab s2 (Hr2 & Hcy2 & Hab).
  assert (ran s s2 cycle_bound) as Hr12 by (eapply ran_trans; [exact Hr1|exact Hr2|lia]).
  destruct ab; [apply wp_ret; split; [by right|eapply ran_weaken; [exact Hr12|lia]]|]. specialize (Hab eq_refl).
  assert (splice_ok op d0 draws orig s2) as Hsp.
  { destruct Hab as [[? ? ?] Hq2 Ho2 Hr2' ? ? Hroom2 Hf2]. split; try done; [lia|]. apply Hf2. pose proof (lookup_lt_Some _ _ _ Ho2). lia. }
  apply wp_bind. eapply wp_mono; [apply (splicing_ok op d0 Hn draws orig cycles s2 Hsp); unfold SPLICE_CYCLES in *; lia|].
  intros again s3 ([Hq3 Hr3 Ht3 Hm3 Hp3] & Hagain). assert (ran s s3 cycle_bound) as Hr13 by (by eapply ran_same).
  destruct again; [|apply wp_ret; split; [by left|eapply ran_weaken; [exact Hr13|lia]]].
  destruct (Hagain eq_refl) as (Hcy3 & Hin3 & _). unfold SPLICE_CYCLES in *. eapply wp_mono; [apply (IH (k - cycle_bound) s3); [|lia|lia|]|].
  - assert (alive (k - cycle_bound) s2) as Hs2 by (eapply alive_less; [|exact Hab]; lia). destruct Hs2. split; rewrite ?Hq3, ?Hr3, ?Hm3, ?Hp3; done.
  - unfold left in *. nia.
  - intros r s4 [Hr Hr4]. split; [done|]. eapply ran_trans; [exact Hr13|exact Hr4|]. unfold left. nia.
Qed.
End Life.

(** C15. From the custom stage to its end [fuzz_one_original] terminates with result 0 or 1, on
    every target and every dictionary: with mutators that return and keep to the size they are given,
    fair draws, and scores up to [perf_max], the custom, havoc and splicing stages together run the
    target at most sixteen times [cycle_bound] times, never fault, run only inputs of at most 1 MiB, and
    add to the queue exactly the interesting ones among them, in order. *)
Theorem random_stages_end {R P : Type} `{!Random R, !Host, !Runner, !Finder} (op : options) (ms : list (fuzz_ops P)) ts d0 inv count_max perf_max
    orig draws runs cycles (s : stage R P) :
  never_refuses → 0 ≤ queue_cycle (base op) → tokens_ok ts d0 → Forall (FuzzLaw inv count_max) ms → 0 ≤ count_max →
  1 ≤ havoc_div op → 1 ≤ havoc_stack_pow2 op ≤ 30 → 0 ≤ havoc_max_mult op < 256 → 200 * havoc_max_mult op ≤ perf_max < 2 ^ 20 →
  1 ≤ orig_perf op ≤ perf_max → splice_cycle s = 0 → alive op d0 inv perf_max orig draws (16 * cycle_bound ms count_max perf_max) s →
  loop_bound count_max perf_max < Z.of_nat runs → 16 < Z.of_nat cycles →
  ∃ r s' new, random_stages op ms cycles runs draws s = Ret (r, s') ∧ (r = 0 ∨ r = 1) ∧ tested s' = tested s ++ new ∧
    zlen new ≤ 16 * cycle_bound ms count_max perf_max ∧ queue_buf s' = queue_buf s ++ joins (tested s) new ∧
    Forall (λ x, zlen x ≤ MAX_FILE) new.
Proof.
  intros Hn Hc Hd0 Hlaw Hcount Hdiv Hpow Hmult Hperf Horig Hcy Hs Hruns Hcycles.
  assert (wp (random_stages op ms cycles runs draws) s (λ r s', (r = 0 ∨ r = 1) ∧ ran s s' (16 * cycle_bound ms count_max perf_max))) as Hwp.
  { eapply wp_mono; [apply (random_stages_ok op ms ts d0 inv count_max perf_max orig draws Hn Hc Hd0 Hlaw Hcount Hdiv Hpow Hmult Hperf Horig runs cycles Hruns
      (16 * cycle_bound ms count_max perf_max) s Hs); rewrite Hcy; unfold SPLICE_CYCLES; lia|].
    intros r s' [Hr Hran]. split; [done|]. eapply ran_weaken; [exact Hran|]. rewrite Hcy. unfold SPLICE_CYCLES. lia. }
  apply wp_Ret in Hwp as (r & s' & E & Hr & new & Ht & Hl & Hq & Ha). by exists r, s', new.
Qed.

(** ** Witness *)

#[local] Existing Instances counter quiet_runner tenth_found.

(** Two mutators: one that repeats the input five times over, one that adds a zero byte. *)
Definition sample_mutators : list (fuzz_ops unit) :=
  [FuzzOps (Some (λ _, mret 5)) (Some (λ input _ max, mret (Some (take (Z.to_nat max) (input ++ input)))));
   FuzzOps None (Some (λ input _ max, mret (Some (take (Z.to_nat max) (input ++ [0])))))].

Lemma sample_mutators_law : Forall (FuzzLaw (λ _, True) 5) sample_mutators.
Proof.
  assert (∀ (l : list Z) n, 0 ≤ n → zlen (take (Z.to_nat n) l) ≤ n) as Hl by (intros l n Hn; rewrite length_take; lia).
  constructor; [|constructor; [|constructor]]; (split; simpl; [intros f input p Hf _; simplify_eq|intros f input add p Hf _; simplify_eq]).
  - by apply wp_ret.
  - apply wp_ret. split; [|done]. intros x [= <-]. by apply Hl.
  - apply wp_ret. split; [|done]. intros x [= <-]. by apply Hl.
Qed.

Lemma sample_alive : alive sample_options sample_dict (λ _, True) 12800 [72; 101; 108; 108; 111] (Z.to_nat 10000000)
  (16 * cycle_bound sample_mutators 5 12800) sample_stage.
Proof.
  split; [split; [by exists []|by vm_compute|by exists 1%positive]|repeat constructor; by vm_compute|done|by vm_compute|done|by vm_compute|by vm_compute|].
  apply counter_fair. rewrite Z2Nat.id by lia. by vm_compute.
Qed.

Lemma random_stages_end_witness :
  alive sample_options sample_dict (λ _, True) 12800 [72; 101; 108; 108; 111] (Z.to_nat 10000000) (16 * cycle_bound sample_mutators 5 12800) sample_stage ∧
  ∃ r s' new, random_stages (H := obliging) sample_options sample_mutators 17 (Z.to_nat 200000) (Z.to_nat 10000000) sample_stage = Ret (r, s') ∧
    (r = 0 ∨ r = 1) ∧ tested s' = new ∧ zlen new ≤ 7373040 ∧ queue_buf s' = sample_queue ++ joins [] new ∧ Forall (λ x, zlen x ≤ MAX_FILE) new.
Proof.
  split; [exact sample_alive|].
  apply (random_stages_end (H := obliging) sample_options sample_mutators sample_tokens sample_dict (λ _, True) 5 12800 [72; 101; 108; 108; 111]
    (Z.to_nat 10000000) (Z.to_nat 200000) 17 sample_stage).
  - done.
  - by vm_compute.
  - exact sample_tokens_ok.
  - exact sample_mutators_law.
  - done.
  - by vm_compute.
  - by vm_compute.
  - by vm_compute.
  - by vm_compute.
  - by vm_compute.
  - done.
  - exact sample_alive.
  - rewrite Z2Nat.id by lia. by vm_compute.
  - by vm_compute.
Defined.

(** Nothing is found, and yet the budget of 12 runs doubles: [havoc_queued] is still 0. *)
Example first_run_doubles :
  ∃ s', custom_mutator_stage (H1 := {| finds := λ _ _, false |}) sample_options
          [FuzzOps None (Some (λ input _ _, mret (Some (0 :: input))))] 100 10 (set_budget 0 1 sample_stage) = Ret (None, s') ∧
        stage_max s' = 24 ∧ zlen (tested s') = 24.
Proof. eexists. split; [vm_compute; reflexivity|]. split; reflexivity. Qed.
