(* ===== verification/AflCache.v ===== *)
(** * AflCache: the cache of test cases, AFLplusplus/src/afl-fuzz-queue.c

    [queue_testcase_get] hands out the contents of an entry's file; it keeps what it has
    read in a table of limited size and evicts entries at random.  Callers keep the pointers
    they get, so the blocks are on a heap and addresses are not used twice: an access to a
    block that was freed or moved is a fault.  A [realloc] moves the block. *)

From S2P Require Import Prelude Utils AflBitmap AflDet AflDict AflQueue.

(** ** State *)

Abbreviation addr := positive.

(** [testcase_buf] is the field of that name of the entries, absent for NULL;
    [testcase_block] and [splicecase_block] are [afl->testcase_buf] and
    [afl->splicecase_buf]; [slots] is the table [q_testcase_cache], [do_once] the static
    variable.  The other names lack the prefix [q_testcase_]. *)
Record testcache (R : Type) := TestCache {
  gen : R;
  heap : gmap addr (list Z);
  next_addr : addr;
  testcase_buf : gmap loc addr;
  testcase_block : option addr;
  splicecase_block : option addr;
  max_cache_size : Z;
  max_cache_entries : Z;
  cache_size : Z;
  max_cache_count : Z;
  cache_count : Z;
  smallest_free : Z;
  evictions : Z;
  slots : list (option loc);
  do_once : bool;
  requests : positive }.
Arguments TestCache {R}.
Arguments gen {R} t.
Arguments heap {R} t.
Arguments next_addr {R} t.
Arguments testcase_buf {R} t.
Arguments testcase_block {R} t.
Arguments splicecase_block {R} t.
Arguments max_cache_size {R} t.
Arguments max_cache_entries {R} t.
Arguments cache_size {R} t.
Arguments max_cache_count {R} t.
Arguments cache_count {R} t.
Arguments smallest_free {R} t.
Arguments evictions {R} t.
Arguments slots {R} t.
Arguments do_once {R} t.
Arguments requests {R} t.

Section Updates.
Context {R : Type}.
Implicit Types c : testcache R.

Definition set_gen (v : R) c := TestCache v (heap c) (next_addr c) (testcase_buf c) (testcase_block c) (splicecase_block c) (max_cache_size c)
  (max_cache_entries c) (cache_size c) (max_cache_count c) (cache_count c) (smallest_free c) (evictions c) (slots c) (do_once c) (requests c).
Definition set_heap v n c := TestCache (gen c) v n (testcase_buf c) (testcase_block c) (splicecase_block c) (max_cache_size c)
  (max_cache_entries c) (cache_size c) (max_cache_count c) (cache_count c) (smallest_free c) (evictions c) (slots c) (do_once c) (requests c).
Definition set_bufs v c := TestCache (gen c) (heap c) (next_addr c) v (testcase_block c) (splicecase_block c) (max_cache_size c)
  (max_cache_entries c) (cache_size c) (max_cache_count c) (cache_count c) (smallest_free c) (evictions c) (slots c) (do_once c) (requests c).
Definition set_blocks v w c := TestCache (gen c) (heap c) (next_addr c) (testcase_buf c) v w (max_cache_size c)
  (max_cache_entries c) (cache_size c) (max_cache_count c) (cache_count c) (smallest_free c) (evictions c) (slots c) (do_once c) (requests c).
Definition set_cache_size v c := TestCache (gen c) (heap c) (next_addr c) (testcase_buf c) (testcase_block c) (splicecase_block c) (max_cache_size c)
  (max_cache_entries c) v (max_cache_count c) (cache_count c) (smallest_free c) (evictions c) (slots c) (do_once c) (requests c).
Definition set_requests v c := TestCache (gen c) (heap c) (next_addr c) (testcase_buf c) (testcase_block c) (splicecase_block c) (max_cache_size c)
  (max_cache_entries c) (cache_size c) (max_cache_count c) (cache_count c) (smallest_free c) (evictions c) (slots c) (do_once c) v.

(** The table is cut to [n] slots, once. *)
Definition cut_table entries n c := TestCache (gen c) (heap c) (next_addr c) (testcase_buf c) (testcase_block c) (splicecase_block c)
  (max_cache_size c) entries (cache_size c) (max_cache_count c) (cache_count c) (smallest_free c) (evictions c) (take n (slots c)) true (requests c).

(** Slot [tid] loses an entry of [len] bytes. *)
Definition drop_slot tid len c := TestCache (gen c) (heap c) (next_addr c) (testcase_buf c) (testcase_block c) (splicecase_block c)
  (max_cache_size c) (max_cache_entries c) (u64 (cache_size c - len)) (max_cache_count c) (u32 (cache_count c - 1))
  (if decide (tid < smallest_free c) then tid else smallest_free c) (u32 (evictions c + 1)) (<[Z.to_nat tid := None]> (slots c)) (do_once c) (requests c).

(** "Register testcase as cached". *)
Definition fill_slot q tid len c := TestCache (gen c) (heap c) (next_addr c) (testcase_buf c) (testcase_block c) (splicecase_block c)
  (max_cache_size c) (max_cache_entries c) (u64 (cache_size c + len))
  (if decide (max_cache_count c ≤ tid) then u32 (tid + 1) else max_cache_count c) (u32 (cache_count c + 1))
  (if decide (¬ max_cache_count c ≤ tid ∧ tid = smallest_free c) then u32 (tid + 1) else smallest_free c)
  (evictions c) (<[Z.to_nat tid := Some q]> (slots c)) (do_once c) (requests c).
End Updates.

Section Cache.
Context {R : Type} `{!Random R, !Host, !Runner}.
Context (es : gmap loc queue_entry) (disk : gmap string (list Z)) (queue_cur : option loc).
Implicit Types c : testcache R.

Definition cupd (f : testcache R → testcache R) : M (testcache R) unit := c ← get_state; put_state (f c).

Definition request : M (testcache R) bool :=
  c ← get_state; _ ← put_state (set_requests (Pos.succ (requests c)) c); mret (negb (refuses (requests c))).

(** The process ends unless the request succeeds. *)
Definition must : M (testcache R) unit :=
  ok ← request; if (ok : bool) then mret tt else fail ProcessExit.

Definition entry (q : loc) : M (testcache R) queue_entry :=
  match es !! q with Some e => mret e | None => fail Dangling end.

Definition rand_below (limit : Z) : M (testcache R) Z :=
  c ← get_state;
  let '(r, g) := below (u32 limit) (gen c) in
  _ ← put_state (set_gen g c);
  mret r.

(** ** Blocks *)

Definition block (p : addr) : M (testcache R) (list Z) :=
  c ← get_state; match heap c !! p with Some l => mret l | None => fail Dangling end.

(** A new block. *)
Definition place (l : list Z) : M (testcache R) addr :=
  c ← get_state;
  _ ← put_state (set_heap (<[next_addr c := l]> (heap c)) (Pos.succ (next_addr c)) c);
  mret (next_addr c).

(** The bytes at [p] become [bs], in part. *)
Definition overwrite (p : addr) (bs : list Z) : M (testcache R) unit :=
  l ← block p;
  if decide (length bs ≤ length l)%nat
  then cupd (λ c, set_heap (<[p := bs ++ drop (length bs) l]> (heap c)) (next_addr c) c) else fail OutOfBounds.

Definition dispose (p : addr) : M (testcache R) unit :=
  _ ← block p; cupd (λ c, set_heap (delete p (heap c)) (next_addr c) c).

(** [l] resized to [n] bytes. *)
Definition resized (n : Z) (l : list Z) : list Z :=
  take (Z.to_nat n) l ++ (heap_byte <$> seq (length l) (Z.to_nat n - length l)).

Definition malloc (n : Z) : M (testcache R) (option addr) :=
  ok ← request; if (ok : bool) then p ← place (resized n []); mret (Some p) else mret None.

Definition realloc (p : addr) (n : Z) : M (testcache R) (option addr) :=
  ok ← request;
  if negb ok then mret None else
  l ← block p;
  _ ← dispose p;
  p ← place (resized n l);
  mret (Some p).

(** [open] and [ck_read]: the first [len] bytes of the file, at [p]. *)
Definition open_file (q : loc) : M (testcache R) (list Z) :=
  e ← entry q;
  _ ← must;
  match disk !! fname e with Some d => mret d | None => fail ProcessExit end.

Definition ck_read (d : list Z) (p : addr) (len : Z) : M (testcache R) unit :=
  _ ← must;
  if decide (len ≤ zlen d) then overwrite p (take (Z.to_nat len) d) else fail ProcessExit.

(** The block that [afl_realloc] asks for. *)
Definition alloc_size (size_needed : Z) : Z :=
  if decide (size_needed < INITIAL_GROWTH_SIZE) then INITIAL_GROWTH_SIZE else
  if decide (AflQueue.next_pow2 size_needed = 0) then size_needed else AflQueue.next_pow2 size_needed.

(** [afl_realloc] on [afl->testcase_buf] or [afl->splicecase_buf]. *)
Definition afl_realloc (b : option addr) (size_needed : Z) : M (testcache R) addr :=
  old ← (match b with Some p => block p | None => mret [] end);
  let current_size := match b with Some _ => zlen old + AFL_ALLOC_SIZE_OFFSET | None => 0 end in
  let size_needed := u64 (size_needed + AFL_ALLOC_SIZE_OFFSET) in
  match b with
  | Some p => if decide (size_needed ≤ current_size) then mret p else
      r ← realloc p (alloc_size size_needed - AFL_ALLOC_SIZE_OFFSET);
      match r with Some p => mret p | None => fail ProcessExit end
  | None =>
      r ← malloc (alloc_size size_needed - AFL_ALLOC_SIZE_OFFSET);
      match r with Some p => mret p | None => fail ProcessExit end
  end.

(** ** [queue_testcase_retake] and [queue_testcase_retake_mem] *)

Definition point_to (q : loc) (p : addr) : M (testcache R) unit := cupd (λ c, set_bufs (<[q := p]> (testcase_buf c)) c).

Definition queue_testcase_retake (q : loc) (old_len : Z) : M (testcache R) unit :=
  c ← get_state;
  match testcase_buf c !! q with
  | None => mret tt
  | Some p =>
      e ← entry q;
      p ← (if decide (len e = old_len) then mret p else
           _ ← cupd (set_cache_size (u64 (cache_size c + len e - old_len)));
           r ← realloc p (len e);
           match r with None => fail ProcessExit | Some p => _ ← point_to q p; mret p end);
      d ← open_file q;
      ck_read d p (len e)
  end.

(** [in_] is an address.  Without memory the block keeps its size, and so does the sum. *)
Definition queue_testcase_retake_mem (q : loc) (in_ : addr) (len old_len : Z) : M (testcache R) unit :=
  c ← get_state;
  match testcase_buf c !! q with
  | None => mret tt
  | Some p =>
      p' ← (if decide (len = old_len) then mret p else
            r ← realloc p len;
            match r with
            | None => mret p
            | Some p => _ ← point_to q p; _ ← cupd (λ c, set_cache_size (u64 (cache_size c + len - old_len)) c); mret p
            end);
      if decide (in_ = p) then mret tt else
      bs ← block in_;
      if decide (len ≤ zlen bs) then overwrite p' (take (Z.to_nat len) bs) else fail OutOfBounds
  end.

(** ** [queue_testcase_get] *)

Definition slot (tid : Z) : M (testcache R) (option loc) :=
  c ← get_state; match slots c !! Z.to_nat tid with Some s => mret s | None => fail OutOfBounds end.

(** There is no room for [len] bytes more, or for one more entry. *)
Definition no_room (len : Z) (c : testcache R) : bool :=
  bool_decide (max_cache_size c ≤ u64 (cache_size c + len)) || bool_decide (u32 (max_cache_entries c - 1) ≤ cache_count c).

(** The first time that the table is full by size, the number of its entries becomes the
    limit.  (The new last slot, if there is one, has no value.) *)
Definition learn_limit (len : Z) : M (testcache R) unit :=
  c ← get_state;
  if decide (max_cache_size c ≤ u64 (cache_size c + len) ∧
             (cache_count c < max_cache_entries c ∧ max_cache_count c < max_cache_entries c) ∧ do_once c = false) then
    let n := if decide (cache_count c < max_cache_count c) then u32 (max_cache_count c + 1) else u32 (cache_count c + 1) in
    let size := u32 ((n + 1) * 8) in
    if decide (MAX_ALLOC < size) then fail ProcessExit else
    _ ← must;
    cupd (cut_table n (Z.to_nat (size / 8)))
  else mret tt.

(** A random slot with an entry that is not in use. *)
Fixpoint pick_slot (draws : nat) : M (testcache R) Z :=
  match draws with
  | O => out_of_fuel
  | S draws =>
      c ← get_state;
      tid ← rand_below (max_cache_count c);
      s ← slot tid;
      if decide (s = None ∨ s = queue_cur) then pick_slot draws else mret tid
  end.

Definition evict (tid : Z) : M (testcache R) unit :=
  s ← slot tid;
  match s with
  | None => fail NullDeref
  | Some old =>
      c ← get_state;
      _ ← (match testcase_buf c !! old with Some p => dispose p | None => mret tt end);
      _ ← cupd (λ c, set_bufs (delete old (testcase_buf c)) c);
      e ← entry old;
      cupd (drop_slot tid (len e))
  end.

(** The loop [while (unlikely(...))]: the last slot that was freed, or [tid]. *)
Fixpoint make_room (fuel draws : nat) (len tid : Z) : M (testcache R) Z :=
  match fuel with
  | O => out_of_fuel
  | S fuel =>
      c ← get_state;
      if no_room len c then
        _ ← learn_limit len;
        tid ← pick_slot draws;
        _ ← evict tid;
        make_room fuel draws len tid
      else mret tid
  end.

(** [while (afl->q_testcase_cache[tid] != NULL) ++tid], on the slots from [tid] on. *)
Fixpoint next_free (l : list (option loc)) (tid : Z) : M (testcache R) Z :=
  match l with
  | [] => fail OutOfBounds
  | None :: _ => mret tid
  | Some _ :: l => next_free l (tid + 1)
  end.

Definition free_slot (tid : Z) : M (testcache R) Z :=
  c ← get_state; next_free (drop (Z.to_nat tid) (slots c)) tid.

(** Without a cache: the buffer of the current entry or that of the others. *)
Definition load_uncached (q : loc) : M (testcache R) addr :=
  e ← entry q;
  c ← get_state;
  p ← (if decide (queue_cur = Some q) then p ← afl_realloc (testcase_block c) (len e); _ ← cupd (λ c, set_blocks (Some p) (splicecase_block c) c); mret p
       else p ← afl_realloc (splicecase_block c) (len e); _ ← cupd (λ c, set_blocks (testcase_block c) (Some p) c); mret p);
  d ← open_file q;
  _ ← ck_read d p (len e);
  mret p.

Definition queue_testcase_get (fuel draws : nat) (q : loc) : M (testcache R) addr :=
  e ← entry q;
  c ← get_state;
  if decide (max_cache_size c = 0) then load_uncached q else
  match testcase_buf c !! q with
  | Some p => mret p
  | None =>
      tid ← make_room fuel draws (len e) (max_cache_count c);
      c ← get_state;
      tid ← free_slot (if decide (max_cache_entries c ≤ tid) then smallest_free c else tid);
      d ← open_file q;
      r ← malloc (len e);
      match r with
      | None => fail ProcessExit
      | Some p =>
          _ ← point_to q p;
          _ ← ck_read d p (len e);
          _ ← cupd (fill_slot q tid (len e));
          mret p
      end
  end.

(** ** [queue_testcase_store_mem] *)

Definition queue_testcase_store_mem (q : loc) (mem : list Z) : M (testcache R) unit :=
  e ← entry q;
  c ← get_state;
  if no_room (len e) c then mret tt else
  tid ← free_slot (if decide (max_cache_entries c ≤ max_cache_count c) then smallest_free c else max_cache_count c);
  r ← malloc (len e);
  match r with
  | None => fail ProcessExit
  | Some p =>
      _ ← point_to q p;
      if decide (len e ≤ zlen mem) then
        _ ← overwrite p (take (Z.to_nat (len e)) mem);
        cupd (fill_slot q tid (len e))
      else fail OutOfBounds
  end.
End Cache.
