(* ===== verification/AflCacheSpec.v ===== *)
(** * AflCacheSpec: the cache of test cases hands out the contents of the files

    [cache_ok] is the invariant of the table: what it counts, which slots are in use, which
    blocks belong to it and what they hold.  Every operation keeps it, and the buffer of the
    entry that is being fuzzed is never evicted. *)

From S2P Require Import Prelude Utils AflBitmap AflDet AflDict AflHavoc AflHavocSpec AflQueue AflCache.

(** ** Lists of slots *)

(** The entries in a list of slots. *)
Definition held (l : list (option loc)) : list loc := omap id l.

Lemma held_app l l' : held (l ++ l') = held l ++ held l'.
Proof. apply omap_app. Qed.

Lemma held_elem l q : q ∈ held l ↔ ∃ i, l !! i = Some (Some q).
Proof.
  unfold held. rewrite list_elem_of_omap. split.
  - intros (x & Hx & Hq). simpl in Hq. subst x. by apply list_elem_of_lookup in Hx.
  - intros [i Hi]. exists (Some q). split; [by eapply list_elem_of_lookup_2|done].
Qed.

(** Slot [i] changed, up to the order of the entries. *)
Lemma held_insert l i s s' : l !! i = Some s → option_list s ++ held (<[i := s']> l) ≡ₚ option_list s' ++ held l.
Proof.
  intros Hi. pose proof (lookup_lt_Some _ _ _ Hi) as Hlt. rewrite insert_take_drop by done.
  rewrite <- (take_drop_middle l i s) at 3 by done. rewrite !held_app.
  change (held (?x :: ?l)) with (held ([x] ++ l)). rewrite !held_app.
  assert (∀ x : option loc, held [x] = option_list x) as Hx by (by intros [x|]). rewrite !Hx. solve_Permutation.
Qed.

Lemma held_fill l i q : l !! i = Some None → held (<[i := Some q]> l) ≡ₚ q :: held l.
Proof. apply (held_insert l i None (Some q)). Qed.

Lemma held_drop l i q : l !! i = Some (Some q) → q :: held (<[i := None]> l) ≡ₚ held l.
Proof. apply (held_insert l i (Some q) None). Qed.

Lemma held_empty l : (∀ i q, l !! i ≠ Some (Some q)) → held l = [].
Proof.
  intros H. destruct (held l) as [|q l'] eqn:E; [done|].
  assert (q ∈ held l) as [i Hi]%held_elem by (rewrite E; apply list_elem_of_here). by apply H in Hi.
Qed.

Lemma held_take l n : (∀ i q, l !! i = Some (Some q) → (i < n)%nat) → held (take n l) = held l.
Proof.
  intros H. rewrite <- (take_drop n l) at 2. rewrite held_app, (held_empty (drop n l)), app_nil_r; [done|].
  intros i q Hi. rewrite lookup_drop in Hi. apply H in Hi. lia.
Qed.

Lemma held_le l : (length (held l) ≤ length l)%nat.
Proof.
  induction l as [|[x|] l IH]; [done|change (S (length (held l)) ≤ S (length l))%nat; lia|change (length (held l) ≤ S (length l))%nat; lia].
Qed.

Lemma held_bound l n : (∀ i q, l !! i = Some (Some q) → (i < n)%nat) → (length (held l) ≤ n)%nat.
Proof. intros H. rewrite <- (held_take _ _ H). etrans; [apply held_le|]. rewrite length_take. lia. Qed.

Lemma held_full l : (∀ i, (i < length l)%nat → ∃ q, l !! i = Some (Some q)) → length (held l) = length l.
Proof.
  induction l as [|x l IH]; intros H; [done|]. destruct (H 0%nat) as [q Hq]; [simpl; lia|]. simpl in Hq. simplify_eq.
  change (S (length (held l)) = S (length l)). f_equal. apply IH. intros i Hi. apply (H (S i)). simpl. lia.
Qed.

(** A table with fewer entries than slots has a free slot. *)
Lemma free_exists l n m : (length (held l) < n)%nat → (n ≤ length l)%nat → (∀ i, (i < m)%nat → ∃ q, l !! i = Some (Some q)) →
  ∃ i, (m ≤ i < n)%nat ∧ l !! i = Some None.
Proof.
  intros Hlen Hn Hm. destruct (decide (Exists (λ i, l !! i = Some None) (seq m (n - m)))) as [He|Hne].
  - apply Exists_exists in He as (i & Hi%elem_of_seq & He). exists i. split; [lia|done].
  - exfalso. assert (length (held (take n l)) = n) as Hfull.
    { rewrite held_full; [rewrite length_take; lia|]. intros i Hi. rewrite length_take in Hi. rewrite lookup_take_lt by lia.
      destruct (decide (i < m)%nat) as [|Hge]; [by apply Hm|]. destruct (lookup_lt_is_Some_2 l i) as [[q|] Hq]; [lia|by exists q|].
      exfalso. apply Hne, Exists_exists. exists i. split; [apply elem_of_seq; lia|done]. }
    assert (length (held l) = length (held (take n l)) + length (held (drop n l)))%nat as E by (by rewrite <- length_app, <- held_app, take_drop). lia.
Qed.

(** ** The invariant *)

Section Spec.
Context {R : Type} `{!Random R, !Host, !Runner}.
Context (es : gmap loc queue_entry) (disk : gmap string (list Z)).
Implicit Types c : testcache R.

(** The bytes of entry [q] on the disk. *)
Definition file (q : loc) (bs : list Z) : Prop :=
  ∃ e d, es !! q = Some e ∧ disk !! fname e = Some d ∧ len e ≤ zlen d ∧ bs = take (Z.to_nat (len e)) d.

(** Every entry has a file. *)
Definition on_disk : Prop := ∀ q e, es !! q = Some e → 0 < len e ≤ MAX_FILE ∧ ∃ d, disk !! fname e = Some d ∧ len e ≤ zlen d.

Definition weight (q : loc) : Z := match es !! q with Some e => len e | None => 0 end.
Definition total (l : list loc) : Z := foldr (λ q n, weight q + n) 0 l.

#[global] Instance total_proper : Proper ((≡ₚ) ==> (=)) total.
Proof. intros l l' Hl. unfold total. apply (foldr_permutation _ _ _ _); [|done]. intros. lia. Qed.

(** The table: [max_cache_count] bounds the slots that were ever used, no slot below
    [smallest_free] is free. *)
Record table_ok c : Prop := {
  tb_entries : 3 ≤ max_cache_entries c < 2 ^ 26;
  tb_limit : 2 * MAX_FILE < max_cache_size c < 2 ^ 63;
  tb_room : max_cache_entries c ≤ zlen (slots c);
  tb_nodup : NoDup (held (slots c));
  tb_count : cache_count c = zlen (held (slots c)) ∧ cache_count c < max_cache_entries c;
  tb_size : cache_size c = total (held (slots c));
  tb_used : 0 ≤ max_cache_count c ≤ max_cache_entries c ∧ ∀ i q, slots c !! i = Some (Some q) → Z.of_nat i < max_cache_count c;
  tb_small : 0 ≤ smallest_free c ∧ ∀ i, Z.of_nat i < smallest_free c → ∃ q, slots c !! i = Some (Some q) }.

(** The blocks: exactly the entries of the table have one, their own, with the file in it. *)
Record blocks_ok c : Prop := {
  bl_cached : ∀ q, q ∈ held (slots c) ↔ is_Some (testcase_buf c !! q);
  bl_file : ∀ q p, testcase_buf c !! q = Some p → ∃ bs, heap c !! p = Some bs ∧ file q bs;
  bl_apart : ∀ q q' p, testcase_buf c !! q = Some p → testcase_buf c !! q' = Some p → q = q';
  bl_fresh : ∀ p, is_Some (heap c !! p) → (p < next_addr c)%positive }.

Definition cache_ok c : Prop := table_ok c ∧ blocks_ok c.

(** [c'] has fewer entries than [c], and still the one that is in use. *)
Record evicted (cur : option loc) c c' : Prop := {
  ev_bufs : testcase_buf c' ⊆ testcase_buf c;
  ev_heap : heap c' ⊆ heap c;
  ev_cur : ∀ k p, cur = Some k → testcase_buf c !! k = Some p → testcase_buf c' !! k = Some p ∧ heap c' !! p = heap c !! p;
  ev_used : max_cache_count c' = max_cache_count c;
  ev_limit : max_cache_size c' = max_cache_size c;
  ev_entries : max_cache_entries c' ≤ max_cache_entries c;
  ev_blocks : testcase_block c' = testcase_block c ∧ splicecase_block c' = splicecase_block c }.

#[global] Instance evicted_preorder cur : PreOrder (evicted cur).
Proof.
  split; [by split|]. intros a b c [A1 A2 A3 A4 A5 A6 [A7 A8]] [B1 B2 B3 B4 B5 B6 [B7 B8]]. split; try (by etrans); [|by split; etrans].
  intros k p Hk Hp. destruct (A3 k p Hk Hp) as [H1 H2]. destruct (B3 k p Hk H1) as [H3 H4]. split; [done|by etrans].
Qed.

(** What does not concern the table. *)
Lemma cache_ok_gen c g : cache_ok c → cache_ok (set_gen g c).
Proof. by intros [[] []]. Qed.

Lemma cache_ok_requests c n : cache_ok c → cache_ok (set_requests n c).
Proof. by intros [[] []]. Qed.

Lemma evicted_gen cur c g : evicted cur c (set_gen g c).
Proof. by split. Qed.

Lemma evicted_requests cur c n : evicted cur c (set_requests n c).
Proof. by split. Qed.

Lemma total_bounds l : on_disk → 0 ≤ total l ≤ MAX_FILE * zlen l.
Proof.
  intros Hd. induction l as [|q l IH]; [done|]. change (total (q :: l)) with (weight q + total l).
  assert (0 ≤ weight q ≤ MAX_FILE) by (unfold weight; destruct (es !! q) as [e|] eqn:E; [apply Hd in E; lia|done]).
  rewrite length_cons. lia.
Qed.

(** ** Steps *)

Lemma wp_cupd f c (Q : unit → testcache R → Prop) : Q tt (f c) → wp (cupd f) c Q.
Proof. done. Qed.

Lemma wp_entry q e c (Q : queue_entry → testcache R → Prop) : es !! q = Some e → Q e c → wp (entry es q) c Q.
Proof. unfold entry. by intros ->. Qed.

Lemma wp_must c (Q : unit → testcache R → Prop) : never_refuses → Q tt (set_requests (Pos.succ (requests c)) c) → wp must c Q.
Proof. intros Hn HQ. unfold must, request. apply wp_bind, wp_bind, wp_get, wp_bind, wp_put, wp_ret. by rewrite Hn. Qed.

Lemma wp_slot i s c (Q : option loc → testcache R → Prop) : slots c !! Z.to_nat i = Some s → Q s c → wp (slot i) c Q.
Proof. intros Hs HQ. unfold slot. apply wp_bind, wp_get. by rewrite Hs. Qed.

Lemma wp_draw_slot limit c (Q : Z → testcache R → Prop) : 0 < limit < 2 ^ 32 →
  Q (below limit (gen c)).1 (set_gen (below limit (gen c)).2 c) → wp (rand_below limit) c Q.
Proof.
  intros Hl HQ. unfold rand_below. apply wp_bind, wp_get. rewrite wrap_small by lia.
  destruct (below limit (gen c)) as [r g]. by apply wp_bind, wp_put, wp_ret.
Qed.

(** ** Eviction *)

(** A full table has an entry besides the one in use. *)
Lemma full_other c cur n : on_disk → cache_ok c → 0 < n ≤ MAX_FILE → no_room n c = true →
  2 ≤ zlen (held (slots c)) ∧ ∃ i q, slots c !! i = Some (Some q) ∧ Some q ≠ cur.
Proof.
  intros Hd [[Hent Hlim Hroom Hnd [Hcnt Hcnt2] Hsz Hused Hsmall] _] Hn Hfull.
  pose proof (total_bounds (held (slots c)) Hd) as Ht. unfold MAX_FILE in *.
  assert (2 ≤ zlen (held (slots c))) as H2.
  { unfold no_room in Hfull. apply orb_true_iff in Hfull as [Hf|Hf]; apply bool_decide_eq_true in Hf; rewrite wrap_small in Hf by lia; lia. }
  split; [done|]. destruct (held (slots c)) as [|q [|q' l]] eqn:E; [simpl in H2; lia..|].
  assert (∃ k, k ∈ held (slots c) ∧ Some k ≠ cur) as (k & [i Hi]%held_elem & Hk); [|by exists i, k].
  rewrite E. destruct (decide (Some q = cur)) as [<-|]; [|exists q; split; [apply list_elem_of_here|done]].
  exists q'. split; [apply list_elem_of_further, list_elem_of_here|]. intros [= ->].
  apply NoDup_cons_1_1 in Hnd. apply Hnd, list_elem_of_here.
Qed.

Lemma learn_limit_ok c cur n : on_disk → never_refuses → cache_ok c → 0 < n ≤ MAX_FILE → no_room n c = true →
  wp (learn_limit n) c (λ _ c', cache_ok c' ∧ evicted cur c c' ∧ no_room n c' = true ∧
    held (slots c') = held (slots c) ∧ gen c' = gen c ∧ max_cache_entries c' ≤ max_cache_entries c).
Proof.
  intros Hd Hnr Hc Hn Hfull. destruct (full_other c cur n) as [H2 _]; [done..|].
  destruct Hc as [[Hent Hlim Hroom Hnd [Hcnt Hcnt2] Hsz [Hmax Hused] [Hs Hsmall]] [Hcached Hfile Hapart Hfresh]].
  unfold learn_limit. apply wp_bind, wp_get. case_decide as Hlearn; [|by apply wp_ret].
  destruct Hlearn as (Hsize & [_ Hmm] & _).
  assert (zlen (held (slots c)) ≤ max_cache_count c) as Hle.
  { pose proof (held_bound (slots c) (Z.to_nat (max_cache_count c))) as Hb. assert (length (held (slots c)) ≤ Z.to_nat (max_cache_count c))%nat; [|lia].
    apply Hb. intros i q Hi%Hused. lia. }
  assert ((if decide (cache_count c < max_cache_count c) then u32 (max_cache_count c + 1) else u32 (cache_count c + 1)) = max_cache_count c + 1) as ->.
  { case_decide; rewrite wrap_small by lia; lia. }
  rewrite (wrap_small 32) by lia. rewrite decide_False by (unfold MAX_ALLOC; lia). rewrite Z.div_mul by done.
  apply wp_bind, wp_must; [done|]. apply wp_cupd. simpl.
  assert (held (take (Z.to_nat (max_cache_count c + 1 + 1)) (slots c)) = held (slots c)) as Eh by (apply held_take; intros i q Hi%Hused; lia).
  assert (∀ i q, take (Z.to_nat (max_cache_count c + 1 + 1)) (slots c) !! i = Some (Some q) ↔ slots c !! i = Some (Some q)) as El.
  { intros i q. rewrite lookup_take_Some. split; [by intros []|]. intros Hi. split; [done|]. apply Hused in Hi. lia. }
  split; [split; split; simpl; rewrite ?Eh; try done|].
  - lia.
  - rewrite length_take. lia.
  - lia.
  - split; [lia|]. intros i q Hi%El. by apply Hused in Hi.
  - split; [done|]. intros i Hi. destruct (Hsmall i Hi) as [q Hq]. exists q. by apply El.
  - split_and!; try done; [split; try done; simpl; lia| |lia]. unfold no_room in *. simpl. apply orb_true_iff. left. by apply bool_decide_eq_true.
Qed.

(** A slot is found that may be evicted. *)
Lemma pick_slot_ok cur c0 i : ∀ draws c k, slots c = slots c0 → max_cache_count c = max_cache_count c0 →
  0 < max_cache_count c0 < 2 ^ 32 → max_cache_count c0 ≤ zlen (slots c0) → (k < draws)%nat →
  (below (max_cache_count c0) (Nat.iter k (λ g, (below (max_cache_count c0) g).2) (gen c))).1 = Z.of_nat i →
  (∃ q, slots c0 !! i = Some (Some q) ∧ Some q ≠ cur) →
  wp (pick_slot cur draws) c (λ t c', (∃ g, c' = set_gen g c) ∧ 0 ≤ t ∧ ∃ q, slots c0 !! Z.to_nat t = Some (Some q) ∧ Some q ≠ cur).
Proof.
  induction draws as [|draws IH]; intros c k Es Em Hm Hroom Hk Hv Hi; [lia|]. simpl. apply wp_bind, wp_get. rewrite Em.
  pose proof (below_lt (max_cache_count c0) (gen c) ltac:(lia)) as Hb.
  apply wp_bind, wp_draw_slot; [done|]. destruct (lookup_lt_is_Some_2 (slots c0) (Z.to_nat (below (max_cache_count c0) (gen c)).1)) as [s Hs]; [lia|].
  apply wp_bind, (wp_slot _ s); [by simpl; rewrite Es|]. case_decide as Hno.
  - destruct k as [|k]; [simpl in Hv; rewrite Hv, Nat2Z.id in *; naive_solver|]. rewrite Nat.iter_succ_r in Hv.
    eapply wp_mono; [apply (IH _ k); try done; lia|]. intros t c' [[g ->] Ht]. split; [by exists g|done].
  - apply wp_ret. split; [by eexists|]. split; [lia|]. destruct s as [q|]; [exists q|]; naive_solver.
Qed.

Lemma evict_ok c cur t q : on_disk → cache_ok c → slots c !! Z.to_nat t = Some (Some q) → 0 ≤ t → Some q ≠ cur →
  wp (evict es t) c (λ _ c', cache_ok c' ∧ evicted cur c c' ∧ zlen (held (slots c')) = zlen (held (slots c)) - 1 ∧
    slots c' !! Z.to_nat t = Some None ∧ gen c' = gen c ∧ max_cache_entries c' = max_cache_entries c).
Proof.
  intros Hd [[Hent Hlim Hroom Hnd [Hcnt Hcnt2] Hsz [Hmax Hused] [Hs Hsmall]] [Hcached Hfile Hapart Hfresh]] Ht Ht0 Hq.
  pose proof (held_drop _ _ _ Ht) as Hp. set (l' := <[Z.to_nat t := None]> (slots c)) in *.
  assert (is_Some (testcase_buf c !! q)) as [p Hbuf] by (apply Hcached, held_elem; by eexists).
  destruct (Hfile q p Hbuf) as (bs & Hbs & e & d & He & _). destruct (Hd q e He) as [Hlen _].
  pose proof (total_bounds (held l') Hd) as Htb. pose proof (lookup_lt_Some _ _ _ Ht) as Hlt.
  unfold evict. apply wp_bind, (wp_slot _ (Some q)); [done|]. apply wp_bind, wp_get. rewrite Hbuf. apply wp_bind.
  unfold dispose. apply wp_bind. unfold block. apply wp_bind, wp_get. rewrite Hbs. apply wp_ret, wp_cupd.
  apply wp_bind, wp_cupd. apply wp_bind, (wp_entry _ e); [done|]. apply wp_cupd. simpl. fold l'.
  assert (length l' = length (slots c)) as El by apply length_insert.
  assert (zlen (held (slots c)) = zlen (held l') + 1) as Hl by (rewrite <- Hp; simpl; lia).
  assert (total (held (slots c)) = len e + total (held l')) as Htot.
  { rewrite <- Hp. change (total (q :: held l')) with (weight q + total (held l')). unfold weight. by rewrite He. }
  assert (NoDup (q :: held l')) as [Hout Hnd']%NoDup_cons by (by rewrite Hp).
  assert (∀ i k, l' !! i = Some (Some k) → i ≠ Z.to_nat t ∧ slots c !! i = Some (Some k)) as Hl'.
  { intros i k Hi. unfold l' in Hi. apply list_lookup_insert_Some in Hi as [(_ & [=] & _)|[? ?]]. by split. }
  assert (∀ k r, delete q (testcase_buf c) !! k = Some r → k ≠ q ∧ r ≠ p ∧ testcase_buf c !! k = Some r) as Hdel.
  { intros k r [Hne Hk]%lookup_delete_Some. split_and!; try done. intros ->. apply Hne. symmetry. by apply Hapart with p. }
  split; [split; split; simpl; fold l'; try done|]; [..|split_and!; simpl; fold l'; try done].
  - lia.
  - split; [rewrite wrap_small; lia|]. rewrite wrap_small by lia. lia.
  - unfold MAX_FILE in *. rewrite wrap_small by lia. lia.
  - split; [done|]. intros i k Hi. by eapply Hused, Hl'.
  - case_decide; (split; [done|]); intros i Hi; (destruct (Hsmall i) as [k Hk]; [lia|]); exists k; unfold l';
      rewrite list_lookup_insert_ne by lia; done.
  - intros k. rewrite lookup_delete_is_Some, <- Hcached, <- Hp, elem_of_cons. split; [|naive_solver].
    intros Hk. split; [by intros ->|by right].
  - intros k r (Hk & Hr & Hbk)%Hdel. destruct (Hfile k r Hbk) as (bs' & Hb & Hf). exists bs'. by rewrite lookup_delete_ne.
  - intros k k' r (_ & _ & H1)%Hdel (_ & _ & H2)%Hdel. by eapply Hapart.
  - intros r. rewrite lookup_delete_is_Some. intros [_ Hr]. by apply Hfresh.
  - split; simpl; try done; [apply delete_subseteq..|]. intros k r -> Hk.
    assert (k ≠ q) as Hkq by congruence. rewrite lookup_delete_ne by done. split; [done|]. apply lookup_delete_ne. intros ->. by apply Hkq, (Hapart k q r).
  - lia.
  - by apply list_lookup_insert_eq.
Qed.

(** The number of entries that are left bounds the turns of the loop. *)
Lemma make_room_ok cur n draws : on_disk → never_refuses → 0 < n ≤ MAX_FILE → ∀ fuel c tid,
  (∀ m, 0 < m ≤ max_cache_entries c → fair (R := R) draws m) → cache_ok c → (length (held (slots c)) < fuel)%nat →
  wp (make_room es cur fuel draws n tid) c (λ t c', cache_ok c' ∧ evicted cur c c' ∧ no_room n c' = false ∧
    (t = tid ∧ c' = c ∨ 0 ≤ t < max_cache_count c ∧ slots c' !! Z.to_nat t = Some None)).
Proof.
  intros Hd Hnr Hn. induction fuel as [|fuel IH]; intros c tid Hfair Hc Hf; [lia|]. simpl. apply wp_bind, wp_get.
  destruct (no_room n c) eqn:Hfull; [|apply wp_ret; split_and!; [done|reflexivity|done|by left]].
  apply wp_bind. eapply wp_mono; [by apply learn_limit_ok|]. intros _ c1 (Hc1 & Hev1 & Hfull1 & Hheld & Hgen & Hent).
  destruct (full_other c1 cur n) as (H2 & i & q & Hi & Hq); [done..|].
  destruct Hc1 as [[Hent1 Hlim1 Hroom1 Hnd1 Hcnt1 Hsz1 [Hmax1 Hused1] Hsm1] Hb1] eqn:E. pose proof (Hused1 _ _ Hi) as Hlt.
  destruct (Hfair (max_cache_count c1) ltac:(lia) (Z.of_nat i) (gen c1) ltac:(lia)) as (k & Hk & Hv).
  apply wp_bind. eapply wp_mono; [apply (pick_slot_ok cur c1 i draws c1 k); try done; [lia|lia|by exists q]|].
  intros t c2 [[g ->] (Ht0 & q' & Hq' & Hne)]. apply wp_bind. eapply wp_mono.
  { apply (evict_ok _ cur t q'); [done|by apply cache_ok_gen|done..]. }
  intros _ c3 (Hc3 & Hev3 & Hz & Hnone & Hg3 & He3). simpl in Hz. rewrite Hheld in Hz.
  assert (evicted cur c c3) as Hev by (etrans; [exact Hev1|]; etrans; [apply (evicted_gen cur c1 g)|done]).
  eapply wp_mono; [apply (IH c3 t); [intros m Hm; apply Hfair; simpl in He3; lia|done|lia]|]. intros t' c4 (Hc4 & Hev4 & Hroom4 & Hcase).
  split; [done|]. split; [by etrans|]. split; [done|]. right.
  assert (max_cache_count c3 = max_cache_count c) as E3 by apply Hev. destruct Hcase as [[-> ->]|[Ht' Hs']]; [|split; [lia|done]].
  split; [|done]. apply Hused1 in Hq'. rewrite <- (ev_used _ _ _ Hev1). lia.
Qed.

(** ** A new entry of the table *)

Lemma wp_next_free i : ∀ l t c (Q : Z → testcache R → Prop), l !! i = Some None →
  (∀ j, (j ≤ i)%nat → l !! j = Some None → Q (t + Z.of_nat j) c) → wp (next_free l t) c Q.
Proof.
  induction i as [|i IH]; intros [|[q|] l] t c Q Hi HQ; simplify_eq/=; try (apply wp_ret; specialize (HQ 0%nat); rewrite Z.add_0_r in HQ; apply HQ; [lia|done]).
  apply IH; [done|]. intros j Hj Hl. replace (t + 1 + Z.of_nat j) with (t + Z.of_nat (S j)) by lia. by apply HQ; [lia|].
Qed.

Lemma wp_free_slot tid i n c (Q : Z → testcache R → Prop) : 0 ≤ tid → tid ≤ Z.of_nat i < n → slots c !! i = Some None →
  (∀ t, 0 ≤ t < n → slots c !! Z.to_nat t = Some None → Q t c) → wp (free_slot tid) c Q.
Proof.
  intros Ht Hi Hs HQ. unfold free_slot. apply wp_bind, wp_get. apply (wp_next_free (i - Z.to_nat tid)).
  - rewrite lookup_drop. by replace (Z.to_nat tid + (i - Z.to_nat tid))%nat with i by lia.
  - intros j Hj Hd. rewrite lookup_drop in Hd. apply HQ; [lia|]. by replace (Z.to_nat (tid + Z.of_nat j)) with (Z.to_nat tid + j)%nat by lia.
Qed.

Lemma room_left c n : cache_ok c → 0 ≤ n ≤ MAX_FILE → no_room n c = false → on_disk →
  0 ≤ cache_size c ∧ cache_size c + n < max_cache_size c ∧ cache_count c < max_cache_entries c - 1.
Proof.
  intros [[Hent Hlim Hroom Hnd [Hcnt Hcnt2] Hsz Hused Hsmall] _] Hn Hno Hd.
  pose proof (total_bounds (held (slots c)) Hd) as Ht. unfold MAX_FILE in *. unfold no_room in Hno.
  apply orb_false_iff in Hno as [Ha Hb]. apply bool_decide_eq_false in Ha, Hb. rewrite wrap_small in Ha by lia. rewrite wrap_small in Hb by lia. lia.
Qed.

(** The slots from [smallest_free] on have a free one. *)
Lemma small_free c n : cache_ok c → 0 ≤ n ≤ MAX_FILE → no_room n c = false → on_disk →
  ∃ i, 0 ≤ smallest_free c ≤ Z.of_nat i ∧ Z.of_nat i < max_cache_entries c ∧ slots c !! i = Some None.
Proof.
  intros Hc Hn Hno Hd. pose proof (room_left c n Hc Hn Hno Hd) as Hr. destruct Hc as [[Hent Hlim Hroom Hnd [Hcnt Hcnt2] Hsz Hused [Hs Hsmall]] _].
  destruct (free_exists (slots c) (Z.to_nat (max_cache_entries c)) (Z.to_nat (smallest_free c))) as (i & Hi & Hfree); [lia..| |].
  - intros i Hi. apply Hsmall. lia.
  - exists i. split_and!; [lia..|done].
Qed.

Lemma slot_unused c i : cache_ok c → max_cache_count c ≤ Z.of_nat i → Z.of_nat i < max_cache_entries c → slots c !! i = Some None.
Proof.
  intros [[Hent Hlim Hroom Hnd Hcnt Hsz [_ Hused] Hsmall] _] Hi Hi2. destruct (lookup_lt_is_Some_2 (slots c) i) as [[q|] Hq]; [lia| |done].
  apply Hused in Hq. lia.
Qed.

(** The state after entry [q] joined, at slot [t] and address [p]. *)
Definition joined c q t n p bs := fill_slot q t n (set_bufs (<[q := p]> (testcase_buf c)) (set_heap (<[p := bs]> (heap c)) (Pos.succ p) c)).

Lemma joined_ok c q e t bs : on_disk → cache_ok c → es !! q = Some e → no_room (len e) c = false → testcase_buf c !! q = None →
  0 ≤ t < max_cache_entries c → slots c !! Z.to_nat t = Some None → file q bs → cache_ok (joined c q t (len e) (next_addr c) bs).
Proof.
  intros Hd Hc He Hno Hq Ht Hfree Hf. destruct (Hd q e He) as [Hlen _]. pose proof (room_left c (len e) Hc ltac:(lia) Hno Hd) as (Hr0 & Hr1 & Hr2).
  destruct Hc as [[Hent Hlim Hroom Hnd [Hcnt Hcnt2] Hsz [Hmax Hused] [Hs Hsmall]] [Hcached Hfile Hapart Hfresh]].
  pose proof (held_fill _ _ q Hfree) as Hp. pose proof (lookup_lt_Some _ _ _ Hfree) as Hlt. set (l' := <[Z.to_nat t := Some q]> (slots c)) in *.
  assert (q ∉ held (slots c)) as Hout by (rewrite Hcached, Hq; apply is_Some_None).
  assert (zlen (held l') = zlen (held (slots c)) + 1) as Hl by (rewrite Hp; simpl; lia).
  assert (total (held l') = len e + total (held (slots c))) as Htot.
  { rewrite Hp. change (total (q :: ?l)) with (weight q + total l). unfold weight. by rewrite He. }
  assert (heap c !! next_addr c = None) as Hnew by (apply eq_None_not_Some; intros Hx%Hfresh; lia).
  assert (∀ k, testcase_buf c !! k ≠ Some (next_addr c)) as Hnot by (intros k Hk; destruct (Hfile _ _ Hk) as (bs' & Hb & _); congruence).
  unfold joined. split; split; simpl; fold l'; try done.
  - unfold l'. by rewrite length_insert.
  - rewrite Hp. by apply NoDup_cons.
  - rewrite wrap_small by lia. lia.
  - rewrite wrap_small by lia. lia.
  - assert (∀ i k, l' !! i = Some (Some k) → Z.of_nat i = t ∨ Z.of_nat i < max_cache_count c) as Hl'.
    { intros i k Hi. unfold l' in Hi. apply list_lookup_insert_Some in Hi as [(<- & _)|[_ Hi]]; [left; lia|right; by eapply Hused]. }
    case_decide; rewrite ?(wrap_small 32) by lia; (split; [lia|]); intros i k Hi%Hl'; lia.
  - assert (∀ i, Z.of_nat i = t ∨ Z.of_nat i < smallest_free c → ∃ k, l' !! i = Some (Some k)) as Hl'.
    { intros i Hi. destruct (decide (i = Z.to_nat t)) as [->|]; [exists q; by apply list_lookup_insert_eq|].
      destruct (Hsmall i) as [k Hk]; [lia|]. exists k. unfold l'. by rewrite list_lookup_insert_ne. }
    case_decide; rewrite ?(wrap_small 32) by lia; (split; [lia|]); intros i Hi; apply Hl'; lia.
  - intros k. rewrite Hp, elem_of_cons, lookup_insert_is_Some', Hcached. naive_solver.
  - intros k r Hk. apply lookup_insert_Some in Hk as [[<- <-]|[Hne Hk]]; [exists bs; by rewrite lookup_insert_eq|].
    destruct (Hfile k r Hk) as (bs' & Hb & Hf'). exists bs'. split; [|done]. rewrite lookup_insert_ne; [done|]. intros <-. by apply (Hnot k).
  - intros k k' r Hk Hk'. apply lookup_insert_Some in Hk as [[<- <-]|[Hne Hk]]; apply lookup_insert_Some in Hk' as [[<- Hr]|[Hne' Hk']]; try done.
    + by apply Hnot in Hk'.
    + subst r. by apply Hnot in Hk.
    + by eapply Hapart.
  - intros r. rewrite lookup_insert_is_Some'. intros [<-|Hr%Hfresh]; lia.
Qed.

Lemma length_resized n l : 0 ≤ n → zlen (resized n l) = n.
Proof. intros Hn. unfold resized. rewrite length_app, length_take, length_fmap, length_seq. lia. Qed.

Lemma wp_malloc n c (Q : option addr → testcache R → Prop) : never_refuses →
  Q (Some (next_addr c)) (set_heap (<[next_addr c := resized n []]> (heap c)) (Pos.succ (next_addr c)) (set_requests (Pos.succ (requests c)) c)) →
  wp (malloc n) c Q.
Proof. intros Hn HQ. unfold malloc, request. apply wp_bind, wp_bind, wp_get, wp_bind, wp_put, wp_ret. rewrite Hn. by apply wp_bind, wp_bind, wp_get, wp_bind, wp_put, wp_ret, wp_ret. Qed.

Lemma wp_overwrite_block p l bs c (Q : unit → testcache R → Prop) : heap c !! p = Some l → (length bs ≤ length l)%nat →
  Q tt (set_heap (<[p := bs ++ drop (length bs) l]> (heap c)) (next_addr c) c) → wp (overwrite p bs) c Q.
Proof.
  intros Hl Hle HQ. unfold overwrite. apply wp_bind. unfold block. apply wp_bind, wp_get. rewrite Hl. apply wp_ret.
  rewrite decide_True by done. by apply wp_cupd.
Qed.

(** The bytes [bs] in a new block of their size. *)
Lemma wp_fill_block p n bs c (Q : unit → testcache R → Prop) : heap c !! p = Some (resized n []) → zlen bs = n →
  Q tt (set_heap (<[p := bs]> (heap c)) (next_addr c) c) → wp (overwrite p bs) c Q.
Proof.
  intros Hp Hn HQ. pose proof (length_resized n [] ltac:(lia)) as Hl. eapply wp_overwrite_block; [done|lia|].
  by rewrite drop_ge, app_nil_r by lia.
Qed.

(** What a caller keeps of the entry in use. *)
Definition spared (cur : option loc) c c' : Prop :=
  max_cache_size c' = max_cache_size c ∧ max_cache_entries c' ≤ max_cache_entries c ∧
  ∀ k p, cur = Some k → testcase_buf c !! k = Some p → testcase_buf c' !! k = Some p ∧ heap c' !! p = heap c !! p.

Lemma joined_spared cur c q t n bs m : cache_ok c → testcase_buf c !! q = None →
  spared cur c (set_requests m (joined c q t n (next_addr c) bs)).
Proof.
  intros [_ Hb] Hq. split; [done|]. split; [done|]. intros k p _ Hk. simpl. rewrite lookup_insert_ne by congruence. split; [done|].
  apply lookup_insert_ne. intros <-. destruct (bl_file _ Hb _ _ Hk) as (bs' & Hl & _).
  pose proof (bl_fresh _ Hb _ (mk_is_Some _ _ Hl)). lia.
Qed.

Lemma get_ok cur fuel draws q e c : on_disk → never_refuses → (∀ m, 0 < m ≤ max_cache_entries c → fair (R := R) draws m) → cache_ok c →
  es !! q = Some e → (length (held (slots c)) < fuel)%nat →
  wp (queue_testcase_get es disk cur fuel draws q) c (λ p c', cache_ok c' ∧ testcase_buf c' !! q = Some p ∧ spared cur c c').
Proof.
  intros Hd Hnr Hfair Hc He Hfuel. destruct (Hd q e He) as [Hlen (d & Hfile & Hlong)].
  unfold queue_testcase_get. apply wp_bind, (wp_entry _ e); [done|]. apply wp_bind, wp_get.
  assert (2 * MAX_FILE < max_cache_size c) as Hlim by apply Hc. unfold MAX_FILE in Hlim. rewrite decide_False by lia.
  destruct (testcase_buf c !! q) as [p|] eqn:Hq; [apply wp_ret; split_and!; [done..|by split]|].
  apply wp_bind. eapply wp_mono; [by apply (make_room_ok cur (len e) draws)|]. intros tid c1 (Hc1 & Hev & Hno & Hcase).
  assert (testcase_buf c1 !! q = None) as Hq1.
  { destruct (testcase_buf c1 !! q) as [p|] eqn:E; [|done]. by rewrite (lookup_weaken _ _ _ _ E (ev_bufs _ _ _ Hev)) in Hq. }
  assert (∃ i, 0 ≤ (if decide (max_cache_entries c1 ≤ tid) then smallest_free c1 else tid) ≤ Z.of_nat i ∧
    Z.of_nat i < max_cache_entries c1 ∧ slots c1 !! i = Some None) as (i & Hi1 & Hi2 & Hi3).
  { case_decide as Hover; [apply (small_free c1 (len e)); done || lia|]. pose proof (tb_used _ (proj1 Hc)) as [Hu _].
    exists (Z.to_nat tid). destruct Hcase as [[-> ->]|[Ht Hs]]; [|split_and!; [lia..|done]].
    split_and!; [lia..|]. apply slot_unused; [done|lia..]. }
  apply wp_bind, wp_get. apply wp_bind, (wp_free_slot _ i (max_cache_entries c1)); [lia..|done|]. intros t Ht Hfree.
  apply wp_bind. unfold open_file. apply wp_bind, (wp_entry _ e); [done|]. apply wp_bind, wp_must; [done|]. rewrite Hfile. apply wp_ret.
  apply wp_bind, wp_malloc; [done|]. apply wp_bind, wp_cupd. set (bs := take (Z.to_nat (len e)) d).
  apply wp_bind. unfold ck_read. apply wp_bind, wp_must; [done|]. rewrite decide_True by done. apply (wp_fill_block _ (len e)).
  - apply lookup_insert_eq.
  - unfold bs. rewrite length_take. lia.
  - apply wp_bind, wp_cupd, wp_ret. simpl. rewrite insert_insert_eq.
    assert (file q bs) as Hf by (by exists e, d). pose proof (joined_ok c1 q e t bs Hd Hc1 He Hno Hq1 Ht Hfree Hf) as Hj.
    split; [exact (cache_ok_requests _ _ Hj)|]. split; [apply lookup_insert_eq|].
    split; [apply Hev|]. split; [apply (ev_entries _ _ _ Hev)|]. intros k p Hk Hp. destruct (ev_cur _ _ _ Hev k p Hk Hp) as [Hk1 Hh1].
    destruct (joined_spared cur c1 q t (len e) bs 1%positive Hc1 Hq1) as (_ & _ & Hsp). destruct (Hsp k p Hk Hk1) as [Hk2 Hh2].
    split; [exact Hk2|by etrans].
Qed.

(** [mem] starts with the contents of the file. *)
Lemma store_mem_ok cur q e mem c : on_disk → never_refuses → cache_ok c → es !! q = Some e → testcase_buf c !! q = None →
  len e ≤ zlen mem → file q (take (Z.to_nat (len e)) mem) →
  wp (queue_testcase_store_mem es q mem) c (λ _ c', cache_ok c' ∧ spared cur c c').
Proof.
  intros Hd Hnr Hc He Hq Hmem Hf. destruct (Hd q e He) as [Hlen _].
  unfold queue_testcase_store_mem. apply wp_bind, (wp_entry _ e); [done|]. apply wp_bind, wp_get.
  destruct (no_room (len e) c) eqn:Hno; [by apply wp_ret|]. pose proof (tb_used _ (proj1 Hc)) as [Hu _].
  assert (∃ i, 0 ≤ (if decide (max_cache_entries c ≤ max_cache_count c) then smallest_free c else max_cache_count c) ≤ Z.of_nat i ∧
    Z.of_nat i < max_cache_entries c ∧ slots c !! i = Some None) as (i & Hi1 & Hi2 & Hi3).
  { case_decide; [apply (small_free c (len e)); done || lia|]. exists (Z.to_nat (max_cache_count c)).
    split_and!; [lia..|]. apply slot_unused; [done|lia..]. }
  apply wp_bind, (wp_free_slot _ i (max_cache_entries c)); [lia..|done|]. intros t Ht Hfree.
  apply wp_bind, wp_malloc; [done|]. apply wp_bind, wp_cupd. rewrite decide_True by done.
  apply wp_bind, (wp_fill_block _ (len e)); [apply lookup_insert_eq|rewrite length_take; lia|]. apply wp_cupd. simpl. rewrite insert_insert_eq.
  pose proof (joined_ok c q e t _ Hd Hc He Hno Hq Ht Hfree Hf) as Hj. split; [exact (cache_ok_requests _ _ Hj)|].
  exact (joined_spared cur c q t (len e) _ (Pos.succ (requests c)) Hc Hq).
Qed.
End Spec.

(** ** A file that was trimmed *)

Section Retake.
Context {R : Type} `{!Random R, !Host, !Runner}.
Context (es : gmap loc queue_entry) (disk : gmap string (list Z)) (q : loc) (e : queue_entry) (bs : list Z).
Implicit Types c : testcache R.

(** Entry [q] becomes [bs], on the disk and in the queue. *)
Definition trimmed_entries : gmap loc queue_entry := <[q := set_len (zlen bs) e]> es.
Definition trimmed_disk : gmap string (list Z) := <[fname e := bs]> disk.

Definition own_name : Prop := ∀ k e', es !! k = Some e' → fname e' = fname e → k = q.

Context (He : es !! q = Some e) (Hown : own_name) (Hbs : 0 < zlen bs ≤ MAX_FILE).

Lemma trimmed_file : file trimmed_entries trimmed_disk q bs.
Proof. exists (set_len (zlen bs) e), bs. split_and!; [apply lookup_insert_eq|apply lookup_insert_eq|done|simpl]. by rewrite take_ge by lia. Qed.

Lemma other_file k l : k ≠ q → file es disk k l → file trimmed_entries trimmed_disk k l.
Proof.
  intros Hk (e' & d & He' & Hd & Hl). exists e', d. unfold trimmed_entries, trimmed_disk.
  rewrite lookup_insert_ne by done. split; [done|]. split; [|done]. rewrite lookup_insert_ne; [done|].
  intros Hf. by eapply Hk, Hown.
Qed.

Lemma trimmed_on_disk : on_disk es disk → on_disk trimmed_entries trimmed_disk.
Proof.
  intros Hd k e'. unfold trimmed_entries, trimmed_disk. intros [[<- <-]|[Hne Hk]]%lookup_insert_Some.
  - simpl. split; [done|]. exists bs. by rewrite lookup_insert_eq.
  - destruct (Hd k e' Hk) as (Hlen & d & Hfile & Hl). split; [done|]. exists d. rewrite lookup_insert_ne; [done|].
    intros Hf. by eapply Hne, eq_sym, Hown.
Qed.

Lemma trimmed_total l : NoDup l → total trimmed_entries l = total es l + (if decide (q ∈ l) then zlen bs - len e else 0).
Proof.
  induction 1 as [|k l Hk Hl IH]; [done|]. change (total ?m (k :: l)) with (weight m k + total m l). rewrite IH.
  unfold weight, trimmed_entries. destruct (decide (k = q)) as [->|Hne].
  - rewrite lookup_insert_eq, He. simpl. rewrite decide_False by done. rewrite decide_True by (apply elem_of_cons; by left). lia.
  - rewrite lookup_insert_ne by done. destruct (decide (q ∈ l)).
    + rewrite decide_True by (by apply elem_of_cons; right). lia.
    + rewrite decide_False by (rewrite elem_of_cons; naive_solver). lia.
Qed.

(** The table does not have the entry. *)
Lemma trimmed_uncached c : cache_ok es disk c → testcase_buf c !! q = None → cache_ok trimmed_entries trimmed_disk c.
Proof.
  intros [[] [Hcached Hfile Hapart Hfresh]] Hq. split; split; try done.
  - rewrite trimmed_total by done. rewrite decide_False; [by rewrite Z.add_0_r|]. rewrite Hcached, Hq. apply is_Some_None.
  - intros k p Hk. destruct (Hfile k p Hk) as (l & Hl & Hf). exists l. split; [done|]. apply other_file; [congruence|done].
Qed.

(** The block of the entry becomes [bs], in its place or moved. *)
Definition moved c p p' next := set_cache_size (cache_size c + zlen bs - len e)
  (set_bufs (<[q := p']> (testcase_buf c)) (set_heap (<[p' := bs]> (delete p (heap c))) next c)).

Lemma moved_ok c p p' next : on_disk es disk → cache_ok es disk c → testcase_buf c !! q = Some p →
  p' = p ∧ next = next_addr c ∨ p' = next_addr c ∧ next = Pos.succ (next_addr c) →
  cache_ok trimmed_entries trimmed_disk (moved c p p' next).
Proof.
  intros Hd [[Hent Hlim Hroom Hnd Hcnt Hsz Hused Hsmall] [Hcached Hfile Hapart Hfresh]] Hq Hp'.
  assert (q ∈ held (slots c)) as Hin by (apply Hcached; by eexists).
  assert (∀ k, k ≠ q → testcase_buf c !! k ≠ Some p) as Hother by (intros k Hk Hp; by apply Hk, (Hapart k q p)).
  assert (∀ k, testcase_buf c !! k ≠ Some (next_addr c)) as Hnot.
  { intros k Hk. destruct (Hfile _ _ Hk) as (l & Hl & _). specialize (Hfresh _ (mk_is_Some _ _ Hl)). lia. }
  assert (∀ k, k ≠ q → testcase_buf c !! k ≠ Some p') as Hother' by (intros k Hk; destruct Hp' as [[-> _]|[-> _]]; auto).
  split; split; simpl; try done.
  - rewrite trimmed_total by done. rewrite decide_True by done. lia.
  - intros k. rewrite Hcached, lookup_insert_is_Some'. naive_solver.
  - intros k r [[<- <-]|[Hne Hk]]%lookup_insert_Some; [exists bs; rewrite lookup_insert_eq; split; [done|apply trimmed_file]|].
    destruct (Hfile k r Hk) as (l & Hl & Hf). exists l. split; [|by apply other_file].
    rewrite lookup_insert_ne by (intros <-; by apply (Hother' k)). rewrite lookup_delete_ne; [done|]. intros <-. by apply (Hother k).
  - intros k k' r [[<- <-]|[Hne Hk]]%lookup_insert_Some [[<- Hr]|[Hne' Hk']]%lookup_insert_Some; try done.
    + by apply Hother' in Hk'.
    + subst r. by apply Hother' in Hk.
    + by eapply Hapart.
  - intros r. rewrite lookup_insert_is_Some', lookup_delete_is_Some. intros [<-|[_ Hr]].
    + destruct Hp' as [[-> ->]|[-> ->]]; [|lia]. destruct (Hfile q p Hq) as (l & Hl & _). apply Hfresh. by eexists.
    + apply Hfresh in Hr. destruct Hp' as [[_ ->]|[_ ->]]; lia.
Qed.

Lemma wp_realloc p n l c (Q : option addr → testcache R → Prop) : never_refuses → heap c !! p = Some l →
  Q (Some (next_addr c)) (set_heap (<[next_addr c := resized n l]> (delete p (heap c))) (Pos.succ (next_addr c)) (set_requests (Pos.succ (requests c)) c)) →
  wp (realloc p n) c Q.
Proof.
  intros Hn Hp HQ. unfold realloc, request. apply wp_bind, wp_bind, wp_get, wp_bind, wp_put, wp_ret. rewrite Hn. simpl.
  apply wp_bind. unfold block. apply wp_bind, wp_get. simpl. rewrite Hp. apply wp_ret. apply wp_bind. unfold dispose. apply wp_bind.
  unfold block. apply wp_bind, wp_get. simpl. rewrite Hp. apply wp_ret, wp_cupd. by apply wp_bind, wp_bind, wp_get, wp_bind, wp_put, wp_ret, wp_ret.
Qed.

(** The blocks of the other entries stay. *)
Definition others_kept c c' : Prop := max_cache_size c' = max_cache_size c ∧ max_cache_entries c' = max_cache_entries c ∧ held (slots c') = held (slots c) ∧
  ∀ k p, k ≠ q → testcase_buf c !! k = Some p → testcase_buf c' !! k = Some p ∧ heap c' !! p = heap c !! p.

Lemma moved_kept c p p' next m : cache_ok es disk c → testcase_buf c !! q = Some p → p' = p ∨ p' = next_addr c →
  others_kept c (set_requests m (moved c p p' next)).
Proof.
  intros [_ [Hcached Hfile Hapart Hfresh]] Hq Hp'. split; [done|]. split; [done|]. split; [done|]. intros k r Hk Hr. simpl. rewrite lookup_insert_ne by done.
  split; [done|]. assert (r ≠ p) as Hrp by (intros ->; by apply Hk, (Hapart k q p)).
  rewrite lookup_insert_ne, lookup_delete_ne; [done..|]. intros <-. destruct Hp' as [->| ->]; [done|].
  destruct (Hfile _ _ Hr) as (l & Hl & _). specialize (Hfresh _ (mk_is_Some _ _ Hl)). lia.
Qed.

Lemma moved_done c p p' next m : on_disk es disk → cache_ok es disk c → testcase_buf c !! q = Some p →
  p' = p ∧ next = next_addr c ∨ p' = next_addr c ∧ next = Pos.succ (next_addr c) →
  cache_ok trimmed_entries trimmed_disk (set_requests m (moved c p p' next)) ∧ others_kept c (set_requests m (moved c p p' next)).
Proof. intros Hd Hc Hq Hp. split; [by apply cache_ok_requests, moved_ok|]. apply moved_kept; [done..|naive_solver]. Qed.

(** The bytes changed in place. *)
Lemma moved_in_place c p m : testcase_buf c !! q = Some p → zlen bs = len e →
  set_requests m (set_heap (<[p := bs]> (heap c)) (next_addr c) c) = set_requests m (moved c p p (next_addr c)).
Proof.
  intros Hq Hlen. unfold moved. rewrite insert_delete_eq, Hlen, Z.add_simpl_r, (insert_id (testcase_buf c)) by done. reflexivity.
Qed.

(** The sum of the sizes fits. *)
Lemma size_fits c : on_disk es disk → cache_ok es disk c → testcase_buf c !! q ≠ None →
  0 ≤ len e ≤ cache_size c ∧ cache_size c < 2 ^ 46.
Proof.
  intros Hd [[Hent Hlim Hroom Hnd [Hcnt Hcnt2] Hsz Hused Hsmall] Hb] Hq. pose proof (total_bounds es disk (held (slots c)) Hd) as Ht.
  unfold MAX_FILE in *. rewrite Hsz. split; [|lia]. destruct (Hd q e He) as [Hlen _]. split; [lia|].
  assert (q ∈ held (slots c)) as Hin by (by apply (bl_cached _ _ _ Hb), not_eq_None_Some).
  apply elem_of_Permutation in Hin as [l Hl]. rewrite Hl. change (total es (q :: l)) with (weight es q + total es l).
  unfold weight. rewrite He. pose proof (total_bounds es disk l Hd). lia.
Qed.

(** The reload of the file. *)
Lemma wp_reload c p l (Q : unit → testcache R → Prop) : never_refuses → heap c !! p = Some l → length bs = length l →
  (∀ m, Q tt (set_requests m (set_heap (<[p := bs]> (heap c)) (next_addr c) c))) →
  wp (d ← open_file trimmed_entries trimmed_disk q; ck_read d p (zlen bs)) c Q.
Proof.
  intros Hnr Hp Hlen HQ. apply wp_bind. unfold open_file. apply wp_bind, (wp_entry _ _ (set_len (zlen bs) e)); [apply lookup_insert_eq|].
  apply wp_bind, wp_must; [done|]. simpl. unfold trimmed_disk. rewrite lookup_insert_eq. apply wp_ret. unfold ck_read.
  apply wp_bind, wp_must; [done|]. rewrite decide_True by lia. rewrite take_ge by lia. eapply wp_overwrite_block; [done|lia|].
  rewrite drop_ge, app_nil_r by lia. apply (HQ _).
Qed.

Lemma retake_ok c : on_disk es disk → never_refuses → cache_ok es disk c →
  wp (queue_testcase_retake trimmed_entries trimmed_disk q (len e)) c (λ _ c', cache_ok trimmed_entries trimmed_disk c' ∧ others_kept c c').
Proof.
  intros Hd Hnr Hc. unfold queue_testcase_retake. apply wp_bind, wp_get. destruct (testcase_buf c !! q) as [p|] eqn:Hq.
  2: { apply wp_ret. split; [by apply trimmed_uncached|by split_and!]. }
  destruct (bl_file _ _ _ (proj2 Hc) q p Hq) as (l & Hl & e0 & d & He0 & _ & Hlong & ->). simplify_eq.
  pose proof (size_fits c Hd Hc ltac:(by rewrite Hq)) as [Hle Hsz]. unfold MAX_FILE in *.
  apply wp_bind, (wp_entry _ _ (set_len (zlen bs) e)); [apply lookup_insert_eq|].
  simpl. apply wp_bind. case_decide as Hsame.
  - apply wp_ret. apply (wp_reload _ _ _ _ Hnr Hl); [rewrite length_take; lia|]. intros m.
    rewrite moved_in_place by done. apply moved_done; [done..|by left].
  - apply wp_bind, wp_cupd. apply wp_bind, (wp_realloc p _ (take (Z.to_nat (len e)) d)); [done|exact Hl|]. apply wp_bind, wp_cupd, wp_ret.
    eapply (wp_reload _ (next_addr c)); [done|apply lookup_insert_eq| |].
    + pose proof (length_resized (zlen bs) (take (Z.to_nat (len e)) d)). lia.
    + intros m. simpl. rewrite insert_insert_eq. pose proof (moved_done c p (next_addr c) _ m Hd Hc Hq ltac:(by right)) as Hm.
      unfold moved in Hm. rewrite <- (wrap_small 64 (_ - _)) in Hm by lia. exact Hm.
Qed.

(** The block of the entry starts with [bs] already, and nothing else has changed. *)
Lemma retake_mem_ok c p l : on_disk es disk → never_refuses → cache_ok es disk c → testcase_buf c !! q = Some p →
  zlen l = len e → take (length bs) l = bs → zlen bs ≤ len e →
  wp (queue_testcase_retake_mem q p (zlen bs) (len e)) (set_heap (<[p := l]> (heap c)) (next_addr c) c)
    (λ _ c', cache_ok trimmed_entries trimmed_disk c' ∧ others_kept c c').
Proof.
  intros Hd Hnr Hc Hq Hl Htake Hshort. pose proof (size_fits c Hd Hc ltac:(by rewrite Hq)) as [Hle Hsz]. unfold MAX_FILE in *.
  unfold queue_testcase_retake_mem. apply wp_bind, wp_get. simpl. rewrite Hq. apply wp_bind. case_decide as Hsame.
  - apply wp_ret. rewrite decide_True by done. apply wp_ret. rewrite take_ge in Htake by lia. subst l.
    pose proof (moved_in_place c p (requests c) Hq Hsame) as E. destruct (moved_done c p p (next_addr c) (requests c) Hd Hc Hq ltac:(by left)) as [H1 H2].
    rewrite <- E in H1, H2. by destruct c.
  - apply wp_bind, (wp_realloc p _ l); [done|apply lookup_insert_eq|]. apply wp_bind, wp_cupd. apply wp_bind, wp_cupd, wp_ret.
    rewrite decide_True by done. apply wp_ret. simpl. rewrite delete_insert_eq.
    pose proof (moved_done c p (next_addr c) _ (Pos.succ (requests c)) Hd Hc Hq ltac:(by right)) as Hm.
    unfold moved in Hm. rewrite <- (wrap_small 64 (_ - _)) in Hm by lia.
    assert (resized (zlen bs) l = bs) as ->; [|exact Hm].
    unfold resized. rewrite Nat2Z.id, Htake. replace (length bs - length l)%nat with 0%nat by lia. apply app_nil_r.
Qed.
End Retake.
