(* ===== verification/AflCacheLife.v ===== *)
(** * AflCacheLife: the cache is transparent

    A session of afl-fuzz as the cache sees it: entries are selected, read, added and
    trimmed.  Whatever the order, and whatever was evicted in between, a caller reads what
    the file of the entry holds at that moment. *)

From S2P Require Import Prelude Utils AflBitmap AflDet AflDict AflHavoc AflHavocSpec AflStageSpec AflQueue AflCache AflCacheSpec.

(** ** Sessions *)

Record session (R : Type) := Session {
  queue_entries : gmap loc queue_entry;
  queue_files : gmap string (list Z);
  queue_cur : option loc;
  cache : testcache R }.
Arguments Session {R}.
Arguments queue_entries {R} s.
Arguments queue_files {R} s.
Arguments queue_cur {R} s.
Arguments cache {R} s.

(** [fuzz_one] selects an entry; [queue_testcase_get] reads one; [save_if_interesting]
    adds one, and the custom trimmer gives one new contents. *)
Inductive event :=
| Select (q : loc)
| Get (q : loc)
| Add (q : loc) (e : queue_entry) (mem : list Z)
| Trimmed (q : loc) (mem : list Z).

Section Life.
Context {R : Type} `{!Random R, !Host, !Runner} (fuel draws : nat).

Definition in_cache {A} (m : M (testcache R) A) : M (session R) A := λ s,
  match m (cache s) with
  | Ret (a, c) => Ret (a, Session (queue_entries s) (queue_files s) (queue_cur s) c)
  | Fault f => Fault f
  | NoFuel => NoFuel
  end.

(** The bytes that the caller reads, if it reads any. *)
Definition cache_step (ev : event) : M (session R) (list (list Z)) :=
  s ← get_state;
  match ev with
  | Select q => _ ← put_state (Session (queue_entries s) (queue_files s) (Some q) (cache s)); mret []
  | Get q =>
      p ← in_cache (queue_testcase_get (queue_entries s) (queue_files s) (queue_cur s) fuel draws q);
      bs ← in_cache (block p);
      mret [bs]
  | Add q e mem =>
      let es := <[q := e]> (queue_entries s) in
      _ ← put_state (Session es (<[fname e := mem]> (queue_files s)) (queue_cur s) (cache s));
      _ ← in_cache (queue_testcase_store_mem es q mem);
      mret []
  | Trimmed q mem =>
      e ← in_cache (entry (queue_entries s) q);
      let es := <[q := set_len (zlen mem) e]> (queue_entries s) in
      let files := <[fname e := mem]> (queue_files s) in
      _ ← put_state (Session es files (queue_cur s) (cache s));
      _ ← in_cache (queue_testcase_retake es files q (len e));
      mret []
  end.

Fixpoint cache_run (evs : list event) : M (session R) (list (list Z)) :=
  match evs with
  | [] => mret []
  | ev :: evs => out ← cache_step ev; rest ← cache_run evs; mret (out ++ rest)
  end.
End Life.

(** ** The files alone *)

(** The queue without a cache: entries and files. *)
Definition queue_state : Type := gmap loc queue_entry * gmap string (list Z).

(** An event that afl-fuzz can produce, what is read, and the files after it. *)
Definition file_step (ev : event) (w : queue_state) : option (list (list Z) * queue_state) :=
  match ev with
  | Select _ => Some ([], w)
  | Get q => e ← w.1 !! q; d ← w.2 !! fname e; Some ([take (Z.to_nat (len e)) d], w)
  | Add q e mem =>
      guard (w.1 !! q = None ∧ w.2 !! fname e = None ∧ len e = zlen mem ∧ 0 < len e ≤ MAX_FILE);;
      Some ([], (<[q := e]> w.1, <[fname e := mem]> w.2))
  | Trimmed q mem =>
      e ← w.1 !! q;
      guard (0 < zlen mem ≤ MAX_FILE);;
      Some ([], (<[q := set_len (zlen mem) e]> w.1, <[fname e := mem]> w.2))
  end.

Fixpoint file_run (evs : list event) (w : queue_state) : option (list (list Z) * queue_state) :=
  match evs with
  | [] => Some ([], w)
  | ev :: evs => '(out, w) ← file_step ev w; '(rest, w) ← file_run evs w; Some (out ++ rest, w)
  end.

(** ** Refinement *)

Section Refinement.
Context {R : Type} `{!Random R, !Host, !Runner} (fuel draws : nat).
Implicit Types s : session R.

(** Every entry has a file of its own. *)
Definition queue_ok (w : queue_state) : Prop :=
  on_disk w.1 w.2 ∧ ∀ q q' e e', w.1 !! q = Some e → w.1 !! q' = Some e' → fname e = fname e' → q = q'.

Record refines s (w : queue_state) : Prop := {
  rf_files : queue_entries s = w.1 ∧ queue_files s = w.2;
  rf_queue : queue_ok w;
  rf_cache : cache_ok w.1 w.2 (cache s);
  rf_fuel : max_cache_entries (cache s) ≤ Z.of_nat fuel;
  rf_fair : ∀ m, 0 < m ≤ max_cache_entries (cache s) → fair (R := R) draws m }.

Lemma wp_in_cache {A} (m : M (testcache R) A) s (Q : A → session R → Prop) :
  wp m (cache s) (λ a c, Q a (Session (queue_entries s) (queue_files s) (queue_cur s) c)) → wp (in_cache m) s Q.
Proof. unfold wp, in_cache. by destruct (m (cache s)) as [[a c]| |]. Qed.

(** A new entry leaves what the cache knows. *)
Lemma cache_ok_add w q e mem (c : testcache R) : w.1 !! q = None → w.2 !! fname e = None → cache_ok w.1 w.2 c →
  cache_ok (<[q := e]> w.1) (<[fname e := mem]> w.2) c ∧ testcase_buf c !! q = None.
Proof.
  intros Hq Hf [[H1 H2 H3 H4 H5 Hsize H7 H8] [Hcached Hfile Hapart Hfresh]].
  assert (testcase_buf c !! q = None) as Hbuf.
  { destruct (testcase_buf c !! q) as [p|] eqn:E; [|done]. destruct (Hfile q p E) as (? & _ & e' & d & He & _). congruence. }
  split; [|done]. split; split; try done.
  - rewrite Hsize. assert (q ∉ held (slots c)) as Hout by (rewrite Hcached, Hbuf; apply is_Some_None).
    clear -Hout. induction (held (slots c)) as [|k l IH]; [done|]. change (total ?m (k :: l)) with (weight m k + total m l).
    rewrite elem_of_cons in Hout. rewrite IH by tauto. unfold weight. by rewrite lookup_insert_ne by naive_solver.
  - intros k p Hk. destruct (Hfile k p Hk) as (bs & Hb & e' & d & He & Hd & Hrest). exists bs. split; [done|].
    exists e', d. rewrite !lookup_insert_ne by congruence. done.
Qed.

Lemma queue_ok_add w q e mem : queue_ok w → w.1 !! q = None → w.2 !! fname e = None → len e = zlen mem → 0 < len e ≤ MAX_FILE →
  queue_ok (<[q := e]> w.1, <[fname e := mem]> w.2).
Proof.
  intros [Hd Hnames] Hq Hf Hlen Hsize. split; simpl.
  - intros k e' [[<- <-]|[Hne Hk]]%lookup_insert_Some; [split; [done|]; exists mem; rewrite lookup_insert_eq; split; [done|lia]|].
    destruct (Hd k e' Hk) as (Hl & d & Hfile & Hlong). split; [done|]. exists d. by rewrite lookup_insert_ne by congruence.
  - assert (∀ k e', w.1 !! k = Some e' → fname e' ≠ fname e) as Hnew by (intros k e' Hk Hn; destruct (Hd k e' Hk) as (_ & d & Hd' & _); congruence).
    intros k k' e1 e2 [[<- <-]|[_ Hk]]%lookup_insert_Some [[<- <-]|[_ Hk']]%lookup_insert_Some Hn; [done| | |by eapply Hnames];
      by eapply Hnew in Hn || by symmetry in Hn; eapply Hnew in Hn.
Qed.

Lemma queue_ok_trimmed w q e mem : queue_ok w → w.1 !! q = Some e → 0 < zlen mem ≤ MAX_FILE →
  own_name w.1 q e ∧ queue_ok (trimmed_entries w.1 q e mem, trimmed_disk w.2 e mem).
Proof.
  intros [Hd Hnames] Hq Hlen. assert (own_name w.1 q e) as Hown by (intros k e' Hk Hf; by eapply Hnames).
  split; [done|]. split; [by apply trimmed_on_disk|]. simpl. unfold trimmed_entries.
  intros k k' e1 e2 [[<- <-]|[_ Hk]]%lookup_insert_Some [[<- <-]|[_ Hk']]%lookup_insert_Some Hf; simpl in Hf; by eauto.
Qed.

Lemma cache_step_ok ev s w out w' : never_refuses → refines s w → file_step ev w = Some (out, w') →
  wp (cache_step fuel draws ev) s (λ r s', r = out ∧ refines s' w').
Proof.
  intros Hnr [[Hes Hfiles] Hq Hc Hfuel Hfair] Hstep. apply wp_bind, wp_get. rewrite Hes, Hfiles. destruct ev as [q|q|q e mem|q mem]; simpl in Hstep.
  - simplify_eq. by apply wp_bind, wp_put, wp_ret.
  - destruct (w.1 !! q) as [e|] eqn:He; [|done]. simpl in Hstep. destruct (w.2 !! fname e) as [d|] eqn:Hd; [|done]. simplify_eq/=.
    apply wp_bind, wp_in_cache. eapply wp_mono; [apply (get_ok w'.1 w'.2 (queue_cur s) fuel draws q e); try done; [apply Hq|]|].
    { destruct (tb_count _ _ (proj1 Hc)). lia. }
    intros p c' (Hc' & Hp & _ & Hent & _). apply wp_bind, wp_in_cache. unfold block. apply wp_bind, wp_get. simpl.
    destruct (bl_file _ _ _ (proj2 Hc') q p Hp) as (bs & -> & e' & d' & He' & Hd' & _ & ->). apply wp_ret, wp_ret.
    split; [congruence|]. split; [done..|simpl; lia|intros m Hm; apply Hfair; simpl in *; lia].
  - case_guard as Hg; [|done]. destruct Hg as (Hnone & Hnofile & Hlen & Hsize). simplify_eq/=.
    destruct (cache_ok_add w q e mem (cache s)) as [Hc' Hbuf]; [done..|].
    assert (queue_ok (<[q:=e]> w.1, <[fname e:=mem]> w.2)) as Hq' by (by apply queue_ok_add).
    apply wp_bind, wp_put, wp_bind, wp_in_cache. eapply wp_mono; [apply (store_mem_ok _ (<[fname e:=mem]> w.2) (queue_cur s) q e mem); try done|].
    + apply Hq'.
    + apply lookup_insert_eq.
    + lia.
    + exists e, mem. rewrite !lookup_insert_eq. split_and!; done || lia.
    + intros _ c' (Hc2 & _ & Hent & _). apply wp_ret. split; [done|]. split; [done..|simpl in *; lia|intros m Hm; apply Hfair; simpl in *; lia].
  - destruct (w.1 !! q) as [e|] eqn:He; [|done]. simpl in Hstep. case_guard as Hg; [|done]. simplify_eq/=.
    destruct (queue_ok_trimmed w q e mem) as [Hown Hq']; [done..|].
    apply wp_bind, wp_in_cache, (wp_entry _ _ e); [done|]. apply wp_bind, wp_put, wp_bind, wp_in_cache. simpl.
    eapply wp_mono; [apply (retake_ok w.1 w.2 q e mem); [done..|apply Hq|done|done]|].
    intros _ c' (Hc2 & _ & Hent & _). apply wp_ret. split; [done|]. split; [done..|simpl in *; lia|intros m Hm; apply Hfair; simpl in *; lia].
Qed.

Lemma cache_run_ok : never_refuses → ∀ evs s w out w', refines s w →
  file_run evs w = Some (out, w') → wp (cache_run fuel draws evs) s (λ r s', r = out ∧ refines s' w').
Proof.
  intros Hnr. induction evs as [|ev evs IH]; intros s w out w' Hs Hrun; simpl in Hrun; [by simplify_eq|].
  destruct (file_step ev w) as [[o w1]|] eqn:Ho; [|done]. simpl in Hrun. destruct (file_run evs w1) as [[rest w2]|] eqn:Hr; [|done]. simplify_eq/=.
  apply wp_bind. eapply wp_mono; [by eapply cache_step_ok|]. intros r1 s1 [-> Hs1]. apply wp_bind. eapply wp_mono; [by eapply IH|].
  intros r2 s2 [-> Hs2]. by apply wp_ret.
Qed.
End Refinement.

(** ** The table of a new session *)

(** [afl_state_init] and [main]: [max_entries] slots, all free. *)
Definition new_cache {R : Type} (g : R) (max_size max_entries : Z) : testcache R :=
  TestCache g ∅ 1%positive ∅ None None max_size max_entries 0 0 0 0 0 (replicate (Z.to_nat max_entries) None) false 1%positive.

Lemma new_slots n i (q : loc) : replicate n (None : option loc) !! i ≠ Some (Some q).
Proof. intros [Hx _]%lookup_replicate. done. Qed.

Lemma new_cache_ok {R : Type} (g : R) es disk max_size max_entries : 2 * MAX_FILE < max_size < 2 ^ 63 → 3 ≤ max_entries < 2 ^ 26 →
  cache_ok es disk (new_cache g max_size max_entries).
Proof.
  intros Hsize Hent. unfold new_cache. assert (held (replicate (Z.to_nat max_entries) None) = []) as Hnil by (apply held_empty, new_slots).
  split; split; simpl; rewrite ?Hnil; try done.
  - rewrite length_replicate. lia.
  - constructor.
  - simpl. lia.
  - split; [lia|]. intros i q Hi. by apply new_slots in Hi.
  - split; [done|]. intros i Hi. lia.
  - intros q. rewrite lookup_empty, is_Some_alt. split; [intros Hq; by apply not_elem_of_nil in Hq|done].
  - intros p. rewrite lookup_empty. by intros [? ?].
Qed.

(** C7. [queue_testcase_get] hands out a block with exactly the bytes of the entry's file, and stays within the table.
    In every state that satisfies the invariant, with files of at most 1 MiB, a limit of
    more than 2 MiB and at least three slots, the loops that search a victim and a free slot end,
    the counters remain those of the table, and the block of the entry that is being fuzzed, to
    which the caller holds a pointer, is neither freed nor changed. *)
Theorem queue_testcase_get_correct {R : Type} `{!Random R, !Host, !Runner} es disk cur fuel draws q e (c : testcache R) :
  on_disk es disk → never_refuses → (∀ m, 0 < m ≤ max_cache_entries c → fair (R := R) draws m) → cache_ok es disk c → es !! q = Some e →
  max_cache_entries c ≤ Z.of_nat fuel →
  ∃ p c' bs, queue_testcase_get es disk cur fuel draws q c = Ret (p, c') ∧ heap c' !! p = Some bs ∧ file es disk q bs ∧ cache_ok es disk c' ∧
    ∀ k r, cur = Some k → testcase_buf c !! k = Some r → testcase_buf c' !! k = Some r ∧ heap c' !! r = heap c !! r.
Proof.
  intros Hd Hnr Hfair Hc He Hfuel. destruct (tb_count _ _ (proj1 Hc)) as [Hcnt Hcnt2].
  destruct (proj1 (wp_Ret _ _ _) (get_ok es disk cur fuel draws q e c Hd Hnr Hfair Hc He ltac:(lia))) as (p & c' & Hget & Hc' & Hp & _ & _ & Hspared).
  destruct (bl_file _ _ _ (proj2 Hc') q p Hp) as (bs & Hbs & Hf). by exists p, c', bs.
Qed.

(** C6. The cache is transparent. In a session that selects, reads, adds and trims entries
    in any order, from an empty table on, every read returns the bytes that the file of the entry
    holds at that moment, as if there were no cache; the session ends without a fault, and the
    invariant of the table holds at its end. *)
Theorem cache_refines_files {R : Type} `{!Random R, !Host, !Runner} fuel draws evs w cur (g : R) max_size max_entries out w' :
  never_refuses → (∀ m, 0 < m ≤ max_entries → fair (R := R) draws m) → 2 * MAX_FILE < max_size < 2 ^ 63 → 3 ≤ max_entries < 2 ^ 26 →
  max_entries ≤ Z.of_nat fuel → queue_ok w → file_run evs w = Some (out, w') →
  ∃ s', cache_run fuel draws evs (Session w.1 w.2 cur (new_cache g max_size max_entries)) = Ret (out, s') ∧
    queue_entries s' = w'.1 ∧ queue_files s' = w'.2 ∧ cache_ok w'.1 w'.2 (cache s').
Proof.
  intros Hnr Hfair Hsize Hent Hfuel Hq Hrun.
  assert (refines fuel draws (Session w.1 w.2 cur (new_cache g max_size max_entries)) w) as Hs by (split; [done..|by apply new_cache_ok|done|done]).
  destruct (proj1 (wp_Ret _ _ _) (cache_run_ok fuel draws Hnr evs _ w out w' Hs Hrun)) as (r & s' & Hret & -> & [[Hes Hfs] _ Hc _]).
  by exists s'.
Qed.

(** ** The smallest cache *)

Section Stuck.
Context {R : Type} `{!Random R, !Host, !Runner}.
Implicit Types c : testcache R.

(** No slot can be evicted. *)
Definition only_current (cur : option loc) c : Prop :=
  0 < max_cache_count c < 2 ^ 32 ∧ max_cache_count c ≤ zlen (slots c) ∧ ∀ i s, slots c !! i = Some s → s = None ∨ s = cur.

Lemma pick_slot_stuck cur draws : ∀ c, only_current cur c → pick_slot cur draws c = NoFuel.
Proof.
  induction draws as [|draws IH]; intros c (Hm & Hroom & Hall); [done|].
  pose proof (below_lt (max_cache_count c) (gen c) ltac:(lia)) as Hb.
  destruct (lookup_lt_is_Some_2 (slots c) (Z.to_nat (below (max_cache_count c) (gen c)).1)) as [s Hs]; [lia|].
  cbn [pick_slot]. unfold AflCache.rand_below, slot. mrun. rewrite wrap_small by lia.
  destruct (below (max_cache_count c) (gen c)) as [r g] eqn:E. simpl in *. rewrite Hs. rewrite decide_True by (by eapply Hall).
  by apply IH.
Qed.

Lemma make_room_stuck es cur fuel draws n tid c : never_refuses → only_current cur c → no_room n c = true →
  max_cache_count c < 2 ^ 26 → cache_count c = max_cache_count c → make_room es cur fuel draws n tid c = NoFuel.
Proof.
  intros Hn (Hm & Hroom & Hall) Hfull Hsmall Hcnt. destruct fuel as [|fuel]; [done|]. cbn [make_room]. mrun. rewrite Hfull.
  assert (∃ c1, learn_limit n c = Ret (tt, c1) ∧ only_current cur c1) as (c1 & -> & Hc1); [|by rewrite pick_slot_stuck].
  unfold learn_limit. mrun. match goal with |- context [decide (?A ∧ ?B)] => destruct (decide (A ∧ B)) end; [|by exists c]. rewrite (decide_False (P := cache_count c < max_cache_count c)) by lia. rewrite (wrap_small 32 (cache_count c + 1)) by lia. rewrite (wrap_small 32) by lia.
  rewrite decide_False by (unfold MAX_ALLOC; lia). unfold must, request. mrun. rewrite Hn. simpl. eexists. split; [done|]. simpl.
  rewrite Z.div_mul by done. split; [done|]. simpl. rewrite length_take. split; [lia|]. intros i s [Hi _]%lookup_take_Some. by eapply Hall.
Qed.
End Stuck.

(** The first read puts an entry of 1 MiB into the first slot. *)
Lemma first_read {R : Type} `{!Random R, !Host, !Runner} es disk k e d (g : R) max_entries fuel draws :
  never_refuses → es !! k = Some e → disk !! fname e = Some d → len e = MAX_FILE → MAX_FILE ≤ zlen d → 3 ≤ max_entries < 2 ^ 26 →
  wp (queue_testcase_get es disk (Some k) (S fuel) draws k) (new_cache g (2 * MAX_FILE) max_entries) (λ p c,
    is_Some (heap c !! p) ∧ only_current (Some k) c ∧ max_cache_count c = 1 ∧ cache_count c = 1 ∧ cache_size c = MAX_FILE ∧
    max_cache_size c = 2 * MAX_FILE ∧ ∀ q, q ≠ k → testcase_buf c !! q = None).
Proof.
  intros Hn He Hd Hlen Hlong Hent. assert (0 < MAX_FILE) as Hpos by done. assert (no_room MAX_FILE (new_cache g (2 * MAX_FILE) max_entries) = false) as Hno.
  { unfold no_room. simpl. rewrite (wrap_small 32) by lia. by rewrite bool_decide_eq_false_2 by lia. }
  unfold queue_testcase_get. apply wp_bind, (wp_entry _ _ e); [done|]. apply wp_bind, wp_get. rewrite decide_False by done.
  cbn [testcase_buf new_cache]. rewrite lookup_empty, Hlen. apply wp_bind. cbn [make_room]. apply wp_bind, wp_get. rewrite Hno.
  apply wp_ret, wp_bind, wp_get. cbn [max_cache_entries max_cache_count new_cache]. rewrite decide_False by lia.
  assert (replicate (Z.to_nat max_entries) (None : option loc) !! 0%nat = Some None) as H0' by (apply lookup_replicate; split; [done|lia]).
  apply wp_bind, (wp_free_slot 0 0 1); [lia..|done|]. intros t Ht _. assert (t = 0) as -> by lia.
  apply wp_bind. unfold open_file. apply wp_bind, (wp_entry _ _ e); [done|]. apply wp_bind, wp_must; [done|]. rewrite Hd. apply wp_ret.
  apply wp_bind, wp_malloc; [done|]. apply wp_bind, wp_cupd. apply wp_bind. unfold ck_read. apply wp_bind, wp_must; [done|].
  rewrite decide_True by lia. apply (wp_fill_block _ MAX_FILE); [apply lookup_insert_eq|rewrite length_take; lia|]. apply wp_bind, wp_cupd, wp_ret. simpl.
  split; [by rewrite lookup_insert_eq|]. split; [|split_and!; try done; intros q Hq; by rewrite lookup_insert_ne].
  split; [done|]. simpl. rewrite length_insert, length_replicate. change (u32 (0 + 1)) with 1. split; [lia|]. intros i s Hs.
  apply list_lookup_insert_Some in Hs as [(_ & <- & _)|[_ Hs]]; [by right|]. left. by apply lookup_replicate in Hs as [-> _].
Qed.

(** C21. With the smallest cache that [main] accepts, AFL_TESTCACHE_SIZE=2, two entries of 1 MiB, the largest size of a
    test case, keep [queue_testcase_get] busy for ever: when the second one is read while the first one is being fuzzed, the
    only entry that could make room is in use, and the search for a victim has no bound that is
    enough. *)
Theorem smallest_cache_hangs {R : Type} `{!Random R, !Host, !Runner} es disk k q e e' d (g : R) max_entries fuel draws :
  never_refuses → es !! k = Some e → disk !! fname e = Some d → len e = MAX_FILE → MAX_FILE ≤ zlen d → es !! q = Some e' → len e' = MAX_FILE →
  q ≠ k → 3 ≤ max_entries < 2 ^ 26 →
  cache_run fuel draws [Select k; Get k; Get q] (Session es disk None (new_cache g (2 * MAX_FILE) max_entries)) = NoFuel.
Proof.
  intros Hn He Hd Hlen Hlong Hq Hlen' Hqk Hent.
  cbn [cache_run]. unfold cache_step, in_cache, block. mrun. cbn [queue_entries queue_files queue_cur cache].
  destruct fuel as [|fuel]; [by unfold queue_testcase_get, entry; mrun; rewrite He; simpl; rewrite lookup_empty|].
  pose proof (first_read es disk k e d g max_entries fuel draws Hn He Hd Hlen Hlong Hent) as Hfirst. unfold wp in Hfirst.
  destruct (queue_testcase_get es disk (Some k) (S fuel) draws k _) as [[p c]| |]; [|done..].
  destruct Hfirst as ([l Hl] & Hcur & Hmax & Hcnt & Hsize & Hlim & Hnone). cbn [cache]. rewrite Hl. cbn [cache].
  assert (no_room (len e') c = true) as Hfull by (unfold no_room; by rewrite Hlim, Hsize, Hlen').
  generalize (S fuel). intros n. unfold queue_testcase_get, entry. mrun. rewrite Hq, Hlim, decide_False, Hnone by done.
  by rewrite make_room_stuck by (done || lia).
Qed.

(** ** Witnesses *)

#[local] Existing Instances counter quiet_runner.

Definition sample_entry (name : string) (n : Z) : queue_entry := QueueEntry name n false false false false 0 0 0 0 None 0.

Definition sample_world : queue_state :=
  ({[1%positive := sample_entry "id:0" 3; 2%positive := sample_entry "id:1" 2; 3%positive := sample_entry "id:2" 1]},
   {["id:0" := [7; 8; 9]; "id:1" := [1; 2]; "id:2" := [5]]}).

(** A table of three slots keeps two entries. *)
Definition sample_events : list event :=
  [Select 1%positive; Get 1%positive; Get 2%positive; Get 3%positive; Add 4%positive (sample_entry "id:3" 2) [6; 6]; Get 4%positive;
   Trimmed 1%positive [7]; Get 1%positive; Get 2%positive].

Lemma sample_world_ok : queue_ok sample_world.
Proof.
  assert (∀ q e, sample_world.1 !! q = Some e →
    (q, e) ∈ [(1%positive, sample_entry "id:0" 3); (2%positive, sample_entry "id:1" 2); (3%positive, sample_entry "id:2" 1)]) as Hall.
  { intros q e He. unfold sample_world in He. simpl in He. rewrite !lookup_insert_Some, lookup_singleton_Some in He. rewrite !elem_of_cons. naive_solver. }
  split.
  - intros q e He%Hall. rewrite !elem_of_cons in He. destruct_or! He; simplify_eq; try (by apply not_elem_of_nil in He);
      (split; [by vm_compute|]); eexists; (split; [vm_compute; reflexivity|by vm_compute]).
  - intros q q' e e' He%Hall He'%Hall Hn. rewrite !elem_of_cons in He, He'.
    destruct_or! He; destruct_or! He'; simplify_eq; try done; by apply not_elem_of_nil in He || by apply not_elem_of_nil in He'.
Qed.

Lemma counter_fair_3 : ∀ m, 0 < m ≤ 3 → fair (R := Z) 3 m.
Proof. by apply (counter_fair 3 3). Qed.

(** Three evictions on the way, and the trimmed file is read. *)
Example cache_run_example :
  ∃ s', cache_run (H := obliging) 3 3 sample_events (Session sample_world.1 sample_world.2 None (new_cache 0 (3 * MAX_FILE) 3))
    = Ret ([[7; 8; 9]; [1; 2]; [5]; [6; 6]; [7]; [1; 2]], s') ∧
    evictions (cache s') = 3 ∧ cache_count (cache s') = 2 ∧ cache_size (cache s') = 3 ∧ smallest_free (cache s') = 0.
Proof. eexists. split; [vm_compute; reflexivity|]. by vm_compute. Qed.

Lemma cache_refines_files_witness :
  queue_ok sample_world ∧ ∃ w', file_run sample_events sample_world = Some ([[7; 8; 9]; [1; 2]; [5]; [6; 6]; [7]; [1; 2]], w') ∧
  ∃ s', cache_run (H := obliging) 3 3 sample_events (Session sample_world.1 sample_world.2 None (new_cache 0 (3 * MAX_FILE) 3))
      = Ret ([[7; 8; 9]; [1; 2]; [5]; [6; 6]; [7]; [1; 2]], s') ∧
    queue_entries s' = w'.1 ∧ queue_files s' = w'.2 ∧ cache_ok w'.1 w'.2 (cache s').
Proof.
  split; [exact sample_world_ok|]. eexists. split; [vm_compute; reflexivity|].
  apply (cache_refines_files (H := obliging) 3 3 sample_events sample_world None 0 (3 * MAX_FILE) 3).
  - done.
  - exact counter_fair_3.
  - by vm_compute.
  - by vm_compute.
  - by vm_compute.
  - exact sample_world_ok.
  - vm_compute. reflexivity.
Defined.

(** The full table after two reads, of the entry in use and of another one. *)
Definition sample_cache : testcache Z :=
  match cache_run (H := obliging) 3 3 [Select 1%positive; Get 1%positive; Get 2%positive]
          (Session sample_world.1 sample_world.2 None (new_cache 0 (3 * MAX_FILE) 3)) with
  | Ret (_, s) => cache s
  | _ => new_cache 0 0 0
  end.

Lemma sample_cache_ok : cache_ok sample_world.1 sample_world.2 sample_cache.
Proof.
  assert (refines 3 3 (Session sample_world.1 sample_world.2 None (new_cache 0 (3 * MAX_FILE) 3)) sample_world) as Hs.
  { split; [done|exact sample_world_ok|apply new_cache_ok; by vm_compute|by vm_compute|exact counter_fair_3]. }
  pose proof (cache_run_ok (H := obliging) 3 3 ltac:(done) [Select 1%positive; Get 1%positive; Get 2%positive] _ sample_world
    [[7; 8; 9]; [1; 2]] sample_world Hs eq_refl) as Hrun.
  unfold wp in Hrun. unfold sample_cache. destruct (cache_run _ _ _ _) as [[r s]| |]; [|done..]. destruct Hrun as [_ [_ _ Hc _ _]]. exact Hc.
Qed.

(** The third read evicts the second entry, at address 2, and leaves the first one at address 1. *)
Lemma queue_testcase_get_correct_witness :
  cache_ok sample_world.1 sample_world.2 sample_cache ∧ heap sample_cache !! 1%positive = Some [7; 8; 9] ∧
  ∃ p c' bs, queue_testcase_get (H := obliging) sample_world.1 sample_world.2 (Some 1%positive) 3 3 3%positive sample_cache = Ret (p, c') ∧
    heap c' !! p = Some bs ∧ file sample_world.1 sample_world.2 3%positive bs ∧ cache_ok sample_world.1 sample_world.2 c' ∧
    ∀ k r, Some 1%positive = Some k → testcase_buf sample_cache !! k = Some r → testcase_buf c' !! k = Some r ∧ heap c' !! r = heap sample_cache !! r.
Proof.
  split; [exact sample_cache_ok|]. split; [by vm_compute|].
  apply (queue_testcase_get_correct (H := obliging) sample_world.1 sample_world.2 (Some 1%positive) 3 3 3%positive (sample_entry "id:2" 1) sample_cache).
  - apply sample_world_ok.
  - done.
  - exact counter_fair_3.
  - exact sample_cache_ok.
  - reflexivity.
  - by vm_compute.
Defined.

Definition largest_world : queue_state :=
  ({[1%positive := sample_entry "id:0" MAX_FILE; 2%positive := sample_entry "id:1" MAX_FILE]},
   {["id:0" := replicate (Z.to_nat MAX_FILE) 65; "id:1" := replicate (Z.to_nat MAX_FILE) 66]}).

Lemma smallest_cache_hangs_witness : 2 * MAX_FILE = 2 * 1048576 ∧
  cache_run (H := obliging) 100 100 [Select 1%positive; Get 1%positive; Get 2%positive]
    (Session largest_world.1 largest_world.2 None (new_cache 0 (2 * MAX_FILE) 65536)) = NoFuel.
Proof.
  split; [reflexivity|].
  apply (smallest_cache_hangs (H := obliging) largest_world.1 largest_world.2 1%positive 2%positive (sample_entry "id:0" MAX_FILE)
    (sample_entry "id:1" MAX_FILE) (replicate (Z.to_nat MAX_FILE) 65)).
  - done.
  - reflexivity.
  - reflexivity.
  - reflexivity.
  - rewrite length_replicate. unfold MAX_FILE. lia.
  - reflexivity.
  - reflexivity.
  - done.
  - lia.
Defined.
