(* ===== verification/AflTrimCase.v ===== *)
(** * AflTrimCase: [trim_case] of AFLplusplus/src/afl-fuzz-run.c

    Trimming of an entry without a custom mutator: blocks are cut out as long as the
    checksum of the trace stays the same, with block sizes from 1/16 of the input down to
    1/1024 of it or four bytes.  The input is the block that the cache of test cases handed
    out, which is changed in place; file and cache follow at the end. *)

From S2P Require Import Prelude Utils AflBitmap AflDet AflDict AflQueue AflScore AflTrim AflCache.

Definition TRIM_MIN_BYTES : Z := 4.
Definition TRIM_START_STEPS : Z := 16.
Definition TRIM_END_STEPS : Z := 1024.

(** [accepted n k]: how many of [k] bytes the [n]-th call of [write] takes, of those in the
    loop that calls it again. *)
Class Writer := { accepted : nat → Z → Z }.

(** [clean_trace] is the buffer of that name; [no_unlink] the option. *)
Record trim_state (S R : Type) := TrimState {
  tr : trimmer S;
  tc : testcache R;
  clean_trace : list Z;
  no_unlink : bool }.
Arguments TrimState {S R}.
Arguments tr {S R} t.
Arguments tc {S R} t.
Arguments clean_trace {S R} t.
Arguments no_unlink {S R} t.

Section TrimCase.
Context {S R : Type} `{!Host, target : !Target, !CustomTrim S, !Random R, !Runner, !Writer}.

Definition in_tr {A} (m : M (trimmer S) A) : M (trim_state S R) A := λ s,
  match m (tr s) with
  | Ret (a, t) => Ret (a, TrimState t (tc s) (clean_trace s) (no_unlink s))
  | Fault e => Fault e
  | NoFuel => NoFuel
  end.

Definition in_tc {A} (m : M (testcache R) A) : M (trim_state S R) A := λ s,
  match m (tc s) with
  | Ret (a, c) => Ret (a, TrimState (tr s) c (clean_trace s) (no_unlink s))
  | Fault e => Fault e
  | NoFuel => NoFuel
  end.

(** [n] bytes of the block [mem] from [off]. *)
Definition part (mem : addr) (off n : Z) : M (trim_state S R) (list Z) :=
  l ← in_tc (block mem);
  if decide (0 ≤ off ∧ 0 ≤ n ∧ off + n ≤ zlen l) then mret (take (Z.to_nat n) (drop (Z.to_nat off) l)) else in_tc (fail OutOfBounds).

(** ** [write_with_gap] *)

(** One turn of the loop over the mutators: the bytes for the next one. *)
Definition gap_hook (bs : list Z) (el : hook) : list Z :=
  match post_process el with Some f => default [] (f bs) | None => bs end.

(** (The scratch buffer may have to grow.) *)
Definition write_with_gap (mem : addr) (len skip_at skip_len : Z) : M (trim_state S R) unit :=
  let tail_len := u32 (len - skip_at - skip_len) in
  _ ← in_tr AflTrim.must;
  head ← part mem 0 skip_at;
  tail ← part mem (skip_at + skip_len) tail_len;
  in_tr (t ← get_state; put_state (set_input (foldl gap_hook (head ++ tail) (hooks t)) t)).

(** ** The rounds *)

(** [memmove(in_buf + to, in_buf + from, n)] *)
Definition move_bytes (mem : addr) (to from n : Z) : M (trim_state S R) unit :=
  bs ← part mem from n;
  head ← part mem 0 to;
  in_tc (overwrite mem (head ++ bs)).

(** What the body of the loop decides: the trace did not change, it did, or trimming is
    abandoned. *)
Inductive verdict := Cut | Keep | Abort.

(** One run without the bytes at [remove_pos]. *)
Definition try_cut (q : loc) (in_buf : addr) (remove_len remove_pos : Z) : M (trim_state S R) (Z * verdict) :=
  e ← in_tr (in_afl (load q));
  let trim_avail := Z.min remove_len (len e - remove_pos) in
  _ ← write_with_gap in_buf (len e) remove_pos trim_avail;
  o ← in_tr fuzz_run_target;
  t ← in_tr get_state;
  if decide (stop_soon (runs t) = true ∨ o.1 = FSRV_RUN_ERROR) then mret (o.1, Abort) else
  _ ← in_tr (tupd (λ t, set_trim_execs (u64 (trim_execs t + 1)) t));
  cksum ← in_tr (checksum o.2);
  if decide (cksum = exec_cksum e) then
    _ ← in_tr (in_afl (modify q (set_len (len e - trim_avail))));
    _ ← move_bytes in_buf remove_pos (remove_pos + trim_avail) (u32 (len e - remove_pos - trim_avail));
    mret (o.1, Cut)
  else mret (o.1, Keep).

(** The first time, the trace is kept for [update_bitmap_score]. *)
Definition save_trace : M (trim_state S R) unit :=
  s ← get_state;
  let size := Z.to_nat (map_size (settings (tr_afl (tr s)))) in
  put_state (TrimState (tr s) (tc s) (take size (trace_bits (tr_afl (tr s)))) (no_unlink s)).

(** The loop over the positions. The result: the last fault, whether trimming goes on, and
    [needs_write]. *)
Fixpoint trim_pass (fuel : nat) (q : loc) (in_buf : addr) (remove_len remove_pos fault : Z) (needs_write : bool) :
    M (trim_state S R) (Z * bool * bool) :=
  match fuel with
  | O => out_of_fuel
  | Datatypes.S fuel =>
      e ← in_tr (in_afl (load q));
      if decide (len e ≤ remove_pos) then mret (fault, true, needs_write) else
      r ← try_cut q in_buf remove_len remove_pos;
      match r.2 with
      | Abort => mret (r.1, false, needs_write)
      | Cut =>
          _ ← (if needs_write then mret tt else save_trace);
          _ ← in_tr (tupd (λ t, set_stage_cur (u32 (stage_cur t + 1)) t));
          trim_pass fuel q in_buf remove_len remove_pos r.1 true
      | Keep =>
          _ ← in_tr (tupd (λ t, set_stage_cur (u32 (stage_cur t + 1)) t));
          trim_pass fuel q in_buf remove_len (u32 (remove_pos + remove_len)) r.1 needs_write
      end
  end.

(** The loop over the block sizes; [len_p2] follows the length of the entry. *)
Fixpoint trim_rounds (rounds fuel : nat) (q : loc) (in_buf : addr) (remove_len fault : Z) (needs_write : bool) :
    M (trim_state S R) (Z * bool * bool) :=
  match rounds with
  | O => out_of_fuel
  | Datatypes.S rounds =>
      e ← in_tr (in_afl (load q));
      if decide (Z.max (u32 (next_pow2 (len e)) / TRIM_END_STEPS) TRIM_MIN_BYTES ≤ remove_len) then
        _ ← in_tr (tupd (λ t, set_stage_max (len e / remove_len) (set_stage_cur 0 t)));
        r ← trim_pass fuel q in_buf remove_len remove_len fault needs_write;
        if (r.1.2 : bool) then trim_rounds rounds fuel q in_buf (Z.shiftr remove_len 1) r.1.1 r.2 else mret r
      else mret (fault, true, needs_write)
  end.

(** ** The file *)

(** [while (written < q->len)]: every call writes from the start of [in_buf]. *)
Fixpoint write_loop (fuel calls : nat) (in_ : list Z) (len written : Z) (file : list Z) : M (trim_state S R) (list Z) :=
  match fuel with
  | O => out_of_fuel
  | Datatypes.S fuel =>
      if decide (len ≤ written) then mret file else
      let result := Z.min (accepted calls (len - written)) (len - written) in
      write_loop fuel (Datatypes.S calls) in_ len (if decide (0 < result) then written + result else written)
        (file ++ take (Z.to_nat result) in_)
  end.

Definition write_trimmed (fuel : nat) (q : loc) (in_buf : addr) : M (trim_state S R) unit :=
  e ← in_tr (in_afl (load q));
  s ← get_state;
  bs ← part in_buf 0 (len e);
  if no_unlink s then
    _ ← in_tr AflTrim.must;
    out ← write_loop fuel 0 bs (len e) 0 [];
    in_tr (tupd (λ t, set_disk (<[fname e := out]> (disk t)) t))
  else
    gone ← in_tr (in_afl AflQueue.request);
    _ ← (if (gone : bool) then in_tr (tupd (λ t, set_disk (delete (fname e) (disk t)) t)) else mret tt);
    opened ← in_tr (in_afl AflQueue.request);
    t ← in_tr get_state;
    if decide (opened = true ∧ disk t !! fname e = None) then
      _ ← in_tr AflTrim.must;
      in_tr (tupd (λ t, set_disk (<[fname e := bs]> (disk t)) t))
    else in_tr (fail ProcessExit).

(** ** [trim_case] *)

Definition trim_builtin (rounds fuel : nat) (q : loc) (in_buf : addr) : M (trim_state S R) Z :=
  e ← in_tr (in_afl (load q));
  let orig_len := len e in
  if decide (len e < 5) then mret 0 else
  _ ← in_tr (tupd (λ t, set_bytes_trim_in (u64 (bytes_trim_in t + len e)) t));
  let len_p2 := u32 (next_pow2 (len e)) in
  r ← trim_rounds rounds fuel q in_buf (Z.max (len_p2 / TRIM_START_STEPS) TRIM_MIN_BYTES) 0 false;
  e ← in_tr (in_afl (load q));
  _ ← (if (r.1.2 && r.2 : bool) then
         _ ← write_trimmed fuel q in_buf;
         _ ← in_tc (queue_testcase_retake_mem q in_buf (len e) orig_len);
         s ← get_state;
         _ ← in_tr (in_afl (upd (λ a, set_trace_bits (clean_trace s ++ drop (length (clean_trace s)) (trace_bits a)) a)));
         in_tr (in_afl (update_bitmap_score q))
       else mret tt);
  _ ← in_tr (tupd (λ t, set_bytes_trim_out (u64 (bytes_trim_out t + len e)) t));
  mret r.1.1.

(** [has_trim]: a loaded mutator has [afl_custom_trim]; there is one such mutator at most. *)
Definition trim_case (has_trim : bool) (rounds fuel : nat) (q : loc) (in_buf : addr) : M (trim_state S R) Z :=
  if has_trim then
    e ← in_tr (in_afl (load q));
    bs ← part in_buf 0 (len e);
    trimmed_case ← in_tr (trim_case_custom fuel q bs);
    t ← in_tr get_state;
    _ ← in_tc (queue_testcase_retake (entries (tr_afl t)) (disk t) q (len e));
    mret trimmed_case
  else trim_builtin rounds fuel q in_buf.
End TrimCase.
