(* ===== verification/AflTrimSpec.v ===== *)
(** * AflTrimSpec: what [trim_case] leaves of a test case

    The rounds cut blocks out of the input and keep a cut exactly when the checksum of the
    trace is still that of the entry ([cuts]); they run the target at most half as often as the input
    has bytes.  At the end file, cache and table of best entries agree with the trimmed input. *)

From S2P Require Import Prelude Buffer Utils AflBitmap AflDet AflDict AflHavoc AflHavocSpec AflStageSpec AflScore AflQueue AflTrim AflCache AflCacheSpec AflCacheLife AflTrimCase.

(** ** The specification *)

(** [x] without the [n] bytes at [i]. *)
Definition cut (x : list Z) (i n : nat) : list Z := take i x ++ drop (i + n) x.

Section Cuts.
Context {target : Target} (size want : Z).

(** The checksum of the trace of a run, after the runs [past]. *)
Definition trace_sum (past : list (list Z)) (x : list Z) : Z :=
  hash64 (take (Z.to_nat size) (bytes (classify_counts size (run_target past x).2))).

(** From the input [x], the runs [outs] lead to [y]. *)
Inductive cuts : list (list Z) → list Z → list (list Z) → list Z → Prop :=
| cuts_done past x : cuts past x [] x
| cuts_cut past x i n outs y : (4 ≤ i)%nat → (0 < n)%nat → (i + n ≤ length x)%nat → trace_sum past (cut x i n) = want →
    cuts (past ++ [cut x i n]) (cut x i n) outs y → cuts past x (cut x i n :: outs) y
| cuts_keep past x i n outs y : (4 ≤ i)%nat → (0 < n)%nat → (i + n ≤ length x)%nat → trace_sum past (cut x i n) ≠ want →
    cuts (past ++ [cut x i n]) x outs y → cuts past x (cut x i n :: outs) y.

Lemma cuts_app past x o1 y o2 z : cuts past x o1 y → cuts (past ++ o1) y o2 z → cuts past x (o1 ++ o2) z.
Proof.
  intros H1. revert o2 z. induction H1 as [|past x i n outs y Hi Hn Hin Hs _ IH|past x i n outs y Hi Hn Hin Hs _ IH]; intros o2 z H2; simpl.
  - by rewrite app_nil_r in H2.
  - apply cuts_cut; [done..|]. apply IH. by rewrite <- app_assoc.
  - apply cuts_keep; [done..|]. apply IH. by rewrite <- app_assoc.
Qed.

Lemma length_cut x i n : (i + n ≤ length x)%nat → length (cut x i n) = (length x - n)%nat.
Proof. intros. unfold cut. rewrite length_app, length_take, length_drop. lia. Qed.

(** The first four bytes are never cut. *)
Lemma cuts_head past x outs y : cuts past x outs y → take 4 y = take 4 x.
Proof.
  induction 1 as [|past x i n outs y Hi Hn Hin Hs _ IH|past x i n outs y Hi Hn Hin Hs _ IH]; [done| |done].
  rewrite IH. unfold cut. rewrite take_app_le, take_take by (rewrite length_take; lia). by rewrite Nat.min_l by lia.
Qed.

Lemma cuts_length past x outs y : cuts past x outs y → (length y ≤ length x)%nat ∧ Forall (λ o, (length o < length x)%nat) outs.
Proof.
  induction 1 as [|past x i n outs y Hi Hn Hin Hs _ [IH1 IH2]|past x i n outs y Hi Hn Hin Hs _ [IH1 IH2]]; [by split| |];
    pose proof (length_cut x i n Hin) as Hc; (split; [lia|]); (constructor; [lia|]); [|done].
  eapply Forall_impl; [exact IH2|]. intros o Ho. simpl in *. lia.
Qed.

(** What is left was run, with the wanted checksum, unless nothing was cut. *)
Lemma cuts_last past x outs y : cuts past x outs y → y = x ∨ ∃ o1 o2, outs = o1 ++ y :: o2 ∧ trace_sum (past ++ o1) y = want.
Proof.
  induction 1 as [|past x i n outs y Hi Hn Hin Hs _ IH|past x i n outs y Hi Hn Hin Hs _ IH]; [by left| |].
  - right. destruct IH as [->|(o1 & o2 & -> & Ho)]; [exists [], outs; rewrite app_nil_r; done|].
    exists (cut x i n :: o1), o2. split; [done|]. by rewrite <- app_assoc in Ho.
  - destruct IH as [->|(o1 & o2 & -> & Ho)]; [by left|right]. exists (cut x i n :: o1), o2. split; [done|]. by rewrite <- app_assoc in Ho.
Qed.
End Cuts.

(** ** The state while an entry is trimmed *)

Section Trim.
Context {S R : Type} `{!Host, target : !Target, !CustomTrim S, !Random R, !Runner, !Writer}.
Context (q : loc) (e : queue_entry) (p : addr) (a0 : afl_state) (t0 : trimmer S) (c0 : testcache R).
Notation size := (map_size (settings a0)).
Notation want := (exec_cksum e).

(** Nothing changes the input on the way to the target, which runs to its end and fills the map. *)
Definition direct : Prop := Forall (λ h, post_process h = None) (hooks t0).
Definition steady : Prop := ∀ past x, (run_target past x).1 ≠ FSRV_RUN_ERROR ∧ stop_soon past = false ∧ 8 * zlen (run_target past x).2 = size.

(** The entry has the bytes [x], at the start of its block, and nothing else has changed. *)
Record holding (x : list Z) (s : trim_state S R) : Prop := {
  hd_afl : ∃ n tb, zlen tb = size ∧ tr_afl (tr s) = AflQueue.set_requests n (set_trace_bits tb (set_entries (<[q := set_len (zlen x) e]> (entries a0)) a0));
  hd_block : ∃ rest, tc s = set_heap (<[p := x ++ rest]> (heap c0)) (next_addr c0) c0 ∧ zlen x + zlen rest = len e;
  hd_disk : disk (tr s) = disk t0;
  hd_hooks : hooks (tr s) = hooks t0;
  hd_unlink : no_unlink s = false }.

Context (Hn : never_refuses) (Hdirect : direct) (Hsteady : steady) (He : entries a0 !! q = Some e) (Hlen : len e ≤ MAX_FILE).

Lemma wp_in_tr {A} (m : M (trimmer S) A) (s : trim_state S R) (Q : A → trim_state S R → Prop) :
  wp m (tr s) (λ r t, Q r (TrimState t (tc s) (clean_trace s) (no_unlink s))) → wp (in_tr m) s Q.
Proof. unfold wp, in_tr. by destruct (m (tr s)) as [[r t]| |]. Qed.

Lemma wp_in_tc {A} (m : M (testcache R) A) (s : trim_state S R) (Q : A → trim_state S R → Prop) :
  wp m (tc s) (λ r c, Q r (TrimState (tr s) c (clean_trace s) (no_unlink s))) → wp (in_tc m) s Q.
Proof. unfold wp, in_tc. by destruct (m (tc s)) as [[r c]| |]. Qed.

Lemma wp_load_q x s (Q : queue_entry → trim_state S R → Prop) : holding x s → Q (set_len (zlen x) e) s → wp (in_tr (in_afl (load q))) s Q.
Proof.
  intros [(n & tb & _ & Ha) _ _ _ _] HQ. apply wp_in_tr, wp_in_afl. eapply wp_load_entry; [rewrite Ha; apply lookup_insert_eq|]. by destruct s as [[] ? ? ?].
Qed.

(** The part of the block that belongs to the entry. *)
Lemma wp_part x s off n (Q : list Z → trim_state S R → Prop) : holding x s → 0 ≤ off → 0 ≤ n → off + n ≤ zlen x →
  Q (take (Z.to_nat n) (drop (Z.to_nat off) x)) s → wp (part p off n) s Q.
Proof.
  intros [_ (rest & Hc & Hr) _ _ _] Ho Hn0 Hfit HQ. unfold part. apply wp_bind, wp_in_tc. unfold block. apply wp_bind, wp_get.
  rewrite Hc. simpl. rewrite lookup_insert_eq. apply wp_ret. rewrite <- Hc. rewrite decide_True by (rewrite length_app; lia). apply wp_ret.
  rewrite drop_app_le, take_app_le by (rewrite ?length_drop; lia). by destruct s.
Qed.

Lemma no_hooks bs : foldl gap_hook bs (hooks t0) = bs.
Proof using Hdirect.
  revert Hdirect. unfold direct. generalize (hooks t0). induction 1 as [|h hs Hh _ IH]; [done|]. simpl.
  assert (gap_hook bs h = bs) as -> by (unfold gap_hook; by rewrite Hh). exact IH.
Qed.

(** Steps that touch the last trace, the requests and the counters only. *)
Lemma holding_touch x s t ct : holding x s → (∃ n tb, zlen tb = size ∧ tr_afl t = AflQueue.set_requests n (set_trace_bits tb (tr_afl (tr s)))) →
  disk t = disk (tr s) → hooks t = hooks (tr s) → holding x (TrimState t (tc s) ct (no_unlink s)).
Proof.
  intros [(n & tb & Hl & Ha) Hb Hd Hh Hu] (n' & tb' & Hl' & Ht) Hd' Hh'. split; simpl; try done; [|by etrans..].
  exists n', tb'. split; [done|]. by rewrite Ht, Ha.
Qed.

Lemma wp_tr_must s (Q : unit → trim_state S R → Prop) :
  Q tt (TrimState (set_afl (AflQueue.set_requests (Pos.succ (AflQueue.requests (tr_afl (tr s)))) (tr_afl (tr s))) (tr s)) (tc s) (clean_trace s) (no_unlink s)) →
  wp (in_tr AflTrim.must) s Q.
Proof using Hn.
  intros HQ. apply wp_in_tr. unfold AflTrim.must, AflQueue.request. apply wp_bind, wp_in_afl, wp_bind, wp_get, wp_bind, wp_put, wp_ret. by rewrite Hn.
Qed.

(** The candidate is made and waits for the target. *)
Lemma wp_gap x s pos n (Q : unit → trim_state S R → Prop) : holding x s → 0 ≤ pos → 0 < n → pos + n ≤ zlen x → zlen x < 2 ^ 32 →
  (∀ t, holding x (TrimState t (tc s) (clean_trace s) (no_unlink s)) → runs t = runs (tr s) → input t = cut x (Z.to_nat pos) (Z.to_nat n) →
    Q tt (TrimState t (tc s) (clean_trace s) (no_unlink s))) →
  wp (write_with_gap p (zlen x) pos n) s Q.
Proof using Hn Hdirect.
  intros Hx Hpos Hn0 Hfit Hw HQ. unfold write_with_gap. rewrite (wrap_small 32) by lia. apply wp_bind, wp_tr_must.
  assert (zlen (trace_bits (tr_afl (tr s))) = size) as Htb by (destruct (hd_afl _ _ Hx) as (? & ? & ? & Ha); by rewrite Ha).
  assert (∀ f : trimmer S → trimmer S, (∀ t, tr_afl (f t) = tr_afl t ∧ disk (f t) = disk t ∧ hooks (f t) = hooks t) →
    holding x (TrimState (f (set_afl (AflQueue.set_requests (Pos.succ (AflQueue.requests (tr_afl (tr s)))) (tr_afl (tr s))) (tr s))) (tc s) (clean_trace s) (no_unlink s))) as Hf.
  { intros f Hf. destruct (Hf (set_afl (AflQueue.set_requests (Pos.succ (AflQueue.requests (tr_afl (tr s)))) (tr_afl (tr s))) (tr s))) as (E1 & E2 & E3).
    apply (holding_touch x s); [done| |done..]. exists (Pos.succ (AflQueue.requests (tr_afl (tr s)))), (trace_bits (tr_afl (tr s))).
    split; [done|]. rewrite E1. simpl. by destruct (tr_afl (tr s)). }
  pose proof (Hf id ltac:(done)) as Hx'. simpl in Hx'.
  apply wp_bind, (wp_part x); [done|lia..|]. apply wp_bind, (wp_part x); [done|lia..|]. apply wp_in_tr, wp_bind, wp_get, wp_put. simpl. apply HQ.
  - by apply (Hf (set_input _)).
  - done.
  - simpl. rewrite (hd_hooks _ _ Hx), no_hooks. unfold cut. rewrite (take_ge (drop (Z.to_nat (pos + n)) x)) by (rewrite length_drop; lia).
    by replace (Z.to_nat (pos + n)) with (Z.to_nat pos + Z.to_nat n)%nat by lia.
Qed.

(** The bytes behind a cut move up. *)
Lemma wp_move x (s : trim_state S R) pos n : (∃ rest, heap (tc s) !! p = Some (x ++ rest)) → 0 ≤ pos → 0 < n → pos + n ≤ zlen x →
  wp (move_bytes p pos (pos + n) (zlen x - pos - n)) s (λ _ s', tr s' = tr s ∧ clean_trace s' = clean_trace s ∧ no_unlink s' = no_unlink s ∧
    ∃ rest', tc s' = set_heap (<[p := cut x (Z.to_nat pos) (Z.to_nat n) ++ rest']> (heap (tc s))) (next_addr (tc s)) (tc s) ∧
      (∀ rest, heap (tc s) !! p = Some (x ++ rest) → zlen rest' = zlen rest + n)).
Proof.
  intros [rest Hp] Hpos Hn0 Hfit. unfold move_bytes, part.
  apply wp_bind, wp_bind, wp_in_tc. unfold block. apply wp_bind, wp_get. rewrite Hp. apply wp_ret.
  rewrite decide_True by (rewrite length_app; lia). apply wp_ret.
  apply wp_bind, wp_bind, wp_in_tc, wp_bind, wp_get. simpl. rewrite Hp. apply wp_ret.
  rewrite decide_True by (rewrite length_app; lia). apply wp_ret. simpl.
  rewrite drop_0, take_app_le, drop_app_le, take_app_le by (rewrite ?length_drop; lia).
  rewrite (take_ge (drop (Z.to_nat (pos + n)) x)) by (rewrite length_drop; lia).
  replace (take (Z.to_nat pos) x ++ drop (Z.to_nat (pos + n)) x) with (cut x (Z.to_nat pos) (Z.to_nat n)) by (unfold cut; do 2 f_equal; lia).
  pose proof (length_cut x (Z.to_nat pos) (Z.to_nat n) ltac:(lia)) as Hl.
  apply wp_in_tc. eapply wp_overwrite_block; [exact Hp|rewrite length_app; lia|]. split; [done|]. split; [done|]. split; [done|].
  eexists. split; [done|]. intros rest' Hr. simplify_eq/=. rewrite length_drop, length_app in *. lia.
Qed.

Lemma length_bytes m : zlen (bytes m) = 8 * zlen m.
Proof.
  unfold bytes. induction m as [|w m IH]; [done|]. cbn [flat_map]. rewrite length_app, length_map, (length_cons w m).
  change (length [0; 1; 2; 3; 4; 5; 6; 7]) with 8%nat. lia.
Qed.

Lemma length_classify m : zlen (classify_counts size m) = zlen m.
Proof. unfold classify_counts, over_words. rewrite length_app, length_map, <- length_app, take_drop. done. Qed.

(** One run: the candidate is sent to the target and judged by its checksum. *)
Lemma try_cut_ok x s r pos : holding x s → 4 ≤ pos < zlen x → 0 < r →
  wp (try_cut q p r pos) s (λ v s', let y := cut x (Z.to_nat pos) (Z.to_nat (Z.min r (zlen x - pos))) in
    runs (tr s') = runs (tr s) ++ [y] ∧ clean_trace s' = clean_trace s ∧
    (v.2 = Cut ∧ trace_sum size (runs (tr s)) y = want ∧ holding y s' ∧ hash64 (take (Z.to_nat size) (trace_bits (tr_afl (tr s')))) = want ∨ v.2 = Keep ∧ trace_sum size (runs (tr s)) y ≠ want ∧ holding x s')).
Proof.
  intros Hx Hpos Hr. pose proof Hx as [_ (rest0 & _ & Hrest) _ _ _]. unfold MAX_FILE in *.
  unfold try_cut. apply wp_bind, (wp_load_q x); [done|]. simpl. set (n := Z.min r (zlen x - pos)). assert (0 < n ∧ pos + n ≤ zlen x) as [Hn0 Hfit] by lia.
  apply wp_bind, (wp_gap x); [done|lia..|]. intros t Ht Hruns Hinput.
  apply wp_bind, wp_in_tr. unfold fuzz_run_target. apply wp_bind, wp_get, wp_bind, wp_put, wp_bind, wp_in_afl, wp_update, wp_ret. simpl. rewrite Hruns, Hinput. set (y := cut x _ _).
  destruct (Hsteady (runs (tr s)) y) as (Herr & _ & Hwords). destruct (Hsteady (runs (tr s) ++ [y]) []) as (_ & Hstop & _).
  apply wp_bind, wp_in_tr, wp_get. simpl. rewrite decide_False by (rewrite Hstop; by intros [?|?]).
  apply wp_bind, wp_in_tr, wp_tupd. apply wp_bind, wp_in_tr. unfold checksum. apply wp_bind, wp_get, wp_bind, wp_in_afl, wp_update, wp_bind, wp_get, wp_ret. simpl.
  assert (settings (tr_afl t) = settings a0) as Hset by (destruct (hd_afl _ _ Ht) as (? & ? & _ & Ha); simpl in Ha; by rewrite Ha).
  assert (zlen (bytes (classify_counts size (run_target (runs (tr s)) y).2)) = size) as Hbytes by (rewrite length_bytes, length_classify; lia).
  rewrite Hset. fold (trace_sum size (runs (tr s)) y).
  match goal with |- wp _ ?s' _ => set (s2 := s'); assert (holding x s2) as Hs2 end.
  { apply (holding_touch x _ _ _ Ht); try done. exists (AflQueue.requests (tr_afl t)), (bytes (classify_counts size (run_target (runs (tr s)) y).2)). split; [done|]. simpl. by destruct (tr_afl t). }
  case_decide as Hsum; [|apply wp_ret; split; [done|]; split; [done|]; by right].
  rewrite (wrap_small 32) by lia. destruct Hs2 as [(m & tb & Htb & Ha) (rest & Hc & Hlr) Hd Hh Hu].
  apply wp_bind, wp_in_tr, wp_in_afl. apply (wp_modify_entry _ _ (set_len (zlen x) e)); [change (entries (tr_afl (tr s2)) !! q = Some (set_len (zlen x) e)); rewrite Ha; apply lookup_insert_eq|].
  match goal with |- wp _ ?s' _ => set (s3 := s') end. assert (heap (tc s3) !! p = Some (x ++ rest)) as Hp by (simpl in *; rewrite Hc; apply lookup_insert_eq).
  apply wp_bind. eapply wp_mono; [apply (wp_move x s3 pos n); [by exists rest|lia..]|].
  intros [] s4 (Htr & Hct & Hnu & rest' & Hc4 & Hl4). apply wp_ret. specialize (Hl4 _ Hp).
  assert (zlen y = zlen x - n) as Hy by (unfold y; rewrite length_cut by lia; lia).
  split; [by rewrite Htr|]. split; [by rewrite Hct|]. left. split; [done|]. split; [done|]. split; [|rewrite Htr; done]. split.
  - exists m, tb. split; [done|]. rewrite Htr.
    change (tr_afl (tr s3)) with (set_entries (<[q := set_len (zlen x - n) (set_len (zlen x) e)]> (entries (tr_afl (tr s2)))) (tr_afl (tr s2))).
    rewrite Ha. simpl. by rewrite insert_insert_eq, Hy.
  - exists rest'. split; [|lia]. rewrite Hc4. simpl in *. rewrite Hc. simpl. by rewrite insert_insert_eq.
  - by rewrite Htr.
  - by rewrite Htr.
  - by rewrite Hnu.
Qed.

(** ** The rounds *)

(** The saved trace has the checksum of the entry. *)
Definition saved (s : trim_state S R) : Prop := hash64 (clean_trace s) = want ∧ zlen (clean_trace s) = size.

Lemma holding_tupd x s f : holding x s → (∀ t, tr_afl (f t) = tr_afl t ∧ disk (f t) = disk t ∧ hooks (f t) = hooks t) →
  holding x (TrimState (f (tr s)) (tc s) (clean_trace s) (no_unlink s)).
Proof.
  intros Hx Hf. destruct (Hf (tr s)) as (E1 & E2 & E3). pose proof (hd_afl _ _ Hx) as (n & tb & Hl & Ha). apply (holding_touch x s); [done| |done..].
  exists n, tb. split; [done|]. by rewrite E1, Ha.
Qed.

(** What a pass or several rounds have done, from the input [x] and [needs_write] on. *)
Definition progress (x : list Z) (nw : bool) (s : trim_state S R) (bound : Z → Prop) (r : Z * bool * bool) (s' : trim_state S R) : Prop :=
  r.1.2 = true ∧ ∃ outs z, runs (tr s') = runs (tr s) ++ outs ∧ cuts size want (runs (tr s)) x outs z ∧ holding z s' ∧ bound (zlen outs) ∧
    if r.2 then saved s' else z = x ∧ nw = false.

Lemma pass_bound k r d n : 4 ≤ r → 0 < d → n = Z.min r d → 0 ≤ k → k * r ≤ Z.max 0 (d - n) + r - 1 → (k + 1) * r ≤ Z.max 0 d + r - 1.
Proof.
  intros Hr Hd -> Hk Hb. destruct (decide (r ≤ d)); [lia|]. assert (k * r < r) as Hkr by lia. assert (k = 0) as -> by nia. lia.
Qed.

Lemma trim_pass_ok r : 4 ≤ r < 2 ^ 31 → ∀ fuel x s pos fault nw, holding x s → 4 ≤ pos → zlen x - pos < Z.of_nat fuel → (0 < fuel)%nat → (nw = true → saved s) →
  wp (trim_pass fuel q p r pos fault nw) s (progress x nw s (λ k, k * r ≤ Z.max 0 (zlen x - pos) + r - 1)).
Proof.
  intros Hr. induction fuel as [|fuel IH]; intros x s pos fault nw Hx Hpos Hfuel Hf0 Hnw; [lia|]. cbn [trim_pass].
  assert (zlen x ≤ MAX_FILE) as Hxl by (destruct (hd_block _ _ Hx) as (? & _ & ?); lia). unfold MAX_FILE in *.
  apply wp_bind, (wp_load_q x); [done|]. simpl. case_decide as Hend.
  { apply wp_ret. split; [done|]. exists [], x. rewrite app_nil_r. split_and!; [done|constructor|done|simpl; lia|]. simpl. destruct nw; [auto|done]. }
  apply wp_bind. eapply wp_mono; [apply (try_cut_ok x); [done|lia|lia]|]. set (n := Z.min r (zlen x - pos)).
  intros [f v] s1 (Hruns & Hct & Hcase). simpl in Hcase. set (y := cut x _ _) in *.
  pose proof (length_cut x (Z.to_nat pos) (Z.to_nat n) ltac:(lia)) as Hy. fold y in Hy.
  destruct Hcase as [(-> & Hsum & Hs1 & Htrace)|(-> & Hsum & Hs1)]; simpl.
  - apply wp_bind. apply (wp_mono _ _ (λ _ s2, holding y s2 ∧ saved s2 ∧ runs (tr s2) = runs (tr s1))).
    + destruct nw; [apply wp_ret; split; [done|]; split; [|done]; by destruct (Hnw eq_refl) as [? ?]; split; rewrite Hct|].
      unfold save_trace. apply wp_bind, wp_get, wp_put. destruct (hd_afl _ _ Hs1) as (m & tb & Htb & Ha).
      split; [|split; [|done]].
      * destruct Hs1. by split.
      * assert (settings (tr_afl (tr s1)) = settings a0) as Hset by (by rewrite Ha). unfold saved. simpl. rewrite Hset. split; [done|].
        rewrite length_take, Ha. simpl. lia.
    + intros [] s2 (Hs2 & Hsaved & Hruns2). apply wp_bind, wp_in_tr, wp_tupd.
      eapply wp_mono; [apply (IH y); [by apply holding_tupd|done|lia|lia|done]|]. intros res s3 [Hok (outs & z & Hr3 & Hcuts & Hz & Hb & Hlast)].
      simpl in Hr3, Hcuts. rewrite Hruns2, Hruns in Hr3, Hcuts. split; [done|]. exists (y :: outs), z. split; [by rewrite Hr3, <- app_assoc|].
      split; [apply cuts_cut; [lia..|done|done]|]. split; [done|]. split; [rewrite length_cons, Nat2Z.inj_succ; apply (pass_bound _ r _ n); [lia..|]; rewrite Hy in Hb; lia|]. destruct res.2; [done|]. by destruct Hlast.
  - apply wp_bind, wp_in_tr, wp_tupd. rewrite (wrap_small 32) by lia.
    eapply wp_mono; [apply (IH x); [by apply holding_tupd|lia|lia|lia|by unfold saved; simpl; rewrite Hct]|].
    intros res s3 [Hok (outs & z & Hr3 & Hcuts & Hz & Hb & Hlast)]. simpl in Hr3, Hcuts. rewrite Hruns in Hr3, Hcuts.
    split; [done|]. exists (y :: outs), z. split; [by rewrite Hr3, <- app_assoc|].
    split; [apply cuts_keep; [lia..|done|done]|]. split; [done|]. split; [rewrite length_cons, Nat2Z.inj_succ; apply (pass_bound _ r _ n); [lia..|]; lia|]. done.
Qed.

(** Halving the block size at least halves the runs that are left. *)
Lemma rounds_bound n r k1 k2 : 0 ≤ n → 4 ≤ r → 0 ≤ k1 → k1 * r ≤ n →
  0 ≤ k2 → (4 ≤ r / 2 → 2 * k2 * (r / 2) ≤ n * (r / 2 - 2)) → (r / 2 < 4 → k2 = 0) → 2 * (k1 + k2) * r ≤ n * (r - 2).
Proof.
  intros Hn0 Hr Hk1 Hk1n Hk2 Hbig Hsmall. pose proof (Z.div_mod r 2 ltac:(lia)). pose proof (Z.mod_pos_bound r 2 ltac:(lia)).
  destruct (decide (4 ≤ r / 2)) as [Hs|Hs]; [|rewrite Hsmall by lia; nia]. specialize (Hbig Hs). set (h := r / 2) in *.
  assert (2 * k2 * r * h ≤ n * (r - 4) * h) by nia. assert (2 * k2 * r ≤ n * (r - 4)) by nia. nia.
Qed.

Lemma trim_rounds_ok fuel : ∀ rounds r x s fault nw, holding x s → 1 ≤ r < 2 ^ 20 → zlen x < Z.of_nat fuel →
  r < 2 ^ Z.of_nat rounds → (0 < rounds)%nat → (nw = true → saved s) →
  wp (trim_rounds rounds fuel q p r fault nw) s (progress x nw s (λ k, if decide (4 ≤ r) then 2 * k * r ≤ zlen x * (r - 2) else k = 0)).
Proof.
  intros rounds. induction rounds as [|rounds IH]; intros r x s fault nw Hx Hr Hfuel Hpow Hr0 Hnw; [lia|]. cbn [trim_rounds].
  apply wp_bind, (wp_load_q x); [done|]. simpl. unfold TRIM_MIN_BYTES. case_decide as Hgo.
  2: { apply wp_ret. split; [done|]. exists [], x. rewrite app_nil_r. split_and!; [done|constructor|done|simpl; case_decide; nia|]. simpl. destruct nw; [auto|done]. }
  apply wp_bind, wp_in_tr, wp_tupd. set (s1 := TrimState _ _ _ _). assert (holding x s1) as Hs1 by (by apply (holding_tupd x s (λ t, set_stage_max (zlen x / r) (set_stage_cur 0 t)))).
  apply wp_bind. eapply wp_mono; [apply (trim_pass_ok r ltac:(lia) fuel x s1); [done|lia|lia|lia|done]|].
  intros [[f ok] nw2] s2 [Hok (o1 & y & Hr1 & Hc1 & Hy & Hb1 & Hl1)]. simpl in Hok, Hl1. subst ok. simpl.
  rewrite Z.shiftr_div_pow2 by lia. change (2 ^ 1) with 2. pose proof (Z.div_mod r 2 ltac:(lia)). pose proof (Z.mod_pos_bound r 2 ltac:(lia)).
  destruct (cuts_length _ _ _ _ _ _ Hc1) as [Hyx _]. rewrite Nat2Z.inj_succ, Z.pow_succ_r in Hpow by lia.
  eapply wp_mono; [apply (IH (r / 2) y s2); [done|lia|lia|lia| |]|].
  - destruct rounds; [simpl in Hpow; lia|lia].
  - intros ->. done.
  - intros res s3 [Hok3 (o2 & z & Hr2 & Hc2 & Hz & Hb2 & Hl2)]. split; [done|]. exists (o1 ++ o2), z.
    change (runs (tr s1)) with (runs (tr s)) in *. split; [by rewrite Hr2, Hr1, app_assoc|]. rewrite Hr1 in Hc2. split; [by eapply cuts_app|]. split; [done|].
    rewrite length_app, Nat2Z.inj_add, decide_True by lia. split.
    + apply rounds_bound; [lia|lia|lia| | | |].
      * assert (zlen o1 * r ≤ Z.max 0 (zlen x - r) + r - 1) by done. destruct (decide (r ≤ zlen x)); [lia|]. assert (zlen o1 * r < r) by lia. assert (zlen o1 = 0) as -> by nia. lia.
      * lia.
      * intros H4. rewrite decide_True in Hb2 by done. nia.
      * intros H4. by rewrite decide_False in Hb2 by lia.
    + destruct res.2; [done|]. destruct Hl2 as [-> ->]. done.
Qed.

(** ** The end *)

Context (d : list Z) (Hd : on_disk (entries a0) (disk t0)) (Hcache : cache_ok (entries a0) (disk t0) c0) (Hown : own_name (entries a0) q e).
Context (Hp : testcase_buf c0 !! q = Some p) (Hfile : disk t0 !! fname e = Some d) (Hsc : scored a0) (Hmap : zlen (trace_bits a0) = size).

(** The bytes of the entry. *)
Definition orig : list Z := take (Z.to_nat (len e)) d.

Lemma orig_length : zlen orig = len e ∧ 0 < len e.
Proof.
  destruct (Hd q e He) as [Hl (d' & Hd' & Hlong)]. rewrite Hfile in Hd'. simplify_eq. unfold orig. rewrite length_take. lia.
Qed.

Lemma block_orig : heap c0 !! p = Some orig.
Proof.
  destruct (bl_file _ _ _ (proj2 Hcache) q p Hp) as (bs & Hbs & e' & d' & He' & Hd' & _ & ->). by simplify_eq.
Qed.

Lemma set_len_same : set_len (len e) e = e.
Proof. by destruct e. Qed.

Lemma holding_start s : tr s = t0 → tc s = c0 → tr_afl t0 = a0 → no_unlink s = false → holding orig s.
Proof.
  intros Ht Hc Ha Hu. destruct orig_length as [Hl _]. split; try done; rewrite ?Ht; [|exists []|done..].
  - exists (AflQueue.requests a0), (trace_bits a0). split; [done|]. rewrite Ha, Hl, set_len_same, insert_id by done. by destruct a0.
  - rewrite app_nil_r, insert_id by apply block_orig. split; [|simpl; lia]. rewrite Hc. by destruct c0.
Qed.

(** The table of best entries does not look at lengths. *)
Lemma scored_holding x n tb : zlen tb = size →
  scored (AflQueue.set_requests n (set_trace_bits tb (set_entries (<[q := set_len x e]> (entries a0)) a0))).
Proof.
  intros Htb. destruct Hsc as [H1' H2' H3' H4' H5']. split; simpl; try done; [lia| |].
  - intros k e' [[<- <-]|[Hne Hk]]%lookup_insert_Some; [|by apply H4']. destruct (H4' q e He) as [Hok Hf]. split; [exact Hok|exact Hf].
  - intros i k Hi. rewrite lookup_insert_is_Some'. right. by eapply H5'.
Qed.

Lemma smear_lt y k n : 0 ≤ k → 0 ≤ n → 0 ≤ y < 2 ^ n → 0 ≤ Z.lor y (Z.shiftr y k) < 2 ^ n.
Proof.
  intros Hk Hn' Hy. pose proof (smear_nonneg y k ltac:(lia)). split; [done|]. destruct (decide (y = 0)) as [->|]; [rewrite Z.shiftr_0_l, Z.lor_0_l; lia|].
  pose proof (smear_ge y k ltac:(lia)). apply Z.log2_lt_pow2; [lia|]. rewrite log2_smear by lia. apply Z.log2_lt_pow2; lia.
Qed.

Lemma next_pow2_le x : 0 < x ≤ 2 ^ 20 → 0 ≤ AflQueue.next_pow2 x ≤ 2 ^ 20.
Proof.
  intros Hx. unfold AflQueue.next_pow2. rewrite (wrap_small 64 (x - 1)) by lia.
  pose proof (smear_lt (x - 1) 1 20) as S1. set (y1 := Z.lor (x - 1) _) in *. pose proof (smear_lt y1 2 20) as S2. set (y2 := Z.lor y1 _) in *.
  pose proof (smear_lt y2 4 20) as S3. set (y3 := Z.lor y2 _) in *. pose proof (smear_lt y3 8 20) as S4. set (y4 := Z.lor y3 _) in *.
  pose proof (smear_lt y4 16 20) as S5. set (y5 := Z.lor y4 _) in *. rewrite wrap_small by lia. lia.
Qed.

(** Entries that differ in counts and traces only are the same to the cache. *)
Lemma cache_ok_keys es es' files (c : testcache R) : (∀ k, key <$> es' !! k = key <$> es !! k) → cache_ok es files c → cache_ok es' files c.
Proof.
  intros Hk [[Ha Hb Hc Hd' He' Hf Hg Hh] [Hi Hj Hl Hm]].
  assert (∀ k, len <$> es' !! k = len <$> es !! k ∧ fname <$> es' !! k = fname <$> es !! k) as Hkey.
  { intros k. specialize (Hk k). destruct (es' !! k) as [x|], (es !! k) as [y|]; try done. simpl in *. destruct x, y. unfold key in Hk. simpl in *. by simplify_eq. }
  assert (∀ l, total es' l = total es l) as Ht.
  { intros l. induction l as [|k l IH]; [done|]. change (total ?m (k :: l)) with (weight m k + total m l). rewrite IH. f_equal. unfold weight.
    destruct (Hkey k) as [Hk1 _]. by destruct (es' !! k), (es !! k); simplify_eq/=. }
  split; split; try done; [by rewrite Ht|]. intros k r Hr. destruct (Hj k r Hr) as (bs & Hbs & y & dd & Hy & Hdd & Hlong & ->).
  exists (take (Z.to_nat (len y)) dd). split; [done|]. destruct (Hkey k) as [Hk1 Hk2]. rewrite Hy in Hk1, Hk2. simpl in Hk1, Hk2.
  apply fmap_Some in Hk1 as (x & Hx & Hlx). rewrite Hx in Hk2. simplify_eq/=. exists x, dd. split; [done|]. split; [congruence|]. split; [lia|congruence].
Qed.

(** A checksum that is the entry's stands for the compact trace that the entry has. *)
Context (Hstands : ∀ l, hash64 l = want → zlen l = size →
  trace_mini e = None ∨ trace_mini e = Some (minimize_bits size (replicate (Z.to_nat (Z.shiftr size 3)) 0) l)).

(** The trimmed input goes to the file, and the file only. *)
Lemma write_trimmed_ok fuel x s : holding x s →
  wp (write_trimmed fuel q p) s (λ _ s', clean_trace s' = clean_trace s ∧ runs (tr s') = runs (tr s) ∧ tc s' = tc s ∧
    (∃ n tb, zlen tb = size ∧ tr_afl (tr s') = AflQueue.set_requests n (set_trace_bits tb (set_entries (<[q := set_len (zlen x) e]> (entries a0)) a0))) ∧
    disk (tr s') = <[fname e := x]> (disk t0)).
Proof.
  intros Hx. destruct (hd_block _ _ Hx) as (rest & _ & Hrest). unfold write_trimmed. apply wp_bind, (wp_load_q x); [done|]. apply wp_bind, wp_get.
  apply wp_bind, (wp_part x); [done|simpl; lia..|]. simpl. rewrite drop_0, take_ge by lia. rewrite (hd_unlink _ _ Hx).
  apply wp_bind, wp_in_tr, wp_in_afl. unfold AflQueue.request. apply wp_bind, wp_get, wp_bind, wp_put, wp_ret. rewrite Hn. simpl.
  apply wp_bind, wp_in_tr, wp_tupd. apply wp_bind, wp_in_tr, wp_in_afl, wp_bind, wp_get, wp_bind, wp_put, wp_ret. rewrite Hn. simpl.
  apply wp_bind, wp_in_tr, wp_get. simpl. rewrite decide_True by (split; [done|apply lookup_delete_eq]).
  apply wp_bind, wp_tr_must, wp_in_tr, wp_tupd. simpl. split; [done|]. split; [done|]. split; [done|]. split.
  - destruct (hd_afl _ _ Hx) as (n & tb & Htb & Ha). eexists _, tb. split; [done|]. by rewrite Ha.
  - by rewrite insert_delete_eq, (hd_disk _ _ Hx).
Qed.

Lemma finish_ok fuel x s : holding x s → saved s → 0 < zlen x →
  wp (_ ← write_trimmed fuel q p;
      _ ← in_tc (queue_testcase_retake_mem q p (zlen x) (len e));
      s ← get_state;
      _ ← in_tr (in_afl (upd (λ a, set_trace_bits (clean_trace s ++ drop (length (clean_trace s)) (trace_bits a)) a)));
      in_tr (in_afl (update_bitmap_score q))) s
    (λ _ s', runs (tr s') = runs (tr s) ∧ scored (tr_afl (tr s')) ∧ disk (tr s') = trimmed_disk (disk t0) e x ∧
      (∀ k, key <$> entries (tr_afl (tr s')) !! k = key <$> trimmed_entries (entries a0) q e x !! k) ∧
      cache_ok (entries (tr_afl (tr s'))) (disk (tr s')) (tc s')).
Proof.
  intros Hx [Hsum Hsl] Hx0. destruct (hd_block _ _ Hx) as (rest & Hc & Hrest). unfold MAX_FILE in *.
  apply wp_bind. eapply wp_mono; [by apply write_trimmed_ok|]. intros [] s1 (Hct & Hruns & Hc1 & (n & tb & Htb & Ha) & Hdisk).
  apply wp_bind, wp_in_tc. rewrite Hc1, Hc. eapply wp_mono.
  { apply (retake_mem_ok (entries a0) (disk t0) q e x He Hown ltac:(unfold MAX_FILE; lia) c0 p (x ++ rest) Hd Hn Hcache Hp).
    - rewrite length_app. lia.
    - by apply take_app_length.
    - lia. }
  intros [] c2 [Hc2 _]. apply wp_bind, wp_get. apply wp_bind, wp_in_tr, wp_in_afl, wp_update. simpl. rewrite Hct, Ha. simpl.
  rewrite drop_ge, app_nil_r by lia. set (a := set_trace_bits (clean_trace s) _).
  assert (scored a) as Hsa by (apply (scored_holding (zlen x) n (clean_trace s)); done).
  assert (entries a !! q = Some (set_len (zlen x) e)) as Hea by apply lookup_insert_eq.
  apply wp_in_tr, wp_in_afl. eapply wp_mono; [apply (update_bitmap_score_ok a q (set_len (zlen x) e)); [done|done|]|].
  { simpl. unfold compact. simpl. by apply Hstands. }
  intros [] a' [Hsc' _ _ Hk _ _]. simpl. split; [by rewrite Hruns|]. split; [done|]. split; [done|]. split; [exact Hk|].
  rewrite Hdisk. by eapply cache_ok_keys.
Qed.

(** What is left of the entry, in the queue, on the disk and in the cache. *)
Record left_as (z : list Z) (s : trim_state S R) : Prop := {
  la_scored : scored (tr_afl (tr s));
  la_keys : ∀ k, key <$> entries (tr_afl (tr s)) !! k = key <$> trimmed_entries (entries a0) q e z !! k;
  la_file : file (entries (tr_afl (tr s))) (disk (tr s)) q z;
  la_disk : ∀ f, f ≠ fname e → disk (tr s) !! f = disk t0 !! f;
  la_cache : cache_ok (entries (tr_afl (tr s))) (disk (tr s)) (tc s) }.

Lemma keys_file es es' files z : (∀ k, key <$> es' !! k = key <$> es !! k) → file es files q z → file es' files q z.
Proof.
  intros Hk (x & dd & Hx & Hdd & Hl & ->). specialize (Hk q). rewrite Hx in Hk. apply fmap_Some in Hk as (y & Hy & Hkey).
  destruct x, y. unfold key in Hkey. simpl in *. simplify_eq. by eexists _, dd.
Qed.

Lemma unchanged_left s : holding orig s → left_as orig s.
Proof.
  intros Hs. destruct orig_length as [Hl _]. pose proof (hd_afl _ _ Hs) as (n & tb & Htb & Ha). pose proof (hd_block _ _ Hs) as (rest & Hc & Hrest).
  assert (rest = []) as -> by (apply length_zero_iff_nil; lia). rewrite app_nil_r, insert_id in Hc by apply block_orig.
  assert (entries (tr_afl (tr s)) = entries a0) as Hes by (rewrite Ha; simpl; by rewrite Hl, set_len_same, insert_id).
  split.
  - rewrite Ha. by apply scored_holding.
  - intros k. rewrite Hes. unfold trimmed_entries. by rewrite Hl, set_len_same, insert_id.
  - rewrite Hes, (hd_disk _ _ Hs). destruct (Hd q e He) as [_ (d' & Hd' & Hlong)]. by exists e, d'; simplify_eq.
  - by rewrite (hd_disk _ _ Hs).
  - rewrite Hes, (hd_disk _ _ Hs), Hc. by destruct c0.
Qed.

Lemma left_tupd z s f : left_as z s → (∀ t, tr_afl (f t) = tr_afl t ∧ disk (f t) = disk t ∧ runs (f t) = runs t) →
  left_as z (TrimState (f (tr s)) (tc s) (clean_trace s) (no_unlink s)).
Proof. intros [L1 L2 L3 L4 L5] Hf. destruct (Hf (tr s)) as (E1 & E2 & _). split; simpl; by rewrite ?E1, ?E2. Qed.

Lemma trim_builtin_ok rounds fuel s : tr s = t0 → tr_afl t0 = a0 → tc s = c0 → no_unlink s = false → (17 ≤ rounds)%nat → len e < Z.of_nat fuel →
  wp (trim_builtin rounds fuel q p) s (λ _ s', ∃ outs z, runs (tr s') = runs t0 ++ outs ∧ cuts size want (runs t0) orig outs z ∧
    2 * zlen outs ≤ len e ∧ left_as z s').
Proof.
  intros Ht Ha Hc Hu Hrounds Hfuel. pose proof (holding_start s Ht Hc Ha Hu) as Hs. destruct orig_length as [Hol Hpos]. unfold MAX_FILE in *.
  unfold trim_builtin. apply wp_bind, (wp_load_q orig); [done|]. rewrite Hol, set_len_same. case_decide as Hshort.
  { apply wp_ret. exists [], orig. rewrite app_nil_r, Ht. split_and!; [done|constructor|simpl; lia|by apply unchanged_left]. }
  apply wp_bind, wp_in_tr, wp_tupd. set (s1 := TrimState _ _ _ _).
  assert (holding orig s1) as Hs1 by (by apply (holding_tupd orig s (λ t, set_bytes_trim_in (u64 (bytes_trim_in t + len e)) t))).
  pose proof (next_pow2_le (len e) ltac:(lia)) as Hp2. rewrite (wrap_small 32) by lia. set (r := Z.max _ _).
  assert (4 ≤ r ≤ 2 ^ 16) as Hr.
  { unfold r, TRIM_START_STEPS, TRIM_MIN_BYTES. pose proof (Z.div_mod (AflQueue.next_pow2 (len e)) 16 ltac:(lia)).
    pose proof (Z.mod_pos_bound (AflQueue.next_pow2 (len e)) 16 ltac:(lia)). lia. }
  assert (2 ^ 17 ≤ 2 ^ Z.of_nat rounds) as Hpow by (apply Z.pow_le_mono_r; lia).
  apply wp_bind. eapply wp_mono; [apply (trim_rounds_ok fuel rounds r orig s1 0 false); [done|lia|lia|lia|lia|done]|].
  intros [[f ok] nw] s2 [Hok (outs & z & Hruns & Hcuts & Hz & Hbound & Hlast)]. simpl in Hok, Hlast. subst ok. change (runs (tr s1)) with (runs (tr s)) in *. rewrite Ht in *.
  rewrite decide_True in Hbound by lia. assert (2 * zlen outs ≤ len e) as Hb2 by nia.
  apply wp_bind, (wp_load_q z); [done|]. simpl. apply wp_bind. apply (wp_mono _ _ (λ _ s3, runs (tr s3) = runs t0 ++ outs ∧ left_as z s3)).
  - destruct nw.
    + assert (0 < zlen z) as Hz0.
      { pose proof (f_equal length (cuts_head _ _ _ _ _ _ Hcuts)) as Hh. rewrite !length_take in Hh. lia. }
      eapply wp_mono; [by apply finish_ok|]. intros _ s3 (Hr3 & Hs3 & Hd3 & Hk3 & Hc3). split; [by rewrite Hr3|]. split; [done|done| | |done].
      * rewrite Hd3. eapply keys_file; [exact Hk3|]. apply trimmed_file.
        destruct (hd_block _ _ Hz) as (rest & _ & Hrest). unfold MAX_FILE. lia.
      * intros g Hg. rewrite Hd3. by apply lookup_insert_ne.
    + destruct Hlast as [-> _]. apply wp_ret. split; [done|]. by apply unchanged_left.
  - intros [] s3 [Hr3 Hl3]. apply wp_bind, wp_in_tr, wp_tupd, wp_ret. exists outs, z. split; [done|]. split; [done|]. split; [done|].
    apply (left_tupd z s3 (λ t, set_bytes_trim_out (u64 (bytes_trim_out t + zlen z)) t)); [done|]. done.
Qed.
End Trim.

(** ** The theorem *)

(** An entry in use, with its file, whose bytes the cache has handed out at [p]. *)
Record trimmable {S R : Type} `{!Target} (q : loc) (e : queue_entry) (p : addr) (d : list Z) (s : trim_state S R) : Prop := {
  tm_entry : entries (tr_afl (tr s)) !! q = Some e;
  tm_disk : on_disk (entries (tr_afl (tr s))) (disk (tr s));
  tm_own : own_name (entries (tr_afl (tr s))) q e;
  tm_file : disk (tr s) !! fname e = Some d;
  tm_cache : cache_ok (entries (tr_afl (tr s))) (disk (tr s)) (tc s);
  tm_block : testcase_buf (tc s) !! q = Some p;
  tm_scored : scored (tr_afl (tr s));
  tm_map : zlen (trace_bits (tr_afl (tr s))) = map_size (settings (tr_afl (tr s)));
  tm_trace : ∀ l, hash64 l = exec_cksum e → zlen l = map_size (settings (tr_afl (tr s))) → trace_mini e = None ∨
    trace_mini e = Some (minimize_bits (map_size (settings (tr_afl (tr s)))) (replicate (Z.to_nat (Z.shiftr (map_size (settings (tr_afl (tr s)))) 3)) 0) l);
  tm_hooks : direct (tr s);
  tm_unlink : no_unlink s = false }.

(** C8. The built-in trimmer of an entry ends, after at most half as many runs as the input has bytes. Every input it runs is
    the current one without one block behind the first four bytes, and the block is left out for good exactly if the
    trace of that run has the checksum of the entry. What is left starts with the same four bytes; unless nothing was cut
    it was itself run, with that checksum. It is in the entry's file and no other file
    changes; it is in the cache, whose counters remain right; and the table of the best entries is consistent. *)
Theorem trim_case_correct {S R : Type} `{!Host, target : !Target, !CustomTrim S, !Random R, !Runner, !Writer} rounds fuel q e p d (s : trim_state S R) :
  never_refuses → steady (tr_afl (tr s)) → trimmable q e p d s → (17 ≤ rounds)%nat → len e < Z.of_nat fuel →
  let size := map_size (settings (tr_afl (tr s))) in
  let x := take (Z.to_nat (len e)) d in
  ∃ fault s' outs z, trim_case false rounds fuel q p s = Ret (fault, s') ∧ runs (tr s') = runs (tr s) ++ outs ∧ 2 * zlen outs ≤ len e ∧
    cuts size (exec_cksum e) (runs (tr s)) x outs z ∧ take 4 z = take 4 x ∧
    (z = x ∨ ∃ o1 o2, outs = o1 ++ z :: o2 ∧ trace_sum size (runs (tr s) ++ o1) z = exec_cksum e) ∧
    left_as q e (tr_afl (tr s)) (tr s) z s'.
Proof.
  intros Hn Hst [T1 T2 T3 T4 T5 T6 T7 T8 T9 T10 T11] Hr Hf. destruct (T2 q e T1) as [Hl _].
  destruct (proj1 (wp_Ret _ _ _) (trim_builtin_ok q e p (tr_afl (tr s)) (tr s) (tc s) Hn T10 Hst T1 ltac:(lia) d T2 T5 T3 T6 T4 T7 T8 T9
    rounds fuel s eq_refl eq_refl eq_refl T11 Hr Hf)) as (fault & s' & Hret & outs & z & Hruns & Hcuts & Hb & Hleft).
  exists fault, s', outs, z. split; [done|]. split; [done|]. split; [done|]. split; [done|].
  split; [by eapply cuts_head|]. split; [by apply cuts_last|done].
Qed.

(** ** Witness *)

#[local] Existing Instances counter quiet_runner.

(** The trace tells whether the byte 88 is in the input. *)
#[local] Instance finds_88 : Target := {|
  run_target past x := (0, [if decide (88 ∈ x) then 1 else 2]);
  stop_soon _ := false;
  hash64 := le_value |}.

#[local] Instance no_trim : CustomTrim unit := {| init_trim _ _ := mret 0; trim := mret (0, None); post_trim _ := mret 0 |}.
#[local] Instance whole_writer : Writer := {| accepted _ n := n |}.

Definition trim_bytes : list Z := [1; 2; 3; 4; 5; 6; 7; 8; 9; 88; 10; 11].
Definition trim_entry : queue_entry := QueueEntry "queue/id:0" 12 false false false false 0 0 5 1 None 0.
Definition trim_world : queue_state := ({[1%positive := trim_entry]}, {["queue/id:0" := trim_bytes]}).

Definition trim_afl : afl_state :=
  AflState (Config EXPLORE false [] 8 false) (replicate 8 0) (replicate 8 None) [1%positive] trim_world.1 false 0 0 (replicate 8 0) ∅ 1.

Definition trim_cache : testcache Z :=
  match cache_run (H := obliging) 3 3 [Select 1%positive; Get 1%positive] (Session trim_world.1 trim_world.2 None (new_cache 0 (3 * MAX_FILE) 3)) with
  | Ret (_, s) => cache s
  | _ => new_cache 0 0 0
  end.

Definition trim_start : trim_state unit Z :=
  TrimState (Trimmer trim_afl tt 0 0 0 0 0 [] [Hook None false] 1 MAX_FILE trim_world.2 [] []) trim_cache [] false.

Lemma trim_world_one q e : trim_world.1 !! q = Some e → 1%positive = q ∧ trim_entry = e.
Proof. intros He. unfold trim_world in He. simpl in He. by apply lookup_singleton_Some in He. Qed.

Lemma trim_world_ok : queue_ok trim_world.
Proof.
  split.
  - intros q e [<- <-]%trim_world_one. split; [by vm_compute|]. exists trim_bytes. split; [reflexivity|by vm_compute].
  - by intros q q' e e' [<- <-]%trim_world_one [<- <-]%trim_world_one _.
Qed.

Lemma trim_cache_ok : cache_ok trim_world.1 trim_world.2 trim_cache.
Proof.
  assert (refines 3 3 (Session trim_world.1 trim_world.2 None (new_cache 0 (3 * MAX_FILE) 3)) trim_world) as Hs.
  { split; [done|exact trim_world_ok|apply new_cache_ok; by vm_compute|by vm_compute|exact counter_fair_3]. }
  pose proof (cache_run_ok (H := obliging) 3 3 ltac:(done) [Select 1%positive; Get 1%positive] _ trim_world [trim_bytes] trim_world Hs eq_refl) as Hrun.
  unfold wp in Hrun. unfold trim_cache. destruct (cache_run _ _ _ _) as [[r s]| |]; [|done..]. destruct Hrun as [_ [_ _ Hc _ _]]. exact Hc.
Qed.

Lemma trim_start_ok : trimmable 1%positive trim_entry 1%positive trim_bytes trim_start.
Proof.
  split; try done.
  - exact (proj1 trim_world_ok).
  - by intros k e [<- <-]%trim_world_one _.
  - exact trim_cache_ok.
  - split; [by vm_compute|by vm_compute|done| |].
    + intros p e [<- <-]%trim_world_one. split; [done|]. unfold counted_fuzz, FAST, RARE. simpl. unfold EXPLORE. lia.
    + intros i p. simpl. intros Hi%(list_elem_of_lookup_2 _ i). simpl in Hi. exfalso. revert Hi. rewrite !elem_of_cons. intros Hi. destruct_or! Hi; [done..|]. by apply elem_of_nil in Hi.
  - by left.
  - by repeat constructor.
Qed.

(** The first cut leaves the byte 88, the second one does not. *)
Lemma trim_case_correct_witness :
  trimmable 1%positive trim_entry 1%positive trim_bytes trim_start ∧
  ∃ fault s' outs z, trim_case (H := obliging) false 17 13 1%positive 1%positive trim_start = Ret (fault, s') ∧ runs (tr s') = outs ∧ 2 * zlen outs ≤ 12 ∧
    cuts 8 1 [] trim_bytes outs z ∧ take 4 z = [1; 2; 3; 4] ∧
    (z = trim_bytes ∨ ∃ o1 o2, outs = o1 ++ z :: o2 ∧ trace_sum 8 o1 z = 1) ∧
    left_as 1%positive trim_entry trim_afl (tr trim_start) z s'.
Proof.
  split; [exact trim_start_ok|].
  apply (trim_case_correct (H := obliging) 17 13 1%positive trim_entry 1%positive trim_bytes trim_start).
  - done.
  - by intros past x.
  - exact trim_start_ok.
  - lia.
  - by vm_compute.
Defined.

Example trim_case_example :
  ∃ s', trim_case (H := obliging) false 17 13 1%positive 1%positive trim_start = Ret (0, s') ∧
    disk (tr s') = {["queue/id:0" := [1; 2; 3; 4; 9; 88; 10; 11]]} ∧ cache_size (tc s') = 8 ∧
    runs (tr s') = [[1; 2; 3; 4; 9; 88; 10; 11]; [1; 2; 3; 4]].
Proof. eexists. split; [vm_compute; reflexivity|]. by vm_compute. Qed.

(** With the option [no_unlink], a [write] that takes half of the bytes is followed by one of the same bytes. *)
Example partial_writes_repeat (s : trim_state unit Z) :
  write_loop (H1 := {| accepted _ n := Z.min n 2 |}) 5 0 [1; 2; 3; 4] 4 0 [] s = Ret ([1; 2; 1; 2], s).
Proof. reflexivity. Qed.
