(* ===== verification/AflSave.v ===== *)
(** * AflSave: [save_if_interesting] of AFLplusplus/src/afl-fuzz-bitmap.c

    What becomes of an input after its run: it joins the queue when the coverage is new,
    a crash or a hang is kept when the simplified trace has bits that no crash or hang
    before it had.  The trace and the three virgin maps are words, as in AflBitmap.
    Calibration and the run with the longer timeout are the interface [Rerun].  Left out: the names of
    the files, the times of the last crash and hang, the note and the command for new crashes, and
    the call that puts a new entry into the cache of AflCache. *)

From S2P Require Import Prelude AflBitmap AflQueue AflTrim.

Definition KEEP_UNIQUE_HANG : Z := 500.
Definition KEEP_UNIQUE_CRASH : Z := 10000.
Definition N_FUZZ_SIZE : Z := Z.shiftl 1 21.
Definition FSRV_RUN_TMOUT : Z := 1.
Definition FSRV_RUN_CRASH : Z := 2.

(** The [n]-th of these runs: [slow_target] is [fuzz_run_target] with [hang_tmout], with the
    result, the words of the map and [stop_soon] after it; [calibrate_case] gives its result
    and the map that it leaves. *)
Class Rerun := {
  slow_target : nat → list Z → Z * list Z * bool;
  calibrate_case : nat → list Z → Z * list Z }.

(** A new entry of the queue: [op] is the number that names the operation in its file name. *)
Record found := Found { contents : list Z; op : Z; has_new_cov : bool; found_cksum : Z; found_n_fuzz : Z }.

(** What the function only reads. *)
Record limits := Limits {
  power_schedule : Z;
  crash_mode : Z;
  trace_size : Z;
  real_map_size : Z;
  uninstrumented : bool;
  ignore_timeouts : bool;
  keep_timeouts : bool;
  exec_tmout : Z;
  hang_tmout : Z }.

(** [n_fuzz] is the array, zero where the map is silent; [hangs] and [crashes] are the files in these
    directories, in the order of their numbers; [reruns] counts the runs of [Rerun]. *)
Record saver (S : Type) := Saver {
  tr : trimmer S;
  trace : list Z;
  virgin_bits : list Z;
  virgin_tmout : list Z;
  virgin_crash : list Z;
  n_fuzz : gmap Z Z;
  new_entries : list found;
  queued_with_cov : Z;
  total_crashes : Z;
  saved_crashes : Z;
  crashes : list (list Z);
  total_tmouts : Z;
  saved_hangs : Z;
  hangs : list (list Z);
  saved_tmouts : Z;
  reruns : nat }.
Arguments Saver {S}.
Arguments tr {S} s.
Arguments trace {S} s.
Arguments virgin_bits {S} s.
Arguments virgin_tmout {S} s.
Arguments virgin_crash {S} s.
Arguments n_fuzz {S} s.
Arguments new_entries {S} s.
Arguments queued_with_cov {S} s.
Arguments total_crashes {S} s.
Arguments saved_crashes {S} s.
Arguments crashes {S} s.
Arguments total_tmouts {S} s.
Arguments saved_hangs {S} s.
Arguments hangs {S} s.
Arguments saved_tmouts {S} s.
Arguments reruns {S} s.

(** The local variables. *)
Record locals := Locals { new_bits : Z; keeping : Z; classified : bool; is_timeout : Z; need_hash : bool; cksum : Z }.

Section Save.
Context {S : Type} `{!Host, target : !Target, !Rerun} (cf : limits).

Definition set_tr (v : trimmer S) (s : saver S) : saver S := Saver v (trace s) (virgin_bits s) (virgin_tmout s) (virgin_crash s) (n_fuzz s)
  (new_entries s) (queued_with_cov s) (total_crashes s) (saved_crashes s) (crashes s) (total_tmouts s) (saved_hangs s) (hangs s) (saved_tmouts s) (reruns s).
Definition set_trace (v : list Z) (n : nat) (s : saver S) : saver S := Saver (tr s) v (virgin_bits s) (virgin_tmout s) (virgin_crash s) (n_fuzz s)
  (new_entries s) (queued_with_cov s) (total_crashes s) (saved_crashes s) (crashes s) (total_tmouts s) (saved_hangs s) (hangs s) (saved_tmouts s) n.
Definition set_virgin (b t c : list Z) (s : saver S) : saver S := Saver (tr s) (trace s) b t c (n_fuzz s)
  (new_entries s) (queued_with_cov s) (total_crashes s) (saved_crashes s) (crashes s) (total_tmouts s) (saved_hangs s) (hangs s) (saved_tmouts s) (reruns s).
Definition set_n_fuzz (v : gmap Z Z) (s : saver S) : saver S := Saver (tr s) (trace s) (virgin_bits s) (virgin_tmout s) (virgin_crash s) v
  (new_entries s) (queued_with_cov s) (total_crashes s) (saved_crashes s) (crashes s) (total_tmouts s) (saved_hangs s) (hangs s) (saved_tmouts s) (reruns s).
Definition add_found (f : found) (s : saver S) : saver S := Saver (tr s) (trace s) (virgin_bits s) (virgin_tmout s) (virgin_crash s) (n_fuzz s)
  (new_entries s ++ [f]) (if has_new_cov f then u32 (queued_with_cov s + 1) else queued_with_cov s) (total_crashes s) (saved_crashes s) (crashes s)
  (total_tmouts s) (saved_hangs s) (hangs s) (saved_tmouts s) (reruns s).
Definition set_crashes (total saved : Z) (files : list (list Z)) (s : saver S) : saver S := Saver (tr s) (trace s) (virgin_bits s) (virgin_tmout s)
  (virgin_crash s) (n_fuzz s) (new_entries s) (queued_with_cov s) total saved files (total_tmouts s) (saved_hangs s) (hangs s) (saved_tmouts s) (reruns s).
Definition set_hangs (total saved : Z) (files : list (list Z)) (tmouts : Z) (s : saver S) : saver S := Saver (tr s) (trace s) (virgin_bits s)
  (virgin_tmout s) (virgin_crash s) (n_fuzz s) (new_entries s) (queued_with_cov s) (total_crashes s) (saved_crashes s) (crashes s) total saved files tmouts (reruns s).

Definition supd (f : saver S → saver S) : M (saver S) unit := s ← get_state; put_state (f s).

Definition in_tr {A} (m : M (trimmer S) A) : M (saver S) A := λ s,
  match m (tr s) with Ret (a, t) => Ret (a, set_tr t s) | Fault e => Fault e | NoFuel => NoFuel end.

(** [open] and [ck_write]; without success the process ends. *)
Definition written (mem : list Z) (len : Z) : M (saver S) (list Z) :=
  _ ← in_tr must; _ ← in_tr must; in_tr (first_bytes len mem).

(** The trace in classes, unless it is already. *)
Definition classify (done : bool) : M (saver S) unit :=
  if done then mret tt else supd (λ s, set_trace (classify_counts (trace_size cf) (trace s)) (reruns s) s).

Definition trace_hash (s : saver S) : Z := hash64 (take (Z.to_nat (trace_size cf)) (bytes (trace s))).

(** ** The queue *)

(** "Update path frequency". *)
Definition count_path : M (saver S) Z :=
  _ ← classify false;
  s ← get_state;
  let cksum := trace_hash s in
  let i := cksum mod N_FUZZ_SIZE in
  let n := default 0 (n_fuzz s !! i) in
  _ ← (if decide (n < 0xFFFFFFFF) then supd (set_n_fuzz (<[i := n + 1]> (n_fuzz s))) else mret tt);
  mret cksum.

(** The label [save_to_queue]. *)
Definition save_to_queue (mem : list Z) (len : Z) (v : locals) : M (saver S) locals :=
  data ← written mem len;
  s ← get_state;
  let hashed := need_hash v && bool_decide (new_bits v ≠ 0) in
  let counted := bool_decide (cksum v ≠ 0) in
  let i := cksum v mod N_FUZZ_SIZE in
  _ ← supd (add_found (Found data (new_bits v + is_timeout v) (bool_decide (new_bits v = 2))
              (if hashed then trace_hash s else 0) (if counted then i else 0)));
  _ ← (if counted then supd (λ s, set_n_fuzz (<[i := 1]> (n_fuzz s)) s) else mret tt);
  s ← get_state;
  let r := calibrate_case (reruns s) mem in
  _ ← supd (set_trace r.2 (Datatypes.S (reruns s)));
  if decide (r.1 = FSRV_RUN_ERROR) then fail ProcessExit else
  mret (Locals (new_bits v) 1 (classified v) (is_timeout v) (need_hash v && negb hashed) (cksum v)).

(** ** Crashes and hangs *)

(** The trace simplified: whether it has bits that the virgin map [pick] still has. *)
Definition unique_trace (v : locals) (pick : saver S → list Z) (put : list Z → saver S → saver S) : M (saver S) bool :=
  if uninstrumented cf then mret true else
  _ ← classify (classified v);
  _ ← supd (λ s, set_trace (simplify_trace (trace_size cf) (trace s)) (reruns s) s);
  s ← get_state;
  let '(r, virgin) := has_new_bits (real_map_size cf) (trace s) (pick s) in
  _ ← supd (put virgin);
  mret (negb (bool_decide (r = 0))).

Definition put_crash (virgin : list Z) (s : saver S) : saver S := set_virgin (virgin_bits s) (virgin_tmout s) virgin s.
Definition put_tmout (virgin : list Z) (s : saver S) : saver S := set_virgin (virgin_bits s) virgin (virgin_crash s) s.

Definition keep_as_crash (mem : list Z) (len : Z) (v : locals) : M (saver S) Z :=
  _ ← supd (λ s, set_crashes (u64 (total_crashes s + 1)) (saved_crashes s) (crashes s) s);
  s ← get_state;
  if decide (KEEP_UNIQUE_CRASH ≤ saved_crashes s) then mret (keeping v) else
  new ← unique_trace v virgin_crash put_crash;
  if negb new then mret (keeping v) else
  _ ← supd (λ s, set_crashes (total_crashes s) (u64 (saved_crashes s + 1)) (crashes s) s);
  data ← written mem len;
  _ ← supd (λ s, set_crashes (total_crashes s) (saved_crashes s) (crashes s ++ [data]) s);
  mret (keeping v).

Definition keep_as_hang (mem : list Z) (len : Z) (v : locals) : M (saver S) Z :=
  _ ← supd (λ s, set_hangs (total_tmouts s) (u64 (saved_hangs s + 1)) (hangs s) (saved_tmouts s) s);
  data ← written mem len;
  _ ← supd (λ s, set_hangs (total_tmouts s) (saved_hangs s) (hangs s ++ [data]) (saved_tmouts s) s);
  mret (keeping v).

(** The input with the longer timeout: [mem] and [len] after [write_to_testcase], the result and
    [stop_soon]. *)
Definition run_again (mem : list Z) (len : Z) : M (saver S) (list Z * Z * Z * bool) :=
  r ← in_tr (write_to_testcase mem len false);
  r ← (if decide (r.1 = 0) then in_tr (write_to_testcase r.2 len true) else mret r);
  s ← get_state;
  let '(fault, words, stop) := slow_target (reruns s) (input (tr s)) in
  _ ← supd (set_trace (classify_counts (trace_size cf) words) (Datatypes.S (reruns s)));
  mret (r.2, r.1, fault, stop).

(** [switch (fault)]; [goto save_to_queue] comes back to it. *)
Fixpoint judge (fuel : nat) (fault : Z) (mem : list Z) (len : Z) (v : locals) : M (saver S) Z :=
  match fuel with
  | O => out_of_fuel
  | Datatypes.S fuel =>
      if decide (fault = FSRV_RUN_TMOUT) then
        _ ← supd (λ s, set_hangs (u64 (total_tmouts s + 1)) (saved_hangs s) (hangs s) (saved_tmouts s) s);
        s ← get_state;
        if decide (KEEP_UNIQUE_HANG ≤ saved_hangs s) then mret (keeping v) else
        new ← unique_trace v virgin_tmout put_tmout;
        if negb new then mret (keeping v) else
        let v := Locals (new_bits v) (keeping v) (classified v || negb (uninstrumented cf)) 0x80 (need_hash v) (cksum v) in
        if decide (hang_tmout cf ≤ exec_tmout cf) then keep_as_hang mem len v else
        '(mem, len, new_fault, stop) ← run_again mem len;
        if negb stop && bool_decide (new_fault = FSRV_RUN_CRASH) then keep_as_crash mem len v
        else if stop || negb (bool_decide (new_fault = FSRV_RUN_TMOUT)) then
          if keep_timeouts cf then
            _ ← supd (λ s, set_hangs (total_tmouts s) (saved_hangs s) (hangs s) (u64 (saved_tmouts s + 1)) s);
            v ← save_to_queue mem len v;
            judge fuel fault mem len v
          else mret (keeping v)
        else keep_as_hang mem len v
      else if decide (fault = FSRV_RUN_CRASH) then keep_as_crash mem len v
      else if decide (fault = FSRV_RUN_ERROR) then fail ProcessExit
      else mret (keeping v)
  end.

(** ** The function *)

(** Whether the coverage is new: the answer of [has_new_bits], or of the one that classifies on the way. *)
Definition new_coverage (done : bool) : M (saver S) (Z * bool) :=
  s ← get_state;
  if done then
    let '(r, virgin) := has_new_bits (real_map_size cf) (trace s) (virgin_bits s) in
    _ ← supd (λ s, set_virgin virgin (virgin_tmout s) (virgin_crash s) s);
    mret (r, true)
  else
    let '(r, words, virgin) := has_new_bits_unclassified (trace_size cf) (real_map_size cf) (trace s) (virgin_bits s) in
    _ ← supd (λ s, set_virgin virgin (virgin_tmout s) (virgin_crash s) (set_trace words (reruns s) s));
    mret (r, negb (bool_decide (r = 0))).

Definition save_if_interesting (fuel : nat) (mem : list Z) (len fault : Z) : M (saver S) Z :=
  if decide (len = 0) then mret 0 else
  if decide (fault = FSRV_RUN_TMOUT ∧ ignore_timeouts cf = true) then mret 0 else
  let special := bool_decide (FAST ≤ power_schedule cf ≤ RARE) in
  cksum ← (if special then count_path else mret 0);
  if decide (fault = crash_mode cf) then
    r ← new_coverage special;
    if decide (r.1 = 0) then
      _ ← (if decide (crash_mode cf ≠ 0) then supd (λ s, set_crashes (u64 (total_crashes s + 1)) (saved_crashes s) (crashes s) s) else mret tt);
      mret 0
    else
      v ← save_to_queue mem len (Locals r.1 0 r.2 0 (negb special) cksum);
      judge fuel fault mem len v
  else judge fuel fault mem len (Locals 0 0 special 0 (negb special) cksum).
End Save.
