(* ===== verification/AflSaveSpec.v ===== *)
(** * AflSaveSpec: what is kept is bounded by what was pristine

    An input joins the queue, the hangs or the crashes only if its trace clears a bit of a
    virgin map.  So a session keeps no more than these maps have bits, and the jumps back
    in [save_if_interesting] come to an end, except without instrumentation. *)

From S2P Require Import Prelude AflBitmap AflQueue AflTrim AflSave.

(** ** Bits *)

Lemma popcount_step n v : popcount (S n) v = Z.b2z (Z.testbit v 0) + popcount n (Z.shiftr v 1).
Proof. cbn [popcount]. by rewrite Z.bit0_mod, Z.shiftr_div_pow2 by lia. Qed.

Lemma popcount_mono n : ∀ a b, (∀ i, 0 ≤ i → Z.testbit a i = true → Z.testbit b i = true) →
  popcount n a ≤ popcount n b ∧ ((∃ i, 0 ≤ i < Z.of_nat n ∧ Z.testbit b i = true ∧ Z.testbit a i = false) → popcount n a < popcount n b).
Proof.
  induction n as [|n IH]; intros a b Hab; [split; [done|intros (i & Hi & _); lia]|]. rewrite !popcount_step.
  destruct (IH (Z.shiftr a 1) (Z.shiftr b 1)) as [Hle Hlt].
  { intros i Hi. rewrite !Z.shiftr_spec by done. apply Hab. lia. }
  specialize (Hab 0 ltac:(done)) as H0. split; [destruct (Z.testbit a 0), (Z.testbit b 0); simpl; naive_solver lia|].
  intros (i & Hi & Hb & Ha). destruct (decide (i = 0)) as [->|].
  - rewrite Ha, Hb. simpl. lia.
  - assert (popcount n (Z.shiftr a 1) < popcount n (Z.shiftr b 1)).
    { apply Hlt. exists (i - 1). rewrite !Z.shiftr_spec by lia. replace (i - 1 + 1) with i by lia. split; [lia|done]. }
    destruct (Z.testbit a 0), (Z.testbit b 0); simpl; naive_solver lia.
Qed.

Lemma popcount_nonneg n : ∀ v, 0 ≤ popcount n v.
Proof. induction n as [|n IH]; intros v; [done|]. rewrite popcount_step. specialize (IH (Z.shiftr v 1)). by destruct (Z.testbit v 0); simpl; lia. Qed.

Lemma popcount_clear c v : word_ok v → popcount 64 (clear c v) ≤ popcount 64 v ∧ (Z.land c v ≠ 0 → popcount 64 (clear c v) < popcount 64 v).
Proof.
  intros Hv. destruct (popcount_mono 64 (clear c v) v) as [Hle Hlt].
  { intros i Hi. rewrite clear_bits by done. by intros [? _]%andb_true_iff. }
  split; [done|]. intros Hl. apply Hlt. assert (0 ≤ Z.land c v) as H0 by (apply Z.land_nonneg; right; apply Hv).
  pose proof (Z.bit_log2 (Z.land c v) ltac:(lia)) as Hbit. set (i := Z.log2 _) in *. assert (0 ≤ i) as Hi by apply Z.log2_nonneg.
  exists i. rewrite clear_bits by done. rewrite Z.land_spec in Hbit. apply andb_true_iff in Hbit as [-> Hvi]. rewrite Hvi. split; [|done].
  split; [done|]. destruct (decide (i < 64)); [lia|]. exfalso. rewrite Z.bits_above_log2 in Hvi; [done|apply Hv|].
  destruct (decide (v = 0)) as [->|]; [simpl; lia|]. assert (Z.log2 v < 64) by (apply Z.log2_lt_pow2; unfold word_ok in Hv; lia). lia.
Qed.

(** The bits that a virgin map still has. *)
Definition bits_left (l : list Z) : Z := zsum (map (popcount 64) l).

#[local] Arguments bits_left : simpl never.

Lemma bits_left_nonneg l : 0 ≤ bits_left l.
Proof. induction l as [|v l IH]; [done|]. change (bits_left (v :: l)) with (popcount 64 v + bits_left l). pose proof (popcount_nonneg 64 v). lia. Qed.

Lemma bits_left_app l l' : bits_left (l ++ l') = bits_left l + bits_left l'.
Proof.
  induction l as [|v l IH]; [done|]. change (bits_left ((v :: l) ++ l')) with (popcount 64 v + bits_left (l ++ l')).
  change (bits_left (v :: l)) with (popcount 64 v + bits_left l). lia.
Qed.

Lemma clear_bits_left cs : ∀ vs, Forall word_ok vs → length cs = length vs →
  bits_left (zip_with clear cs vs) ≤ bits_left vs ∧ (verdicts cs vs ≠ 0 → bits_left (zip_with clear cs vs) < bits_left vs).
Proof.
  induction cs as [|c cs IH]; intros [|v vs] Hok Hl; try done. apply Forall_cons in Hok as [Hv Hok]. simpl in Hl.
  destruct (IH vs Hok ltac:(lia)) as [Hle Hlt]. destruct (popcount_clear c v Hv) as [Hcle Hclt].
  change (bits_left (?x :: ?m)) with (popcount 64 x + bits_left m). simpl zip_with. change (bits_left (?x :: ?m)) with (popcount 64 x + bits_left m).
  split; [lia|]. intros Hver. destruct (decide (Z.land c v = 0)) as [Hz|Hz]; [|specialize (Hclt Hz); lia].
  assert (verdicts cs vs ≠ 0) as Hrest; [|specialize (Hlt Hrest); lia].
  intros Hrest. apply Hver. unfold verdicts in *. simpl. rewrite Hrest. unfold verdict. by rewrite decide_True.
Qed.

Lemma new_bits_left size cs vs r vs' : qword_count size ≤ zlen cs → qword_count size ≤ zlen vs → Forall word_ok vs → has_new_bits size cs vs = (r, vs') →
  Forall word_ok vs' ∧ length vs' = length vs ∧ bits_left vs' ≤ bits_left vs ∧ (r ≠ 0 → bits_left vs' < bits_left vs).
Proof.
  intros Hc Hv Hok. unfold has_new_bits. set (n := Z.to_nat (qword_count size)). rewrite new_bits_loop_eq by (done || lia). intros [= <- <-].
  destruct (clear_zip_idem (take n cs) (take n vs)) as (_ & Hw & _); [by apply Forall_take|].
  destruct (clear_bits_left (take n cs) (take n vs)) as [Hle Hlt]; [by apply Forall_take|rewrite !length_take; lia|].
  split; [apply Forall_app; split; [done|by apply Forall_drop]|].
  split; [rewrite length_app, length_zip_with, !length_take, length_drop; lia|].
  assert (bits_left vs = bits_left (take n vs) + bits_left (drop n vs)) as E by (by rewrite <- bits_left_app, take_drop).
  rewrite bits_left_app. split; [lia|]. intros Hr. pose proof (verdicts_range (take n cs) (take n vs)). lia.
Qed.

Lemma classify_length size t : zlen (classify_counts size t) = zlen t.
Proof. unfold classify_counts, over_words. by rewrite length_app, length_map, <- length_app, take_drop. Qed.

(** ** The invariant *)

Section Spec.
Context {S : Type} `{!Host, target : !Target, !Rerun} (cf : limits).

(** The maps have their size, the counters count the files, and no mutator changes an input on its way to the target. *)
Record saver_ok (s : saver S) : Prop := {
  so_trace : qword_count (real_map_size cf) ≤ zlen (trace s);
  so_bits : qword_count (real_map_size cf) ≤ zlen (virgin_bits s) ∧ Forall word_ok (virgin_bits s);
  so_tmout : qword_count (real_map_size cf) ≤ zlen (virgin_tmout s) ∧ Forall word_ok (virgin_tmout s);
  so_crash : qword_count (real_map_size cf) ≤ zlen (virgin_crash s) ∧ Forall word_ok (virgin_crash s);
  so_crashes : saved_crashes s = zlen (crashes s) ∧ zlen (crashes s) ≤ KEEP_UNIQUE_CRASH;
  so_hangs : saved_hangs s = zlen (hangs s) ∧ zlen (hangs s) ≤ KEEP_UNIQUE_HANG;
  so_mutators : hooks (tr s) = [] ∧ min_length (tr s) ≤ 1 ∧ 0 < max_length (tr s) }.

(** What is kept and could still be kept, of the queue and the hangs, and of the crashes. *)
Definition room (s : saver S) : Z := zlen (new_entries s) + zlen (hangs s) + bits_left (virgin_bits s) + bits_left (virgin_tmout s).
Definition crash_room (s : saver S) : Z := zlen (crashes s) + bits_left (virgin_crash s).

(** From [s] to [s']: nothing is lost, and what is new has used up bits. *)
Record grows (s s' : saver S) : Prop := {
  gr_entries : new_entries s `prefix_of` new_entries s';
  gr_hangs : hangs s `prefix_of` hangs s';
  gr_crashes : crashes s `prefix_of` crashes s';
  gr_crash_room : crash_room s' ≤ crash_room s;
  gr_tmout : bits_left (virgin_tmout s') ≤ bits_left (virgin_tmout s) }.

#[global] Instance grows_preorder : PreOrder grows.
Proof.
  split; [by split|]. intros a b c [A1 A2 A3 A4 A5] [B1 B2 B3 B4 B5]. split; try (by etrans); lia.
Qed.

(** The calls outside leave maps of the right size and do not fail. *)
Definition reruns_ok : Prop := ∀ k x,
  qword_count (real_map_size cf) ≤ zlen (slow_target k x).1.2 ∧ qword_count (real_map_size cf) ≤ zlen (calibrate_case k x).2 ∧
  (calibrate_case k x).1 ≠ FSRV_RUN_ERROR.

Context (Hn : never_refuses) (Hreruns : reruns_ok).

(** ** The pieces *)

Lemma wp_saver f (s : saver S) (Q : unit → saver S → Prop) : Q tt (f s) → wp (supd f) s Q.
Proof. done. Qed.

Lemma wp_in_trimmer {A} (m : M (trimmer S) A) (s : saver S) (Q : A → saver S → Prop) : wp m (tr s) (λ a t, Q a (set_tr t s)) → wp (in_tr m) s Q.
Proof. unfold wp, in_tr. by destruct (m (tr s)) as [[a t]| |]. Qed.

(** Another trimmer with the same mutators. *)
Definition same_tr (t t' : trimmer S) : Prop := hooks t' = hooks t ∧ min_length t' = min_length t ∧ max_length t' = max_length t.

Lemma wp_written mem len (s : saver S) (Q : list Z → saver S → Prop) : len ≤ zlen mem →
  (∀ t, same_tr (tr s) t → Q (take (Z.to_nat len) mem) (set_tr t s)) → wp (written mem len) s Q.
Proof.
  intros Hl HQ. unfold written. do 2 (apply wp_bind, wp_in_trimmer; unfold must, request; apply wp_bind, wp_in_afl, wp_bind, wp_get, wp_bind, wp_put, wp_ret; rewrite Hn; apply wp_ret).
  apply wp_in_trimmer. unfold first_bytes. rewrite decide_True by done. by apply wp_ret, HQ.
Qed.

Lemma wp_classify b (s : saver S) (Q : unit → saver S → Prop) :
  (∀ w, zlen w = zlen (trace s) → Q tt (set_trace w (reruns s) s)) → wp (classify cf b) s Q.
Proof.
  intros HQ. unfold classify. destruct b; [apply wp_ret; specialize (HQ (trace s) eq_refl); by destruct s|]. apply wp_saver, HQ, classify_length.
Qed.

(** The test for a unique trace uses up a bit when it succeeds on an instrumented target. *)
Lemma wp_unique v pick put (s : saver S) (Q : bool → saver S → Prop) :
  (∀ w n s, pick (set_trace w n s) = pick s) → put (pick s) (set_trace (trace s) (reruns s) s) = s →
  saver_ok s → qword_count (real_map_size cf) ≤ zlen (pick s) → Forall word_ok (pick s) →
  (∀ b w vs, zlen w = zlen (trace s) → Forall word_ok vs → length vs = length (pick s) → bits_left vs ≤ bits_left (pick s) →
    (b = true → uninstrumented cf = false → bits_left vs < bits_left (pick s)) → Q b (put vs (set_trace w (reruns s) s))) →
  wp (unique_trace cf v pick put) s Q.
Proof.
  intros Hpick Hput Hs Hsize Hok HQ. unfold unique_trace. destruct (uninstrumented cf).
  { apply wp_ret. rewrite <- Hput. by apply HQ. }
  apply wp_bind, wp_classify. intros w Hw. apply wp_bind, wp_saver. apply wp_bind, wp_get. simpl. rewrite !Hpick.
  set (w2 := simplify_trace _ w). assert (zlen w2 = zlen (trace s)) as Hw2.
  { rewrite <- Hw. unfold w2, simplify_trace, over_words. by rewrite length_app, length_map, <- length_app, take_drop. }
  destruct (has_new_bits (real_map_size cf) w2 (pick s)) as [r vs] eqn:E.
  pose proof (so_trace _ Hs). destruct (new_bits_left (real_map_size cf) w2 (pick s) r vs) as (Hvs & Hl & Hle & Hlt); [lia|done..|].
  apply wp_bind, wp_saver, wp_ret. apply (HQ _ w2 vs); try done. intros Hr%negb_true_iff%bool_decide_eq_false _. by apply Hlt.
Qed.

Lemma room_crash mem len v (s : saver S) : saver_ok s → len ≤ zlen mem →
  wp (keep_as_crash cf mem len v) s (λ r s', r = keeping v ∧ saver_ok s' ∧ new_entries s' = new_entries s ∧ hangs s' = hangs s ∧
    virgin_bits s' = virgin_bits s ∧ virgin_tmout s' = virgin_tmout s ∧ (uninstrumented cf = false → grows s s')).
Proof.
  intros Hs Hl. pose proof Hs as [H1' H2' H3' [Hvc1 Hvc2] [Hc1 Hc2] H6' H7']. unfold keep_as_crash. apply wp_bind, wp_saver, wp_bind, wp_get. simpl.
  case_decide as Hfull; [apply wp_ret; by split_and!|]. apply wp_bind. apply wp_unique; [done|done|done|done|done|].
  intros b w vs Hw Hvs Hlen Hle Hlt. simpl in *. destruct b; simpl.
  - apply wp_bind, wp_saver. apply wp_bind, wp_written; [done|]. intros t (T1 & T2 & T3). apply wp_bind, wp_saver, wp_ret. simpl in *.
    split; [done|]. split; [split; simpl; rewrite ?T1, ?T2, ?T3; try done; [lia|split; [by rewrite Hlen|done]|]|].
    + unfold KEEP_UNIQUE_CRASH in *. rewrite length_app, wrap_small by lia. simpl. lia.
    + split_and!; try done. intros Hi. split; simpl; try done; [by apply prefix_app_r|]. unfold crash_room. simpl. rewrite length_app. simpl. specialize (Hlt eq_refl Hi). lia.
  - apply wp_ret. simpl. split; [done|]. split; [split; simpl; try done; [lia|split; [by rewrite Hlen|done]]|].
    split_and!; try done. intros Hi. split; try done. unfold crash_room. simpl. lia.
Qed.

Lemma room_hang mem len v (s : saver S) : saver_ok s → len ≤ zlen mem → saved_hangs s < KEEP_UNIQUE_HANG →
  wp (keep_as_hang mem len v) s (λ r s', r = keeping v ∧ saver_ok s' ∧ grows s s' ∧ new_entries s' = new_entries s ∧ room s' = room s + 1).
Proof.
  intros Hs Hl Hfull. pose proof Hs as [H1' H2' H3' H4' H5' [Hc1 Hc2] H7']. unfold keep_as_hang, KEEP_UNIQUE_HANG in *. apply wp_bind, wp_saver.
  apply wp_bind, wp_written; [done|]. intros t (T1 & T2 & T3). apply wp_bind, wp_saver, wp_ret. simpl in *.
  split; [done|]. split; [split; simpl; rewrite ?T1, ?T2, ?T3; try done|].
  - rewrite length_app, wrap_small by lia. simpl. unfold KEEP_UNIQUE_HANG. lia.
  - split; [split; simpl; try done; by apply prefix_app_r|]. split; [done|]. unfold room. simpl. rewrite length_app. simpl. lia.
Qed.

(** The entry that [save_to_queue] adds, and the state with it. *)
Definition new_entry mem len v (s : saver S) : found :=
  Found (take (Z.to_nat len) mem) (new_bits v + is_timeout v) (bool_decide (new_bits v = 2))
    (if need_hash v && bool_decide (new_bits v ≠ 0) then trace_hash cf s else 0) (if decide (cksum v = 0) then 0 else cksum v mod N_FUZZ_SIZE).

Definition with_entry mem len v (s : saver S) : saver S :=
  let s' := add_found (new_entry mem len v s) s in
  if decide (cksum v = 0) then s' else set_n_fuzz (<[cksum v mod N_FUZZ_SIZE := 1]> (n_fuzz s)) s'.

Lemma wp_save_to_queue mem len v (s : saver S) (Q : locals → saver S → Prop) : len ≤ zlen mem →
  (∀ t w k h, same_tr (tr s) t → qword_count (real_map_size cf) ≤ zlen w →
    Q (Locals (new_bits v) 1 (classified v) (is_timeout v) h (cksum v)) (set_trace w k (with_entry mem len v (set_tr t s)))) →
  wp (save_to_queue cf mem len v) s Q.
Proof.
  intros Hl HQ. unfold save_to_queue. apply wp_bind, wp_written; [done|]. intros t Ht. apply wp_bind, wp_get. apply wp_bind, wp_saver.
  apply wp_bind. apply (wp_mono _ _ (λ _ s2, s2 = with_entry mem len v (set_tr t s))).
  { unfold with_entry, new_entry. destruct (decide (cksum v = 0)) as [->|Hc]; [by apply wp_ret|]. rewrite bool_decide_eq_true_2 by done. by apply wp_saver. }
  intros [] s2 ->. apply wp_bind, wp_get. destruct (Hreruns (reruns (with_entry mem len v (set_tr t s))) mem) as (_ & Hc1 & Hc2).
  apply wp_bind, wp_saver. rewrite decide_False by done. by apply wp_ret, HQ.
Qed.

Lemma room_queue mem len v (s : saver S) : saver_ok s → len ≤ zlen mem →
  wp (save_to_queue cf mem len v) s (λ v' s', keeping v' = 1 ∧ saver_ok s' ∧ grows s s' ∧ room s' = room s + 1 ∧ virgin_bits s' = virgin_bits s ∧
    ∃ f, new_entries s' = new_entries s ++ [f] ∧ contents f = take (Z.to_nat len) mem).
Proof.
  intros Hs Hl. apply wp_save_to_queue; [done|]. intros t w k h (T1 & T2 & T3) Hw. split; [done|]. unfold with_entry.
  set (f := new_entry mem len v _). pose proof Hs as [H1' H2' H3' H4' H5' H6' H7'].
  split; [case_decide; split; simpl; rewrite ?T1, ?T2, ?T3; done|].
  split; [case_decide; split; simpl; try done; by apply prefix_app_r|].
  split; [case_decide; unfold room; simpl; rewrite length_app; simpl; lia|]. split; [by case_decide|]. exists f. by case_decide.
Qed.

Lemma hangs_queue mem len v (s : saver S) : len ≤ zlen mem → wp (save_to_queue cf mem len v) s (λ _ s', saved_hangs s' = saved_hangs s).
Proof. intros Hl. apply wp_save_to_queue; [done|]. intros t w k h _ _. unfold with_entry. by case_decide. Qed.

(** The second run: the input may only be cut at the limit. *)
Lemma wp_run_again mem len (s : saver S) : saver_ok s → 0 < len ≤ zlen mem →
  wp (run_again cf mem len) s (λ r s', r.1.1.1 = mem ∧ 0 < r.1.1.2 ≤ len ∧ saver_ok s' ∧ grows s s' ∧
    (∃ t w n, s' = set_trace w n (set_tr t s)) ∧ ∃ k x, r.1.2 = (slow_target k x).1.1 ∧ r.2 = (slow_target k x).2).
Proof.
  intros Hs Hl. pose proof Hs as [H1' H2' H3' H4' H5' H6' (Hh & Hmin & Hmax)]. unfold run_again, write_to_testcase.
  apply wp_bind, wp_in_trimmer. apply wp_bind, wp_get. rewrite decide_True by done.
  set (len' := clamp_length _ _ _ _). assert (0 < len' ≤ len) as Hl' by (unfold len', clamp_length; repeat case_decide; lia).
  apply wp_bind. unfold first_bytes. rewrite decide_True by lia. apply wp_ret, wp_bind, wp_tupd, wp_ret.
  apply wp_bind. simpl. rewrite decide_False by lia. apply wp_ret, wp_bind, wp_get. simpl.
  destruct (Hreruns (reruns s) (take (Z.to_nat len') mem)) as (Hr & _ & _).
  destruct (slow_target (reruns s) (take (Z.to_nat len') mem)) as [[fault words] stop] eqn:Eslow. apply wp_bind, wp_saver, wp_ret. simpl in *.
  pose proof (classify_length (trace_size cf) words) as Hcl.
  split; [done|]. split; [done|]. split; [split; simpl; try done; lia|]. split; [by split|].
  split; [by exists (set_input (take (Z.to_nat len') mem) (tr s)); eexists _, _|]. exists (reruns s), (take (Z.to_nat len') mem). by rewrite Eslow.
Qed.

(** ** The jumps end *)

Lemma judge_ok fault mem : uninstrumented cf = false → fault ≠ FSRV_RUN_ERROR → ∀ fuel len v (s : saver S), saver_ok s → 0 < len ≤ zlen mem →
  bits_left (virgin_tmout s) < Z.of_nat fuel →
  wp (judge cf fuel fault mem len v) s (λ r s', saver_ok s' ∧ grows s s' ∧ room s' ≤ room s ∧
    (r = keeping v ∧ new_entries s' = new_entries s ∨ r = 1 ∧ new_entries s' ≠ new_entries s ∧ fault = FSRV_RUN_TMOUT ∧ keep_timeouts cf = true) ∧
    (fault ≠ FSRV_RUN_TMOUT → virgin_bits s' = virgin_bits s)).
Proof.
  intros Hu Herr. induction fuel as [|fuel IH]; intros len v s Hs Hl Hfuel; [pose proof (bits_left_nonneg (virgin_tmout s)); lia|]. cbn [judge].
  case_decide as Htm.
  2: { case_decide as Hcr; [|rewrite decide_False by done; apply wp_ret; split_and!; [done|reflexivity|done|by left|done]].
    eapply wp_mono; [apply room_crash; [done|lia]|]. intros r s' (-> & Hs' & Hent & Hh & Hvb & Hvt & Hg).
    split; [done|]. split; [by apply Hg|]. split; [unfold room; by rewrite Hent, Hh, Hvb, Hvt|]. split; [by left|done]. }
  apply wp_bind, wp_saver, wp_bind, wp_get. simpl.
  set (s1 := set_hangs _ _ _ _ s). assert (saver_ok s1) as Hs1 by (by destruct Hs; split). assert (grows s s1) as G1 by (by split).
  case_decide as Hfull; [apply wp_ret; split_and!; [done|done|done|by left|done]|].
  apply wp_bind. apply wp_unique; [done|by destruct s|done|apply (so_tmout _ Hs)..|].
  intros b w vt Hw Hvt Hlen Hle Hlt. simpl in *. set (s2 := put_tmout vt _).
  assert (saver_ok s2) as Hs2 by (destruct (so_tmout _ Hs) as [Ht1 Ht2]; destruct Hs; split; try done; simpl; [lia|split; [by rewrite Hlen|done]]).
  assert (grows s s2) as G2 by (split; try done).
  destruct b; simpl; [|apply wp_ret; split_and!; [done|done|unfold room; simpl; lia|by left|done]]. specialize (Hlt eq_refl Hu).
  assert (room s2 + 1 ≤ room s) as Hroom by (unfold room; simpl; lia). set (v2 := Locals _ _ _ _ _ _).
  case_decide as Hgen.
  { eapply wp_mono; [apply room_hang; [done|lia|simpl; lia]|]. intros r s' (-> & Hs' & G & Hent & Hr). split; [done|]. split; [by etrans|]. split; [lia|].
    split; [left; by split|done]. }
  apply wp_bind. eapply wp_mono; [by apply wp_run_again|]. intros [[[mem' len'] f] stop] s3 (Hmem & Hl' & Hs3 & G3 & (t & w' & n & Es3) & _). simpl in Hmem, Hl'. subst mem'.
  assert (room s3 = room s2 ∧ new_entries s3 = new_entries s ∧ virgin_bits s3 = virgin_bits s ∧ saved_hangs s3 = saved_hangs s ∧ virgin_tmout s3 = vt)
    as (R3 & E3 & B3 & S3 & V3) by (by rewrite Es3).
  destruct (negb stop && bool_decide (f = FSRV_RUN_CRASH)).
  { eapply wp_mono; [apply room_crash; [done|lia]|]. intros r s' (-> & Hs' & Hent & Hh & Hvb & Hvt' & Hg). specialize (Hg Hu).
    split; [done|]. split; [etrans; [exact G2|]; by etrans|]. assert (room s' = room s3) as Er by (unfold room; by rewrite Hent, Hh, Hvb, Hvt').
    split; [lia|]. split; [left; split; [done|congruence]|done]. }
  destruct (stop || negb (bool_decide (f = FSRV_RUN_TMOUT))).
  - destruct (keep_timeouts cf) eqn:Hk; [|apply wp_ret; split; [done|]; split; [by etrans|]; split; [lia|]; split; [by left|done]].
    apply wp_bind, wp_saver. apply wp_bind. set (s4 := set_hangs _ _ _ _ s3). assert (saver_ok s4) as Hs4 by (by destruct Hs3; split). assert (grows s3 s4) as G4 by (by split).
    eapply wp_mono; [apply room_queue; [done|lia]|]. intros v5 s5 (Hv5 & Hs5 & G5 & R5 & _ & g & Hg & _).
    assert (grows s3 s5) as G35 by (by etrans). pose proof (gr_tmout _ _ G35) as Htm5. rewrite V3 in Htm5.
    eapply wp_mono; [apply (IH len' v5 s5); [done|lia|lia]|]. intros r s6 (Hs6 & G6 & R6 & Hr & _).
    split; [done|]. split; [etrans; [exact G2|]; etrans; [exact G3|]; by etrans|]. change (room s4) with (room s3) in R5. split; [lia|]. split; [|done].
    right. split; [destruct Hr as [[-> _]|[-> _]]; done|]. split; [|done]. intros Heq. destruct (gr_entries _ _ G6) as [k Hk6].
    rewrite Heq, Hg in Hk6. simpl in Hk6. change (new_entries s4) with (new_entries s3) in Hk6. rewrite E3 in Hk6. apply (f_equal length) in Hk6. rewrite !length_app in Hk6. simpl in Hk6. lia.
  - eapply wp_mono; [apply room_hang; [done|lia|lia]|]. intros r s' (-> & Hs' & G & Hent & Hr). split; [done|]. split; [etrans; [exact G2|]; by etrans|]. split; [lia|].
    split; [left; split; [done|congruence]|done].
Qed.

(** ** The function *)

Lemma wp_new_coverage b (s : saver S) (Q : Z * bool → saver S → Prop) : saver_ok s →
  (∀ r w vb, zlen w = zlen (trace s) → Forall word_ok vb → length vb = length (virgin_bits s) → bits_left vb ≤ bits_left (virgin_bits s) →
    (r.1 ≠ 0 → bits_left vb < bits_left (virgin_bits s)) → Q r (set_virgin vb (virgin_tmout s) (virgin_crash s) (set_trace w (reruns s) s))) →
  wp (new_coverage cf b) s Q.
Proof.
  intros Hs HQ. pose proof (so_trace _ Hs) as Ht. destruct (so_bits _ Hs) as [Hb Hok]. unfold new_coverage. apply wp_bind, wp_get. destruct b.
  - destruct (has_new_bits (real_map_size cf) (trace s) (virgin_bits s)) as [r vb] eqn:E. apply wp_bind, wp_saver, wp_ret.
    destruct (new_bits_left _ _ _ _ _ Ht Hb Hok E) as (H1' & H2' & H3' & H4'). specialize (HQ (r, true) (trace s) vb eq_refl H1' H2' H3' H4'). by destruct s.
  - unfold has_new_bits_unclassified. destruct (skim _ _ _).
    + pose proof (classify_length (trace_size cf) (trace s)) as Hcl.
      destruct (has_new_bits (real_map_size cf) (classify_counts (trace_size cf) (trace s)) (virgin_bits s)) as [r vb] eqn:E. apply wp_bind, wp_saver, wp_ret.
      rewrite <- Hcl in Ht. destruct (new_bits_left _ _ _ _ _ Ht Hb Hok E) as (H1' & H2' & H3' & H4'). by apply (HQ (r, negb (bool_decide (r = 0)))).
    + apply wp_bind, wp_saver, wp_ret. by apply (HQ (0, false)).
Qed.

Lemma save_ok fuel mem len fault (s : saver S) : uninstrumented cf = false → fault ≠ FSRV_RUN_ERROR → saver_ok s → 0 ≤ len ≤ zlen mem →
  bits_left (virgin_tmout s) < Z.of_nat fuel →
  wp (save_if_interesting cf fuel mem len fault) s (λ r s', saver_ok s' ∧ grows s s' ∧ room s' ≤ room s ∧
    (r = 0 ∧ new_entries s' = new_entries s ∨ r = 1 ∧ new_entries s' ≠ new_entries s) ∧
    (r = 1 → fault ≠ FSRV_RUN_TMOUT → bits_left (virgin_bits s') < bits_left (virgin_bits s) ∧
      ∃ f, new_entries s' = new_entries s ++ [f] ∧ contents f = take (Z.to_nat len) mem)).
Proof.
  intros Hu Herr Hs Hl Hfuel. unfold save_if_interesting.
  assert (∀ P : Prop, saver_ok s ∧ grows s s ∧ room s ≤ room s ∧ (0 = 0 ∧ new_entries s = new_entries s ∨ 0 = 1 ∧ new_entries s ≠ new_entries s) ∧ (0 = 1 → P)) as Hnone.
  { intros P. split_and!; [done|reflexivity|done|by left|done]. }
  case_decide as Hempty; [by apply wp_ret|]. case_decide as Hig; [by apply wp_ret|].
  set (special := bool_decide _). apply wp_bind.
  apply (wp_mono _ _ (λ _ s1, ∃ w m, zlen w = zlen (trace s) ∧ s1 = set_n_fuzz m (set_trace w (reruns s) s))).
  { destruct special; [|apply wp_ret; exists (trace s), (n_fuzz s); split; [done|by destruct s]]. unfold count_path. apply wp_bind, wp_classify. intros w Hw.
    apply wp_bind, wp_get. apply wp_bind. case_decide; [apply wp_saver, wp_ret; by exists w; eexists|apply wp_ret, wp_ret; exists w, (n_fuzz s); split; [done|by destruct s]]. }
  intros cksum s1 (w & m & Hw & ->). set (s1 := set_n_fuzz _ _). assert (saver_ok s1) as Hs1 by (destruct Hs; split; simpl; try done; lia).
  assert (grows s s1 ∧ room s1 = room s ∧ new_entries s1 = new_entries s ∧ virgin_bits s1 = virgin_bits s ∧ virgin_tmout s1 = virgin_tmout s) as (G1 & R1 & E1 & B1 & T1) by (split; [by split|done]).
  case_decide as Hmode.
  - apply wp_bind, wp_new_coverage; [done|]. intros r w2 vb Hw2 Hok Hlen Hle Hlt. set (s2 := set_virgin _ _ _ _).
    assert (saver_ok s2) as Hs2.
    { pose proof (so_bits _ Hs1) as [? ?]. destruct Hs1. split; simpl; try done; [lia|split; [rewrite Hlen; done|done]]. }
    assert (grows s s2) as G2 by (etrans; [exact G1|by split]).
    case_decide as Hr.
    { apply wp_bind. apply (wp_mono _ _ (λ _ s3, saver_ok s3 ∧ grows s s3 ∧ room s3 ≤ room s ∧ new_entries s3 = new_entries s)).
      - assert (room s2 ≤ room s) as R2 by (rewrite <- R1; unfold room; simpl in *; lia).
        case_decide; [apply wp_saver|by apply wp_ret]. split; [destruct Hs2; by split|]. split; [etrans; [exact G2|by split]|]. by split.
      - intros _ s3 (Hs3 & G3 & R3 & E3). apply wp_ret. split_and!; [done..|by left|done]. }
    specialize (Hlt Hr). apply wp_bind. eapply wp_mono; [apply room_queue; [done|lia]|]. intros v3 s3 (Hv & Hs3 & G3 & R3 & B3 & f & Hf & Hcf).
    assert (room s2 + 1 ≤ room s) as R2 by (rewrite <- R1; unfold room; simpl in *; lia).
    pose proof (gr_tmout _ _ G3) as Ht3. change (virgin_tmout s2) with (virgin_tmout s) in Ht3.
    eapply wp_mono; [apply (judge_ok fault mem Hu Herr fuel len v3 s3); [done|lia|lia]|]. intros res s4 (Hs4 & G4 & R4 & Hres & Hvb).
    split; [done|]. split; [etrans; [exact G2|]; by etrans|]. split; [lia|]. change (new_entries s2) with (new_entries s) in Hf. split.
    + right. split; [destruct Hres as [[-> _]|[-> _]]; done|]. intros Heq. destruct (gr_entries _ _ G4) as [k Hk]. rewrite Heq, Hf in Hk.
      apply (f_equal length) in Hk. rewrite !length_app in Hk. simpl in Hk. lia.
    + intros _ Hnt. destruct Hres as [[_ Hent]|(_ & _ & ? & _)]; [|done]. split; [|exists f; by rewrite Hent].
      rewrite (Hvb Hnt), B3. rewrite <- B1. exact Hlt.
  - rewrite <- T1 in Hfuel. eapply wp_mono; [apply (judge_ok fault mem Hu Herr fuel len _ s1 Hs1); [lia|done]|]. intros res s4 (Hs4 & G4 & R4 & Hres & Hvb).
    split; [done|]. split; [by etrans|]. split; [lia|]. simpl in Hres. split.
    + destruct Hres as [[-> Hent]|(-> & Hent & _)]; [left; split; [done|congruence]|right; split; [done|congruence]].
    + intros -> Hnt. by destruct Hres as [[? _]|(_ & _ & ? & _)].
Qed.

(** The counter of path [i] after a run on it. *)
Definition path_count (kept : bool) (path : Z) (m : gmap Z Z) (j : Z) : Z :=
  let n := default 0 (m !! j) in
  if decide (j ≠ path mod N_FUZZ_SIZE) then n else if kept && bool_decide (path ≠ 0) then 1 else if decide (n < 0xFFFFFFFF) then n + 1 else n.

Lemma wp_count_path (s : saver S) (Q : Z → saver S → Prop) :
  let w := classify_counts (trace_size cf) (trace s) in
  let path := hash64 (take (Z.to_nat (trace_size cf)) (bytes w)) in
  (∀ m, (∀ j, default 0 (m !! j) = path_count false path (n_fuzz s) j) → Q path (set_n_fuzz m (set_trace w (reruns s) s))) → wp (count_path cf) s Q.
Proof.
  intros w path HQ. unfold count_path. apply wp_bind, wp_saver. apply wp_bind, wp_get. change (trace_hash cf _) with path. simpl. apply wp_bind.
  unfold path_count in HQ. simpl in HQ. case_decide as Hn'.
  - apply wp_saver, wp_ret, HQ. intros j. case_decide as Hj; [by rewrite lookup_insert_ne|]. rewrite Hj in *. by rewrite lookup_insert_eq, decide_True.
  - apply wp_ret, wp_ret. apply HQ. intros j. case_decide as Hj; [done|]. rewrite Hj in *. by rewrite decide_False.
Qed.
End Spec.

#[local] Arguments bits_left : simpl never.



(** ** Sessions *)

(** A run of the target: the words that it leaves in the map, the input, its length and the result. *)
Definition save_all {S : Type} `{!Host, target : !Target, !Rerun} (cf : limits) (fuel : nat) : list (list Z * list Z * Z * Z) → M (saver S) Z :=
  foldr (λ '(words, mem, len, fault) rest,
    _ ← supd (λ s, set_trace words (reruns s) s); r ← save_if_interesting cf fuel mem len fault; n ← rest; mret (r + n)) (mret 0).

Definition run_ok (cf : limits) (run : list Z * list Z * Z * Z) : Prop :=
  qword_count (real_map_size cf) ≤ zlen run.1.1.1 ∧ 0 ≤ run.1.2 ≤ zlen run.1.1.2 ∧ run.2 ≠ FSRV_RUN_ERROR.

(** C10. However many inputs an instrumented target is given and whatever they do, every call of [save_if_interesting]
    returns, and together they keep no more than the virgin maps have bits: the new entries of
    the queue and the hangs use up different bits of [virgin_bits] and [virgin_tmout], the crashes bits of [virgin_crash], and
    there are never more than 500 hangs and 10000 crashes; what was kept stays, and an input that is
    reported as kept is in the queue. *)
Theorem saving_is_bounded {S : Type} `{!Host, target : !Target, !Rerun} cf fuel : never_refuses → reruns_ok cf → uninstrumented cf = false →
  ∀ runs (s : saver S), saver_ok cf s → Forall (run_ok cf) runs → bits_left (virgin_tmout s) < Z.of_nat fuel →
  ∃ n s' entries' hangs' crashes', save_all cf fuel runs s = Ret (n, s') ∧ saver_ok cf s' ∧
    new_entries s' = new_entries s ++ entries' ∧ hangs s' = hangs s ++ hangs' ∧ crashes s' = crashes s ++ crashes' ∧
    n ≤ zlen entries' ∧ zlen entries' + zlen hangs' ≤ bits_left (virgin_bits s) + bits_left (virgin_tmout s) ∧ zlen crashes' ≤ bits_left (virgin_crash s) ∧
    zlen (hangs s') ≤ 500 ∧ zlen (crashes s') ≤ 10000.
Proof.
  intros Hn Hre Hu runs s Hs Hruns Hfuel.
  assert (wp (save_all cf fuel runs) s (λ n s', saver_ok cf s' ∧ grows s s' ∧ room s' ≤ room s ∧ n ≤ zlen (new_entries s') - zlen (new_entries s))) as Hall.
  { clear - Hn Hre Hu Hs Hruns Hfuel. revert s Hs Hfuel. induction Hruns as [|[[[words mem] len] fault] runs (Hw & Hl & Herr) _ IH]; intros s Hs Hfuel; simpl in *.
    { apply wp_ret. split; [done|]. split; [reflexivity|]. lia. }
    apply wp_bind, wp_saver, wp_bind. set (s1 := set_trace words (reruns s) s).
    assert (saver_ok cf s1) as Hs1 by (destruct Hs; by split). assert (grows s s1) as G1 by (by split).
    eapply wp_mono; [by apply (save_ok cf Hn Hre fuel mem len fault s1)|]. intros r s2 (Hs2 & G2 & R2 & Hr & _).
    pose proof (gr_tmout _ _ G2) as Ht2. change (virgin_tmout s1) with (virgin_tmout s) in Ht2.
    apply wp_bind. eapply wp_mono; [apply (IH s2 Hs2); lia|]. intros n s3 (Hs3 & G3 & R3 & Hn3). apply wp_ret.
    split; [done|]. split; [etrans; [exact G1|]; by etrans|]. change (room s1) with (room s) in R2. split; [lia|].
    destruct (gr_entries _ _ G2) as [k Hk]. change (new_entries s1) with (new_entries s) in *. rewrite Hk, length_app in *.
    destruct Hr as [[-> Hent]|[-> Hent]]; [lia|]. destruct k; [by rewrite app_nil_r in *|]. simpl in *. lia. }
  apply wp_Ret in Hall as (n & s' & Hret & Hs' & G & R & Hcount).
  destruct (gr_entries _ _ G) as [es He], (gr_hangs _ _ G) as [hs Hh], (gr_crashes _ _ G) as [cs Hc].
  exists n, s', es, hs, cs. pose proof (gr_crash_room _ _ G) as Hcr. destruct (so_crashes _ _ Hs') as [_ Hc2], (so_hangs _ _ Hs') as [_ Hh2].
  unfold room, crash_room in *. rewrite He, Hh, Hc, !length_app in *. unfold KEEP_UNIQUE_CRASH, KEEP_UNIQUE_HANG in *.
  pose proof (bits_left_nonneg (virgin_bits s')). pose proof (bits_left_nonneg (virgin_tmout s')). pose proof (bits_left_nonneg (virgin_crash s')).
  split_and!; try done; lia.
Qed.

(** ** Without instrumentation *)

Lemma wp_then_stuck {S A B} (m : M S A) (k : A → M S B) s (P : A → S → Prop) : wp m s P → (∀ a s', P a s' → k a s' = NoFuel) → (m ≫= k) s = NoFuel.
Proof. unfold wp, mbind, M_bind. destruct (m s) as [[a s']| |]; naive_solver. Qed.

Lemma stuck_supd {S A} (f : saver S → saver S) (k : unit → M (saver S) A) s : k tt (f s) = NoFuel → (supd f ≫= k) s = NoFuel.
Proof. done. Qed.

Lemma stuck_get {S A} (k : S → M S A) s : k s s = NoFuel → (get_state ≫= k) s = NoFuel.
Proof. done. Qed.

Lemma wp_and {S A} (m : M S A) s (P Q : A → S → Prop) : wp m s P → wp m s Q → wp m s (λ a s', P a s' ∧ Q a s').
Proof. unfold wp. by destruct (m s) as [[a s']| |]. Qed.

(** With more time the target comes to an end, or the user asks afl-fuzz to. *)
Definition only_slow `{!Rerun} : Prop := ∀ k x, (slow_target k x).2 = true ∨ (slow_target k x).1.1 ≠ FSRV_RUN_TMOUT ∧ (slow_target k x).1.1 ≠ FSRV_RUN_CRASH.

Lemma judge_stuck {S : Type} `{!Host, target : !Target, !Rerun} cf mem : never_refuses → reruns_ok cf → uninstrumented cf = true → keep_timeouts cf = true →
  exec_tmout cf < hang_tmout cf → only_slow → ∀ fuel len v (s : saver S), saver_ok cf s → 0 < len ≤ zlen mem → saved_hangs s < KEEP_UNIQUE_HANG →
  judge cf fuel FSRV_RUN_TMOUT mem len v s = NoFuel.
Proof.
  intros Hn Hre Hu Hk Hlt Hslow. induction fuel as [|fuel IH]; intros len v s Hs Hl Hh; [done|]. cbn [judge].
  change (decide (FSRV_RUN_TMOUT = FSRV_RUN_TMOUT)) with (left (B := FSRV_RUN_TMOUT ≠ FSRV_RUN_TMOUT) (eq_refl FSRV_RUN_TMOUT)). cbn beta iota.
  apply stuck_supd, stuck_get. simpl. rewrite decide_False by lia. set (s1 := set_hangs _ _ _ _ s). assert (saver_ok cf s1) as Hs1 by (by destruct Hs; split).
  unfold unique_trace. rewrite Hu. cbn [negb]. eapply wp_then_stuck; [by apply (wp_ret true s1 (λ b s2, b = true ∧ s2 = s1))|]. intros _ _ [-> ->]. simpl.
  rewrite decide_False by lia. eapply wp_then_stuck; [by apply wp_run_again|].
  intros [[[mem' len'] f] stop] s3 (Hmem & Hl' & Hs3 & _ & (t & w & n & Es3) & k & x & Ef & Estop). simpl in Hmem, Hl', Ef, Estop. subst mem' f stop.
  assert (saved_hangs s3 = saved_hangs s) as Hh3 by (by rewrite Es3).
  assert (negb (slow_target k x).2 && bool_decide ((slow_target k x).1.1 = FSRV_RUN_CRASH) = false) as -> by (destruct (Hslow k x) as [->|[_ ?]]; [done|by rewrite bool_decide_eq_false_2, andb_false_r]).
  assert ((slow_target k x).2 || negb (bool_decide ((slow_target k x).1.1 = FSRV_RUN_TMOUT)) = true) as -> by (destruct (Hslow k x) as [->|[? _]]; [done|by rewrite bool_decide_eq_false_2, orb_true_r]).
  rewrite Hk. apply stuck_supd. set (s4 := set_hangs _ _ _ _ s3). assert (saver_ok cf s4) as Hs4 by (by destruct Hs3; split).
  eapply (wp_then_stuck _ _ _ (λ _ s5, saver_ok cf s5 ∧ saved_hangs s5 = saved_hangs s3)); [|intros v5 s5 [Hs5 Hh5]; apply IH; [done|lia|lia]].
  eapply wp_mono; [apply (wp_and _ _ _ _ (room_queue cf Hn Hre mem len' _ s4 Hs4 ltac:(lia)) (hangs_queue cf Hn Hre mem len' _ s4 ltac:(lia)))|].
  intros v5 s5 [(_ & Hs5 & _) Hh5]. by split.
Qed.

(** C11. On a target without instrumentation, with AFL_KEEP_TIMEOUTS set and a time limit below that for hangs, one input
    that is only slow never lets [save_if_interesting] return: each time the input is put
    into the queue the jump leads back to the same test, which has no map to say that the input is known, and a request to stop
    does not end it either. *)
Theorem slow_input_never_saved {S : Type} `{!Host, target : !Target, !Rerun} cf mem len (s : saver S) : never_refuses → reruns_ok cf →
  uninstrumented cf = true → keep_timeouts cf = true → ignore_timeouts cf = false → exec_tmout cf < hang_tmout cf → crash_mode cf ≠ FSRV_RUN_TMOUT →
  only_slow → saver_ok cf s → 0 < len ≤ zlen mem → saved_hangs s < KEEP_UNIQUE_HANG →
  ∀ fuel, save_if_interesting cf fuel mem len FSRV_RUN_TMOUT s = NoFuel.
Proof.
  intros Hn Hre Hu Hk Hig Hlt Hcm Hslow Hs Hl Hh fuel. unfold save_if_interesting. rewrite decide_False by lia. rewrite decide_False by (rewrite Hig; naive_solver).
  eapply (wp_then_stuck _ _ _ (λ _ s1, saver_ok cf s1 ∧ saved_hangs s1 = saved_hangs s)).
  { case_bool_decide; [|by apply wp_ret]. apply wp_count_path. intros m _. pose proof (classify_length (trace_size cf) (trace s)). split; [|done].
    destruct Hs. split; simpl; try done. lia. }
  intros c s1 [Hs1 Hh1]. rewrite decide_False by congruence. apply judge_stuck; try done. by rewrite Hh1.
Qed.

(** ** Witnesses *)

(** The map has 4 words.  With more time the target shows a bit that it did not show before. *)
#[local] Instance four_words : Target := {| run_target _ _ := (0, [1; 0; 0; 0]); stop_soon _ := false; hash64 := foldr Z.add 0 |}.
#[local] Instance patient : Rerun := {| slow_target _ _ := (0, [1; 1; 0; 0], false); calibrate_case _ _ := (0, [1; 1; 0; 0]) |}.

Definition sample_limits (schedule : Z) (blind : bool) : limits := Limits schedule 0 32 32 blind false true 1000 2000.

Definition sample_saver : saver unit :=
  let all := replicate 4 (2 ^ 64 - 1) in
  Saver (Trimmer (AflState (Config EXPLORE false [] 32 false) [] [] [] ∅ false 0 0 [] ∅ 1) tt 0 0 0 0 0 [] [] 1 1048576 ∅ [] [])
    [0; 256; 0; 0] all all all ∅ [] 0 0 0 [] 0 0 [] 0 0.

Lemma sample_saver_ok schedule blind : saver_ok (sample_limits schedule blind) sample_saver.
Proof. split; simpl; try done; split; try done; by repeat constructor. Qed.

Lemma patient_ok schedule blind : reruns_ok (sample_limits schedule blind).
Proof. by intros k x. Qed.


(** A slow input twice, a crash and a normal run. *)
Definition sample_runs : list (list Z * list Z * Z * Z) :=
  [([1; 0; 0; 0], [7; 8; 9], 3, FSRV_RUN_TMOUT); ([0; 3; 0; 0], [4], 1, FSRV_RUN_CRASH); ([0; 0; 5; 0], [5; 6], 2, 0)].

Lemma saving_is_bounded_witness :
  Forall (run_ok (sample_limits FAST false)) sample_runs ∧
  ∃ n s' entries' hangs' crashes', save_all (H := obliging) (sample_limits FAST false) 257 sample_runs sample_saver = Ret (n, s') ∧
    saver_ok (sample_limits FAST false) s' ∧ new_entries s' = [] ++ entries' ∧ hangs s' = [] ++ hangs' ∧ crashes s' = [] ++ crashes' ∧
    n ≤ zlen entries' ∧ zlen entries' + zlen hangs' ≤ bits_left (virgin_bits sample_saver) + bits_left (virgin_tmout sample_saver) ∧
    zlen crashes' ≤ bits_left (virgin_crash sample_saver) ∧ zlen (hangs s') ≤ 500 ∧ zlen (crashes s') ≤ 10000.
Proof.
  assert (Forall (run_ok (sample_limits FAST false)) sample_runs) as Hruns by (by repeat constructor). split; [done|].
  apply (saving_is_bounded (H := obliging) (sample_limits FAST false) 257).
  - done.
  - apply patient_ok.
  - done.
  - apply sample_saver_ok.
  - done.
  - by vm_compute.
Defined.

Lemma slow_input_never_saved_witness :
  saver_ok (sample_limits FAST true) sample_saver ∧
  ∀ fuel, save_if_interesting (H := obliging) (sample_limits FAST true) fuel [7; 8; 9] 3 FSRV_RUN_TMOUT sample_saver = NoFuel.
Proof.
  split; [apply sample_saver_ok|].
  apply (slow_input_never_saved (H := obliging) (sample_limits FAST true)); try done.
  - intros k x. by right.
  - apply sample_saver_ok.
Defined.

(** One run of a slow input on an instrumented target with AFL_KEEP_TIMEOUTS: counted as three timeouts, and in the queue twice. *)
Example slow_input_saved_twice :
  ∃ s', save_all (H := obliging) (sample_limits EXPLORE false) 257 (take 1 sample_runs) sample_saver = Ret (1, s') ∧
    map contents (new_entries s') = [[7; 8; 9]; [7; 8; 9]] ∧ total_tmouts s' = 3 ∧ saved_tmouts s' = 2 ∧ hangs s' = [].
Proof. eexists. split; [vm_compute; reflexivity|]. by vm_compute. Qed.
